(* ===== verification/_CoqProject ===== *)
-Q . S2P
Prelude.v
Model.v
Float64.v
Bytes.v
Decimal.v
Utf8.v
Json.v
Base64.v
JsonCodec.v
Proto.v
Membership.v
ConfigEntry.v
RaftLog.v
Storage.v
WalRecord.v
WalCodec.v
Wal.v
WalFacts.v
Node.v
Election.v
Apply.v
SnapshotOps.v
Replication.v
WalNode.v
ReplicationFacts.v
Durability.v
ElectionFacts.v
ReadIndex.v
ElectionSafety.v
Lock.v
KvStore.v
JsonCommand.v
JsonStore.v
KvSpec.v
KvFacts.v
KvSnapshot.v
KvApplier.v
LogChain.v
LogMatching.v
LogTree.v
RaftSteps.v
RaftHistory.v
StateMachineSafety.v
ReplicationLoop.v
Lifecycle.v
LocalTransport.v
ElectionWins.v
CatchUp.v
ReadSafety.v
Replicas.v
MembershipChange.v
TransportSim.v
Tls.v
RaftRpc.v
Backend.v
Pipeline.v
NodeBackend.v
Server.v
ServerFacts.v
KvRpc.v
KvTest.v
Scheduler.v
SchedulerFacts.v
Worker.v
WorkerFacts.v
Config.v
CommandLine.v
Logging.v
Metrics.v
Runtime.v
RuntimeFacts.v
Health.v
Servers.v
Process.v
