(* ===== verification/Prelude.v ===== *)
(** * RaftIQ: a verified model

    RaftIQ is a replicated key-value store with locks, fenced writes and a job
    queue, built on its own implementation of Raft (Go, under [src/internal],
    [src/client] and [src/cmd/raftiq]).  This library models the program from the
    bytes of the write-ahead log to the start of the process as Rocq functions, and
    proves the properties that make its parts correct.

    ** The program

    A process ([cmd/raftiq]) reads its flags, builds a Raft node ([internal/raft])
    on a write-ahead log ([internal/storage]), a state machine ([internal/kv],
    [internal/lock]), a server ([internal/server]), a scheduler and workers
    ([internal/scheduler], [internal/worker]) and the gRPC endpoints
    ([internal/transport]).  Clients ([client]) send requests to the leader; the server
    proposes a command, the node makes the entry durable, replicates it with
    [AppendEntries], commits it when a quorum of the membership holds it, and sends
    it on the apply channel; the applier decodes it from JSON, applies it to the store and
    wakes the waiting request.  Elections use pre-votes and durable votes; snapshots
    compact the log and bring lagging followers up to date; reads are confirmed by a
    round of heartbeats ([ReadIndex]); members are added and removed through joint
    configurations.  On the leader the scheduler assigns due jobs to workers under a
    lock with a lease, the workers run them, and the server expires locks.

    ** How the code is modelled

    A method that runs under a mutex is a function from the state to the new
    state and the results, with every call on the storage, every guard and every
    early return of the source; errors are values ([result], [option error]).  The
    storage is a type class with a contract ([StorageLaws]), so the Raft theorems hold
    for every implementation of it, with any write failing at any time.  The RPC loops
    around the handlers take a [Transport], a state-passing oracle for the other
    end.  The server, the scheduler and the worker are written against the class
    [Backend] (propose, wait, read index, clock); [BackendLaws] states what a serving
    leader promises them and [NodeBackend] discharges it with the node and the
    applier.  The cluster is a step relation over the handlers; the goroutines of a
    node, of its apply pipeline and of the process are step relations over the sections
    under a mutex and the channel operations.  What the code uses of the Go library
    (encoding/json, base64, utf8, strconv, flag, time.ParseDuration, float64, CRC-32) is
    written out.  [uint64] values are
    [N] with the wrap-around written out, [int64] values are [Z], byte slices are
    lists of bytes, maps are [gmap] and sets [gset].

    ** Files: consensus

    - [Prelude]: machine integers, errors, the result monad, tactics, hints.
    - [Model]: the records of [internal/model] and the RPC messages.
    - [Bytes]: big-endian integers and the readers of [bytes.Reader] used by the
      codecs; [Decimal]: decimal numerals; [Float64]: the float64 arithmetic in use.
    - [Utf8], [Json], [Base64], [JsonCodec]: [encoding/json] with the packages below it:
      the text of values, the parser, and the decoders and encoders of integers, strings,
      byte slices, maps and structs that the program uses, with their round trips.
    - [Proto]: the size of the messages of [api/proto] and the limit of gRPC on it.
    - [Membership]: voters, majorities and joint quorums ([membership.go]).
    - [ConfigEntry]: the byte format of configuration entries
      ([config_entry*.go]).
    - [RaftLog]: the in-memory log ([log.go]) and the abstract log it implements
      ([LogSpec]).
    - [Storage]: the storage interface, its contract [StorageLaws], the memory
      storage ([memory.go], [wal_validate.go]) and a storage that fails on demand.
    - [WalRecord]: the record frame and its CRC-32 ([wal_record.go]).
    - [WalCodec]: the payloads of the records ([wal_state.go], [wal_entries.go],
      [wal_membership.go]).
    - [Wal]: the write-ahead log with its file, recovery and compaction ([wal.go],
      [wal_snapshot.go], [wal_compact.go], [wal_copy.go]), an instance of the
      storage contract.
    - [WalFacts]: crash recovery and compaction; [WalNode]: what a node on a
      write-ahead log keeps across a crash.
    - [Node]: node state, restart, role changes, timers ([node.go],
      [node_role.go], [node_helpers.go], [node_config.go]).
    - [Election]: votes, pre-votes and the election loop ([node_election.go]).
    - [Apply]: the commit rule and the delivery of committed entries
      ([node_apply.go], [node_replication.go]).
    - [SnapshotOps]: creating, installing and sending snapshots
      ([node_snapshot.go]).
    - [Replication]: proposals, [AppendEntries], replies and the retry loop
      ([node_replication.go], [node_heartbeat.go]).
    - [ReplicationFacts], [Durability], [ReplicationLoop]: theorems on one node:
      what an accepted request does, what is durable, when the loop does not end.
    - [ElectionFacts]: when a vote is granted, and when the votes make a leader.
    - [ElectionSafety]: the cluster and the safety of elections.
    - [ReadIndex]: linearizable reads ([node_readindex.go]) and the agreement of
      leader and follower logs.
    - [LogChain]: where the entries of a log come from, and that the operations of a
      node keep its log made of entries its leaders created; [LogMatching]: the cluster
      with its requests, and log matching.
    - [LogTree]: the tree of all entries; [RaftSteps]: what an operation does to a node as
      a move along it; [RaftHistory]: what every history of a cluster satisfies, and what
      follows; [StateMachineSafety]: that runs satisfy it, leader completeness and state
      machine safety.
    - [ReadSafety], [Replicas]: linearizable reads, and the agreement of all state
      machines, in that cluster.
    - [Pipeline]: the apply pipeline as steps: the loop of [applyCommitted], the bounded
      apply channel, the applier and [InstallSnapshot], interleaved.
    - [Lifecycle]: [Start], [Stop] and the goroutines of a node
      ([node_lifecycle.go]).
    - [MembershipChange]: [AddMember] and [RemoveMember] ([node_membership.go]).

    ** Files: transports

    - [LocalTransport]: the in-process transport with blocked links
      ([local_transport.go]); over it [ElectionWins], an election among nodes, and [CatchUp],
      the replication to a node that lags.
    - [TransportSim]: operations of a node over two transports with the same
      outcomes ([transport.go]).
    - [Tls]: mutual TLS ([internal/transport/tls.go]).
    - [RaftRpc]: [RaftService] and [GRPCTransport]
      ([raft_service.go], [grpc_raft_transport*.go]).
    - [KvRpc]: [KVService] and the client package ([kv_service.go], [client/*.go]);
      [KvTest]: the manual test program on it ([cmd/kvtest/main.go]).

    ** Files: state machine and application

    - [Lock], [KvStore]: the lock table and the store with its commands
      ([internal/lock], [internal/kv]).
    - [JsonCommand], [JsonStore]: the JSON of commands ([command.go]) and of locks, fenced
      values and jobs, and that commands read from the log keep the store valid text.
    - [KvSpec]: the store as an abstract transition system, and the proof that
      every command is one of its transitions.
    - [KvFacts]: fencing tokens, fenced values, the lifecycle of jobs.
    - [KvSnapshot]: snapshots of the store and their validation
      ([store_snapshot.go]).
    - [KvApplier]: the applier ([applier.go]).
    - [Backend]: the interface of the application to consensus; [NodeBackend]: the
      node and its applier as an instance.
    - [Server], [ServerFacts]: the client operations, the lock expiration worker
      and the snapshot worker ([internal/server]).
    - [Scheduler], [SchedulerFacts]: worker selection and the scheduling pass
      ([internal/scheduler]).
    - [Worker], [WorkerFacts]: the execution of assigned jobs ([internal/worker]).
    - [Config], [CommandLine]: flags, the parsing of the command line and the validation
      ([cmd/raftiq/config.go]).
    - [Runtime], [RuntimeFacts]: building, starting and stopping a node
      ([cmd/raftiq/runtime.go]).
    - [Health]: liveness and readiness ([internal/observability/health.go],
      [raft_readiness.go]); [Servers]: the gRPC and HTTP servers
      ([internal/transport/server.go], [internal/observability/http.go]).
    - [Process]: a node from its command line to its exit ([cmd/raftiq/main.go] and the
      goroutines of [runtime.go]).
    - [Logging]: the construction of loggers ([internal/observability/logging.go]).
    - [Metrics]: the Prometheus metrics and their adapters ([internal/observability],
      [updateStateMetricsLocked]).

    ** What the theorems show

    - Elections: in a cluster with a fixed membership, any interleaving of
      elections, vote requests and replies, replication, snapshots, proposals, reads,
      timers and restarts has at most one leader per term, and votes survive
      storage failures and restarts ([ElectionSafety]), under the condition on reads below;
      a vote is granted exactly under Raft's conditions, a pre-vote forecasts the vote
      ([ElectionFacts]), and a node that a quorum of its peers would vote for wins
      ([ElectionWins]).
    - Logs: in such a cluster with the requests of its leaders, two logs with an entry of
      the same term at an index have the same entries up to it ([LogMatching]); without
      snapshots, committed entries are in the logs of all later leaders and no two nodes
      ever commit different entries at an index ([StateMachineSafety]).
    - Reads and replicas: an index returned by [ReadIndex] covers everything delivered
      before the read began, whatever the cluster and the reading node do meanwhile, and the
      state machines of all nodes go through the same states ([Replicas], [ReadSafety]).
    - Pipeline: while no snapshot is installed, however the goroutines interleave, the state
      machine gets the committed commands in order, none twice and none missing, and when no
      configuration entry or malformed command is committed the pipeline drains without
      deadlock ([Pipeline]).
    - Quorums and membership: memberships that overlap in time have intersecting
      quorums ([Membership]); a change goes through a joint configuration that the
      quorums of both sides commit ([MembershipChange]).
    - Replication: an accepted request reconciles the log, keeps stored and
      in-memory entries equal, and makes the logs of leader and follower agree
      ([ReplicationFacts], [ReadIndex]); the commit rule and the delivery of
      entries are characterised exactly ([Apply]); the retry loop brings a follower that takes
      the entries to the end of the leader's log ([CatchUp]).
    - Durability: proposals, snapshots and restarts ([Durability]); the log
      implements its abstract specification ([RaftLog]); configuration entries
      round-trip ([ConfigEntry]).
    - Crashes: the write-ahead log satisfies the storage contract, recovers every
      synced call from any file a crash can leave, and is compacted atomically
      ([WalFacts]); altered records are rejected ([WalRecord]); granted votes and
      accepted proposals survive ([WalNode]).
    - Transports: over gRPC a node behaves as over the in-process transport, for the
      messages that gRPC carries ([RaftRpc], with [TransportSim]); connections are neither leaked nor closed
      twice; the Raft endpoint admits the other members and nobody else ([Tls]); a node
      that is cut off makes no progress ([LocalTransport]).
    - State machine: tokens only grow, a lost token never writes again, jobs
      follow their lifecycle, finished jobs are final ([KvFacts]); a command survives its
      JSON exactly when its text is valid ([JsonCommand]); the snapshot of every store
      that the program can have restores exactly ([KvSnapshot]); the applier applies every
      entry in order and stops exactly at malformed ones ([KvApplier]).
    - Application: on a serving leader the requests of clients, direct or over gRPC,
      have the effect and the replies of the sequential store ([ServerFacts],
      [KvRpc]); expirations are not duplicated and snapshots restore what was saved
      ([ServerFacts]); a scheduling pass reclaims expired and assigns due jobs, always
      to the worker all nodes agree on ([Scheduler], [SchedulerFacts]); a worker
      executes the jobs assigned to it once ([WorkerFacts]).
    - Process: an accepted configuration printed as flags parses to itself
      ([CommandLine]); whatever fails, a stopped runtime has given back what it took, and
      nodes with the same peers start with the same membership ([RuntimeFacts]); a node has
      at most one running loop and one election, and [Stop] waits for its goroutines
      ([Lifecycle]); a process makes finitely many steps, releases what it holds, and its
      shutdown ends when its goroutines do ([Process]); the metrics show the state of the node
      ([Metrics]).
    - Defects, each as a theorem: a read heartbeat can commit a conflicting entry,
      a late read reply can lower the term ([ReadIndex]) and let a node vote twice
      ([ElectionSafety]); a compacted node
      cannot restart ([Durability]); a failed write after a compaction erases the
      write-ahead log and some accepted snapshots make it unreadable ([WalFacts]);
      a rejecting peer keeps the leader in a loop ([ReplicationLoop]); a node that goes on
      after a failed sync can end with entries of two leaders, a snapshot that conflicts
      with a follower's log blocks it, a snapshot boundary can be sent as an entry
      ([LogMatching]); an applier that stopped blocks its node, a snapshot is
      overwritten by entries in the channel or rolls the state machine back ([Pipeline]); a
      failed addition leaves the membership joint for good ([MembershipChange]); stopping and
      restarting a node closes a channel twice ([Lifecycle]); expiring a job's lock loses
      the job, an overwritten put is acknowledged, long leases wrap, keys that are not valid
      UTF-8 are replaced ([ServerFacts]); an old snapshot with a key named "version" is
      refused ([KvSnapshot]); a
      worker runs a job that another one was given, a cancelled worker fails the jobs it
      never ran ([WorkerFacts]); configurations that are accepted cannot start, timing
      flags are ignored, a node ID that is not UTF-8 panics ([RuntimeFacts]).

    ** Conditions of the cluster theorems

    Some behaviours of the code break the properties of Raft; the defects above show each
    one at work, and the theorems on clusters leave exactly these out.  The answer that makes
    a read step down must be of a later term than the node that handles it ([timely]); a read
    heartbeat that raises the commit index of a follower must find the entry the leader had
    there ([agrees]); a crash in the middle of an operation must hit a node whose disk held
    its log before it ([faithful]); a snapshot must not end at index 1.  State machine safety
    and what follows from it also ask that the cluster takes no snapshots.  Every claim about
    a write-ahead log allows failing calls and compactions, but not that a write which fails
    directly after a compaction rolls the file back.

    ** Bounds

    Statements about log indexes and terms ask that the next index or term fits
    in 64 bits, and statements about tokens that the counter does not wrap
    during the run; the definitions themselves wrap.  Clock readings of a serving
    backend are below [2^62] nanoseconds.  Loops that end by a
    counter run on that counter; [replicateTo], which has no bound in the source,
    takes fuel, and its theorems say how much is enough and when none is.  The
    rounds of a catch-up loop and the ticks of the scheduler and the worker are the
    passes made before the context ends; statements hold for every number of them.
    The loop of [recover] takes the length of the file, which [recoverLoop_fuel] shows
    to be enough.  A crash keeps a prefix of the file that includes the bytes
    synced before, or, when the directory was not synced after the rename of a compaction, the
    file before it; lost or reordered sectors inside that prefix are not considered.
    The JSON parser takes fuel from the length of the text, which [parse_fuel] shows to be
    enough, and the round trips of commands ask for strings that are valid UTF-8.
    State machine safety, leader completeness and what follows from them are about clusters
    with a fixed membership that take no snapshots, whose peers only grow.
    gRPC, crypto/tls, the Prometheus client and the operating system are parameters of the
    transports, the metrics and the runtime, with their contracts as [NetworkLaws],
    [KvNetworkLaws], [PrometheusLaws] and the record [Env].  gRPC is taken to carry a message
    when its strings are UTF-8 and its size is at most the 4 MB that the program leaves as
    they are; the Prometheus client accepts label values that are UTF-8.

    ** What is not modelled

    The goroutines inside a handler other than those of [Pipeline], [Lifecycle], [Process]
    and the expiration worker (handlers of the cluster are atomic; the reads of [ReadSafety] are
    not), deadlines as times (a context is ended or not), the messages written to loggers, histogram buckets and the
    text format of the metrics, errors when reading files, and the code that protoc
    generates around the messages. *)

From stdpp Require Import base numbers list option strings gmap sets.
From stdpp Require Export base numbers list option strings gmap sets.
From Stdlib Require Export Lia.

(** ** Machine integers

    [uint64] values (terms, log indexes, fencing tokens) are [N] with the
    wrap-around of the source written out by [u64_add] and [u64_sub];
    [int64] and [int] values are [Z]. *)

Declare Scope raftiq_scope.
Delimit Scope raftiq_scope with raftiq.

Definition u32_modulus : N := 4294967296.
Definition u64_modulus : N := 18446744073709551616.

Definition u64_add (a b : N) : N := ((a + b) mod u64_modulus)%N.
Definition u64_sub (a b : N) : N := ((a + (u64_modulus - b mod u64_modulus)) mod u64_modulus)%N.

Notation "a +64 b" := (u64_add a b) (at level 50, left associativity) : raftiq_scope.
Notation "a -64 b" := (u64_sub a b) (at level 50, left associativity) : raftiq_scope.

(** [int64] arithmetic, where it can overflow. *)
Definition i64_wrap (z : Z) : Z := ((z + 2 ^ 63) mod 2 ^ 64 - 2 ^ 63)%Z.

Abbreviation is_u64 n := (n < u64_modulus)%N.
Abbreviation is_i64 z := (- 2 ^ 63 <= z < 2 ^ 63)%Z.

(** ** Errors and results

    A Go [error] is [None] when nil.  Sentinel errors are compared by identity
    ([errors.Is]); [fmt.Errorf] with [%w] wraps one, with two [%w] it wraps
    both; the format arguments are not kept. *)

Inductive error :=
| Sentinel (id : string)
| Msg (text : string)
| Wrap (text : string) (inner : error)
| Wrap2 (text : string) (inner1 inner2 : error).

Fixpoint errors_Is (e : error) (target : string) : bool :=
  match e with
  | Sentinel id => bool_decide (id = target)
  | Msg _ => false
  | Wrap _ e1 => errors_Is e1 target
  | Wrap2 _ e1 e2 => errors_Is e1 target || errors_Is e2 target
  end.

Inductive result (A : Type) :=
| Ok (a : A)
| Err (e : error).
Global Arguments Ok {A} a.
Global Arguments Err {A} e.

Definition wrap_err {A} (text : string) (r : result A) : result A :=
  match r with
  | Ok a => Ok a
  | Err e => Err (Wrap text e)
  end.

Definition isOk {A} (r : result A) : bool :=
  match r with Ok _ => true | Err _ => false end.

#[global] Instance result_ret : MRet result := fun A a => Ok a.
#[global] Instance result_bind : MBind result := fun A B f r =>
  match r with
  | Ok a => f a
  | Err e => Err e
  end.

#[global] Instance error_eq_dec : EqDecision error.
Proof. solve_decision. Defined.

#[global] Instance result_eq_dec {A} `{EqDecision A} : EqDecision (result A).
Proof. solve_decision. Defined.

(** ** Lemmas and tactics shared by the components *)

Lemma u64_add_small a b : (a + b < u64_modulus)%N -> u64_add a b = (a + b)%N.
Proof. intros H. unfold u64_add. by apply N.mod_small. Qed.

Lemma u64_add_lt a b : is_u64 (u64_add a b).
Proof. unfold u64_add. apply N.mod_lt. discriminate. Qed.

Lemma u64_sub_small a b : is_u64 a -> (b <= a)%N -> u64_sub a b = (a - b)%N.
Proof.
  intros Ha Hb. unfold u64_sub.
  rewrite (N.mod_small b) by lia.
  replace (a + (u64_modulus - b))%N with ((a - b) + 1 * u64_modulus)%N by lia.
  rewrite N.Div0.mod_add. apply N.mod_small. lia.
Qed.

Lemma i64_wrap_small z : (- 2 ^ 63 <= z < 2 ^ 63)%Z -> i64_wrap z = z.
Proof. intros Hz. unfold i64_wrap. rewrite Z.mod_small; lia. Qed.

Lemma i64_wrap_range z : (- 2 ^ 63 <= i64_wrap z < 2 ^ 63)%Z.
Proof. unfold i64_wrap. pose proof (Z.mod_pos_bound (z + 2 ^ 63) (2 ^ 64) eq_refl). lia. Qed.

Lemma bind_Ok {A B} (r : result A) (f : A -> result B) b :
  (r ≫= f) = Ok b <-> exists a, r = Ok a /\ f a = Ok b.
Proof. destruct r; cbn; naive_solver. Qed.

#[global] Instance Ok_inj {A} : Inj (=) (=) (@Ok A).
Proof. by intros a b [= ->]. Qed.

Lemma wrap_err_Ok {A} t (r : result A) a : wrap_err t r = Ok a <-> r = Ok a.
Proof. destruct r; cbn; naive_solver. Qed.

(** Case analysis on the conditions of a handler, in the goal or in a
    hypothesis, turning boolean tests into propositions. *)
Ltac bool_norm :=
  repeat match goal with
  | H : bool_decide _ = true |- _ => apply bool_decide_eq_true in H
  | H : bool_decide _ = false |- _ => apply bool_decide_eq_false in H
  | H : N.ltb _ _ = true |- _ => apply N.ltb_lt in H
  | H : N.ltb _ _ = false |- _ => apply N.ltb_ge in H
  | H : N.leb _ _ = true |- _ => apply N.leb_le in H
  | H : N.leb _ _ = false |- _ => apply N.leb_gt in H
  | H : N.eqb _ _ = true |- _ => apply N.eqb_eq in H
  | H : N.eqb _ _ = false |- _ => apply N.eqb_neq in H
  | H : Z.ltb _ _ = true |- _ => apply Z.ltb_lt in H
  | H : Z.ltb _ _ = false |- _ => apply Z.ltb_ge in H
  | H : Z.leb _ _ = true |- _ => apply Z.leb_le in H
  | H : Z.leb _ _ = false |- _ => apply Z.leb_gt in H
  | H : Nat.leb _ _ = true |- _ => apply Nat.leb_le in H
  | H : Nat.leb _ _ = false |- _ => apply Nat.leb_gt in H
  | H : Nat.ltb _ _ = true |- _ => apply Nat.ltb_lt in H
  | H : Nat.ltb _ _ = false |- _ => apply Nat.ltb_ge in H
  | H : negb _ = true |- _ => apply negb_true_iff in H
  | H : negb _ = false |- _ => apply negb_false_iff in H
  | H : andb _ _ = true |- _ => apply andb_true_iff in H as [? ?]
  | H : orb _ _ = false |- _ => apply orb_false_iff in H as [? ?]
  end.

Ltac split_goal_match :=
  match goal with
  | |- context [ match ?x with _ => _ end ] =>
      lazymatch x with
      | context [ match _ with _ => _ end ] => fail
      | _ => destruct x eqn:?
      end
  end.

Ltac split_hyp_match H :=
  match type of H with
  | context [ match ?x with _ => _ end ] =>
      lazymatch x with
      | context [ match _ with _ => _ end ] => fail
      | _ => destruct x eqn:?
      end
  end.

Create HintDb raftiq.
Create Rewrite HintDb raftiq.
#[export] Hint Resolve u64_add_lt : raftiq.
