(* ===== verification/Model.v ===== *)
(** Shared data types of [internal/model] and of the RPC messages of
    [internal/raft/types.go].  A Go [[]byte] is a [list byte]; nil and empty
    slices are identified, and the defensive copies of the source are the
    identity on these immutable values. *)

From S2P Require Import Prelude.
From Stdlib Require Export Strings.Byte.

Abbreviation bytes := (list byte).
Abbreviation NodeID := string.
Abbreviation Term := N.
Abbreviation LogIndex := N.

Record LogEntry := mkLogEntry {
  le_Index : LogIndex;
  le_Term : Term;
  le_Data : bytes;
}.

Record Configuration := mkConfiguration { Voters : list NodeID }.

Record JointConfiguration := mkJoint {
  joint_Old : Configuration;
  joint_New : Configuration;
}.

Record Membership := mkMembership {
  mem_Current : Configuration;
  mem_Joint : option JointConfiguration;
}.

Record PersistentState := mkPersistent {
  ps_CurrentTerm : Term;
  ps_VotedFor : NodeID;
  ps_Membership : Membership;
}.

Record Snapshot := mkSnapshot {
  snap_LastIncludedIndex : LogIndex;
  snap_LastIncludedTerm : Term;
  snap_Data : bytes;
}.

Inductive Role := Follower | Candidate | Leader.

Record RequestVoteArgs := mkRequestVoteArgs {
  rv_Term : Term;
  rv_CandidateID : NodeID;
  rv_LastLogIndex : LogIndex;
  rv_LastLogTerm : Term;
}.

Record RequestVoteReply := mkRequestVoteReply {
  rvr_Term : Term;
  rvr_VoterID : NodeID;
  rvr_VoteGranted : bool;
}.

Record PreVoteArgs := mkPreVoteArgs {
  pv_Term : Term;
  pv_CandidateID : NodeID;
  pv_LastLogIndex : LogIndex;
  pv_LastLogTerm : Term;
}.

Record PreVoteReply := mkPreVoteReply {
  pvr_Term : Term;
  pvr_VoterID : NodeID;
  pvr_VoteGranted : bool;
}.

Record AppendEntriesArgs := mkAppendEntriesArgs {
  ae_Term : Term;
  ae_LeaderID : NodeID;
  ae_PrevLogIndex : LogIndex;
  ae_PrevLogTerm : Term;
  ae_Entries : list LogEntry;
  ae_LeaderCommit : LogIndex;
}.

Record AppendEntriesReply := mkAppendEntriesReply {
  aer_Term : Term;
  aer_FollowerID : NodeID;
  aer_Success : bool;
}.

Record InstallSnapshotArgs := mkInstallSnapshotArgs {
  is_Term : Term;
  is_LeaderID : NodeID;
  is_LastIncludedIndex : LogIndex;
  is_LastIncludedTerm : Term;
  is_Data : bytes;
}.

Record InstallSnapshotReply := mkInstallSnapshotReply {
  isr_Term : Term;
  isr_FollowerID : NodeID;
  isr_Success : bool;
}.

(** The zero values Go gives to uninitialised structs. *)
Definition zero_Configuration : Configuration := mkConfiguration [].
Definition zero_Membership : Membership := mkMembership zero_Configuration None.
Definition zero_PersistentState : PersistentState := mkPersistent 0 "" zero_Membership.
Definition zero_Snapshot : Snapshot := mkSnapshot 0 0 [].

#[global] Instance byte_eq_dec : EqDecision byte := Byte.byte_eq_dec.
#[global] Instance LogEntry_eq_dec : EqDecision LogEntry.
Proof. solve_decision. Defined.
#[global] Instance Configuration_eq_dec : EqDecision Configuration.
Proof. solve_decision. Defined.
#[global] Instance JointConfiguration_eq_dec : EqDecision JointConfiguration.
Proof. solve_decision. Defined.
#[global] Instance Membership_eq_dec : EqDecision Membership.
Proof. solve_decision. Defined.
#[global] Instance PersistentState_eq_dec : EqDecision PersistentState.
Proof. solve_decision. Defined.
#[global] Instance Snapshot_eq_dec : EqDecision Snapshot.
Proof. solve_decision. Defined.
#[global] Instance Role_eq_dec : EqDecision Role.
Proof. solve_decision. Defined.
