(* ===== verification/Float64.v ===== *)
(** The float64 arithmetic the code uses: the conversion of an integer, and the
    quotient and product of [time.ParseDuration].  All values are positive and within
    the range of normal numbers, so a float64 is a whole number times a power of two. *)

From S2P Require Import Prelude.

(** [float64(n)] of an integer, rounded to 53 significant bits, halves to even. *)
Definition float64_of (n : N) : N :=
  if (n <? 2 ^ 53)%N then n
  else
    let e := (N.log2 n - 52)%N in
    let q := (n / 2 ^ e)%N in
    let r := (n mod 2 ^ e)%N in
    let half := (2 ^ (e - 1))%N in
    let up := (half <? r)%N || ((r =? half)%N && N.odd q) in
    ((if up then q + 1 else q) * 2 ^ e)%N.

(** The nearest float64 to [n / d], halves to even. *)
Record float64 := mkFloat64 { f_mantissa : N; f_exponent : Z }.

Definition round_at (n d : N) (e : Z) : N * N * N :=
  let '(a, b) := if (e <? 0)%Z then ((n * 2 ^ Z.to_N (- e))%N, d) else (n, (d * 2 ^ Z.to_N e)%N) in
  ((a / b)%N, (a mod b)%N, b).

Definition round_ratio (n d : N) : float64 :=
  if (n =? 0)%N then mkFloat64 0 0
  else
    let e := (Z.of_N (N.log2 n) - Z.of_N (N.log2 d) - 53)%Z in
    let e := if (fst (fst (round_at n d e)) <? 2 ^ 53)%N then e else (e + 1)%Z in
    let '(q, r, b) := round_at n d e in
    let up := (b <? 2 * r)%N || ((2 * r =? b)%N && N.odd q) in
    mkFloat64 (if up then q + 1 else q)%N e.

(** The product with a float64 that is a whole number. *)
Definition mul_whole (n : N) (x : float64) : float64 :=
  if (f_exponent x <? 0)%Z then round_ratio (n * f_mantissa x) (2 ^ Z.to_N (- f_exponent x))
  else round_ratio (n * f_mantissa x * 2 ^ Z.to_N (f_exponent x)) 1.

(** [uint64(x)] *)
Definition truncate (x : float64) : N :=
  if (f_exponent x <? 0)%Z then (f_mantissa x / 2 ^ Z.to_N (- f_exponent x))%N
  else (f_mantissa x * 2 ^ Z.to_N (f_exponent x))%N.

(** Below 2^53 the conversion is exact; above, two integers can become the same. *)
Lemma float64_exact n : (n < 2 ^ 53)%N -> float64_of n = n.
Proof. intros Hn. unfold float64_of. destruct (N.ltb_spec n (2 ^ 53)); [done|lia]. Qed.

Lemma float64_rounds :
  float64_of (2 ^ 53 + 1) = (2 ^ 53)%N /\ float64_of (2 ^ 53 + 3) = (2 ^ 53 + 4)%N /\
  float64_of (2 ^ 64 - 1) = (2 ^ 64)%N.
Proof. vm_compute. done. Qed.

