(* ===== verification/Bytes.v ===== *)
(** Big-endian integers and the [bytes.Reader] primitives used by the codecs
    of [internal/raft] and [internal/storage]. *)

From S2P Require Import Prelude Model.

Definition byte_of_N (n : N) : byte :=
  match Byte.of_N (n mod 256) with
  | Some b => b
  | None => x00
  end.

(** [binary.Write(buf, binary.BigEndian, v)] for a [k]-byte unsigned integer. *)
Fixpoint be_encode (k : nat) (n : N) : bytes :=
  match k with
  | O => []
  | S k' => be_encode k' (n / 256) ++ [byte_of_N n]
  end.

Definition be_decode (bs : bytes) : N :=
  fold_left (fun acc b => acc * 256 + Byte.to_N b)%N bs 0%N.

Abbreviation be32 n := (be_encode 4 n).
Abbreviation be64 n := (be_encode 8 n).

(** A [bytes.Reader] is the list of bytes it has not read yet. *)
Definition io_EOF : error := Sentinel "EOF".
Definition io_ErrUnexpectedEOF : error := Sentinel "unexpected EOF".

(** [io.ReadFull]: EOF when nothing could be read, ErrUnexpectedEOF on a
    partial read. *)
Definition read_full (k : nat) (r : bytes) : result (bytes * bytes) :=
  if (k <=? length r)%nat then Ok (take k r, drop k r)
  else match r with
       | [] => Err io_EOF
       | _ => Err io_ErrUnexpectedEOF
       end.

(** [binary.Read] of a [k]-byte big-endian integer. *)
Definition read_uint (k : nat) (r : bytes) : result (N * bytes) :=
  '(bs, r') ← read_full k r; Ok (be_decode bs, r').

Definition read_byte (r : bytes) : result (byte * bytes) :=
  match r with
  | [] => Err io_EOF
  | b :: r' => Ok (b, r')
  end.

Abbreviation string_bytes := String.list_byte_of_string.
Abbreviation bytes_string := String.string_of_list_byte.

(** ** Lemmas *)

Lemma eqb_ne c d : c <> d -> Byte.eqb c d = false.
Proof. intros Hn. destruct (Byte.eqb c d) eqn:E; [|done]. by apply Byte.byte_dec_bl in E. Qed.
Lemma eqb_eq c : Byte.eqb c c = true.
Proof. by apply Byte.byte_dec_lb. Qed.

Lemma to_N_byte_of_N n : Byte.to_N (byte_of_N n) = (n mod 256)%N.
Proof.
  unfold byte_of_N. destruct (Byte.of_N (n mod 256)) as [b|] eqn:E.
  - by apply Byte.to_of_N in E.
  - apply Byte.of_N_None_iff in E.
    pose proof (N.mod_lt n 256 ltac:(done)). lia.
Qed.

Lemma byte_of_N_to_N b : byte_of_N (Byte.to_N b) = b.
Proof.
  unfold byte_of_N. pose proof (Byte.to_N_bounded b).
  rewrite N.mod_small by lia. by rewrite Byte.of_to_N.
Qed.

Lemma byte_of_N_mod n b :
  byte_of_N (n * 256 + Byte.to_N b) = b.
Proof.
  rewrite <- (byte_of_N_to_N b) at 2. unfold byte_of_N.
  rewrite N.add_comm, N.Div0.mod_add. done.
Qed.

Lemma be_encode_length k n : length (be_encode k n) = k.
Proof. revert n; induction k as [|k IH]; intros n; cbn; [done|]. rewrite length_app, IH. cbn. lia. Qed.

Lemma be_decode_snoc bs b : be_decode (bs ++ [b]) = (be_decode bs * 256 + Byte.to_N b)%N.
Proof. unfold be_decode. by rewrite fold_left_app. Qed.

Lemma be_decode_encode k n : be_decode (be_encode k n) = (n mod 256 ^ N.of_nat k)%N.
Proof.
  revert n; induction k as [|k IH]; intros n.
  - cbn. by rewrite N.mod_1_r.
  - cbn [be_encode]. rewrite be_decode_snoc, IH, to_N_byte_of_N.
    rewrite Nat2N.inj_succ, N.pow_succ_r by lia.
    rewrite N.Div0.mod_mul_r. lia.
Qed.

Lemma be_encode_decode bs : be_encode (length bs) (be_decode bs) = bs.
Proof.
  induction bs as [|b bs IH] using rev_ind; [done|].
  rewrite length_app, be_decode_snoc. cbn [length]. rewrite Nat.add_1_r. cbn [be_encode].
  rewrite byte_of_N_mod. f_equal.
  pose proof (Byte.to_N_bounded b).
  rewrite N.div_add_l by done. rewrite (N.div_small (Byte.to_N b)) by lia.
  by rewrite N.add_0_r.
Qed.

Lemma be_decode_lt bs : (be_decode bs < 256 ^ N.of_nat (length bs))%N.
Proof.
  rewrite <- (be_encode_decode bs) at 1. rewrite be_decode_encode.
  apply N.mod_lt. by apply N.pow_nonzero.
Qed.

Lemma read_full_app k bs r : length bs = k -> read_full k (bs ++ r) = Ok (bs, r).
Proof.
  intros <-. unfold read_full. rewrite length_app.
  destruct (Nat.leb_spec (length bs) (length bs + length r)); [|lia].
  by rewrite take_app_length, drop_app_length.
Qed.

Lemma read_full_inv k r bs r' :
  read_full k r = Ok (bs, r') -> r = bs ++ r' /\ length bs = k.
Proof.
  unfold read_full. destruct (Nat.leb_spec k (length r)) as [Hk|Hk].
  - intros [= <- <-]. rewrite take_drop. split; [done|]. rewrite length_take. lia.
  - by destruct r.
Qed.

Lemma read_uint_app k n r :
  (n < 256 ^ N.of_nat k)%N -> read_uint k (be_encode k n ++ r) = Ok (n, r).
Proof.
  intros Hn. unfold read_uint. rewrite read_full_app by apply be_encode_length.
  cbn. rewrite be_decode_encode. by rewrite N.mod_small.
Qed.

Lemma read_uint_inv k r n r' :
  read_uint k r = Ok (n, r') ->
  r = be_encode k n ++ r' /\ (n < 256 ^ N.of_nat k)%N.
Proof.
  unfold read_uint. intros ([bs r1] & H & [= <- <-])%bind_Ok.
  apply read_full_inv in H as [-> <-].
  rewrite be_encode_decode. split; [done|apply be_decode_lt].
Qed.

(** A reader holding a strict prefix of [k] bytes reports one of the two
    end-of-file errors. *)
Lemma read_uint_short k r :
  length r < k -> read_uint k r = Err io_EOF \/ read_uint k r = Err io_ErrUnexpectedEOF.
Proof.
  intros Hk. unfold read_uint, read_full.
  destruct (Nat.leb_spec k (length r)); [lia|]. destruct r; cbn; auto.
Qed.

Lemma read_byte_inv r b r' : read_byte r = Ok (b, r') <-> r = b :: r'.
Proof. destruct r; cbn; naive_solver. Qed.

Lemma string_bytes_length s : length (string_bytes s) = String.length s.
Proof.
  unfold String.list_byte_of_string. rewrite length_map.
  induction s as [|a s IH]; cbn; [done|]. by rewrite IH.
Qed.

Lemma bytes_string_length bs : String.length (bytes_string bs) = length bs.
Proof. by rewrite <- string_bytes_length, String.list_byte_of_string_of_list_byte. Qed.

#[export] Hint Rewrite be_encode_length string_bytes_length bytes_string_length
  String.list_byte_of_string_of_list_byte String.string_of_list_byte_of_string : raftiq.
