(* ===== verification/Decimal.v ===== *)
(** Decimal numerals, for flags and JSON: what [strconv] prints and reads. *)

From S2P Require Import Prelude Model Bytes.

Definition is_digit (c : byte) : bool := (48 <=? Byte.to_N c)%N && (Byte.to_N c <=? 57)%N.
Definition digit (c : byte) : N := (Byte.to_N c - 48)%N.

Definition digit_byte (n : N) : byte := byte_of_N (48 + n).

Fixpoint decimal (fuel : nat) (n : N) : bytes :=
  match fuel with
  | O => []
  | S fuel => if (n <? 10)%N then [digit_byte n] else decimal fuel (n / 10) ++ [digit_byte (n mod 10)]
  end.

Definition numeral (ds : bytes) : N := fold_left (fun x c => x * 10 + digit c)%N ds 0%N.

Lemma digit_byte_spec n : (n < 10)%N -> is_digit (digit_byte n) = true /\ digit (digit_byte n) = n.
Proof.
  intros Hn. unfold is_digit, digit, digit_byte. rewrite to_N_byte_of_N, N.mod_small by lia.
  split; [|lia]. apply andb_true_iff. rewrite !N.leb_le. lia.
Qed.

Lemma decimal_spec fuel n :
  (n < 10 ^ N.of_nat fuel)%N -> numeral (decimal fuel n) = n /\ Forall (fun c => is_digit c = true) (decimal fuel n).
Proof.
  revert n. induction fuel as [|fuel IH]; intros n Hn; cbn [decimal].
  { split; [|constructor]. cbn in *. lia. }
  destruct (N.ltb_spec n 10) as [Hlt|Hge].
  - destruct (digit_byte_spec n Hlt) as [Hd Hv]. split; [unfold numeral; cbn; lia|by repeat constructor].
  - destruct (digit_byte_spec (n mod 10)) as [Hd Hv]; [by apply N.mod_lt|].
    destruct (IH (n / 10)%N) as [Hn' Hf].
    { apply N.Div0.div_lt_upper_bound. by rewrite Nat2N.inj_succ, N.pow_succ_r' in Hn. }
    split; [|apply Forall_app; split; [done|by repeat constructor]].
    unfold numeral in *. rewrite fold_left_app, Hn'. cbn. rewrite Hv. pose proof (N.div_mod n 10). lia.
Qed.

Lemma fold_numeral_le ds x : (x <= fold_left (fun x c => x * 10 + digit c)%N ds x)%N.
Proof. revert x. induction ds as [|c ds IH]; intros x; cbn; [lia|]. etrans; [|apply IH]. lia. Qed.

(** A numeral is not empty, and starts with a zero only when it is zero. *)
Lemma decimal_head fuel n :
  (0 < fuel)%nat -> (n < 10 ^ N.of_nat fuel)%N ->
  exists c ds, decimal fuel n = c :: ds /\ (c = x30 -> ds = [] /\ n = 0%N).
Proof.
  revert n. induction fuel as [|fuel IH]; intros n Hf Hn; [lia|]. cbn [decimal].
  destruct (N.ltb_spec n 10) as [Hlt|Hge].
  - exists (digit_byte n), []. split; [done|]. intros E. split; [done|].
    destruct (digit_byte_spec n Hlt) as [_ Hv]. rewrite E in Hv. by cbn in Hv.
  - assert (0 < n / 10 < 10 ^ N.of_nat fuel)%N as Hd.
    { split; [apply N.div_str_pos; lia|]. apply N.Div0.div_lt_upper_bound. by rewrite Nat2N.inj_succ, N.pow_succ_r' in Hn. }
    destruct (IH (n / 10)%N) as (c & ds & -> & Hc); [destruct fuel; [cbn in Hd; lia|lia]|lia|].
    exists c, (ds ++ [digit_byte (n mod 10)]). split; [done|]. intros E. destruct (Hc E) as [_ ?]. lia.
Qed.
