(* ===== verification/Utf8.v ===== *)
(** The package [unicode/utf8] of the Go library, as far as [encoding/json] uses it. *)

From S2P Require Import Prelude Model Bytes.

Definition runeError : N := 65533.

Definition in_range (lo hi : N) (b : byte) : bool := (lo <=? Byte.to_N b)%N && (Byte.to_N b <=? hi)%N.

(** The size of a rune by its first byte, and the range of the second: the table [first]. *)
Definition first_byte (p0 : N) : nat * N * N :=
  if (194 <=? p0)%N && (p0 <=? 223)%N then (2%nat, 128%N, 191%N)
  else if (p0 =? 224)%N then (3%nat, 160%N, 191%N)
  else if (p0 =? 237)%N then (3%nat, 128%N, 159%N)
  else if (225 <=? p0)%N && (p0 <=? 239)%N then (3%nat, 128%N, 191%N)
  else if (p0 =? 240)%N then (4%nat, 144%N, 191%N)
  else if (241 <=? p0)%N && (p0 <=? 243)%N then (4%nat, 128%N, 191%N)
  else if (p0 =? 244)%N then (4%nat, 128%N, 143%N)
  else (0%nat, 0%N, 0%N).

Definition tail6 (b : byte) : N := (Byte.to_N b mod 64)%N.

(** [utf8.DecodeRune]: the rune and its size; [(runeError, 1)] when it is invalid. *)
Definition decodeRune (bs : bytes) : N * nat :=
  match bs with
  | [] => (runeError, 0)
  | b0 :: r =>
      let p0 := Byte.to_N b0 in
      if (p0 <? 128)%N then (p0, 1)
      else
        match first_byte p0, r with
        | (2, lo, hi), b1 :: _ =>
            if in_range lo hi b1 then ((p0 mod 32 * 64 + tail6 b1)%N, 2) else (runeError, 1)
        | (3, lo, hi), b1 :: b2 :: _ =>
            if in_range lo hi b1 && in_range 128 191 b2
            then ((p0 mod 16 * 4096 + tail6 b1 * 64 + tail6 b2)%N, 3) else (runeError, 1)
        | (4, lo, hi), b1 :: b2 :: b3 :: _ =>
            if in_range lo hi b1 && in_range 128 191 b2 && in_range 128 191 b3
            then ((p0 mod 8 * 262144 + tail6 b1 * 4096 + tail6 b2 * 64 + tail6 b3)%N, 4) else (runeError, 1)
        | _, _ => (runeError, 1)
        end
  end.

Definition is_surrogate (r : N) : bool := (55296 <=? r)%N && (r <=? 57343)%N.

(** [utf8.EncodeRune]. *)
Definition encodeRune (r : N) : bytes :=
  let r := if is_surrogate r || (1114111 <? r)%N then runeError else r in
  if (r <? 128)%N then [byte_of_N r]
  else if (r <? 2048)%N then [byte_of_N (192 + r / 64); byte_of_N (128 + r mod 64)]
  else if (r <? 65536)%N
  then [byte_of_N (224 + r / 4096); byte_of_N (128 + r / 64 mod 64); byte_of_N (128 + r mod 64)]
  else [byte_of_N (240 + r / 262144); byte_of_N (128 + r / 4096 mod 64); byte_of_N (128 + r / 64 mod 64);
        byte_of_N (128 + r mod 64)].

(** [utf8.Valid]. *)
Fixpoint valid_from (fuel : nat) (bs : bytes) : bool :=
  match fuel, bs with
  | _, [] => true
  | O, _ => false
  | S fuel, b :: r =>
      if (Byte.to_N b <? 128)%N then valid_from fuel r
      else let '(_, size) := decodeRune bs in (2 <=? size)%nat && valid_from fuel (drop size bs)
  end.
Definition valid_utf8 (bs : bytes) : bool := valid_from (length bs) bs.

(** ** Encoding what was decoded *)

Lemma byte_N_inj a b : Byte.to_N a = Byte.to_N b -> a = b.
Proof. intros E. apply (f_equal Byte.of_N) in E. rewrite !Byte.of_to_N in E. by injection E. Qed.

Lemma byte_of_N_is n b : n = Byte.to_N b -> byte_of_N n = b.
Proof.
  intros ->. apply byte_N_inj. rewrite to_N_byte_of_N. apply N.mod_small. pose proof (Byte.to_N_bounded b). lia.
Qed.

Ltac divide_out := zify; Z.to_euclidean_division_equations; lia.

Lemma first_byte_cases p0 size lo hi :
  first_byte p0 = (size, lo, hi) -> (0 < size)%nat ->
  (size = 2%nat /\ 194 <= p0 <= 223 /\ lo = 128 /\ hi = 191)%N \/
  (size = 3%nat /\ 224 <= p0 <= 239 /\ 128 <= lo /\ hi <= 191 /\ (p0 = 224 -> lo = 160) /\ (p0 = 237 -> hi = 159))%N \/
  (size = 4%nat /\ 240 <= p0 <= 244 /\ 128 <= lo /\ hi <= 191 /\ (p0 = 240 -> lo = 144) /\ (p0 = 244 -> hi = 143))%N.
Proof.
  unfold first_byte. intros E Hs.
  repeat match type of E with (if ?c then _ else _) = _ => destruct c eqn:? end; injection E as <- <- <-;
    repeat match goal with H : _ && _ = true |- _ => apply andb_true_iff in H as [? ?] end; bool_norm; try lia;
    try (left; lia); right; first [left; lia|right; lia].
Qed.

Lemma in_range_spec lo hi b : in_range lo hi b = true <-> (lo <= Byte.to_N b <= hi)%N.
Proof. unfold in_range. rewrite andb_true_iff, !N.leb_le. done. Qed.

Ltac decide_tests :=
  repeat (match goal with
  | |- context [(?a <? ?b)%N] =>
      lazymatch a with context [if _ then _ else _] => fail | _ => destruct (N.ltb_spec a b); try lia end
  | |- context [(?a <=? ?b)%N] =>
      lazymatch a with context [if _ then _ else _] => fail | _ => destruct (N.leb_spec a b); try lia end
  end; cbn [andb orb]).

(** A valid rune beyond ASCII is encoded as it was read. *)
Lemma decodeRune_encode bs r size :
  decodeRune bs = (r, size) -> (2 <= size)%nat ->
  (size <= length bs)%nat /\ encodeRune r = take size bs /\ (128 <= r)%N.
Proof.
  unfold decodeRune. destruct bs as [|b0 rest]; [intros [= <- <-]; lia|].
  destruct (N.ltb_spec (Byte.to_N b0) 128); [intros [= <- <-]; lia|].
  destruct (first_byte (Byte.to_N b0)) as [[sz lo] hi] eqn:Ef. intros E Hs.
  assert (0 < sz)%nat as Hsz by (destruct sz; [simplify_eq; lia|lia]).
  apply first_byte_cases in Ef as [(-> & Hp & -> & ->)|[(-> & Hp & Hlo & Hhi & Ha & Hb)|(-> & Hp & Hlo & Hhi & Ha & Hb)]]; [| | |done];
    set (p0 := Byte.to_N b0) in *.
  - destruct rest as [|b1 rest]; [simplify_eq; lia|]. destruct (in_range _ _ b1) eqn:E1; [|simplify_eq; lia].
    apply in_range_spec in E1. injection E as <- <-. unfold tail6. set (p1 := Byte.to_N b1) in *.
    assert (p0 mod 32 = p0 - 192 /\ p1 mod 64 = p1 - 128)%N as [-> ->] by divide_out.
    split; [cbn; lia|]. split; [|lia]. unfold encodeRune, is_surrogate. decide_tests.
    cbn [take]. f_equal; [|f_equal]; apply byte_of_N_is; fold p0 p1; divide_out.
  - destruct rest as [|b1 [|b2 rest]]; [simplify_eq; lia..|]. destruct (in_range _ _ b1 && _) eqn:E1; [|simplify_eq; lia].
    apply andb_true_iff in E1 as [E1%in_range_spec E2%in_range_spec]. injection E as <- <-.
    unfold tail6. set (p1 := Byte.to_N b1) in *. set (p2 := Byte.to_N b2) in *.
    assert (p0 mod 16 = p0 - 224 /\ p1 mod 64 = p1 - 128 /\ p2 mod 64 = p2 - 128)%N as (-> & -> & ->) by divide_out.
    split; [cbn; lia|]. split; [|lia]. unfold encodeRune, is_surrogate. decide_tests.
    all: cbn [take]; f_equal; [|f_equal; [|f_equal]]; apply byte_of_N_is; fold p0 p1 p2; divide_out.
  - destruct rest as [|b1 [|b2 [|b3 rest]]]; [simplify_eq; lia..|]. destruct (in_range _ _ b1 && _ && _) eqn:E1; [|simplify_eq; lia].
    apply andb_true_iff in E1 as [[E1%in_range_spec E2%in_range_spec]%andb_true_iff E3%in_range_spec]. injection E as <- <-.
    unfold tail6. set (p1 := Byte.to_N b1) in *. set (p2 := Byte.to_N b2) in *. set (p3 := Byte.to_N b3) in *.
    assert (p0 mod 8 = p0 - 240 /\ p1 mod 64 = p1 - 128 /\ p2 mod 64 = p2 - 128 /\ p3 mod 64 = p3 - 128)%N
      as (-> & -> & -> & ->) by divide_out.
    split; [cbn; lia|]. split; [|lia]. unfold encodeRune, is_surrogate. decide_tests.
    all: cbn [take]; f_equal; [|f_equal; [|f_equal; [|f_equal]]]; apply byte_of_N_is; fold p0 p1 p2 p3; divide_out.
Qed.

(** ** Valid text *)

Lemma valid_fuel fuel fuel' bs : valid_from fuel bs = true -> (length bs <= fuel')%nat -> valid_from fuel' bs = true.
Proof.
  revert fuel bs. induction fuel' as [|fuel' IH]; intros fuel bs Hv Hl; [by destruct bs; [|cbn in Hl; lia]|].
  destruct bs as [|b r]; [done|]. destruct fuel as [|fuel]; [done|]. cbn [valid_from length] in *.
  destruct (_ <? 128)%N; [eapply IH; [done|lia]|]. destruct (decodeRune (b :: r)) as [rune size].
  apply andb_true_iff in Hv as [Hs Hv]. rewrite Hs. apply Nat.leb_le in Hs. eapply IH; [done|].
  rewrite length_drop. cbn [length]. lia.
Qed.

(** A rune does not depend on what follows it. *)
Lemma decodeRune_app bs x rune size :
  decodeRune bs = (rune, size) -> (2 <= size)%nat -> decodeRune (bs ++ x) = (rune, size).
Proof.
  unfold decodeRune. destruct bs as [|b0 r]; [intros [= <- <-]; lia|]. cbn [app].
  destruct (_ <? 128)%N; [done|]. destruct (first_byte _) as [[[|[|[|[|[|sz]]]]] lo] hi]; try (intros [= <- <-]; lia).
  - destruct r as [|b1 r]; [intros [= <- <-]; lia|done].
  - destruct r as [|b1 [|b2 r]]; [intros [= <- <-]; lia..|done].
  - destruct r as [|b1 [|b2 [|b3 r]]]; [intros [= <- <-]; lia..|done].
Qed.

Lemma valid_app_from fuel bs x :
  valid_from fuel bs = true -> valid_utf8 x = true -> valid_from (fuel + length x) (bs ++ x) = true.
Proof.
  revert bs. induction fuel as [|fuel IH]; intros bs Hv Hx.
  { by destruct bs; [|done]. }
  destruct bs as [|b r]; [eapply valid_fuel; [exact Hx|cbn; lia]|]. cbn [valid_from app Nat.add] in *.
  destruct (_ <? 128)%N; [by apply IH|]. destruct (decodeRune (b :: r)) as [rune size] eqn:E.
  apply andb_true_iff in Hv as [Hs Hv]. pose proof Hs as Hs'%Nat.leb_le.
  change (b :: r ++ x) with ((b :: r) ++ x). rewrite (decodeRune_app (b :: r) x rune size E Hs'), Hs. cbn [andb].
  destruct (decodeRune_encode _ _ _ E Hs') as (Hl & _).
  rewrite drop_app_le by done. by apply IH.
Qed.

Lemma valid_app a b : valid_utf8 a = true -> valid_utf8 b = true -> valid_utf8 (a ++ b) = true.
Proof. intros Ha Hb. eapply valid_fuel; [by apply valid_app_from|done]. Qed.

Lemma ascii_valid fuel bs : Forall (fun b => (Byte.to_N b < 128)%N) bs -> (length bs <= fuel)%nat -> valid_from fuel bs = true.
Proof.
  intros Hf. revert fuel. induction Hf as [|b r Hb _ IH]; intros [|fuel] Hl; cbn in Hl; try done; [lia|].
  cbn [valid_from]. rewrite (proj2 (N.ltb_lt _ _) Hb). apply IH. lia.
Qed.

Lemma rune_valid bs rune :
  decodeRune bs = (rune, length bs) -> (2 <= length bs)%nat -> valid_utf8 bs = true.
Proof.
  intros E Hl. unfold valid_utf8. destruct bs as [|b r]; [done|]. cbn [length valid_from] in *.
  destruct (_ <? 128)%N eqn:Eb; [unfold decodeRune in E; rewrite Eb in E; simplify_eq; lia|]. rewrite E.
  rewrite (proj2 (Nat.leb_le _ _)) by lia. cbn [drop andb]. rewrite drop_ge by done. by destruct (length r).
Qed.

(** The decoding of bytes whose ranges are known. *)
Ltac decode_tests :=
  unfold decodeRune, in_range; rewrite !to_N_byte_of_N, !(N.mod_small _ 256) by lia; unfold first_byte;
  repeat (match goal with
  | |- context [(?a <? ?b)%N] => destruct (N.ltb_spec a b); try lia
  | |- context [(?a <=? ?b)%N] => destruct (N.leb_spec a b); try lia
  | |- context [(?a =? ?b)%N] => destruct (N.eqb_spec a b); try lia
  end; cbn [andb]); reflexivity.

(** Whatever rune is encoded, the result is valid. *)
Lemma encodeRune_valid r : valid_utf8 (encodeRune r) = true.
Proof.
  unfold encodeRune. set (r' := if is_surrogate r || (1114111 <? r)%N then runeError else r).
  assert (is_surrogate r' = false /\ r' <= 1114111)%N as [Hs Hm].
  { unfold r'. destruct (is_surrogate r || _) eqn:E; [done|]. apply orb_false_iff in E as [? ?%N.ltb_ge]. done. }
  clearbody r'. assert (r' < 55296 \/ 57343 < r')%N as Hns.
  { unfold is_surrogate in Hs. apply andb_false_iff in Hs as [?%N.leb_gt|?%N.leb_gt]; lia. }
  destruct (N.ltb_spec r' 128); [|destruct (N.ltb_spec r' 2048); [|destruct (N.ltb_spec r' 65536)]].
  - apply ascii_valid; [|done]. constructor; [|constructor]. rewrite to_N_byte_of_N. divide_out.
  - assert (194 <= 192 + r' / 64 <= 223 /\ 128 <= 128 + r' mod 64 <= 191)%N as [R0 R1] by divide_out.
    eapply rune_valid; [|cbn; lia]. decode_tests.
  - assert (224 <= 224 + r' / 4096 <= 239 /\ 128 <= 128 + r' / 64 mod 64 <= 191 /\ 128 <= 128 + r' mod 64 <= 191 /\
      (224 + r' / 4096 = 224 -> 160 <= 128 + r' / 64 mod 64) /\
      (224 + r' / 4096 = 237 -> 128 + r' / 64 mod 64 <= 159))%N as (R0 & R1 & R2 & R3 & R4) by divide_out.
    eapply rune_valid; [|cbn; lia]. decode_tests.
  - assert (240 <= 240 + r' / 262144 <= 244 /\ 128 <= 128 + r' / 4096 mod 64 <= 191 /\ 128 <= 128 + r' / 64 mod 64 <= 191 /\
      128 <= 128 + r' mod 64 <= 191 /\ (240 + r' / 262144 = 240 -> 144 <= 128 + r' / 4096 mod 64) /\
      (240 + r' / 262144 = 244 -> 128 + r' / 4096 mod 64 <= 143))%N as (R0 & R1 & R2 & R3 & R4 & R5) by divide_out.
    eapply rune_valid; [|cbn; lia]. decode_tests.
Qed.
