(* ===== verification/Json.v ===== *)
(** JSON text as [encoding/json] of the Go library writes and reads it.

    [render] is the compact text that [json.Marshal] writes for a value; [json_parse] is
    the syntax check and reading of [json.Unmarshal], to a tree of type [json] that the
    decoders of [JsonCodec] then store into structs.  Strings are lists of bytes: what is
    not valid UTF-8 is written and read as U+FFFD. *)

From S2P Require Import Prelude Model Bytes Decimal Utf8.

(** ** Strings *)

Definition hex_byte (n : N) : byte := byte_of_N (if (n <? 10)%N then 48 + n else 87 + n).

Definition escape_u (r : N) : bytes :=
  [x5c; x75; hex_byte (r / 4096); hex_byte (r / 256 mod 16); hex_byte (r / 16 mod 16); hex_byte (r mod 16)].

(** The bytes of [htmlSafeSet] below 128. *)
Definition html_safe (b : byte) : bool :=
  (32 <=? Byte.to_N b)%N && negb (Byte.eqb b x22 || Byte.eqb b x5c || Byte.eqb b x3c || Byte.eqb b x3e || Byte.eqb b x26).

Definition escape_byte (b : byte) : bytes :=
  if html_safe b then [b]
  else if Byte.eqb b x5c || Byte.eqb b x22 then [x5c; b]
  else if Byte.eqb b x08 then [x5c; x62]
  else if Byte.eqb b x0c then [x5c; x66]
  else if Byte.eqb b x0a then [x5c; x6e]
  else if Byte.eqb b x0d then [x5c; x72]
  else if Byte.eqb b x09 then [x5c; x74]
  else escape_u (Byte.to_N b).

(** The body of [appendString], with HTML escaping. *)
Fixpoint escape_from (fuel : nat) (bs : bytes) : bytes :=
  match fuel, bs with
  | _, [] => []
  | O, _ => []
  | S fuel, b :: r =>
      if (Byte.to_N b <? 128)%N then escape_byte b ++ escape_from fuel r
      else
        let '(rune, size) := decodeRune bs in
        if (size <=? 1)%nat then escape_u runeError ++ escape_from fuel r
        else if (rune =? 8232)%N || (rune =? 8233)%N then escape_u rune ++ escape_from fuel (drop size bs)
        else take size bs ++ escape_from fuel (drop size bs)
  end.
Definition quote (bs : bytes) : bytes := x22 :: escape_from (length bs) bs ++ [x22].

Definition hex_value (b : byte) : option N :=
  let c := Byte.to_N b in
  if (48 <=? c)%N && (c <=? 57)%N then Some (c - 48)%N
  else if (97 <=? c)%N && (c <=? 102)%N then Some (c - 87)%N
  else if (65 <=? c)%N && (c <=? 70)%N then Some (c - 55)%N
  else None.

(** The four digits after a backslash and u. *)
Definition getu4 (bs : bytes) : option (N * bytes) :=
  match bs with
  | a :: b :: c :: d :: r =>
      a ← hex_value a; b ← hex_value b; c ← hex_value c; d ← hex_value d;
      Some (a * 4096 + b * 256 + c * 16 + d, r)%N
  | _ => None
  end.

(** The other escapes. *)
Definition unescape (c : byte) : option byte :=
  if Byte.eqb c x22 || Byte.eqb c x5c || Byte.eqb c x2f then Some c
  else if Byte.eqb c x62 then Some x08
  else if Byte.eqb c x66 then Some x0c
  else if Byte.eqb c x6e then Some x0a
  else if Byte.eqb c x72 then Some x0d
  else if Byte.eqb c x74 then Some x09
  else None.

(** What follows a surrogate: the rune, and the rest after it. *)
Definition pair_surrogate (rr : N) (r : bytes) : option (N * bytes) :=
  match r with
  | a :: b :: r' =>
      if Byte.eqb a x5c && Byte.eqb b x75 then
        '(rr1, r'') ← getu4 r';
        if (rr <? 56320)%N && ((56320 <=? rr1)%N && (rr1 <=? 57343)%N)
        then Some ((rr - 55296) * 1024 + (rr1 - 56320) + 65536, r'')%N
        else Some (runeError, r)
      else Some (runeError, r)
  | _ => Some (runeError, r)
  end.

(** One step of the loop of [unquoteBytes] on the text of a string that is not at its
    end: the bytes it adds and the rest. *)
Definition unquote_step (b : byte) (r : bytes) : option (bytes * bytes) :=
  if Byte.eqb b x5c then
    match r with
    | [] => None
    | c :: r' =>
        if Byte.eqb c x75 then
          '(rr, r'') ← getu4 r';
          '(rune, r3) ← (if is_surrogate rr then pair_surrogate rr r'' else Some (rr, r''));
          Some (encodeRune rune, r3)
        else c' ← unescape c; Some ([c'], r')
    end
  else if (Byte.to_N b <? 32)%N then None
  else if (Byte.to_N b <? 128)%N then Some ([b], r)
  else let '(rune, size) := decodeRune (b :: r) in Some (encodeRune rune, drop size (b :: r)).

(** The text of a string up to its closing quote. *)
Fixpoint unquote (fuel : nat) (bs : bytes) : option (bytes * bytes) :=
  match fuel, bs with
  | S fuel, b :: r =>
      if Byte.eqb b x22 then Some ([], r)
      else '(out, r') ← unquote_step b r; '(s, rest) ← unquote fuel r'; Some (out ++ s, rest)
  | _, _ => None
  end.

(** ** Strings are read back *)

Lemma hex_byte_value n : (n < 16)%N -> hex_value (hex_byte n) = Some n.
Proof.
  intros Hn. assert (Forall (fun k => hex_value (hex_byte k) = Some k) (map N.of_nat (seq 0 16))) as Hall.
  { repeat constructor. }
  rewrite Forall_forall in Hall. apply Hall. apply list_elem_of_fmap. exists (N.to_nat n). split; [lia|].
  apply elem_of_seq. lia.
Qed.

Lemma getu4_escape r rest :
  (r < 65536)%N ->
  getu4 (hex_byte (r / 4096) :: hex_byte (r / 256 mod 16) :: hex_byte (r / 16 mod 16) :: hex_byte (r mod 16) :: rest) = Some (r, rest).
Proof.
  intros Hr. cbn [getu4]. rewrite !hex_byte_value by divide_out. cbn [mbind option_bind]. do 2 f_equal. divide_out.
Qed.

Lemma unquote_escape_u r rest :
  (r < 65536)%N -> is_surrogate r = false ->
  unquote_step x5c (tail (escape_u r) ++ rest) = Some (encodeRune r, rest).
Proof.
  intros Hr Hs. unfold unquote_step, escape_u. cbn [tail app Byte.eqb]. rewrite getu4_escape by done.
  replace (Byte.eqb x5c x5c) with true by reflexivity. replace (Byte.eqb x75 x75) with true by reflexivity.
  cbn [mbind option_bind]. by rewrite Hs.
Qed.

(** An ASCII byte is read back. *)
Lemma unquote_escape_byte b rest :
  (Byte.to_N b < 128)%N ->
  exists c r, escape_byte b = c :: r /\ c <> x22 /\ unquote_step c (r ++ rest) = Some ([b], rest).
Proof.
  intros Hb. unfold escape_byte. destruct (html_safe b) eqn:Hs.
  { exists b, []. unfold html_safe in Hs. apply andb_true_iff in Hs as [Hlo%N.leb_le Hne].
    apply negb_true_iff, orb_false_iff in Hne as [[[[Hq Hbs]%orb_false_iff _]%orb_false_iff _]%orb_false_iff _].
    split_and!; [done|by intros ->|]. unfold unquote_step. rewrite Hbs. cbn [app].
    rewrite (proj2 (N.ltb_ge _ _)) by lia. by rewrite (proj2 (N.ltb_lt _ _)). }
  assert (forall c c', unescape c = Some c' -> c <> x75 -> unquote_step x5c (c :: rest) = Some ([c'], rest)) as Hesc.
  { intros c c' Hu Hc. unfold unquote_step. replace (Byte.eqb x5c x5c) with true by reflexivity.
    destruct (Byte.eqb c x75) eqn:E; [by apply Byte.byte_dec_bl in E|]. by rewrite Hu. }
  repeat match goal with
  | |- context [if ?c then _ else _] => destruct c eqn:?
  end; repeat match goal with
  | H : _ || _ = true |- _ => apply orb_true_iff in H as [H|H]
  | H : Byte.eqb _ _ = true |- _ => apply Byte.byte_dec_bl in H as ->
  end;
  try (eexists _, _; split; [reflexivity|]; split; [done|]; by apply Hesc).
  exists x5c, (tail (escape_u (Byte.to_N b))). split; [done|]. split; [done|].
  rewrite unquote_escape_u; [|lia|].
  - do 2 f_equal. unfold encodeRune, is_surrogate. decide_tests. f_equal. by apply byte_of_N_is.
  - unfold is_surrogate. by decide_tests.
Qed.

Lemma valid_cons fuel b r :
  valid_from (S fuel) (b :: r) = true -> (128 <= Byte.to_N b)%N ->
  exists rune size, decodeRune (b :: r) = (rune, size) /\ (2 <= size)%nat /\ valid_from fuel (drop size (b :: r)) = true.
Proof.
  cbn [valid_from]. destruct (N.ltb_spec (Byte.to_N b) 128); [lia|]. destruct (decodeRune (b :: r)) as [rune size].
  intros [?%Nat.leb_le ?]%andb_true_iff. by exists rune, size.
Qed.

Lemma unquote_app fuel c r out r' s rest :
  unquote_step c r = Some (out, r') -> c <> x22 -> unquote fuel r' = Some (s, rest) ->
  unquote (S fuel) (c :: r) = Some (out ++ s, rest).
Proof.
  intros Hs Hc Hu. cbn [unquote]. destruct (Byte.eqb c x22) eqn:E; [by apply Byte.byte_dec_bl in E|]. rewrite Hs. cbn. by rewrite Hu.
Qed.

Lemma decodeRune_take bs rune size x :
  decodeRune bs = (rune, size) -> (2 <= size)%nat -> decodeRune (take size bs ++ x) = (rune, size).
Proof.
  intros E Hs. pose proof (decodeRune_encode bs rune size E Hs) as (Hlen & _). unfold decodeRune in E.
  destruct bs as [|b0 rest]; [simplify_eq; lia|]. destruct (Byte.to_N b0 <? 128)%N eqn:Hb; [simplify_eq; lia|].
  destruct (first_byte (Byte.to_N b0)) as [[[|[|[|[|[|sz]]]]] lo] hi] eqn:Ef; try (simplify_eq; lia).
  - destruct rest as [|b1 rest]; [simplify_eq; lia|]. destruct (in_range _ _ b1) eqn:E1; [|simplify_eq; lia].
    injection E as <- <-. cbn [take app decodeRune]. by rewrite Hb, Ef, E1.
  - destruct rest as [|b1 [|b2 rest]]; [simplify_eq; lia..|]. destruct (in_range _ _ b1 && _) eqn:E1; [|simplify_eq; lia].
    injection E as <- <-. cbn [take app decodeRune]. by rewrite Hb, Ef, E1.
  - destruct rest as [|b1 [|b2 [|b3 rest]]]; [simplify_eq; lia..|]. destruct (in_range _ _ b1 && _ && _) eqn:E1; [|simplify_eq; lia].
    injection E as <- <-. cbn [take app decodeRune]. by rewrite Hb, Ef, E1.
Qed.

(** A valid string is read back as it was written. *)
Lemma unquote_quote f1 f2 bs rest :
  valid_from f1 bs = true -> (length (escape_from f1 bs) < f2)%nat ->
  unquote f2 (escape_from f1 bs ++ x22 :: rest) = Some (bs, rest).
Proof.
  revert f2 bs. induction f1 as [|f1 IH]; intros f2 bs Hv Hf.
  { destruct bs; [|done]. destruct f2; [cbn in Hf; lia|done]. }
  destruct bs as [|b r]; [destruct f2; [cbn in Hf; lia|done]|]. destruct f2 as [|f2]; [lia|].
  destruct (N.ltb_spec (Byte.to_N b) 128) as [Hb|Hb].
  - cbn [valid_from escape_from] in *. rewrite (proj2 (N.ltb_lt _ _) Hb) in *. rewrite length_app in Hf.
    destruct (unquote_escape_byte b (escape_from f1 r ++ x22 :: rest) Hb) as (c & e & Ee & Hc & Hs).
    rewrite Ee in *. rewrite <- app_assoc. cbn [app length] in *.
    apply (unquote_app f2 c _ [b] (escape_from f1 r ++ x22 :: rest)); [done|done|]. apply IH; [done|lia].
  - destruct (valid_cons f1 b r Hv Hb) as (rune & size & Ed & Hsz & Hv'). cbn [escape_from] in *.
    rewrite (proj2 (N.ltb_ge _ _) Hb), Ed in *. rewrite (proj2 (Nat.leb_gt size 1)) in * by lia.
    destruct (decodeRune_encode _ _ _ Ed Hsz) as (Hlen & Henc & Hge).
    replace (Some (b :: r, rest)) with (Some (encodeRune rune ++ drop size (b :: r), rest)) by (by rewrite Henc, take_drop).
    destruct ((rune =? 8232)%N || (rune =? 8233)%N) eqn:El.
    + assert (escape_u rune = x5c :: tail (escape_u rune)) as Eu by done. rewrite Eu in *. rewrite <- app_assoc. cbn [app length] in *.
      assert (rune = 8232 \/ rune = 8233)%N as Hr by (apply orb_true_iff in El as [?%N.eqb_eq|?%N.eqb_eq]; auto).
      eapply unquote_app; [apply unquote_escape_u; [lia|by destruct Hr as [-> | ->]]|done|]. apply IH; [done|].
      rewrite length_app in Hf. lia.
    + rewrite length_app, length_take in Hf. rewrite <- app_assoc. destruct size as [|size]; [lia|]. cbn [take app].
      eapply unquote_app; [|intros ->; cbn in Hb; lia|apply IH; [done|cbn [length] in *; lia]].
      unfold unquote_step. destruct (Byte.eqb b x5c) eqn:E; [apply Byte.byte_dec_bl in E as ->; cbn in Hb; lia|].
      rewrite (proj2 (N.ltb_ge _ _)) by lia. rewrite (proj2 (N.ltb_ge _ _)) by lia.
      change (b :: take size r ++ ?x) with (take (S size) (b :: r) ++ x).
      rewrite (decodeRune_take (b :: r) rune (S size)) by done. do 2 f_equal.
      rewrite drop_app_le by (rewrite length_take; cbn [length] in *; lia).
      rewrite drop_ge by (rewrite length_take; lia). done.
Qed.

(** ** Values *)

#[warnings="-register-all"]
Inductive json :=
| JNull
| JBool (b : bool)
| JNumber (literal : bytes)
| JString (s : bytes)
| JArray (elems : list json)
| JObject (members : list (bytes * json)).

Fixpoint commas (parts : list bytes) : bytes :=
  match parts with
  | [] => []
  | [part] => part
  | part :: parts => part ++ x2c :: commas parts
  end.

Fixpoint render (v : json) : bytes :=
  match v with
  | JNull => string_bytes "null"
  | JBool b => string_bytes (if b then "true" else "false")
  | JNumber literal => literal
  | JString s => quote s
  | JArray elems => x5b :: commas (map render elems) ++ [x5d]
  | JObject members => x7b :: commas (map (fun '(k, v) => quote k ++ x3a :: render v) members) ++ [x7d]
  end.

(** *** Reading *)

Definition is_space (b : byte) : bool := Byte.eqb b x20 || Byte.eqb b x09 || Byte.eqb b x0d || Byte.eqb b x0a.

Fixpoint skip_space (bs : bytes) : bytes :=
  match bs with
  | b :: r => if is_space b then skip_space r else bs
  | [] => []
  end.

Fixpoint span_digits (bs : bytes) : bytes * bytes :=
  match bs with
  | b :: r => if is_digit b then let '(ds, r') := span_digits r in (b :: ds, r') else ([], bs)
  | [] => ([], [])
  end.

(** The digits at the front, at least one. *)
Definition some_digits (bs : bytes) : option (bytes * bytes) :=
  match span_digits bs with
  | ([], _) => None
  | (ds, r) => Some (ds, r)
  end.

Definition scan_fraction (bs : bytes) : option (bytes * bytes) :=
  match bs with
  | b :: r => if Byte.eqb b x2e then '(ds, r) ← some_digits r; Some (b :: ds, r) else Some ([], bs)
  | [] => Some ([], [])
  end.

Definition scan_exponent (bs : bytes) : option (bytes * bytes) :=
  match bs with
  | b :: r =>
      if Byte.eqb b x65 || Byte.eqb b x45 then
        match r with
        | s :: r' =>
            if Byte.eqb s x2b || Byte.eqb s x2d then '(ds, r'') ← some_digits r'; Some (b :: s :: ds, r'')
            else '(ds, r'') ← some_digits r; Some (b :: ds, r'')
        | [] => None
        end
      else Some ([], bs)
  | [] => Some ([], [])
  end.

(** The integer part: a single zero, or digits that do not start with one. *)
Definition scan_integer (bs : bytes) : option (bytes * bytes) :=
  match bs with
  | b :: r => if Byte.eqb b x30 then Some ([b], r) else some_digits bs
  | [] => None
  end.

Definition scan_number (bs : bytes) : option (bytes * bytes) :=
  let '(sign, r) := match bs with
                    | b :: r => if Byte.eqb b x2d then ([b], r) else ([], bs)
                    | [] => ([], [])
                    end in
  '(i, r) ← scan_integer r; '(f, r) ← scan_fraction r; '(e, r) ← scan_exponent r;
  Some (sign ++ i ++ f ++ e, r).

(** The rest after the given text. *)
Fixpoint literal (text bs : bytes) : option bytes :=
  match text, bs with
  | [], _ => Some bs
  | t :: text, b :: r => if Byte.eqb t b then literal text r else None
  | _ :: _, [] => None
  end.

(** The rest after white space and one expected byte. *)
Definition expect (c : byte) (bs : bytes) : option bytes :=
  match skip_space bs with
  | b :: r => if Byte.eqb b c then Some r else None
  | [] => None
  end.

(** [maxNestingDepth] *)
Definition maxNestingDepth : N := 10000.

(** A value and what follows it; [depth] is the number of arrays and objects around it. *)
Fixpoint parse_value (fuel : nat) (depth : N) (bs : bytes) : option (json * bytes) :=
  match fuel with
  | O => None
  | S fuel =>
      match skip_space bs with
      | [] => None
      | c :: r =>
          if Byte.eqb c x7b then
            if (maxNestingDepth <=? depth)%N then None
            else match expect x7d r with
                 | Some r => Some (JObject [], r)
                 | None => '(ms, r) ← parse_members fuel (depth + 1) r; Some (JObject ms, r)
                 end
          else if Byte.eqb c x5b then
            if (maxNestingDepth <=? depth)%N then None
            else match expect x5d r with
                 | Some r => Some (JArray [], r)
                 | None => '(es, r) ← parse_elems fuel (depth + 1) r; Some (JArray es, r)
                 end
          else if Byte.eqb c x22 then '(s, r) ← unquote (length r) r; Some (JString s, r)
          else if Byte.eqb c x74 then r ← literal (string_bytes "rue") r; Some (JBool true, r)
          else if Byte.eqb c x66 then r ← literal (string_bytes "alse") r; Some (JBool false, r)
          else if Byte.eqb c x6e then r ← literal (string_bytes "ull") r; Some (JNull, r)
          else '(n, r) ← scan_number (c :: r); Some (JNumber n, r)
      end
  end
with parse_members (fuel : nat) (depth : N) (bs : bytes) : option (list (bytes * json) * bytes) :=
  match fuel with
  | O => None
  | S fuel =>
      r ← expect x22 bs; '(k, r) ← unquote (length r) r; r ← expect x3a r; '(v, r) ← parse_value fuel depth r;
      match expect x7d r with
      | Some r => Some ([(k, v)], r)
      | None => r ← expect x2c r; '(ms, r) ← parse_members fuel depth r; Some ((k, v) :: ms, r)
      end
  end
with parse_elems (fuel : nat) (depth : N) (bs : bytes) : option (list json * bytes) :=
  match fuel with
  | O => None
  | S fuel =>
      '(v, r) ← parse_value fuel depth bs;
      match expect x5d r with
      | Some r => Some ([v], r)
      | None => r ← expect x2c r; '(es, r) ← parse_elems fuel depth r; Some (v :: es, r)
      end
  end.

(** The one value of a text, with only white space after it. *)
Definition json_parse (bs : bytes) : option json :=
  match parse_value (S (2 * length bs)) 0 bs with
  | Some (v, r) => match skip_space r with [] => Some v | _ => None end
  | None => None
  end.

(** ** What is written is read back *)

Definition json_ind2 (P : json -> Prop) (Hnull : P JNull) (Hbool : forall b, P (JBool b)) (Hnum : forall l, P (JNumber l))
    (Hstr : forall s, P (JString s)) (Harr : forall es, Forall P es -> P (JArray es))
    (Hobj : forall ms, Forall (fun m => P (snd m)) ms -> P (JObject ms)) : forall v, P v :=
  fix go v :=
    match v with
    | JNull => Hnull
    | JBool b => Hbool b
    | JNumber l => Hnum l
    | JString s => Hstr s
    | JArray es => Harr es ((fix all es := match es return Forall P es with
                                           | [] => Forall_nil_2 _
                                           | e :: es => Forall_cons_2 _ _ _ (go e) (all es)
                                           end) es)
    | JObject ms => Hobj ms ((fix all ms := match ms return Forall (fun m => P (snd m)) ms with
                                            | [] => Forall_nil_2 _
                                            | m :: ms => Forall_cons_2 _ _ _ (go (snd m)) (all ms)
                                            end) ms)
    end.

(** What may follow a number. *)
Definition delimited (rest : bytes) : Prop :=
  match rest with
  | [] => True
  | c :: _ => is_digit c = false /\ c <> x2e /\ c <> x65 /\ c <> x45
  end.

Definition number_text (l : bytes) : Prop :=
  (exists c r, l = c :: r /\ (c = x2d \/ is_digit c = true)) /\
  forall rest, delimited rest -> scan_number (l ++ rest) = Some (l, rest).

(** The values with valid strings and numbers that are not nested too deep. *)
Fixpoint writable (depth : N) (v : json) : Prop :=
  match v with
  | JNull | JBool _ => True
  | JNumber l => number_text l
  | JString s => valid_utf8 s = true
  | JArray es => (depth < maxNestingDepth)%N /\ foldr (fun e P => writable (depth + 1) e /\ P) True es
  | JObject ms =>
      (depth < maxNestingDepth)%N /\
      foldr (fun '(k, v) P => (valid_utf8 k = true /\ writable (depth + 1) v) /\ P) True ms
  end.

Lemma skip_space_id c r : is_space c = false -> skip_space (c :: r) = c :: r.
Proof. intros E. cbn. by rewrite E. Qed.

Lemma expect_here c r : is_space c = false -> expect c (c :: r) = Some r.
Proof. intros E. unfold expect. rewrite skip_space_id by done. by rewrite eqb_eq. Qed.

Lemma expect_other c c' r : is_space c' = false -> Byte.eqb c' c = false -> expect c (c' :: r) = None.
Proof. intros E E'. unfold expect. rewrite skip_space_id by done. by rewrite E'. Qed.

Lemma digit_tests c : is_digit c = true ->
  is_space c = false /\ Byte.eqb c x7b = false /\ Byte.eqb c x5b = false /\ Byte.eqb c x22 = false /\ Byte.eqb c x74 = false /\
  Byte.eqb c x66 = false /\ Byte.eqb c x6e = false /\ Byte.eqb c x7d = false /\ Byte.eqb c x5d = false.
Proof. by destruct c. Qed.

(** The first byte of a written value. *)
Lemma render_head depth v :
  writable depth v -> exists c r, render v = c :: r /\ is_space c = false /\ Byte.eqb c x7d = false /\ Byte.eqb c x5d = false.
Proof.
  destruct v as [|[]|l|s|es|ms]; intros Hw; try (eexists _, _; split; [reflexivity|done]).
  destruct Hw as [(c & r & -> & [->|Hd]) _]; [by exists x2d, r|]. exists c, r. apply digit_tests in Hd. naive_solver.
Qed.

Lemma quote_read k rest :
  valid_utf8 k = true -> exists r, quote k ++ rest = x22 :: r /\ unquote (length r) r = Some (k, rest).
Proof.
  intros Hk. exists (escape_from (length k) k ++ x22 :: rest). unfold quote. split; [cbn; by rewrite <- app_assoc|].
  apply unquote_quote; [done|]. rewrite length_app. cbn. lia.
Qed.

Lemma literal_app t r : literal t (t ++ r) = Some r.
Proof. induction t as [|c t IH]; cbn; [done|]. by rewrite eqb_eq. Qed.

Definition reads_back (v : json) : Prop :=
  forall depth fuel rest, writable depth v -> delimited rest -> (2 * length (render v ++ rest) < fuel)%nat ->
    parse_value fuel depth (render v ++ rest) = Some (v, rest).

Definition member_text (m : bytes * json) : bytes := quote (fst m) ++ x3a :: render (snd m).

Lemma parse_members_back ms m depth fuel rest :
  Forall (fun m => reads_back (snd m)) (m :: ms) ->
  Forall (fun m => valid_utf8 (fst m) = true /\ writable depth (snd m)) (m :: ms) ->
  (2 * length (commas (map member_text (m :: ms)) ++ x7d :: rest) < fuel)%nat ->
  parse_members fuel depth (commas (map member_text (m :: ms)) ++ x7d :: rest) = Some (m :: ms, rest).
Proof.
  revert m fuel. induction ms as [|m2 ms IH]; intros [k v] fuel Hrb Hw Hf;
    apply Forall_cons in Hrb as [Hv Hrb]; apply Forall_cons in Hw as [[Hk Hwv] Hw]; destruct fuel as [|fuel]; try lia.
  - cbn [map commas] in *. unfold member_text in *. cbn [fst snd] in *. rewrite <- app_assoc in *. cbn [app] in *.
    destruct (quote_read k (x3a :: render v ++ x7d :: rest) Hk) as (r & E & Hu). rewrite E in *.
    cbn [parse_members]. rewrite expect_here by done. cbn [mbind option_bind]. rewrite Hu. cbn [mbind option_bind]. rewrite expect_here by done. cbn [mbind option_bind].
    rewrite Hv; [|done|done|].
    + cbn [mbind option_bind]. by rewrite expect_here.
    + apply (f_equal length) in E. rewrite length_app in E. cbn [length] in *. lia.
  - change (commas (map member_text ((k, v) :: m2 :: ms)))
      with (member_text (k, v) ++ x2c :: commas (map member_text (m2 :: ms))) in *.
    set (more := commas (map member_text (m2 :: ms))) in *. unfold member_text in Hf |- *. cbn [fst snd] in *.
    rewrite <- ?app_assoc in Hf |- *. cbn [app] in Hf |- *. rewrite <- ?app_assoc in Hf |- *. cbn [app] in Hf |- *.
    destruct (quote_read k (x3a :: render v ++ x2c :: more ++ x7d :: rest) Hk) as (r & E & Hu). rewrite E in *.
    apply (f_equal length) in E. rewrite length_app in E. cbn [length] in *.
    cbn [parse_members]. rewrite expect_here by done. cbn [mbind option_bind]. rewrite Hu. cbn [mbind option_bind]. rewrite expect_here by done. cbn [mbind option_bind].
    rewrite Hv; [|done|done|lia]. cbn [mbind option_bind]. rewrite (expect_other x7d) by done. rewrite expect_here by done. cbn [mbind option_bind].
    rewrite length_app in E. cbn [length] in E. unfold more at 1. rewrite (IH m2 fuel); [done|done|done|]. fold more. lia.
Qed.

Lemma parse_elems_back es e depth fuel rest :
  Forall reads_back (e :: es) -> Forall (writable depth) (e :: es) ->
  (2 * length (commas (map render (e :: es)) ++ x5d :: rest) + 1 < fuel)%nat ->
  parse_elems fuel depth (commas (map render (e :: es)) ++ x5d :: rest) = Some (e :: es, rest).
Proof.
  revert e fuel. induction es as [|e2 es IH]; intros e fuel Hrb Hw Hf;
    apply Forall_cons in Hrb as [Hv Hrb]; apply Forall_cons in Hw as [Hwv Hw]; destruct fuel as [|fuel]; try lia.
  - cbn [map commas parse_elems] in *. rewrite Hv; [|done|done|lia]. cbn [mbind option_bind]. by rewrite expect_here.
  - change (commas (map render (e :: e2 :: es))) with (render e ++ x2c :: commas (map render (e2 :: es))) in *.
    set (more := commas (map render (e2 :: es))) in *. rewrite <- !app_assoc in *. cbn [app parse_elems] in *.
    rewrite length_app in Hf. cbn [length] in Hf. destruct (render_head depth e Hwv) as (c & r & E & _).
    rewrite Hv; [|done|done|rewrite length_app; cbn [length]; lia]. cbn [mbind option_bind]. rewrite (expect_other x5d) by done.
    rewrite expect_here by done. cbn [mbind option_bind]. unfold more at 1. rewrite (IH e2 fuel); [done|done|done|]. fold more.
    rewrite E in Hf. cbn [length] in Hf. lia.
Qed.

Lemma parse_render v : reads_back v.
Proof.
  induction v as [|b|l|s|es IH|ms IH] using json_ind2; intros depth fuel rest Hw Hd Hf; (destruct fuel as [|fuel]; [lia|]).
  - cbn [render parse_value]. change (string_bytes "null" ++ rest) with (x6e :: string_bytes "ull" ++ rest).
    rewrite skip_space_id by done. cbn -[literal String.list_byte_of_string]. by rewrite literal_app.
  - destruct b; cbn [render parse_value].
    + change (string_bytes "true" ++ rest) with (x74 :: string_bytes "rue" ++ rest).
      rewrite skip_space_id by done. cbn -[literal String.list_byte_of_string]. by rewrite literal_app.
    + change (string_bytes "false" ++ rest) with (x66 :: string_bytes "alse" ++ rest).
      rewrite skip_space_id by done. cbn -[literal String.list_byte_of_string]. by rewrite literal_app.
  - destruct Hw as [(c & r & E & Hc) Hscan]. specialize (Hscan rest Hd). cbn [render parse_value]. rewrite E in *. cbn [app] in *.
    destruct Hc as [->|Hc].
    + rewrite skip_space_id by done. cbn -[scan_number]. by rewrite Hscan.
    + apply digit_tests in Hc as (Hs & H1 & H2 & H3 & H4 & H5 & H6 & _). rewrite skip_space_id by done.
      rewrite H1, H2, H3, H4, H5, H6, Hscan. done.
  - cbn [render parse_value]. destruct (quote_read s rest Hw) as (r & -> & Hu). rewrite skip_space_id by done.
    cbn -[unquote]. by rewrite Hu.
  - destruct Hw as [Hdep Hw]. cbn [render parse_value] in *. rewrite <- app_comm_cons in Hf |- *. rewrite <- app_assoc in Hf |- *.
    rewrite skip_space_id by done. change (Byte.eqb x5b x7b) with false. change (Byte.eqb x5b x5b) with true. cbn [app] in Hf |- *.
    rewrite (proj2 (N.leb_gt _ _)) by done. destruct es as [|e es]; [cbn [map commas app]; by rewrite expect_here|].
    assert (Forall (writable (depth + 1)) (e :: es)) as Hall.
    { clear -Hw. induction (e :: es) as [|x l IH]; [constructor|]. cbn in Hw. constructor; naive_solver. }
    destruct (render_head (depth + 1) e) as (c & r & E & Hs & _ & Hne); [by apply Forall_cons in Hall as [? _]|].
    rewrite (parse_elems_back es e); [|done|done|cbn [length] in Hf; lia].
    destruct (expect x5d _) eqn:Ex; [|done]. exfalso.
    assert (exists r', commas (map render (e :: es)) ++ x5d :: rest = c :: r') as [r' E'].
    { cbn [map commas]. destruct (map render es); rewrite E; cbn; eauto. }
    rewrite E' in Ex. by rewrite expect_other in Ex.
  - destruct Hw as [Hdep Hw]. cbn [render parse_value] in *. rewrite <- app_comm_cons in Hf |- *. rewrite <- app_assoc in Hf |- *.
    rewrite skip_space_id by done. change (Byte.eqb x7b x7b) with true. cbn [app] in Hf |- *.
    rewrite (proj2 (N.leb_gt _ _)) by done.
    assert (map (fun '(k, v) => quote k ++ x3a :: render v) ms = map member_text ms) as Em.
    { apply map_ext. by intros []. }
    rewrite Em in *. destruct ms as [|m ms]; [cbn [map commas app]; by rewrite expect_here|].
    assert (Forall (fun m => valid_utf8 (fst m) = true /\ writable (depth + 1) (snd m)) (m :: ms)) as Hall.
    { clear -Hw. induction (m :: ms) as [|[k v] l IH]; [constructor|]. cbn in Hw. constructor; naive_solver. }
    rewrite (parse_members_back ms m); [|done|done|cbn [length] in Hf; lia].
    destruct (expect x7d _) eqn:Ex; [|done]. exfalso.
    assert (exists r', commas (map member_text (m :: ms)) ++ x7d :: rest = x22 :: r') as [r' E'].
    { cbn [map commas]. destruct (map member_text ms); cbn; eauto. }
    rewrite E' in Ex. by rewrite expect_other in Ex.
Qed.

(** Every writable value is read back from its text. *)
Lemma json_parse_render v : writable 0 v -> json_parse (render v) = Some v.
Proof.
  intros Hw. unfold json_parse. pose proof (parse_render v 0%N (S (2 * length (render v))) [] Hw I) as E.
  rewrite app_nil_r in E. rewrite E by lia. done.
Qed.

(** So is one with a newline after it. *)
Lemma json_parse_line v : writable 0 v -> json_parse (render v ++ [x0a]) = Some v.
Proof.
  intros Hw. unfold json_parse. rewrite (parse_render v 0%N _ [x0a] Hw) by (done || lia). done.
Qed.

(** ** The fuel is enough *)

Lemma skip_space_length bs : (length (skip_space bs) <= length bs)%nat.
Proof. induction bs as [|b r IH]; cbn; [lia|]. destruct (is_space b); cbn; lia. Qed.

Lemma expect_length c bs r : expect c bs = Some r -> (length r < length bs)%nat.
Proof.
  unfold expect. pose proof (skip_space_length bs) as Hs. destruct (skip_space bs) as [|b r']; [done|].
  destruct (Byte.eqb b c); [|done]. intros [= ->]. cbn in Hs. lia.
Qed.

Lemma getu4_length bs n r : getu4 bs = Some (n, r) -> (length r < length bs)%nat.
Proof.
  destruct bs as [|a [|b [|c [|d bs]]]]; try done. cbn [getu4]. intros (? & _ & E)%bind_Some.
  apply bind_Some in E as (? & _ & E). apply bind_Some in E as (? & _ & E). apply bind_Some in E as (? & _ & E).
  simplify_eq. cbn. lia.
Qed.

Lemma decodeRune_size b r rune size : decodeRune (b :: r) = (rune, size) -> (1 <= size)%nat.
Proof.
  unfold decodeRune. destruct (_ <? _)%N; [by intros [= <- <-]|].
  destruct (first_byte _) as [[[|[|[|[|[|sz]]]]] lo] hi]; repeat case_match; intros [= <- <-]; lia.
Qed.

Lemma unquote_step_length b r out r' : unquote_step b r = Some (out, r') -> (length r' <= length r)%nat.
Proof.
  unfold unquote_step. destruct (Byte.eqb b x5c).
  - destruct r as [|c r]; [done|]. destruct (Byte.eqb c x75).
    + intros ([rr r2] & Hg & E)%bind_Some. apply getu4_length in Hg. apply bind_Some in E as ([rune r3] & E & E').
      simplify_eq. cbn. destruct (is_surrogate rr); [|simplify_eq; lia]. unfold pair_surrogate in E.
      destruct r2 as [|x [|y r2]]; [simplify_eq; cbn in *; lia..|]. destruct (_ && _); [|simplify_eq; cbn in *; lia].
      apply bind_Some in E as ([rr1 r4] & Hg' & E). apply getu4_length in Hg'. destruct (_ && _); simplify_eq; cbn in *; lia.
    + intros (c' & _ & E)%bind_Some. simplify_eq. cbn. lia.
  - destruct (_ <? 32)%N; [done|]. destruct (_ <? 128)%N; [by intros [= <- <-]|].
    destruct (decodeRune (b :: r)) as [rune size] eqn:E. intros [= <- <-]. apply decodeRune_size in E.
    rewrite length_drop. cbn. lia.
Qed.

Lemma unquote_length fuel bs s r : unquote fuel bs = Some (s, r) -> (length r < length bs)%nat.
Proof.
  revert bs s r. induction fuel as [|fuel IH]; intros bs s r; [by destruct bs|]. destruct bs as [|b bs]; [done|]. cbn [unquote].
  destruct (Byte.eqb b x22); [intros [= <- <-]; cbn; lia|].
  intros ([out r1] & Hs & E)%bind_Some. apply bind_Some in E as ([s1 r2] & Hu & E). simplify_eq.
  apply unquote_step_length in Hs. apply IH in Hu. cbn. lia.
Qed.

(** The text of a string: more fuel than bytes changes nothing. *)
Lemma unquote_fuel f1 f2 bs :
  (length bs <= f1)%nat -> (length bs <= f2)%nat -> unquote f1 bs = unquote f2 bs.
Proof.
  revert f2 bs. induction f1 as [|f1 IH]; intros f2 [|b r] H1 H2; try (cbn in *; lia); [by destruct f2|by destruct f2|].
  destruct f2 as [|f2]; [cbn in *; lia|]. cbn [unquote]. destruct (Byte.eqb b x22); [done|].
  destruct (unquote_step b r) as [[out r']|] eqn:E; [|done]. apply unquote_step_length in E. cbn [mbind option_bind].
  rewrite (IH f2 r'); [done|cbn in *; lia..].
Qed.

Lemma span_digits_length bs ds r : span_digits bs = (ds, r) -> (length ds + length r = length bs)%nat.
Proof.
  revert ds r. induction bs as [|b bs IH]; intros ds r; cbn; [by intros [= <- <-]|].
  destruct (is_digit b); [|by intros [= <- <-]]. destruct (span_digits bs) as [ds' r']. intros [= <- <-].
  cbn. by rewrite (IH ds' r').
Qed.

Lemma some_digits_length bs ds r : some_digits bs = Some (ds, r) -> (length r < length bs)%nat.
Proof.
  unfold some_digits. destruct (span_digits bs) as [[|d ds'] r'] eqn:E; [done|]. intros [= <- <-].
  apply span_digits_length in E. cbn in E. lia.
Qed.

Lemma scan_number_length bs n r : scan_number bs = Some (n, r) -> (length r < length bs)%nat.
Proof.
  unfold scan_number. destruct (match bs with [] => _ | _ => _ end) as [sign r0] eqn:Es.
  assert (length r0 <= length bs)%nat as H0.
  { destruct bs as [|b bs]; [by simplify_eq|]. destruct (Byte.eqb b x2d); simplify_eq; cbn; lia. }
  intros ([i r1] & Hi & E)%bind_Some. apply bind_Some in E as ([f r2] & Hf & E). apply bind_Some in E as ([e r3] & He & E). simplify_eq.
  assert (length r1 < length r0)%nat.
  { destruct r0 as [|b r0]; [done|]. cbn [scan_integer] in Hi. destruct (Byte.eqb b x30); [simplify_eq; cbn; lia|]. by apply some_digits_length in Hi. }
  assert (length r2 <= length r1)%nat.
  { destruct r1 as [|b r1]; [by simplify_eq/=|]. cbn [scan_fraction] in Hf. destruct (Byte.eqb b x2e); [|by simplify_eq].
    apply bind_Some in Hf as ([ds x] & Hd & ?). simplify_eq. apply some_digits_length in Hd. cbn. lia. }
  assert (length r <= length r2)%nat; [|lia].
  destruct r2 as [|b r2]; [by simplify_eq/=|]. cbn [scan_exponent] in He. destruct (_ || _); [|by simplify_eq].
  destruct r2 as [|s r2]; [done|]. destruct (_ || _); apply bind_Some in He as ([ds x] & Hd & ?); simplify_eq;
    apply some_digits_length in Hd; cbn in *; lia.
Qed.

Lemma literal_length t bs r : literal t bs = Some r -> (length r <= length bs)%nat.
Proof.
  revert bs. induction t as [|c t IH]; intros bs; cbn; [by intros [= ->]|]. destruct bs as [|b bs]; [done|].
  destruct (Byte.eqb c b); [|done]. intros ?%IH. cbn. lia.
Qed.

Ltac shorter :=
  repeat match goal with
  | H : expect _ _ = Some _ |- _ => apply expect_length in H
  | H : unquote _ _ = Some _ |- _ => apply unquote_length in H
  | H : scan_number _ = Some _ |- _ => apply scan_number_length in H
  | H : literal _ _ = Some _ |- _ => apply literal_length in H
  | H : context [skip_space ?bs = _ :: _] |- _ => apply (f_equal length) in H; pose proof (skip_space_length bs)
  end; cbn [length] in *; lia.

Ltac split_parse E :=
  repeat match type of E with
  | mbind _ _ = Some _ => apply bind_Some in E as (? & ? & E)
  | (let '(_, _) := ?x in _) = _ => destruct x
  | (if ?c then _ else _) = _ => destruct c
  | match ?x with _ => _ end = _ => let H := fresh in destruct x eqn:H
  end.

(** What is left is shorter. *)
Lemma parse_length fuel :
  (forall d bs v r, parse_value fuel d bs = Some (v, r) -> (length r < length bs)%nat) /\
  (forall d bs ms r, parse_members fuel d bs = Some (ms, r) -> (length r < length bs)%nat) /\
  (forall d bs es r, parse_elems fuel d bs = Some (es, r) -> (length r < length bs)%nat).
Proof.
  induction fuel as [|fuel (IHv & IHm & IHe)]; [done|]. split_and!; intros d bs x r E.
  - cbn [parse_value] in E. destruct (skip_space bs) as [|c r0] eqn:Hs; [done|].
    apply (f_equal length) in Hs. pose proof (skip_space_length bs). cbn [length] in Hs.
    split_parse E; simplify_eq; try done;
      repeat match goal with
      | H : parse_members _ _ _ = Some _ |- _ => apply IHm in H
      | H : parse_elems _ _ _ = Some _ |- _ => apply IHe in H
      end; shorter.
  - cbn [parse_members] in E. split_parse E; simplify_eq;
      repeat match goal with
      | H : parse_members _ _ _ = Some _ |- _ => apply IHm in H
      | H : parse_value _ _ _ = Some _ |- _ => apply IHv in H
      end; shorter.
  - cbn [parse_elems] in E. split_parse E; simplify_eq;
      repeat match goal with
      | H : parse_elems _ _ _ = Some _ |- _ => apply IHe in H
      | H : parse_value _ _ _ = Some _ |- _ => apply IHv in H
      end; shorter.
Qed.

(** Fuel beyond twice the length changes nothing: a text is never refused for want of it. *)
Lemma parse_fuel f1 f2 :
  (forall d bs, (2 * length bs < f1)%nat -> (2 * length bs < f2)%nat -> parse_value f1 d bs = parse_value f2 d bs) /\
  (forall d bs, (2 * length bs < f1)%nat -> (2 * length bs < f2)%nat -> parse_members f1 d bs = parse_members f2 d bs) /\
  (forall d bs, (2 * length bs + 1 < f1)%nat -> (2 * length bs + 1 < f2)%nat -> parse_elems f1 d bs = parse_elems f2 d bs).
Proof.
  revert f2. induction f1 as [|f1 IH]; intros [|f2]; [split_and!; intros; lia..|].
  destruct (IH f2) as (IHv & IHm & IHe). split_and!; intros d bs H1 H2.
  - cbn [parse_value]. destruct (skip_space bs) as [|c r0] eqn:Hs; [done|].
    apply (f_equal length) in Hs. pose proof (skip_space_length bs). cbn [length] in Hs.
    rewrite (IHm (d + 1)%N r0), (IHe (d + 1)%N r0) by lia. done.
  - cbn [parse_members]. destruct (expect x22 bs) as [r1|] eqn:E1; [|done]. cbn [mbind option_bind].
    destruct (unquote (length r1) r1) as [[k r2]|] eqn:E2; [|done]. cbn [mbind option_bind].
    destruct (expect x3a r2) as [r3|] eqn:E3; [|done]. cbn [mbind option_bind].
    apply expect_length in E1, E3. apply unquote_length in E2. rewrite (IHv d r3) by lia.
    destruct (parse_value f2 d r3) as [[v r4]|] eqn:E4; [|done]. apply parse_length in E4. cbn [mbind option_bind].
    destruct (expect x7d r4); [done|]. destruct (expect x2c r4) as [r5|] eqn:E5; [|done]. apply expect_length in E5.
    cbn [mbind option_bind]. by rewrite (IHm d r5) by lia.
  - cbn [parse_elems]. rewrite (IHv d bs) by lia.
    destruct (parse_value f2 d bs) as [[v r4]|] eqn:E4; [|done]. apply parse_length in E4. cbn [mbind option_bind].
    destruct (expect x5d r4); [done|]. destruct (expect x2c r4) as [r5|] eqn:E5; [|done]. apply expect_length in E5.
    cbn [mbind option_bind]. by rewrite (IHe d r5) by lia.
Qed.

(** ** What is read is valid text *)

Fixpoint valid_strings (v : json) : bool :=
  match v with
  | JString s => valid_utf8 s
  | JArray es => forallb valid_strings es
  | JObject ms => forallb (fun '(k, v) => valid_utf8 k && valid_strings v) ms
  | _ => true
  end.

Lemma ascii_byte_valid b : (Byte.to_N b < 128)%N -> valid_utf8 [b] = true.
Proof. intros Hb. apply ascii_valid; [|done]. by constructor. Qed.

Lemma unescape_ascii c c' : unescape c = Some c' -> (Byte.to_N c' < 128)%N.
Proof. by destruct c; intros [= <-]. Qed.

Lemma unquote_step_valid b r out r' : unquote_step b r = Some (out, r') -> valid_utf8 out = true.
Proof.
  unfold unquote_step. destruct (Byte.eqb b x5c).
  - destruct r as [|c r]; [done|]. destruct (Byte.eqb c x75).
    + destruct (getu4 r) as [[rr r1]|]; cbn [mbind option_bind]; [|done].
      destruct (if is_surrogate rr then _ else _) as [[rune r2]|]; cbn [mbind option_bind]; [|done].
      intros [= <- _]. apply encodeRune_valid.
    + destruct (unescape c) as [c'|] eqn:E; cbn [mbind option_bind]; [|done]. intros [= <- _].
      by eapply ascii_byte_valid, unescape_ascii.
  - destruct (_ <? 32)%N; [done|]. destruct (N.ltb_spec (Byte.to_N b) 128); [intros [= <- _]; by apply ascii_byte_valid|].
    destruct (decodeRune (b :: r)) as [rune size]. intros [= <- _]. apply encodeRune_valid.
Qed.

Lemma unquote_valid fuel bs s rest : unquote fuel bs = Some (s, rest) -> valid_utf8 s = true.
Proof.
  revert bs s rest. induction fuel as [|fuel IH]; intros [|b r] s rest; try done. cbn [unquote].
  destruct (Byte.eqb b x22); [by intros [= <- _]|].
  destruct (unquote_step b r) as [[out r']|] eqn:E; cbn [mbind option_bind]; [|done].
  destruct (unquote fuel r') as [[s' rest']|] eqn:E'; cbn [mbind option_bind]; [|done].
  intros [= <- _]. apply valid_app; [by eapply unquote_step_valid|by eapply IH].
Qed.

(** Takes the first step of an option computation that succeeded. *)
Ltac bind_step E :=
  let p := fresh "p" in let r := fresh "r" in let Eq := fresh "E" in
  match type of E with
  | mbind _ ?o = Some _ => destruct o as [p|] eqn:Eq; cbn [mbind option_bind] in E; [try destruct p as [p r]|discriminate E]
  end.

Lemma parse_valid fuel :
  (forall depth bs v r, parse_value fuel depth bs = Some (v, r) -> valid_strings v = true) /\
  (forall depth bs ms r, parse_members fuel depth bs = Some (ms, r) -> valid_strings (JObject ms) = true) /\
  (forall depth bs es r, parse_elems fuel depth bs = Some (es, r) -> valid_strings (JArray es) = true).
Proof.
  induction fuel as [|fuel (IHv & IHm & IHe)]; [done|]. split_and!.
  - intros depth bs v r E. cbn [parse_value] in E. destruct (skip_space bs) as [|c r0]; [done|].
    repeat match type of E with (if ?b then _ else _) = _ => destruct b; try done end.
    + destruct (expect _ r0); [by injection E as <- _|]. bind_step E. injection E as <- _. by eapply IHm.
    + destruct (expect _ r0); [by injection E as <- _|]. bind_step E. injection E as <- _. by eapply IHe.
    + bind_step E. injection E as <- _. by eapply unquote_valid.
    + bind_step E. by injection E as <- _.
    + bind_step E. by injection E as <- _.
    + bind_step E. by injection E as <- _.
    + bind_step E. by injection E as <- _.
  - intros depth bs ms r E. cbn [parse_members] in E. do 4 bind_step E.
    destruct (expect x7d _).
    + injection E as <- _. cbn. erewrite unquote_valid, IHv by done. done.
    + do 2 bind_step E. injection E as <- _. cbn. erewrite unquote_valid, IHv by done. cbn. by eapply IHm.
  - intros depth bs es r E. cbn [parse_elems] in E. bind_step E. destruct (expect x5d _).
    + injection E as <- _. cbn. by erewrite IHv.
    + do 2 bind_step E. injection E as <- _. cbn. erewrite IHv by done. by eapply IHe.
Qed.

Lemma json_parse_valid bs v : json_parse bs = Some v -> valid_strings v = true.
Proof.
  unfold json_parse. destruct (parse_value _ _ bs) as [[v' r]|] eqn:E; [|done]. destruct (skip_space r); [|done].
  intros [= <-]. by eapply parse_valid.
Qed.
