(* ===== verification/Base64.v ===== *)
(** Base64 of the Go library ([base64.StdEncoding]), which [encoding/json] uses for byte
    slices: padded, line breaks are skipped, the unused bits of the last digit are not
    checked. *)

From S2P Require Import Prelude Model Bytes Utf8.

Definition b64_char (n : N) : byte :=
  byte_of_N (if (n <? 26)%N then 65 + n else if (n <? 52)%N then 71 + n else if (n <? 62)%N then n - 4
             else if (n =? 62)%N then 43 else 47).

Definition b64_value (b : byte) : option N :=
  let c := Byte.to_N b in
  if (65 <=? c)%N && (c <=? 90)%N then Some (c - 65)%N
  else if (97 <=? c)%N && (c <=? 122)%N then Some (c - 71)%N
  else if (48 <=? c)%N && (c <=? 57)%N then Some (c + 4)%N
  else if (c =? 43)%N then Some 62%N
  else if (c =? 47)%N then Some 63%N
  else None.

Fixpoint b64_encode (bs : bytes) : bytes :=
  match bs with
  | [] => []
  | [a] =>
      let a := Byte.to_N a in
      [b64_char (a / 4); b64_char (a mod 4 * 16); x3d; x3d]
  | [a; b] =>
      let a := Byte.to_N a in let b := Byte.to_N b in
      [b64_char (a / 4); b64_char (a mod 4 * 16 + b / 16); b64_char (b mod 16 * 4); x3d]
  | a :: b :: c :: rest =>
      let a := Byte.to_N a in let b := Byte.to_N b in let c := Byte.to_N c in
      b64_char (a / 4) :: b64_char (a mod 4 * 16 + b / 16) :: b64_char (b mod 16 * 4 + c / 64) :: b64_char (c mod 64)
        :: b64_encode rest
  end.

(** The digits of whole groups of four; padding ends the text. *)
Fixpoint b64_groups (bs : bytes) : option bytes :=
  match bs with
  | [] => Some []
  | a :: b :: c :: d :: rest =>
      a ← b64_value a; b ← b64_value b;
      if Byte.eqb c x3d then
        if Byte.eqb d x3d && bool_decide (rest = []) then Some [byte_of_N (a * 4 + b / 16)] else None
      else
        c ← b64_value c;
        if Byte.eqb d x3d then
          if bool_decide (rest = []) then Some [byte_of_N (a * 4 + b / 16); byte_of_N (b * 16 + c / 4)] else None
        else
          d ← b64_value d; out ← b64_groups rest;
          Some (byte_of_N (a * 4 + b / 16) :: byte_of_N (b * 16 + c / 4) :: byte_of_N (c * 64 + d) :: out)
  | _ => None
  end.

Definition b64_decode (bs : bytes) : option bytes :=
  b64_groups (filter (fun b => b <> x0a /\ b <> x0d) bs).

(** ** Bytes are read back *)

Lemma b64_char_value n : (n < 64)%N ->
  b64_value (b64_char n) = Some n /\ Byte.eqb (b64_char n) x3d = false /\ b64_char n <> x0a /\ b64_char n <> x0d /\
  (Byte.to_N (b64_char n) < 128)%N.
Proof.
  intros Hn. assert (forallb (fun k => bool_decide (b64_value (b64_char k) = Some k) && negb (Byte.eqb (b64_char k) x3d) &&
    negb (Byte.eqb (b64_char k) x0a) && negb (Byte.eqb (b64_char k) x0d) && (Byte.to_N (b64_char k) <? 128)%N)
    (map N.of_nat (seq 0 64)) = true) as Hall by (vm_compute; reflexivity).
  rewrite forallb_forall in Hall. specialize (Hall n).
  assert (In n (map N.of_nat (seq 0 64))) as Hin.
  { apply in_map_iff. exists (N.to_nat n). split; [lia|]. apply in_seq. lia. }
  apply Hall in Hin. rewrite !andb_true_iff, !negb_true_iff in Hin. destruct Hin as ((((H1 & H2) & H3) & H4) & H5).
  bool_norm. split_and!; try done; intros E; rewrite E in *; done.
Qed.

Lemma b64_encode_ind (P : bytes -> Prop) :
  P [] -> (forall a, P [a]) -> (forall a b, P [a; b]) -> (forall a b c r, P r -> P (a :: b :: c :: r)) -> forall bs, P bs.
Proof.
  intros H0 H1 H2 H3. assert (forall n bs, (length bs <= n)%nat -> P bs) as Hall; [|intros bs; by apply (Hall (length bs))].
  induction n as [|n IH]; intros [|a [|b [|c r]]] Hl; cbn in Hl; try done; try lia. apply H3, IH. lia.
Qed.

Ltac b64_digits := rewrite ?(fun n H => proj1 (b64_char_value n H)), ?(fun n H => proj1 (proj2 (b64_char_value n H))) by divide_out.

Lemma b64_groups_encode bs : b64_groups (b64_encode bs) = Some bs.
Proof.
  induction bs as [|a|a b|a b c r IH] using b64_encode_ind; [done| | |];
    pose proof (Byte.to_N_bounded a); try pose proof (Byte.to_N_bounded b); try pose proof (Byte.to_N_bounded c).
  - cbn -[N.div N.modulo N.mul N.add b64_value b64_char Byte.eqb]. b64_digits. cbn [mbind option_bind].
    change (Byte.eqb x3d x3d) with true. cbn [andb]. rewrite ?bool_decide_true by done. do 2 f_equal. apply byte_of_N_is. divide_out.
  - cbn -[N.div N.modulo N.mul N.add b64_value b64_char Byte.eqb]. b64_digits. cbn [mbind option_bind].
    change (Byte.eqb x3d x3d) with true. rewrite ?bool_decide_true by done. do 2 f_equal; [|f_equal].
    + apply byte_of_N_is. divide_out.
    + apply byte_N_inj. rewrite to_N_byte_of_N. divide_out.
  - cbn -[N.div N.modulo N.mul N.add b64_value b64_char Byte.eqb]. b64_digits. cbn [mbind option_bind]. rewrite IH. cbn [mbind option_bind].
    do 2 f_equal; [|f_equal; [|f_equal]]; apply byte_N_inj; rewrite to_N_byte_of_N; divide_out.
Qed.

Lemma b64_encode_plain bs : Forall (fun b => (b <> x0a /\ b <> x0d) /\ (Byte.to_N b < 128)%N) (b64_encode bs).
Proof.
  assert (forall n, (n < 64)%N -> (b64_char n <> x0a /\ b64_char n <> x0d) /\ (Byte.to_N (b64_char n) < 128)%N) as Hc.
  { intros n Hn. apply b64_char_value in Hn. tauto. }
  induction bs as [|a|a b|a b c r IH] using b64_encode_ind; [constructor| | |];
    pose proof (Byte.to_N_bounded a); try pose proof (Byte.to_N_bounded b); try pose proof (Byte.to_N_bounded c);
    cbn -[N.div N.modulo N.mul N.add b64_char]; repeat (constructor; [first [apply Hc; divide_out|done]|]); [constructor..|done].
Qed.

Lemma b64_roundtrip bs : b64_decode (b64_encode bs) = Some bs.
Proof.
  unfold b64_decode. rewrite <- (b64_groups_encode bs). f_equal.
  induction (b64_encode_plain bs) as [|b r [Hb _] _ IH]; [done|]. by rewrite filter_cons_True, IH.
Qed.
