(* ===== verification/JsonCodec.v ===== *)
(** Storing JSON into Go values: the part of [json.Unmarshal] and [json.Marshal] that
    depends on the types used by the program: integers, strings, byte slices, maps with
    string keys, and structs by their field names.

    A decoder takes the value found in the text and what the variable holds, and gives what
    it holds afterwards, or [None] for an error; a JSON null leaves the variable alone, or
    empties it if it is a slice or a map.  As in the library, a field is found by its exact
    name, or else by its name without regard to case, unknown fields are skipped, and of
    equal fields the last one counts (maps are merged). *)

From stdpp Require Import sorting.
From S2P Require Import Prelude Model Bytes Decimal Utf8 Json Base64.

(** ** Integers *)

Definition digits_value (ds : bytes) : option N :=
  if forallb is_digit ds && negb (bool_decide (ds = [])) then Some (numeral ds) else None.

(** [strconv.ParseUint(s, 10, bits)] *)
Definition parse_uint (bits : N) (s : bytes) : option N :=
  n ← digits_value s; if (n <? 2 ^ bits)%N then Some n else None.

(** [strconv.ParseInt(s, 10, 64)], on the text of a JSON number *)
Definition parse_int (s : bytes) : option Z :=
  match s with
  | b :: ds =>
      if Byte.eqb b x2d then n ← digits_value ds; if (n <=? 2 ^ 63)%N then Some (- Z.of_N n)%Z else None
      else n ← digits_value s; if (n <? 2 ^ 63)%N then Some (Z.of_N n) else None
  | [] => None
  end.

Definition print_uint (n : N) : bytes := decimal 20 n.
Definition print_int (z : Z) : bytes := if (z <? 0)%Z then x2d :: decimal 20 (Z.abs_N z) else decimal 20 (Z.abs_N z).

(** ** Decoders *)

Definition decoder (T : Type) : Type := json -> T -> option T.

Definition dec_uint (bits : N) : decoder N := fun v n =>
  match v with JNumber l => parse_uint bits l | JNull => Some n | _ => None end.
Definition dec_int : decoder Z := fun v z =>
  match v with JNumber l => parse_int l | JNull => Some z | _ => None end.
Definition dec_string : decoder string := fun v s =>
  match v with JString b => Some (bytes_string b) | JNull => Some s | _ => None end.

(** An array is stored into a byte slice element by element; a null leaves the element
    that was there. *)
Fixpoint dec_byte_elems (es : list json) (old : bytes) : option bytes :=
  match es with
  | [] => Some []
  | e :: es =>
      n ← dec_uint 8 e (Byte.to_N (hd x00 old)); rest ← dec_byte_elems es (tail old); Some (byte_of_N n :: rest)
  end.

Definition dec_bytes : decoder bytes := fun v old =>
  match v with
  | JString b => b64_decode b
  | JNull => Some []
  | JArray es => dec_byte_elems es old
  | _ => None
  end.

Fixpoint dec_members {T} (zero : T) (dec : decoder T) (ms : list (bytes * json)) (m : gmap string T) : option (gmap string T) :=
  match ms with
  | [] => Some m
  | (k, v) :: ms => t ← dec v zero; dec_members zero dec ms (<[bytes_string k := t]> m)
  end.

(** A map: its members are added to it, each decoded from the zero value. *)
Definition dec_map {T} (zero : T) (dec : decoder T) : decoder (gmap string T) := fun v m =>
  match v with
  | JObject ms => dec_members zero dec ms m
  | JNull => Some ∅
  | _ => None
  end.

(** *** Structs *)

(** [foldName]: upper case for ASCII letters; of the other runes only U+017F and U+212A
    have an ASCII letter in their case orbit, and the names of fields are ASCII. *)
Definition fold_byte (b : byte) : byte := if in_range 97 122 b then byte_of_N (Byte.to_N b - 32) else b.

Fixpoint fold_name (fuel : nat) (bs : bytes) : bytes :=
  match fuel, bs with
  | S fuel, b :: r =>
      if (Byte.to_N b <? 128)%N then fold_byte b :: fold_name fuel r
      else
        let '(rune, size) := decodeRune bs in
        (if (rune =? 383)%N then [x53] else if (rune =? 8490)%N then [x4b] else take size bs) ++ fold_name fuel (drop size bs)
  | _, _ => []
  end.

Definition same_fold (a b : bytes) : bool := bool_decide (fold_name (length a) a = fold_name (length b) b).

Section Struct.
Context {T : Type}.

(** The field of a key. *)
Definition find_field (fields : list (string * decoder T)) (key : bytes) : option (decoder T) :=
  match find (fun '(name, _) => bool_decide (string_bytes name = key)) fields with
  | Some (_, dec) => Some dec
  | None => snd <$> find (fun '(name, _) => same_fold (string_bytes name) key) fields
  end.

Fixpoint dec_fields (fields : list (string * decoder T)) (ms : list (bytes * json)) (t : T) : option T :=
  match ms with
  | [] => Some t
  | (k, v) :: ms =>
      t ← match find_field fields k with Some dec => dec v t | None => Some t end; dec_fields fields ms t
  end.

Definition dec_struct (fields : list (string * decoder T)) : decoder T := fun v t =>
  match v with
  | JObject ms => dec_fields fields ms t
  | JNull => Some t
  | _ => None
  end.

End Struct.

(** A field of a struct: the decoder of its type, and how it is read and set. *)
Definition field {T A} (dec : decoder A) (get : T -> A) (set : A -> T -> T) : decoder T := fun v t =>
  a ← dec v (get t); Some (set a t).

(** [json.Unmarshal(data, &t)] *)
Definition json_Unmarshal_into {T} (dec : decoder T) (data : bytes) (t : T) : result T :=
  match json_parse data with
  | None => Err (Msg "invalid JSON")
  | Some v => match dec v t with Some t => Ok t | None => Err (Msg "cannot unmarshal JSON") end
  end.

(** ** Encoders *)

Definition enc_uint (n : N) : json := JNumber (print_uint n).
Definition enc_int (z : Z) : json := JNumber (print_int z).
Definition enc_string (s : string) : json := JString (string_bytes s).

(** A nil slice is written as null, and the slices that the program writes are copies
    made by [append([]byte(nil), ...)], nil when they are empty. *)
Definition enc_bytes (bs : bytes) : json := if bool_decide (bs = []) then JNull else JString (b64_encode bs).

(** A map is written in the order of its keys. *)
Definition key_le (a b : string) : Prop := String.leb a b = true.
#[global] Instance key_le_dec a b : Decision (key_le a b).
Proof. unfold key_le. apply _. Defined.

Definition sorted_keys {T} (m : gmap string T) : list (string * T) :=
  merge_sort (fun a b => key_le (fst a) (fst b)) (map_to_list m).

Definition enc_map {T} (enc : T -> json) (m : gmap string T) : json :=
  JObject (map (fun '(k, t) => (string_bytes k, enc t)) (sorted_keys m)).

Definition member (name : string) (v : json) : list (bytes * json) := [(string_bytes name, v)].
(** A field with the option omitempty, and whether it is empty. *)
Definition member_unless (empty : bool) (name : string) (v : json) : list (bytes * json) :=
  if empty then [] else member name v.

(** ** Integers are read back *)

Lemma span_digits_app ds rest :
  Forall (fun c => is_digit c = true) ds -> delimited rest -> span_digits (ds ++ rest) = (ds, rest).
Proof.
  intros Hds Hr. induction Hds as [|c ds Hc _ IH]; cbn.
  - destruct rest as [|c rest]; [done|]. destruct Hr as (Hc & _). cbn. by rewrite Hc.
  - by rewrite Hc, IH.
Qed.

Lemma scan_tail rest : delimited rest -> scan_fraction rest = Some ([], rest) /\ scan_exponent rest = Some ([], rest).
Proof.
  destruct rest as [|c rest]; [done|]. intros (_ & H1 & H2 & H3). unfold scan_fraction, scan_exponent.
  by rewrite !eqb_ne.
Qed.

Lemma scan_integer_app c ds rest :
  Forall (fun c => is_digit c = true) (c :: ds) -> (c = x30 -> ds = []) -> delimited rest ->
  scan_integer (c :: ds ++ rest) = Some (c :: ds, rest).
Proof.
  intros Hds Hz Hr. unfold scan_integer. destruct (Byte.eqb c x30) eqn:E.
  - apply Byte.byte_dec_bl in E. by rewrite (Hz E).
  - unfold some_digits. change (c :: ds ++ rest) with ((c :: ds) ++ rest). by rewrite span_digits_app.
Qed.

Lemma decimal_20 n :
  is_u64 n -> exists c ds, decimal 20 n = c :: ds /\ (c = x30 -> ds = []) /\
    Forall (fun c => is_digit c = true) (c :: ds) /\ numeral (c :: ds) = n.
Proof.
  intros Hn. assert (n < 10 ^ N.of_nat 20)%N as Hlt by (etrans; [exact Hn|reflexivity]).
  destruct (decimal_head 20 n) as (c & ds & E & Hz); [lia|done|]. destruct (decimal_spec 20 n Hlt) as [Hv Hf].
  rewrite E in Hv, Hf. exists c, ds. split; [done|]. split; [intros Hc; by apply Hz in Hc as [? _]|]. split; assumption.
Qed.

Lemma forallb_digits ds : Forall (fun c => is_digit c = true) ds -> forallb is_digit ds = true.
Proof. intros Hf. apply forallb_forall. intros x Hx. rewrite Forall_forall in Hf. apply Hf. by apply list_elem_of_In. Qed.

Lemma print_uint_text n : is_u64 n -> number_text (print_uint n).
Proof.
  intros Hn. unfold print_uint. destruct (decimal_20 n Hn) as (c & ds & -> & Hz & Hf & _).
  assert (is_digit c = true) as Hc by by apply Forall_cons in Hf as [? _]. split; [exists c, ds; auto|].
  intros rest Hr. unfold scan_number. cbn [app]. rewrite eqb_ne by (by intros ->).
  rewrite scan_integer_app by done. cbn [mbind option_bind]. destruct (scan_tail rest Hr) as [Hfr Hex]. rewrite Hfr. cbn [mbind option_bind]. rewrite Hex. cbn. by rewrite app_nil_r.
Qed.

Lemma print_int_text z : is_i64 z -> number_text (print_int z).
Proof.
  intros Hz. unfold print_int. destruct (Z.ltb_spec z 0); [|apply print_uint_text; unfold u64_modulus; lia].
  destruct (decimal_20 (Z.abs_N z)) as (c & ds & -> & Hc & Hf & _); [unfold u64_modulus; lia|].
  split; [exists x2d, (c :: ds); auto|]. intros rest Hr. unfold scan_number. cbn [app]. rewrite eqb_eq.
  rewrite scan_integer_app by done. cbn [mbind option_bind]. destruct (scan_tail rest Hr) as [Hfr Hex]. rewrite Hfr. cbn [mbind option_bind]. rewrite Hex. cbn. by rewrite app_nil_r.
Qed.

Lemma digits_value_decimal n : is_u64 n -> digits_value (decimal 20 n) = Some n.
Proof.
  intros Hn. destruct (decimal_20 n Hn) as (c & ds & -> & _ & Hf & Hv). unfold digits_value.
  rewrite forallb_digits, bool_decide_false by done. cbn [andb negb]. by rewrite Hv.
Qed.

Lemma dec_enc_uint bits n old : (bits <= 64)%N -> (n < 2 ^ bits)%N -> dec_uint bits (enc_uint n) old = Some n.
Proof.
  intros Hb Hn. change (dec_uint bits (enc_uint n) old) with (parse_uint bits (decimal 20 n)). unfold parse_uint.
  rewrite digits_value_decimal; cbn [mbind option_bind].
  - by destruct (N.ltb_spec n (2 ^ bits)); [|lia].
  - eapply N.lt_le_trans; [exact Hn|]. change u64_modulus with (2 ^ 64)%N. by apply N.pow_le_mono_r.
Qed.

Lemma dec_enc_int z old : is_i64 z -> dec_int (enc_int z) old = Some z.
Proof.
  intros Hz. change (dec_int (enc_int z) old) with (parse_int (print_int z)). unfold parse_int, print_int. destruct (Z.ltb_spec z 0).
  - rewrite eqb_eq, digits_value_decimal by (unfold u64_modulus; lia). cbn [mbind option_bind].
    destruct (N.leb_spec (Z.abs_N z) (2 ^ 63)); [f_equal; lia|lia].
  - assert (is_u64 (Z.abs_N z)) as Hu by (unfold u64_modulus; lia).
    destruct (decimal_20 _ Hu) as (c & ds & E & _ & Hf & _). pose proof (digits_value_decimal _ Hu) as Hd. rewrite E in *.
    rewrite eqb_ne by (intros ->; by apply Forall_cons in Hf as [? _]). rewrite Hd. cbn [mbind option_bind].
    destruct (N.ltb_spec (Z.abs_N z) (2 ^ 63)); [f_equal; lia|lia].
Qed.

(** ** Strings, bytes and maps are read back *)

Definition text (s : string) : Prop := valid_utf8 (string_bytes s) = true.

#[global] Instance text_dec s : Decision (text s).
Proof. unfold text. apply _. Defined.

Lemma dec_enc_string s old : dec_string (enc_string s) old = Some s.
Proof. cbn. by rewrite String.string_of_list_byte_of_string. Qed.

Lemma dec_enc_bytes bs old : dec_bytes (enc_bytes bs) old = Some bs.
Proof. unfold enc_bytes. case_bool_decide; [by subst|]. cbn. apply b64_roundtrip. Qed.

Lemma enc_bytes_writable depth bs : writable depth (enc_bytes bs).
Proof.
  unfold enc_bytes. case_bool_decide; [done|]. cbn. apply ascii_valid; [|done].
  eapply Forall_impl; [apply b64_encode_plain|]. by intros x [_ Hx].
Qed.

Lemma dec_members_list {T} (zero : T) dec enc (l : list (string * T)) m :
  (forall k t, (k, t) ∈ l -> dec (enc t) zero = Some t) ->
  dec_members zero dec (map (fun '(k, t) => (string_bytes k, enc t)) l) m = Some (foldl (fun m '(k, t) => <[k := t]> m) m l).
Proof.
  revert m. induction l as [|[k t] l IH]; intros m Hl; [done|]. cbn. rewrite (Hl k t) by constructor. cbn.
  rewrite String.string_of_list_byte_of_string. apply IH. intros k' t' Hin. apply (Hl k'). by constructor.
Qed.

Lemma foldl_inserts {T} (l : list (string * T)) (m : gmap string T) :
  NoDup l.*1 -> foldl (fun m '(k, t) => <[k := t]> m) m l = list_to_map l ∪ m.
Proof.
  revert m. induction l as [|[k t] l IH]; intros m Hnd; cbn; [by rewrite (left_id_L ∅ (∪))|].
  apply NoDup_cons in Hnd as [Hk Hnd]. rewrite IH by done. rewrite <- insert_union_l, insert_union_r; [done|].
  by apply not_elem_of_list_to_map.
Qed.

Lemma sorted_keys_perm {T} (m : gmap string T) : sorted_keys m ≡ₚ map_to_list m.
Proof. apply merge_sort_Permutation. Qed.

Lemma dec_enc_map {T} (zero : T) dec enc (m : gmap string T) :
  (forall k t, m !! k = Some t -> dec (enc t) zero = Some t) -> dec_map zero dec (enc_map enc m) ∅ = Some m.
Proof.
  intros Hall. unfold enc_map, dec_map. rewrite dec_members_list.
  - assert (NoDup (sorted_keys m).*1) as Hnd by (rewrite sorted_keys_perm; apply NoDup_fst_map_to_list).
    rewrite foldl_inserts by done. rewrite (right_id_L ∅ (∪)). f_equal.
    rewrite (list_to_map_proper _ (map_to_list m)); [apply list_to_map_to_list|done|apply sorted_keys_perm].
  - intros k t Hin. apply (Hall k). apply elem_of_map_to_list. by rewrite <- sorted_keys_perm.
Qed.

Lemma enc_map_writable {T} depth (enc : T -> json) (m : gmap string T) :
  (depth < maxNestingDepth)%N -> (forall k t, m !! k = Some t -> text k /\ writable (depth + 1) (enc t)) ->
  writable depth (enc_map enc m).
Proof.
  intros Hd Hall. split; [done|].
  assert (forall k t, (k, t) ∈ sorted_keys m -> text k /\ writable (depth + 1) (enc t)) as Hs.
  { intros k t Hin. apply Hall, elem_of_map_to_list. by rewrite <- sorted_keys_perm. }
  induction (sorted_keys m) as [|[k t] l IH]; [done|]. cbn. split; [apply Hs; constructor|]. apply IH.
  intros k' t' Hin. apply Hs. by constructor.
Qed.

(** ** Structs are read back *)

(** One field of a struct that was written: it is stored, and what was left out is there. *)
Lemma dec_fields_step {T A} (F : list (string * decoder T)) name (dec : decoder A) get set empty v rest t a :
  find_field F (string_bytes name) = Some (field dec get set) ->
  dec v (get t) = Some a -> (empty = true -> set a t = t) ->
  dec_fields F (member_unless empty name v ++ rest) t = dec_fields F rest (set a t).
Proof.
  intros Hf Hd He. destruct empty; cbn [member_unless member app].
  - by rewrite He.
  - cbn [dec_fields]. rewrite Hf. unfold field. rewrite Hd. done.
Qed.

Lemma dec_fields_member {T A} (F : list (string * decoder T)) name (dec : decoder A) get set v rest t a :
  find_field F (string_bytes name) = Some (field dec get set) -> dec v (get t) = Some a ->
  dec_fields F (member name v ++ rest) t = dec_fields F rest (set a t).
Proof. intros Hf Hd. exact (dec_fields_step F name dec get set false v rest t a Hf Hd ltac:(done)). Qed.

Lemma member_ok depth name v : text name -> writable depth v ->
  Forall (fun m => valid_utf8 (fst m) = true /\ writable depth (snd m)) (member name v).
Proof. intros Hn Hv. constructor; [by split|constructor]. Qed.

Lemma member_unless_ok depth empty name v : text name -> (empty = false -> writable depth v) ->
  Forall (fun m => valid_utf8 (fst m) = true /\ writable depth (snd m)) (member_unless empty name v).
Proof. intros Hn Hv. destruct empty; [constructor|]. apply member_ok; auto. Qed.

Lemma object_writable depth ms :
  (depth < maxNestingDepth)%N -> Forall (fun m => valid_utf8 (fst m) = true /\ writable (depth + 1) (snd m)) ms ->
  writable depth (JObject ms).
Proof. intros Hd Hm. split; [done|]. induction Hm as [|[k v] ms Hkv _ IH]; [done|]. cbn. by split. Qed.

(** ** What is read has the ranges of its type *)

(** A decoder that keeps a property of its type, on values with valid strings. *)
Definition keeps {T} (P : T -> Prop) (dec : decoder T) : Prop :=
  forall v t t', valid_strings v = true -> P t -> dec v t = Some t' -> P t'.

Lemma parse_uint_range bits l n : parse_uint bits l = Some n -> (n < 2 ^ bits)%N.
Proof. unfold parse_uint. destruct (digits_value l); [|done]. cbn. destruct (N.ltb_spec n0 (2 ^ bits)); [|done]. by intros [= <-]. Qed.

Lemma parse_int_range l z : parse_int l = Some z -> is_i64 z.
Proof.
  unfold parse_int. destruct l as [|b ds]; [done|]. destruct (Byte.eqb b x2d).
  - destruct (digits_value ds) as [n|]; [|done]. cbn [mbind option_bind]. destruct (N.leb_spec n (2 ^ 63)); [|done].
    intros [= <-]. lia.
  - destruct (digits_value _) as [n|]; [|done]. cbn [mbind option_bind]. destruct (N.ltb_spec n (2 ^ 63)); [|done].
    intros [= <-]. lia.
Qed.

Lemma dec_uint_keeps bits : keeps (fun n => n < 2 ^ bits)%N (dec_uint bits).
Proof. intros [] n n' _ Hn; try done; [by intros [= <-]|apply parse_uint_range]. Qed.

Lemma dec_int_keeps : keeps (fun z => is_i64 z) dec_int.
Proof. intros [] z z' _ Hz; try done; [by intros [= <-]|apply parse_int_range]. Qed.

Lemma text_bytes b : valid_utf8 b = true -> text (bytes_string b).
Proof. unfold text. by rewrite String.list_byte_of_string_of_list_byte. Qed.

Lemma dec_string_keeps : keeps text dec_string.
Proof. intros [] x x' Hv Hs; try done; [by intros [= <-]|]. intros [= <-]. by apply text_bytes. Qed.

Lemma dec_members_keeps {T} (P : T -> Prop) zero dec ms m m' :
  keeps P dec -> P zero -> valid_strings (JObject ms) = true -> map_Forall (fun k t => text k /\ P t) m ->
  dec_members zero dec ms m = Some m' -> map_Forall (fun k t => text k /\ P t) m'.
Proof.
  intros Hd Hz. revert m. induction ms as [|[k v] ms IH]; intros m Hv Hm; cbn [dec_members]; [by intros [= <-]|].
  cbn in Hv. apply andb_true_iff in Hv as [[Hk Hv]%andb_true_iff Hms]. destruct (dec v zero) as [t|] eqn:E; cbn; [|done].
  apply IH; [done|]. apply map_Forall_insert_2; [|done]. split; [by apply text_bytes|by eapply Hd].
Qed.

Lemma dec_map_keeps {T} (P : T -> Prop) zero dec :
  keeps P dec -> P zero -> keeps (map_Forall (fun k t => text k /\ P t)) (dec_map zero dec).
Proof.
  intros Hd Hz [] m m' Hv Hm; try done; cbn [dec_map]; [by intros [= <-]|]. by eapply dec_members_keeps.
Qed.

Lemma field_keeps {T A} (P : T -> Prop) (Q : A -> Prop) dec get set :
  keeps Q dec -> (forall t, P t -> Q (get t)) -> (forall a t, P t -> Q a -> P (set a t)) -> keeps P (field dec get set).
Proof.
  intros Hd Hg Hs v t t' Hv Ht. unfold field. destruct (dec v (get t)) as [a|] eqn:E; cbn; [|done].
  intros [= <-]. apply Hs; [done|]. by eapply Hd; [| |exact E]; [|apply Hg].
Qed.

Lemma find_field_in {T} (F : list (string * decoder T)) key dec :
  find_field F key = Some dec -> exists name, (name, dec) ∈ F.
Proof.
  unfold find_field. destruct (find _ F) as [[name d]|] eqn:E.
  - intros [= <-]. apply find_some in E as [E _]. exists name. by apply list_elem_of_In.
  - intros Ed. apply fmap_Some in Ed as ([name d] & E' & ->). apply find_some in E' as [E' _].
    exists name. by apply list_elem_of_In.
Qed.

Lemma dec_struct_keeps {T} (P : T -> Prop) (F : list (string * decoder T)) :
  Forall (fun nd => keeps P (snd nd)) F -> keeps P (dec_struct F).
Proof.
  intros HF [] t t' Hv Ht; try done; cbn [dec_struct]; [by intros [= <-]|].
  revert t Ht. induction members as [|[k v] ms IH]; intros t Ht; cbn [dec_fields]; [by intros [= <-]|].
  cbn in Hv. apply andb_true_iff in Hv as [[_ Hv]%andb_true_iff Hms]. destruct (find_field F k) as [dec|] eqn:E; [|by apply IH].
  destruct (dec v t) as [t1|] eqn:Ed; cbn [mbind option_bind]; [|done]. apply IH; [done|].
  apply find_field_in in E as [name Hin]. rewrite Forall_forall in HF. by eapply (HF _ Hin).
Qed.

Lemma Unmarshal_keeps {T} (P : T -> Prop) (dec : decoder T) data t t' :
  keeps P dec -> P t -> json_Unmarshal_into dec data t = Ok t' -> P t'.
Proof.
  intros Hd Ht. unfold json_Unmarshal_into. destruct (json_parse data) as [v|] eqn:Ev; [|done].
  destruct (dec v t) eqn:E; [|done]. intros [= <-]. by eapply Hd; [eapply json_parse_valid| |].
Qed.
