(* ===== verification/Proto.v ===== *)
(** The messages gRPC carries: the encoding of [api/proto/raftiq.proto] as far as its size and
    the validity of its strings matter.

    The program never raises the limits of gRPC, so a server and a client receive messages of
    at most 4 MB, and a message with a string that is not UTF-8 cannot be encoded.  A field
    with the zero value is not sent; the tags of all fields take one byte. *)

From S2P Require Import Prelude Model Bytes Utf8 JsonCodec.
#[local] Open Scope N_scope.

Definition maxReceiveMessageSize : N := 4194304.

Definition varint_size (n : N) : N := N.log2 n / 7 + 1.

Definition size_uint (n : N) : N := if n =? 0 then 0 else 1 + varint_size n.
Definition size_int (z : Z) : N := size_uint (Z.to_N (z mod 2 ^ 64)).
Definition size_bool (b : bool) : N := if b then 2 else 0.
Definition size_len (n : N) : N := 1 + varint_size n + n.
Definition size_bytes (data : bytes) : N := match data with [] => 0 | _ => size_len (N.of_nat (length data)) end.
Definition size_string (s : string) : N := size_bytes (string_bytes s).
Definition size_repeated {A} (size : A -> N) (l : list A) : N := foldr (fun a total => size_len (size a) + total) 0 l.

(** A message of [size] bytes with the given strings can be sent and received. *)
Definition sendable_message (strings : list string) (size : N) : bool :=
  forallb (fun s => bool_decide (text s)) strings && (size <=? maxReceiveMessageSize).

(** A message carries its bytes: one that is longer than the limit is refused. *)
Lemma size_bytes_ge data : N.of_nat (length data) <= size_bytes data.
Proof. unfold size_bytes, size_len. destruct data; [cbn; lia|]. lia. Qed.

Lemma sendable_message_size strings size : sendable_message strings size = true -> size <= maxReceiveMessageSize.
Proof. unfold sendable_message. intros [_ H]%andb_prop. by apply N.leb_le. Qed.

Lemma sendable_message_text strings size s :
  sendable_message strings size = true -> s ∈ strings -> text s.
Proof.
  unfold sendable_message. intros [H _]%andb_prop Hs. rewrite forallb_forall in H.
  apply list_elem_of_In in Hs. specialize (H s Hs). by apply bool_decide_eq_true in H.
Qed.

Lemma size_uint_le n : n < 2 ^ 64 -> size_uint n <= 11.
Proof.
  intros Hn. unfold size_uint, varint_size. destruct (N.eqb_spec n 0) as [->|Hz]; [lia|].
  assert (N.log2 n < 64) by (apply N.log2_lt_pow2; lia). assert (N.log2 n / 7 <= 9) by (apply N.lt_succ_r, N.Div0.div_lt_upper_bound; lia).
  lia.
Qed.

Lemma size_uint_carried n : n < 2 ^ 64 -> sendable_message [] (size_uint n) = true.
Proof. intros Hn. apply N.leb_le. pose proof (size_uint_le n Hn). unfold maxReceiveMessageSize. lia. Qed.
