(* ===== verification/Membership.v ===== *)
(** Voter configurations and quorums: [internal/raft/membership.go].

    The vote maps [map[NodeID]struct{}] of the source are [gset NodeID].
    Besides the definitions, the file proves the intersection properties that
    the election and commit rules rely on: any two quorums of one membership
    share a voter, a joint membership shares a voter with either side, and a
    change of one voter keeps majorities overlapping even without the joint
    phase. *)

From S2P Require Import Prelude Model.

Definition configurationMajority (configuration : Configuration) : nat :=
  length (Voters configuration) / 2 + 1.

(** The counting loop of [configurationHasQuorum]. *)
Fixpoint countGranted (voters : list NodeID) (votes : gset NodeID) : nat :=
  match voters with
  | [] => 0
  | voterID :: rest =>
      (if bool_decide (voterID ∈ votes) then 1 else 0) + countGranted rest votes
  end.

Definition configurationHasQuorum
    (configuration : Configuration) (votes : gset NodeID) : bool :=
  let required := configurationMajority configuration in
  if (required =? 0)%nat then false
  else (required <=? countGranted (Voters configuration) votes)%nat.

Definition membershipHasQuorum (membership : Membership) (votes : gset NodeID) : bool :=
  match mem_Joint membership with
  | Some joint =>
      configurationHasQuorum (joint_Old joint) votes &&
      configurationHasQuorum (joint_New joint) votes
  | None => configurationHasQuorum (mem_Current membership) votes
  end.

Fixpoint containsVoter (voters : list NodeID) (nodeID : NodeID) : bool :=
  match voters with
  | [] => false
  | voterID :: rest => if bool_decide (voterID = nodeID) then true else containsVoter rest nodeID
  end.

Definition configurationContainsVoter (configuration : Configuration) (nodeID : NodeID) : bool :=
  containsVoter (Voters configuration) nodeID.

Definition membershipIsVoter (membership : Membership) (nodeID : NodeID) : bool :=
  if bool_decide (nodeID = "") then false
  else match mem_Joint membership with
       | Some joint =>
           configurationContainsVoter (joint_Old joint) nodeID ||
           configurationContainsVoter (joint_New joint) nodeID
       | None => configurationContainsVoter (mem_Current membership) nodeID
       end.

(** Two memberships that may be in force at the same time around one
    configuration change: equal ones, and a joint membership with either of
    the stable configurations it connects. *)
Inductive adjacent : Membership -> Membership -> Prop :=
| adj_refl m : adjacent m m
| adj_old o n c : adjacent (mkMembership c (Some (mkJoint o n))) (mkMembership o None)
| adj_new o n c : adjacent (mkMembership c (Some (mkJoint o n))) (mkMembership n None)
| adj_sym m1 m2 : adjacent m1 m2 -> adjacent m2 m1.

(** ** Counting *)

Lemma countGranted_le voters votes : countGranted voters votes <= length voters.
Proof. induction voters as [|v vs IH]; cbn; [done|]. case_bool_decide; lia. Qed.

Lemma countGranted_mono voters votes1 votes2 :
  votes1 ⊆ votes2 -> countGranted voters votes1 <= countGranted voters votes2.
Proof.
  intros Hsub. induction voters as [|v vs IH]; cbn; [done|].
  repeat case_bool_decide; try lia. set_solver.
Qed.

Lemma countGranted_app vs1 vs2 votes :
  countGranted (vs1 ++ vs2) votes = countGranted vs1 votes + countGranted vs2 votes.
Proof. induction vs1 as [|v vs IH]; cbn; [done|]. rewrite IH. lia. Qed.

(** The order of the voters does not matter. *)
#[global] Instance countGranted_Permutation : Proper ((≡ₚ) ==> (=) ==> (=)) countGranted.
Proof. intros vs1 vs2 HP votes ? <-. induction HP; cbn; lia. Qed.

(** Pigeonhole: two vote sets that together cover more positions than there
    are voters share one of the voters. *)
Lemma countGranted_overlap voters votes1 votes2 :
  length voters < countGranted voters votes1 + countGranted voters votes2 ->
  exists id, id ∈ voters /\ id ∈ votes1 /\ id ∈ votes2.
Proof.
  induction voters as [|v vs IH]; cbn; intros H; [lia|].
  repeat case_bool_decide.
  - exists v. set_solver.
  - destruct IH as (id & ? & ? & ?); [lia|]. exists id. set_solver.
  - destruct IH as (id & ? & ? & ?); [lia|]. exists id. set_solver.
  - destruct IH as (id & ? & ? & ?); [lia|]. exists id. set_solver.
Qed.

Lemma configurationHasQuorum_count c votes :
  configurationHasQuorum c votes = true <->
  length (Voters c) / 2 + 1 <= countGranted (Voters c) votes.
Proof.
  unfold configurationHasQuorum, configurationMajority.
  destruct (Nat.eqb_spec (length (Voters c) / 2 + 1) 0); [lia|]. by rewrite Nat.leb_le.
Qed.

Lemma majority_double n : n < 2 * (n / 2 + 1).
Proof. pose proof (Nat.div_mod_eq n 2). pose proof (Nat.mod_upper_bound n 2). lia. Qed.

Lemma configuration_quorums_intersect c votes1 votes2 :
  configurationHasQuorum c votes1 = true ->
  configurationHasQuorum c votes2 = true ->
  exists id, id ∈ Voters c /\ id ∈ votes1 /\ id ∈ votes2.
Proof.
  rewrite !configurationHasQuorum_count. intros H1 H2.
  apply countGranted_overlap. pose proof (majority_double (length (Voters c))). lia.
Qed.

Lemma containsVoter_spec voters id : containsVoter voters id = true <-> id ∈ voters.
Proof.
  induction voters as [|v vs IH]; cbn.
  - split; [done|]. by intros ?%not_elem_of_nil.
  - rewrite elem_of_cons. case_bool_decide; naive_solver.
Qed.

Lemma configurationHasQuorum_mono c votes1 votes2 :
  votes1 ⊆ votes2 ->
  configurationHasQuorum c votes1 = true -> configurationHasQuorum c votes2 = true.
Proof.
  rewrite !configurationHasQuorum_count. intros Hsub H.
  pose proof (countGranted_mono (Voters c) _ _ Hsub). lia.
Qed.

(** A quorum of [m] contains a quorum of each stable configuration of [m]. *)
Lemma membershipHasQuorum_sides m votes :
  membershipHasQuorum m votes = true ->
  match mem_Joint m with
  | Some j => configurationHasQuorum (joint_Old j) votes = true /\
              configurationHasQuorum (joint_New j) votes = true
  | None => configurationHasQuorum (mem_Current m) votes = true
  end.
Proof. unfold membershipHasQuorum. destruct (mem_Joint m); [apply andb_true_iff|done]. Qed.

Lemma quorum_has_voter m votes :
  membershipHasQuorum m votes = true -> exists id, id ∈ votes.
Proof.
  intros H%membershipHasQuorum_sides.
  assert (exists c, configurationHasQuorum c votes = true) as [c Hc]
    by (destruct (mem_Joint m); naive_solver).
  destruct (configuration_quorums_intersect c votes votes) as (id & _ & ? & _); eauto.
Qed.

Lemma quorums_intersect m votes1 votes2 :
  membershipHasQuorum m votes1 = true ->
  membershipHasQuorum m votes2 = true ->
  exists id, id ∈ votes1 /\ id ∈ votes2.
Proof.
  intros H1%membershipHasQuorum_sides H2%membershipHasQuorum_sides.
  destruct (mem_Joint m) as [j|].
  - destruct (configuration_quorums_intersect (joint_Old j) votes1 votes2) as (id & _ & ? & ?);
      naive_solver.
  - destruct (configuration_quorums_intersect (mem_Current m) votes1 votes2) as (id & _ & ? & ?);
      naive_solver.
Qed.

(** ** Properties *)

(** C18: joint consensus.  Two quorums taken under memberships that can be in
    force together during one change (the same membership, or the joint one
    and the stable one on either side) always share a node. *)
Theorem joint_quorums_intersect m1 m2 votes1 votes2 :
  adjacent m1 m2 ->
  membershipHasQuorum m1 votes1 = true ->
  membershipHasQuorum m2 votes2 = true ->
  exists id, id ∈ votes1 /\ id ∈ votes2.
Proof.
  intros Hadj. revert votes1 votes2.
  induction Hadj as [m|o n c|o n c|m1 m2 _ IH]; intros votes1 votes2 H1 H2.
  - by eapply quorums_intersect.
  - apply membershipHasQuorum_sides in H1 as [H1 _], H2. cbn in *.
    destruct (configuration_quorums_intersect o votes1 votes2) as (id & _ & ? & ?); eauto.
  - apply membershipHasQuorum_sides in H1 as [_ H1], H2. cbn in *.
    destruct (configuration_quorums_intersect n votes1 votes2) as (id & _ & ? & ?); eauto.
  - destruct (IH votes2 votes1 H2 H1) as (id & ? & ?). eauto.
Qed.

(** Three voters move to four: a joint quorum and a quorum of the old side. *)
Lemma joint_quorums_intersect_witness :
  exists id : NodeID,
    id ∈ ({["a"; "b"; "d"]} : gset NodeID) /\ id ∈ ({["b"; "c"]} : gset NodeID).
Proof.
  refine (joint_quorums_intersect
            (mkMembership (mkConfiguration ["a"; "b"; "c"])
               (Some (mkJoint (mkConfiguration ["a"; "b"; "c"])
                              (mkConfiguration ["a"; "b"; "c"; "d"]))))
            (mkMembership (mkConfiguration ["a"; "b"; "c"]) None) _ _ _ _ _);
    [apply adj_old | vm_compute; reflexivity | vm_compute; reflexivity].
Defined.

(** The two-step change is needed only to order the steps, not to protect
    the majorities of a single-voter change: a majority of the old voters and a
    majority of the voters with one voter [p] added share a voter. *)
Theorem single_addition_quorums_intersect voters p votes1 votes2 :
  configurationHasQuorum (mkConfiguration voters) votes1 = true ->
  configurationHasQuorum (mkConfiguration (voters ++ [p])) votes2 = true ->
  exists id, id ∈ voters /\ id ∈ votes1 /\ id ∈ votes2.
Proof.
  rewrite !configurationHasQuorum_count. cbn [Voters].
  rewrite length_app, countGranted_app. cbn [length countGranted].
  intros H1 H2. apply countGranted_overlap.
  pose proof (Nat.div_mod_eq (length voters) 2).
  pose proof (Nat.mod_upper_bound (length voters) 2).
  pose proof (Nat.div_mod_eq (length voters + 1) 2).
  pose proof (Nat.mod_upper_bound (length voters + 1) 2).
  case_bool_decide; lia.
Qed.

Lemma single_addition_quorums_intersect_witness :
  exists id : NodeID, id ∈ ["a"; "b"; "c"] /\
    id ∈ ({["a"; "b"]} : gset NodeID) /\ id ∈ ({["b"; "c"; "d"]} : gset NodeID).
Proof.
  refine (single_addition_quorums_intersect ["a"; "b"; "c"] "d" _ _ _ _);
    vm_compute; reflexivity.
Defined.
