(* ===== verification/ConfigEntry.v ===== *)
(** The configuration-entry envelope of membership changes:
    [internal/raft/config_entry.go], [config_entry_codec.go],
    [config_entry_stable.go] and [config_entry_joint.go].

    An encoder is total up to the two checks of the source ([validateConfiguration]
    and the size bound): writes to a [bytes.Buffer] do not fail.  A decoder
    threads the unread bytes of its [bytes.Reader].  The theorems show that the
    three encoders and decoders are inverse to each other, in both directions. *)

From S2P Require Import Prelude Model Bytes.

Definition configurationEntryMagic : N := 0x52434647.
Definition configurationEntryVersion : byte := x01.
Definition configurationEntryTypeStable : byte := x01.
Definition configurationEntryTypeEnterJoint : byte := x02.
Definition configurationEntryTypeLeaveJoint : byte := x03.
Definition configurationEntryHeaderSize : nat := 4 + 1 + 1 + 4.
Definition maxConfigurationVoters : N := 1024.
Definition maxConfigurationNodeID : N := 1024.
Definition maxConfigurationPayload : N := 1048576.

Definition IsConfigurationEntry (data : bytes) : bool :=
  if (length data <? 4)%nat then false
  else (be_decode (take 4 data) =? configurationEntryMagic)%N.

(** The loop of [validateConfiguration] over the voters. *)
Fixpoint validateVoters (seen : gset NodeID) (voters : list NodeID) : option error :=
  match voters with
  | [] => None
  | voterID :: rest =>
      if bool_decide (voterID = "") then Some (Msg "configuration contains empty voter ID")
      else if (maxConfigurationNodeID <? N.of_nat (String.length voterID))%N
      then Some (Msg "voter ID exceeds maximum length")
      else if bool_decide (voterID ∈ seen)
      then Some (Msg "configuration contains duplicate voter ID")
      else validateVoters ({[voterID]} ∪ seen) rest
  end.

Definition validateConfiguration (configuration : Configuration) : option error :=
  if (length (Voters configuration) =? 0)%nat
  then Some (Msg "configuration must contain at least one voter")
  else if (maxConfigurationVoters <? N.of_nat (length (Voters configuration)))%N
  then Some (Msg "configuration contains too many voters")
  else validateVoters ∅ (Voters configuration).

Fixpoint encodeVoters (voters : list NodeID) : bytes :=
  match voters with
  | [] => []
  | voterID :: rest =>
      let id := string_bytes voterID in
      be32 (N.of_nat (length id)) ++ id ++ encodeVoters rest
  end.

Definition encodeConfigurationPayload (configuration : Configuration) : bytes :=
  be32 (N.of_nat (length (Voters configuration))) ++ encodeVoters (Voters configuration).

(** The decoding loop over [voterCount] voters. *)
Fixpoint decodeVoters (count : nat) (seen : gset NodeID) (voters : list NodeID) (reader : bytes)
    : result (list NodeID * bytes) :=
  match count with
  | O => Ok (voters, reader)
  | S count' =>
      '(idLength, reader) ← wrap_err "decode voter ID length" (read_uint 4 reader);
      if (idLength =? 0)%N then Err (Msg "voter has empty ID")
      else if (maxConfigurationNodeID <? idLength)%N then Err (Msg "voter ID is too long")
      else if (N.of_nat (length reader) <? idLength)%N then Err (Msg "voter ID is truncated")
      else
        '(idBytes, reader) ← wrap_err "decode voter ID" (read_full (N.to_nat idLength) reader);
        let voterID := bytes_string idBytes in
        if bool_decide (voterID ∈ seen) then Err (Msg "duplicate voter ID")
        else decodeVoters count' ({[voterID]} ∪ seen) (voters ++ [voterID]) reader
  end.

(** Count, bound checks and loop, common to both payload decoders. *)
Definition decodeVoterList (reader : bytes) : result (list NodeID * bytes) :=
  '(voterCount, reader) ← wrap_err "decode voter count" (read_uint 4 reader);
  if (voterCount =? 0)%N then Err (Msg "configuration must contain at least one voter")
  else if (maxConfigurationVoters <? voterCount)%N
  then Err (Msg "configuration contains too many voters")
  else decodeVoters (N.to_nat voterCount) ∅ [] reader.

Definition decodeConfigurationPayload (reader : bytes) : result (Configuration * bytes) :=
  '(voters, reader) ← decodeVoterList reader;
  match validateConfiguration (mkConfiguration voters) with
  | Some e => Err e
  | None => Ok (mkConfiguration voters, reader)
  end.

Definition validateConfigurationEntryEnvelope (reader : bytes) (expectedType : byte) : result bytes :=
  '(magic, reader) ← wrap_err "decode configuration magic" (read_uint 4 reader);
  if negb (magic =? configurationEntryMagic)%N then Err (Msg "invalid configuration entry magic")
  else
    '(version, reader) ← wrap_err "decode configuration version" (read_byte reader);
    if bool_decide (version ≠ configurationEntryVersion)
    then Err (Msg "unsupported configuration entry version")
    else
      '(entryType, reader) ← wrap_err "decode configuration entry type" (read_byte reader);
      if bool_decide (entryType ≠ expectedType) then Err (Msg "unexpected configuration entry type")
      else Ok reader.

(** Magic, version and type bytes written by the three encoders. *)
Definition encodeHeader (entryType : byte) : bytes :=
  be32 configurationEntryMagic ++ [configurationEntryVersion; entryType].

Definition EncodeConfigurationEntry (configuration : Configuration) : result bytes :=
  match validateConfiguration configuration with
  | Some e => Err e
  | None =>
      let buf := encodeHeader configurationEntryTypeStable ++ encodeConfigurationPayload configuration in
      if (maxConfigurationPayload <? N.of_nat (length buf))%N
      then Err (Msg "configuration entry exceeds maximum payload size")
      else Ok buf
  end.

Definition DecodeConfigurationEntry (data : bytes) : result Configuration :=
  if (length data <? configurationEntryHeaderSize)%nat
  then Err (Msg "configuration entry is truncated")
  else if (maxConfigurationPayload <? N.of_nat (length data))%N
  then Err (Msg "configuration entry exceeds maximum payload size")
  else
    reader ← validateConfigurationEntryEnvelope data configurationEntryTypeStable;
    '(voters, reader) ← decodeVoterList reader;
    if negb (length reader =? 0)%nat then Err (Msg "configuration entry contains trailing data")
    else match validateConfiguration (mkConfiguration voters) with
         | Some e => Err e
         | None => Ok (mkConfiguration voters)
         end.

Definition EncodeEnterJointConfigurationEntry (oldConfiguration newConfiguration : Configuration)
    : result bytes :=
  match validateConfiguration oldConfiguration with
  | Some e => Err (Wrap "validate old configuration" e)
  | None =>
      match validateConfiguration newConfiguration with
      | Some e => Err (Wrap "validate new configuration" e)
      | None =>
          let buf := encodeHeader configurationEntryTypeEnterJoint ++
                     encodeConfigurationPayload oldConfiguration ++
                     encodeConfigurationPayload newConfiguration in
          if (maxConfigurationPayload <? N.of_nat (length buf))%N
          then Err (Msg "joint configuration entry exceeds maximum payload size")
          else Ok buf
      end
  end.

Definition EncodeLeaveJointConfigurationEntry (newConfiguration : Configuration) : result bytes :=
  match validateConfiguration newConfiguration with
  | Some e => Err (Wrap "validate new configuration" e)
  | None =>
      let buf := encodeHeader configurationEntryTypeLeaveJoint ++
                 encodeConfigurationPayload newConfiguration in
      if (maxConfigurationPayload <? N.of_nat (length buf))%N
      then Err (Msg "leave-joint configuration entry exceeds maximum payload size")
      else Ok buf
  end.

Definition DecodeEnterJointConfigurationEntry (data : bytes)
    : result (Configuration * Configuration) :=
  if (maxConfigurationPayload <? N.of_nat (length data))%N
  then Err (Msg "joint configuration entry exceeds maximum payload size")
  else
    reader ← validateConfigurationEntryEnvelope data configurationEntryTypeEnterJoint;
    '(oldConfiguration, reader) ←
      wrap_err "decode old configuration" (decodeConfigurationPayload reader);
    '(newConfiguration, reader) ←
      wrap_err "decode new configuration" (decodeConfigurationPayload reader);
    if negb (length reader =? 0)%nat
    then Err (Msg "joint configuration entry contains trailing data")
    else Ok (oldConfiguration, newConfiguration).

Definition DecodeLeaveJointConfigurationEntry (data : bytes) : result Configuration :=
  if (maxConfigurationPayload <? N.of_nat (length data))%N
  then Err (Msg "leave-joint configuration entry exceeds maximum payload size")
  else
    reader ← validateConfigurationEntryEnvelope data configurationEntryTypeLeaveJoint;
    '(configuration, reader) ←
      wrap_err "decode new configuration" (decodeConfigurationPayload reader);
    if negb (length reader =? 0)%nat
    then Err (Msg "leave-joint configuration entry contains trailing data")
    else Ok configuration.

(** What [validateConfiguration] accepts. *)
Definition voter_ok (id : NodeID) : Prop :=
  id ≠ "" /\ (N.of_nat (String.length id) <= maxConfigurationNodeID)%N.

Definition configuration_ok (c : Configuration) : Prop :=
  Voters c ≠ [] /\ (N.of_nat (length (Voters c)) <= maxConfigurationVoters)%N /\
  Forall voter_ok (Voters c) /\ NoDup (Voters c).

(** ** Lemmas on the loops *)

Lemma validateVoters_spec seen voters :
  validateVoters seen voters = None <->
  Forall voter_ok voters /\ NoDup voters /\ (forall id, id ∈ voters -> id ∉ seen).
Proof.
  revert seen; induction voters as [|v vs IH]; intros seen; cbn.
  - split; [|done]. intros _. repeat constructor. by intros id ?%not_elem_of_nil.
  - rewrite Forall_cons, NoDup_cons. unfold voter_ok at 1.
    case_bool_decide; [naive_solver|].
    destruct (N.ltb_spec maxConfigurationNodeID (N.of_nat (String.length v))).
    { split; [done|]. intros ([[_ ?] _] & _). lia. }
    case_bool_decide as Hs.
    { split; [done|]. intros (_ & _ & Hn). destruct (Hn v); [by left|done]. }
    rewrite IH. set_solver.
Qed.

Lemma validateConfiguration_spec c :
  validateConfiguration c = None <-> configuration_ok c.
Proof.
  unfold validateConfiguration, configuration_ok.
  destruct (Nat.eqb_spec (length (Voters c)) 0) as [He|He].
  { apply nil_length_inv in He. rewrite He. naive_solver. }
  destruct (N.ltb_spec maxConfigurationVoters (N.of_nat (length (Voters c)))).
  { split; [done|]. lia. }
  rewrite validateVoters_spec.
  assert (Voters c ≠ []) by (intros E; rewrite E in He; done).
  set_solver.
Qed.

Lemma bytes_string_empty bs : bytes_string bs = "" <-> bs = [].
Proof.
  split; [|by intros ->]. intros H. apply (f_equal String.length) in H.
  rewrite bytes_string_length in H. by apply nil_length_inv.
Qed.

Lemma voter_length_bound v : voter_ok v -> (N.of_nat (length (string_bytes v)) < 256 ^ N.of_nat 4)%N.
Proof.
  intros [_ H]. rewrite string_bytes_length. unfold maxConfigurationNodeID in H.
  change (256 ^ N.of_nat 4)%N with 4294967296%N. lia.
Qed.

Lemma string_length_zero v : v ≠ "" -> (N.of_nat (String.length v) =? 0)%N = false.
Proof. intros Hv. apply N.eqb_neq. destruct v; [done|]. cbn. lia. Qed.

Lemma decodeVoters_encode vs seen acc r :
  Forall voter_ok vs -> NoDup vs -> (forall id, id ∈ vs -> id ∉ seen) ->
  decodeVoters (length vs) seen acc (encodeVoters vs ++ r) = Ok (acc ++ vs, r).
Proof.
  revert seen acc; induction vs as [|v vs IH]; intros seen acc Hok Hnd Hseen.
  { cbn. by rewrite app_nil_r. }
  apply Forall_cons in Hok as [Hv Hok]. apply NoDup_cons in Hnd as [Hnv Hnd].
  cbn [length encodeVoters decodeVoters]. rewrite <- !app_assoc.
  rewrite read_uint_app by by apply voter_length_bound. cbn [wrap_err mbind result_bind].
  destruct Hv as [Hne Hlen]. rewrite string_bytes_length.
  rewrite string_length_zero by done.
  destruct (N.ltb_spec maxConfigurationNodeID (N.of_nat (String.length v))); [lia|].
  rewrite !length_app, string_bytes_length.
  destruct (N.ltb_spec (N.of_nat (String.length v + (length (encodeVoters vs) + length r)))
              (N.of_nat (String.length v))); [lia|].
  rewrite Nat2N.id, read_full_app by apply string_bytes_length.
  cbn [wrap_err mbind result_bind]. rewrite String.string_of_list_byte_of_string.
  rewrite bool_decide_false by (apply Hseen; by left).
  rewrite IH by set_solver. by rewrite <- app_assoc.
Qed.

Lemma decodeVoters_sound n seen acc r out r' :
  decodeVoters n seen acc r = Ok (out, r') ->
  exists vs, out = acc ++ vs /\ length vs = n /\ r = encodeVoters vs ++ r' /\
    Forall voter_ok vs /\ NoDup vs /\ (forall id, id ∈ vs -> id ∉ seen).
Proof.
  revert seen acc r; induction n as [|n IH]; intros seen acc r; cbn.
  { intros [= <- <-]. exists []. rewrite app_nil_r.
    split_and!; try done; [constructor|]. by intros id ?%not_elem_of_nil. }
  intros ([len r1] & H1%wrap_err_Ok%read_uint_inv & H)%bind_Ok. destruct H1 as [-> _].
  destruct (N.eqb_spec len 0); [done|].
  destruct (N.ltb_spec maxConfigurationNodeID len); [done|].
  destruct (N.ltb_spec (N.of_nat (length r1)) len); [done|].
  apply bind_Ok in H as ([bs r2] & H2%wrap_err_Ok%read_full_inv & H). destruct H2 as [-> Hbs].
  case_bool_decide as Hseen; [done|].
  apply IH in H as (vs & -> & Hn & -> & Hok & Hnd & Hs).
  exists (bytes_string bs :: vs). cbn [encodeVoters length].
  rewrite String.list_byte_of_string_of_list_byte, Hbs, N2Nat.id, <- !app_assoc.
  split_and!; try done; [lia| | |].
  - constructor; [|done]. unfold voter_ok. rewrite bytes_string_empty, bytes_string_length, Hbs.
    split; [intros ->; cbn in Hbs; lia|]. lia.
  - constructor; [|done]. intros Hin. apply Hs in Hin. set_solver.
  - intros id [->|Hin]%elem_of_cons; [done|]. apply Hs in Hin. set_solver.
Qed.

Lemma decodeVoterList_encode c r :
  configuration_ok c ->
  decodeVoterList (encodeConfigurationPayload c ++ r) = Ok (Voters c, r).
Proof.
  intros (Hne & Hmax & Hok & Hnd). unfold decodeVoterList, encodeConfigurationPayload.
  rewrite <- app_assoc, read_uint_app.
  2: { unfold maxConfigurationVoters in Hmax. change (256 ^ N.of_nat 4)%N with 4294967296%N. lia. }
  cbn [wrap_err mbind result_bind].
  destruct (N.eqb_spec (N.of_nat (length (Voters c))) 0) as [E|_].
  { destruct (Voters c); [done|cbn in E; lia]. }
  destruct (N.ltb_spec maxConfigurationVoters (N.of_nat (length (Voters c)))); [lia|].
  rewrite Nat2N.id. by rewrite decodeVoters_encode by set_solver.
Qed.

Lemma decodeVoterList_sound r vs r' :
  decodeVoterList r = Ok (vs, r') ->
  r = encodeConfigurationPayload (mkConfiguration vs) ++ r' /\ configuration_ok (mkConfiguration vs).
Proof.
  unfold decodeVoterList.
  intros ([n r1] & H1%wrap_err_Ok%read_uint_inv & H)%bind_Ok. destruct H1 as [-> _].
  destruct (N.eqb_spec n 0); [done|].
  destruct (N.ltb_spec maxConfigurationVoters n); [done|].
  apply decodeVoters_sound in H as (vs' & -> & Hn & -> & Hok & Hnd & _). cbn [app].
  unfold encodeConfigurationPayload, configuration_ok. cbn [Voters].
  rewrite Hn, N2Nat.id, <- app_assoc. split_and!; try done.
  intros ->. cbn in Hn. lia.
Qed.

Lemma decodeConfigurationPayload_encode c r :
  configuration_ok c ->
  decodeConfigurationPayload (encodeConfigurationPayload c ++ r) = Ok (c, r).
Proof.
  intros Hc. unfold decodeConfigurationPayload. rewrite decodeVoterList_encode by done.
  destruct c as [vs]. cbn. apply validateConfiguration_spec in Hc. by rewrite Hc.
Qed.

Lemma decodeConfigurationPayload_sound r c r' :
  decodeConfigurationPayload r = Ok (c, r') ->
  r = encodeConfigurationPayload c ++ r' /\ configuration_ok c.
Proof.
  unfold decodeConfigurationPayload. intros ([vs r1] & H & H')%bind_Ok.
  apply decodeVoterList_sound in H. destruct (validateConfiguration _); [done|].
  by injection H' as <- <-.
Qed.

Lemma envelope_encode t r :
  validateConfigurationEntryEnvelope (encodeHeader t ++ r) t = Ok r.
Proof.
  unfold validateConfigurationEntryEnvelope, encodeHeader.
  rewrite <- app_assoc, read_uint_app by done. cbn [wrap_err mbind result_bind].
  rewrite N.eqb_refl. cbn. rewrite !bool_decide_false by naive_solver. done.
Qed.

Lemma envelope_sound r t r' :
  validateConfigurationEntryEnvelope r t = Ok r' -> r = encodeHeader t ++ r'.
Proof.
  unfold validateConfigurationEntryEnvelope, encodeHeader.
  intros ([m r1] & H1%wrap_err_Ok%read_uint_inv & H)%bind_Ok. destruct H1 as [-> _].
  destruct (N.eqb_spec m configurationEntryMagic) as [->|]; [|done]. cbn [negb] in H.
  apply bind_Ok in H as ([v r2] & H2%wrap_err_Ok%read_byte_inv & H). subst r1.
  case_bool_decide; [done|]. subst v.
  apply bind_Ok in H as ([ty r3] & H3%wrap_err_Ok%read_byte_inv & H). subst r2.
  case_bool_decide; [done|]. subst ty.
  injection H as <-. by rewrite <- app_assoc.
Qed.

Lemma stable_length_min c :
  (configurationEntryHeaderSize <=
   length (encodeHeader configurationEntryTypeStable ++ encodeConfigurationPayload c))%nat.
Proof.
  unfold encodeHeader, encodeConfigurationPayload, configurationEntryHeaderSize.
  rewrite !length_app, !be_encode_length. cbn. lia.
Qed.

(** Stable configuration entries round-trip, and the decoder is canonical:
    data decodes to [c] exactly when it is what the encoder produces for [c].
    In particular every accepted entry carries a valid voter list, and no two
    byte strings decode to the same configuration. *)
Lemma stable_entry_exact data c :
  DecodeConfigurationEntry data = Ok c <-> EncodeConfigurationEntry c = Ok data.
Proof.
  unfold DecodeConfigurationEntry, EncodeConfigurationEntry. split.
  - destruct (length data <? configurationEntryHeaderSize)%nat; [done|].
    destruct (maxConfigurationPayload <? N.of_nat (length data))%N eqn:Hmax; [done|].
    intros (r1 & H1%envelope_sound & H)%bind_Ok. subst data.
    apply bind_Ok in H as ([vs r2] & H2%decodeVoterList_sound & H). destruct H2 as [-> Hok].
    destruct (Nat.eqb_spec (length r2) 0) as [E|]; [|done]. apply nil_length_inv in E as ->.
    apply validateConfiguration_spec in Hok. rewrite Hok in H. injection H as <-.
    rewrite app_nil_r in *. by rewrite Hok, Hmax.
  - destruct (validateConfiguration c) eqn:Hv; [done|].
    destruct (maxConfigurationPayload <? _)%N eqn:Hmax; [done|]. intros <-%(inj Ok).
    rewrite (proj2 (Nat.ltb_ge _ _) (stable_length_min c)), Hmax, envelope_encode.
    cbn [mbind result_bind]. rewrite <- (app_nil_r (encodeConfigurationPayload c)).
    rewrite decodeVoterList_encode by by apply validateConfiguration_spec.
    destruct c as [vs]. cbn. by rewrite Hv.
Qed.

(** Enter-joint entries carry both configurations through the log: the
    decoder accepts exactly the encoder's output and recovers both sides. *)
Lemma enter_joint_entry_exact data old new :
  DecodeEnterJointConfigurationEntry data = Ok (old, new) <->
  EncodeEnterJointConfigurationEntry old new = Ok data.
Proof.
  unfold DecodeEnterJointConfigurationEntry, EncodeEnterJointConfigurationEntry. split.
  - destruct (maxConfigurationPayload <? N.of_nat (length data))%N eqn:Hmax; [done|].
    intros (r1 & H1%envelope_sound & H)%bind_Ok. subst data.
    apply bind_Ok in H as ([o r2] & H2%wrap_err_Ok%decodeConfigurationPayload_sound & H).
    destruct H2 as [-> Ho].
    apply bind_Ok in H as ([n r3] & H3%wrap_err_Ok%decodeConfigurationPayload_sound & H).
    destruct H3 as [-> Hn].
    destruct (Nat.eqb_spec (length r3) 0) as [E|]; [|done]. apply nil_length_inv in E as ->.
    injection H as <- <-. rewrite app_nil_r in *.
    apply validateConfiguration_spec in Ho, Hn. by rewrite Ho, Hn, Hmax.
  - destruct (validateConfiguration old) eqn:Ho; [done|].
    destruct (validateConfiguration new) eqn:Hn; [done|].
    destruct (maxConfigurationPayload <? _)%N eqn:Hmax; [done|]. intros <-%(inj Ok).
    rewrite Hmax, envelope_encode. cbn [mbind result_bind].
    rewrite decodeConfigurationPayload_encode by by apply validateConfiguration_spec.
    cbn [wrap_err mbind result_bind]. rewrite <- (app_nil_r (encodeConfigurationPayload new)).
    by rewrite decodeConfigurationPayload_encode by by apply validateConfiguration_spec.
Qed.

(** Leave-joint entries round-trip in both directions as well. *)
Lemma leave_joint_entry_exact data c :
  DecodeLeaveJointConfigurationEntry data = Ok c <->
  EncodeLeaveJointConfigurationEntry c = Ok data.
Proof.
  unfold DecodeLeaveJointConfigurationEntry, EncodeLeaveJointConfigurationEntry. split.
  - destruct (maxConfigurationPayload <? N.of_nat (length data))%N eqn:Hmax; [done|].
    intros (r1 & H1%envelope_sound & H)%bind_Ok. subst data.
    apply bind_Ok in H as ([n r2] & H2%wrap_err_Ok%decodeConfigurationPayload_sound & H).
    destruct H2 as [-> Hn].
    destruct (Nat.eqb_spec (length r2) 0) as [E|]; [|done]. apply nil_length_inv in E as ->.
    injection H as <-. rewrite app_nil_r in *.
    apply validateConfiguration_spec in Hn. by rewrite Hn, Hmax.
  - destruct (validateConfiguration c) eqn:Hn; [done|].
    destruct (maxConfigurationPayload <? _)%N eqn:Hmax; [done|]. intros <-%(inj Ok).
    rewrite Hmax, envelope_encode. cbn [mbind result_bind].
    rewrite <- (app_nil_r (encodeConfigurationPayload c)).
    by rewrite decodeConfigurationPayload_encode by by apply validateConfiguration_spec.
Qed.

(** ** Properties *)

(** C32: configuration entries round-trip.  For each of the three kinds of entry
    (stable, enter-joint, leave-joint) the decoder accepts exactly what the
    encoder produces and returns what was encoded; so every accepted entry carries
    valid voter lists, and no two byte strings decode to the same configuration. *)
Theorem configuration_entries_roundtrip :
  (forall data c, DecodeConfigurationEntry data = Ok c <-> EncodeConfigurationEntry c = Ok data) /\
  (forall data old new, DecodeEnterJointConfigurationEntry data = Ok (old, new) <->
     EncodeEnterJointConfigurationEntry old new = Ok data) /\
  (forall data c, DecodeLeaveJointConfigurationEntry data = Ok c <->
     EncodeLeaveJointConfigurationEntry c = Ok data).
Proof.
  split_and!; intros; [apply stable_entry_exact|apply enter_joint_entry_exact|apply leave_joint_entry_exact].
Qed.
