(* ===== verification/RaftLog.v ===== *)
(** The in-memory Raft log with its snapshot boundary: [internal/raft/log.go].

    A [Log] is modelled as the source keeps it: the slice of entries, each with
    its own index field, searched linearly, and the boundary
    [lastIncludedIndex]/[lastIncludedTerm].  [LogSpec] is the abstract log: a
    base and the (term, data) pairs after it, addressed by position.
    [log_step_refines] shows that, under the contiguity invariant [log_wf],
    every operation (errors included) behaves as on the abstract log and keeps
    the invariant. *)

From S2P Require Import Prelude Model.

Record Log := mkLog {
  entries : list LogEntry;
  lastIncludedIndex : LogIndex;
  lastIncludedTerm : Term;
}.

Definition NewLog : Log := mkLog [] 0 0.

Definition lastIndexLocked (l : Log) : LogIndex :=
  match last (entries l) with
  | None => lastIncludedIndex l
  | Some e => le_Index e
  end.

Definition lastTermLocked (l : Log) : Term :=
  match last (entries l) with
  | None => lastIncludedTerm l
  | Some e => le_Term e
  end.

Definition Append (l : Log) (entry : LogEntry) : result Log :=
  let expectedIndex := u64_add (lastIndexLocked l) 1 in
  if negb (le_Index entry =? expectedIndex)%N then Err (Msg "invalid log index")
  else Ok (mkLog (entries l ++ [entry]) (lastIncludedIndex l) (lastIncludedTerm l)).

(** The scan of [getLocked] over the entries. *)
Fixpoint findEntry (index : LogIndex) (es : list LogEntry) : option LogEntry :=
  match es with
  | [] => None
  | entry :: rest => if (le_Index entry =? index)%N then Some entry else findEntry index rest
  end.

Definition getLocked (l : Log) (index : LogIndex) : option LogEntry :=
  if (index =? lastIncludedIndex l)%N && negb (index =? 0)%N
  then Some (mkLogEntry index (lastIncludedTerm l) [])
  else findEntry index (entries l).

(** The scan of [truncateFromLocked]: cut at the first entry at or after [index]. *)
Fixpoint cutFrom (index : LogIndex) (es : list LogEntry) : list LogEntry :=
  match es with
  | [] => []
  | entry :: rest => if (index <=? le_Index entry)%N then [] else entry :: cutFrom index rest
  end.

Definition truncateFromLocked (l : Log) (index : LogIndex) : Log :=
  if (index =? 0)%N then mkLog [] (lastIncludedIndex l) (lastIncludedTerm l)
  else if (index <=? lastIncludedIndex l)%N then l
  else mkLog (cutFrom index (entries l)) (lastIncludedIndex l) (lastIncludedTerm l).

(** The entries kept by [Compact] and [RestoreSnapshot]. *)
Fixpoint entriesAfter (index : LogIndex) (es : list LogEntry) : list LogEntry :=
  match es with
  | [] => []
  | entry :: rest =>
      if (index <? le_Index entry)%N then entry :: entriesAfter index rest
      else entriesAfter index rest
  end.

Definition Compact (l : Log) (snapshot : Snapshot) : result Log :=
  let index := snap_LastIncludedIndex snapshot in
  let term := snap_LastIncludedTerm snapshot in
  if (index <? lastIncludedIndex l)%N then Err (Msg "cannot move snapshot backwards")
  else if (lastIndexLocked l <? index)%N then Err (Msg "cannot compact beyond last log index")
  else if (index =? lastIncludedIndex l)%N then
    if negb (term =? lastIncludedTerm l)%N then Err (Msg "snapshot term mismatch")
    else Ok l
  else
    match getLocked l index with
    | None => Err (Msg "cannot compact: snapshot boundary not found")
    | Some entry =>
        if negb (le_Term entry =? term)%N then Err (Msg "snapshot term mismatch at index")
        else Ok (mkLog (entriesAfter index (entries l)) index term)
    end.

Definition RestoreSnapshot (l : Log) (snapshot : Snapshot) : result Log :=
  let index := snap_LastIncludedIndex snapshot in
  let term := snap_LastIncludedTerm snapshot in
  if (index <? lastIncludedIndex l)%N then Err (Msg "cannot restore snapshot backwards")
  else if (index =? lastIncludedIndex l)%N then
    if negb (term =? lastIncludedTerm l)%N then Err (Msg "snapshot term mismatch")
    else Ok l
  else
    let boundaryMatches :=
      match getLocked l index with
      | Some entry => (le_Term entry =? term)%N
      | None => false
      end in
    if boundaryMatches then Ok (mkLog (entriesAfter index (entries l)) index term)
    else Ok (mkLog [] index term).

Definition Size (l : Log) : nat := length (entries l).

(** One mutating call on a log, and its effect. *)
Inductive log_op :=
| OpAppend (entry : LogEntry)
| OpTruncateFrom (index : LogIndex)
| OpCompact (snapshot : Snapshot)
| OpRestoreSnapshot (snapshot : Snapshot).

Definition log_step (op : log_op) (l : Log) : result Log :=
  match op with
  | OpAppend e => Append l e
  | OpTruncateFrom i => Ok (truncateFromLocked l i)
  | OpCompact s => Compact l s
  | OpRestoreSnapshot s => RestoreSnapshot l s
  end.

(** ** The abstract log *)

Module LogSpec.

Record alog := mkAlog {
  base : N;
  baseTerm : Term;
  body : list (Term * bytes);
}.

Definition alast (a : alog) : N := (base a + N.of_nat (length (body a)))%N.

Definition aget (a : alog) (i : N) : option (Term * bytes) :=
  if (i =? base a)%N && negb (i =? 0)%N then Some (baseTerm a, [])
  else if (base a <? i)%N then body a !! N.to_nat (i - base a - 1)
  else None.

Definition akeep (a : alog) (i : N) (t : Term) : alog :=
  mkAlog i t (drop (N.to_nat (i - base a)) (body a)).

Definition astep (op : log_op) (a : alog) : option alog :=
  match op with
  | OpAppend e =>
      if bool_decide (le_Index e = alast a + 1)%N
      then Some (mkAlog (base a) (baseTerm a) (body a ++ [(le_Term e, le_Data e)]))
      else None
  | OpTruncateFrom i =>
      if bool_decide (i = 0)%N then Some (mkAlog (base a) (baseTerm a) [])
      else if bool_decide (i <= base a)%N then Some a
      else Some (mkAlog (base a) (baseTerm a) (take (N.to_nat (i - base a - 1)) (body a)))
  | OpCompact s =>
      let i := snap_LastIncludedIndex s in
      let t := snap_LastIncludedTerm s in
      if bool_decide (base a <= i <= alast a)%N then
        if bool_decide (i = base a) then if bool_decide (t = baseTerm a) then Some a else None
        else if bool_decide (fst <$> aget a i = Some t) then Some (akeep a i t) else None
      else None
  | OpRestoreSnapshot s =>
      let i := snap_LastIncludedIndex s in
      let t := snap_LastIncludedTerm s in
      if bool_decide (i < base a)%N then None
      else if bool_decide (i = base a) then if bool_decide (t = baseTerm a) then Some a else None
      else if bool_decide (fst <$> aget a i = Some t) then Some (akeep a i t)
      else Some (mkAlog i t [])
  end.

End LogSpec.
Import LogSpec.

Definition entry_pair (e : LogEntry) : Term * bytes := (le_Term e, le_Data e).

Definition denote (l : Log) : alog :=
  mkAlog (lastIncludedIndex l) (lastIncludedTerm l) (entry_pair <$> entries l).

(** Entries are contiguous after the boundary and indexes fit in [uint64]. *)
Definition contiguous (b : N) (es : list LogEntry) : Prop :=
  forall i e, es !! i = Some e -> le_Index e = (b + 1 + N.of_nat i)%N.

Definition log_wf (l : Log) : Prop :=
  contiguous (lastIncludedIndex l) (entries l) /\
  is_u64 (lastIncludedIndex l + N.of_nat (length (entries l)))%N.

(** An operation whose indexes do not overflow [uint64]. *)
Definition op_in_range (op : log_op) (l : Log) : Prop :=
  match op with
  | OpAppend _ => is_u64 (lastIndexLocked l + 1)%N
  | OpTruncateFrom _ | OpCompact _ => True
  | OpRestoreSnapshot s => is_u64 (snap_LastIncludedIndex s)
  end.

(** ** Contiguity lemmas *)

Lemma contiguous_cons b e es :
  contiguous b (e :: es) <-> le_Index e = (b + 1)%N /\ contiguous (b + 1) es.
Proof.
  split.
  - intros H. split; [pose proof (H 0 e eq_refl); lia|].
    intros i x Hx. pose proof (H (S i) x Hx). lia.
  - intros [He H] [|i] x; cbn; [intros [= ->]; lia|]. intros Hx%H. lia.
Qed.

Lemma contiguous_nil b : contiguous b [].
Proof. intros i e H. done. Qed.

Lemma contiguous_snoc b es e :
  contiguous b es -> le_Index e = (b + 1 + N.of_nat (length es))%N -> contiguous b (es ++ [e]).
Proof.
  intros H He i x [Hx|[Hi Hx]]%lookup_app_Some; [by apply H|].
  destruct (i - length es) as [|k] eqn:E; [|done]. injection Hx as <-.
  replace i with (length es) by lia. done.
Qed.

Lemma findEntry_spec b es i :
  contiguous b es ->
  findEntry i es = if (b <? i)%N then es !! N.to_nat (i - b - 1) else None.
Proof.
  revert b; induction es as [|e es IH]; intros b H; cbn [findEntry].
  - by destruct (b <? i)%N.
  - apply contiguous_cons in H as [He H].
    destruct (N.eqb_spec (le_Index e) i) as [Hi|Hi].
    + destruct (N.ltb_spec b i); [|lia]. by replace (N.to_nat (i - b - 1)) with 0 by lia.
    + rewrite (IH _ H). destruct (N.ltb_spec b i), (N.ltb_spec (b + 1) i); try lia; try done.
      by replace (N.to_nat (i - b - 1)) with (S (N.to_nat (i - (b + 1) - 1))) by lia.
Qed.

Lemma cutFrom_spec b es i :
  contiguous b es -> (b < i)%N -> cutFrom i es = take (N.to_nat (i - b - 1)) es.
Proof.
  revert b; induction es as [|e es IH]; intros b H Hi; cbn [cutFrom]; [by rewrite take_nil|].
  apply contiguous_cons in H as [He H].
  destruct (N.leb_spec i (le_Index e)).
  - by replace (N.to_nat (i - b - 1)) with 0 by lia.
  - rewrite (IH _ H) by lia.
    by replace (N.to_nat (i - b - 1)) with (S (N.to_nat (i - (b + 1) - 1))) by lia.
Qed.

Lemma entriesAfter_ge b es i :
  contiguous b es -> (i <= b)%N -> entriesAfter i es = es.
Proof.
  revert b; induction es as [|e es IH]; intros b H Hi; cbn [entriesAfter]; [done|].
  apply contiguous_cons in H as [He H].
  destruct (N.ltb_spec i (le_Index e)); [|lia]. by rewrite (IH _ H) by lia.
Qed.

Lemma entriesAfter_spec b es i :
  contiguous b es -> entriesAfter i es = drop (N.to_nat (i - b)) es.
Proof.
  revert b; induction es as [|e es IH]; intros b H; cbn [entriesAfter]; [by rewrite drop_nil|].
  apply contiguous_cons in H as [He H].
  destruct (N.ltb_spec i (le_Index e)).
  - rewrite (entriesAfter_ge _ _ _ H) by lia. by replace (N.to_nat (i - b)) with 0 by lia.
  - rewrite (IH _ H). by replace (N.to_nat (i - b)) with (S (N.to_nat (i - (b + 1)))) by lia.
Qed.

Lemma contiguous_take b es n : contiguous b es -> contiguous b (take n es).
Proof. intros H i e [He _]%lookup_take_Some. by apply H. Qed.

Lemma contiguous_drop b es n :
  contiguous b es -> contiguous (b + N.of_nat n) (drop n es).
Proof. intros H i e He. rewrite lookup_drop in He. apply H in He. lia. Qed.

Lemma lastIndexLocked_spec l :
  log_wf l -> lastIndexLocked l = (lastIncludedIndex l + N.of_nat (length (entries l)))%N.
Proof.
  intros [H _]. unfold lastIndexLocked. destruct (last (entries l)) as [e|] eqn:E.
  - apply last_Some in E as [es E]. rewrite E in H |- *.
    rewrite (H (length es) e) by by rewrite lookup_app_r, Nat.sub_diag by lia.
    rewrite length_app. cbn. lia.
  - apply last_None in E. rewrite E. cbn. lia.
Qed.

Lemma lastIndexLocked_denote l : log_wf l -> lastIndexLocked l = alast (denote l).
Proof. intros H. rewrite lastIndexLocked_spec by done. unfold alast. cbn. by rewrite length_fmap. Qed.

Lemma log_wf_u64 l : log_wf l -> is_u64 (lastIndexLocked l).
Proof. intros H. rewrite lastIndexLocked_spec by done. apply H. Qed.

Lemma NewLog_wf : log_wf NewLog.
Proof. split; [apply contiguous_nil|done]. Qed.

(** Positional characterisation of [getLocked]. *)
Lemma getLocked_spec l i :
  log_wf l ->
  getLocked l i =
    if (i =? lastIncludedIndex l)%N && negb (i =? 0)%N
    then Some (mkLogEntry i (lastIncludedTerm l) [])
    else if (lastIncludedIndex l <? i)%N
         then entries l !! N.to_nat (i - lastIncludedIndex l - 1) else None.
Proof. intros [H _]. unfold getLocked. by rewrite (findEntry_spec _ _ _ H). Qed.

Lemma getLocked_index l i e : log_wf l -> getLocked l i = Some e -> le_Index e = i.
Proof.
  intros Hwf. rewrite getLocked_spec by done.
  destruct (_ && _) eqn:E; [by intros [= <-]|].
  destruct (N.ltb_spec (lastIncludedIndex l) i); [|done].
  intros He. apply (proj1 Hwf) in He. lia.
Qed.

Lemma getLocked_range l i :
  log_wf l -> is_Some (getLocked l i) <->
  (i ≠ 0 /\ lastIncludedIndex l <= i <= lastIndexLocked l)%N.
Proof.
  intros Hwf. rewrite getLocked_spec, lastIndexLocked_spec by done.
  destruct (N.eqb_spec i (lastIncludedIndex l)), (N.eqb_spec i 0); cbn.
  - destruct (N.ltb_spec (lastIncludedIndex l) i); [lia|]. split; [by intros []|lia].
  - split; [lia|eauto].
  - destruct (N.ltb_spec (lastIncludedIndex l) i); [lia|]. split; [by intros []|lia].
  - destruct (N.ltb_spec (lastIncludedIndex l) i).
    + rewrite lookup_lt_is_Some. lia.
    + split; [by intros []|lia].
Qed.

Lemma getLocked_denote l i :
  log_wf l -> entry_pair <$> getLocked l i = aget (denote l) i.
Proof.
  intros Hwf. rewrite getLocked_spec by done. unfold aget. cbn [denote base baseTerm body].
  destruct (_ && _); [done|]. destruct (_ <? i)%N; [|done]. by rewrite list_lookup_fmap.
Qed.

Lemma getLocked_term l i :
  log_wf l -> le_Term <$> getLocked l i = fst <$> aget (denote l) i.
Proof. intros Hwf. rewrite <- getLocked_denote by done. by destruct (getLocked l i). Qed.

(** ** The operations on well-formed logs *)

Lemma Append_ok l e l' :
  log_wf l -> is_u64 (lastIndexLocked l + 1)%N -> Append l e = Ok l' ->
  le_Index e = (lastIndexLocked l + 1)%N /\
  l' = mkLog (entries l ++ [e]) (lastIncludedIndex l) (lastIncludedTerm l) /\ log_wf l'.
Proof.
  intros Hwf Hlt. unfold Append. rewrite u64_add_small by done.
  destruct (N.eqb_spec (le_Index e) (lastIndexLocked l + 1)) as [He|]; [|done].
  intros [= <-]. split_and!; [done..|].
  pose proof (lastIndexLocked_spec l Hwf).
  split; cbn; [apply contiguous_snoc; [apply Hwf|lia]|]. rewrite length_app. cbn. lia.
Qed.

Lemma Append_accepts l e :
  is_u64 (lastIndexLocked l + 1)%N -> le_Index e = (lastIndexLocked l + 1)%N ->
  Append l e = Ok (mkLog (entries l ++ [e]) (lastIncludedIndex l) (lastIncludedTerm l)).
Proof. intros Hlt He. unfold Append. by rewrite u64_add_small, He, N.eqb_refl. Qed.

Lemma getLocked_append l e l' i :
  log_wf l -> is_u64 (lastIndexLocked l + 1)%N -> Append l e = Ok l' ->
  getLocked l' i = if (i =? le_Index e)%N then Some e else getLocked l i.
Proof.
  intros Hwf Hlt (He & -> & Hwf')%Append_ok; [|done..].
  rewrite !getLocked_spec by done. cbn. rewrite lastIndexLocked_spec in He by done.
  destruct (N.eqb_spec i (le_Index e)) as [->|Hi].
  - destruct (N.eqb_spec (le_Index e) (lastIncludedIndex l)); [lia|]. cbn.
    destruct (N.ltb_spec (lastIncludedIndex l) (le_Index e)); [|lia].
    rewrite lookup_app_r by lia.
    by replace (N.to_nat _ - _)%nat with 0 by lia.
  - destruct (_ && _); [done|]. destruct (N.ltb_spec (lastIncludedIndex l) i); [|done].
    destruct (decide (N.to_nat (i - lastIncludedIndex l - 1) < length (entries l))).
    + by rewrite lookup_app_l.
    + rewrite !lookup_ge_None_2; [done|lia|]. rewrite length_app. cbn. lia.
Qed.

Lemma truncate_wf l i : log_wf l -> log_wf (truncateFromLocked l i).
Proof.
  intros Hwf. unfold truncateFromLocked.
  destruct (N.eqb_spec i 0); [destruct Hwf; split; [apply contiguous_nil|cbn in *; lia]|].
  destruct (N.leb_spec i (lastIncludedIndex l)); [done|].
  destruct Hwf as [Hc Hl]. split; cbn; rewrite (cutFrom_spec _ _ _ Hc) by done.
  - by apply contiguous_take.
  - rewrite length_take. lia.
Qed.

Lemma getLocked_truncate l i j :
  log_wf l -> (lastIncludedIndex l < i)%N ->
  getLocked (truncateFromLocked l i) j = if (j <? i)%N then getLocked l j else None.
Proof.
  intros Hwf Hi. rewrite !getLocked_spec by auto using truncate_wf.
  unfold truncateFromLocked.
  destruct (N.eqb_spec i 0); [lia|]. destruct (N.leb_spec i (lastIncludedIndex l)); [lia|]. cbn.
  rewrite (cutFrom_spec _ _ _ (proj1 Hwf)) by done.
  destruct (N.eqb_spec j (lastIncludedIndex l)), (N.eqb_spec j 0); cbn;
    destruct (N.ltb_spec j i), (N.ltb_spec (lastIncludedIndex l) j); try lia; try done.
  - rewrite lookup_take_lt by lia. done.
  - rewrite lookup_take_ge by lia. done.
Qed.

Lemma truncate_last l i :
  log_wf l -> (lastIncludedIndex l < i <= lastIndexLocked l + 1)%N ->
  lastIndexLocked (truncateFromLocked l i) = (i - 1)%N.
Proof.
  intros Hwf Hi. rewrite lastIndexLocked_spec in Hi by done.
  rewrite lastIndexLocked_spec by by apply truncate_wf.
  unfold truncateFromLocked.
  destruct (N.eqb_spec i 0); [lia|]. destruct (N.leb_spec i (lastIncludedIndex l)); [lia|]. cbn.
  rewrite (cutFrom_spec _ _ _ (proj1 Hwf)), length_take by lia. lia.
Qed.

(** Keeping the suffix after an index inside the log. *)
Lemma keep_wf l i t :
  log_wf l -> (lastIncludedIndex l <= i <= lastIndexLocked l)%N ->
  log_wf (mkLog (entriesAfter i (entries l)) i t) /\
  denote (mkLog (entriesAfter i (entries l)) i t) = akeep (denote l) i t.
Proof.
  intros Hwf Hi. rewrite lastIndexLocked_spec in Hi by done.
  unfold denote, akeep. cbn. rewrite (entriesAfter_spec _ _ i (proj1 Hwf)), fmap_drop.
  split; [|done]. destruct Hwf as [Hc Hl]. split; cbn.
  - pose proof (contiguous_drop _ _ (N.to_nat (i - lastIncludedIndex l)) Hc) as H.
    replace (lastIncludedIndex l + N.of_nat (N.to_nat (i - lastIncludedIndex l)))%N with i in H by lia.
    done.
  - rewrite length_drop. lia.
Qed.

Lemma getLocked_keep l i t j :
  log_wf l -> (lastIncludedIndex l <= i <= lastIndexLocked l)%N -> (i < j)%N ->
  getLocked (mkLog (entriesAfter i (entries l)) i t) j = getLocked l j.
Proof.
  intros Hwf Hi Hj. destruct (keep_wf l i t Hwf Hi) as [Hwf' _].
  rewrite !getLocked_spec by done. cbn. rewrite (entriesAfter_spec _ _ i (proj1 Hwf)).
  destruct (N.eqb_spec j i), (N.eqb_spec j (lastIncludedIndex l)); try lia. cbn.
  destruct (N.ltb_spec i j), (N.ltb_spec (lastIncludedIndex l) j); try lia.
  rewrite lookup_drop. f_equal. lia.
Qed.

(** Which snapshots [Compact] accepts: those at the boundary with its term, and
    those at a retained entry with that entry's term. *)
Lemma Compact_ok l s l' :
  log_wf l -> Compact l s = Ok l' ->
  (lastIncludedIndex l <= snap_LastIncludedIndex s <= lastIndexLocked l)%N /\
  ((l' = l /\ snap_LastIncludedIndex s = lastIncludedIndex l /\
    snap_LastIncludedTerm s = lastIncludedTerm l) \/
   (l' = mkLog (entriesAfter (snap_LastIncludedIndex s) (entries l))
           (snap_LastIncludedIndex s) (snap_LastIncludedTerm s) /\
    le_Term <$> getLocked l (snap_LastIncludedIndex s) = Some (snap_LastIncludedTerm s))).
Proof.
  intros Hwf. unfold Compact.
  destruct (N.ltb_spec (snap_LastIncludedIndex s) (lastIncludedIndex l)); [done|].
  destruct (N.ltb_spec (lastIndexLocked l) (snap_LastIncludedIndex s)); [done|].
  destruct (N.eqb_spec (snap_LastIncludedIndex s) (lastIncludedIndex l)).
  - destruct (N.eqb_spec (snap_LastIncludedTerm s) (lastIncludedTerm l)); [|done].
    intros [= <-]. split; [lia|]. by left.
  - destruct (getLocked l (snap_LastIncludedIndex s)) as [e|]; [|done].
    destruct (N.eqb_spec (le_Term e) (snap_LastIncludedTerm s)) as [<-|]; [|done].
    intros [= <-]. split; [lia|]. by right.
Qed.

Lemma term_test l i t :
  (match getLocked l i with Some e => (le_Term e =? t)%N | None => false end)
  = bool_decide (le_Term <$> getLocked l i = Some t).
Proof.
  destruct (getLocked l i) as [e|]; cbn.
  - destruct (N.eqb_spec (le_Term e) t); [by rewrite bool_decide_true by congruence|].
    by rewrite bool_decide_false by congruence.
  - by rewrite bool_decide_false.
Qed.

Lemma compact_refines l s :
  log_wf l ->
  match Compact l s with
  | Ok l' => log_wf l' /\ astep (OpCompact s) (denote l) = Some (denote l')
  | Err _ => astep (OpCompact s) (denote l) = None
  end.
Proof.
  intros Hwf. unfold Compact, astep. rewrite <- lastIndexLocked_denote by done.
  rewrite <- getLocked_term by done. cbn [denote base baseTerm].
  destruct (N.ltb_spec (snap_LastIncludedIndex s) (lastIncludedIndex l));
    [by rewrite bool_decide_false by lia|].
  destruct (N.ltb_spec (lastIndexLocked l) (snap_LastIncludedIndex s));
    [by rewrite bool_decide_false by lia|].
  rewrite bool_decide_true by lia.
  destruct (N.eqb_spec (snap_LastIncludedIndex s) (lastIncludedIndex l)) as [Hi|Hi];
    [rewrite (bool_decide_true _ Hi)|rewrite (bool_decide_false _ Hi)].
  - destruct (N.eqb_spec (snap_LastIncludedTerm s) (lastIncludedTerm l)) as [Ht|Ht];
      [by rewrite (bool_decide_true _ Ht)|by rewrite (bool_decide_false _ Ht)].
  - destruct (getLocked l (snap_LastIncludedIndex s)) as [e|]; cbn [fmap option_fmap option_map];
      [|by rewrite bool_decide_false].
    destruct (N.eqb_spec (le_Term e) (snap_LastIncludedTerm s)) as [He|]; cbn [negb].
    + rewrite bool_decide_true by by rewrite He.
      destruct (keep_wf l (snap_LastIncludedIndex s) (snap_LastIncludedTerm s) Hwf) as [? ->];
        [lia|done].
    + by rewrite bool_decide_false by congruence.
Qed.

Lemma restore_refines l s :
  log_wf l -> is_u64 (snap_LastIncludedIndex s) ->
  match RestoreSnapshot l s with
  | Ok l' => log_wf l' /\ astep (OpRestoreSnapshot s) (denote l) = Some (denote l')
  | Err _ => astep (OpRestoreSnapshot s) (denote l) = None
  end.
Proof.
  intros Hwf Hs. unfold RestoreSnapshot, astep.
  rewrite <- getLocked_term by done. rewrite term_test. cbn [denote base baseTerm].
  destruct (N.ltb_spec (snap_LastIncludedIndex s) (lastIncludedIndex l));
    [by rewrite bool_decide_true by lia|].
  rewrite (bool_decide_false (snap_LastIncludedIndex s < lastIncludedIndex l)%N) by lia.
  destruct (N.eqb_spec (snap_LastIncludedIndex s) (lastIncludedIndex l)) as [Hi|Hi];
    [rewrite (bool_decide_true _ Hi)|rewrite (bool_decide_false _ Hi)].
  - destruct (N.eqb_spec (snap_LastIncludedTerm s) (lastIncludedTerm l)) as [Ht|Ht];
      [by rewrite (bool_decide_true _ Ht)|by rewrite (bool_decide_false _ Ht)].
  - case_bool_decide as Hb.
    + assert (is_Some (getLocked l (snap_LastIncludedIndex s))) as Hr
        by (destruct (getLocked l (snap_LastIncludedIndex s)); [eauto|done]).
      apply (getLocked_range l _ Hwf) in Hr.
      destruct (keep_wf l (snap_LastIncludedIndex s) (snap_LastIncludedTerm s) Hwf) as [? ->];
        [lia|done].
    + split; [split; [apply contiguous_nil|cbn; lia]|done].
Qed.

(** ** Properties *)

(** Every lookup of the concrete log (a scan comparing stored index fields,
    with the boundary special case) is the positional lookup of the abstract
    log, and last index and the range of retained indexes agree with it. *)
Theorem log_get_refines l i :
  log_wf l ->
  entry_pair <$> getLocked l i = aget (denote l) i /\
  lastIndexLocked l = alast (denote l) /\
  (is_Some (getLocked l i) <-> (i ≠ 0 /\ lastIncludedIndex l <= i <= lastIndexLocked l)%N).
Proof.
  intros Hwf. split_and!;
    [by apply getLocked_denote|by apply lastIndexLocked_denote|by apply getLocked_range].
Qed.

Lemma log_get_refines_witness :
  entry_pair <$> getLocked (mkLog [mkLogEntry 8 2 []; mkLogEntry 9 3 [x01]] 7 2) 9 =
  aget (denote (mkLog [mkLogEntry 8 2 []; mkLogEntry 9 3 [x01]] 7 2)) 9.
Proof.
  apply log_get_refines. split; [|done]. apply contiguous_cons; split; [done|].
  apply contiguous_cons; split; [done|apply contiguous_nil].
Defined.

(** C20: simulation.  As long as indexes do not overflow, a mutating call on a
    well-formed log fails exactly when the abstract operation is undefined, and
    otherwise leads to a well-formed log denoting the abstract result: Append
    extends only at the end, TruncateFrom cuts at a position, Compact and
    RestoreSnapshot keep exactly the suffix after an agreeing boundary, and
    RestoreSnapshot drops everything after a conflicting one. *)
Theorem log_step_refines op l :
  log_wf l -> op_in_range op l ->
  match log_step op l with
  | Ok l' => log_wf l' /\ astep op (denote l) = Some (denote l')
  | Err _ => astep op (denote l) = None
  end.
Proof.
  intros Hwf Hop. destruct op as [e|i|s|s]; cbn [log_step op_in_range] in *.
  - cbn [astep]. rewrite <- lastIndexLocked_denote by done.
    destruct (Append l e) as [l'|] eqn:E.
    + apply Append_ok in E as (He & -> & Hwf'); [|done..]. split; [done|].
      rewrite bool_decide_true by done. unfold denote. cbn. by rewrite fmap_app.
    + rewrite bool_decide_false; [done|]. intros He. by rewrite Append_accepts in E.
  - split; [by apply truncate_wf|]. cbn [astep]. unfold truncateFromLocked.
    cbn [denote base baseTerm body].
    destruct (N.eqb_spec i 0) as [Hi|Hi];
      [by rewrite (bool_decide_true _ Hi)|rewrite (bool_decide_false _ Hi)].
    destruct (N.leb_spec i (lastIncludedIndex l)); [by rewrite bool_decide_true|].
    rewrite bool_decide_false by lia. unfold denote. cbn.
    by rewrite (cutFrom_spec _ _ _ (proj1 Hwf)), fmap_take.
  - by apply compact_refines.
  - by apply restore_refines.
Qed.

(** Truncating and compacting a three-entry log. *)
Lemma log_step_refines_witness :
  astep (OpTruncateFrom 2) (denote (mkLog [mkLogEntry 1 1 []; mkLogEntry 2 1 []] 0 0)) =
  Some (denote (mkLog [mkLogEntry 1 1 []] 0 0)).
Proof.
  refine (proj2 (log_step_refines (OpTruncateFrom 2)
                   (mkLog [mkLogEntry 1 1 []; mkLogEntry 2 1 []] 0 0) _ I)).
  split; [|done]. apply contiguous_cons; split; [done|].
  apply contiguous_cons; split; [done|apply contiguous_nil].
Defined.

#[export] Hint Resolve NewLog_wf truncate_wf : raftiq.
