(* ===== verification/Storage.v ===== *)
(** The durable-storage contract of the Raft core: the [Storage] interface of
    [internal/storage/storage.go], the validation rules of [wal_validate.go]
    and the in-memory implementation of [memory.go].

    [Storage] is a type class with one field per method.  [StorageLaws] states
    what the Raft core relies on: as observed through [view], a successful call
    acts as the same call on a [MemoryStorage], and a failed call leaves the
    view unchanged.  [MemoryStorage] satisfies it, and so does
    [FaultyStorage], a memory storage whose writes and syncs fail on demand,
    which shows that the laws are compatible with failures. *)

From S2P Require Import Prelude Model RaftLog.

Definition ErrInvalidLog : error := Sentinel "invalid log".
Definition ErrWALDiskFull : error := Sentinel "wal disk full".

Class Storage (S : Type) := {
  st_SaveState : S -> PersistentState -> S * option error;
  st_LoadState : S -> result PersistentState;
  st_AppendEntries : S -> list LogEntry -> S * option error;
  st_ReplaceSuffix : S -> LogIndex -> list LogEntry -> S * option error;
  st_LoadEntries : S -> result (list LogEntry);
  st_SaveSnapshot : S -> Snapshot -> S * option error;
  st_LoadSnapshot : S -> result Snapshot;
  st_Compact : S -> Snapshot -> S * option error;
  st_Sync : S -> S * option error;
}.

(** The loop of [validateEntries]; [previous] is the entry before the current one. *)
Fixpoint validateEntriesFrom (previous : option LogEntry) (es : list LogEntry) : option error :=
  match es with
  | [] => None
  | entry :: rest =>
      if (le_Index entry =? 0)%N then Some (Wrap "entry has zero index" ErrInvalidLog)
      else
        match previous with
        | Some p =>
            if negb (le_Index entry =? u64_add (le_Index p) 1)%N
            then Some (Wrap "entry indexes are not contiguous" ErrInvalidLog)
            else validateEntriesFrom (Some entry) rest
        | None => validateEntriesFrom (Some entry) rest
        end
  end.

Definition validateEntries (es : list LogEntry) : option error := validateEntriesFrom None es.

(** [additions] is non-empty in every call. *)
Definition validateAppend (existing additions : list LogEntry) : option error :=
  match last existing, additions with
  | Some e, a :: _ =>
      if negb (le_Index a =? u64_add (le_Index e) 1)%N
      then Some (Wrap "append starts at wrong index" ErrInvalidLog)
      else None
  | _, _ => None
  end.

Definition validateReplaceSuffix (snapshot : option Snapshot) (from : LogIndex) (es : list LogEntry)
    : option error :=
  if (from =? 0)%N
  then Some (Wrap "suffix replacement index must be greater than zero" ErrInvalidLog)
  else if (match snapshot with
           | Some s => (from <=? snap_LastIncludedIndex s)%N
           | None => false
           end)
  then Some (Wrap "suffix replacement index is at or before snapshot index" ErrInvalidLog)
  else
    match validateEntries es with
    | Some e => Some (Wrap "validate replacement entries" e)
    | None =>
        match es with
        | a :: _ => if negb (le_Index a =? from)%N
                    then Some (Wrap "replacement starts at wrong index" ErrInvalidLog)
                    else None
        | [] => None
        end
    end.

Record MemoryStorage := mkMemoryStorage {
  ms_state : PersistentState;
  ms_entries : list LogEntry;
  ms_snapshot : option Snapshot;
}.

Definition NewMemoryStorage : MemoryStorage := mkMemoryStorage zero_PersistentState [] None.

Definition mem_SaveState (s : MemoryStorage) (state : PersistentState) : MemoryStorage * option error :=
  (mkMemoryStorage state (ms_entries s) (ms_snapshot s), None).

Definition mem_LoadState (s : MemoryStorage) : result PersistentState := Ok (ms_state s).

Definition mem_AppendEntries (s : MemoryStorage) (es : list LogEntry) : MemoryStorage * option error :=
  match es with
  | [] => (s, None)
  | _ =>
      match validateEntries es with
      | Some e => (s, Some (Wrap "validate entries" e))
      | None =>
          match validateAppend (ms_entries s) es with
          | Some e => (s, Some e)
          | None => (mkMemoryStorage (ms_state s) (ms_entries s ++ es) (ms_snapshot s), None)
          end
      end
  end.

(** The [keep] loop of [ReplaceSuffix]: the entries before the first one at or
    after [fromIndex]. *)
Fixpoint keepBefore (fromIndex : LogIndex) (es : list LogEntry) : list LogEntry :=
  match es with
  | [] => []
  | entry :: rest => if (le_Index entry <? fromIndex)%N then entry :: keepBefore fromIndex rest else []
  end.

Definition mem_ReplaceSuffix (s : MemoryStorage) (fromIndex : LogIndex) (es : list LogEntry)
    : MemoryStorage * option error :=
  match validateReplaceSuffix (ms_snapshot s) fromIndex es with
  | Some e => (s, Some e)
  | None =>
      (mkMemoryStorage (ms_state s) (keepBefore fromIndex (ms_entries s) ++ es) (ms_snapshot s), None)
  end.

Definition mem_LoadEntries (s : MemoryStorage) : result (list LogEntry) := Ok (ms_entries s).

Definition mem_SaveSnapshot (s : MemoryStorage) (snapshot : Snapshot) : MemoryStorage * option error :=
  (mkMemoryStorage (ms_state s) (ms_entries s) (Some snapshot), None).

Definition mem_LoadSnapshot (s : MemoryStorage) : result Snapshot :=
  match ms_snapshot s with
  | None => Ok zero_Snapshot
  | Some snapshot => Ok snapshot
  end.

Definition mem_Compact (s : MemoryStorage) (snapshot : Snapshot) : MemoryStorage * option error :=
  if (snap_LastIncludedIndex snapshot =? 0)%N
  then (s, Some (Msg "cannot compact at snapshot index 0"))
  else match ms_snapshot s with
       | None => (s, Some (Msg "cannot compact without persisted snapshot"))
       | Some stored =>
           if negb (snap_LastIncludedIndex stored =? snap_LastIncludedIndex snapshot)%N
           then (s, Some (Msg "snapshot index mismatch"))
           else (mkMemoryStorage (ms_state s)
                   (entriesAfter (snap_LastIncludedIndex snapshot) (ms_entries s))
                   (ms_snapshot s), None)
       end.

Definition mem_Sync (s : MemoryStorage) : MemoryStorage * option error := (s, None).

#[global] Instance MemoryStorage_Storage : Storage MemoryStorage := {|
  st_SaveState := mem_SaveState;
  st_LoadState := mem_LoadState;
  st_AppendEntries := mem_AppendEntries;
  st_ReplaceSuffix := mem_ReplaceSuffix;
  st_LoadEntries := mem_LoadEntries;
  st_SaveSnapshot := mem_SaveSnapshot;
  st_LoadSnapshot := mem_LoadSnapshot;
  st_Compact := mem_Compact;
  st_Sync := mem_Sync;
|}.

(** ** The contract *)

(** [r] is the outcome of a call on a storage viewed as [v] before, where
    [expected] is the outcome of the same call on the memory storage [v]. *)
Definition acts_as {S} (view : S -> MemoryStorage) (v : MemoryStorage)
    (r : S * option error) (expected : MemoryStorage * option error) : Prop :=
  match r with
  | (s', None) => expected = (view s', None)
  | (s', Some _) => view s' = v
  end.

(** Compaction may keep the stored snapshot or store the one it is given, which
    has the same index. *)
Definition compacts_as {S} (view : S -> MemoryStorage) (v : MemoryStorage) (sn : Snapshot)
    (r : S * option error) (expected : MemoryStorage * option error) : Prop :=
  match r with
  | (s', None) =>
      snd expected = None /\
      (view s' = fst expected \/
       view s' = mkMemoryStorage (ms_state (fst expected)) (ms_entries (fst expected)) (Some sn))
  | (s', Some _) => view s' = v
  end.

Class StorageLaws (S : Type) `{Storage S} := {
  view : S -> MemoryStorage;
  SaveState_law s p : acts_as view (view s) (st_SaveState s p) (mem_SaveState (view s) p);
  AppendEntries_law s es :
    acts_as view (view s) (st_AppendEntries s es) (mem_AppendEntries (view s) es);
  ReplaceSuffix_law s from es :
    acts_as view (view s) (st_ReplaceSuffix s from es) (mem_ReplaceSuffix (view s) from es);
  SaveSnapshot_law s sn :
    acts_as view (view s) (st_SaveSnapshot s sn) (mem_SaveSnapshot (view s) sn);
  Compact_law s sn : compacts_as view (view s) sn (st_Compact s sn) (mem_Compact (view s) sn);
  Sync_law s : acts_as view (view s) (st_Sync s) (mem_Sync (view s));
  LoadState_law s p : st_LoadState s = Ok p -> p = ms_state (view s);
  LoadEntries_law s es : st_LoadEntries s = Ok es -> es = ms_entries (view s);
  LoadSnapshot_law s sn : st_LoadSnapshot s = Ok sn -> mem_LoadSnapshot (view s) = Ok sn;
}.

(** A memory storage whose mutating calls fail with the errors of a script:
    each call consumes one element. *)
Record FaultyStorage := mkFaultyStorage {
  fs_mem : MemoryStorage;
  fs_script : list (option error);
}.

Definition faulty (s : FaultyStorage) (r : MemoryStorage * option error) : FaultyStorage * option error :=
  match fs_script s with
  | Some e :: rest => (mkFaultyStorage (fs_mem s) rest, Some e)
  | None :: rest => (mkFaultyStorage (fst r) rest, snd r)
  | [] => (mkFaultyStorage (fst r) [], snd r)
  end.

#[global] Instance FaultyStorage_Storage : Storage FaultyStorage := {|
  st_SaveState s p := faulty s (mem_SaveState (fs_mem s) p);
  st_LoadState s := mem_LoadState (fs_mem s);
  st_AppendEntries s es := faulty s (mem_AppendEntries (fs_mem s) es);
  st_ReplaceSuffix s from es := faulty s (mem_ReplaceSuffix (fs_mem s) from es);
  st_LoadEntries s := mem_LoadEntries (fs_mem s);
  st_SaveSnapshot s sn := faulty s (mem_SaveSnapshot (fs_mem s) sn);
  st_LoadSnapshot s := mem_LoadSnapshot (fs_mem s);
  st_Compact s sn := faulty s (mem_Compact (fs_mem s) sn);
  st_Sync s := faulty s (mem_Sync (fs_mem s));
|}.

(** ** Lemmas *)

(** A failed call on a memory storage changes nothing. *)
Definition keeps_on_failure (s : MemoryStorage) (r : MemoryStorage * option error) : Prop :=
  match snd r with
  | None => True
  | Some _ => fst r = s
  end.

Ltac storage_cases :=
  unfold keeps_on_failure, mem_SaveState, mem_AppendEntries, mem_ReplaceSuffix, mem_SaveSnapshot,
    mem_Compact, mem_Sync;
  repeat split_goal_match; cbn in *; simplify_eq; try done.

Lemma mem_SaveState_keeps s p : keeps_on_failure s (mem_SaveState s p).
Proof. storage_cases. Qed.
Lemma mem_AppendEntries_keeps s es : keeps_on_failure s (mem_AppendEntries s es).
Proof. storage_cases. Qed.
Lemma mem_ReplaceSuffix_keeps s from es : keeps_on_failure s (mem_ReplaceSuffix s from es).
Proof. storage_cases. Qed.
Lemma mem_SaveSnapshot_keeps s sn : keeps_on_failure s (mem_SaveSnapshot s sn).
Proof. storage_cases. Qed.
Lemma mem_Compact_keeps s sn : keeps_on_failure s (mem_Compact s sn).
Proof. storage_cases. Qed.
Lemma mem_Sync_keeps s : keeps_on_failure s (mem_Sync s).
Proof. storage_cases. Qed.

#[export] Hint Resolve mem_SaveState_keeps mem_AppendEntries_keeps mem_ReplaceSuffix_keeps
  mem_SaveSnapshot_keeps mem_Compact_keeps mem_Sync_keeps : raftiq.

Lemma acts_compacts {S} (view : S -> MemoryStorage) v sn r expected :
  acts_as view v r expected -> compacts_as view v sn r expected.
Proof. destruct r as [s' [e|]]; cbn; [done|]. intros ->. auto. Qed.

Lemma mem_acts s r : keeps_on_failure s r -> acts_as id s r r.
Proof. destruct r as [s' [e|]]; cbn; auto. Qed.

Lemma faulty_acts s r : keeps_on_failure (fs_mem s) r -> acts_as fs_mem (fs_mem s) (faulty s r) r.
Proof.
  destruct s as [m [|[e|] rest]], r as [s' [e'|]]; unfold keeps_on_failure; cbn; auto.
Qed.

#[global] Instance MemoryStorage_laws : StorageLaws MemoryStorage.
Proof.
  refine {| view := id |}; intros; cbn in *; unfold id in *;
    try (first [apply mem_acts | apply acts_compacts, mem_acts]; auto with raftiq); try done.
  all: by match goal with H : _ = Ok _ |- _ => first [exact H | injection H as <-] end.
Defined.

#[global] Instance FaultyStorage_laws : StorageLaws FaultyStorage.
Proof.
  refine {| view := fs_mem |}; intros; cbn in *;
    try (first [apply faulty_acts | apply acts_compacts, faulty_acts]; auto with raftiq); try done.
  all: by match goal with H : _ = Ok _ |- _ => first [exact H | injection H as <-] end.
Defined.

(** Validation accepts exactly the contiguous runs with non-zero indexes. *)
Lemma validateEntriesFrom_contiguous p es :
  is_u64 (le_Index p + N.of_nat (length es))%N ->
  validateEntriesFrom (Some p) es = None <-> contiguous (le_Index p) es.
Proof.
  revert p; induction es as [|e es IH]; intros p Hlt; cbn [validateEntriesFrom length] in *.
  { split; [intros _; apply contiguous_nil|done]. }
  rewrite contiguous_cons, u64_add_small by lia.
  destruct (N.eqb_spec (le_Index e) 0), (N.eqb_spec (le_Index e) (le_Index p + 1)) as [He|];
    cbn [negb]; try (split; [done|lia]).
  rewrite IH by lia. rewrite He. tauto.
Qed.

Lemma validateEntries_contiguous b es :
  is_u64 (b + N.of_nat (length es))%N -> contiguous b es -> validateEntries es = None.
Proof.
  unfold validateEntries. destruct es as [|e es]; [done|]. cbn [length]. intros Hlt [He H]%contiguous_cons.
  cbn [validateEntriesFrom]. destruct (N.eqb_spec (le_Index e) 0); [lia|].
  apply validateEntriesFrom_contiguous; rewrite He; [lia|done].
Qed.

Lemma keepBefore_cutFrom i es : keepBefore i es = cutFrom i es.
Proof.
  induction es as [|e es IH]; cbn; [done|]. rewrite IH.
  destruct (N.ltb_spec (le_Index e) i), (N.leb_spec i (le_Index e)); try lia; done.
Qed.

(** On a contiguous log ending at [b], appending the contiguous run after [b] is accepted. *)
Lemma mem_AppendEntries_accepts s b es :
  (forall e, last (ms_entries s) = Some e -> le_Index e = b) ->
  is_u64 (b + N.of_nat (length es))%N -> contiguous b es ->
  mem_AppendEntries s es =
    (mkMemoryStorage (ms_state s) (ms_entries s ++ es) (ms_snapshot s), None).
Proof.
  intros Hb Hlt Hc. unfold mem_AppendEntries. destruct es as [|a es].
  { rewrite app_nil_r. by destruct s. }
  rewrite (validateEntries_contiguous b) by done.
  unfold validateAppend. destruct (last (ms_entries s)) as [e|] eqn:E; [|done].
  rewrite (Hb e eq_refl). apply contiguous_cons in Hc as [Ha _]. cbn [length] in Hlt.
  rewrite u64_add_small by lia. by rewrite Ha, N.eqb_refl.
Qed.

Lemma mem_ReplaceSuffix_accepts s from es :
  (forall sn, ms_snapshot s = Some sn -> snap_LastIncludedIndex sn < from)%N ->
  (0 < from)%N -> is_u64 (from - 1 + N.of_nat (length es))%N -> contiguous (from - 1) es ->
  mem_ReplaceSuffix s from es =
    (mkMemoryStorage (ms_state s) (cutFrom from (ms_entries s) ++ es) (ms_snapshot s), None).
Proof.
  intros Hsn Hpos Hlt Hc. unfold mem_ReplaceSuffix, validateReplaceSuffix.
  destruct (N.eqb_spec from 0); [lia|].
  replace (match ms_snapshot s with Some sn => (from <=? snap_LastIncludedIndex sn)%N | None => false end)
    with false.
  2: { destruct (ms_snapshot s) as [sn|]; [|done]. symmetry. apply N.leb_gt. by apply Hsn. }
  rewrite (validateEntries_contiguous (from - 1)) by done. rewrite keepBefore_cutFrom.
  destruct es as [|a es]; [done|]. apply contiguous_cons in Hc as [Ha _].
  by replace (le_Index a =? from)%N with true by (symmetry; apply N.eqb_eq; lia).
Qed.
