(* ===== verification/WalRecord.v ===== *)
(** The record format of the write-ahead log ([internal/storage/wal_record.go]):
    a type byte, the payload length, the payload and a CRC-32 over all three.

    The checksum is the IEEE CRC-32 of [hash/crc32], computed bit by bit.  Its
    update is a bijection on 32-bit registers, so two inputs that differ in one
    byte never have the same checksum.  On top of it the file proves that the
    decoder accepts exactly what the encoder writes, that every strict prefix of
    a record is reported as an incomplete tail, and that a record with one
    altered byte of type or payload is rejected. *)

From S2P Require Import Prelude Model Bytes.

(** ** Definitions *)

Definition crc32_polynomial : N := 0xEDB88320.

Definition crc32_step (register : N) : N :=
  if N.testbit register 0
  then N.lxor (N.shiftr register 1) crc32_polynomial
  else N.shiftr register 1.

Definition crc32_byte (register : N) (b : byte) : N :=
  Nat.iter 8 crc32_step (N.lxor register (Byte.to_N b)).

Definition crc32_update (register : N) (bs : bytes) : N := fold_left crc32_byte bs register.

(** [crc32.ChecksumIEEE]. *)
Definition ChecksumIEEE (bs : bytes) : N :=
  N.lxor (crc32_update 0xFFFFFFFF bs) 0xFFFFFFFF.

Definition recordState : byte := x01.
Definition recordEntries : byte := x02.
Definition recordSnapshot : byte := x03.
Definition recordReplaceSuffix : byte := x04.
Definition maxRecordPayloadSize : N := 16777216.

(** The bytes a checksum covers: type, length and payload. *)
Definition headerAndPayload (recordType : byte) (payload : bytes) : bytes :=
  recordType :: be32 (N.of_nat (length payload)) ++ payload.

Definition encodeRecord (recordType : byte) (payload : bytes) : result bytes :=
  if (maxRecordPayloadSize <? N.of_nat (length payload))%N
  then Err (Msg "record payload too large")
  else
    let record := headerAndPayload recordType payload in
    Ok (record ++ be32 (ChecksumIEEE record)).

(** Inside a record an end of file is an unexpected one. *)
Definition inside_record {A} (r : result A) : result A :=
  match r with
  | Ok a => Ok a
  | Err e => if errors_Is e "EOF" then Err io_ErrUnexpectedEOF else Err e
  end.

Definition decodeRecord (reader : bytes) : result (byte * bytes * bytes) :=
  '(recordType, reader) ← read_byte reader;
  '(payloadLength, reader) ← inside_record (read_uint 4 reader);
  if (maxRecordPayloadSize <? payloadLength)%N then Err (Msg "WAL record payload too large")
  else
    '(payload, reader) ← inside_record (read_full (N.to_nat payloadLength) reader);
    '(storedChecksum, reader) ← inside_record (read_uint 4 reader);
    let expectedChecksum :=
      ChecksumIEEE (recordType :: be32 payloadLength ++ payload) in
    if negb (storedChecksum =? expectedChecksum)%N then Err (Msg "WAL checksum mismatch")
    else Ok (recordType, payload, reader).

(** ** The checksum *)

Abbreviation is_u32 n := (n < 2 ^ 32)%N.

Lemma testbit_above k n i : (n < 2 ^ k)%N -> (k <= i)%N -> N.testbit n i = false.
Proof.
  intros Hn Hi. destruct (decide (n = 0%N)) as [->|Hz]; [apply N.bits_0|].
  apply N.bits_above_log2. apply N.log2_lt_pow2 in Hn; lia.
Qed.

Lemma lt_of_testbit k n : (forall i, (k <= i)%N -> N.testbit n i = false) -> (n < 2 ^ k)%N.
Proof.
  intros H. destruct (decide (n = 0%N)) as [->|Hz].
  { apply N.neq_0_lt_0. by apply N.pow_nonzero. }
  apply N.log2_lt_pow2; [lia|]. apply N.nle_gt. intros Hle.
  specialize (H _ Hle). by rewrite N.bit_log2 in H.
Qed.

Lemma lxor_lt k a b : (a < 2 ^ k)%N -> (b < 2 ^ k)%N -> (N.lxor a b < 2 ^ k)%N.
Proof.
  intros Ha Hb. apply lt_of_testbit. intros i Hi.
  by rewrite N.lxor_spec, (testbit_above k a), (testbit_above k b).
Qed.

Lemma shiftr_lt k a n : (a < 2 ^ k)%N -> (N.shiftr a n < 2 ^ k)%N.
Proof.
  intros Ha. apply lt_of_testbit. intros i Hi. rewrite N.shiftr_spec by lia.
  apply (testbit_above k); [done|lia].
Qed.

Lemma crc32_step_u32 c : is_u32 c -> is_u32 (crc32_step c).
Proof.
  intros Hc. unfold crc32_step. destruct (N.testbit c 0); [apply lxor_lt; [|done]|];
    by apply shiftr_lt.
Qed.

(** The top bit of the new register is the bit shifted out, so the step can be undone. *)
Lemma crc32_step_top c : is_u32 c -> N.testbit (crc32_step c) 31 = N.testbit c 0.
Proof.
  intros Hc. assert (N.testbit (N.shiftr c 1) 31 = false) as Hs.
  { rewrite N.shiftr_spec by lia. by apply (testbit_above 32). }
  unfold crc32_step. destruct (N.testbit c 0); [|done]. by rewrite N.lxor_spec, Hs.
Qed.

Lemma crc32_step_inj a b : is_u32 a -> is_u32 b -> crc32_step a = crc32_step b -> a = b.
Proof.
  intros Ha Hb E.
  assert (N.testbit a 0 = N.testbit b 0) as E0.
  { rewrite <- !crc32_step_top by done. by rewrite E. }
  assert (N.shiftr a 1 = N.shiftr b 1) as Es.
  { unfold crc32_step in E. rewrite <- E0 in E. destruct (N.testbit a 0); [|done].
    apply (f_equal (fun x => N.lxor x crc32_polynomial)) in E.
    by rewrite !N.lxor_assoc, N.lxor_nilpotent, !N.lxor_0_r in E. }
  apply N.bits_inj. intros i. destruct (decide (i = 0%N)) as [->|Hi]; [done|].
  replace i with (N.pred i + 1)%N by lia.
  rewrite <- !N.shiftr_spec by lia. by rewrite Es.
Qed.

Lemma crc32_steps_u32 n c : is_u32 c -> is_u32 (Nat.iter n crc32_step c).
Proof. intros Hc. induction n as [|n IH]; cbn; [done|]. by apply crc32_step_u32. Qed.

Lemma crc32_steps_inj n a b :
  is_u32 a -> is_u32 b -> Nat.iter n crc32_step a = Nat.iter n crc32_step b -> a = b.
Proof.
  intros Ha Hb. induction n as [|n IH]; cbn; [done|]. intros E. apply IH.
  apply crc32_step_inj; [by apply crc32_steps_u32..|done].
Qed.

Lemma byte_u32 b : is_u32 (Byte.to_N b).
Proof. pose proof (Byte.to_N_bounded b). change (2 ^ 32)%N with 4294967296%N. lia. Qed.

#[local] Hint Resolve lxor_lt byte_u32 crc32_steps_u32 : core.

Lemma crc32_byte_u32 c b : is_u32 c -> is_u32 (crc32_byte c b).
Proof. unfold crc32_byte. auto. Qed.

Lemma lxor_cancel_r a b c : N.lxor a c = N.lxor b c -> a = b.
Proof.
  intros E%(f_equal (fun x => N.lxor x c)).
  by rewrite !N.lxor_assoc, N.lxor_nilpotent, !N.lxor_0_r in E.
Qed.

Lemma crc32_byte_inj_register a b x :
  is_u32 a -> is_u32 b -> crc32_byte a x = crc32_byte b x -> a = b.
Proof. intros Ha Hb E%crc32_steps_inj; auto. by apply lxor_cancel_r in E. Qed.

Lemma crc32_byte_inj_byte c x y : is_u32 c -> crc32_byte c x = crc32_byte c y -> x = y.
Proof.
  intros Hc E%crc32_steps_inj; auto. rewrite !(N.lxor_comm c) in E. apply lxor_cancel_r in E.
  rewrite <- (byte_of_N_to_N x), <- (byte_of_N_to_N y). by rewrite E.
Qed.

Lemma crc32_update_u32 c bs : is_u32 c -> is_u32 (crc32_update c bs).
Proof.
  revert c; induction bs as [|b bs IH]; intros c Hc; cbn; [done|]. apply IH. by apply crc32_byte_u32.
Qed.

Lemma crc32_update_inj a b bs :
  is_u32 a -> is_u32 b -> crc32_update a bs = crc32_update b bs -> a = b.
Proof.
  revert a b; induction bs as [|x bs IH]; intros a b Ha Hb; cbn; [done|].
  intros E%IH; [|by apply crc32_byte_u32..]. by apply crc32_byte_inj_register in E.
Qed.

Lemma ChecksumIEEE_u32 bs : (ChecksumIEEE bs < 256 ^ N.of_nat 4)%N.
Proof. change (256 ^ N.of_nat 4)%N with (2 ^ 32)%N. apply lxor_lt; [|done]. by apply crc32_update_u32. Qed.

(** Two inputs that differ in exactly one byte have different checksums. *)
Lemma ChecksumIEEE_one_byte pre x y post :
  ChecksumIEEE (pre ++ x :: post) = ChecksumIEEE (pre ++ y :: post) -> x = y.
Proof.
  unfold ChecksumIEEE. intros E%lxor_cancel_r. unfold crc32_update in E.
  rewrite !fold_left_app in E. cbn [fold_left] in E.
  apply (crc32_update_inj _ _ post) in E; [|apply crc32_byte_u32, (crc32_update_u32 _ pre); done..].
  apply crc32_byte_inj_byte in E; [done|]. by apply (crc32_update_u32 _ pre).
Qed.

(** ** The record frame *)

Lemma encodeRecord_Ok t p r :
  encodeRecord t p = Ok r <->
  (N.of_nat (length p) <= maxRecordPayloadSize)%N /\
  r = headerAndPayload t p ++ be32 (ChecksumIEEE (headerAndPayload t p)).
Proof.
  unfold encodeRecord. destruct (N.ltb_spec maxRecordPayloadSize (N.of_nat (length p))).
  - split; [done|]. intros [? _]. lia.
  - split; [by intros [= <-]|]. by intros [_ ->].
Qed.

Lemma payload_length_u32 (p : bytes) :
  (N.of_nat (length p) <= maxRecordPayloadSize)%N -> (N.of_nat (length p) < 256 ^ N.of_nat 4)%N.
Proof. unfold maxRecordPayloadSize. change (256 ^ N.of_nat 4)%N with 4294967296%N. lia. Qed.

(** What the decoder does with a complete frame. *)
Lemma decodeRecord_frame t p c rest :
  (N.of_nat (length p) <= maxRecordPayloadSize)%N -> length c = 4 ->
  decodeRecord (headerAndPayload t p ++ c ++ rest) =
    if negb (be_decode c =? ChecksumIEEE (headerAndPayload t p))%N
    then Err (Msg "WAL checksum mismatch") else Ok (t, p, rest).
Proof.
  intros Hp Hc. unfold decodeRecord, headerAndPayload. rewrite <- app_comm_cons, <- app_assoc.
  cbn [read_byte mbind result_bind]. rewrite read_uint_app by by apply payload_length_u32.
  cbn [inside_record mbind result_bind].
  destruct (N.ltb_spec maxRecordPayloadSize (N.of_nat (length p))); [lia|].
  rewrite Nat2N.id, read_full_app by done. cbn [inside_record mbind result_bind].
  unfold read_uint. rewrite read_full_app by done. done.
Qed.

Lemma decodeRecord_encode t p r rest :
  encodeRecord t p = Ok r -> decodeRecord (r ++ rest) = Ok (t, p, rest).
Proof.
  intros [Hp ->]%encodeRecord_Ok. rewrite <- app_assoc, decodeRecord_frame; [|done|apply be_encode_length].
  rewrite be_decode_encode, N.mod_small by apply ChecksumIEEE_u32. by rewrite N.eqb_refl.
Qed.

Lemma inside_record_Ok {A} (r : result A) a : inside_record r = Ok a <-> r = Ok a.
Proof. destruct r as [|e]; cbn; [done|]. by destruct (errors_Is e "EOF"). Qed.

Lemma decodeRecord_sound bs t p rest :
  decodeRecord bs = Ok (t, p, rest) -> exists r, encodeRecord t p = Ok r /\ bs = r ++ rest.
Proof.
  unfold decodeRecord. intros ([t' r1] & H1%read_byte_inv & H)%bind_Ok. subst bs.
  apply bind_Ok in H as ([n r2] & H2%inside_record_Ok%read_uint_inv & H). destruct H2 as [-> Hn].
  destruct (N.ltb_spec maxRecordPayloadSize n); [done|].
  apply bind_Ok in H as ([p' r3] & H3%inside_record_Ok%read_full_inv & H). destruct H3 as [-> Hp].
  apply bind_Ok in H as ([c r4] & H4%inside_record_Ok%read_uint_inv & H). destruct H4 as [-> Hc].
  destruct (N.eqb_spec c (ChecksumIEEE (t' :: be32 n ++ p'))) as [->|]; [|done].
  injection H as -> -> ->.
  replace n with (N.of_nat (length p)) in * by lia.
  eexists. rewrite encodeRecord_Ok. split; [by split|].
  unfold headerAndPayload. by rewrite <- !app_comm_cons, <- !app_assoc.
Qed.

Lemma app_split_longer (a b c d : bytes) :
  a ++ b = c ++ d -> length c <= length a -> exists m, a = c ++ m /\ m ++ b = d.
Proof.
  revert a; induction c as [|x c IH]; intros a E Hl; [by exists a|].
  destruct a as [|y a]; cbn in *; [lia|]. injection E as -> E.
  apply IH in E as (m & -> & <-); [|lia]. by exists m.
Qed.

Lemma inside_read_full_short k r :
  length r < k -> inside_record (read_full k r) = Err io_ErrUnexpectedEOF.
Proof.
  intros Hk. unfold read_full. destruct (Nat.leb_spec k (length r)); [lia|]. by destruct r.
Qed.

Lemma inside_read_uint_short k r :
  length r < k -> inside_record (read_uint k r) = Err io_ErrUnexpectedEOF.
Proof.
  intros Hk. unfold read_uint, read_full. destruct (Nat.leb_spec k (length r)); [lia|]. by destruct r.
Qed.

(** A record cut short anywhere after its first byte is an incomplete tail. *)
Lemma decodeRecord_cut t p r b bs rest :
  encodeRecord t p = Ok r -> r = (b :: bs) ++ rest -> rest ≠ [] ->
  decodeRecord (b :: bs) = Err io_ErrUnexpectedEOF.
Proof.
  intros [Hp ->]%encodeRecord_Ok E Hrest. unfold headerAndPayload in E at 1.
  rewrite <- !app_comm_cons, <- app_assoc in E. apply (f_equal (fun l => (head l, tail l))) in E.
  cbn [head tail] in E. apply pair_equal_spec in E as [[= <-] E]. symmetry in E.
  unfold decodeRecord. cbn [read_byte mbind result_bind].
  destruct (decide (length bs < 4)).
  { by rewrite inside_read_uint_short. }
  apply app_split_longer in E as (m & -> & E); [|rewrite be_encode_length; lia].
  rewrite read_uint_app by by apply payload_length_u32. cbn [inside_record mbind result_bind].
  destruct (N.ltb_spec maxRecordPayloadSize (N.of_nat (length p))); [lia|]. rewrite Nat2N.id.
  destruct (decide (length m < length p)).
  { by rewrite inside_read_full_short. }
  apply app_split_longer in E as (m' & -> & E); [|lia].
  rewrite read_full_app by done. cbn [inside_record mbind result_bind].
  rewrite inside_read_uint_short; [done|].
  apply (f_equal length) in E. rewrite length_app, be_encode_length in E.
  destruct rest; [done|]. cbn in E. lia.
Qed.

Lemma encodeRecord_length t p r : encodeRecord t p = Ok r -> length r = length p + 9.
Proof.
  intros [_ ->]%encodeRecord_Ok. unfold headerAndPayload.
  rewrite length_app, be_encode_length. cbn [length]. rewrite length_app, be_encode_length. lia.
Qed.

Lemma be_decode_inj a b : length a = length b -> be_decode a = be_decode b -> a = b.
Proof. intros Hl E. rewrite <- (be_encode_decode a), <- (be_encode_decode b). by rewrite Hl, E. Qed.

Lemma ChecksumIEEE_insert bs i x y :
  bs !! i = Some x -> y ≠ x -> ChecksumIEEE (<[i:=y]> bs) ≠ ChecksumIEEE bs.
Proof.
  intros Hx Hne E. rewrite <- (take_drop_middle _ _ _ Hx) in E at 2.
  rewrite insert_take_drop in E by by eapply lookup_lt_Some.
  by apply ChecksumIEEE_one_byte in E.
Qed.

Lemma headerAndPayload_length t p : length (headerAndPayload t p) = 5 + length p.
Proof. unfold headerAndPayload. cbn [length]. by rewrite length_app, be_encode_length. Qed.

(** Altering the type or the payload of the covered bytes gives the covered bytes of another record. *)
Lemma headerAndPayload_insert t p i y :
  i = 0 \/ 5 <= i -> exists t' p', length p' = length p /\
    <[i:=y]> (headerAndPayload t p) = headerAndPayload t' p'.
Proof.
  intros [->|Hi]; [by exists y, p|]. exists t, (<[i - 5:=y]> p).
  rewrite length_insert. split; [done|]. unfold headerAndPayload. rewrite length_insert.
  set (h := be32 (N.of_nat (length p))).
  replace i with (S (length h + (i - 5))) at 1 by (unfold h; rewrite be_encode_length; lia).
  change (t :: <[length h + (i - 5):=y]> (h ++ p) = t :: h ++ <[i - 5:=y]> p).
  by rewrite insert_app_r.
Qed.

(** ** Properties *)

(** C39: corruption is detected: when one byte of a written record is altered,
    in its type, its payload or its checksum, the decoder reports a checksum
    mismatch, whatever follows the record. *)
Theorem altered_record_rejected t p r i x y rest :
  encodeRecord t p = Ok r -> i = 0 \/ 5 <= i -> r !! i = Some x -> y ≠ x ->
  decodeRecord (<[i:=y]> r ++ rest) = Err (Msg "WAL checksum mismatch").
Proof.
  intros [Hp ->]%encodeRecord_Ok Hi Hx Hne.
  set (h := headerAndPayload t p) in *. set (c := be32 (ChecksumIEEE h)) in *.
  destruct (decide (i < length h)) as [Hlt|Hge].
  - rewrite lookup_app_l in Hx by done. rewrite insert_app_l by done.
    destruct (headerAndPayload_insert t p i y Hi) as (t' & p' & Hl & E).
    pose proof (ChecksumIEEE_insert _ _ _ _ Hx Hne) as Hc. fold h in E. rewrite E in Hc |- *.
    rewrite <- app_assoc, decodeRecord_frame; [|by rewrite Hl|apply be_encode_length].
    unfold c. rewrite be_decode_encode, N.mod_small by apply ChecksumIEEE_u32.
    by rewrite (proj2 (N.eqb_neq _ _)) by done.
  - replace i with (length h + (i - length h)) in Hx |- * by lia.
    rewrite lookup_app_r in Hx by lia. rewrite insert_app_r.
    replace (length h + (i - length h) - length h) with (i - length h) in Hx by lia.
    rewrite <- app_assoc. unfold h at 1.
    rewrite decodeRecord_frame; [|done|by rewrite length_insert; apply be_encode_length].
    rewrite (proj2 (N.eqb_neq _ _)); [done|]. intros E. fold h in E.
    assert (be_decode c = ChecksumIEEE h) as Ec.
    { unfold c. by rewrite be_decode_encode, N.mod_small by apply ChecksumIEEE_u32. }
    rewrite <- Ec in E. apply be_decode_inj in E; [|by rewrite length_insert].
    apply (f_equal (fun l => l !! (i - length h))) in E. rewrite list_lookup_insert_eq in E.
    + rewrite Hx in E. congruence.
    + by eapply lookup_lt_Some.
Qed.

Lemma altered_record_rejected_witness :
  exists r, encodeRecord recordState [x07; x09] = Ok r /\
    decodeRecord (<[6:=x0a]> r ++ [x01]) = Err (Msg "WAL checksum mismatch").
Proof.
  eexists. split; [vm_compute; reflexivity|].
  eapply (altered_record_rejected recordState [x07; x09] _ 6 x09); [vm_compute; reflexivity|lia| |done].
  vm_compute. reflexivity.
Defined.
