(* ===== verification/WalCodec.v ===== *)
(** The payloads of the write-ahead log's records: persistent state
    ([wal_state.go]), memberships ([wal_membership.go]), log entries and suffix
    replacements ([wal_entries.go]).

    Writes to a [bytes.Buffer] do not fail; what can fail in an encoder are the
    size checks of the source.  The lemmas show that a payload the encoder
    produced decodes to the value it encodes, for the values the decoder's own
    limits admit ([state_ok], [entry_u64]). *)

From S2P Require Import Prelude Model Bytes RaftLog Storage ConfigEntry WalRecord.

Definition max_u32 : N := 4294967295.
Definition stateMembershipMagic : N := 0x52414654.
Definition stateMembershipVersion : byte := x01.
Definition maxWALConfigurationVoters : N := 1024.
Definition maxWALConfigurationNodeID : N := 1024.
Definition ErrWALVersion : error := Sentinel "unsupported wal version".

(** The loop of [encodeConfiguration] over the voters. *)
Fixpoint encodeVoterIDs (voters : list NodeID) : result bytes :=
  match voters with
  | [] => Ok []
  | voter :: rest =>
      let data := string_bytes voter in
      if (max_u32 <? N.of_nat (length data))%N then Err (Msg "voter ID too large")
      else
        tail ← encodeVoterIDs rest;
        Ok (be32 (N.of_nat (length data)) ++ data ++ tail)
  end.

Definition encodeConfiguration (configuration : Configuration) : result bytes :=
  if (max_u32 <? N.of_nat (length (Voters configuration)))%N
  then Err (Msg "too many configuration voters")
  else
    ids ← encodeVoterIDs (Voters configuration);
    Ok (be32 (N.of_nat (length (Voters configuration))) ++ ids).

Definition encodeMembership (membership : Membership) : result bytes :=
  current ← wrap_err "encode current configuration" (encodeConfiguration (mem_Current membership));
  let header := be32 stateMembershipMagic ++ [stateMembershipVersion] ++ current in
  match mem_Joint membership with
  | None => Ok (header ++ [x00])
  | Some joint =>
      old ← wrap_err "encode joint old configuration" (encodeConfiguration (joint_Old joint));
      new ← wrap_err "encode joint new configuration" (encodeConfiguration (joint_New joint));
      Ok (header ++ [x01] ++ old ++ new)
  end.

(** The loop of [decodeConfiguration] over [voterCount] voters. *)
Fixpoint decodeVoterIDs (count : nat) (seen : gset NodeID) (voters : list NodeID) (reader : bytes)
    : result (list NodeID * bytes) :=
  match count with
  | O => Ok (voters, reader)
  | S count' =>
      '(len, reader) ← wrap_err "decode voter length" (read_uint 4 reader);
      if (len =? 0)%N then Err (Msg "voter has empty ID")
      else if (maxWALConfigurationNodeID <? len)%N then Err (Msg "voter ID is too long")
      else if (N.of_nat (length reader) <? len)%N then Err (Msg "voter ID is truncated")
      else
        '(data, reader) ← wrap_err "decode voter" (read_full (N.to_nat len) reader);
        let voterID := bytes_string data in
        if bool_decide (voterID ∈ seen) then Err (Msg "duplicate voter ID")
        else decodeVoterIDs count' ({[voterID]} ∪ seen) (voters ++ [voterID]) reader
  end.

Definition decodeConfiguration (reader : bytes) : result (Configuration * bytes) :=
  '(voterCount, reader) ← wrap_err "decode voter count" (read_uint 4 reader);
  if (maxWALConfigurationVoters <? voterCount)%N
  then Err (Msg "configuration contains too many voters")
  else if (voterCount =? 0)%N then Ok (zero_Configuration, reader)
  else
    '(voters, reader) ← decodeVoterIDs (N.to_nat voterCount) ∅ [] reader;
    Ok (mkConfiguration voters, reader).

Definition decodeMembership (reader : bytes) : result (Membership * bytes) :=
  '(magic, reader) ← wrap_err "decode membership magic" (read_uint 4 reader);
  if negb (magic =? stateMembershipMagic)%N then Err (Msg "invalid membership magic")
  else
    '(version, reader) ← wrap_err "decode membership version" (read_byte reader);
    if bool_decide (version ≠ stateMembershipVersion)
    then Err (Wrap "membership version" ErrWALVersion)
    else
      '(current, reader) ← wrap_err "decode current configuration" (decodeConfiguration reader);
      '(jointFlag, reader) ← wrap_err "decode joint configuration flag" (read_byte reader);
      match jointFlag with
      | x00 => Ok (mkMembership current None, reader)
      | x01 =>
          '(old, reader) ← wrap_err "decode joint old configuration" (decodeConfiguration reader);
          '(new, reader) ← wrap_err "decode joint new configuration" (decodeConfiguration reader);
          Ok (mkMembership current (Some (mkJoint old new)), reader)
      | _ => Err (Msg "invalid joint configuration flag")
      end.

Definition encodeStatePayload (state : PersistentState) : result bytes :=
  let votedFor := string_bytes (ps_VotedFor state) in
  if (max_u32 <? N.of_nat (length votedFor))%N then Err (Msg "voted-for value too large")
  else
    membership ← wrap_err "encode membership" (encodeMembership (ps_Membership state));
    Ok (be64 (ps_CurrentTerm state) ++ be32 (N.of_nat (length votedFor)) ++ votedFor ++ membership).

Definition encodeStateRecord (state : PersistentState) : result bytes :=
  payload ← encodeStatePayload state; encodeRecord recordState payload.

Definition decodeStatePayload (payload : bytes) : result PersistentState :=
  '(term, reader) ← wrap_err "decode current term" (read_uint 8 payload);
  '(votedForLength, reader) ← wrap_err "decode voted-for length" (read_uint 4 reader);
  if (N.of_nat (length reader) <? votedForLength)%N then Err (Msg "invalid voted-for length")
  else
    '(votedFor, reader) ← wrap_err "decode voted-for" (read_full (N.to_nat votedForLength) reader);
    if (length reader =? 0)%nat
    then Ok (mkPersistent term (bytes_string votedFor) zero_Membership)
    else
      '(membership, reader) ← wrap_err "decode membership" (decodeMembership reader);
      if negb (length reader =? 0)%nat then Err (Msg "unexpected trailing state data")
      else Ok (mkPersistent term (bytes_string votedFor) membership).

Definition encodeEntry (entry : LogEntry) : result bytes :=
  if (max_u32 <? N.of_nat (length (le_Data entry)))%N then Err (Msg "entry data too large")
  else Ok (be64 (le_Index entry) ++ be64 (le_Term entry) ++
           be32 (N.of_nat (length (le_Data entry))) ++ le_Data entry).

Fixpoint encodeEntries (text : string) (entries : list LogEntry) : result bytes :=
  match entries with
  | [] => Ok []
  | entry :: rest =>
      head ← wrap_err text (encodeEntry entry);
      tail ← encodeEntries text rest;
      Ok (head ++ tail)
  end.

Definition encodeEntriesPayload (entries : list LogEntry) : result bytes :=
  if (max_u32 <? N.of_nat (length entries))%N then Err (Msg "too many entries")
  else
    body ← encodeEntries "encode entry" entries;
    Ok (be32 (N.of_nat (length entries)) ++ body).

Definition encodeEntriesRecord (entries : list LogEntry) : result bytes :=
  payload ← encodeEntriesPayload entries; encodeRecord recordEntries payload.

Definition encodeReplaceSuffixPayload (from : LogIndex) (entries : list LogEntry) : result bytes :=
  if (max_u32 <? N.of_nat (length entries))%N then Err (Msg "too many replacement entries")
  else
    body ← encodeEntries "encode replacement entry" entries;
    Ok (be64 from ++ be32 (N.of_nat (length entries)) ++ body).

Definition encodeReplaceSuffixRecord (from : LogIndex) (entries : list LogEntry) : result bytes :=
  payload ← encodeReplaceSuffixPayload from entries; encodeRecord recordReplaceSuffix payload.

Definition decodeEntry (reader : bytes) : result (LogEntry * bytes) :=
  '(index, reader) ← wrap_err "decode entry index" (read_uint 8 reader);
  '(term, reader) ← wrap_err "decode entry term" (read_uint 8 reader);
  '(dataLength, reader) ← wrap_err "decode entry data length" (read_uint 4 reader);
  if (N.of_nat (length reader) <? dataLength)%N then Err (Msg "invalid entry data length")
  else
    '(data, reader) ← wrap_err "decode entry data" (read_full (N.to_nat dataLength) reader);
    Ok (mkLogEntry index term data, reader).

(** The decoding loop over [entryCount] entries. *)
Fixpoint decodeEntries (text : string) (count : nat) (entries : list LogEntry) (reader : bytes)
    : result (list LogEntry * bytes) :=
  match count with
  | O => Ok (entries, reader)
  | S count' =>
      '(entry, reader) ← wrap_err text (decodeEntry reader);
      decodeEntries text count' (entries ++ [entry]) reader
  end.

Definition minimumEntrySize : N := 20.

Definition decodeEntriesPayload (payload : bytes) : result (list LogEntry) :=
  '(entryCount, reader) ← wrap_err "decode entry count" (read_uint 4 payload);
  if (N.of_nat (length reader) / minimumEntrySize <? entryCount)%N
  then Err (Msg "invalid entry count")
  else
    '(entries, reader) ← decodeEntries "decode entry" (N.to_nat entryCount) [] reader;
    if negb (length reader =? 0)%nat then Err (Msg "unexpected trailing entry data")
    else match validateEntries entries with
         | Some e => Err (Wrap "validate decoded entries" e)
         | None => Ok entries
         end.

Definition decodeReplaceSuffixPayload (payload : bytes) : result (LogIndex * list LogEntry) :=
  '(from, reader) ← wrap_err "decode replacement index" (read_uint 8 payload);
  '(entryCount, reader) ← wrap_err "decode replacement entry count" (read_uint 4 reader);
  if (N.of_nat (length reader) / minimumEntrySize <? entryCount)%N
  then Err (Msg "invalid replacement entry count")
  else
    '(entries, reader) ← decodeEntries "decode replacement entry" (N.to_nat entryCount) [] reader;
    if negb (length reader =? 0)%nat then Err (Msg "unexpected trailing replacement data")
    else Ok (from, entries).

(** The values the decoders admit: 64-bit terms and indexes, and voter lists
    within the limits of [decodeConfiguration]. *)
Definition wal_configuration_ok (c : Configuration) : Prop :=
  (N.of_nat (length (Voters c)) <= maxWALConfigurationVoters)%N /\
  Forall voter_ok (Voters c) /\ NoDup (Voters c).

Definition wal_membership_ok (m : Membership) : Prop :=
  wal_configuration_ok (mem_Current m) /\
  match mem_Joint m with
  | None => True
  | Some j => wal_configuration_ok (joint_Old j) /\ wal_configuration_ok (joint_New j)
  end.

Definition state_ok (p : PersistentState) : Prop :=
  is_u64 (ps_CurrentTerm p) /\ wal_membership_ok (ps_Membership p).

Definition entry_u64 (e : LogEntry) : Prop := is_u64 (le_Index e) /\ is_u64 (le_Term e).

#[global] Instance voter_ok_dec id : Decision (voter_ok id).
Proof. unfold voter_ok. apply _. Defined.
#[global] Instance wal_configuration_ok_dec c : Decision (wal_configuration_ok c).
Proof. unfold wal_configuration_ok. apply _. Defined.
#[global] Instance wal_membership_ok_dec m : Decision (wal_membership_ok m).
Proof. unfold wal_membership_ok. destruct (mem_Joint m); apply _. Defined.
#[global] Instance state_ok_dec p : Decision (state_ok p).
Proof. unfold state_ok. apply _. Defined.
#[global] Instance entry_u64_dec e : Decision (entry_u64 e).
Proof. unfold entry_u64. apply _. Defined.

(** ** Lemmas *)

Lemma u32_width (n : N) : (n <= max_u32)%N -> (n < 256 ^ N.of_nat 4)%N.
Proof. unfold max_u32. change (256 ^ N.of_nat 4)%N with 4294967296%N. lia. Qed.

(** The voter codec is the one of configuration entries, up to its error texts. *)
Lemma encodeVoterIDs_voters vs bs : encodeVoterIDs vs = Ok bs -> bs = encodeVoters vs.
Proof.
  revert bs; induction vs as [|v vs IH]; intros bs; cbn; [by intros [= <-]|].
  destruct (_ <? _)%N; [done|]. intros (tail & ->%IH & <-%(inj Ok))%bind_Ok. done.
Qed.

Lemma decodeVoterIDs_voters n seen acc r x :
  decodeVoters n seen acc r = Ok x -> decodeVoterIDs n seen acc r = Ok x.
Proof.
  revert seen acc r; induction n as [|n IH]; intros seen acc r; cbn; [done|].
  destruct (read_uint 4 r) as [[len r1]|]; cbn; [|done].
  change maxWALConfigurationNodeID with maxConfigurationNodeID.
  destruct (len =? 0)%N, (maxConfigurationNodeID <? len)%N, (N.of_nat (length r1) <? len)%N; try done.
  destruct (read_full _ r1) as [[data r2]|]; cbn; [|done].
  case_bool_decide; [done|]. apply IH.
Qed.

Lemma configuration_roundtrip c bs r :
  wal_configuration_ok c -> encodeConfiguration c = Ok bs ->
  decodeConfiguration (bs ++ r) = Ok (c, r).
Proof.
  intros (Hn & Hok & Hnd). unfold encodeConfiguration, decodeConfiguration.
  destruct (N.ltb_spec max_u32 (N.of_nat (length (Voters c)))) as [|Hu]; [done|].
  intros (ids & ->%encodeVoterIDs_voters & <-%(inj Ok))%bind_Ok.
  rewrite <- app_assoc, read_uint_app by by apply u32_width. cbn [wrap_err mbind result_bind].
  destruct (N.ltb_spec maxWALConfigurationVoters (N.of_nat (length (Voters c)))); [lia|].
  destruct c as [[|v vs]]; [done|]. cbn [Voters] in *.
  destruct (N.eqb_spec (N.of_nat (length (v :: vs))) 0); [cbn in *; lia|].
  rewrite Nat2N.id.
  erewrite decodeVoterIDs_voters by (apply decodeVoters_encode; [done..|set_solver]). done.
Qed.

Lemma membership_roundtrip m bs r :
  wal_membership_ok m -> encodeMembership m = Ok bs -> decodeMembership (bs ++ r) = Ok (m, r).
Proof.
  destruct m as [c j]. intros [Hc Hj]. unfold encodeMembership, decodeMembership.
  cbn [mem_Current mem_Joint] in *. intros (cb & Ec%wrap_err_Ok & H)%bind_Ok.
  destruct j as [[o n]|].
  - cbn [joint_Old joint_New] in *. destruct Hj as [Ho Hn].
    apply bind_Ok in H as (ob & Eo%wrap_err_Ok & H).
    apply bind_Ok in H as (nb & En%wrap_err_Ok & <-%(inj Ok)).
    rewrite <- !app_assoc, read_uint_app by done. cbn [wrap_err mbind result_bind].
    rewrite N.eqb_refl. cbn [negb app read_byte wrap_err mbind result_bind].
    rewrite bool_decide_false by naive_solver.
    rewrite (configuration_roundtrip c cb) by done. cbn.
    rewrite (configuration_roundtrip o ob) by done. cbn.
    by rewrite (configuration_roundtrip n nb).
  - apply (inj Ok) in H as <-.
    rewrite <- !app_assoc, read_uint_app by done. cbn [wrap_err mbind result_bind].
    rewrite N.eqb_refl. cbn [negb app read_byte wrap_err mbind result_bind].
    rewrite bool_decide_false by naive_solver.
    rewrite (configuration_roundtrip c cb) by done. done.
Qed.

Lemma encodeMembership_nonempty m bs : encodeMembership m = Ok bs -> length bs ≠ 0.
Proof.
  unfold encodeMembership. intros (cb & _ & H)%bind_Ok.
  assert (forall tl, length ((be32 stateMembershipMagic ++ [stateMembershipVersion] ++ cb) ++ tl) ≠ 0)
    as Hne by (intros tl; rewrite !length_app, be_encode_length; lia).
  destruct (mem_Joint m).
  - apply bind_Ok in H as (ob & _ & H). apply bind_Ok in H as (nb & _ & <-%(inj Ok)). apply Hne.
  - apply (inj Ok) in H as <-. apply Hne.
Qed.

Lemma state_roundtrip p bs :
  state_ok p -> encodeStatePayload p = Ok bs -> decodeStatePayload bs = Ok p.
Proof.
  destruct p as [t v m]. intros [Ht Hm]. unfold encodeStatePayload, decodeStatePayload. cbn [ps_CurrentTerm ps_VotedFor ps_Membership] in *.
  destruct (N.ltb_spec max_u32 (N.of_nat (length (string_bytes v)))) as [|Hu]; [done|].
  intros (mb & Em%wrap_err_Ok & <-%(inj Ok))%bind_Ok.
  rewrite read_uint_app by exact Ht. cbn [wrap_err mbind result_bind].
  rewrite read_uint_app by by apply u32_width. cbn [wrap_err mbind result_bind].
  rewrite length_app.
  destruct (N.ltb_spec (N.of_nat (length (string_bytes v) + length mb)) (N.of_nat (length (string_bytes v)))); [lia|].
  rewrite Nat2N.id, read_full_app by done. cbn [wrap_err mbind result_bind].
  rewrite String.string_of_list_byte_of_string.
  pose proof (encodeMembership_nonempty _ _ Em) as Hne%Nat.eqb_neq. rewrite Hne.
  rewrite <- (app_nil_r mb), (membership_roundtrip m) by done. done.
Qed.

Lemma entry_roundtrip e bs r :
  entry_u64 e -> encodeEntry e = Ok bs -> decodeEntry (bs ++ r) = Ok (e, r).
Proof.
  destruct e as [i t d]. intros [Hi Ht]. unfold encodeEntry, decodeEntry. cbn [le_Index le_Term le_Data] in *.
  destruct (N.ltb_spec max_u32 (N.of_nat (length d))) as [|Hu]; [done|]. intros <-%(inj Ok).
  rewrite <- !app_assoc, read_uint_app by exact Hi. cbn [wrap_err mbind result_bind].
  rewrite read_uint_app by exact Ht. cbn [wrap_err mbind result_bind].
  rewrite read_uint_app by by apply u32_width. cbn [wrap_err mbind result_bind].
  rewrite length_app. destruct (N.ltb_spec (N.of_nat (length d + length r)) (N.of_nat (length d))); [lia|].
  by rewrite Nat2N.id, read_full_app.
Qed.

Lemma encodeEntry_length e bs : encodeEntry e = Ok bs -> 20 <= length bs.
Proof.
  unfold encodeEntry. destruct (_ <? _)%N; [done|]. intros <-%(inj Ok).
  rewrite !length_app, !be_encode_length. lia.
Qed.

Lemma encodeEntries_length t es bs : encodeEntries t es = Ok bs -> 20 * length es <= length bs.
Proof.
  revert bs; induction es as [|e es IH]; intros bs; cbn; [by intros [= <-]|].
  intros (h & Hh%wrap_err_Ok%encodeEntry_length & H)%bind_Ok.
  apply bind_Ok in H as (tl & Htl%IH & <-%(inj Ok)). rewrite length_app. lia.
Qed.

Lemma entries_roundtrip t t' es bs acc r :
  Forall entry_u64 es -> encodeEntries t es = Ok bs ->
  decodeEntries t' (length es) acc (bs ++ r) = Ok (acc ++ es, r).
Proof.
  revert bs acc; induction es as [|e es IH]; intros bs acc Hu; cbn.
  { intros <-%(inj Ok). by rewrite app_nil_r. }
  apply Forall_cons in Hu as [He Hu].
  intros (h & Hh%wrap_err_Ok & H)%bind_Ok. apply bind_Ok in H as (tl & Htl & <-%(inj Ok)).
  rewrite <- app_assoc, (entry_roundtrip e) by done. cbn. rewrite (IH tl) by done. by rewrite <- app_assoc.
Qed.

(** The plausibility check on the entry count never rejects an encoded payload. *)
Lemma entry_count_plausible t es body :
  encodeEntries t es = Ok body ->
  (N.of_nat (length body) / minimumEntrySize <? N.of_nat (length es))%N = false.
Proof.
  intros H%encodeEntries_length. apply N.ltb_ge. apply N.div_le_lower_bound; unfold minimumEntrySize; lia.
Qed.

Lemma entries_payload_roundtrip es bs :
  Forall entry_u64 es -> validateEntries es = None ->
  encodeEntriesPayload es = Ok bs -> decodeEntriesPayload bs = Ok es.
Proof.
  intros Hu Hv. unfold encodeEntriesPayload, decodeEntriesPayload.
  destruct (N.ltb_spec max_u32 (N.of_nat (length es))) as [|Hn]; [done|].
  intros (body & Hb & <-%(inj Ok))%bind_Ok.
  rewrite read_uint_app by by apply u32_width. cbn [wrap_err mbind result_bind].
  rewrite (entry_count_plausible _ es) by done. rewrite Nat2N.id.
  rewrite <- (app_nil_r body), (entries_roundtrip _ _ es) by done.
  cbn [mbind result_bind app length Nat.eqb negb]. by rewrite Hv.
Qed.

Lemma replace_payload_roundtrip from es bs :
  is_u64 from -> Forall entry_u64 es ->
  encodeReplaceSuffixPayload from es = Ok bs -> decodeReplaceSuffixPayload bs = Ok (from, es).
Proof.
  intros Hf Hu. unfold encodeReplaceSuffixPayload, decodeReplaceSuffixPayload.
  destruct (N.ltb_spec max_u32 (N.of_nat (length es))) as [|Hn]; [done|].
  intros (body & Hb & <-%(inj Ok))%bind_Ok.
  rewrite read_uint_app by exact Hf. cbn [wrap_err mbind result_bind].
  rewrite read_uint_app by by apply u32_width. cbn [wrap_err mbind result_bind].
  rewrite (entry_count_plausible _ es) by done. rewrite Nat2N.id.
  by rewrite <- (app_nil_r body), (entries_roundtrip _ _ es) by done.
Qed.
