(* ===== verification/Wal.v ===== *)
(** The write-ahead log storage: [internal/storage/wal.go], [wal_snapshot.go],
    [wal_compact.go], [wal_copy.go] and the storage methods of [wal_state.go] and
    [wal_entries.go].

    A [WALStorage] is the in-memory copy of the state plus an open file.  The
    file is the bytes at the log's path and the offset of the handle; it is
    opened for appending, so a write extends the bytes and moves the offset to
    the end.  Every call on the file takes the next [outcome] of a script: it
    succeeds, writes less than asked, or fails, possibly after writing some
    bytes; an exhausted script stands for calls that succeed.  Calls whose error
    the source discards take no outcome.  Reading is assumed not to fail.

    Snapshots are stored as JSON, by the model of [encoding/json] in [JsonCodec].

    [WALStorage] satisfies the storage contract, so the theorems on the Raft node
    hold for it whatever calls fail. *)

From S2P Require Import Prelude Model Bytes Decimal Utf8 Json Base64 JsonCodec RaftLog Storage.
From S2P Require Import ConfigEntry WalRecord WalCodec.

(** ** The file *)

Inductive outcome :=
| Done
| Short (n : nat)
| Failed (n : nat) (e : error).

Definition ErrClosedStorage : error := Sentinel "error in closed storage".
Definition io_ErrShortWrite : error := Sentinel "short write".
Definition os_ErrInvalid : error := Sentinel "invalid argument".

(** A call that succeeds or fails. *)
Definition syscall (script : list outcome) : option error * list outcome :=
  match script with
  | [] => (None, [])
  | Failed _ e :: rest => (Some e, rest)
  | _ :: rest => (None, rest)
  end.

(** [writeFull]: write until nothing is left, an error, or no progress.  Each
    iteration is one [file.Write] and takes one outcome. *)
Fixpoint writeFull (script : list outcome) (content data : bytes)
    : bytes * list outcome * option error :=
  match data with
  | [] => (content, script, None)
  | _ :: _ =>
      match script with
      | [] => (content ++ data, [], None)
      | Done :: rest => (content ++ data, rest, None)
      | Short n :: rest =>
          if (n =? 0)%nat then (content, rest, Some io_ErrShortWrite)
          else writeFull rest (content ++ take n data) (drop n data)
      | Failed n e :: rest => (content ++ take n data, rest, Some e)
      end
  end.

(** [file.Truncate]. *)
Definition truncate (size : nat) (content : bytes) : bytes :=
  take size content ++ replicate (size - length content) x00.

(** ** Snapshot payloads *)

(** [model.Snapshot] has no field tags; its data is a copy made by [cloneBytes], nil when it is
    empty.  [json.Marshal] does not fail on it. *)
Definition set_LastIncludedIndex x sn := mkSnapshot x (snap_LastIncludedTerm sn) (snap_Data sn).
Definition set_LastIncludedTerm x sn := mkSnapshot (snap_LastIncludedIndex sn) x (snap_Data sn).
Definition set_Data x sn := mkSnapshot (snap_LastIncludedIndex sn) (snap_LastIncludedTerm sn) x.

Definition snap_fields : list (string * decoder Snapshot) :=
  [("LastIncludedIndex", field (dec_uint 64) snap_LastIncludedIndex set_LastIncludedIndex);
   ("LastIncludedTerm", field (dec_uint 64) snap_LastIncludedTerm set_LastIncludedTerm);
   ("Data", field dec_bytes snap_Data set_Data)].

Definition snap_json (sn : Snapshot) : json :=
  JObject (
    member "LastIncludedIndex" (enc_uint (snap_LastIncludedIndex sn)) ++
    member "LastIncludedTerm" (enc_uint (snap_LastIncludedTerm sn)) ++
    member "Data" (enc_bytes (snap_Data sn))).

Definition json_Marshal (sn : Snapshot) : result bytes := Ok (render (snap_json sn)).
Definition json_Unmarshal (payload : bytes) : result Snapshot :=
  json_Unmarshal_into (dec_struct snap_fields) payload zero_Snapshot.

Arguments json_Marshal : simpl never.
Arguments json_Unmarshal : simpl never.

Definition snapshot_u64 (sn : Snapshot) : Prop :=
  is_u64 (snap_LastIncludedIndex sn) /\ is_u64 (snap_LastIncludedTerm sn).

Lemma json_roundtrip sn data : snapshot_u64 sn -> json_Marshal sn = Ok data -> json_Unmarshal data = Ok sn.
Proof.
  destruct sn as [i t d]. intros [Hi Ht] <-%(inj Ok). cbn [snap_LastIncludedIndex snap_LastIncludedTerm] in *.
  unfold json_Unmarshal, json_Unmarshal_into. rewrite json_parse_render.
  - unfold snap_json, dec_struct. cbn [snap_LastIncludedIndex snap_LastIncludedTerm snap_Data].
    rewrite (dec_fields_member _ _ (dec_uint 64) snap_LastIncludedIndex set_LastIncludedIndex _ _ _ i);
      [|reflexivity|apply dec_enc_uint; [apply N.le_refl|exact Hi]].
    rewrite (dec_fields_member _ _ (dec_uint 64) snap_LastIncludedTerm set_LastIncludedTerm _ _ _ t);
      [|reflexivity|apply dec_enc_uint; [apply N.le_refl|exact Ht]].
    rewrite <- (app_nil_r (member "Data" _)).
    rewrite (dec_fields_member _ _ dec_bytes snap_Data set_Data _ _ _ d); [|reflexivity|by rewrite dec_enc_bytes]. reflexivity.
  - apply object_writable; [reflexivity|]. repeat (apply Forall_app; split); apply member_ok; try reflexivity;
      first [apply enc_bytes_writable|apply print_uint_text; assumption].
Qed.

(** [wal_synced] is not a field of the source: it counts the bytes at the start of
    the file that are known to be on stable storage, those written before the last
    successful [Sync].  Nothing is assumed about a file that was just opened. *)
Record WALStorage := mkWAL {
  wal_file : option nat;
  wal_disk : bytes;
  wal_synced : nat;
  wal_script : list outcome;
  wal_state : PersistentState;
  wal_entries : list LogEntry;
  wal_snapshot : option Snapshot;
}.

(** The in-memory copy. *)
Definition wal_view (w : WALStorage) : MemoryStorage :=
  mkMemoryStorage (wal_state w) (wal_entries w) (wal_snapshot w).

(** The file after an append or a truncation. *)
Definition with_file (file : option nat) (disk : bytes) (script : list outcome) (w : WALStorage)
    : WALStorage :=
  mkWAL file disk (wal_synced w `min` length disk) script
    (wal_state w) (wal_entries w) (wal_snapshot w).

(** The whole file is on stable storage. *)
Definition all_synced (w : WALStorage) : WALStorage :=
  mkWAL (wal_file w) (wal_disk w) (length (wal_disk w)) (wal_script w)
    (wal_state w) (wal_entries w) (wal_snapshot w).

Definition with_view (m : MemoryStorage) (w : WALStorage) : WALStorage :=
  mkWAL (wal_file w) (wal_disk w) (wal_synced w) (wal_script w)
    (ms_state m) (ms_entries m) (ms_snapshot m).

Section Wal.

Definition encodeSnapshotPayload (snapshot : Snapshot) : result bytes :=
  data ← wrap_err "encode snapshot" (json_Marshal snapshot);
  if (maxRecordPayloadSize <? N.of_nat (length data))%N
  then Err (Msg "snapshot payload too large")
  else Ok data.

Definition decodeSnapshotPayload (payload : bytes) : result Snapshot :=
  wrap_err "decode snapshot payload" (json_Unmarshal payload).

(** ** Recovery *)

Definition validateRecoveredAppend (existing additions : list LogEntry) : option error :=
  match additions with
  | [] => None
  | _ => validateAppend existing additions
  end.

Definition validateSnapshot (snapshot : Snapshot) : option error :=
  if (snap_LastIncludedIndex snapshot =? 0)%N
  then Some (Wrap "snapshot index must be greater than zero" ErrInvalidLog)
  else None.

Definition validateRecoveredSnapshot (current : option Snapshot) (snapshot : Snapshot)
    : option error :=
  match validateSnapshot snapshot with
  | Some e => Some e
  | None =>
      match current with
      | None => None
      | Some c =>
          if (snap_LastIncludedIndex snapshot <? snap_LastIncludedIndex c)%N
          then Some (Wrap "snapshot index moved backwards" ErrInvalidLog)
          else if (snap_LastIncludedIndex snapshot =? snap_LastIncludedIndex c)%N &&
                  negb (snap_LastIncludedTerm snapshot =? snap_LastIncludedTerm c)%N
          then Some (Wrap "snapshot term changed" ErrInvalidLog)
          else None
      end
  end.

Definition validateLog (entries : list LogEntry) : option error :=
  match entries with
  | [] => None
  | _ => validateEntries entries
  end.

Definition replaceSuffixCopy (existing : list LogEntry) (from : LogIndex)
    (replacement : list LogEntry) : list LogEntry :=
  cutFrom from existing ++ replacement.

(** The [switch] of [recover] on one decoded record. *)
Definition replayRecord (m : MemoryStorage) (recordType : byte) (payload : bytes)
    : result MemoryStorage :=
  if bool_decide (recordType = recordState) then
    state ← wrap_err "decode state" (decodeStatePayload payload);
    Ok (mkMemoryStorage state (ms_entries m) (ms_snapshot m))
  else if bool_decide (recordType = recordEntries) then
    entries ← wrap_err "decode entries" (decodeEntriesPayload payload);
    match validateRecoveredAppend (ms_entries m) entries with
    | Some e => Err (Wrap "validate recovered entries" e)
    | None => Ok (mkMemoryStorage (ms_state m) (ms_entries m ++ entries) (ms_snapshot m))
    end
  else if bool_decide (recordType = recordSnapshot) then
    snapshot ← wrap_err "decode snapshot" (decodeSnapshotPayload payload);
    match validateRecoveredSnapshot (ms_snapshot m) snapshot with
    | Some e => Err (Wrap "validate recovered snapshot" e)
    | None => Ok (mkMemoryStorage (ms_state m) (ms_entries m) (Some snapshot))
    end
  else if bool_decide (recordType = recordReplaceSuffix) then
    '(from, entries) ← wrap_err "decode suffix replacement" (decodeReplaceSuffixPayload payload);
    match validateReplaceSuffix (ms_snapshot m) from entries with
    | Some e => Err (Wrap "validate recovered suffix replacement" e)
    | None =>
        let replaced := replaceSuffixCopy (ms_entries m) from entries in
        match validateLog replaced with
        | Some e => Err (Wrap "validate recovered log after replacement" e)
        | None => Ok (mkMemoryStorage (ms_state m) replaced (ms_snapshot m))
        end
    end
  else Err (Msg "unknown WAL record type").

(** What [recover] leaves behind: the bytes of the file and the rest of the
    script, and the recovered state or an error. *)
Definition recovery : Type := bytes * list outcome * result MemoryStorage.

(** The exit of the loop at an incomplete record. *)
Definition truncateTail (script : list outcome) (disk : bytes) (validOffset : nat) (m : MemoryStorage)
    : recovery :=
  match syscall script with
  | (Some e, script) => (disk, script, Err (Wrap "truncate incomplete WAL tail" e))
  | (None, script) => (truncate validOffset disk, script, Ok m)
  end.

(** The loop of [recover]; [reader] is what the handle has not read yet.  Every
    record has at least nine bytes, so the number of bytes bounds the iterations. *)
Fixpoint recoverLoop (fuel : nat) (script : list outcome) (disk reader : bytes)
    (validOffset : nat) (m : MemoryStorage) : recovery :=
  match fuel with
  | O => (disk, script, Err (Msg "out of fuel"))
  | S fuel' =>
      match syscall script with
      | (Some e, script) => (disk, script, Err (Wrap "get WAL offset" e))
      | (None, script) =>
          let recordStart := length disk - length reader in
          match decodeRecord reader with
          | Err err =>
              if errors_Is err "EOF" then
                if (recordStart =? validOffset)%nat then (disk, script, Ok m)
                else truncateTail script disk validOffset m
              else if errors_Is err "unexpected EOF" then truncateTail script disk validOffset m
              else (disk, script, Err (Wrap "decode WAL record" err))
          | Ok (recordType, payload, reader') =>
              match syscall script with
              | (Some e, script) => (disk, script, Err (Wrap "get WAL record end offset" e))
              | (None, script) =>
                  let endOffset := length disk - length reader' in
                  match replayRecord m recordType payload with
                  | Err e => (disk, script, Err e)
                  | Ok m' => recoverLoop fuel' script disk reader' endOffset m'
                  end
              end
          end
      end
  end.

Definition recover (script : list outcome) (disk : bytes) (m : MemoryStorage) : recovery :=
  match syscall script with
  | (Some e, script) => (disk, script, Err (Wrap "seek WAL start" e))
  | (None, script) =>
      match recoverLoop (S (length disk)) script disk disk 0 m with
      | (disk, script, Err e) => (disk, script, Err e)
      | (disk, script, Ok m) =>
          match syscall script with
          | (Some e, script) => (disk, script, Err (Wrap "seek WAL end" e))
          | (None, script) => (disk, script, Ok m)
          end
      end
  end.

(** [OpenWAL] on a path whose file holds [disk] (empty when it does not exist
    yet); it also returns the bytes it leaves in the file. *)
Definition OpenWAL (script : list outcome) (disk : bytes) : bytes * result WALStorage :=
  match syscall script with
  | (Some e, _) => (disk, Err (Wrap "open WAL" e))
  | (None, script) =>
      match recover script disk NewMemoryStorage with
      | (disk, _, Err e) => (disk, Err (Wrap "recover WAL" e))
      | (disk, script, Ok m) =>
          (disk, Ok (mkWAL (Some (length disk)) disk 0 script
                  (ms_state m) (ms_entries m) (ms_snapshot m)))
      end
  end.

(** ** Writing *)

Definition diskFull (e : error) : error :=
  if errors_Is e "no space left on device" then Wrap2 "" ErrWALDiskFull e else e.

(** Closing the file after a failed rollback. *)
Definition closeAfter (disk : bytes) (script : list outcome) (text : string) (writeErr err : error)
    (w : WALStorage) : WALStorage * option error :=
  match syscall script with
  | (Some closeErr, script) =>
      (with_file None disk script w,
       Some (Wrap2 "WAL write failed" writeErr (Wrap2 text err (Wrap "close failed" closeErr))))
  | (None, script) =>
      (with_file None disk script w, Some (Wrap2 "WAL write failed" writeErr (Wrap text err)))
  end.

Definition appendRecord (w : WALStorage) (record : bytes) : WALStorage * option error :=
  match wal_file w with
  | None => (w, Some (Wrap "get WAL write offset" os_ErrInvalid))
  | Some startOffset =>
      match syscall (wal_script w) with
      | (Some e, script) =>
          (with_file (wal_file w) (wal_disk w) script w, Some (Wrap "get WAL write offset" e))
      | (None, script) =>
          match writeFull script (wal_disk w) record with
          | (disk, script, None) => (with_file (Some (length disk)) disk script w, None)
          | (disk, script, Some e) =>
              let writeErr := diskFull e in
              match syscall script with
              | (Some rollbackErr, script) =>
                  closeAfter disk script "rollback failed" writeErr rollbackErr w
              | (None, script) =>
                  let disk := truncate startOffset disk in
                  match syscall script with
                  | (Some seekErr, script) =>
                      closeAfter disk script "restore position failed" writeErr seekErr w
                  | (None, script) =>
                      (with_file (Some (length disk)) disk script w, Some writeErr)
                  end
              end
          end
      end
  end.

(** The common tail of the mutating calls: append the encoded record, then
    update the in-memory copy. *)
Definition commitRecord (writeText : string) (record : result bytes) (m : MemoryStorage)
    (w : WALStorage) : WALStorage * option error :=
  match record with
  | Err e => (w, Some e)
  | Ok record =>
      match appendRecord w record with
      | (w, Some e) => (w, Some (Wrap writeText e))
      | (w, None) => (with_view m w, None)
      end
  end.

Definition wal_SaveState (w : WALStorage) (state : PersistentState) : WALStorage * option error :=
  match wal_file w with
  | None => (w, Some ErrClosedStorage)
  | Some _ =>
      commitRecord "write state record"
        (wrap_err "encode state record" (encodeStateRecord state))
        (mkMemoryStorage state (wal_entries w) (wal_snapshot w)) w
  end.

Definition wal_LoadState (w : WALStorage) : result PersistentState :=
  match wal_file w with
  | None => Err ErrClosedStorage
  | Some _ => Ok (wal_state w)
  end.

Definition wal_AppendEntries (w : WALStorage) (es : list LogEntry) : WALStorage * option error :=
  match wal_file w with
  | None => (w, Some ErrClosedStorage)
  | Some _ =>
      match es with
      | [] => (w, None)
      | _ =>
          match validateEntries es with
          | Some e => (w, Some (Wrap "validate entries" e))
          | None =>
              match validateAppend (wal_entries w) es with
              | Some e => (w, Some e)
              | None =>
                  commitRecord "write entries record"
                    (wrap_err "encode entries record" (encodeEntriesRecord es))
                    (mkMemoryStorage (wal_state w) (wal_entries w ++ es) (wal_snapshot w)) w
              end
          end
      end
  end.

Definition wal_ReplaceSuffix (w : WALStorage) (from : LogIndex) (es : list LogEntry)
    : WALStorage * option error :=
  match wal_file w with
  | None => (w, Some ErrClosedStorage)
  | Some _ =>
      match validateReplaceSuffix (wal_snapshot w) from es with
      | Some e => (w, Some e)
      | None =>
          commitRecord "write suffix replacement record"
            (wrap_err "encode suffix replacement" (encodeReplaceSuffixRecord from es))
            (mkMemoryStorage (wal_state w) (replaceSuffixCopy (wal_entries w) from es) (wal_snapshot w)) w
      end
  end.

Definition wal_LoadEntries (w : WALStorage) : result (list LogEntry) :=
  match wal_file w with
  | None => Err ErrClosedStorage
  | Some _ => Ok (wal_entries w)
  end.

Definition encodeSnapshotRecord (payloadText recordText : string) (snapshot : Snapshot) : result bytes :=
  payload ← wrap_err payloadText (encodeSnapshotPayload snapshot);
  wrap_err recordText (encodeRecord recordSnapshot payload).

Definition wal_SaveSnapshot (w : WALStorage) (snapshot : Snapshot) : WALStorage * option error :=
  match wal_file w with
  | None => (w, Some ErrClosedStorage)
  | Some _ =>
      commitRecord "write snapshot record"
        (encodeSnapshotRecord "encode snapshot" "encode snapshot record" snapshot)
        (mkMemoryStorage (wal_state w) (wal_entries w) (Some snapshot)) w
  end.

Definition wal_LoadSnapshot (w : WALStorage) : result Snapshot :=
  match wal_file w with
  | None => Err ErrClosedStorage
  | Some _ =>
      match wal_snapshot w with
      | None => Ok zero_Snapshot
      | Some snapshot => Ok snapshot
      end
  end.

Definition wal_Sync (w : WALStorage) : WALStorage * option error :=
  match wal_file w with
  | None => (w, Some ErrClosedStorage)
  | Some _ =>
      match syscall (wal_script w) with
      | (Some e, script) =>
          (with_file (wal_file w) (wal_disk w) script w,
           Some (if errors_Is e "no space left on device" then Wrap2 "" ErrWALDiskFull e
                 else Wrap "sync WAL" e))
      | (None, script) => (all_synced (with_file (wal_file w) (wal_disk w) script w), None)
      end
  end.

Definition wal_Close (w : WALStorage) : WALStorage * option error :=
  match wal_file w with
  | None => (w, None)
  | Some _ =>
      match syscall (wal_script w) with
      | (Some e, script) => (with_file (wal_file w) (wal_disk w) script w, Some (Wrap "close WAL" e))
      | (None, script) => (with_file None (wal_disk w) script w, None)
      end
  end.

(** ** Compaction *)

(** The records of the compacted log. *)
Definition compactedRecords (w : WALStorage) (snapshot : Snapshot) (entries : list LogEntry)
    : result (bytes * bytes * bytes) :=
  stateRecord ← wrap_err "encode state for compaction" (encodeStateRecord (wal_state w));
  snapshotRecord ← encodeSnapshotRecord "encode snapshot for compaction"
                     "encode snapshot record for compaction" snapshot;
  entriesRecord ← wrap_err "encode entries for compaction" (encodeEntriesRecord entries);
  Ok (stateRecord, snapshotRecord, entriesRecord).

(** The temporary file: its bytes, and how many of them a [Sync] has put on stable storage. *)
Record tempFile := mkTemp { tf_content : bytes; tf_synced : nat }.

Definition syncTemp (temp : tempFile) : tempFile := mkTemp (tf_content temp) (length (tf_content temp)).

(** The writes to the temporary file, its sync and close, in order; the entries
    record is written only when there are entries. *)
Definition writeTemp (script : list outcome) (stateRecord snapshotRecord entriesRecord : bytes)
    (entries : list LogEntry) : list outcome * result tempFile :=
  match writeFull script [] stateRecord with
  | (_, script, Some e) => (script, Err (Wrap "write compacted state record" e))
  | (temp, script, None) =>
      match writeFull script temp snapshotRecord with
      | (_, script, Some e) => (script, Err (Wrap "write compacted snapshot record" e))
      | (temp, script, None) =>
          match (match entries with
                 | [] => (temp, script, None)
                 | _ => writeFull script temp entriesRecord
                 end) with
          | (_, script, Some e) => (script, Err (Wrap "write compacted entries record" e))
          | (content, script, None) =>
              let temp := mkTemp content 0 in
              match syscall script with
              | (Some e, script) => (script, Err (Wrap "sync compacted WAL" e))
              | (None, script) =>
                  let temp := syncTemp temp in
                  match syscall script with
                  | (Some e, script) => (script, Err (Wrap "close compacted WAL" e))
                  | (None, script) => (script, Ok temp)
                  end
              end
          end
      end
  end.

Definition syncDirectory (script : list outcome) : list outcome * option error :=
  match syscall script with
  | (Some e, script) => (script, Some (Wrap "open WAL directory" e))
  | (None, script) =>
      match syscall script with
      | (Some e, script) => (script, Some (Wrap "sync WAL directory" e))
      | (None, script) =>
          match syscall script with
          | (Some e, script) => (script, Some (Wrap "close WAL directory" e))
          | (None, script) => (script, None)
          end
      end
  end.

(** The temporary file is now the file of the log. *)
Definition with_temp (file : option nat) (temp : tempFile) (script : list outcome) (w : WALStorage)
    : WALStorage :=
  mkWAL file (tf_content temp) (tf_synced temp) script (wal_state w) (wal_entries w) (wal_snapshot w).

(** Replacing the log by the temporary file: close, rename, sync the directory,
    reopen.  A reopened handle starts at offset 0. *)
Definition installTemp (w : WALStorage) (script : list outcome) (temp : tempFile) (m : MemoryStorage)
    : WALStorage * option error :=
  match syscall script with
  | (Some closeErr, script) =>
      (with_file None (wal_disk w) script w, Some (Wrap "close current WAL before compaction" closeErr))
  | (None, script) =>
      match syscall script with
      | (Some e, script) =>
          match syscall script with
          | (Some reopenErr, script) =>
              (with_file None (wal_disk w) script w, Some (Wrap2 "rename compacted WAL" e reopenErr))
          | (None, script) =>
              (with_file (Some 0) (wal_disk w) script w, Some (Wrap "rename compacted WAL" e))
          end
      | (None, script) =>
          match syncDirectory script with
          | (script, Some e) =>
              (with_temp None temp script w,
               Some (Wrap "sync WAL directory after rename" e))
          | (script, None) =>
              match syscall script with
              | (Some e, script) =>
                  (with_temp None temp script w, Some (Wrap "reopen compacted WAL" e))
              | (None, script) =>
                  (with_view m (with_temp (Some 0) temp script w), None)
              end
          end
      end
  end.

Definition wal_Compact (w : WALStorage) (snapshot : Snapshot) : WALStorage * option error :=
  match wal_file w with
  | None => (w, Some ErrClosedStorage)
  | Some _ =>
      if (snap_LastIncludedIndex snapshot =? 0)%N
      then (w, Some (Msg "cannot compact at snapshot index 0"))
      else
        match wal_snapshot w with
        | None => (w, Some (Msg "cannot compact without persisted snapshot"))
        | Some stored =>
            if negb (snap_LastIncludedIndex stored =? snap_LastIncludedIndex snapshot)%N
            then (w, Some (Msg "snapshot index mismatch"))
            else if negb (snap_LastIncludedTerm stored =? snap_LastIncludedTerm snapshot)%N
            then (w, Some (Msg "snapshot term mismatch"))
            else
              let entries := entriesAfter (snap_LastIncludedIndex snapshot) (wal_entries w) in
              match compactedRecords w snapshot entries with
              | Err e => (w, Some e)
              | Ok (stateRecord, snapshotRecord, entriesRecord) =>
                  match syscall (wal_script w) with
                  | (Some e, script) =>
                      (with_file (wal_file w) (wal_disk w) script w,
                       Some (Wrap "create WAL compaction temporary file" e))
                  | (None, script) =>
                      match writeTemp script stateRecord snapshotRecord entriesRecord entries with
                      | (script, Err e) => (with_file (wal_file w) (wal_disk w) script w, Some e)
                      | (script, Ok temp) =>
                          installTemp w script temp
                            (mkMemoryStorage (wal_state w) entries (Some snapshot))
                      end
                  end
              end
        end
  end.

#[global] Instance WALStorage_Storage : Storage WALStorage := {|
  st_SaveState := wal_SaveState;
  st_LoadState := wal_LoadState;
  st_AppendEntries := wal_AppendEntries;
  st_ReplaceSuffix := wal_ReplaceSuffix;
  st_LoadEntries := wal_LoadEntries;
  st_SaveSnapshot := wal_SaveSnapshot;
  st_LoadSnapshot := wal_LoadSnapshot;
  st_Compact := wal_Compact;
  st_Sync := wal_Sync;
|}.

(** ** The storage contract *)

Lemma closeAfter_view disk script text e1 e2 w :
  wal_view (fst (closeAfter disk script text e1 e2 w)) = wal_view w /\
  snd (closeAfter disk script text e1 e2 w) ≠ None.
Proof. unfold closeAfter. by destruct (syscall script) as [[e|] sc]. Qed.

Lemma appendRecord_view w record : wal_view (fst (appendRecord w record)) = wal_view w.
Proof.
  unfold appendRecord. destruct (wal_file w) as [pos|]; [|done].
  destruct (syscall (wal_script w)) as [[e|] sc]; [done|].
  destruct (writeFull _ _ _) as [[disk sc1] [e|]]; [|done].
  destruct (syscall sc1) as [[e1|] sc2]; [apply closeAfter_view|].
  destruct (syscall sc2) as [[e2|] sc3]; [apply closeAfter_view|done].
Qed.

Lemma commitRecord_acts text record m w :
  acts_as wal_view (wal_view w) (commitRecord text record m w) (m, None).
Proof.
  unfold commitRecord. destruct record as [record|e]; [|done].
  pose proof (appendRecord_view w record) as Hv.
  destruct (appendRecord w record) as [w' [e|]]; [done|]. by destruct m.
Qed.

Lemma installTemp_acts w script temp m :
  acts_as wal_view (wal_view w) (installTemp w script temp m) (m, None).
Proof.
  unfold installTemp. destruct (syscall script) as [[e|] sc]; [done|].
  destruct (syscall sc) as [[e|] sc1].
  { by destruct (syscall sc1) as [[e1|] sc2]. }
  destruct (syncDirectory sc1) as [sc2 [e|]]; [done|].
  destruct (syscall sc2) as [[e|] sc3]; [done|]. by destruct m.
Qed.

Lemma wal_Compact_acts w sn :
  compacts_as wal_view (wal_view w) sn (wal_Compact w sn) (mem_Compact (wal_view w) sn).
Proof.
  unfold wal_Compact, mem_Compact. destruct (wal_file w); [|done]. cbn [ms_snapshot ms_state ms_entries wal_view].
  destruct (_ =? 0)%N; [done|]. destruct (wal_snapshot w) as [stored|]; [|done].
  destruct (negb _); [done|]. destruct (negb _); [done|].
  destruct (compactedRecords _ _ _) as [[[r1 r2] r3]|]; [|done].
  destruct (syscall _) as [[e|] sc]; [done|].
  destruct (writeTemp _ _ _ _ _) as [sc1 [temp|e]]; [|done].
  pose proof (installTemp_acts w sc1 temp
    (mkMemoryStorage (wal_state w) (entriesAfter (snap_LastIncludedIndex sn) (wal_entries w)) (Some sn))) as L.
  destruct (installTemp _ _ _ _) as [w' [e|]]; [done|]. cbn in L |- *.
  apply (f_equal fst) in L. cbn in L. split; [done|]. by right.
Qed.

#[global] Instance WALStorage_laws : StorageLaws WALStorage.
Proof.
  refine {| view := wal_view |}; cbn.
  - intros w p. unfold wal_SaveState, mem_SaveState. destruct (wal_file w); [|done].
    apply commitRecord_acts.
  - intros w es. unfold wal_AppendEntries, mem_AppendEntries. destruct (wal_file w); [|done].
    destruct es as [|e es]; [done|]. cbn [ms_entries wal_view].
    destruct (validateEntries _); [done|]. destruct (validateAppend _ _); [done|].
    apply commitRecord_acts.
  - intros w from es. unfold wal_ReplaceSuffix, mem_ReplaceSuffix. destruct (wal_file w); [|done].
    cbn [ms_snapshot ms_entries wal_view]. destruct (validateReplaceSuffix _ _ _); [done|].
    rewrite keepBefore_cutFrom. apply commitRecord_acts.
  - intros w sn. unfold wal_SaveSnapshot, mem_SaveSnapshot. destruct (wal_file w); [|done].
    apply commitRecord_acts.
  - apply wal_Compact_acts.
  - intros w. unfold wal_Sync, mem_Sync. destruct (wal_file w); [|done].
    by destruct (syscall _) as [[e|] sc].
  - intros w p. unfold wal_LoadState. destruct (wal_file w); [|done]. by intros [= <-].
  - intros w es. unfold wal_LoadEntries. destruct (wal_file w); [|done]. by intros [= <-].
  - intros w sn. unfold wal_LoadSnapshot, mem_LoadSnapshot. destruct (wal_file w); [|done].
    cbn. by destruct (wal_snapshot w).
Defined.

End Wal.
