(* ===== verification/WalFacts.v ===== *)
(** Crash recovery of the write-ahead log.

    [replays m bs m'] says that [bs] is a sequence of complete records that take
    the state [m] to [m'].  The invariant [wal_inv] of an open log is that its
    file replays to its in-memory copy and that its handle is at the end; after a
    compaction the handle is at the start instead ([opened]).  The theorems:
    after a crash that keeps any prefix of the file down to the last successful
    [Sync], [OpenWAL] recovers the state after the synced calls and some prefix of
    the later ones; compaction is atomic with respect to crashes; and two defects,
    a failed write after a compaction that erases the log, and snapshots that are
    accepted but make the log unreadable. *)

From S2P Require Import Prelude Model Bytes RaftLog Storage.
From S2P Require Import ConfigEntry WalRecord WalCodec Wal.

Inductive wal_op :=
| OpSaveState (state : PersistentState)
| OpAppendEntries (es : list LogEntry)
| OpReplaceSuffix (from : LogIndex) (es : list LogEntry)
| OpSaveSnapshot (snapshot : Snapshot)
| OpSync
| OpCompact (snapshot : Snapshot).

(** The state after compacting [m] to [sn]: the checks and the result of [Compact]. *)
Definition compacted (m : MemoryStorage) (sn : Snapshot) : MemoryStorage :=
  mkMemoryStorage (ms_state m) (entriesAfter (snap_LastIncludedIndex sn) (ms_entries m)) (Some sn).

Definition mem_compact_to (m : MemoryStorage) (sn : Snapshot) : MemoryStorage * option error :=
  if (snap_LastIncludedIndex sn =? 0)%N then (m, Some (Msg "cannot compact at snapshot index 0"))
  else match ms_snapshot m with
       | None => (m, Some (Msg "cannot compact without persisted snapshot"))
       | Some stored =>
           if negb (snap_LastIncludedIndex stored =? snap_LastIncludedIndex sn)%N
           then (m, Some (Msg "snapshot index mismatch"))
           else if negb (snap_LastIncludedTerm stored =? snap_LastIncludedTerm sn)%N
           then (m, Some (Msg "snapshot term mismatch"))
           else (compacted m sn, None)
       end.

(** The effect of a call on the abstract state when it succeeds. *)
Definition mem_exec (m : MemoryStorage) (op : wal_op) : MemoryStorage * option error :=
  match op with
  | OpSaveState p => mem_SaveState m p
  | OpAppendEntries es => mem_AppendEntries m es
  | OpReplaceSuffix from es => mem_ReplaceSuffix m from es
  | OpSaveSnapshot sn => mem_SaveSnapshot m sn
  | OpSync => mem_Sync m
  | OpCompact sn => mem_compact_to m sn
  end.

(** The values the recovery code accepts back: 64-bit fields, memberships within
    the limits of the codec, snapshots that do not move backwards and suffixes
    that leave no gap. *)
Definition admissible (m : MemoryStorage) (op : wal_op) : Prop :=
  match op with
  | OpSaveState p => state_ok p
  | OpAppendEntries es => Forall entry_u64 es
  | OpReplaceSuffix from es =>
      is_u64 from /\ Forall entry_u64 es /\
      validateLog (replaceSuffixCopy (ms_entries m) from es) = None
  | OpSaveSnapshot sn => snapshot_u64 sn /\ validateRecoveredSnapshot (ms_snapshot m) sn = None
  | OpSync => True
  | OpCompact sn => snapshot_u64 sn
  end.

(** A state that can be written and read back. *)
Definition view_ok (m : MemoryStorage) : Prop :=
  state_ok (ms_state m) /\ Forall entry_u64 (ms_entries m) /\ validateEntries (ms_entries m) = None.

#[local] Opaque json_Marshal json_Unmarshal.

Section WalFacts.

Definition wal_exec (w : WALStorage) (op : wal_op) : WALStorage * option error :=
  match op with
  | OpSaveState p => st_SaveState w p
  | OpAppendEntries es => st_AppendEntries w es
  | OpReplaceSuffix from es => st_ReplaceSuffix w from es
  | OpSaveSnapshot sn => st_SaveSnapshot w sn
  | OpSync => st_Sync w
  | OpCompact sn => st_Compact w sn
  end.

(** A sequence of calls, whose errors the caller may ignore. *)
Definition wal_run (w : WALStorage) (ops : list wal_op) : WALStorage :=
  fold_left (fun w op => fst (wal_exec w op)) ops w.

(** The call does not roll the file back: a failed write right after a compaction does, to the
    offset 0 of the reopened handle. *)
Definition keeps_log (w : WALStorage) (op : wal_op) : Prop :=
  match op with
  | OpCompact _ => True
  | _ => length (wal_disk w) <= length (wal_disk (fst (wal_exec w op)))
  end.

Fixpoint run_admissible (w : WALStorage) (ops : list wal_op) : Prop :=
  match ops with
  | [] => True
  | op :: rest =>
      admissible (wal_view w) op /\ keeps_log w op /\ run_admissible (fst (wal_exec w op)) rest
  end.

Inductive replays : MemoryStorage -> bytes -> MemoryStorage -> Prop :=
| replays_nil m : replays m [] m
| replays_cons m t p r m1 rest m2 :
    encodeRecord t p = Ok r -> replayRecord m t p = Ok m1 -> replays m1 rest m2 ->
    replays m (r ++ rest) m2.

(** The beginning of a record that was not completely written. *)
Definition cut_record (tail : bytes) : Prop :=
  exists t p r rest, encodeRecord t p = Ok r /\ r = tail ++ rest /\ rest ≠ [].

(** The file replays to the in-memory copy. *)
Definition disk_ok (w : WALStorage) : Prop :=
  replays NewMemoryStorage (wal_disk w) (wal_view w) /\ view_ok (wal_view w).

Definition wal_inv (w : WALStorage) : Prop :=
  wal_file w = Some (length (wal_disk w)) /\ disk_ok w.

(** The handle is at the end of the file, or at its start after a compaction. *)
Definition opened (w : WALStorage) : Prop :=
  wal_file w = Some (length (wal_disk w)) \/ wal_file w = Some 0.

Definition open_inv (w : WALStorage) : Prop := opened w /\ disk_ok w.

(** The storage [OpenWAL] returns for a file that holds [disk] and replays to [m]. *)
Definition reopened (disk : bytes) (m : MemoryStorage) : WALStorage :=
  mkWAL (Some (length disk)) disk 0 [] (ms_state m) (ms_entries m) (ms_snapshot m).

(** The state after compacting to [sn]. *)
Definition compacted_view (w : WALStorage) (sn : Snapshot) : MemoryStorage := compacted (wal_view w) sn.

(** ** Replaying *)

Lemma replays_app m a m1 b m2 : replays m a m1 -> replays m1 b m2 -> replays m (a ++ b) m2.
Proof. induction 1; intros Hb; cbn; [done|]. rewrite <- app_assoc. econstructor; eauto. Qed.

Lemma replays_one m t p r m1 : encodeRecord t p = Ok r -> replayRecord m t p = Ok m1 -> replays m r m1.
Proof. intros Hr Hm. rewrite <- (app_nil_r r). econstructor; [done..|constructor]. Qed.

Lemma replays_cut t p r k :
  encodeRecord t p = Ok r -> k < length r -> cut_record (take k r).
Proof.
  intros Hr Hk. exists t, p, r, (drop k r). rewrite take_drop. split_and!; [done..|].
  intros E%(f_equal length). rewrite length_drop in E. cbn in E. lia.
Qed.

(** The loop consumes complete records. *)
Lemma recoverLoop_replays m bs m' : replays m bs m' -> forall fuel disk pre tail,
  disk = pre ++ bs ++ tail -> length (bs ++ tail) < fuel ->
  exists fuel', length tail < fuel' /\
    recoverLoop fuel [] disk (bs ++ tail) (length pre) m =
    recoverLoop fuel' [] disk tail (length (pre ++ bs)) m'.
Proof.
  induction 1 as [m|m t p r m1 rest m2 Hr Hm Hrest IH]; intros fuel disk pre tail Hd Hf.
  { exists fuel. by rewrite app_nil_r. }
  pose proof (encodeRecord_length _ _ _ Hr) as Hl. rewrite <- app_assoc in *.
  destruct fuel as [|fuel]; [lia|]. cbn [recoverLoop syscall].
  rewrite (decodeRecord_encode t p r) by done. cbn [syscall]. rewrite Hm.
  destruct (IH fuel disk (pre ++ r) tail) as (fuel' & Hf' & E).
  { by rewrite Hd, <- !app_assoc. }
  { rewrite length_app in Hf. lia. }
  exists fuel'. split; [done|].
  replace (length disk - length (rest ++ tail)) with (length (pre ++ r)).
  - rewrite E. by rewrite <- app_assoc.
  - rewrite Hd, !length_app. lia.
Qed.

Lemma truncate_app (a b : bytes) : truncate (length a) (a ++ b) = a.
Proof.
  unfold truncate. rewrite take_app_length, length_app.
  replace (length a - (length a + length b)) with 0 by lia. by rewrite app_nil_r.
Qed.

Lemma recoverLoop_tail fuel pre tail m :
  cut_record tail -> length tail < fuel ->
  recoverLoop fuel [] (pre ++ tail) tail (length pre) m = (pre, [], Ok m).
Proof.
  intros (t & p & r & rest & Hr & E & Hne) Hf. destruct fuel as [|fuel]; [lia|].
  cbn [recoverLoop syscall]. destruct tail as [|b tail].
  - cbn [decodeRecord read_byte mbind result_bind errors_Is io_EOF].
    rewrite bool_decide_true by done. rewrite app_nil_r. cbn [length].
    rewrite Nat.sub_0_r, Nat.eqb_refl. done.
  - rewrite (decodeRecord_cut _ _ _ _ _ _ Hr E Hne). cbn. by rewrite truncate_app.
Qed.

(** Recovery of complete records followed by an incomplete one. *)
Lemma OpenWAL_replays bs tail m :
  replays NewMemoryStorage bs m -> cut_record tail ->
  OpenWAL [] (bs ++ tail) = (bs, Ok (reopened bs m)).
Proof.
  intros Hb Ht. unfold OpenWAL, recover. cbn [syscall].
  destruct (recoverLoop_replays _ _ _ Hb (S (length (bs ++ tail))) (bs ++ tail) [] tail)
    as (fuel & Hf & E); [done|lia|].
  change (length []) with 0 in E. rewrite E. cbn [app].
  by rewrite recoverLoop_tail.
Qed.

Lemma cut_record_nil : cut_record [].
Proof.
  exists recordState, [].
  eexists (headerAndPayload recordState [] ++ _), _. split_and!; [|reflexivity|].
  - by apply encodeRecord_Ok.
  - done.
Qed.

(** The fuel of [recover] is enough: more never changes the outcome. *)
Lemma recoverLoop_fuel f1 f2 sc disk reader v m :
  length reader < f1 -> length reader < f2 ->
  recoverLoop f1 sc disk reader v m = recoverLoop f2 sc disk reader v m.
Proof.
  revert f2 sc reader v m; induction f1 as [|f1 IH]; intros f2 sc reader v m H1 H2; [lia|].
  destruct f2 as [|f2]; [lia|]. cbn [recoverLoop].
  destruct (syscall sc) as [[e|] sc1]; [done|].
  destruct (decodeRecord reader) as [[[t p] r]|e] eqn:Hd; [|done].
  destruct (syscall sc1) as [[e|] sc2]; [done|].
  destruct (replayRecord m t p) as [m'|e]; [|done].
  apply decodeRecord_sound in Hd as (rec & Hr%encodeRecord_length & ->).
  rewrite length_app in *. apply IH; lia.
Qed.

(** ** Valid logs *)

Lemma validateLog_entries es : validateLog es = validateEntries es.
Proof. by destruct es. Qed.

Lemma validateEntriesFrom_weaken e b :
  validateEntries b = None -> (forall a, head b = Some a -> le_Index a = u64_add (le_Index e) 1) ->
  validateEntriesFrom (Some e) b = None.
Proof.
  unfold validateEntries. destruct b as [|a b]; [done|]. cbn. intros H Ha.
  destruct (le_Index a =? 0)%N; [done|]. by rewrite (Ha a eq_refl), N.eqb_refl.
Qed.

Lemma validateEntriesFrom_app prev a b :
  validateEntriesFrom prev a = None ->
  validateEntriesFrom (match last a with Some e => Some e | None => prev end) b = None ->
  validateEntriesFrom prev (a ++ b) = None.
Proof.
  revert prev; induction a as [|e a IH]; intros prev Ha Hb; [done|].
  assert (match last (e :: a) with Some x => Some x | None => prev end =
          match last a with Some x => Some x | None => Some e end) as E.
  { rewrite last_cons. by destruct (last a). }
  rewrite E in Hb. cbn [validateEntriesFrom app] in *. destruct (le_Index e =? 0)%N; [done|].
  destruct prev as [p|]; [destruct (negb _); [done|]|]; by apply IH.
Qed.

Lemma validateEntries_app a b :
  validateEntries a = None -> validateEntries b = None -> validateAppend a b = None ->
  validateEntries (a ++ b) = None.
Proof.
  intros Ha Hb Hab. apply validateEntriesFrom_app; [done|].
  unfold validateAppend in Hab. destruct (last a) as [e|]; [|done].
  apply validateEntriesFrom_weaken; [done|]. intros x Hx. destruct b as [|y b]; [done|].
  injection Hx as ->. destruct (N.eqb_spec (le_Index x) (u64_add (le_Index e) 1)); done.
Qed.

(** Indexes grow along a valid log, so the entries after a snapshot are a suffix of it. *)
Lemma entriesAfter_all i e es :
  is_u64 (le_Index e) -> (i <= le_Index e)%N -> Forall entry_u64 es ->
  validateEntriesFrom (Some e) es = None -> entriesAfter i es = es.
Proof.
  revert e; induction es as [|a es IH]; intros e He Hi Hu; [done|]. cbn.
  destruct (N.eqb_spec (le_Index a) 0) as [|Hz]; [done|].
  destruct (N.eqb_spec (le_Index a) (u64_add (le_Index e) 1)) as [Ha|]; [cbn [negb]|done].
  apply Forall_cons in Hu as [[Hua _] Hu].
  assert (i < le_Index a)%N as Hlt.
  { destruct (decide (le_Index e + 1 < u64_modulus)%N).
    - rewrite u64_add_small in Ha by done. lia.
    - unfold u64_add in Ha. replace (le_Index e + 1)%N with u64_modulus in Ha by lia.
      by rewrite N.Div0.mod_same in Ha. }
  intros Hv. rewrite (proj2 (N.ltb_lt _ _) Hlt). f_equal. apply (IH a); [done|lia|done..].
Qed.

Lemma entriesAfter_valid i es :
  Forall entry_u64 es -> validateEntries es = None -> validateEntries (entriesAfter i es) = None.
Proof.
  intros Hu Hv. assert (forall prev, validateEntriesFrom prev es = None ->
    validateEntries (entriesAfter i es) = None) as G; [|by apply (G None)].
  clear Hv. induction es as [|e es IH]; intros prev Hv; [done|].
  apply Forall_cons in Hu as [[Hue _] Hu].
  assert ((le_Index e =? 0)%N = false /\ validateEntriesFrom (Some e) es = None) as [Hz Hv'].
  { cbn in Hv. destruct (le_Index e =? 0)%N; [done|]. destruct prev as [p|]; [|done].
    by destruct (negb _). }
  cbn [entriesAfter]. destruct (N.ltb_spec i (le_Index e)) as [Hlt|]; [|by apply (IH Hu (Some e))].
  rewrite (entriesAfter_all i e) by (done || lia). unfold validateEntries. cbn. by rewrite Hz.
Qed.

Lemma entriesAfter_Forall (P : LogEntry -> Prop) i es : Forall P es -> Forall P (entriesAfter i es).
Proof. induction 1; cbn; [constructor|]. destruct (_ <? _)%N; [by constructor|done]. Qed.

Lemma cutFrom_Forall (P : LogEntry -> Prop) i es : Forall P es -> Forall P (cutFrom i es).
Proof. induction 1; cbn; [constructor|]. destruct (_ <=? _)%N; by constructor. Qed.

(** Admissible calls keep the state writable. *)
Lemma mem_exec_ok m op m' :
  view_ok m -> admissible m op -> mem_exec m op = (m', None) -> view_ok m'.
Proof.
  intros (Hs & Hu & Hv) Ha. destruct op as [p|es|from es|sn| |sn]; cbn in *.
  - intros [= <-]. by split_and!.
  - unfold mem_AppendEntries. destruct es as [|e es]; [intros [= <-]; by split_and!|].
    destruct (validateEntries (e :: es)) eqn:He; [done|].
    destruct (validateAppend _ _) eqn:Hae; [done|]. intros [= <-].
    split_and!; [done|by apply Forall_app|by apply validateEntries_app].
  - destruct Ha as (Hf & Hes & Hl). unfold mem_ReplaceSuffix. rewrite keepBefore_cutFrom.
    destruct (validateReplaceSuffix _ _ _); [done|]. intros [= <-].
    rewrite validateLog_entries in Hl. split_and!; [done| |done].
    apply Forall_app. split; [by apply cutFrom_Forall|done].
  - intros [= <-]. by split_and!.
  - intros [= <-]. by split_and!.
  - unfold mem_compact_to. destruct (_ =? 0)%N; [done|]. destruct (ms_snapshot m); [|done].
    destruct (negb _); [done|]. destruct (negb _); [done|]. intros [= <-].
    split_and!; [done|by apply entriesAfter_Forall|by apply entriesAfter_valid].
Qed.

(** ** One call *)

Lemma writeFull_spec sc c d c' sc' o :
  writeFull sc c d = (c', sc', o) ->
  exists added, c' = c ++ added /\ added `prefix_of` d /\ (o = None -> added = d).
Proof.
  revert c d; induction sc as [|[|n|n e] sc IH]; intros c d; cbn; destruct d as [|b d];
    try (intros [= <- <- <-]; exists []; rewrite app_nil_r; split_and!; [done|apply prefix_nil|done]).
  - intros [= <- <- <-]. by exists (b :: d).
  - intros [= <- <- <-]. by exists (b :: d).
  - destruct (Nat.eqb_spec n 0).
    { intros [= <- <- <-]. exists []. rewrite app_nil_r. split_and!; [done|apply prefix_nil|done]. }
    intros (added & -> & Hp & Hd)%IH. exists (take n (b :: d) ++ added). rewrite <- app_assoc.
    split_and!; [done| |intros Ho; rewrite (Hd Ho); apply take_drop].
    rewrite <- (take_drop n (b :: d)) at 2. by apply prefix_app.
  - intros [= <- <- <-]. exists (take n (b :: d)). split_and!; [done| |done].
    exists (drop n (b :: d)). by rewrite take_drop.
Qed.

Definition aligned (w : WALStorage) : Prop := wal_file w = Some (length (wal_disk w)).

(** A record is appended whole or in part, or the file is rolled back to the offset of the
    handle. *)
Lemma appendRecord_cases w r w' o :
  opened w -> appendRecord w r = (w', o) -> length (wal_disk w) <= length (wal_disk w') ->
  exists added, wal_disk w' = wal_disk w ++ added /\ added `prefix_of` r /\
    match o with
    | None => added = r /\ aligned w'
    | Some _ => wal_file w' = None \/ (added = [] /\ opened w')
    end.
Proof.
  intros Ho. assert (exists pos, wal_file w = Some pos /\ (pos = length (wal_disk w) \/ pos = 0)) as (pos & Hf & Hpos)
    by (destruct Ho; eauto).
  unfold appendRecord, closeAfter. rewrite Hf.
  assert (exists added, wal_disk w = wal_disk w ++ added /\ added `prefix_of` r /\ added = []) as H0.
  { exists []. rewrite app_nil_r. split_and!; [done|apply prefix_nil|done]. }
  destruct (syscall (wal_script w)) as [[e|] sc].
  { intros [= <- <-] _. destruct H0 as (a & ? & ? & ->). exists []. cbn. split_and!; [done..|right].
    split; [done|]. unfold opened. cbn. destruct Hpos as [->| ->]; auto. }
  destruct (writeFull sc (wal_disk w) r) as [[disk sc1] ow] eqn:Ew.
  apply writeFull_spec in Ew as (added & -> & Hp & Hd). destruct ow as [e|].
  - destruct (syscall sc1) as [[e1|] sc2].
    { destruct (syscall sc2) as [[e2|] sc3]; intros [= <- <-] _; exists added; cbn; auto. }
    assert (length (wal_disk w) <= length (truncate pos (wal_disk w ++ added)) ->
      truncate pos (wal_disk w ++ added) = wal_disk w) as Hroll.
    { destruct Hpos as [->| ->]; [by rewrite truncate_app|]. cbn. intros Hl.
      by destruct (wal_disk w); [|cbn in Hl; lia]. }
    destruct H0 as (a & H0 & Hp0 & ->).
    destruct (syscall sc2) as [[e2|] sc3].
    { destruct (syscall sc3) as [[e3|] sc4]; intros [= <- <-] Hl; exists []; cbn in *; rewrite Hroll by done; auto. }
    intros [= <- <-] Hl; exists []; cbn in *. rewrite Hroll by done. split_and!; [done..|right]. split; [done|].
    by left.
  - intros [= <- <-] _. exists added. cbn. rewrite Hd by done. split_and!; [done..|]. unfold aligned. cbn. done.
Qed.

(** A write at the end of the file never rolls it back. *)
Lemma aligned_keeps w r w' o :
  aligned w -> appendRecord w r = (w', o) -> length (wal_disk w) <= length (wal_disk w').
Proof.
  intros Ha. unfold appendRecord, closeAfter. rewrite Ha. destruct (syscall _) as [[e|] sc]; [by intros [= <- <-]|].
  destruct (writeFull sc (wal_disk w) r) as [[disk sc1] ow] eqn:Ew. apply writeFull_spec in Ew as (added & -> & _).
  destruct ow as [e|]; [|intros [= <- <-]; cbn; rewrite length_app; lia].
  destruct (syscall sc1) as [[e1|] sc2]; [destruct (syscall sc2) as [[e2|] sc3]; intros [= <- <-]; cbn; rewrite length_app; lia|].
  rewrite truncate_app. destruct (syscall sc2) as [[e2|] sc3]; [|by intros [= <- <-]].
  by destruct (syscall sc3) as [[e3|] sc4]; intros [= <- <-].
Qed.

(** How a call changes the file: not at all, by one record that replays to its
    effect, with the log closed by the beginning of such a record, or by a whole new file
    on stable storage that replays to its effect. *)
Inductive exec_case (w : WALStorage) (m : MemoryStorage) (w' : WALStorage) : Prop :=
| case_unchanged :
    wal_disk w' = wal_disk w -> wal_view w' = wal_view w -> wal_file w' = None \/ opened w' ->
    exec_case w m w'
| case_committed t p r :
    encodeRecord t p = Ok r -> replayRecord (wal_view w) t p = Ok m ->
    wal_disk w' = wal_disk w ++ r -> wal_view w' = m -> aligned w' -> exec_case w m w'
| case_torn t p r added :
    encodeRecord t p = Ok r -> replayRecord (wal_view w) t p = Ok m -> added `prefix_of` r ->
    wal_disk w' = wal_disk w ++ added -> wal_view w' = wal_view w -> wal_file w' = None ->
    exec_case w m w'
| case_compacted :
    replays NewMemoryStorage (wal_disk w') m -> wal_synced w' = length (wal_disk w') ->
    (wal_view w' = m /\ opened w' \/ wal_view w' = wal_view w /\ wal_file w' = None) -> exec_case w m w'.

Lemma commitRecord_case text record m w w' o :
  opened w -> length (wal_disk w) <= length (wal_disk w') ->
  (forall r, record = Ok r ->
    exists t p, encodeRecord t p = Ok r /\ replayRecord (wal_view w) t p = Ok m) ->
  commitRecord text record m w = (w', o) -> exec_case w m w'.
Proof.
  intros Ha Hl Hr. unfold commitRecord. destruct record as [r|e].
  2: { intros [= <- <-]. apply case_unchanged; auto. }
  destruct (Hr r eq_refl) as (t & p & Ht & Hm).
  pose proof (appendRecord_view w r) as Hv. destruct (appendRecord w r) as [w1 [e|]] eqn:E; intros [= <- <-];
    apply appendRecord_cases in E as (added & Hd & Hp & Hc); try done; cbn in Hv.
  - destruct Hc as [Hn|[-> Hal]].
    + by eapply case_torn.
    + rewrite app_nil_r in Hd. apply case_unchanged; auto.
  - destruct Hc as [-> Hal]. eapply case_committed; try done. by destruct m.
Qed.

Lemma replay_state p r :
  state_ok p -> encodeStateRecord p = Ok r -> exists t pl, encodeRecord t pl = Ok r /\
    forall m, replayRecord m t pl = Ok (mkMemoryStorage p (ms_entries m) (ms_snapshot m)).
Proof.
  intros Hp (pl & Hpl & Hr)%bind_Ok. exists recordState, pl. split; [done|]. intros m.
  unfold replayRecord. rewrite bool_decide_true by done. by rewrite (state_roundtrip p).
Qed.

Lemma replay_snapshot a b sn r :
  snapshot_u64 sn -> encodeSnapshotRecord a b sn = Ok r -> exists t pl, encodeRecord t pl = Ok r /\
    forall m, validateRecoveredSnapshot (ms_snapshot m) sn = None ->
      replayRecord m t pl = Ok (mkMemoryStorage (ms_state m) (ms_entries m) (Some sn)).
Proof.
  intros Hsn (pl & Hpl%wrap_err_Ok & Hr%wrap_err_Ok)%bind_Ok. exists recordSnapshot, pl.
  split; [done|]. intros m Hv. unfold replayRecord. cbn. unfold decodeSnapshotPayload.
  unfold encodeSnapshotPayload in Hpl. apply bind_Ok in Hpl as (d & Hd%wrap_err_Ok & E).
  destruct (_ <? _)%N; [done|]. apply (inj Ok) in E as ->.
  rewrite (json_roundtrip sn pl) by done. cbn. by rewrite Hv.
Qed.

Lemma replay_entries es r :
  Forall entry_u64 es -> validateEntries es = None -> encodeEntriesRecord es = Ok r ->
  exists t pl, encodeRecord t pl = Ok r /\
    forall m, validateRecoveredAppend (ms_entries m) es = None ->
      replayRecord m t pl = Ok (mkMemoryStorage (ms_state m) (ms_entries m ++ es) (ms_snapshot m)).
Proof.
  intros Hu Hv (pl & Hpl & Hr)%bind_Ok. exists recordEntries, pl. split; [done|].
  intros m Ha. unfold replayRecord. cbn. rewrite (entries_payload_roundtrip es) by done.
  cbn. by rewrite Ha.
Qed.

Lemma replay_replace from es r :
  is_u64 from -> Forall entry_u64 es -> encodeReplaceSuffixRecord from es = Ok r ->
  exists t pl, encodeRecord t pl = Ok r /\
    forall m, validateReplaceSuffix (ms_snapshot m) from es = None ->
      replayRecord m t pl =
        match validateLog (replaceSuffixCopy (ms_entries m) from es) with
        | Some e => Err (Wrap "validate recovered log after replacement" e)
        | None => Ok (mkMemoryStorage (ms_state m) (replaceSuffixCopy (ms_entries m) from es)
                        (ms_snapshot m))
        end.
Proof.
  intros Hf Hu (pl & Hpl & Hr)%bind_Ok. exists recordReplaceSuffix, pl. split; [done|].
  intros m Hv. unfold replayRecord. cbn. rewrite (replace_payload_roundtrip from es) by done.
  cbn. by rewrite Hv.
Qed.

(** *** Compaction *)

Lemma writeFull_Ok sc c d c' sc' : writeFull sc c d = (c', sc', None) -> c' = c ++ d.
Proof. intros (added & -> & _ & H)%writeFull_spec. by rewrite H. Qed.

Lemma writeTemp_Ok sc r1 r2 r3 es sc' temp :
  writeTemp sc r1 r2 r3 es = (sc', Ok temp) ->
  temp = syncTemp (mkTemp (r1 ++ r2 ++ match es with [] => [] | _ => r3 end) 0).
Proof.
  unfold writeTemp. destruct (writeFull sc [] r1) as [[t1 s1] [e|]] eqn:E1; [done|].
  destruct (writeFull s1 t1 r2) as [[t2 s2] [e|]] eqn:E2; [done|].
  apply writeFull_Ok in E1 as ->. apply writeFull_Ok in E2 as ->.
  destruct (match es with [] => _ | _ => _ end) as [[t3 s3] [e|]] eqn:E3; [done|].
  destruct (syscall s3) as [[e|] s4]; [done|]. destruct (syscall s4) as [[e|] s5]; [done|].
  intros [= <- <-]. cbn [app] in *. destruct es.
  - injection E3 as <- _. by rewrite app_nil_r.
  - apply writeFull_Ok in E3 as ->. by rewrite <- app_assoc.
Qed.

(** The file at the path after the installation of the temporary one, and how much of it is on
    stable storage: the temporary file from the rename on, the old one before. *)
Lemma installTemp_disk w sc temp m w' o :
  wal_synced w <= length (wal_disk w) -> installTemp w sc temp m = (w', o) ->
  (wal_disk w' = tf_content temp /\ wal_synced w' = tf_synced temp /\
   (o = None /\ wal_view w' = m /\ wal_file w' = Some 0 \/
    o ≠ None /\ wal_view w' = wal_view w /\ wal_file w' = None)) \/
  (wal_disk w' = wal_disk w /\ wal_synced w' = wal_synced w /\ wal_view w' = wal_view w /\ o ≠ None /\
   (wal_file w' = None \/ opened w')).
Proof.
  intros Hle. assert (wal_synced w `min` length (wal_disk w) = wal_synced w) as Hmin by lia.
  unfold installTemp, opened. destruct (syscall sc) as [[e|] s1]; [intros [= <- <-]; right; cbn; split_and!; auto|].
  destruct (syscall s1) as [[e|] s2].
  { destruct (syscall s2) as [[e1|] s3]; intros [= <- <-]; right; cbn; split_and!; auto. }
  destruct (syncDirectory s2) as [s3 [e|]]; [intros [= <- <-]; left; split_and!; auto|].
  destruct (syscall s3) as [[e|] s4]; intros [= <- <-]; left; (split_and!; [done..|]); [by right|left]. by destruct m.
Qed.

Lemma replays_compacted w sn r1 r2 r3 :
  view_ok (wal_view w) -> snapshot_u64 sn -> snap_LastIncludedIndex sn ≠ 0%N ->
  let es := entriesAfter (snap_LastIncludedIndex sn) (wal_entries w) in
  compactedRecords w sn es = Ok (r1, r2, r3) ->
  replays NewMemoryStorage (r1 ++ r2 ++ match es with [] => [] | _ => r3 end) (compacted_view w sn).
Proof.
  intros (Hs & Hu & Hv) Hsn Hz es. unfold compactedRecords.
  intros (x1 & E1%wrap_err_Ok & H)%bind_Ok. apply bind_Ok in H as (x2 & E2 & H).
  apply bind_Ok in H as (x3 & E3%wrap_err_Ok & [= -> -> ->]).
  apply replay_state in E1 as (t1 & p1 & Ht1 & Hm1); [|done].
  apply replay_snapshot in E2 as (t2 & p2 & Ht2 & Hm2); [|done].
  assert (Forall entry_u64 es) as Hes by by apply entriesAfter_Forall.
  apply replay_entries in E3 as (t3 & p3 & Ht3 & Hm3); [|done|by apply entriesAfter_valid].
  econstructor; [done|apply Hm1|]. econstructor; [done|apply Hm2|].
  { cbn. unfold validateRecoveredSnapshot, validateSnapshot. by rewrite (proj2 (N.eqb_neq _ _) Hz). }
  cbn. unfold compacted_view, compacted. cbn [wal_view ms_entries ms_state]. fold es. destruct es as [|a es']; [constructor|].
  eapply replays_one; [done|]. by rewrite Hm3.
Qed.

(** What [Compact] leaves at the path: the old file as it was, or the compacted one, wholly on
    stable storage. *)
Lemma wal_Compact_disk w sn w' o :
  disk_ok w -> opened w -> wal_synced w <= length (wal_disk w) -> snapshot_u64 sn -> wal_Compact w sn = (w', o) ->
  (wal_disk w' = wal_disk w /\ wal_synced w' = wal_synced w /\ wal_view w' = wal_view w /\ o ≠ None /\
   (wal_file w' = None \/ opened w')) \/
  (mem_compact_to (wal_view w) sn = (compacted_view w sn, None) /\
   replays NewMemoryStorage (wal_disk w') (compacted_view w sn) /\ wal_synced w' = length (wal_disk w') /\
   (o = None /\ wal_view w' = compacted_view w sn /\ wal_file w' = Some 0 \/
    o ≠ None /\ wal_view w' = wal_view w /\ wal_file w' = None)).
Proof.
  intros [Hr Hv] Ho Hle Hsn. assert (forall e : error, w = w' -> Some e = o ->
    wal_disk w' = wal_disk w /\ wal_synced w' = wal_synced w /\ wal_view w' = wal_view w /\ o ≠ None /\
    (wal_file w' = None \/ opened w')) as Hsame by (intros e <- <-; split_and!; auto).
  assert (forall script (e : error), with_file (wal_file w) (wal_disk w) script w = w' -> Some e = o ->
    wal_disk w' = wal_disk w /\ wal_synced w' = wal_synced w /\ wal_view w' = wal_view w /\ o ≠ None /\
    (wal_file w' = None \/ opened w')) as Hfile by (intros sc e <- <-; split_and!; cbn; auto; lia).
  unfold wal_Compact, mem_compact_to. cbn [ms_snapshot wal_view]. destruct (wal_file w); [|intros [= ? ?]; left; eauto].
  destruct (N.eqb_spec (snap_LastIncludedIndex sn) 0) as [|Hz]; [intros [= ? ?]; left; eauto|].
  destruct (wal_snapshot w); [|intros [= ? ?]; left; eauto].
  destruct (negb _); [intros [= ? ?]; left; eauto|]. destruct (negb _); [intros [= ? ?]; left; eauto|].
  destruct (compactedRecords _ _ _) as [[[r1 r2] r3]|] eqn:Ec; [|intros [= ? ?]; left; eauto].
  apply replays_compacted in Ec; [|done..].
  destruct (syscall _) as [[e|] sc]; [intros [= ? ?]; left; eauto|].
  destruct (writeTemp _ _ _ _ _) as [sc1 [temp|e]] eqn:Et; [|intros [= ? ?]; left; eauto].
  apply writeTemp_Ok in Et as ->.
  intros [(Hd & Hs & H)|?]%installTemp_disk; [right| by left|done]. rewrite Hd, Hs. by split_and!.
Qed.

(** *** All calls *)

(** A call that is not accepted, or a log that is closed, leaves everything as it is. *)
Lemma unchanged_case w m : opened w -> exec_case w m w.
Proof. intros Ha. apply case_unchanged; auto. Qed.

Lemma wal_exec_case w op w' o :
  open_inv w -> (forall sn, op = OpCompact sn -> wal_synced w <= length (wal_disk w)) -> admissible (wal_view w) op -> keeps_log w op ->
  wal_exec w op = (w', o) -> exec_case w (fst (mem_exec (wal_view w) op)) w'.
Proof.
  intros [Ho Hdisk] Hsy Ha Hk E. unfold keeps_log in Hk. rewrite E in Hk. cbn [fst] in Hk. revert E.
  assert (exists pos, wal_file w = Some pos) as [pos Hf] by (destruct Ho; eauto).
  destruct op as [p|es|from es|sn| |sn]; cbn in Ha, Hk |- *.
  - unfold wal_SaveState. rewrite Hf. intros E. eapply commitRecord_case; [done|done| |exact E].
    intros r Hr%wrap_err_Ok. destruct (replay_state p r) as (t & pl & Ht & Hm); [done..|].
    exists t, pl. split; [done|]. by rewrite Hm.
  - unfold wal_AppendEntries, mem_AppendEntries. rewrite Hf. cbn [ms_entries wal_view].
    destruct es as [|a es]; [intros [= <- <-]; by apply unchanged_case|].
    destruct (validateEntries (a :: es)) eqn:Hv; [intros [= <- <-]; by apply unchanged_case|].
    destruct (validateAppend _ _) eqn:Hap; [intros [= <- <-]; by apply unchanged_case|].
    intros E. eapply commitRecord_case; [done|done| |exact E].
    intros r Hr%wrap_err_Ok. destruct (replay_entries (a :: es) r) as (t & pl & Ht & Hm); [done..|].
    exists t, pl. split; [done|]. by rewrite Hm.
  - destruct Ha as (Hfr & Hu & Hl). unfold wal_ReplaceSuffix, mem_ReplaceSuffix. rewrite Hf.
    cbn [ms_snapshot ms_entries wal_view] in *. rewrite keepBefore_cutFrom.
    destruct (validateReplaceSuffix _ _ _) eqn:Hv; [intros [= <- <-]; by apply unchanged_case|].
    intros E. eapply commitRecord_case; [done|done| |exact E].
    intros r Hr%wrap_err_Ok. destruct (replay_replace from es r) as (t & pl & Ht & Hm); [done..|].
    exists t, pl. split; [done|]. rewrite Hm by done.
    unfold replaceSuffixCopy. cbn [ms_entries wal_view]. by rewrite Hl.
  - destruct Ha as [Hu Hv]. unfold wal_SaveSnapshot. rewrite Hf. intros E.
    eapply commitRecord_case; [done|done| |exact E].
    intros r Hr. apply replay_snapshot in Hr as (t & pl & Ht & Hm); [|done].
    exists t, pl. split; [done|]. by rewrite Hm.
  - unfold wal_Sync. rewrite Hf. destruct (syscall _) as [[e|] sc]; intros [= <- <-];
      (apply case_unchanged; [done..|right; unfold opened in *; cbn; congruence]).
  - intros [(Hd & _ & Hv & _ & Hfile)|(-> & Hr & Hs & Hcase)]%wal_Compact_disk; [| |done|done|by eapply Hsy|done].
    + by apply case_unchanged.
    + apply case_compacted; [done|done|]. cbn [fst]. unfold opened.
      destruct Hcase as [(_ & ? & ?)|(_ & ? & ?)]; [left|right]; auto.
Qed.

(** A log whose handle is at the end of the file is never rolled back. *)
Lemma keeps_aligned w op : aligned w -> keeps_log w op.
Proof.
  intros Ha. assert (forall text record m, length (wal_disk w) <= length (wal_disk (fst (commitRecord text record m w)))) as Hc.
  { intros text record m. unfold commitRecord. destruct record as [r|]; [|done].
    destruct (appendRecord w r) as [w1 [e|]] eqn:E; cbn; by apply aligned_keeps in E. }
  destruct op; cbn; [| | | | |done]; unfold wal_SaveState, wal_AppendEntries, wal_ReplaceSuffix, wal_SaveSnapshot, wal_Sync;
    by repeat case_match.
Qed.

Lemma wal_exec_closed w op : wal_file w = None -> fst (wal_exec w op) = w.
Proof.
  intros Hn. destruct op; cbn; unfold wal_SaveState, wal_AppendEntries, wal_ReplaceSuffix,
    wal_SaveSnapshot, wal_Sync, wal_Compact; by rewrite Hn.
Qed.

Lemma wal_run_closed w ops : wal_file w = None -> wal_run w ops = w.
Proof.
  intros Hn. unfold wal_run. induction ops as [|op ops IH]; cbn; [done|]. by rewrite wal_exec_closed.
Qed.

(** The contract, for all calls at once. *)
Lemma wal_exec_acts w op :
  acts_as wal_view (wal_view w) (wal_exec w op) (mem_exec (wal_view w) op).
Proof.
  destruct op as [p|es|from es|sn| |sn];
    [exact (SaveState_law w p)|exact (AppendEntries_law w es)|exact (ReplaceSuffix_law w from es)
    |exact (SaveSnapshot_law w sn)|exact (Sync_law w)|].
  cbn. unfold wal_Compact, mem_compact_to. destruct (wal_file w); [|done]. cbn [ms_snapshot wal_view].
  destruct (_ =? 0)%N; [done|]. destruct (wal_snapshot w) as [stored|]; [|done].
  destruct (negb _); [done|]. destruct (negb _); [done|].
  destruct (compactedRecords _ _ _) as [[[r1 r2] r3]|]; [|done].
  destruct (syscall _) as [[e|] sc]; [done|]. destruct (writeTemp _ _ _ _ _) as [sc1 [temp|e]]; [|done].
  apply installTemp_acts.
Qed.

Lemma wal_exec_view_ok w op :
  view_ok (wal_view w) -> admissible (wal_view w) op -> view_ok (wal_view (fst (wal_exec w op))).
Proof.
  intros Hv Ha. pose proof (wal_exec_acts w op) as L.
  destruct (wal_exec w op) as [w' [e|]]; cbn in *; [by rewrite L|by eapply mem_exec_ok].
Qed.

Lemma mem_exec_fst_ok m op : view_ok m -> admissible m op -> view_ok (fst (mem_exec m op)).
Proof.
  intros Hv Ha. destruct (mem_exec m op) as [m' [e|]] eqn:E; [|by eapply mem_exec_ok].
  assert (keeps_on_failure m (mem_exec m op)) as K.
  { destruct op; cbn; auto with raftiq. unfold keeps_on_failure, mem_compact_to. by repeat case_match. }
  rewrite E in K. cbn in *. by rewrite K.
Qed.

(** ** Sequences of calls *)

(** The state after the calls [completed] from [w], and then [pending] if there
    is one: a call that reported an error but whose record may be complete. *)
Definition pending_list (pending : option wal_op) : list wal_op :=
  match pending with None => [] | Some op => [op] end.

Definition state_after (w : WALStorage) (completed : list wal_op) (pending : option wal_op)
    : MemoryStorage :=
  let m := wal_view (wal_run w completed) in
  match pending with
  | None => m
  | Some op => fst (mem_exec m op)
  end.

Lemma wal_run_snoc w ops op : wal_run w (ops ++ [op]) = fst (wal_exec (wal_run w ops) op).
Proof. unfold wal_run. by rewrite fold_left_app. Qed.

Lemma run_admissible_snoc w ops op :
  run_admissible w (ops ++ [op]) <->
  run_admissible w ops /\ admissible (wal_view (wal_run w ops)) op /\ keeps_log (wal_run w ops) op.
Proof.
  revert w. induction ops as [|x ops IH]; intros w; cbn [run_admissible app]; [naive_solver|].
  rewrite IH. change (wal_run w (x :: ops)) with (wal_run (fst (wal_exec w x)) ops). naive_solver.
Qed.

(** A closed log stays as it is; an open one keeps its invariant. *)
Lemma wal_exec_inv w op :
  open_inv w -> wal_synced w <= length (wal_disk w) -> admissible (wal_view w) op -> keeps_log w op ->
  wal_file (fst (wal_exec w op)) = None \/ open_inv (fst (wal_exec w op)).
Proof.
  intros Hi Hsy Ha Hk. destruct (wal_exec w op) as [w' o] eqn:E. cbn.
  pose proof (wal_exec_view_ok w op (proj2 (proj2 Hi)) Ha) as Hok. rewrite E in Hok. cbn in Hok.
  pose proof (wal_exec_case w op w' o Hi (fun _ _ => Hsy) Ha Hk E) as C. destruct Hi as (_ & Hr & Hv).
  destruct C as [Hd Hview [Hn|Hop]|t p r Ht Hp Hd Hview Hal|t p r ad Ht Hp Hpre Hd Hview Hn|Hrep Hs [[Hview Hop]|[_ Hn]]];
    auto; right.
  - split; [done|]. split; [by rewrite Hd, Hview|done].
  - split; [by left|]. split; [|done]. rewrite Hd, Hview. eapply replays_app; [done|]. by eapply replays_one.
  - split; [done|]. split; [by rewrite Hview|done].
Qed.

(** *** What is on stable storage *)

Lemma with_view_synced m w : wal_synced (with_view m w) = wal_synced w.
Proof. done. Qed.

Lemma appendRecord_synced w r w' o :
  appendRecord w r = (w', o) ->
  wal_synced w' = wal_synced w /\ wal_disk w' = wal_disk w \/
  wal_synced w' = wal_synced w `min` length (wal_disk w').
Proof. unfold appendRecord, closeAfter. repeat case_match; intros [= <- <-]; cbn; auto. Qed.

Lemma commitRecord_synced text record m w w' o :
  commitRecord text record m w = (w', o) ->
  wal_synced w' = wal_synced w /\ wal_disk w' = wal_disk w \/
  wal_synced w' = wal_synced w `min` length (wal_disk w').
Proof.
  unfold commitRecord. destruct record as [r|]; [|intros [= <- <-]; by left].
  destruct (appendRecord w r) as [w1 [e|]] eqn:E; intros [= <- <-]; apply appendRecord_synced in E; exact E.
Qed.

(** Bytes on stable storage stay there, unless a compaction has replaced the file by one that
    is wholly on stable storage. *)
Lemma wal_exec_synced w op w' o :
  open_inv w -> wal_synced w <= length (wal_disk w) -> admissible (wal_view w) op -> keeps_log w op ->
  wal_exec w op = (w', o) ->
  wal_synced w' = wal_synced w /\ length (wal_disk w) <= length (wal_disk w') \/
  wal_synced w' = length (wal_disk w').
Proof.
  intros [Ho Hdisk] Hsy Ha Hk E. unfold keeps_log in Hk. rewrite E in Hk. cbn [fst] in Hk. revert E.
  assert (length (wal_disk w) <= length (wal_disk w') -> forall text record m, commitRecord text record m w = (w', o) ->
    wal_synced w' = wal_synced w /\ length (wal_disk w) <= length (wal_disk w') \/
    wal_synced w' = length (wal_disk w')) as Hc.
  { intros Hl text record m [[-> ->]| ->]%commitRecord_synced; [by left|left; lia]. }
  destruct op as [p|es|from es|sn| |sn]; cbn in Hk |- *; try (specialize (Hc Hk)).
  1-5: unfold wal_SaveState, wal_AppendEntries, wal_ReplaceSuffix, wal_SaveSnapshot, wal_Sync;
    repeat case_match; try (intros [= <- <-]; cbn; left; lia); eauto.
  - intros [= <- <-]. right. done.
  - intros [(Hd & Hs & _)|(_ & _ & Hs & _)]%wal_Compact_disk; [left; rewrite Hd, Hs; lia|by right|done..].
Qed.

(** After a successful sync everything is on stable storage. *)
Lemma sync_all w w' : wal_exec w OpSync = (w', None) -> wal_synced w' = length (wal_disk w').
Proof.
  cbn. unfold wal_Sync. destruct (wal_file w); [|done].
  destruct (syscall _) as [[e|] sc]; [done|]. by intros [= <-].
Qed.

(** *** What a crash can leave *)

(** What is left of the file after calls [ops] on [w] and a crash: complete records that replay to
    the state after some of the calls, and the beginning of another record. *)
Definition crash_image (w : WALStorage) (ops : list wal_op) (image : bytes) : Prop :=
  exists pre tail completed pending, image = pre ++ tail /\ cut_record tail /\
    replays NewMemoryStorage pre (state_after w completed pending) /\
    view_ok (state_after w completed pending) /\ completed ++ pending_list pending `prefix_of` ops.

Lemma crash_image_mono w ops ops' image :
  ops `prefix_of` ops' -> crash_image w ops image -> crash_image w ops' image.
Proof.
  intros Hp (pre & tail & c & p & ? & ? & ? & ? & ?). exists pre, tail, c, p. split_and!; try done. by etrans.
Qed.

Record logged (w0 : WALStorage) (ops : list wal_op) (w : WALStorage) : Prop := mkLogged {
  lg_open : wal_file w = None \/ open_inv w;
  lg_view : view_ok (wal_view w);
  lg_synced : wal_synced w <= length (wal_disk w);
  lg_image k : wal_synced w <= k <= length (wal_disk w) -> crash_image w0 ops (take k (wal_disk w));
}.

Lemma take_app_beyond (k : nat) (a b : bytes) : length a <= k -> take k (a ++ b) = a ++ take (k - length a) b.
Proof. intros Hk. rewrite take_app. by rewrite take_ge by lia. Qed.

(** A crash that keeps a prefix of the record [r] of the call [op]; [p] says whether the call
    has reported an error. *)
Lemma crash_in_record w0 ops w op t pl r j c p :
  w = wal_run w0 ops -> open_inv w -> encodeRecord t pl = Ok r ->
  replayRecord (wal_view w) t pl = Ok (state_after w0 c p) -> view_ok (state_after w0 c p) ->
  c ++ pending_list p = ops ++ [op] ->
  crash_image w0 (ops ++ [op]) (wal_disk w ++ take j r).
Proof.
  intros Hw (_ & Hr & Hv) Ht Hp Hok Hc. destruct (decide (j < length r)).
  - exists (wal_disk w), (take j r), ops, None. cbn [state_after pending_list]. rewrite <- Hw, app_nil_r.
    split_and!; [done|by eapply replays_cut|done|done|by apply prefix_app_r].
  - rewrite take_ge by lia. exists (wal_disk w ++ r), [], c, p. rewrite app_nil_r.
    split_and!; [done|apply cut_record_nil| |done|by rewrite Hc].
    eapply replays_app; [done|]. by eapply replays_one.
Qed.

Lemma image_step w0 ops w op :
  w = wal_run w0 ops -> logged w0 ops w -> admissible (wal_view w) op -> keeps_log w op ->
  logged w0 (ops ++ [op]) (fst (wal_exec w op)).
Proof.
  intros Hw [Hopen Hview Hsy Himg] Ha Hk. destruct Hopen as [Hn|Hi].
  { rewrite wal_exec_closed by done. split; try done; [by left|]. intros k Hk'.
    eapply crash_image_mono; [|by apply Himg]. by apply prefix_app_r. }
  pose proof (wal_run_snoc w0 ops op) as Hrun. rewrite <- Hw in Hrun.
  pose proof (wal_exec_inv w op Hi Hsy Ha Hk) as Hinv. pose proof (wal_exec_view_ok w op Hview Ha) as Hv'.
  destruct (wal_exec w op) as [w' o] eqn:E. cbn [fst] in *.
  pose proof (wal_exec_synced w op w' o Hi Hsy Ha Hk E) as Hs.
  split; [done|done|destruct Hs as [[-> ?]| ->]; lia|]. intros k Hk'.
  assert (state_after w0 (ops ++ [op]) None = wal_view w') as Hdone by (cbn; by rewrite Hrun).
  assert (state_after w0 ops (Some op) = fst (mem_exec (wal_view w) op)) as Hpend by (cbn; by rewrite <- Hw).
  pose proof (mem_exec_fst_ok (wal_view w) op Hview Ha) as Hmok.
  assert (forall image, crash_image w0 ops image -> crash_image w0 (ops ++ [op]) image) as Hmono
    by (intros image; apply crash_image_mono; by apply prefix_app_r).
  destruct (wal_exec_case w op w' o Hi (fun _ _ => Hsy) Ha Hk E)
    as [Hd _ _|t p r Ht Hp Hd Hvw _|t p r ad Ht Hp [rest ->] Hd _ _|Hrep Hall Hcase].
  - rewrite Hd in *. apply Hmono, Himg. lia.
  - rewrite Hd in *. rewrite length_app in *. destruct (decide (k <= length (wal_disk w))).
    { rewrite take_app_le by done. apply Hmono, Himg. lia. }
    rewrite take_app_beyond by lia. eapply crash_in_record with (c := ops ++ [op]) (p := None); try done.
    + by rewrite Hdone, Hvw.
    + by rewrite Hdone.
    + by rewrite app_nil_r.
  - rewrite Hd in *. rewrite length_app in *. destruct (decide (k <= length (wal_disk w))).
    { rewrite take_app_le by done. apply Hmono, Himg. lia. }
    rewrite take_app_beyond by lia. rewrite <- (take_app_le ad rest) by lia.
    eapply crash_in_record with (c := ops) (p := Some op); try done; by rewrite Hpend.
  - rewrite take_ge by lia. destruct Hcase as [[Hvw _]|[_ _]].
    + exists (wal_disk w'), [], (ops ++ [op]), None. rewrite Hdone, !app_nil_r, <- Hvw in *.
      split_and!; [done|apply cut_record_nil|done..].
    + exists (wal_disk w'), [], ops, (Some op). rewrite Hpend, app_nil_r.
      split_and!; [done|apply cut_record_nil|done..].
Qed.

Lemma crash_images w ops :
  open_inv w -> wal_synced w = length (wal_disk w) -> run_admissible w ops -> logged w ops (wal_run w ops).
Proof.
  intros Hi Hs. induction ops as [|op ops IH] using rev_ind.
  - intros _. split; [by right|apply Hi|cbn; lia|]. cbn. intros k Hk. rewrite take_ge by lia.
    exists (wal_disk w), [], [], None. rewrite app_nil_r.
    split_and!; [done|apply cut_record_nil|apply Hi|apply Hi|apply prefix_nil].
  - intros (Ha & Hop & Hk)%run_admissible_snoc. rewrite wal_run_snoc. apply image_step; auto.
Qed.

(** The log that a crash leaves, reopened. *)
Lemma crash_reopens w ops image :
  crash_image w ops image ->
  exists w' c p, OpenWAL [] image = (wal_disk w', Ok w') /\ c ++ pending_list p `prefix_of` ops /\
    wal_view w' = state_after w c p /\ wal_inv w'.
Proof.
  intros (pre & tail & c & p & -> & Ht & Hr & Hv & Hpre).
  exists (reopened pre (state_after w c p)), c, p. rewrite (OpenWAL_replays _ _ _ Hr Ht).
  assert (wal_view (reopened pre (state_after w c p)) = state_after w c p) as E
    by (unfold wal_view; cbn; by destruct (state_after w c p)).
  split_and!; try done. split; [done|]. split; by rewrite E.
Qed.

(** Calls keep the invariant of a log, from an open one on. *)
Lemma wal_run_inv w ops :
  open_inv w -> wal_synced w <= length (wal_disk w) -> run_admissible w ops ->
  (wal_file (wal_run w ops) = None \/ open_inv (wal_run w ops)) /\
  wal_synced (wal_run w ops) <= length (wal_disk (wal_run w ops)).
Proof.
  intros Hi Hsy. induction ops as [|op ops IH] using rev_ind; [by auto|].
  intros (Ha & Hop & Hk)%run_admissible_snoc. rewrite wal_run_snoc. destruct (IH Ha) as [[Hn|Ho] Hs].
  - rewrite wal_exec_closed by done. auto.
  - split; [by apply wal_exec_inv|]. destruct (wal_exec (wal_run w ops) op) as [w' o] eqn:E. cbn.
    destruct (wal_exec_synced _ _ _ _ Ho Hs Hop Hk E) as [[-> ?]| ->]; lia.
Qed.

(** ** Properties *)

(** C10: crash recovery.  Calls on an open log, compactions included, some of which may fail
    in any way, are followed by a successful [Sync] and further calls; then the machine
    stops and the file keeps some prefix that includes the bytes on stable storage.
    Reopening succeeds, cuts a torn record off, and recovers the state after all calls up
    to the sync and a prefix of the later ones, the last of which may be one that reported an
    error.  The reopened log satisfies the invariant again.  The conditions: the recovery
    code accepts the arguments back (64-bit fields, a snapshot that is not older than the
    stored one, a suffix that leaves no gap: [admissible]), and no write that fails right
    after a compaction rolls the file back ([keeps_log]); without them the log can be lost
    ([accepted_snapshot_breaks_recovery], [failed_write_after_compaction_erases_log]). *)
Theorem crash_recovery w ops1 w1 ops2 k :
  open_inv w -> wal_synced w <= length (wal_disk w) -> run_admissible w ops1 ->
  wal_exec (wal_run w ops1) OpSync = (w1, None) -> run_admissible w1 ops2 ->
  wal_synced (wal_run w1 ops2) <= k <= length (wal_disk (wal_run w1 ops2)) ->
  exists w' completed pending,
    OpenWAL [] (take k (wal_disk (wal_run w1 ops2))) = (wal_disk w', Ok w') /\
    completed ++ pending_list pending `prefix_of` ops2 /\
    wal_view w' = state_after w1 completed pending /\
    wal_view w1 = wal_view (wal_run w ops1) /\ wal_inv w'.
Proof.
  intros Hi Hsy Ha1 Hs Ha2 Hk. destruct (wal_run_inv w ops1 Hi Hsy Ha1) as [Ho Hsy1].
  assert (open_inv w1 /\ wal_view w1 = wal_view (wal_run w ops1)) as [Hi1 Hv1].
  { cbn in Hs. unfold wal_Sync in Hs. destruct (wal_file (wal_run w ops1)) as [pos|] eqn:Hf; [|done].
    destruct Ho as [?|[Hop Hd]]; [congruence|].
    destruct (syscall _) as [[e|] sc]; [done|]. injection Hs as <-. split; [|done]. split; [|done].
    unfold opened in *. cbn. by rewrite <- Hf. }
  pose proof (crash_images w1 ops2 Hi1 (sync_all _ _ Hs) Ha2) as Hlog.
  destruct (crash_reopens w1 ops2 _ (lg_image _ _ _ Hlog k Hk)) as (w' & c & p & ? & ? & ? & ?).
  exists w', c, p. by split_and!.
Qed.



(** A failed write after a compaction erases the log.  The handle reopened by
    [Compact] is at offset 0; when the next record cannot be written (here a state
    record, with any number of its bytes written), the rollback truncates the file
    to that offset.  The call reports an error and the in-memory copy keeps its
    contents, but the term, the vote, the snapshot and all entries are gone from
    the file: a restart finds an empty log. *)
Theorem failed_write_after_compaction_erases_log w sn w1 p r n e :
  open_inv w -> wal_synced w <= length (wal_disk w) -> snapshot_u64 sn -> wal_Compact w sn = (w1, None) ->
  wal_script w1 = [Done; Failed n e] -> encodeStateRecord p = Ok r ->
  exists w2 err, wal_SaveState w1 p = (w2, Some err) /\ wal_view w2 = compacted_view w sn /\
    wal_disk w2 = [] /\
    OpenWAL [] (wal_disk w2) = ([], Ok (reopened [] NewMemoryStorage)).
Proof.
  intros [Ho Hd] Hsy Hsn Hc Hsc Hr.
  destruct (wal_Compact_disk w sn w1 None Hd Ho Hsy Hsn Hc) as [(_ & _ & _ & ? & _)|(_ & _ & _ & [(_ & Hv & Hf)|[? _]])]; [done| |done].
  unfold wal_SaveState, commitRecord. rewrite Hf, Hr. cbn [wrap_err].
  unfold appendRecord. rewrite Hf, Hsc. cbn.
  apply bind_Ok in Hr as (pl & _ & Hl%encodeRecord_length). destruct r as [|b r]; [cbn in Hl; lia|].
  eexists _, _. split; [reflexivity|]. split_and!; [by rewrite <- Hv| |]; cbn; by unfold truncate.
Qed.

(** The storage accepts snapshots it cannot read back.  A snapshot with index
    zero, or one that recovery rejects against the stored one (a lower index, or
    another term at the same index), is written without an error and becomes the
    current snapshot, but the log can no longer be opened. *)
Theorem accepted_snapshot_breaks_recovery w sn w' err :
  wal_inv w -> snapshot_u64 sn -> validateRecoveredSnapshot (wal_snapshot w) sn = Some err ->
  wal_SaveSnapshot w sn = (w', None) ->
  wal_LoadSnapshot w' = Ok sn /\
  snd (OpenWAL [] (wal_disk w')) = Err (Wrap "recover WAL" (Wrap "validate recovered snapshot" err)).
Proof.
  intros (Hal & Hr & Hv) Hsn Hval. unfold wal_SaveSnapshot, commitRecord. rewrite Hal.
  destruct (encodeSnapshotRecord _ _ sn) as [r|] eqn:E; [|done].
  destruct (appendRecord w r) as [w1 [e|]] eqn:Ea; [done|]. intros [= <-].
  assert (length (wal_disk w) <= length (wal_disk w1)) as Hlen by by apply (aligned_keeps w r w1 None).
  apply appendRecord_cases in Ea as (added & Hd & _ & -> & Hal1); [|by left|done].
  split; [unfold wal_LoadSnapshot; cbn; by rewrite Hal1|]. cbn [wal_disk with_view]. rewrite Hd.
  unfold encodeSnapshotRecord in E. apply bind_Ok in E as (pl & Hpl%wrap_err_Ok & Hrec%wrap_err_Ok).
  unfold OpenWAL, recover. cbn [syscall].
  destruct (recoverLoop_replays _ _ _ Hr (S (length (wal_disk w ++ r))) (wal_disk w ++ r) [] r)
    as (fuel & Hf & Hloop); [done|lia|]. change (length []) with 0 in Hloop. rewrite Hloop. clear Hloop.
  destruct fuel as [|fuel]; [lia|]. cbn [recoverLoop syscall].
  pose proof (decodeRecord_encode _ _ _ [] Hrec) as Hdec. rewrite app_nil_r in Hdec.
  rewrite Hdec. cbn [syscall].
  unfold replayRecord. cbn [recordSnapshot]. rewrite !bool_decide_false by done.
  rewrite bool_decide_true by done. unfold decodeSnapshotPayload.
  unfold encodeSnapshotPayload in Hpl. apply bind_Ok in Hpl as (d & Hjson%wrap_err_Ok & Hlim).
  destruct (_ <? _)%N; [done|]. apply (inj Ok) in Hlim as ->.
  rewrite (json_roundtrip sn pl) by done. cbn [wrap_err mbind result_bind ms_snapshot wal_view].
  by rewrite Hval.
Qed.

End WalFacts.

(** ** Witnesses *)

Definition sample_voters : Membership := mkMembership (mkConfiguration ["a"; "b"; "c"]) None.
Definition sample_ops : list wal_op :=
  [OpSaveState (mkPersistent 2 "b" sample_voters);
   OpAppendEntries [mkLogEntry 1 1 [x07]; mkLogEntry 2 2 []];
   OpSaveSnapshot (mkSnapshot 1 1 [x09])].

Definition sample_wal (script : list outcome) : WALStorage :=
  wal_run (mkWAL (Some 0) [] 0 script zero_PersistentState [] None) sample_ops.

(** Decides concrete instances of the codec's limits. *)
Ltac by_decision :=
  lazymatch goal with |- ?P => apply (bool_decide_unpack P); vm_compute; exact I end.

Lemma empty_inv script : wal_inv (mkWAL (Some 0) [] 0 script zero_PersistentState [] None).
Proof.
  split; [done|]. split; [constructor|]. split_and!; [|constructor|done].
  by apply (bool_decide_unpack (state_ok zero_PersistentState)).
Qed.

Abbreviation empty_wal script := (mkWAL (Some 0) [] 0 script zero_PersistentState [] None).

Ltac solve_admissible :=
  cbn [sample_ops run_admissible admissible]; split_and!;
  first [by_decision | vm_compute; reflexivity | exact I | vm_compute; lia].

Lemma inv_open w : wal_inv w -> open_inv w.
Proof. intros [Ha Hd]. split; [by left|done]. Qed.

(** The sample calls succeed, so the invariant holds after them. *)
Lemma sample_inv : wal_inv (sample_wal []).
Proof.
  destruct (wal_run_inv (empty_wal []) sample_ops) as [[Hn|[_ Hd]] _];
    [apply inv_open, empty_inv|cbn; lia|solve_admissible| |].
  - exfalso. revert Hn. vm_compute. discriminate.
  - split; [vm_compute; reflexivity|exact Hd].
Qed.

(** The snapshot of the sample calls. *)
Definition snapshot_1 : Snapshot := mkSnapshot 1 1 [x09].

(** The log is synced, compacted and extended; the crash tears the last record. *)
Definition later_ops : list wal_op := [OpCompact snapshot_1; OpSaveState (mkPersistent 3 "c" sample_voters)].
Definition later_wal : WALStorage := wal_run (all_synced (sample_wal [])) later_ops.

Lemma crash_recovery_witness :
  exists w', snd (OpenWAL [] (take 170 (wal_disk later_wal))) = Ok w' /\ wal_inv w'.
Proof.
  destruct (crash_recovery (empty_wal []) sample_ops (all_synced (sample_wal [])) later_ops 170)
    as (w' & c & p & E & _ & _ & _ & Hi).
  - apply inv_open, empty_inv.
  - cbn. lia.
  - solve_admissible.
  - vm_compute. reflexivity.
  - cbn [later_ops run_admissible admissible]. split_and!; first [by_decision | exact I | vm_compute; lia].
  - vm_compute. lia.
  - exists w'. unfold later_wal. rewrite E. split; [reflexivity|exact Hi].
Defined.


(** Twelve calls of the compaction succeed, then the disk is full. *)
Definition full_disk_wal : WALStorage :=
  with_file (wal_file (sample_wal [])) (wal_disk (sample_wal []))
    (replicate 12 Done ++ [Done; Failed 3 (Sentinel "no space left on device")]) (sample_wal []).

Lemma failed_write_after_compaction_erases_log_witness :
  exists w2 err, wal_SaveState (fst (wal_Compact full_disk_wal snapshot_1))
      (mkPersistent 3 "c" sample_voters) = (w2, Some err) /\ wal_disk w2 = [].
Proof.
  destruct (failed_write_after_compaction_erases_log full_disk_wal snapshot_1
    (fst (wal_Compact full_disk_wal snapshot_1)) (mkPersistent 3 "c" sample_voters)
    (match encodeStateRecord (mkPersistent 3 "c" sample_voters) with Ok r => r | Err _ => [] end)
    3 (Sentinel "no space left on device")) as (w2 & err & E & _ & Hd & _).
  - apply inv_open, sample_inv.
  - vm_compute. lia.
  - by_decision.
  - vm_compute. reflexivity.
  - vm_compute. reflexivity.
  - vm_compute. reflexivity.
  - exists w2, err. split; [exact E|exact Hd].
Defined.

(** A snapshot at index 0 after one at index 1. *)
Lemma accepted_snapshot_breaks_recovery_witness :
  isOk (snd (OpenWAL [] (wal_disk (fst (wal_SaveSnapshot (sample_wal []) (mkSnapshot 0 0 [])))))) = false.
Proof.
  destruct (accepted_snapshot_breaks_recovery (sample_wal []) (mkSnapshot 0 0 [])
    (fst (wal_SaveSnapshot (sample_wal []) (mkSnapshot 0 0 [])))
    (Wrap "snapshot index must be greater than zero" ErrInvalidLog)) as [_ E].
  - apply sample_inv.
  - by_decision.
  - vm_compute. reflexivity.
  - vm_compute. reflexivity.
  - rewrite E. reflexivity.
Defined.
