(* ===== verification/Node.v ===== *)
(** The state of a Raft node and its basic transitions: [internal/raft/state.go],
    [node.go], [node_role.go], [node_helpers.go], [node_config.go].

    A handler of the source locks [n.mu], updates the node and returns; it is a
    function from the node to the new node and the reply.  Every call on
    [n.storage] is kept, with its failure branch.  Loggers and metrics are left
    out; the apply channel is the sequence of entries sent on it. *)

From S2P Require Import Prelude Model RaftLog Storage Membership.

Record VolatileState := mkVolatile {
  CommitIndex : LogIndex;
  LastApplied : LogIndex;
}.

Record LeaderState := mkLeaderState {
  NextIndex : gmap NodeID LogIndex;
  MatchIndex : gmap NodeID LogIndex;
}.

Record State := mkState {
  Persistent : PersistentState;
  Volatile : VolatileState;
  LeaderSt : LeaderState;
  VotesReceived : gset NodeID;
  NodeRole : Role;
  LeaderID : NodeID;
}.

Record RaftNode {S : Type} := mkRaftNode {
  id : NodeID;
  state : State;
  log : Log;
  storage : S;
  transportSet : bool;
  peerIDs : list NodeID;
  applyCh : list LogEntry;
  snapshotRestore : option (Snapshot -> option error);
  electionElapsed : Z;
  electionTimeout : Z;
  electionInFlight : bool;
  storageWriteBlocked : bool;
  heartbeatElapsed : Z;
  heartbeatTimeout : Z;
  running : bool;
}.
Global Arguments RaftNode : clear implicits.
Global Arguments mkRaftNode {S}.

Section Setters.
Context {S : Type}.
Implicit Types n : RaftNode S.

Definition set_state (st : State) n : RaftNode S :=
  mkRaftNode (id n) st (log n) (storage n) (transportSet n) (peerIDs n) (applyCh n)
    (snapshotRestore n) (electionElapsed n) (electionTimeout n) (electionInFlight n)
    (storageWriteBlocked n) (heartbeatElapsed n) (heartbeatTimeout n) (running n).
Definition set_log (l : Log) n : RaftNode S :=
  mkRaftNode (id n) (state n) l (storage n) (transportSet n) (peerIDs n) (applyCh n)
    (snapshotRestore n) (electionElapsed n) (electionTimeout n) (electionInFlight n)
    (storageWriteBlocked n) (heartbeatElapsed n) (heartbeatTimeout n) (running n).
Definition set_storage (s : S) n : RaftNode S :=
  mkRaftNode (id n) (state n) (log n) s (transportSet n) (peerIDs n) (applyCh n)
    (snapshotRestore n) (electionElapsed n) (electionTimeout n) (electionInFlight n)
    (storageWriteBlocked n) (heartbeatElapsed n) (heartbeatTimeout n) (running n).
Definition set_peers (t : bool) (ps : list NodeID) n : RaftNode S :=
  mkRaftNode (id n) (state n) (log n) (storage n) t ps (applyCh n)
    (snapshotRestore n) (electionElapsed n) (electionTimeout n) (electionInFlight n)
    (storageWriteBlocked n) (heartbeatElapsed n) (heartbeatTimeout n) (running n).
Definition set_applyCh (ch : list LogEntry) n : RaftNode S :=
  mkRaftNode (id n) (state n) (log n) (storage n) (transportSet n) (peerIDs n) ch
    (snapshotRestore n) (electionElapsed n) (electionTimeout n) (electionInFlight n)
    (storageWriteBlocked n) (heartbeatElapsed n) (heartbeatTimeout n) (running n).
Definition set_electionElapsed (z : Z) n : RaftNode S :=
  mkRaftNode (id n) (state n) (log n) (storage n) (transportSet n) (peerIDs n) (applyCh n)
    (snapshotRestore n) z (electionTimeout n) (electionInFlight n)
    (storageWriteBlocked n) (heartbeatElapsed n) (heartbeatTimeout n) (running n).
Definition set_blocked (b : bool) n : RaftNode S :=
  mkRaftNode (id n) (state n) (log n) (storage n) (transportSet n) (peerIDs n) (applyCh n)
    (snapshotRestore n) (electionElapsed n) (electionTimeout n) (electionInFlight n)
    b (heartbeatElapsed n) (heartbeatTimeout n) (running n).
Definition set_heartbeatElapsed (z : Z) n : RaftNode S :=
  mkRaftNode (id n) (state n) (log n) (storage n) (transportSet n) (peerIDs n) (applyCh n)
    (snapshotRestore n) (electionElapsed n) (electionTimeout n) (electionInFlight n)
    (storageWriteBlocked n) z (heartbeatTimeout n) (running n).

Definition set_persistent (p : PersistentState) n : RaftNode S :=
  set_state (mkState p (Volatile (state n)) (LeaderSt (state n)) (VotesReceived (state n))
               (NodeRole (state n)) (LeaderID (state n))) n.
Definition set_volatile (v : VolatileState) n : RaftNode S :=
  set_state (mkState (Persistent (state n)) v (LeaderSt (state n)) (VotesReceived (state n))
               (NodeRole (state n)) (LeaderID (state n))) n.
Definition set_leaderSt (l : LeaderState) n : RaftNode S :=
  set_state (mkState (Persistent (state n)) (Volatile (state n)) l (VotesReceived (state n))
               (NodeRole (state n)) (LeaderID (state n))) n.
Definition set_votes (vs : gset NodeID) n : RaftNode S :=
  set_state (mkState (Persistent (state n)) (Volatile (state n)) (LeaderSt (state n)) vs
               (NodeRole (state n)) (LeaderID (state n))) n.
Definition set_role (r : Role) n : RaftNode S :=
  set_state (mkState (Persistent (state n)) (Volatile (state n)) (LeaderSt (state n))
               (VotesReceived (state n)) r (LeaderID (state n))) n.
Definition set_leaderID (i : NodeID) n : RaftNode S :=
  set_state (mkState (Persistent (state n)) (Volatile (state n)) (LeaderSt (state n))
               (VotesReceived (state n)) (NodeRole (state n)) i) n.

Definition currentTerm n : Term := ps_CurrentTerm (Persistent (state n)).
Definition votedFor n : NodeID := ps_VotedFor (Persistent (state n)).
Definition membership n : Membership := ps_Membership (Persistent (state n)).
Definition role n : Role := NodeRole (state n).
Definition leaderID n : NodeID := LeaderID (state n).
Definition commitIndex n : LogIndex := CommitIndex (Volatile (state n)).
Definition lastApplied n : LogIndex := LastApplied (Volatile (state n)).
Definition votes n : gset NodeID := VotesReceived (state n).
Definition nextIndexOf n (peer : NodeID) : option LogIndex := NextIndex (LeaderSt (state n)) !! peer.
(** Reading a missing key of a Go map yields the zero value. *)
Definition matchIndexOf n (peer : NodeID) : LogIndex :=
  default 0%N (MatchIndex (LeaderSt (state n)) !! peer).

Definition set_commitIndex (c : LogIndex) n : RaftNode S :=
  set_volatile (mkVolatile c (lastApplied n)) n.
Definition set_lastApplied (a : LogIndex) n : RaftNode S :=
  set_volatile (mkVolatile (commitIndex n) a) n.
Definition set_nextIndex (peer : NodeID) (i : LogIndex) n : RaftNode S :=
  set_leaderSt (mkLeaderState (<[peer := i]> (NextIndex (LeaderSt (state n))))
                  (MatchIndex (LeaderSt (state n)))) n.
Definition set_matchIndex (peer : NodeID) (i : LogIndex) n : RaftNode S :=
  set_leaderSt (mkLeaderState (NextIndex (LeaderSt (state n)))
                  (<[peer := i]> (MatchIndex (LeaderSt (state n))))) n.

End Setters.

(** The persistent state with a new term and no vote, and with a new vote. *)
Definition with_term (t : Term) (p : PersistentState) : PersistentState :=
  mkPersistent t "" (ps_Membership p).
Definition with_vote (v : NodeID) (p : PersistentState) : PersistentState :=
  mkPersistent (ps_CurrentTerm p) v (ps_Membership p).
Definition with_membership (m : Membership) (p : PersistentState) : PersistentState :=
  mkPersistent (ps_CurrentTerm p) (ps_VotedFor p) m.

Section Node.
Context {S : Type} `{Storage S}.
Implicit Types n : RaftNode S.

(** Replaying the stored entries into a fresh log. *)
Fixpoint restoreEntries (l : Log) (es : list LogEntry) : result Log :=
  match es with
  | [] => Ok l
  | entry :: rest => l' ← wrap_err "restore log entry" (Append l entry); restoreEntries l' rest
  end.

Definition NewRaftNodeWithStorage (nodeID : NodeID) (store : S) : result (RaftNode S) :=
  persistentState ← wrap_err "load persistent state" (st_LoadState store);
  es ← wrap_err "load log entries" (st_LoadEntries store);
  snapshot ← wrap_err "load snapshot" (st_LoadSnapshot store);
  l ← restoreEntries NewLog es;
  let boundary := snap_LastIncludedIndex snapshot in
  l ← (if (0 <? boundary)%N
       then wrap_err "restore snapshot boundary" (RestoreSnapshot l snapshot)
       else Ok l);
  Ok (mkRaftNode nodeID
        (mkState persistentState (mkVolatile boundary boundary) (mkLeaderState ∅ ∅) ∅ Follower "")
        l store true [] [] None 0 10 false false 0 1 false).

(** [SaveState] followed by [Sync]: the durability step in front of every
    change of term, vote or membership. *)
Definition saveAndSync (s : S) (p : PersistentState) : S * option error :=
  match st_SaveState s p with
  | (s, Some e) => (s, Some e)
  | (s, None) => st_Sync s
  end.

Definition persistStateLocked n : RaftNode S * option error :=
  match st_SaveState (storage n) (Persistent (state n)) with
  | (s, Some e) => (set_storage s n, Some (Wrap "save persistent state" e))
  | (s, None) =>
      match st_Sync s with
      | (s, Some e) => (set_storage s n, Some (Wrap "sync persistent state" e))
      | (s, None) => (set_storage s n, None)
      end
  end.

Definition becomeFollowerLocked (term : Term) n : RaftNode S * option error :=
  let persistentState := with_term term (Persistent (state n)) in
  match st_SaveState (storage n) persistentState with
  | (s, Some e) => (set_storage s n, Some (Wrap "persist follower transition" e))
  | (s, None) =>
      match st_Sync s with
      | (s, Some e) => (set_storage s n, Some (Wrap "sync follower transition" e))
      | (s, None) =>
          (set_electionElapsed 0 (set_leaderID "" (set_role Follower
             (set_persistent persistentState (set_storage s n)))), None)
      end
  end.

Definition stepDownForStorageFailureLocked n : RaftNode S :=
  set_electionElapsed 0 (set_blocked true (set_leaderID "" (set_role Follower n))).

Definition initializeReplicationStateLocked (peerID : NodeID) n : RaftNode S :=
  set_matchIndex peerID 0 (set_nextIndex peerID (u64_add (lastIndexLocked (log n)) 1) n).

Definition initializeNewPeerReplicationStateLocked (peerID : NodeID) n : RaftNode S :=
  set_matchIndex peerID 0 (set_nextIndex peerID 1 n).

Definition becomeLeaderLocked n : RaftNode S :=
  let n := set_heartbeatElapsed 0 (set_electionElapsed 0 (set_leaderID (id n) (set_role Leader n))) in
  fold_left (fun n peerID => initializeReplicationStateLocked peerID n) (peerIDs n) n.

Definition SetTransport (peers : list NodeID) n : RaftNode S := set_peers true peers n.

(** The hook of [InstallSnapshot]; here only its error. *)
Definition SetSnapshotRestore (f : Snapshot -> option error) n : RaftNode S :=
  mkRaftNode (id n) (state n) (log n) (storage n) (transportSet n) (peerIDs n) (applyCh n)
    (Some f) (electionElapsed n) (electionTimeout n) (electionInFlight n)
    (storageWriteBlocked n) (heartbeatElapsed n) (heartbeatTimeout n) (running n).

Definition RegisterPeer (peerID : NodeID) n : RaftNode S * option error :=
  if bool_decide (peerID = "") then (n, Some (Msg "raft peer ID is required"))
  else if bool_decide (peerID = id n) then (n, Some (Msg "cannot register self as peer"))
  else if bool_decide (peerID ∈ peerIDs n) then (n, Some (Msg "raft peer already registered"))
  else (set_peers (transportSet n) (peerIDs n ++ [peerID]) n, None).

Definition SetElectionTimeout (timeout : Z) n : RaftNode S :=
  mkRaftNode (id n) (state n) (log n) (storage n) (transportSet n) (peerIDs n) (applyCh n)
    (snapshotRestore n) (electionElapsed n) timeout (electionInFlight n)
    (storageWriteBlocked n) (heartbeatElapsed n) (heartbeatTimeout n) (running n).

Definition resetElectionTimer n : RaftNode S := set_electionElapsed 0 n.

(** [tick] returns the node with [(electionDue, heartbeatDue)]. *)
Definition tick n : RaftNode S * (bool * bool) :=
  match role n with
  | Leader =>
      let elapsed := (heartbeatElapsed n + 1)%Z in
      if (heartbeatTimeout n <=? elapsed)%Z then (set_heartbeatElapsed 0 n, (false, true))
      else (set_heartbeatElapsed elapsed n, (false, false))
  | _ =>
      let elapsed := (electionElapsed n + 1)%Z in
      (set_electionElapsed elapsed n, ((electionTimeout n <=? elapsed)%Z, false))
  end.

Definition heartbeatDue n : RaftNode S * bool :=
  match role n with
  | Leader =>
      let elapsed := (heartbeatElapsed n + 1)%Z in
      if (elapsed <? heartbeatTimeout n)%Z then (set_heartbeatElapsed elapsed n, false)
      else (set_heartbeatElapsed 0 n, true)
  | _ => (n, false)
  end.

(** The voters collected by [BootstrapMembership]: the node first, then its
    peers, skipping empty and repeated IDs. *)
Fixpoint collectVoters (voters : list NodeID) (ids : list NodeID) : list NodeID :=
  match ids with
  | [] => voters
  | i :: rest =>
      if bool_decide (i = "") then collectVoters voters rest
      else if bool_decide (i ∈ voters) then collectVoters voters rest
      else collectVoters (voters ++ [i]) rest
  end.

Definition BootstrapMembership n : RaftNode S * option error :=
  if (0 <? length (Voters (mem_Current (membership n))))%nat ||
     bool_decide (is_Some (mem_Joint (membership n)))
  then (n, None)
  else
    let voters := collectVoters [] (id n :: peerIDs n) in
    if (length voters =? 0)%nat
    then (n, Some (Msg "raft membership cannot be bootstrapped without voters"))
    else
      let p := with_membership (mkMembership (mkConfiguration voters) None) (Persistent (state n)) in
      match persistStateLocked (set_persistent p n) with
      | (n, Some e) => (n, Some (Wrap "bootstrap membership" e))
      | (n, None) => (n, None)
      end.

End Node.
