(* ===== verification/Election.v ===== *)
(** Leader election: [internal/raft/node_election.go].

    [RequestVote], [PreVote] and [handleVoteReply] are the atomic sections run
    under [n.mu].  [requestVotes], [runPreVote] and [runElection] are the loops
    around the RPCs: a [Transport] is a state-passing oracle for the other end,
    and no other handler of the same node runs between the calls.  (The
    cluster model of [ElectionSafety.v] interleaves the atomic sections
    freely.) *)

From S2P Require Import Prelude Model RaftLog Storage Membership Node.

(** The RPCs of the [Transport] interface; [W] is the state of the world
    outside the node. *)
Record Transport (W : Type) := mkTransport {
  tr_RequestVote : W -> NodeID -> RequestVoteArgs -> W * result RequestVoteReply;
  tr_PreVote : W -> NodeID -> PreVoteArgs -> W * result PreVoteReply;
  tr_AppendEntries : W -> NodeID -> AppendEntriesArgs -> W * result AppendEntriesReply;
  tr_InstallSnapshot : W -> NodeID -> InstallSnapshotArgs -> W * result InstallSnapshotReply;
}.
Global Arguments tr_RequestVote {W}.
Global Arguments tr_PreVote {W}.
Global Arguments tr_AppendEntries {W}.
Global Arguments tr_InstallSnapshot {W}.

Section Election.
Context {S : Type} `{Storage S}.
Implicit Types n : RaftNode S.

Definition isCandidateLogUpToDate n (lastLogIndex : LogIndex) (lastLogTerm : Term) : bool :=
  let localLastTerm := lastTermLocked (log n) in
  let localLastIndex := lastIndexLocked (log n) in
  if negb (lastLogTerm =? localLastTerm)%N then (localLastTerm <? lastLogTerm)%N
  else (localLastIndex <=? lastLogIndex)%N.

(** Adopting a higher term, common to the handlers: the new term with an empty
    vote is made durable before it becomes visible; on a storage failure the
    node keeps its state. *)
Definition adoptTerm (term : Term) n : RaftNode S * bool :=
  let persistentState := with_term term (Persistent (state n)) in
  match saveAndSync (storage n) persistentState with
  | (s, Some _) => (set_storage s n, false)
  | (s, None) =>
      (set_leaderID "" (set_role Follower (set_persistent persistentState (set_storage s n))), true)
  end.

Definition recordVote (peerID : NodeID) (term : Term) (granted : bool) n : RaftNode S * bool :=
  if bool_decide (role n ≠ Candidate) then (n, false)
  else if negb (term =? currentTerm n)%N then (n, false)
  else if negb granted then (n, false)
  else if negb (membershipIsVoter (membership n) peerID) then (n, false)
  else if bool_decide (peerID ∈ votes n) then (n, false)
  else (set_votes ({[peerID]} ∪ votes n) n, true).

Definition tryBecomeLeader n : RaftNode S * bool :=
  if bool_decide (role n ≠ Candidate) then (n, false)
  else if negb (membershipHasQuorum (membership n) (votes n)) then (n, false)
  else (becomeLeaderLocked n, true).

Definition startElection n : RaftNode S * result Term :=
  if negb (membershipIsVoter (membership n) (id n)) then (n, Err (Msg "node is not a voter"))
  else if storageWriteBlocked n then (n, Err (Msg "storage writes are blocked"))
  else
    let persistentState :=
      mkPersistent (u64_add (currentTerm n) 1) (id n) (membership n) in
    match saveAndSync (storage n) persistentState with
    | (s, Some e) => (set_storage s n, Err e)
    | (s, None) =>
        (set_votes {[id n]} (set_electionElapsed 0 (set_leaderID "" (set_role Candidate
           (set_persistent persistentState (set_storage s n))))),
         Ok (ps_CurrentTerm persistentState))
    end.

(** The request sent by [requestVotes], if the node is an eligible candidate. *)
Definition voteRequest n : option RequestVoteArgs :=
  if bool_decide (role n ≠ Candidate) || negb (membershipIsVoter (membership n) (id n)) then None
  else Some (mkRequestVoteArgs (currentTerm n) (id n) (lastIndexLocked (log n)) (lastTermLocked (log n))).

(** The part of [RequestVote] after the term check: the request's term is not
    higher than the node's. *)
Definition voteInCurrentTerm (args : RequestVoteArgs) n : RaftNode S * RequestVoteReply :=
  let deny := mkRequestVoteReply (currentTerm n) (id n) false in
  if negb (membershipIsVoter (membership n) (rv_CandidateID args)) then (n, deny)
  else if bool_decide (votedFor n ≠ "") && bool_decide (votedFor n ≠ rv_CandidateID args)
  then (n, deny)
  else if negb (isCandidateLogUpToDate n (rv_LastLogIndex args) (rv_LastLogTerm args))
  then (n, deny)
  else
    let persistentState := with_vote (rv_CandidateID args) (Persistent (state n)) in
    match saveAndSync (storage n) persistentState with
    | (s, Some _) => (set_storage s n, deny)
    | (s, None) =>
        (set_electionElapsed 0 (set_persistent persistentState (set_storage s n)),
         mkRequestVoteReply (currentTerm n) (id n) true)
    end.

Definition RequestVote (args : RequestVoteArgs) n : RaftNode S * RequestVoteReply :=
  let reply := mkRequestVoteReply (currentTerm n) (id n) false in
  if (rv_Term args <? currentTerm n)%N then (n, reply)
  else if (currentTerm n <? rv_Term args)%N then
    match adoptTerm (rv_Term args) n with
    | (n, false) => (n, reply)
    | (n, true) => voteInCurrentTerm args n
    end
  else voteInCurrentTerm args n.

Definition handleVoteReply (electionTerm : Term) (reply : RequestVoteReply) n : RaftNode S :=
  if (currentTerm n <? rvr_Term reply)%N then
    match adoptTerm (rvr_Term reply) n with
    | (n, false) => n
    | (n, true) => set_votes ∅ n
    end
  else if bool_decide (role n ≠ Candidate) then n
  else if negb (electionTerm =? currentTerm n)%N then n
  else if negb (rvr_Term reply =? electionTerm)%N then n
  else if negb (rvr_VoteGranted reply) then n
  else if negb (membershipIsVoter (membership n) (rvr_VoterID reply)) then n
  else if bool_decide (rvr_VoterID reply ∈ votes n) then n
  else set_votes ({[rvr_VoterID reply]} ∪ votes n) n.

Definition PreVote (args : PreVoteArgs) n : PreVoteReply :=
  let deny := mkPreVoteReply (currentTerm n) (id n) false in
  if bool_decide (role n = Leader) then deny
  else if negb (membershipIsVoter (membership n) (pv_CandidateID args)) then deny
  else if (pv_Term args <? currentTerm n)%N then deny
  else if bool_decide (leaderID n ≠ "") && (electionElapsed n <? electionTimeout n)%Z then deny
  else if negb (isCandidateLogUpToDate n (pv_LastLogIndex args) (pv_LastLogTerm args)) then deny
  else mkPreVoteReply (currentTerm n) (id n) true.

(** ** The RPC loops *)

Context {W : Type} (T : Transport W).

(** The loop of [requestVotes] over the peers. *)
Fixpoint requestVotesFrom (peers : list NodeID) (args : RequestVoteArgs) (w : W) n : W * RaftNode S :=
  match peers with
  | [] => (w, n)
  | peerID :: rest =>
      match tr_RequestVote T w peerID args with
      | (w, Err _) => requestVotesFrom rest args w n
      | (w, Ok reply) => requestVotesFrom rest args w (handleVoteReply (rv_Term args) reply n)
      end
  end.

Definition requestVotes (w : W) n : W * RaftNode S :=
  match voteRequest n with
  | None => (w, n)
  | Some args => if negb (transportSet n) then (w, n) else requestVotesFrom (peerIDs n) args w n
  end.

(** The loop of [runPreVote]: it stops at the first quorum. *)
Fixpoint preVotesFrom (m : Membership) (peers : list NodeID) (args : PreVoteArgs)
    (granted : gset NodeID) (w : W) : W * bool :=
  match peers with
  | [] => (w, false)
  | peerID :: rest =>
      match tr_PreVote T w peerID args with
      | (w, Err _) => preVotesFrom m rest args granted w
      | (w, Ok reply) =>
          if negb (pvr_VoteGranted reply) then preVotesFrom m rest args granted w
          else
            let granted := {[peerID]} ∪ granted in
            if membershipHasQuorum m granted then (w, true)
            else preVotesFrom m rest args granted w
      end
  end.

Definition runPreVote (w : W) n : W * bool :=
  let term := u64_add (currentTerm n) 1 in
  let args := mkPreVoteArgs term (id n) (lastIndexLocked (log n)) (lastTermLocked (log n)) in
  if negb (membershipIsVoter (membership n) (id n)) then (w, false)
  else if membershipHasQuorum (membership n) {[id n]} then (w, true)
  else if negb (transportSet n) then (w, false)
  else preVotesFrom (membership n) (peerIDs n) args {[id n]} w.

Definition runElection (w : W) n : W * RaftNode S :=
  if storageWriteBlocked n then (w, n)
  else
    match runPreVote w n with
    | (w, false) => (w, n)
    | (w, true) =>
        if bool_decide (role n = Leader) then (w, n)
        else if bool_decide (leaderID n ≠ "") && (electionElapsed n <? electionTimeout n)%Z
        then (w, n)
        else
          match startElection n with
          | (n, Err _) => (w, resetElectionTimer n)
          | (n, Ok _) =>
              let '(w, n) := requestVotes w n in
              (w, fst (tryBecomeLeader n))
          end
    end.

Definition onElectionTimeout (w : W) n : W * RaftNode S :=
  match role n with
  | Leader => (w, n)
  | _ => runElection w n
  end.

End Election.

(** ** Durability of term and vote *)

Section Laws.
Context {S : Type} `{StorageLaws S}.
Implicit Types n : RaftNode S.

Definition stored n : PersistentState := ms_state (view (storage n)).

Lemma saveAndSync_ok s p s' :
  saveAndSync s p = (s', None) ->
  view s' = mkMemoryStorage p (ms_entries (view s)) (ms_snapshot (view s)).
Proof.
  unfold saveAndSync. pose proof (SaveState_law s p) as Hs.
  destruct (st_SaveState s p) as [s1 [e|]]; [done|]. cbn in Hs. injection Hs as Hs.
  intros Hy. pose proof (Sync_law s1) as Hl. rewrite Hy in Hl. cbn in Hl. injection Hl as Hl.
  congruence.
Qed.

(** After a failed [saveAndSync] the storage holds the old or the new state. *)
Lemma saveAndSync_err s p s' e :
  saveAndSync s p = (s', Some e) ->
  view s' = view s \/
  view s' = mkMemoryStorage p (ms_entries (view s)) (ms_snapshot (view s)).
Proof.
  unfold saveAndSync. pose proof (SaveState_law s p) as Hs.
  destruct (st_SaveState s p) as [s1 [e1|]]; cbn in Hs.
  - intros [= <- <-]. by left.
  - injection Hs as Hs. intros Hy. pose proof (Sync_law s1) as Hl.
    rewrite Hy in Hl. cbn in Hl. right. congruence.
Qed.

End Laws.
