(* ===== verification/Apply.v ===== *)
(** Applying committed entries and advancing the commit index:
    [internal/raft/node_apply.go] and [advanceCommitIndexLocked] of
    [node_replication.go]. *)

From S2P Require Import Prelude Model Bytes RaftLog Storage Membership ConfigEntry Node.

Section Apply.
Context {S : Type} `{Storage S}.
Implicit Types n : RaftNode S.

(** The switch of [applyConfigurationEntryLocked] on the entry type byte. *)
Definition decodeMembershipEntry (data : bytes) : result Membership :=
  match data !! 5%nat with
  | None => Err (Msg "configuration entry is truncated")
  | Some entryType =>
      if bool_decide (entryType = configurationEntryTypeStable) then
        configuration ← wrap_err "decode stable configuration entry" (DecodeConfigurationEntry data);
        Ok (mkMembership configuration None)
      else if bool_decide (entryType = configurationEntryTypeEnterJoint) then
        '(oldConfiguration, newConfiguration) ←
          wrap_err "decode enter-joint configuration entry" (DecodeEnterJointConfigurationEntry data);
        Ok (mkMembership oldConfiguration (Some (mkJoint oldConfiguration newConfiguration)))
      else if bool_decide (entryType = configurationEntryTypeLeaveJoint) then
        newConfiguration ←
          wrap_err "decode leave-joint configuration entry" (DecodeLeaveJointConfigurationEntry data);
        Ok (mkMembership newConfiguration None)
      else Err (Msg "unknown configuration entry type")
  end.

Definition applyConfigurationEntryLocked (entry : LogEntry) n : RaftNode S * option error :=
  match decodeMembershipEntry (le_Data entry) with
  | Err e => (n, Some e)
  | Ok nextMembership =>
      let nextState := with_membership nextMembership (Persistent (state n)) in
      match st_SaveState (storage n) nextState with
      | (s, Some e) => (set_storage s n, Some (Wrap "persist membership" e))
      | (s, None) =>
          match st_Sync s with
          | (s, Some e) => (set_storage s n, Some (Wrap "sync membership" e))
          | (s, None) =>
              let n := set_persistent nextState (set_storage s n) in
              if bool_decide (role n = Leader) && bool_decide (mem_Joint nextMembership = None) &&
                 negb (membershipIsVoter nextMembership (id n))
              then match becomeFollowerLocked (currentTerm n) n with
                   | (n, Some e) => (n, Some (Wrap "step down after membership removal" e))
                   | (n, None) => (n, None)
                   end
              else (n, None)
          end
      end
  end.

(** One iteration of the loop of [applyCommitted]; [None] when it returns. *)
Definition applyOne n : RaftNode S * bool :=
  if (commitIndex n <=? lastApplied n)%N then (n, false)
  else
    let nextIndex := u64_add (lastApplied n) 1 in
    match getLocked (log n) nextIndex with
    | None => (n, false)
    | Some entry =>
        if IsConfigurationEntry (le_Data entry) then
          match applyConfigurationEntryLocked entry n with
          | (n, Some _) => (n, false)
          | (n, None) => (set_lastApplied nextIndex n, true)
          end
        else
          let n := set_applyCh (applyCh n ++ [entry]) n in
          if (lastApplied n <? nextIndex)%N then (set_lastApplied nextIndex n, true) else (n, true)
    end.

Fixpoint applyLoop (fuel : nat) n : RaftNode S :=
  match fuel with
  | O => n
  | Datatypes.S fuel' =>
      match applyOne n with
      | (n, false) => n
      | (n, true) => applyLoop fuel' n
      end
  end.

(** The loop runs once per index between [LastApplied] and [CommitIndex]. *)
Definition applyCommitted n : RaftNode S :=
  applyLoop (N.to_nat (commitIndex n - lastApplied n)) n.

Definition logTerm n (index : LogIndex) : Term :=
  match getLocked (log n) index with
  | None => 0%N
  | Some entry => le_Term entry
  end.

(** The nodes known to hold the entry at [index]. *)
Definition replicated n (index : LogIndex) : gset NodeID :=
  {[id n]} ∪ list_to_set (filter (fun peerID => (index <= matchIndexOf n peerID)%N) (peerIDs n)).

(** The body of the loop of [advanceCommitIndexLocked]. *)
Definition advanceOne (index : LogIndex) n : RaftNode S :=
  if negb (logTerm n index =? currentTerm n)%N then n
  else if membershipHasQuorum (membership n) (replicated n index) then set_commitIndex index n
  else n.

Fixpoint advanceFrom (count : nat) (index : LogIndex) n : RaftNode S :=
  match count with
  | O => n
  | Datatypes.S count' => advanceFrom count' (u64_add index 1) (advanceOne index n)
  end.

Definition advanceCommitIndexLocked n : RaftNode S * bool :=
  if bool_decide (role n ≠ Leader) then (n, false)
  else
    let oldCommitIndex := commitIndex n in
    let n' := advanceFrom (N.to_nat (lastIndexLocked (log n) - oldCommitIndex))
                (u64_add oldCommitIndex 1) n in
    (n', (oldCommitIndex <? commitIndex n')%N).

Definition advanceCommitIndex n : RaftNode S :=
  match advanceCommitIndexLocked n with
  | (n, true) => applyCommitted n
  | (n, false) => n
  end.

End Apply.

(** ** Lemmas *)

Definition config_free (e : LogEntry) : Prop := IsConfigurationEntry (le_Data e) = false.

#[global] Instance config_free_dec e : Decision (config_free e).
Proof. unfold config_free. apply _. Defined.

(** The retained entries at indexes [from + 1 .. from + count]. *)
Fixpoint entriesBetween (l : Log) (from : N) (count : nat) : list LogEntry :=
  match count with
  | O => []
  | S count' =>
      match getLocked l (from + 1) with
      | Some e => e :: entriesBetween l (from + 1) count'
      | None => entriesBetween l (from + 1) count'
      end
  end.

Lemma getLocked_config_free l i e :
  Forall config_free (entries l) -> getLocked l i = Some e -> config_free e.
Proof.
  intros Hl. unfold getLocked. destruct (_ && _); [by intros [= <-]|].
  induction Hl as [|x es Hx _ IH]; cbn; [done|].
  destruct (le_Index x =? i)%N; [by intros [= <-]|done].
Qed.

Section ApplyLemmas.
Context {S : Type} `{Storage S}.
Implicit Types n : RaftNode S.

Lemma becomeFollowerLocked_frame t n n' o :
  becomeFollowerLocked t n = (n', o) ->
  log n' = log n /\ applyCh n' = applyCh n /\ Volatile (state n') = Volatile (state n) /\ id n' = id n.
Proof. unfold becomeFollowerLocked. intros E. repeat split_hyp_match E; by simplify_eq. Qed.

Lemma applyConfig_frame e n n' o :
  applyConfigurationEntryLocked e n = (n', o) ->
  log n' = log n /\ applyCh n' = applyCh n /\ Volatile (state n') = Volatile (state n) /\ id n' = id n.
Proof.
  unfold applyConfigurationEntryLocked. intros E.
  repeat (split_hyp_match E; simplify_eq; try done);
    match goal with Hf : becomeFollowerLocked _ _ = _ |- _ => by apply becomeFollowerLocked_frame in Hf end.
Qed.

(** One iteration: the reason it stops, or the entry it consumes. *)
Lemma applyOne_cases n n' b :
  is_u64 (commitIndex n) -> applyOne n = (n', b) ->
  log n' = log n /\ commitIndex n' = commitIndex n /\ id n' = id n /\
  if b then
    (lastApplied n < commitIndex n)%N /\ lastApplied n' = (lastApplied n + 1)%N /\
    exists e, getLocked (log n) (lastApplied n + 1) = Some e /\
      applyCh n' = applyCh n ++ (if IsConfigurationEntry (le_Data e) then [] else [e])
  else
    lastApplied n' = lastApplied n /\ applyCh n' = applyCh n /\
    ((commitIndex n <= lastApplied n)%N \/ getLocked (log n) (lastApplied n + 1) = None \/
     exists e, getLocked (log n) (lastApplied n + 1) = Some e /\ IsConfigurationEntry (le_Data e) = true).
Proof.
  intros Hu. unfold applyOne.
  destruct (N.leb_spec (commitIndex n) (lastApplied n)) as [Hle|Hlt].
  { intros [= <- <-]. repeat split; auto. }
  rewrite u64_add_small by lia.
  destruct (getLocked (log n) (lastApplied n + 1)) as [e|] eqn:Hg.
  2: { intros [= <- <-]. repeat split; auto. }
  destruct (IsConfigurationEntry (le_Data e)) eqn:Hc.
  - destruct (applyConfigurationEntryLocked e n) as [n1 [er|]] eqn:Ha;
      apply applyConfig_frame in Ha as (Hl & Hch & Hv & Hid); intros [= <- <-];
      cbn; unfold commitIndex, lastApplied in *; cbn; rewrite ?Hv; split_and!; try done; eauto 10.
    eexists. split; [done|]. by rewrite Hc, app_nil_r.
  - unfold lastApplied in *. cbn.
    destruct (N.ltb_spec (LastApplied (Volatile (state n))) (LastApplied (Volatile (state n)) + 1)); [|lia].
    intros [= <- <-]. repeat split; try done. eexists. split; [done|]. by rewrite Hc.
Qed.

Lemma applyOne_config_free n :
  Forall config_free (entries (log n)) ->
  applyOne n = (n, false) \/
  exists a ch, applyOne n = (set_lastApplied a (set_applyCh ch n), true) \/
               applyOne n = (set_applyCh ch n, true).
Proof.
  intros Hf. unfold applyOne. destruct (_ <=? _)%N; [by left|].
  destruct (getLocked _ _) as [e|] eqn:Hg; [|by left].
  apply getLocked_config_free in Hg; [|done]. rewrite Hg. right.
  eexists (u64_add (lastApplied n) 1), _. destruct (_ <? _)%N; [by left|by right].
Qed.

(** The loop: what is delivered, and why it stops. *)
Lemma applyLoop_spec fuel n :
  is_u64 (commitIndex n) -> (commitIndex n - lastApplied n <= N.of_nat fuel)%N ->
  (lastApplied n <= commitIndex n)%N ->
  let n' := applyLoop fuel n in
  exists k,
    log n' = log n /\ commitIndex n' = commitIndex n /\ id n' = id n /\
    lastApplied n' = (lastApplied n + N.of_nat k)%N /\ (lastApplied n' <= commitIndex n)%N /\
    length (entriesBetween (log n) (lastApplied n) k) = k /\
    applyCh n' = applyCh n ++
      filter config_free (entriesBetween (log n) (lastApplied n) k) /\
    (lastApplied n' = commitIndex n \/ getLocked (log n) (lastApplied n' + 1) = None \/
     exists e, getLocked (log n) (lastApplied n' + 1) = Some e /\ ~ config_free e).
Proof.
  revert n; induction fuel as [|fuel IH]; intros n Hu Hf Hle; cbn [applyLoop].
  { exists 0. cbn. rewrite app_nil_r, N.add_0_r. repeat split; try done. left. lia. }
  destruct (applyOne n) as [n1 [|]] eqn:E; apply applyOne_cases in E as (Hl & Hc & Hid & Hb); try done.
  - destruct Hb as (Hlt & Ha & e & Hg & Hch).
    destruct (IH n1) as (k & Hl' & Hc' & Hid' & Ha' & Hle' & Hlen & Hch' & Hstop); [congruence|lia|lia|].
    exists (Datatypes.S k). cbn [entriesBetween]. rewrite Hg.
    rewrite Hl, Hc, Ha in *. cbn [length]. rewrite Ha', Hlen, Hch', Hch, <- app_assoc, filter_cons.
    split_and!; try congruence; try lia.
    + f_equal. case_decide as Hd; unfold config_free in Hd.
      * by rewrite Hd.
      * apply not_false_is_true in Hd. by rewrite Hd.
    + replace (lastApplied n + N.of_nat (Datatypes.S k))%N with (lastApplied n + 1 + N.of_nat k)%N by lia.
      by rewrite <- Ha'.
  - destruct Hb as (Ha & Hch & Hstop). exists 0. cbn. rewrite app_nil_r, N.add_0_r, Ha.
    split_and!; try done; try lia.
    destruct Hstop as [?|[?|(e & ? & ?)]]; [left; lia|by right; left|].
    right; right. exists e. split; [done|]. unfold config_free. congruence.
Qed.

(** More fuel than the distance to the commit index changes nothing. *)
Lemma applyLoop_fuel f1 f2 n :
  is_u64 (commitIndex n) ->
  (commitIndex n - lastApplied n <= N.of_nat f1)%N ->
  (commitIndex n - lastApplied n <= N.of_nat f2)%N ->
  applyLoop f1 n = applyLoop f2 n.
Proof.
  assert (forall n, (commitIndex n <= lastApplied n)%N -> applyOne n = (n, false)) as Hstop.
  { intros m Hm. unfold applyOne. by destruct (N.leb_spec (commitIndex m) (lastApplied m)); [|lia]. }
  revert f2 n; induction f1 as [|f1 IH]; intros [|f2] n Hu H1 H2; cbn [applyLoop];
    [done|by rewrite Hstop by lia|by rewrite Hstop by lia|].
  destruct (applyOne n) as [n1 [|]] eqn:E; [|done].
  apply applyOne_cases in E as (_ & Hc & _ & Hlt & Ha & _); [|done].
  apply IH; rewrite ?Hc, ?Ha; [done|lia|lia].
Qed.

(** The loop of the source: [applyCommitted] repeats its body until the body
    returns. *)
Lemma applyCommitted_unfold n :
  is_u64 (commitIndex n) ->
  applyCommitted n =
  match applyOne n with
  | (n', false) => n'
  | (n', true) => applyCommitted n'
  end.
Proof.
  intros Hu. unfold applyCommitted at 1.
  destruct (applyOne n) as [n1 b] eqn:E. pose proof E as E'.
  apply applyOne_cases in E' as (_ & Hc & _ & Hb); [|done].
  rewrite (applyLoop_fuel _ (Datatypes.S (N.to_nat (commitIndex n - lastApplied n)))) by (done || lia).
  cbn [applyLoop]. rewrite E. destruct b; [|done]. destruct Hb as (Hlt & Ha & _).
  apply applyLoop_fuel; rewrite ?Hc, ?Ha; [done|lia|lia].
Qed.

(** Committed entries are handed to the state machine exactly once and in
    index order.  [applyCommitted] moves [LastApplied] forward by some [k], sends
    on the apply channel exactly the entries at the [k] consumed indexes that are
    not configuration entries, never passes the commit index, and stops before
    the commit index only at an index the log does not hold or at a
    configuration entry that could not be applied. *)
Theorem applyCommitted_delivers n :
  is_u64 (commitIndex n) -> (lastApplied n <= commitIndex n)%N ->
  let n' := applyCommitted n in
  exists k,
    log n' = log n /\ commitIndex n' = commitIndex n /\ id n' = id n /\
    lastApplied n' = (lastApplied n + N.of_nat k)%N /\ (lastApplied n' <= commitIndex n)%N /\
    length (entriesBetween (log n) (lastApplied n) k) = k /\
    applyCh n' = applyCh n ++ filter config_free (entriesBetween (log n) (lastApplied n) k) /\
    (lastApplied n' = commitIndex n \/ getLocked (log n) (lastApplied n' + 1) = None \/
     exists e, getLocked (log n) (lastApplied n' + 1) = Some e /\ ~ config_free e).
Proof. intros Hu Hle. apply applyLoop_spec; [done|lia|done]. Qed.

(** ** The commit rule *)

(** An index the leader may commit: its entry is from the leader's current term
    and a quorum of the active membership is known to hold it. *)
Definition committable n (index : LogIndex) : Prop :=
  logTerm n index = currentTerm n /\
  membershipHasQuorum (membership n) (replicated n index) = true.

Lemma advanceOne_spec index c n :
  (advanceOne index (set_commitIndex c n) = set_commitIndex index n /\ committable n index) \/
  (advanceOne index (set_commitIndex c n) = set_commitIndex c n /\ ~ committable n index).
Proof.
  unfold advanceOne, committable.
  change (logTerm (set_commitIndex c n) index) with (logTerm n index).
  change (currentTerm (set_commitIndex c n)) with (currentTerm n).
  change (membership (set_commitIndex c n)) with (membership n).
  change (replicated (set_commitIndex c n) index) with (replicated n index).
  destruct (N.eqb_spec (logTerm n index) (currentTerm n)); cbn [negb]; [|right; naive_solver].
  destruct (membershipHasQuorum _ _); [left|right]; naive_solver.
Qed.

Lemma advanceFrom_spec count index c n :
  is_u64 (index + N.of_nat count)%N -> (c < index)%N ->
  exists c',
    advanceFrom count index (set_commitIndex c n) = set_commitIndex c' n /\
    (c' = c \/ (index <= c' < index + N.of_nat count)%N /\ committable n c') /\
    (forall j, (index <= j < index + N.of_nat count)%N -> committable n j -> (j <= c')%N).
Proof.
  revert index c; induction count as [|count IH]; intros index c Hu Hc; cbn [advanceFrom].
  { exists c. split_and!; [done|by left|]. lia. }
  rewrite u64_add_small by lia.
  destruct (advanceOne_spec index c n) as [[-> Hi]|[-> Hi]].
  - destruct (IH (index + 1)%N index) as (c' & -> & Hc' & Hmax); [lia..|].
    exists c'. split_and!; [done| |].
    + right. destruct Hc' as [->|[? ?]]; split; try done; lia.
    + intros j Hj Hcj. destruct (decide (j = index)) as [->|]; [|apply Hmax; [lia|done]].
      destruct Hc' as [->|[? _]]; lia.
  - destruct (IH (index + 1)%N c) as (c' & -> & Hc' & Hmax); [lia..|].
    exists c'. split_and!; [done| |].
    + destruct Hc' as [->|[? ?]]; [by left|right; split; [lia|done]].
    + intros j Hj Hcj. destruct (decide (j = index)) as [->|]; [done|apply Hmax; [lia|done]].
Qed.

Lemma set_commitIndex_same n : set_commitIndex (commitIndex n) n = n.
Proof. by destruct n as [? [? [] ? ? ? ?]]. Qed.

(** The commit index only moves, and only for a leader. *)
Lemma advanceCommitIndexLocked_set n n' b :
  advanceCommitIndexLocked n = (n', b) -> exists c, n' = set_commitIndex c n.
Proof.
  unfold advanceCommitIndexLocked. case_bool_decide.
  { intros [= <- _]. exists (commitIndex n). by rewrite set_commitIndex_same. }
  assert (forall count index c, exists c',
    advanceFrom count index (set_commitIndex c n) = set_commitIndex c' n) as Hall.
  { induction count as [|count IH]; intros index c; cbn [advanceFrom]; [by eexists|].
    by destruct (advanceOne_spec index c n) as [[-> _]|[-> _]]. }
  intros [= <- _]. destruct (Hall (N.to_nat (lastIndexLocked (log n) - commitIndex n))
    (u64_add (commitIndex n) 1) (commitIndex n)) as [c Hc].
  rewrite set_commitIndex_same in Hc. by exists c.
Qed.

Lemma advanceCommitIndexLocked_spec n :
  is_u64 (lastIndexLocked (log n) + 1)%N -> (commitIndex n <= lastIndexLocked (log n))%N ->
  role n = Leader ->
  exists c,
    advanceCommitIndexLocked n = (set_commitIndex c n, (commitIndex n <? c)%N) /\
    (c = commitIndex n \/ (commitIndex n < c <= lastIndexLocked (log n))%N /\ committable n c) /\
    (forall j, (c < j <= lastIndexLocked (log n))%N -> ~ committable n j).
Proof.
  intros Hu Hle Hr. unfold advanceCommitIndexLocked. rewrite bool_decide_false by naive_solver.
  rewrite u64_add_small by lia.
  destruct (advanceFrom_spec (N.to_nat (lastIndexLocked (log n) - commitIndex n))
              (commitIndex n + 1) (commitIndex n) n) as (c & Hc & Hcases & Hmax); [lia..|].
  rewrite set_commitIndex_same in Hc. rewrite Hc. exists c. split_and!; [done| |].
  - destruct Hcases as [->|[? ?]]; [by left|right; split; [lia|done]].
  - intros j Hj Hcj. pose proof (Hmax j ltac:(destruct Hcases as [->|[? _]]; lia) Hcj). lia.
Qed.

(** C17: the commit rule.  For a leader, [advanceCommitIndexLocked] moves the
    commit index to the largest index above it whose entry is from the current
    term and is held by a quorum (both quorums while in a joint configuration),
    and leaves it where it is when there is none; it reports whether it moved,
    and changes nothing else. *)
Theorem commit_rule n :
  is_u64 (lastIndexLocked (log n) + 1)%N -> (commitIndex n <= lastIndexLocked (log n))%N ->
  role n = Leader ->
  exists c,
    advanceCommitIndexLocked n = (set_commitIndex c n, (commitIndex n <? c)%N) /\
    (c = commitIndex n \/ (commitIndex n < c <= lastIndexLocked (log n))%N /\ committable n c) /\
    (forall j, (c < j <= lastIndexLocked (log n))%N -> ~ committable n j).
Proof. apply advanceCommitIndexLocked_spec. Qed.

End ApplyLemmas.

(** A leader of three with two entries in term 2, the first also on peer b. *)
Definition sample_leader : RaftNode MemoryStorage :=
  mkRaftNode "a"
    (mkState (mkPersistent 2 "a" (mkMembership (mkConfiguration ["a"; "b"; "c"]) None))
       (mkVolatile 0 0) (mkLeaderState ∅ {["b" := 1%N]}) {["a"; "b"]} Leader "a")
    (mkLog [mkLogEntry 1 2 [x00]; mkLogEntry 2 2 [x01]] 0 0)
    NewMemoryStorage true ["b"; "c"] [] None 0 10 false false 0 1 true.

Lemma commit_rule_witness :
  exists c,
    advanceCommitIndexLocked sample_leader = (set_commitIndex c sample_leader, (0 <? c)%N) /\
    (c = 0%N \/ (0 < c <= 2)%N /\ committable sample_leader c) /\
    (forall j, (c < j <= 2)%N -> ~ committable sample_leader j).
Proof. apply (commit_rule sample_leader); [vm_compute; done|vm_compute; done|done]. Defined.

Lemma applyCommitted_delivers_witness :
  exists k, lastApplied (applyCommitted (set_commitIndex 2 sample_leader)) = (0 + N.of_nat k)%N.
Proof.
  destruct (applyCommitted_delivers (set_commitIndex 2 sample_leader))
    as (k & _ & _ & _ & Hk & _); [vm_compute; done|vm_compute; done|].
  exists k. exact Hk.
Defined.
