(* ===== verification/SnapshotOps.v ===== *)
(** Creating, installing and sending snapshots: [internal/raft/node_snapshot.go]. *)

From S2P Require Import Prelude Model RaftLog Storage Membership Node Election Apply.

Section SnapshotOps.
Context {S : Type} `{Storage S}.
Implicit Types n : RaftNode S.

Definition validateSnapshotRequestLocked n (index : LogIndex) : result LogEntry :=
  if (lastApplied n <? index)%N then Err (Msg "cannot snapshot unapplied index")
  else if (commitIndex n <? index)%N then Err (Msg "cannot snapshot uncommitted index")
  else if (index =? 0)%N then Err (Msg "cannot snapshot index 0")
  else match getLocked (log n) index with
       | None => Err (Msg "cannot snapshot missing log index")
       | Some entry => Ok entry
       end.

Definition persistAndCompactSnapshotLocked (snapshot : Snapshot) n : RaftNode S * option error :=
  match st_SaveSnapshot (storage n) snapshot with
  | (s, Some e) => (set_storage s n, Some (Wrap "save snapshot" e))
  | (s, None) =>
      match st_Sync s with
      | (s, Some e) => (set_storage s n, Some (Wrap "sync snapshot" e))
      | (s, None) =>
          match st_Compact s snapshot with
          | (s, Some e) => (set_storage s n, Some (Wrap "compact durable storage after snapshot" e))
          | (s, None) =>
              match Compact (log n) snapshot with
              | Err e => (set_storage s n, Some (Wrap "compact log after snapshot" e))
              | Ok l => (set_log l (set_storage s n), None)
              end
          end
      end
  end.

Definition CreateSnapshot (index : LogIndex) (data : list byte) n : RaftNode S * option error :=
  match validateSnapshotRequestLocked n index with
  | Err e => (n, Some e)
  | Ok entry => persistAndCompactSnapshotLocked (mkSnapshot index (le_Term entry) data) n
  end.

Definition persistSnapshotLocked (snapshot : Snapshot) n : RaftNode S * option error :=
  match st_SaveSnapshot (storage n) snapshot with
  | (s, Some e) => (set_storage s n, Some (Wrap "save installed snapshot" e))
  | (s, None) =>
      match st_Sync s with
      | (s, Some e) => (set_storage s n, Some (Wrap "sync installed snapshot" e))
      | (s, None) => (set_storage s n, None)
      end
  end.

(** The second critical section of [InstallSnapshot], after the state machine
    has been restored. *)
Definition finishInstall (snapshot : Snapshot) n : RaftNode S * bool :=
  match st_Compact (storage n) snapshot with
  | (s, Some _) => (set_storage s n, false)
  | (s, None) =>
      let n := set_storage s n in
      match RestoreSnapshot (log n) snapshot with
      | Err _ => (n, false)
      | Ok l =>
          let n := set_log l n in
          let index := snap_LastIncludedIndex snapshot in
          let n := if (commitIndex n <? index)%N then set_commitIndex index n else n in
          let n := if (lastApplied n <? index)%N then set_lastApplied index n else n in
          (n, true)
      end
  end.

(** [InstallSnapshot] once the term of the request is accepted. *)
Definition installInTerm (args : InstallSnapshotArgs) n : RaftNode S * InstallSnapshotReply :=
  let n := set_electionElapsed 0 (set_leaderID (is_LeaderID args) (set_role Follower n)) in
  let reply := mkInstallSnapshotReply (currentTerm n) (id n) in
  if (is_LastIncludedIndex args <=? lastIncludedIndex (log n))%N then (n, reply true)
  else
    match snapshotRestore n with
    | None => (n, reply false)
    | Some restore =>
        let snapshot :=
          mkSnapshot (is_LastIncludedIndex args) (is_LastIncludedTerm args) (is_Data args) in
        match persistSnapshotLocked snapshot n with
        | (n, Some _) => (n, reply false)
        | (n, None) =>
            match restore snapshot with
            | Some _ => (n, reply false)
            | None => let '(n, ok) := finishInstall snapshot n in (n, reply ok)
            end
        end
    end.

Definition InstallSnapshot (args : InstallSnapshotArgs) n : RaftNode S * InstallSnapshotReply :=
  let reply := mkInstallSnapshotReply (currentTerm n) (id n) false in
  if (is_Term args <? currentTerm n)%N then (n, reply)
  else if (currentTerm n <? is_Term args)%N then
    let persistentState := with_term (is_Term args) (Persistent (state n)) in
    match saveAndSync (storage n) persistentState with
    | (s, Some _) => (set_storage s n, reply)
    | (s, None) => installInTerm args (set_persistent persistentState (set_storage s n))
    end
  else installInTerm args n.

Definition buildInstallSnapshot n (peerID : NodeID) : option InstallSnapshotArgs :=
  if bool_decide (role n ≠ Leader) then None
  else
    match nextIndexOf n peerID with
    | None => None
    | Some nextIndex =>
        match st_LoadSnapshot (storage n) with
        | Err _ => None
        | Ok snapshot =>
            if (snap_LastIncludedIndex snapshot =? 0)%N then None
            else if (snap_LastIncludedIndex snapshot <? nextIndex)%N then None
            else Some (mkInstallSnapshotArgs (currentTerm n) (id n)
                         (snap_LastIncludedIndex snapshot) (snap_LastIncludedTerm snapshot)
                         (snap_Data snapshot))
        end
    end.

Definition handleInstallSnapshotReply
    (peerID : NodeID) (args : InstallSnapshotArgs) (reply : InstallSnapshotReply) n : RaftNode S :=
  if (currentTerm n <? isr_Term reply)%N then fst (adoptTerm (isr_Term reply) n)
  else if bool_decide (role n ≠ Leader) then n
  else if negb (is_Term args =? currentTerm n)%N then n
  else if negb (isr_Success reply) then n
  else
    let index := is_LastIncludedIndex args in
    let n := if (matchIndexOf n peerID <? index)%N then set_matchIndex peerID index n else n in
    let nextIndex := u64_add index 1 in
    let n := if (default 0 (nextIndexOf n peerID) <? nextIndex)%N
             then set_nextIndex peerID nextIndex n else n in
    match advanceCommitIndexLocked n with
    | (n, true) => applyCommitted n
    | (n, false) => n
    end.

Context {W : Type} (T : Transport W).

Definition sendInstallSnapshot (peerID : NodeID) (w : W) n : W * RaftNode S * bool :=
  if negb (transportSet n) then (w, n, false)
  else
    match buildInstallSnapshot n peerID with
    | None => (w, n, false)
    | Some args =>
        match tr_InstallSnapshot T w peerID args with
        | (w, Err _) => (w, n, false)
        | (w, Ok reply) => (w, handleInstallSnapshotReply peerID args reply n, isr_Success reply)
        end
    end.

End SnapshotOps.
