(* ===== verification/Replication.v ===== *)
(** Log replication: [internal/raft/node_replication.go] and
    [node_heartbeat.go]. *)

From S2P Require Import Prelude Model RaftLog Storage Membership ConfigEntry Node Election.
From S2P Require Import Apply SnapshotOps.

Section Replication.
Context {S : Type} `{Storage S}.
Implicit Types n : RaftNode S.

(** The critical section of [Propose]: the entry is durable before it enters
    the in-memory log. *)
Definition proposeLocked (data : list byte) n : RaftNode S * result (LogIndex * bool) :=
  if bool_decide (role n ≠ Leader) then (n, Err (Msg "node is not the leader"))
  else
    let index := u64_add (lastIndexLocked (log n)) 1 in
    let entry := mkLogEntry index (currentTerm n) data in
    match st_AppendEntries (storage n) [entry] with
    | (s, Some e) => (set_storage s n, Err (Wrap "persist proposed entry" e))
    | (s, None) =>
        match st_Sync s with
        | (s, Some e) =>
            let n := set_storage s n in
            if errors_Is e "wal disk full"
            then (stepDownForStorageFailureLocked n, Err (Wrap "storage disk full" e))
            else (n, Err (Wrap "sync proposed entry" e))
        | (s, None) =>
            let n := set_storage s n in
            match Append (log n) entry with
            | Err e => (n, Err (Wrap "append proposed entry to raft log" e))
            | Ok l =>
                let '(n, advanced) := advanceCommitIndexLocked (set_log l n) in
                (n, Ok (index, advanced))
            end
        end
    end.

(** The entries of the loop of [buildAppendEntries]; [None] when one is missing. *)
Fixpoint collectEntries (l : Log) (count : nat) (index : LogIndex) : option (list LogEntry) :=
  match count with
  | O => Some []
  | Datatypes.S count' =>
      match getLocked l index with
      | None => None
      | Some entry =>
          match collectEntries l count' (u64_add index 1) with
          | None => None
          | Some rest => Some (entry :: rest)
          end
      end
  end.

Definition buildAppendEntries n (peerID : NodeID) : option AppendEntriesArgs :=
  if bool_decide (role n ≠ Leader) then None
  else
    match nextIndexOf n peerID with
    | None => None
    | Some nextIndex =>
        match (if (1 <? nextIndex)%N
               then let prevIndex := u64_sub nextIndex 1 in
                    match getLocked (log n) prevIndex with
                    | None => None
                    | Some prevEntry => Some (prevIndex, le_Term prevEntry)
                    end
               else Some (0%N, 0%N)) with
        | None => None
        | Some (prevIndex, prevTerm) =>
            match collectEntries (log n)
                    (N.to_nat (lastIndexLocked (log n) + 1 - nextIndex)) nextIndex with
            | None => None
            | Some es =>
                Some (mkAppendEntriesArgs (currentTerm n) (id n) prevIndex prevTerm es (commitIndex n))
            end
        end
    end.

(** The scan of [reconcileReplicatedEntriesLocked]: the entries from the first
    one that is missing or conflicts, and the index to replace from (0 when the
    entry is missing). *)
Fixpoint firstDifference (l : Log) (es : list LogEntry) : option (list LogEntry * LogIndex) :=
  match es with
  | [] => None
  | entry :: rest =>
      match getLocked l (le_Index entry) with
      | None => Some (entry :: rest, 0%N)
      | Some existing =>
          if negb (le_Term existing =? le_Term entry)%N
          then Some (entry :: rest, le_Index entry)
          else firstDifference l rest
      end
  end.

(** Appending the accepted entries to the in-memory log; entries appended
    before a failing one stay. *)
Fixpoint appendAll (l : Log) (es : list LogEntry) : Log * option error :=
  match es with
  | [] => (l, None)
  | entry :: rest =>
      match Append l entry with
      | Err e => (l, Some (Wrap "append replicated raft entry" e))
      | Ok l' => appendAll l' rest
      end
  end.

Definition reconcileReplicatedEntriesLocked (es : list LogEntry) n : RaftNode S * option error :=
  match firstDifference (log n) es with
  | None => (n, None)
  | Some (newEntries, replaceFrom) =>
      let '(s, err) :=
        if (0 <? replaceFrom)%N then st_ReplaceSuffix (storage n) replaceFrom newEntries
        else st_AppendEntries (storage n) newEntries in
      match err with
      | Some e =>
          (set_storage s n,
           Some (Wrap (if (0 <? replaceFrom)%N then "replace raft log suffix"
                       else "persist replicated raft entries") e))
      | None =>
          match st_Sync s with
          | (s, Some e) =>
              (set_storage s n,
               Some (Wrap (if (0 <? replaceFrom)%N then "sync replaced raft log suffix"
                           else "sync replicated raft entries") e))
          | (s, None) =>
              let n := set_storage s n in
              let l := if (0 <? replaceFrom)%N then truncateFromLocked (log n) replaceFrom
                       else log n in
              let '(l, err) := appendAll l newEntries in
              (set_log l n, err)
          end
      end
  end.

(** [AppendEntries] once the term of the request is accepted. *)
Definition appendInTerm (args : AppendEntriesArgs) n : RaftNode S * AppendEntriesReply :=
  let reply := mkAppendEntriesReply (currentTerm n) (id n) in
  let prevMismatch :=
    if (0 <? ae_PrevLogIndex args)%N
    then match getLocked (log n) (ae_PrevLogIndex args) with
         | None => true
         | Some prevEntry => negb (le_Term prevEntry =? ae_PrevLogTerm args)%N
         end
    else false in
  if prevMismatch then (n, reply false)
  else
    let n := set_electionElapsed 0 (set_leaderID (ae_LeaderID args) (set_role Follower n)) in
    match reconcileReplicatedEntriesLocked (ae_Entries args) n with
    | (n, Some _) => (n, reply false)
    | (n, None) =>
        if (commitIndex n <? ae_LeaderCommit args)%N then
          let lastIndex := lastIndexLocked (log n) in
          let oldCommitIndex := commitIndex n in
          let n := if (ae_LeaderCommit args <? lastIndex)%N
                   then set_commitIndex (ae_LeaderCommit args) n
                   else set_commitIndex lastIndex n in
          if (oldCommitIndex <? commitIndex n)%N then (applyCommitted n, reply true)
          else (n, reply true)
        else (n, reply true)
    end.

Definition AppendEntries (args : AppendEntriesArgs) n : RaftNode S * AppendEntriesReply :=
  let reply := mkAppendEntriesReply (currentTerm n) (id n) false in
  if (ae_Term args <? currentTerm n)%N then (n, reply)
  else if (currentTerm n <? ae_Term args)%N then
    match adoptTerm (ae_Term args) n with
    | (n, false) => (n, reply)
    | (n, true) => appendInTerm args n
    end
  else appendInTerm args n.

Definition handleAppendEntriesReply
    (peerID : NodeID) (args : AppendEntriesArgs) (reply : AppendEntriesReply) n : RaftNode S :=
  if (currentTerm n <? aer_Term reply)%N then fst (adoptTerm (aer_Term reply) n)
  else if bool_decide (role n ≠ Leader) then n
  else if negb (ae_Term args =? currentTerm n)%N then n
  else if negb (aer_Success reply) then
    let nextIndex := default 0%N (nextIndexOf n peerID) in
    if (1 <? nextIndex)%N then set_nextIndex peerID (u64_sub nextIndex 1) n else n
  else
    match last (ae_Entries args) with
    | None => n
    | Some lastEntry =>
        let lastReplicated := le_Index lastEntry in
        let n := if (matchIndexOf n peerID <? lastReplicated)%N
                 then set_nextIndex peerID (u64_add lastReplicated 1)
                        (set_matchIndex peerID lastReplicated n)
                 else n in
        match advanceCommitIndexLocked n with
        | (n, true) => applyCommitted n
        | (n, false) => n
        end
    end.

(** ** The RPC loops *)

Context {W : Type} (T : Transport W).

(** [replicateTo] retries until the peer accepts, the transport fails or
    leadership is lost: the loop has no bound in the source, so it takes fuel
    and yields [None] when the fuel runs out. *)
Fixpoint replicateTo (fuel : nat) (peerID : NodeID) (w : W) n : option (W * RaftNode S) :=
  match fuel with
  | O => None
  | Datatypes.S fuel' =>
      if negb (transportSet n) then Some (w, n)
      else
        match sendInstallSnapshot T peerID w n with
        | (w, n, true) => replicateTo fuel' peerID w n
        | (w, n, false) =>
            match buildAppendEntries n peerID with
            | None => Some (w, n)
            | Some args =>
                match tr_AppendEntries T w peerID args with
                | (w, Err _) => Some (w, n)
                | (w, Ok reply) =>
                    let n := handleAppendEntriesReply peerID args reply n in
                    if aer_Success reply then Some (w, n)
                    else if bool_decide (role n ≠ Leader) then Some (w, n)
                    else replicateTo fuel' peerID w n
                end
            end
        end
  end.

Fixpoint replicateAll (fuel : nat) (peers : list NodeID) (w : W) n : option (W * RaftNode S) :=
  match peers with
  | [] => Some (w, n)
  | peerID :: rest =>
      match replicateTo fuel peerID w n with
      | None => None
      | Some (w, n) => replicateAll fuel rest w n
      end
  end.

Definition Propose (fuel : nat) (data : list byte) (w : W) n
    : option (W * RaftNode S * result LogIndex) :=
  match proposeLocked data n with
  | (n, Err e) => Some (w, n, Err e)
  | (n, Ok (index, advanced)) =>
      let peers := peerIDs n in
      let n := if advanced then applyCommitted n else n in
      if negb (transportSet n) then Some (w, n, Ok index)
      else match replicateAll fuel peers w n with
           | None => None
           | Some (w, n) => Some (w, n, Ok index)
           end
  end.

Definition ProposeConfiguration (fuel : nat) (configuration : Configuration) (w : W) n
    : option (W * RaftNode S * result LogIndex) :=
  match EncodeConfigurationEntry configuration with
  | Err e => Some (w, n, Err (Wrap "encode configuration proposal" e))
  | Ok data => Propose fuel data w n
  end.

Definition heartbeat (fuel : nat) (w : W) n : option (W * RaftNode S) :=
  if bool_decide (role n ≠ Leader) then Some (w, n) else replicateAll fuel (peerIDs n) w n.

(** [Tick] makes the heartbeat itself, and returns whether an election is due. *)
Definition Tick (fuel : nat) (w : W) n : option (W * RaftNode S * bool) :=
  let '(n, (electionDue, heartbeatDue)) := tick n in
  if heartbeatDue
  then match heartbeat fuel w n with
       | None => None
       | Some (w, n) => Some (w, n, electionDue)
       end
  else Some (w, n, electionDue).

Definition sendHeartbeat (peerID : NodeID) (w : W) n : W * RaftNode S :=
  if negb (transportSet n) then (w, n)
  else
    match buildAppendEntries n peerID with
    | None => (w, n)
    | Some args =>
        match ae_Entries args with
        | _ :: _ => (w, n)
        | [] =>
            match tr_AppendEntries T w peerID args with
            | (w, Err _) => (w, n)
            | (w, Ok reply) => (w, handleAppendEntriesReply peerID args reply n)
            end
        end
    end.

End Replication.
