(* ===== verification/WalNode.v ===== *)
(** The Raft node on a write-ahead log: what a node has promised survives a crash
    of its process.

    A node whose storage is a [WALStorage] grants a vote or accepts a proposal;
    later calls write to the log, some of them failing; then the process dies,
    losing any part of the file written after the last sync.  The theorems say
    that the log reopens and still holds the vote, and the entry. *)

From S2P Require Import Prelude Model Bytes RaftLog Storage Membership Node Election.
From S2P Require Import Apply Replication.
From S2P Require Import ConfigEntry WalRecord WalCodec Wal WalFacts.

(** Calls that leave the persistent state alone, and calls that do not remove [e]. *)
Definition keeps_state (op : wal_op) : Prop :=
  match op with OpSaveState _ => False | _ => True end.

Definition keeps_entry (e : LogEntry) (op : wal_op) : Prop :=
  match op with
  | OpReplaceSuffix from _ => (le_Index e < from)%N
  | OpCompact sn => (snap_LastIncludedIndex sn < le_Index e)%N
  | _ => True
  end.

#[local] Opaque json_Marshal json_Unmarshal.

Section WalNode.

(** ** What calls keep *)

Lemma mem_exec_keeps_state m op :
  keeps_state op -> ms_state (fst (mem_exec m op)) = ms_state m.
Proof.
  destruct op; cbn; try done; unfold mem_AppendEntries, mem_ReplaceSuffix, mem_compact_to;
    intros _; repeat case_match; done.
Qed.

Lemma valid_log_increases e es x :
  is_u64 (le_Index e) -> Forall entry_u64 es -> validateEntriesFrom (Some e) es = None ->
  x ∈ es -> (le_Index e < le_Index x)%N.
Proof.
  revert e; induction es as [|a es IH]; intros e He Hu Hv Hx; [by apply not_elem_of_nil in Hx|].
  apply Forall_cons in Hu as [[Hua ?] Hu].
  assert (entriesAfter (le_Index e) (a :: es) = a :: es) as E
    by (apply (entriesAfter_all _ e); [done|lia|by repeat constructor|done]).
  assert (le_Index e < le_Index a)%N as Hlt.
  { cbn in E. destruct (N.ltb_spec (le_Index e) (le_Index a)); [done|].
    pose proof (f_equal length E) as El. cbn in El.
    assert (forall i l, length (entriesAfter i l) <= length l) as Hlen.
    { intros i l. induction l as [|y l IHl]; cbn; [done|]. destruct (_ <? _)%N; cbn; lia. }
    pose proof (Hlen (le_Index e) es). lia. }
  apply elem_of_cons in Hx as [->|Hx]; [done|].
  cbn in Hv. destruct (le_Index a =? 0)%N; [done|]. destruct (negb _); [done|].
  specialize (IH a Hua Hu Hv Hx). lia.
Qed.

Lemma cutFrom_keeps e from prev es :
  Forall entry_u64 es -> validateEntriesFrom prev es = None -> e ∈ es -> (le_Index e < from)%N ->
  e ∈ cutFrom from es.
Proof.
  revert prev; induction es as [|a es IH]; intros prev Hu Hv He Hlt; [done|].
  apply Forall_cons in Hu as [[Hua _] Hu].
  assert (validateEntriesFrom (Some a) es = None) as Hv'.
  { cbn in Hv. destruct (_ =? 0)%N; [done|]. destruct prev; [destruct (negb _)|]; done. }
  cbn. apply elem_of_cons in He as [->|He].
  - rewrite (proj2 (N.leb_gt _ _) Hlt). left.
  - pose proof (valid_log_increases a es e Hua Hu Hv' He).
    rewrite (proj2 (N.leb_gt _ _)) by lia. right. by eapply IH.
Qed.

Lemma mem_exec_keeps_entry e m op :
  view_ok m -> keeps_entry e op -> e ∈ ms_entries m -> e ∈ ms_entries (fst (mem_exec m op)).
Proof.
  intros (_ & Hu & Hv) Hk He. destruct op as [p|es|from es|sn| |sn]; cbn in *; try done.
  - unfold mem_AppendEntries. repeat case_match; try done. apply elem_of_app. by left.
  - unfold mem_ReplaceSuffix. case_match; [done|]. cbn. rewrite keepBefore_cutFrom.
    apply elem_of_app. left. by eapply cutFrom_keeps.
  - unfold mem_compact_to. repeat case_match; try done. cbn. clear -He Hk.
    induction (ms_entries m) as [|x es IH]; cbn in *; [done|]. apply elem_of_cons in He as [->|He].
    + rewrite (proj2 (N.ltb_lt _ _) Hk). by left.
    + destruct (_ <? _)%N; [right|]; auto.
Qed.

(** A property kept by all calls holds of every state a crash can leave. *)
Section Keeps.
Context (P : MemoryStorage -> Prop) (G : wal_op -> Prop).
Hypothesis keeps : forall m op, view_ok m -> G op -> P m -> P (fst (mem_exec m op)).

Lemma wal_exec_keeps w op :
  view_ok (wal_view w) -> G op -> P (wal_view w) -> P (wal_view (fst (wal_exec w op))).
Proof.
  intros Hv Hg Hp. pose proof (wal_exec_acts w op) as L. specialize (keeps _ _ Hv Hg Hp).
  destruct (wal_exec w op) as [w' [e|]]; cbn in *; [by rewrite L|]. by rewrite L in keeps.
Qed.

Lemma state_after_keeps w ops c p :
  view_ok (wal_view w) -> run_admissible w ops -> Forall G ops ->
  c ++ pending_list p `prefix_of` ops -> P (wal_view w) -> P (state_after w c p).
Proof.
  revert w ops; induction c as [|op c IH]; intros w ops Hv Ha Hg [rest ->] Hp; cbn [app] in *.
  - destruct p as [op|]; [|done]. cbn in *. apply Forall_cons in Hg as [Hg _]. by apply keeps.
  - destruct Ha as (Ha & _ & Hrest). apply Forall_cons in Hg as [Hg Hgs].
    apply (IH (fst (wal_exec w op)) ((c ++ pending_list p) ++ rest)); try done.
    + by apply wal_exec_view_ok.
    + by exists rest.
    + by apply wal_exec_keeps.
Qed.

Lemma crash_keeps w ops k :
  wal_inv w -> run_admissible w ops -> Forall G ops -> P (wal_view w) ->
  wal_synced w = length (wal_disk w) ->
  wal_synced (wal_run w ops) <= k <= length (wal_disk (wal_run w ops)) ->
  exists w', OpenWAL [] (take k (wal_disk (wal_run w ops))) = (wal_disk w', Ok w') /\
    wal_inv w' /\ P (wal_view w').
Proof.
  intros Hi Ha Hg Hp Hsync Hk.
  pose proof (crash_images w ops (inv_open w Hi) Hsync Ha) as Hlog.
  destruct (crash_reopens w ops _ (lg_image _ _ _ Hlog k Hk)) as (w' & c & p & Ho & Hpre & Hv & Hi').
  exists w'. split_and!; [done|done|]. rewrite Hv. eapply state_after_keeps; try done. apply Hi.
Qed.

End Keeps.

(** A successful call other than a compaction. *)
Lemma exec_success w op w' :
  wal_inv w -> (forall sn, op ≠ OpCompact sn) -> admissible (wal_view w) op -> wal_exec w op = (w', None) ->
  wal_inv w' /\ mem_exec (wal_view w) op = (wal_view w', None).
Proof.
  intros Hi Hop Ha E. pose proof Hi as [Hal [Hr Hv]]. pose proof (keeps_aligned w op Hal) as Hk.
  pose proof (wal_exec_acts w op) as L. pose proof (wal_exec_view_ok w op Hv Ha) as Hv'. rewrite E in L, Hv'. cbn in L, Hv'.
  split; [|done]. assert (forall t r m, commitRecord t r m w = (w', None) -> aligned w') as Hc.
  { intros t r m. unfold commitRecord. destruct r as [r|]; [|done].
    destruct (appendRecord w r) as [w1 [e|]] eqn:Ea; [done|]. intros [= <-]. pose proof (aligned_keeps _ _ _ _ Hal Ea).
    by apply appendRecord_cases in Ea as (? & _ & _ & _ & Hal1); [|by left|]. }
  assert (aligned w') as Hal'.
  { pose proof Hal as Hf. unfold aligned in Hf. destruct op as [p|es|from es|sn| |sn]; cbn in E; [..|by destruct (Hop sn)].
    - unfold wal_SaveState in E. rewrite Hf in E. by apply Hc in E.
    - unfold wal_AppendEntries in E. rewrite Hf in E. destruct es as [|x es]; [by injection E as <-|].
      destruct (validateEntries _); [done|]. destruct (validateAppend _ _); [done|]. by apply Hc in E.
    - unfold wal_ReplaceSuffix in E. rewrite Hf in E. destruct (validateReplaceSuffix _ _ _); [done|]. by apply Hc in E.
    - unfold wal_SaveSnapshot in E. rewrite Hf in E. by apply Hc in E.
    - unfold wal_Sync in E. rewrite Hf in E. destruct (syscall _) as [[e|] sc]; [done|]. by injection E as <-. }
  split; [done|]. split; [|done].
  destruct (wal_exec_case w op w' None (inv_open w Hi) ltac:(intros sn ->; by destruct (Hop sn)) Ha Hk E)
    as [Hd Hvw _|t p r Ht Hp Hd Hvw _|t p r ad _ _ _ _ _ Hn|Hrep _ [[Hvw _]|[_ Hn]]].
  - by rewrite Hd, Hvw.
  - rewrite Hd, Hvw. eapply replays_app; [done|]. by eapply replays_one.
  - unfold aligned in Hal'. congruence.
  - by rewrite Hvw.
  - unfold aligned in Hal'. congruence.
Qed.

Lemma saveAndSync_inv w p w' :
  wal_inv w -> state_ok p -> saveAndSync w p = (w', None) ->
  wal_inv w' /\ wal_state w' = p /\ wal_synced w' = length (wal_disk w').
Proof.
  intros Hi Hp. unfold saveAndSync. destruct (st_SaveState w p) as [w1 [e|]] eqn:E1; [done|].
  intros E2. pose proof (sync_all _ _ E2) as Hy.
  apply (exec_success w (OpSaveState p)) in E1 as [Hi1 V1]; [|done..].
  apply (exec_success w1 OpSync) in E2 as [Hi2 V2]; [|done..].
  split_and!; [done| |done]. cbn in V1, V2. injection V1 as V1 _ _. injection V2 as V2 _ _. congruence.
Qed.

Lemma voteInCurrentTerm_saved args (n n' : RaftNode WALStorage) reply :
  wal_inv (storage n) -> state_ok (Persistent (state n)) ->
  voteInCurrentTerm args n = (n', reply) -> rvr_VoteGranted reply = true ->
  wal_inv (storage n') /\
  ps_VotedFor (wal_state (storage n')) = rv_CandidateID args /\
  ps_CurrentTerm (wal_state (storage n')) = currentTerm n /\
  wal_synced (storage n') = length (wal_disk (storage n')).
Proof.
  intros Hi Hs. unfold voteInCurrentTerm.
  destruct (negb _); [by intros [= <- <-]|]. destruct (bool_decide _ && _); [by intros [= <- <-]|].
  destruct (negb _); [by intros [= <- <-]|].
  destruct (saveAndSync _ _) as [s [e|]] eqn:E; [by intros [= <- <-]|].
  apply saveAndSync_inv in E as (Hi' & Es & Hy); [|done..]. intros [= <- <-] _. cbn.
  split; [done|]. by rewrite Es.
Qed.

Lemma RequestVote_saved args (n n' : RaftNode WALStorage) reply :
  wal_inv (storage n) -> state_ok (Persistent (state n)) -> is_u64 (rv_Term args) ->
  RequestVote args n = (n', reply) -> rvr_VoteGranted reply = true ->
  wal_inv (storage n') /\
  ps_VotedFor (wal_state (storage n')) = rv_CandidateID args /\
  ps_CurrentTerm (wal_state (storage n')) = rv_Term args /\
  wal_synced (storage n') = length (wal_disk (storage n')).
Proof.
  intros Hi Hs Hu. unfold RequestVote.
  destruct (N.ltb_spec (rv_Term args) (currentTerm n)); [by intros [= <- <-]|].
  destruct (N.ltb_spec (currentTerm n) (rv_Term args)).
  - unfold adoptTerm. destruct (saveAndSync _ _) as [s [e|]] eqn:E; [by intros [= <- <-]|].
    assert (state_ok (with_term (rv_Term args) (Persistent (state n)))) as Hs'
      by (split; [done|apply Hs]).
    apply saveAndSync_inv in E as [Hi' _]; [|done..]. intros E Hg.
    by apply voteInCurrentTerm_saved in E.
  - intros E Hg. apply voteInCurrentTerm_saved in E as (? & ? & Ht & ?); [|done..].
    split_and!; [done..| |done]. rewrite Ht. lia.
Qed.

(** ** Properties *)

(** C11: a granted vote survives a crash.  When a node on a write-ahead log grants
    a vote, and the machine stops after any further calls that do not change term
    or vote, losing any of the bytes that were not synced, the log reopens and still holds the
    term and the vote: the restarted node cannot vote for another candidate. *)
Theorem granted_vote_survives_crash args (n n' : RaftNode WALStorage) reply ops k :
  wal_inv (storage n) -> state_ok (Persistent (state n)) -> is_u64 (rv_Term args) ->
  RequestVote args n = (n', reply) -> rvr_VoteGranted reply = true ->
  run_admissible (storage n') ops -> Forall keeps_state ops ->
  wal_synced (wal_run (storage n') ops) <= k <= length (wal_disk (wal_run (storage n') ops)) ->
  exists w p, OpenWAL [] (take k (wal_disk (wal_run (storage n') ops))) = (wal_disk w, Ok w) /\
    wal_inv w /\ st_LoadState w = Ok p /\
    ps_VotedFor p = rv_CandidateID args /\ ps_CurrentTerm p = rv_Term args.
Proof.
  intros Hi Hs Hu E Hg Ha Hk Hr. apply RequestVote_saved in E as (Hi' & Hvote & Hterm & Hy); [|done..].
  destruct (crash_keeps (fun m => ms_state m = wal_state (storage n')) keeps_state) with
    (w := storage n') (ops := ops) (k := k) as (w & Ho & Hw & Hp); try done.
  - intros m op _ Hop <-. by apply mem_exec_keeps_state.
  - exists w, (wal_state w). split_and!; [done..| | |].
    + cbn. unfold wal_LoadState. destruct Hw as [Hal _]. by rewrite Hal.
    + cbn in Hp. by rewrite Hp.
    + cbn in Hp. by rewrite Hp.
Qed.

(** An accepted proposal survives a crash.  The entry of a successful proposal
    is in the log that is reopened after a crash at any later point, unless a
    suffix replacement reached back to it. *)
Theorem proposed_entry_survives_crash data (n n' : RaftNode WALStorage) index advanced ops k :
  wal_inv (storage n) -> is_u64 (currentTerm n) ->
  proposeLocked data n = (n', Ok (index, advanced)) ->
  let e := mkLogEntry index (currentTerm n) data in
  run_admissible (storage n') ops -> Forall (keeps_entry e) ops ->
  wal_synced (wal_run (storage n') ops) <= k <= length (wal_disk (wal_run (storage n') ops)) ->
  exists w es, OpenWAL [] (take k (wal_disk (wal_run (storage n') ops))) = (wal_disk w, Ok w) /\
    wal_inv w /\ st_LoadEntries w = Ok es /\ e ∈ es.
Proof.
  intros Hi Hu E e Ha Hk Hr.
  assert (wal_inv (storage n') /\ e ∈ wal_entries (storage n') /\
    wal_synced (storage n') = length (wal_disk (storage n'))) as (Hi' & He & Hy).
  { unfold proposeLocked in E. case_bool_decide; [done|].
    destruct (st_AppendEntries _ _) as [s1 [er|]] eqn:E1; [done|].
    destruct (st_Sync s1) as [s2 [er|]] eqn:E2; [by destruct (errors_Is _ _)|].
    destruct (Append _ _) as [l|]; [|done].
    destruct (advanceCommitIndexLocked _) as [n1 adv] eqn:E3.
    apply advanceCommitIndexLocked_set in E3 as [c ->]. injection E as <- <- <-. cbn.
    apply (exec_success (storage n) (OpAppendEntries _)) in E1 as [Hi1 V1]; [|done|done|].
    2: { repeat constructor; [apply u64_add_lt|done]. }
    pose proof (sync_all _ _ E2) as Hy.
    apply (exec_success s1 OpSync) in E2 as [Hi2 V2]; [|done..]. split_and!; [done| |done].
    cbn in V1, V2. injection V2 as _ V2 _. rewrite <- V2.
    destruct (_ =? 0)%N in V1; [done|]. destruct (validateAppend _ _); [done|].
    injection V1 as _ V1 _. rewrite <- V1. apply elem_of_app. right. by left. }
  destruct (crash_keeps (fun m => e ∈ ms_entries m) (keeps_entry e)) with
    (w := storage n') (ops := ops) (k := k) as (w & Ho & Hw & Hp); try done.
  - intros m op. apply mem_exec_keeps_entry.
  - exists w, (wal_entries w). split_and!; try done.
    cbn. unfold wal_LoadEntries. destruct Hw as [Hal _]. by rewrite Hal.
Qed.

End WalNode.

(** ** Witnesses *)


(** Node a with an empty log, over a write-ahead log of the sample calls. *)
Definition wal_node (r : Role) : RaftNode WALStorage :=
  mkRaftNode "a"
    (mkState (mkPersistent 2 "b" sample_voters) (mkVolatile 0 0) (mkLeaderState ∅ ∅) ∅ r "")
    (mkLog [mkLogEntry 1 1 [x07]; mkLogEntry 2 2 []] 0 0) (sample_wal []) true [] [] None 0 10
    false false 0 1 false.

Definition vote_args : RequestVoteArgs := mkRequestVoteArgs 3 "c" 2 2.

(** The vote for c in term 3 is granted; the crash tears the append that follows. *)
Lemma granted_vote_survives_crash_witness :
  let w := storage (fst (RequestVote vote_args (wal_node Follower))) in
  exists w', snd (OpenWAL [] (take 271 (wal_disk (wal_run w [OpAppendEntries [mkLogEntry 3 3 []]])))) = Ok w' /\
    ps_VotedFor (wal_state w') = "c".
Proof.
  destruct (granted_vote_survives_crash vote_args (wal_node Follower)
    (fst (RequestVote vote_args (wal_node Follower))) (snd (RequestVote vote_args (wal_node Follower)))
    [OpAppendEntries [mkLogEntry 3 3 []]] 271) as (w & p & Ho & _ & Hl & Hv & _).
  - apply sample_inv.
  - by_decision.
  - vm_compute. reflexivity.
  - vm_compute. reflexivity.
  - vm_compute. reflexivity.
  - cbn [run_admissible admissible]. split_and!; [by_decision|vm_compute; lia|exact I].
  - repeat constructor.
  - vm_compute. lia.
  - exists w. rewrite Ho. split; [reflexivity|]. cbn in Hl. unfold wal_LoadState in Hl.
    destruct (wal_file w); [|discriminate]. injection Hl as <-. exact Hv.
Defined.

Lemma proposed_entry_survives_crash_witness :
  let w := storage (fst (proposeLocked [x05] (wal_node Leader))) in
  exists w', snd (OpenWAL [] (take 211 (wal_disk (wal_run w [OpSaveState (mkPersistent 9 "" sample_voters)])))) = Ok w' /\
    mkLogEntry 3 2 [x05] ∈ wal_entries w'.
Proof.
  destruct (proposed_entry_survives_crash [x05] (wal_node Leader)
    (fst (proposeLocked [x05] (wal_node Leader))) 3 false
    [OpSaveState (mkPersistent 9 "" sample_voters)] 211) as (w & es & Ho & _ & Hl & He).
  - apply sample_inv.
  - vm_compute. reflexivity.
  - vm_compute. reflexivity.
  - cbn [run_admissible admissible]. split_and!; [by_decision|vm_compute; lia|exact I].
  - repeat constructor.
  - vm_compute. lia.
  - exists w. rewrite Ho. split; [reflexivity|]. cbn in Hl. unfold wal_LoadEntries in Hl.
    destruct (wal_file w); [|discriminate]. injection Hl as <-. exact He.
Defined.
