(* ===== verification/ReplicationFacts.v ===== *)
(** Correctness of log replication on the follower and of durability:
    what an accepted [AppendEntries] does to the log, the commit index and the
    stored entries, and what a restart recovers from the storage. *)

From S2P Require Import Prelude Model RaftLog Storage Membership ConfigEntry Node Election.
From S2P Require Import Apply SnapshotOps Replication.

(** The request is internally consistent: its entries follow [PrevLogIndex]
    without gaps, and indexes do not overflow.  This is what
    [buildAppendEntries] produces. *)
Definition request_wf (args : AppendEntriesArgs) : Prop :=
  contiguous (ae_PrevLogIndex args) (ae_Entries args) /\
  is_u64 (ae_PrevLogIndex args + N.of_nat (length (ae_Entries args)) + 1)%N.

(** The in-memory log that reconciliation leads to. *)
Definition reconciled (l : Log) (es : list LogEntry) : Log :=
  match firstDifference l es with
  | None => l
  | Some (newEntries, replaceFrom) =>
      mkLog ((if (0 <? replaceFrom)%N then cutFrom replaceFrom (entries l) else entries l) ++ newEntries)
        (lastIncludedIndex l) (lastIncludedTerm l)
  end.

Definition term_at (l : Log) (i : LogIndex) : option Term := le_Term <$> getLocked l i.

(** ** The log side *)

Lemma appendAll_spec l es :
  log_wf l -> contiguous (lastIndexLocked l) es ->
  is_u64 (lastIndexLocked l + N.of_nat (length es))%N ->
  appendAll l es = (mkLog (entries l ++ es) (lastIncludedIndex l) (lastIncludedTerm l), None) /\
  log_wf (mkLog (entries l ++ es) (lastIncludedIndex l) (lastIncludedTerm l)).
Proof.
  revert l; induction es as [|e es IH]; intros l Hwf Hc Hu; cbn [appendAll].
  { rewrite app_nil_r. by destruct l. }
  apply contiguous_cons in Hc as [He Hc]. cbn [length] in Hu.
  assert (is_u64 (lastIndexLocked l + 1)%N) as Hu1 by lia.
  pose proof (Append_accepts l e Hu1 He) as Ha. rewrite Ha.
  destruct (Append_ok l e _ Hwf Hu1 Ha) as (_ & _ & Hwf').
  assert (lastIndexLocked (mkLog (entries l ++ [e]) (lastIncludedIndex l) (lastIncludedTerm l))
          = (lastIndexLocked l + 1)%N) as Hl.
  { unfold lastIndexLocked at 1. cbn. rewrite last_snoc. done. }
  destruct (IH (mkLog (entries l ++ [e]) (lastIncludedIndex l) (lastIncludedTerm l)))
    as [-> ?]; rewrite ?Hl; [done|done|lia|].
  cbn in *. rewrite <- app_assoc in *. done.
Qed.

Lemma contiguous_app b es1 es2 :
  contiguous b (es1 ++ es2) <-> contiguous b es1 /\ contiguous (b + N.of_nat (length es1)) es2.
Proof.
  revert b; induction es1 as [|e es IH]; intros b; cbn [app length].
  - rewrite N.add_0_r. split; [split; [apply contiguous_nil|done]|by intros []].
  - rewrite !contiguous_cons, IH.
    replace (b + 1 + N.of_nat (length es))%N with (b + N.of_nat (S (length es)))%N by lia. tauto.
Qed.

(** How the scan splits the entries of a request anchored inside the log. *)
Lemma firstDifference_spec l b es :
  log_wf l -> contiguous b es -> (lastIncludedIndex l <= b <= lastIndexLocked l)%N ->
  match firstDifference l es with
  | None => Forall (fun e => term_at l (le_Index e) = Some (le_Term e)) es
  | Some (newEntries, replaceFrom) =>
      exists pre e0 rest,
        es = pre ++ newEntries /\ newEntries = e0 :: rest /\
        Forall (fun e => term_at l (le_Index e) = Some (le_Term e)) pre /\
        contiguous (le_Index e0 - 1) newEntries /\
        (b + N.of_nat (length pre) = le_Index e0 - 1)%N /\ (b < le_Index e0)%N /\
        ((replaceFrom = 0 /\ le_Index e0 = lastIndexLocked l + 1)%N \/
         (replaceFrom = le_Index e0 /\ le_Index e0 <= lastIndexLocked l)%N /\
         term_at l (le_Index e0) ≠ Some (le_Term e0))
  end.
Proof.
  intros Hwf. revert b; induction es as [|e es IH]; intros b Hc Hb; cbn [firstDifference]; [done|].
  pose proof Hc as Hc'. apply contiguous_cons in Hc as [He Hc].
  destruct (getLocked l (le_Index e)) as [x|] eqn:Hg.
  - assert (le_Index e <= lastIndexLocked l)%N as Hle.
    { eapply (getLocked_range l _ Hwf). by rewrite Hg. }
    destruct (N.eqb_spec (le_Term x) (le_Term e)) as [Ht|Ht]; cbn [negb].
    + assert (term_at l (le_Index e) = Some (le_Term e)) as Hm.
      { unfold term_at. rewrite Hg. cbn. by rewrite Ht. }
      specialize (IH (b + 1)%N Hc). destruct (firstDifference l es) as [[new rf]|].
      * destruct IH as (pre & e0 & rest & -> & -> & Hpre & Hce & Hlen & Hlt & Hcase); [lia|].
        exists (e :: pre), e0, rest. cbn [length].
        split_and!; try done; [by constructor|lia|lia].
      * constructor; [done|]. apply IH. lia.
    + exists [], e, es. cbn [length]. rewrite He in *.
      replace (b + 1 - 1)%N with b by lia. split_and!; try done; try lia.
      right. split; [lia|]. unfold term_at. rewrite Hg. cbn. congruence.
  - exists [], e, es. cbn [length].
    assert (~ (le_Index e <= lastIndexLocked l)%N) as Hgt.
    { intros Hle. assert (is_Some (getLocked l (le_Index e))) as [y Hy]
        by (apply (getLocked_range l _ Hwf); lia). congruence. }
    replace (le_Index e - 1)%N with b by lia. split_and!; try done; try lia.
Qed.

(** Lookups after a bulk append. *)
Lemma getLocked_bulk l es i :
  log_wf l -> log_wf (mkLog (entries l ++ es) (lastIncludedIndex l) (lastIncludedTerm l)) ->
  getLocked (mkLog (entries l ++ es) (lastIncludedIndex l) (lastIncludedTerm l)) i =
  if (i <=? lastIndexLocked l)%N then getLocked l i
  else es !! N.to_nat (i - lastIndexLocked l - 1).
Proof.
  intros Hwf Hwf'. rewrite !getLocked_spec, lastIndexLocked_spec by done. cbn.
  destruct (N.leb_spec i (lastIncludedIndex l + N.of_nat (length (entries l)))).
  - destruct (_ && _); [done|]. destruct (N.ltb_spec (lastIncludedIndex l) i); [|done].
    by rewrite lookup_app_l by lia.
  - destruct (N.eqb_spec i (lastIncludedIndex l)); [lia|]. cbn.
    destruct (N.ltb_spec (lastIncludedIndex l) i); [|lia].
    rewrite lookup_app_r by lia. f_equal. lia.
Qed.

(** The log kept in front of the new entries. *)
Lemma kept_prefix l e0 rf :
  log_wf l -> (lastIncludedIndex l < le_Index e0)%N ->
  ((rf = 0 /\ le_Index e0 = lastIndexLocked l + 1)%N \/
   (rf = le_Index e0 /\ le_Index e0 <= lastIndexLocked l)%N) ->
  let l1 := if (0 <? rf)%N then truncateFromLocked l rf else l in
  log_wf l1 /\ lastIndexLocked l1 = (le_Index e0 - 1)%N /\
  entries l1 = (if (0 <? rf)%N then cutFrom rf (entries l) else entries l) /\
  lastIncludedIndex l1 = lastIncludedIndex l /\ lastIncludedTerm l1 = lastIncludedTerm l /\
  (forall i, (i < le_Index e0)%N -> getLocked l1 i = getLocked l i).
Proof.
  intros Hwf Hb [[-> He]|[-> He]]; cbn zeta.
  - cbn. split_and!; auto. lia.
  - destruct (N.ltb_spec 0 (le_Index e0)); [|lia].
    assert (truncateFromLocked l (le_Index e0) =
      mkLog (cutFrom (le_Index e0) (entries l)) (lastIncludedIndex l) (lastIncludedTerm l)) as Ht.
    { unfold truncateFromLocked. destruct (N.eqb_spec (le_Index e0) 0); [lia|].
      destruct (N.leb_spec (le_Index e0) (lastIncludedIndex l)); [lia|done]. }
    split_and!; [by apply truncate_wf|apply truncate_last; [done|lia]|by rewrite Ht..|].
    intros i Hi. rewrite getLocked_truncate by done. destruct (N.ltb_spec i (le_Index e0)); [done|lia].
Qed.

(** The log [l'] is [l] reconciled with the entries [es] after index [b].  The entries split
    into a first part [pre] on whose terms [l] agrees, and the rest [new], whose first entry
    [l] lacks or has with another term.  When there is no rest, nothing changes; otherwise
    the log is kept up to the end of [pre], continues with [new] and ends there. *)
Definition reconciles (l l' : Log) (b : LogIndex) (es : list LogEntry) : Prop :=
  log_wf l' /\ lastIncludedIndex l' = lastIncludedIndex l /\ lastIncludedTerm l' = lastIncludedTerm l /\
  Forall (fun e => term_at l' (le_Index e) = Some (le_Term e)) es /\
  exists pre new, es = pre ++ new /\
    Forall (fun e => term_at l (le_Index e) = Some (le_Term e)) pre /\
    match new with
    | [] => l' = l
    | e :: _ =>
        term_at l (le_Index e) ≠ Some (le_Term e) /\
        forall i, getLocked l' i =
          if (i <=? b + N.of_nat (length pre))%N then getLocked l i
          else new !! N.to_nat (i - (b + N.of_nat (length pre)) - 1)
    end.

(** Nothing changes up to the previous index. *)
Lemma reconciles_low l l' b es i : reconciles l l' b es -> (i <= b)%N -> getLocked l' i = getLocked l i.
Proof.
  intros (_ & _ & _ & _ & pre & new & _ & _ & Hnew) Hi. destruct new as [|e new]; [by rewrite Hnew|].
  rewrite (proj2 Hnew). destruct (N.leb_spec i (b + N.of_nat (length pre))); [done|lia].
Qed.

Lemma contiguous_position b es e :
  contiguous b es -> e ∈ es -> es !! N.to_nat (le_Index e - b - 1) = Some e /\ (b < le_Index e)%N.
Proof.
  intros Hc [k Hk]%list_elem_of_lookup. pose proof (Hc k e Hk).
  replace (N.to_nat (le_Index e - b - 1)) with k by lia. split; [done|lia].
Qed.

Lemma reconciled_spec l b es :
  log_wf l -> contiguous b es -> (lastIncludedIndex l <= b <= lastIndexLocked l)%N ->
  is_u64 (b + N.of_nat (length es) + 1)%N ->
  reconciles l (reconciled l es) b es.
Proof.
  intros Hwf Hc Hb Hu. pose proof (firstDifference_spec l b es Hwf Hc Hb) as Hd.
  unfold reconciled, reconciles. destruct (firstDifference l es) as [[new rf]|].
  2: { split_and!; auto. exists es, []. by rewrite app_nil_r. }
  destruct Hd as (pre & e0 & rest & -> & Hnew & Hpre & Hcn & Hlen & Hlt & Hcase).
  destruct (kept_prefix l e0 rf) as (Hwf1 & Hlast1 & He1 & Hi1 & Ht1 & Hget1); [done|lia|naive_solver|].
  rewrite <- He1, <- Hi1, <- Ht1. clear He1.
  remember (if (0 <? rf)%N then truncateFromLocked l rf else l) as l1 eqn:El1. clear El1.
  rewrite length_app in Hu.
  destruct (appendAll_spec l1 new) as [_ Hwf2]; [done|by rewrite Hlast1|rewrite Hlast1; lia|].
  assert (forall i, getLocked (mkLog (entries l1 ++ new) (lastIncludedIndex l1) (lastIncludedTerm l1)) i =
    if (i <=? b + N.of_nat (length pre))%N then getLocked l i
    else new !! N.to_nat (i - (b + N.of_nat (length pre)) - 1)) as Hget.
  { intros i. rewrite getLocked_bulk by done. rewrite Hlast1, Hlen.
    destruct (N.leb_spec i (le_Index e0 - 1)); [apply Hget1; lia|done]. }
  split_and!; [done..| |].
  - apply Forall_app. apply contiguous_app in Hc as [Hcp _]. rewrite Forall_forall in Hpre.
    split; apply Forall_forall; intros e He; unfold term_at; rewrite Hget.
    + specialize (Hpre e He). apply list_elem_of_lookup in He as [k Hk]. pose proof (Hcp k e Hk).
      apply lookup_lt_Some in Hk. destruct (N.leb_spec (le_Index e) (b + N.of_nat (length pre))); [done|lia].
    + destruct (contiguous_position _ _ _ Hcn He) as [Hp Hgt].
      destruct (N.leb_spec (le_Index e) (b + N.of_nat (length pre))); [lia|]. by rewrite Hlen, Hp.
  - exists pre, new. split_and!; [done|by apply Forall_forall, Forall_forall|].
    rewrite Hnew in Hget |- *. split; [|done]. destruct Hcase as [[_ He0]|[_ Hterm]]; [|done].
    unfold term_at. assert (getLocked l (le_Index e0) = None) as -> by (apply eq_None_not_Some; rewrite (getLocked_range l _ Hwf); lia).
    done.
Qed.

(** ** The handler *)

Section Facts.
Context {S : Type} `{StorageLaws S}.
Implicit Types n : RaftNode S.

(** The stored entries are the entries of the in-memory log. *)
Definition synced n : Prop :=
  ms_entries (view (storage n)) = entries (log n) /\
  (forall sn, ms_snapshot (view (storage n)) = Some sn ->
     snap_LastIncludedIndex sn <= lastIncludedIndex (log n))%N.

Lemma firstDifference_new l es new rf :
  firstDifference l es = Some (new, rf) -> new ≠ [].
Proof.
  induction es as [|e es IH]; cbn; [done|]. destruct (getLocked l (le_Index e)); [|by intros [= <- _]].
  destruct (negb _); [by intros [= <- _]|done].
Qed.

(** A reconciliation that reports no error has the log [reconciled] and, if log
    and storage agreed before, they agree after. *)
Lemma reconcile_ok b es n n' :
  log_wf (log n) -> contiguous b es ->
  (lastIncludedIndex (log n) <= b <= lastIndexLocked (log n))%N ->
  is_u64 (b + N.of_nat (length es) + 1)%N ->
  reconcileReplicatedEntriesLocked es n = (n', None) ->
  n' = set_log (reconciled (log n) es) (set_storage (storage n') n) /\
  (synced n -> synced n').
Proof.
  intros Hwf Hc Hb Hu. unfold reconcileReplicatedEntriesLocked, reconciled.
  pose proof (firstDifference_spec _ _ _ Hwf Hc Hb) as Hd.
  destruct (firstDifference (log n) es) as [[new rf]|] eqn:Hf.
  2: { intros [= <-]. split; [by destruct n|done]. }
  apply firstDifference_new in Hf.
  destruct Hd as (pre & e0 & rest & -> & Hnew & _ & Hcn & Hlen & Hlt & Hcase).
  destruct (kept_prefix (log n) e0 rf) as (Hwf1 & Hlast1 & He1 & Hi1 & Ht1 & _); [done|lia|naive_solver|].
  rewrite length_app in Hu.
  destruct (if (0 <? rf)%N then st_ReplaceSuffix _ _ _ else _) as [s1 [e|]] eqn:Hst; [done|].
  pose proof (Sync_law s1) as Hy. destruct (st_Sync s1) as [s2 [e|]]; [done|].
  injection Hy as Hy. cbn [log set_storage].
  destruct (appendAll_spec (if (0 <? rf)%N then truncateFromLocked (log n) rf else log n) new)
    as [-> _]; [done|by rewrite Hlast1|rewrite Hlast1; lia|].
  intros [= <-]. rewrite He1, Hi1, Ht1. split; [done|].
  intros [Hs Hsn]. unfold synced. cbn. rewrite <- Hy.
  destruct (0 <? rf)%N.
  - pose proof (ReplaceSuffix_law (storage n) rf new) as Hl. rewrite Hst in Hl.
    cbn in Hl. unfold mem_ReplaceSuffix in Hl.
    destruct (validateReplaceSuffix _ _ _); [done|]. injection Hl as Hl. rewrite <- Hl. cbn.
    by rewrite keepBefore_cutFrom, Hs.
  - pose proof (AppendEntries_law (storage n) new) as Hl. rewrite Hst in Hl.
    cbn in Hl. unfold mem_AppendEntries in Hl. destruct new; [done|].
    destruct (validateEntries _); [done|]. destruct (validateAppend _ _); [done|].
    injection Hl as Hl. rewrite <- Hl. cbn. by rewrite Hs.
Qed.
(** What applying entries leaves alone: the log, the commit index, the term, the
    stored entries and snapshot, and the role and leader of a non-leader. *)
Definition apply_frame n n' : Prop :=
  log n' = log n /\ commitIndex n' = commitIndex n /\ currentTerm n' = currentTerm n /\
  ms_entries (view (storage n')) = ms_entries (view (storage n)) /\
  ms_snapshot (view (storage n')) = ms_snapshot (view (storage n)) /\
  (role n ≠ Leader -> role n' = role n /\ leaderID n' = leaderID n).

#[local] Instance apply_frame_preorder : PreOrder apply_frame.
Proof.
  unfold apply_frame. split; [intros n; naive_solver|]. intros n1 n2 n3 H1 H2.
  destruct_and!. split_and!; try congruence. intros Hr. naive_solver congruence.
Qed.

Lemma save_view s p s' o :
  st_SaveState s p = (s', o) ->
  ms_entries (view s') = ms_entries (view s) /\ ms_snapshot (view s') = ms_snapshot (view s).
Proof.
  intros E. pose proof (SaveState_law s p) as L. rewrite E in L.
  destruct o; cbn in L; [by rewrite L|]. injection L as L. by rewrite <- L.
Qed.

Lemma sync_view s s' o : st_Sync s = (s', o) -> view s' = view s.
Proof.
  intros E. pose proof (Sync_law s) as L. rewrite E in L. destruct o; cbn in L; [done|].
  by injection L as L.
Qed.

Ltac use_storage :=
  repeat match goal with
  | E : st_SaveState _ _ = _ |- _ => apply save_view in E as [? ?]
  | E : st_Sync _ = _ |- _ => apply sync_view in E
  end.

Lemma becomeFollowerLocked_view t n n' o :
  becomeFollowerLocked t n = (n', o) ->
  ms_entries (view (storage n')) = ms_entries (view (storage n)) /\
  ms_snapshot (view (storage n')) = ms_snapshot (view (storage n)) /\
  (currentTerm n' = currentTerm n \/ currentTerm n' = t).
Proof.
  unfold becomeFollowerLocked. intros E. repeat split_hyp_match E; simplify_eq; use_storage; cbn;
    unfold currentTerm; cbn; split_and!; try congruence; auto.
Qed.

Lemma applyConfig_apply_frame e n n' o :
  applyConfigurationEntryLocked e n = (n', o) -> apply_frame n n'.
Proof.
  intros E. pose proof E as E'. apply applyConfig_frame in E' as (Hl & _ & Hv & _).
  unfold apply_frame, commitIndex. rewrite Hl, Hv. split_and!; try done.
  all: unfold applyConfigurationEntryLocked in E; clear Hl Hv.
  all: repeat (split_hyp_match E; simplify_eq; try done); bool_norm;
    repeat match goal with
    | Hf : becomeFollowerLocked _ _ = _ |- _ => apply becomeFollowerLocked_view in Hf as (? & ? & ?)
    end; use_storage; cbn in *; try (destruct_or?; congruence).
  all: unfold role in *; cbn in *; intros; try done; try congruence.
  all: by destruct_or!.
Qed.

Lemma applyOne_apply_frame n n' b : applyOne n = (n', b) -> apply_frame n n'.
Proof.
  unfold applyOne. intros E. repeat (split_hyp_match E; simplify_eq; try done);
    repeat match goal with
    | Hf : applyConfigurationEntryLocked _ _ = _ |- _ => apply applyConfig_apply_frame in Hf
    end; done.
Qed.

Lemma applyCommitted_frame n : apply_frame n (applyCommitted n).
Proof.
  unfold applyCommitted. generalize (N.to_nat (commitIndex n - lastApplied n)). intros fuel.
  revert n; induction fuel as [|fuel IH]; intros n; cbn; [done|].
  destruct (applyOne n) as [n1 []] eqn:E; apply applyOne_apply_frame in E; [|done].
  by transitivity n1.
Qed.

Lemma apply_frame_synced n n' : apply_frame n n' -> synced n -> synced n'.
Proof. intros (Hl & _ & _ & He & Hs & _) [H1 H2]. split; rewrite ?He, ?Hs, ?Hl; done. Qed.

Lemma adoptTerm_cases t n n' b :
  adoptTerm t n = (n', b) ->
  log n' = log n /\ commitIndex n' = commitIndex n /\ id n' = id n /\
  ms_entries (view (storage n')) = ms_entries (view (storage n)) /\
  ms_snapshot (view (storage n')) = ms_snapshot (view (storage n)) /\
  (b = true -> currentTerm n' = t /\ role n' = Follower).
Proof.
  unfold adoptTerm. destruct (saveAndSync _ _) as [s [e|]] eqn:E; intros [= <- <-]; cbn.
  - apply saveAndSync_err in E as [E|E]; rewrite E; split_and!; done.
  - apply saveAndSync_ok in E. rewrite E. split_and!; done.
Qed.

(** The commit index after an accepted request. *)
Definition followerCommit (commit leaderCommit lastIndex : LogIndex) : LogIndex :=
  if (commit <? leaderCommit)%N then N.min leaderCommit lastIndex else commit.

(** What acceptance means. *)
Definition accepted args n n' : Prop :=
  ((0 < ae_PrevLogIndex args)%N -> term_at (log n) (ae_PrevLogIndex args) = Some (ae_PrevLogTerm args)) /\
  reconciles (log n) (log n') (ae_PrevLogIndex args) (ae_Entries args) /\
  commitIndex n' = followerCommit (commitIndex n) (ae_LeaderCommit args) (lastIndexLocked (log n')) /\
  currentTerm n' = ae_Term args /\ role n' = Follower /\ leaderID n' = ae_LeaderID args /\
  (synced n -> synced n').

Lemma prev_check n args :
  (if (0 <? ae_PrevLogIndex args)%N
   then match getLocked (log n) (ae_PrevLogIndex args) with
        | None => true
        | Some prevEntry => negb (le_Term prevEntry =? ae_PrevLogTerm args)%N
        end
   else false) = false ->
  (0 < ae_PrevLogIndex args)%N -> term_at (log n) (ae_PrevLogIndex args) = Some (ae_PrevLogTerm args).
Proof.
  intros Hc Hpos. destruct (N.ltb_spec 0 (ae_PrevLogIndex args)); [|lia]. unfold term_at.
  destruct (getLocked _ _) as [e|]; [|done]. cbn.
  by destruct (N.eqb_spec (le_Term e) (ae_PrevLogTerm args)) as [->|].
Qed.

Lemma prev_in_log n args :
  log_wf (log n) ->
  ((0 < ae_PrevLogIndex args)%N -> term_at (log n) (ae_PrevLogIndex args) = Some (ae_PrevLogTerm args)) ->
  (ae_PrevLogIndex args <= lastIndexLocked (log n))%N.
Proof.
  intros Hwf Hp. destruct (decide (0 < ae_PrevLogIndex args)%N) as [Hpos|]; [|lia].
  assert (is_Some (getLocked (log n) (ae_PrevLogIndex args))) as Hs
    by (apply (fmap_is_Some le_Term); unfold term_at in Hp; rewrite Hp; eauto).
  apply getLocked_range in Hs; [lia|done].
Qed.

Lemma appendInTerm_accepted args n n' reply :
  log_wf (log n) -> request_wf args -> (lastIncludedIndex (log n) <= ae_PrevLogIndex args)%N ->
  currentTerm n = ae_Term args ->
  appendInTerm args n = (n', reply) -> aer_Success reply = true -> accepted args n n'.
Proof.
  intros Hwf [Hc Hu] Hb Ht. unfold appendInTerm.
  destruct (if (0 <? ae_PrevLogIndex args)%N then _ else false) eqn:Hprev; [by intros [= _ <-]|].
  pose proof (prev_check _ _ Hprev) as Hp. pose proof (prev_in_log n args Hwf Hp) as Hlast. clear Hprev.
  destruct (reconcileReplicatedEntriesLocked _ _) as [n2 [e|]] eqn:Hr; [by intros [= _ <-]|].
  apply (reconcile_ok (ae_PrevLogIndex args)) in Hr as [Hn2 Hsync]; [|done..].
  pose proof (reconciled_spec (log n) _ _ Hwf Hc (conj Hb Hlast) Hu) as Hrec.
  assert (log n2 = reconciled (log n) (ae_Entries args) /\ commitIndex n2 = commitIndex n /\
          currentTerm n2 = ae_Term args /\ role n2 = Follower /\ leaderID n2 = ae_LeaderID args)
    as (Hl2 & Hc2 & Ht2 & Hr2 & Hi2) by by rewrite Hn2.
  rewrite <- Hl2 in Hrec. clear Hn2 Hl2. rewrite Hc2.
  set (c := followerCommit (commitIndex n) (ae_LeaderCommit args) (lastIndexLocked (log n2))).
  intros E _. assert (apply_frame (set_commitIndex c n2) n') as Hfr.
  { unfold c, followerCommit. destruct (N.ltb_spec (commitIndex n) (ae_LeaderCommit args)).
    - replace (if (_ <? lastIndexLocked _)%N then _ else _)
        with (set_commitIndex (N.min (ae_LeaderCommit args) (lastIndexLocked (log n2))) n2) in E.
      2: { destruct (N.ltb_spec (ae_LeaderCommit args) (lastIndexLocked (log n2))); do 2 f_equal; lia. }
      destruct (_ <? _)%N; injection E as <- <-; [apply applyCommitted_frame|done].
    - injection E as <- <-. rewrite <- Hc2. by rewrite set_commitIndex_same. }
  pose proof (apply_frame_synced _ _ Hfr) as Hfs.
  destruct Hfr as (Hl & Hcc & Htt & _ & _ & Hrr). destruct Hrr as [Hrole Hlead]; [change (role n2 ≠ Leader); by rewrite Hr2|].
  unfold accepted. rewrite Hl, Hcc, Htt, Hrole, Hlead.
  split_and!; try done. intros Hs. by apply Hfs, Hsync.
Qed.

Lemma AppendEntries_effect args n n' reply :
  log_wf (log n) -> request_wf args -> (lastIncludedIndex (log n) <= ae_PrevLogIndex args)%N ->
  AppendEntries args n = (n', reply) -> aer_Success reply = true -> accepted args n n'.
Proof.
  intros Hwf Hreq Hb. unfold AppendEntries.
  destruct (N.ltb_spec (ae_Term args) (currentTerm n)); [by intros [= _ <-]|].
  destruct (N.ltb_spec (currentTerm n) (ae_Term args)).
  - destruct (adoptTerm (ae_Term args) n) as [n1 [|]] eqn:Ha; [|by intros [= _ <-]].
    apply adoptTerm_cases in Ha as (Hl & Hc & Hid & He & Hs & Ht). destruct Ht as [Ht _]; [done|].
    intros E Hok. rewrite <- Hl in Hwf, Hb.
    pose proof (appendInTerm_accepted args n1 n' reply Hwf Hreq Hb Ht E Hok) as Hacc.
    unfold accepted in *. rewrite Hl, Hc in Hacc.
    destruct Hacc as (Hp & Hr & Hcm & Htm & Hro & Hle & Hsy). split_and!; try done.
    intros Hs1. apply Hsy. unfold synced in *. by rewrite He, Hs, Hl.
  - apply appendInTerm_accepted; try done. lia.
Qed.

(** C12: an accepted [AppendEntries], on a well-formed log whose boundary is not past
    [PrevLogIndex] and with a request of consecutive entries.  The previous entry
    matched; afterwards the log is well formed and agrees in term with every
    entry of the request.  If it agreed before, it is unchanged; otherwise it is
    kept exactly up to the first entry of the request it lacked or had with another
    term, holds the entries of the request from there on, and ends with the
    last of them; the commit index is the smaller of the leader's
    commit index and the last log index when the leader is ahead; the node
    follows the sender in its term; and stored and in-memory entries stay equal. *)
Theorem AppendEntries_accepted args n n' reply :
  log_wf (log n) -> request_wf args -> (lastIncludedIndex (log n) <= ae_PrevLogIndex args)%N ->
  AppendEntries args n = (n', reply) -> aer_Success reply = true -> accepted args n n'.
Proof. apply AppendEntries_effect. Qed.

End Facts.

(** ** Sample states *)

Ltac solve_contiguous := repeat (apply contiguous_cons; split; [done|]); apply contiguous_nil.
Ltac solve_log_wf := split; [cbn; solve_contiguous|vm_compute; done].

(** A node of a three-member cluster in term 2 whose stored and in-memory logs
    hold the given entries. *)
Definition sample_node (nodeID : NodeID) (r : Role) (es : list LogEntry) : RaftNode MemoryStorage :=
  let p := mkPersistent 2 "a" (mkMembership (mkConfiguration ["a"; "b"; "c"]) None) in
  mkRaftNode nodeID
    (mkState p (mkVolatile 1 1) (mkLeaderState {["b" := 3%N]} {["b" := 2%N]}) ∅ r "a")
    (mkLog es 0 0) (mkMemoryStorage p es None)
    true ["b"; "c"] [] None 0 10 false false 0 1 true.

(** Entry 2 of the follower conflicts with the request. *)
Lemma AppendEntries_accepted_witness :
  let n := sample_node "b" Follower [mkLogEntry 1 1 [x00]; mkLogEntry 2 1 [x01]] in
  let args := mkAppendEntriesArgs 2 "a" 1 1 [mkLogEntry 2 2 [x02]; mkLogEntry 3 2 [x03]] 2 in
  accepted args n (fst (AppendEntries args n)).
Proof.
  intros n args. apply (AppendEntries_accepted args n _ (snd (AppendEntries args n))).
  - solve_log_wf.
  - split; [cbn; solve_contiguous|vm_compute; done].
  - vm_compute. done.
  - vm_compute. done.
  - vm_compute. done.
Defined.
