(* ===== verification/Durability.v ===== *)
(** Log and storage: proposals and snapshots keep the stored entries equal to
    the in-memory log, and what [NewRaftNodeWithStorage] recovers from a storage
    after a crash. *)

From S2P Require Import Prelude Model RaftLog Storage Membership ConfigEntry Node Election.
From S2P Require Import Apply SnapshotOps Replication ReplicationFacts.
Import LogSpec.

Section Durability.
Context {S : Type} `{StorageLaws S}.
Implicit Types n : RaftNode S.

(** The storage answers its load calls. *)
Definition readable (s : S) : bool :=
  isOk (st_LoadState s) && isOk (st_LoadEntries s) && isOk (st_LoadSnapshot s).

(** ** Lemmas on the storage calls *)

Lemma append_view s es s' :
  es ≠ [] -> st_AppendEntries s es = (s', None) ->
  view s' = mkMemoryStorage (ms_state (view s)) (ms_entries (view s) ++ es) (ms_snapshot (view s)).
Proof.
  intros Hne E. pose proof (AppendEntries_law s es) as L. rewrite E in L. cbn in L.
  unfold mem_AppendEntries in L. destruct es; [done|].
  destruct (validateEntries _); [done|]. destruct (validateAppend _ _); [done|]. by injection L.
Qed.

Lemma append_err_view s es s' e : st_AppendEntries s es = (s', Some e) -> view s' = view s.
Proof. intros E. pose proof (AppendEntries_law s es) as L. by rewrite E in L. Qed.

Lemma save_snapshot_view s sn s' :
  st_SaveSnapshot s sn = (s', None) ->
  view s' = mkMemoryStorage (ms_state (view s)) (ms_entries (view s)) (Some sn).
Proof. intros E. pose proof (SaveSnapshot_law s sn) as L. rewrite E in L. by injection L. Qed.

Lemma compact_view s sn s' :
  st_Compact s sn = (s', None) ->
  exists o, (o = ms_snapshot (view s) \/ o = Some sn) /\
    view s' = mkMemoryStorage (ms_state (view s))
      (entriesAfter (snap_LastIncludedIndex sn) (ms_entries (view s))) o.
Proof.
  intros E. pose proof (Compact_law s sn) as L. rewrite E in L. cbn in L.
  unfold mem_Compact in L. destruct (_ =? 0)%N; [by destruct L|].
  destruct (ms_snapshot (view s)) as [o|] eqn:Ho; [|by destruct L].
  destruct (negb _); [by destruct L|]. cbn in L.
  destruct L as [_ [L|L]]; eauto.
Qed.

(** ** Recovery *)

Lemma restoreEntries_app l es :
  log_wf l -> contiguous (lastIndexLocked l) es ->
  is_u64 (lastIndexLocked l + N.of_nat (length es))%N ->
  restoreEntries l es = Ok (mkLog (entries l ++ es) (lastIncludedIndex l) (lastIncludedTerm l)).
Proof.
  revert l; induction es as [|e es IH]; intros l Hwf Hc Hu; cbn [restoreEntries].
  { rewrite app_nil_r. by destruct l. }
  apply contiguous_cons in Hc as [He Hc]. cbn [length] in Hu.
  assert (is_u64 (lastIndexLocked l + 1)%N) as Hu1 by lia.
  pose proof (Append_accepts l e Hu1 He) as Ha. rewrite Ha. cbn [wrap_err mbind result_bind].
  destruct (Append_ok l e _ Hwf Hu1 Ha) as (_ & _ & Hwf').
  assert (lastIndexLocked (mkLog (entries l ++ [e]) (lastIncludedIndex l) (lastIncludedTerm l))
          = (lastIndexLocked l + 1)%N) as Hl.
  { unfold lastIndexLocked at 1. cbn. by rewrite last_snoc. }
  rewrite IH; rewrite ?Hl; [|done|done|lia]. cbn. by rewrite <- app_assoc.
Qed.

Lemma readable_loads s :
  readable s = true ->
  st_LoadState s = Ok (ms_state (view s)) /\ st_LoadEntries s = Ok (ms_entries (view s)) /\
  exists sn, st_LoadSnapshot s = Ok sn /\ mem_LoadSnapshot (view s) = Ok sn.
Proof.
  unfold readable. intros Hr. bool_norm.
  destruct (st_LoadState s) as [p|] eqn:E1; [|done].
  destruct (st_LoadEntries s) as [es|] eqn:E2; [|done].
  destruct (st_LoadSnapshot s) as [sn|] eqn:E3; [|done].
  apply LoadState_law in E1 as <-. apply LoadEntries_law in E2 as <-.
  apply LoadSnapshot_law in E3. eauto.
Qed.

(** Crash recovery without compaction.  If log and storage agree and the
    node has never been compacted, restarting from its storage yields the same
    log, the stored term, vote and membership, and a follower with nothing
    applied yet. *)
Theorem restart_recovers n :
  log_wf (log n) -> synced n -> lastIncludedIndex (log n) = 0%N -> lastIncludedTerm (log n) = 0%N ->
  ms_snapshot (view (storage n)) = None -> readable (storage n) = true ->
  exists n', NewRaftNodeWithStorage (id n) (storage n) = Ok n' /\
    log n' = log n /\ Persistent (state n') = ms_state (view (storage n)) /\
    id n' = id n /\ storage n' = storage n /\ role n' = Follower /\ commitIndex n' = 0%N /\ synced n'.
Proof.
  intros Hwf Hsy Hb Hbt Hsn (Hp & He & sn & Hl & Hm)%readable_loads.
  unfold mem_LoadSnapshot in Hm. rewrite Hsn in Hm. injection Hm as <-.
  unfold NewRaftNodeWithStorage. rewrite Hp, He, Hl. cbn [wrap_err mbind result_bind].
  destruct Hwf as [Hc Hu]. rewrite Hb in Hc, Hu. rewrite (proj1 Hsy).
  rewrite restoreEntries_app; [|apply NewLog_wf|done|done]. cbn.
  eexists. split; [done|]. cbn.
  assert (mkLog (entries (log n)) 0 0 = log n) as Hlog by (destruct (log n); cbn in *; by subst).
  rewrite Hlog. split_and!; try done.
Qed.

(** Recovery after compaction fails.  A node that has compacted its log to a
    boundary above 0 and still holds entries after it cannot be restarted from
    its storage: the entries are replayed into an empty log before the boundary
    is restored, and the first one does not have index 1. *)
Theorem restart_after_compaction_fails n :
  log_wf (log n) -> synced n -> (0 < lastIncludedIndex (log n))%N -> entries (log n) ≠ [] ->
  readable (storage n) = true ->
  exists e, NewRaftNodeWithStorage (id n) (storage n) = Err e.
Proof.
  intros [Hc _] [Hs _] Hb Hne (Hp & He & sn & Hl & _)%readable_loads.
  unfold NewRaftNodeWithStorage. rewrite Hp, He, Hl, Hs. cbn [wrap_err mbind result_bind].
  destruct (entries (log n)) as [|e es] eqn:Ee; [done|].
  apply contiguous_cons in Hc as [Hi _]. cbn [restoreEntries]. unfold Append.
  destruct (N.eqb_spec (le_Index e) (u64_add (lastIndexLocked NewLog) 1)) as [E|E].
  - change (u64_add (lastIndexLocked NewLog) 1) with 1%N in E. lia.
  - eauto.
Qed.

(** A restart from a snapshot succeeds exactly when the snapshot covers the whole log, and
    then starts from it. *)
Lemma restart_compacted nodeID n sn :
  log_wf (log n) -> synced n -> ms_snapshot (view (storage n)) = Some sn -> readable (storage n) = true ->
  snap_LastIncludedIndex sn = lastIncludedIndex (log n) -> (0 < lastIncludedIndex (log n))%N ->
  match NewRaftNodeWithStorage nodeID (storage n) with
  | Ok n' => entries (log n) = [] /\ id n' = nodeID /\ storage n' = storage n /\
      log n' = mkLog [] (snap_LastIncludedIndex sn) (snap_LastIncludedTerm sn) /\
      commitIndex n' = snap_LastIncludedIndex sn /\ lastApplied n' = snap_LastIncludedIndex sn
  | Err _ => entries (log n) ≠ []
  end.
Proof.
  intros [Hc _] [Hs _] Hsn (Hp & He & sn' & Hl & Hm)%readable_loads Hi Hb.
  unfold mem_LoadSnapshot in Hm. rewrite Hsn in Hm. injection Hm as <-.
  unfold NewRaftNodeWithStorage. rewrite Hp, He, Hl, Hs. cbn [wrap_err mbind result_bind].
  destruct (entries (log n)) as [|e es] eqn:Ee.
  - cbn [restoreEntries mbind result_bind]. destruct (N.ltb_spec 0 (snap_LastIncludedIndex sn)); [|lia].
    unfold RestoreSnapshot. change (lastIncludedIndex NewLog) with 0%N.
    destruct (N.ltb_spec (snap_LastIncludedIndex sn) 0); [lia|]. destruct (N.eqb_spec (snap_LastIncludedIndex sn) 0); [lia|].
    replace (getLocked NewLog (snap_LastIncludedIndex sn)) with (@None LogEntry)
      by (symmetry; unfold getLocked; cbn [NewLog lastIncludedIndex entries]; by destruct (N.eqb_spec (snap_LastIncludedIndex sn) 0)).
    cbn. split_and!; reflexivity.
  - apply contiguous_cons in Hc as [Hidx _]. cbn [restoreEntries]. unfold Append.
    destruct (N.eqb_spec (le_Index e) (u64_add (lastIndexLocked NewLog) 1)) as [E|E]; [|done].
    change (u64_add (lastIndexLocked NewLog) 1) with 1%N in E. lia.
Qed.

(** ** Proposals *)

(** Proposals are durable before they are visible.  A successful proposal
    appends one entry with the next index and the current term, log and storage
    both end with it, nothing else in the log changes, and the commit index only
    moves forward to an index that the commit rule allows.  A failed one leaves
    log and commit index as they were. *)
Theorem propose_durable data n n' r :
  log_wf (log n) -> is_u64 (lastIndexLocked (log n) + 2)%N ->
  (commitIndex n <= lastIndexLocked (log n))%N ->
  proposeLocked data n = (n', r) ->
  match r with
  | Err _ => log n' = log n /\ commitIndex n' = commitIndex n /\ currentTerm n' = currentTerm n
  | Ok (index, advanced) =>
      role n = Leader /\ index = (lastIndexLocked (log n) + 1)%N /\
      log n' = mkLog (entries (log n) ++ [mkLogEntry index (currentTerm n) data])
                 (lastIncludedIndex (log n)) (lastIncludedTerm (log n)) /\
      log_wf (log n') /\ (synced n -> synced n') /\
      ms_entries (view (storage n')) =
        ms_entries (view (storage n)) ++ [mkLogEntry index (currentTerm n) data] /\
      advanced = (commitIndex n <? commitIndex n')%N /\
      (commitIndex n <= commitIndex n' <= index)%N
  end.
Proof.
  intros Hwf Hu Hcl. unfold proposeLocked. case_bool_decide as Hr; [by intros [= <- <-]|].
  assert (role n = Leader) as Hlead by (destruct (role n); naive_solver). clear Hr.
  rewrite u64_add_small by lia. set (entry := mkLogEntry _ _ _).
  destruct (st_AppendEntries (storage n) [entry]) as [s1 [e|]] eqn:Ea; [by intros [= <- <-]|].
  destruct (st_Sync s1) as [s2 [e|]] eqn:Ey.
  { destruct (errors_Is e "wal disk full"); by intros [= <- <-]. }
  apply append_view in Ea; [|done]. apply sync_view in Ey. cbn [log set_storage].
  assert (Append (log n) entry = Ok (mkLog (entries (log n) ++ [entry])
    (lastIncludedIndex (log n)) (lastIncludedTerm (log n)))) as HA
    by (apply Append_accepts; [lia|done]).
  rewrite HA. apply Append_ok in HA as (_ & _ & Hwf'); [|done|lia].
  set (n1 := set_log _ (set_storage s2 n)) in *.
  assert (lastIndexLocked (log n1) = (lastIndexLocked (log n) + 1)%N) as Hl1.
  { unfold n1, lastIndexLocked at 1. cbn. by rewrite last_snoc. }
  destruct (advanceCommitIndexLocked_spec n1) as (c & -> & Hc & _); [rewrite Hl1; lia| |done|].
  { rewrite Hl1. change (commitIndex n1) with (commitIndex n). lia. }
  intros [= <- <-]. change (commitIndex (set_commitIndex c n1)) with c.
  change (commitIndex n1) with (commitIndex n) in *. rewrite Hl1 in Hc.
  assert (commitIndex n <= c <= lastIndexLocked (log n) + 1)%N by (destruct Hc as [->|[? _]]; lia).
  cbn. rewrite Ey, Ea. cbn. split_and!; try done; try lia.
  intros [Hs1 Hs2]. split; cbn; rewrite Ey, Ea; cbn; [by rewrite Hs1|done].
Qed.

(** ** Snapshots *)

(** What a successful [CreateSnapshot] does. *)
Lemma CreateSnapshot_ok index data n n' :
  log_wf (log n) -> synced n ->
  CreateSnapshot index data n = (n', None) ->
  (0 < index <= lastApplied n)%N /\ (index <= commitIndex n)%N /\
  log_wf (log n') /\ synced n' /\
  lastIncludedIndex (log n') = index /\
  Some (lastIncludedTerm (log n')) = term_at (log n) index /\
  lastIndexLocked (log n') = lastIndexLocked (log n) /\
  ms_snapshot (view (storage n')) = Some (mkSnapshot index (lastIncludedTerm (log n')) data) /\
  (forall i, (index < i)%N -> getLocked (log n') i = getLocked (log n) i).
Proof.
  intros Hwf [Hs1 Hs2]. unfold CreateSnapshot, validateSnapshotRequestLocked.
  destruct (N.ltb_spec (lastApplied n) index); [done|].
  destruct (N.ltb_spec (commitIndex n) index); [done|].
  destruct (N.eqb_spec index 0); [done|].
  destruct (getLocked (log n) index) as [entry|] eqn:Hg; [|done].
  unfold persistAndCompactSnapshotLocked. set (sn := mkSnapshot _ _ _).
  destruct (st_SaveSnapshot (storage n) sn) as [s1 [e|]] eqn:E1; [done|].
  destruct (st_Sync s1) as [s2 [e|]] eqn:E2; [done|].
  destruct (st_Compact s2 sn) as [s3 [e|]] eqn:E3; [done|].
  destruct (Compact (log n) sn) as [l'|] eqn:E4; [|done].
  apply save_snapshot_view in E1. apply sync_view in E2. apply compact_view in E3 as (o & Ho & E3).
  rewrite E2, E1 in Ho, E3. cbn in Ho, E3. assert (o = Some sn) as -> by tauto. clear Ho. intros [= <-]. cbn. rewrite E3. cbn.
  apply Compact_ok in E4 as [Hrange Hcase]; [|done]. cbn in Hrange, Hcase.
  destruct Hcase as [(-> & Hi & Ht)|[-> Ht]].
  - unfold synced, term_at. cbn. rewrite E3. cbn. rewrite Hg, Hs1. cbn.
    rewrite (entriesAfter_ge _ _ _ (proj1 Hwf)) by lia.
    split_and!; try done; try lia; try congruence; [intros x [= <-]; cbn; lia|].
    unfold sn. by rewrite Ht.
  - destruct (keep_wf (log n) index (le_Term entry) Hwf Hrange) as [Hwf' Hden].
    unfold synced, term_at. cbn. rewrite E3. cbn. rewrite Hg, Hs1. cbn.
    split_and!; try done; try lia.
    + intros x [= <-]. cbn. lia.
    + rewrite (lastIndexLocked_denote _ Hwf'), Hden, (lastIndexLocked_spec _ Hwf).
      rewrite lastIndexLocked_spec in Hrange by done.
      unfold alast, akeep. cbn. rewrite length_drop, length_fmap. lia.
    + intros i Hi. by apply getLocked_keep.
Qed.

(** Creating a snapshot at an applied index keeps log and storage equal,
    moves the boundary to that index with the term of its entry, stores the
    snapshot, and keeps every entry after it. *)
Theorem create_snapshot_compacts index data n n' :
  log_wf (log n) -> synced n ->
  CreateSnapshot index data n = (n', None) ->
  (0 < index <= lastApplied n)%N /\ (index <= commitIndex n)%N /\
  log_wf (log n') /\ synced n' /\
  lastIncludedIndex (log n') = index /\
  Some (lastIncludedTerm (log n')) = term_at (log n) index /\
  lastIndexLocked (log n') = lastIndexLocked (log n) /\
  ms_snapshot (view (storage n')) = Some (mkSnapshot index (lastIncludedTerm (log n')) data) /\
  (forall i, (index < i)%N -> getLocked (log n') i = getLocked (log n) i).
Proof. apply CreateSnapshot_ok. Qed.

End Durability.

(** ** Witnesses *)

Definition two_entries : list LogEntry := [mkLogEntry 1 1 [x00]; mkLogEntry 2 2 [x01]].

Lemma sample_synced r : synced (sample_node "b" r two_entries).
Proof. by split. Qed.

Lemma restart_recovers_witness :
  exists n', NewRaftNodeWithStorage "b" (storage (sample_node "b" Follower two_entries)) = Ok n' /\
    entries (log n') = two_entries /\ synced n'.
Proof.
  destruct (restart_recovers (sample_node "b" Follower two_entries))
    as (n' & E & Hl & _ & _ & _ & _ & _ & Hs); [solve_log_wf|apply sample_synced|done..|].
  exists n'. split_and!; [exact E|by rewrite Hl|exact Hs].
Defined.

(** The sample node after compacting its log to index 1. *)
Definition compacted_node : RaftNode MemoryStorage :=
  fst (CreateSnapshot 1 [x07] (sample_node "b" Follower two_entries)).

Lemma restart_after_compaction_fails_witness :
  exists e, NewRaftNodeWithStorage "b" (storage compacted_node) = Err e.
Proof.
  apply (restart_after_compaction_fails compacted_node).
  - solve_log_wf.
  - split; [done|]. cbn. by intros sn [= <-].
  - done.
  - done.
  - done.
Defined.

Lemma propose_durable_witness :
  let n := sample_node "a" Leader two_entries in
  exists n', proposeLocked [x05] n = (n', Ok (3%N, true)) /\
    ms_entries (view (storage n')) = two_entries ++ [mkLogEntry 3 2 [x05]].
Proof.
  intros n. destruct (proposeLocked [x05] n) as [n' r] eqn:E.
  assert (r = Ok (3%N, true)) as -> by (vm_compute in E; congruence).
  exists n'. split; [done|].
  destruct (propose_durable [x05] n n' (Ok (3%N, true))) as (_ & _ & _ & _ & _ & Hv & _);
    [solve_log_wf|vm_compute; done|vm_compute; done|exact E|exact Hv].
Defined.

Lemma create_snapshot_compacts_witness :
  synced compacted_node /\ lastIncludedIndex (log compacted_node) = 1%N.
Proof.
  destruct (create_snapshot_compacts 1 [x07] (sample_node "b" Follower two_entries) compacted_node)
    as (_ & _ & _ & Hs & Hi & _); [solve_log_wf|apply sample_synced|done|].
  split; [exact Hs|exact Hi].
Defined.
