(* ===== verification/ElectionFacts.v ===== *)
(** The election functions of one node: exactly when a vote is granted, what a
    granted pre-vote predicts, and when the collected votes make a leader.  The election in a
    cluster of nodes is in [ElectionWins.v]. *)

From S2P Require Import Prelude Model RaftLog Storage Membership Node Election.

(** The candidate's log is at least as recent as the log [l]. *)
Definition at_least_as_recent (l : Log) (lastLogIndex : LogIndex) (lastLogTerm : Term) : Prop :=
  (lastTermLocked l < lastLogTerm)%N \/
  lastLogTerm = lastTermLocked l /\ (lastIndexLocked l <= lastLogIndex)%N.

Lemma membershipHasQuorum_mono m votes1 votes2 :
  votes1 ⊆ votes2 -> membershipHasQuorum m votes1 = true -> membershipHasQuorum m votes2 = true.
Proof.
  unfold membershipHasQuorum. intros Hs. destruct (mem_Joint m).
  - rewrite !andb_true_iff. intros []. split; by eapply configurationHasQuorum_mono.
  - by apply configurationHasQuorum_mono.
Qed.

Section Facts.
Context {S : Type} `{Storage S}.
Implicit Types n : RaftNode S.

(** The storage saves these states, one after the other. *)
Fixpoint persists (ps : list PersistentState) (s : S) : Prop :=
  match ps with
  | [] => True
  | p :: ps => exists s', saveAndSync s p = (s', None) /\ persists ps s'
  end.

(** What [RequestVote] saves to grant a vote. *)
Definition vote_writes (args : RequestVoteArgs) n : list PersistentState :=
  let p := Persistent (state n) in
  if (currentTerm n <? rv_Term args)%N
  then [with_term (rv_Term args) p; with_vote (rv_CandidateID args) (with_term (rv_Term args) p)]
  else [with_vote (rv_CandidateID args) p].

Lemma isCandidateLogUpToDate_spec n i t :
  isCandidateLogUpToDate n i t = true <-> at_least_as_recent (log n) i t.
Proof.
  unfold isCandidateLogUpToDate, at_least_as_recent.
  destruct (N.eqb_spec t (lastTermLocked (log n))) as [->|]; cbn [negb].
  - rewrite N.leb_le. split; [auto|]. intros [?|[]]; [lia|done].
  - rewrite N.ltb_lt. naive_solver.
Qed.

Lemma voteInCurrentTerm_iff args n :
  persists [with_vote (rv_CandidateID args) (Persistent (state n))] (storage n) ->
  rvr_VoteGranted (snd (voteInCurrentTerm args n)) = true <->
  membershipIsVoter (membership n) (rv_CandidateID args) = true /\
  (votedFor n = "" \/ votedFor n = rv_CandidateID args) /\
  at_least_as_recent (log n) (rv_LastLogIndex args) (rv_LastLogTerm args).
Proof.
  intros (s & Hs & _). unfold voteInCurrentTerm. rewrite <- isCandidateLogUpToDate_spec.
  destruct (membershipIsVoter _ _); cbn [negb]; [|naive_solver].
  destruct (bool_decide (votedFor n ≠ "") && _) eqn:Hv.
  { bool_norm. naive_solver. }
  apply andb_false_iff in Hv.
  destruct (isCandidateLogUpToDate _ _ _); cbn [negb]; [|naive_solver].
  rewrite Hs. cbn. split; [|done]. intros _. split_and!; try done.
  destruct Hv as [Hv|Hv]; case_bool_decide; try done; auto.
Qed.

(** When a vote is granted.  With a storage that saves the term and the vote, [RequestVote] grants
    exactly to a voter of the membership, in a term not below the node's, if the
    node has not voted for another candidate in that term, and the candidate's
    log is at least as recent as the node's. *)
Theorem vote_granted_iff args n :
  persists (vote_writes args n) (storage n) ->
  rvr_VoteGranted (snd (RequestVote args n)) = true <->
  (currentTerm n <= rv_Term args)%N /\
  membershipIsVoter (membership n) (rv_CandidateID args) = true /\
  ((currentTerm n < rv_Term args)%N \/ votedFor n = "" \/ votedFor n = rv_CandidateID args) /\
  at_least_as_recent (log n) (rv_LastLogIndex args) (rv_LastLogTerm args).
Proof.
  unfold vote_writes. intros Hf. unfold RequestVote. destruct (N.ltb_spec (rv_Term args) (currentTerm n)).
  { cbn. split; [done|lia]. }
  destruct (N.ltb_spec (currentTerm n) (rv_Term args)).
  - destruct Hf as (s & Hs & Hf). unfold adoptTerm. rewrite Hs, voteInCurrentTerm_iff by exact Hf. cbn. naive_solver.
  - rewrite voteInCurrentTerm_iff by exact Hf. split; [|naive_solver lia]. intros (? & ? & ?).
    split_and!; auto.
Qed.

(** The vote a pre-vote asks about. *)
Definition forecast (args : PreVoteArgs) : RequestVoteArgs :=
  mkRequestVoteArgs (pv_Term args) (pv_CandidateID args) (pv_LastLogIndex args) (pv_LastLogTerm args).

(** A pre-vote is an honest forecast.  If a node grants a pre-vote for a term
    above its own and its storage saves the term and the vote, it then grants the vote
    requested in that term with the same candidate and log position. *)
Theorem prevote_predicts_vote args n :
  persists (vote_writes (forecast args) n) (storage n) -> (currentTerm n < pv_Term args)%N ->
  pvr_VoteGranted (PreVote args n) = true ->
  rvr_VoteGranted (snd (RequestVote (forecast args) n)) = true.
Proof.
  intros Hf Ht Hp. apply vote_granted_iff; [done|]. cbn. unfold PreVote in Hp.
  case_bool_decide; [done|]. destruct (membershipIsVoter _ _) eqn:Hm; [|done]. cbn [negb] in Hp.
  destruct (N.ltb_spec (pv_Term args) (currentTerm n)); [lia|].
  destruct (bool_decide (leaderID n ≠ "") && _); [done|].
  destruct (isCandidateLogUpToDate _ _ _) eqn:Hl; [|done]. apply isCandidateLogUpToDate_spec in Hl.
  split_and!; [lia|done|by left|done].
Qed.

(** The terms in the replies to a vote request. *)
Lemma RequestVote_reply_term args n :
  (currentTerm n <= rv_Term args)%N -> (rvr_Term (snd (RequestVote args n)) <= rv_Term args)%N.
Proof.
  intros Hle. unfold RequestVote, adoptTerm, voteInCurrentTerm.
  repeat first [case_match; simplify_eq|progress cbn]; try lia.
Qed.

(** ** Winning an election *)

(** The answers to one election: [waiting ps w] holds in a world in which the peers [ps] have
    yet to be asked for their vote.  Those in [granters] grant the pre-vote and then the vote,
    and no reply to the vote request has a later term. *)
Context {W : Type} (T : Transport W) (granters : gset NodeID).
Record supported (pre : PreVoteArgs) (req : RequestVoteArgs) (waiting : list NodeID -> W -> Prop) : Prop := {
  su_prevote ps w p w' r : waiting ps w -> p ∈ ps -> tr_PreVote T w p pre = (w', r) ->
    waiting ps w' /\ (p ∈ granters -> exists t, r = Ok (mkPreVoteReply t p true));
  su_vote ps w p w' r : waiting (p :: ps) w -> tr_RequestVote T w p req = (w', r) ->
    waiting ps w' /\ (p ∈ granters -> r = Ok (mkRequestVoteReply (rv_Term req) p true)) /\
    (forall reply, r = Ok reply -> (rvr_Term reply <= rv_Term req)%N);
}.

Lemma preVotesFrom_wins m pre req waiting ps peers granted w :
  supported pre req waiting -> waiting ps w -> peers ⊆ ps ->
  membershipHasQuorum m granted = false ->
  membershipHasQuorum m (granted ∪ (granters ∩ list_to_set peers)) = true ->
  exists w', preVotesFrom T m peers pre granted w = (w', true) /\ waiting ps w'.
Proof.
  intros Hsup. revert granted w.
  induction peers as [|p peers IH]; intros granted w Hw Hsub Hno Hq; cbn [preVotesFrom].
  { cbn in Hq. replace (granted ∪ granters ∩ ∅) with granted in Hq by set_solver. congruence. }
  assert (p ∉ granters -> membershipHasQuorum m (granted ∪ (granters ∩ list_to_set peers)) = true) as Hskip.
  { intros Hp. eapply membershipHasQuorum_mono; [|exact Hq]. cbn. set_solver. }
  destruct (tr_PreVote T w p pre) as [w1 r] eqn:E.
  destruct (su_prevote _ _ _ Hsup ps w p w1 r Hw ltac:(set_solver) E) as [Hw1 Hgrant].
  assert (peers ⊆ ps) as Hsub' by set_solver.
  destruct r as [r|e].
  2: { apply IH; [done..|]. apply Hskip. intros Hp. by destruct (Hgrant Hp). }
  destruct (pvr_VoteGranted r) eqn:Hg; cbn [negb].
  - destruct (membershipHasQuorum m ({[p]} ∪ granted)) eqn:Hq1; [by eexists|].
    apply IH; [done..|]. eapply membershipHasQuorum_mono; [|exact Hq]. cbn. set_solver.
  - apply IH; [done..|]. apply Hskip. intros Hp. destruct (Hgrant Hp) as [t [= ->]]. done.
Qed.

(** A reply with no higher term can only add votes. *)
Lemma handleVoteReply_low t r n :
  (rvr_Term r <= currentTerm n)%N ->
  exists vs, votes n ⊆ vs /\ handleVoteReply t r n = set_votes vs n.
Proof.
  intros Hle. unfold handleVoteReply. destruct (N.ltb_spec (currentTerm n) (rvr_Term r)); [lia|].
  assert (exists vs, votes n ⊆ vs /\ n = set_votes vs n) as Hsame.
  { exists (votes n). split; [done|]. by destruct n as [? []]. }
  case_bool_decide; [done|]. do 4 (destruct (negb _); [done|]). case_bool_decide; [done|].
  eexists. split; [|done]. set_solver.
Qed.

(** Collecting votes only adds votes, among them those of all granters asked. *)
Lemma requestVotesFrom_collects pre req waiting peers w n :
  supported pre req waiting -> waiting peers w -> role n = Candidate -> currentTerm n = rv_Term req ->
  (forall p, p ∈ granters -> membershipIsVoter (membership n) p = true) ->
  exists vs, snd (requestVotesFrom T peers req w n) = set_votes vs n /\
    votes n ∪ (granters ∩ list_to_set peers) ⊆ vs.
Proof.
  intros Hsup. revert w n.
  induction peers as [|p peers IH]; intros w n Hw Hr Ht Hm; cbn [requestVotesFrom].
  { exists (votes n). split; [by destruct n as [? []]|]. cbn. set_solver. }
  destruct (tr_RequestVote T w p req) as [w1 r] eqn:E.
  destruct (su_vote _ _ _ Hsup peers w p w1 r Hw E) as (Hw1 & Hgrant & Hterm).
  destruct r as [r|e].
  2: { destruct (IH w1 n Hw1 Hr Ht Hm) as (vs & -> & Hs). exists vs. split; [done|].
       assert (p ∉ granters) as Hp by (intros Hp; by specialize (Hgrant Hp)).
       clear -Hp Hs. set_solver. }
  assert (exists vs, handleVoteReply (rv_Term req) r n = set_votes vs n /\ votes n ⊆ vs /\
    (p ∈ granters -> p ∈ vs)) as (vs1 & -> & Hs1 & Hp1).
  { destruct (handleVoteReply_low (rv_Term req) r n) as (vs & Hvs & Heq);
      [specialize (Hterm _ eq_refl); lia|].
    exists vs. split_and!; [done..|]. intros Hp. specialize (Hgrant Hp). injection Hgrant as ->.
    assert (p ∈ votes (handleVoteReply (rv_Term req) (mkRequestVoteReply (rv_Term req) p true) n)) as Hin.
    { unfold handleVoteReply. cbn [rvr_Term rvr_VoteGranted rvr_VoterID].
      rewrite Ht, !N.eqb_refl, N.ltb_irrefl, (Hm p Hp). rewrite bool_decide_false by (by intros Hx; apply Hx).
      cbn. case_bool_decide; [done|]. change (p ∈ ({[p]} ∪ votes n)). clear. set_solver. }
    by rewrite Heq in Hin. }
  destruct (IH w1 (set_votes vs1 n)) as (vs & -> & Hs); [done..|].
  exists vs. split; [done|]. change (votes (set_votes vs1 n)) with vs1 in Hs.
  clear -Hs Hs1 Hp1. set_solver.
Qed.

(** Taking the leadership changes the role, the leader, the timers and the
    replication state. *)
Lemma becomeLeaderLocked_frame n :
  exists ls, becomeLeaderLocked n = set_leaderSt ls
    (set_heartbeatElapsed 0 (set_electionElapsed 0 (set_leaderID (id n) (set_role Leader n)))).
Proof.
  unfold becomeLeaderLocked. cbn zeta. set (n1 := set_heartbeatElapsed _ _).
  generalize (peerIDs n1). intros ps.
  assert (forall k, exists ls, fold_left (fun n p => initializeReplicationStateLocked p n) ps k
                      = set_leaderSt ls k) as Hall.
  { induction ps as [|p ps IH]; intros k; cbn.
    - exists (LeaderSt (state k)). by destruct k as [? []].
    - destruct (IH (initializeReplicationStateLocked p k)) as [ls ->]. by exists ls. }
  apply Hall.
Qed.

(** The two requests of an election of [n], and the state it saves. *)
Definition pre_request n : PreVoteArgs :=
  mkPreVoteArgs (u64_add (currentTerm n) 1) (id n) (lastIndexLocked (log n)) (lastTermLocked (log n)).
Definition vote_request n : RequestVoteArgs :=
  mkRequestVoteArgs (u64_add (currentTerm n) 1) (id n) (lastIndexLocked (log n)) (lastTermLocked (log n)).
Definition candidate_state n : PersistentState := mkPersistent (u64_add (currentTerm n) 1) (id n) (membership n).

(** A voter that is supported by a quorum becomes leader. *)
Lemma supported_wins w n waiting :
  supported (pre_request n) (vote_request n) waiting -> waiting (peerIDs n) w ->
  persists [candidate_state n] (storage n) ->
  membershipIsVoter (membership n) (id n) = true ->
  (forall p, p ∈ granters -> membershipIsVoter (membership n) p = true) ->
  membershipHasQuorum (membership n) ({[id n]} ∪ (granters ∩ list_to_set (peerIDs n))) = true ->
  storageWriteBlocked n = false -> transportSet n = true -> role n ≠ Leader ->
  leaderID n = "" \/ (electionTimeout n <= electionElapsed n)%Z ->
  is_u64 (currentTerm n + 1)%N ->
  let n' := snd (runElection T w n) in
  role n' = Leader /\ currentTerm n' = (currentTerm n + 1)%N /\ votedFor n' = id n /\
  leaderID n' = id n.
Proof.
  intros Hsup Hwait (s & Hs & _) Hself Hg Hq Hb Htr Hnl Hlead Hu. cbn zeta. unfold runElection. rewrite Hb.
  assert (exists w1, runPreVote T w n = (w1, true) /\ waiting (peerIDs n) w1) as (w1 & -> & Hw1).
  { unfold runPreVote. rewrite Hself, Htr. cbn.
    destruct (membershipHasQuorum (membership n) {[id n]}) eqn:H1; [by eexists|].
    by eapply preVotesFrom_wins. }
  rewrite bool_decide_false by done.
  replace (bool_decide (leaderID n ≠ "") && _) with false.
  2: { symmetry. apply andb_false_iff. destruct Hlead as [->|?]; [by left|right]. by apply Z.ltb_ge. }
  unfold startElection. rewrite Hself, Hb. cbn [negb].
  change (mkPersistent _ _ _) with (candidate_state n). rewrite Hs.
  set (n1 := set_votes _ _). unfold requestVotes, voteRequest.
  change (role n1) with Candidate. change (membership n1) with (membership n). change (id n1) with (id n).
  rewrite (bool_decide_false (Candidate ≠ Candidate)) by (intros []; done).
  rewrite Hself. cbn [negb orb]. change (transportSet n1) with (transportSet n). rewrite Htr. cbn [negb].
  change (mkRequestVoteArgs _ _ _ _) with (vote_request n).
  destruct (requestVotesFrom_collects (pre_request n) (vote_request n) waiting (peerIDs n1) w1 n1)
    as (vs & Hn2 & Hvs); [done..|].
  destruct (requestVotesFrom _ _ _ _ n1) as [w2 n2]. cbn in Hn2. subst n2. cbn [snd].
  unfold tryBecomeLeader. change (role (set_votes vs n1)) with Candidate.
  rewrite (bool_decide_false (Candidate ≠ Candidate)) by (intros []; done).
  change (membership (set_votes vs n1)) with (membership n). change (votes (set_votes vs n1)) with vs.
  rewrite (membershipHasQuorum_mono _ _ _ Hvs Hq). cbn [negb fst].
  destruct (becomeLeaderLocked_frame (set_votes vs n1)) as [ls ->].
  split_and!; try done. by apply u64_add_small.
Qed.

End Facts.

(** ** Witnesses *)

(** A voter of three in term 3 with two entries. *)
Definition sample_voter : RaftNode MemoryStorage :=
  mkRaftNode "a"
    (mkState (mkPersistent 3 "" (mkMembership (mkConfiguration ["a"; "b"; "c"]) None))
       (mkVolatile 0 0) (mkLeaderState ∅ ∅) ∅ Follower "")
    (mkLog [mkLogEntry 1 1 [x00]; mkLogEntry 2 3 [x01]] 0 0)
    NewMemoryStorage true ["b"; "c"] [] None 10 10 false false 0 1 true.

Lemma MemoryStorage_persists ps (s : MemoryStorage) : persists ps s.
Proof. revert s. induction ps as [|p ps IH]; intros s; cbn; [done|]. by eexists. Qed.

Lemma vote_granted_iff_witness :
  rvr_VoteGranted (snd (RequestVote (mkRequestVoteArgs 4 "b" 2 3) sample_voter)) = true.
Proof.
  apply (vote_granted_iff (mkRequestVoteArgs 4 "b" 2 3) sample_voter (MemoryStorage_persists _ _)).
  split_and!; [vm_compute; done|done|left; vm_compute; done|right; vm_compute; done].
Defined.

Lemma prevote_predicts_vote_witness :
  rvr_VoteGranted (snd (RequestVote (mkRequestVoteArgs 4 "b" 2 3) sample_voter)) = true.
Proof.
  apply (prevote_predicts_vote (mkPreVoteArgs 4 "b" 2 3) sample_voter (MemoryStorage_persists _ _));
    vm_compute; done.
Defined.
