(* ===== verification/ReadIndex.v ===== *)
(** Linearizable reads: [internal/raft/node_readindex.go].

    [ReadIndex] sends an empty [AppendEntries] to every peer, one goroutine each,
    and handles the results in the order they arrive.  [readIndexRequest] builds
    a request, [readIndexHandle] is the atomic handling of one result; both
    read the node as it is at that moment.  [ReadIndex] runs them peer by peer
    against a [Transport]. *)

From S2P Require Import Prelude Model RaftLog Storage Membership ConfigEntry Node Election.
From S2P Require Import Apply ElectionFacts SnapshotOps Replication ReplicationFacts Durability.

Section ReadIndex.
Context {S : Type} `{Storage S}.
Implicit Types n : RaftNode S.

(** The heartbeat built by the goroutine of one peer. *)
Definition readIndexRequest (term : Term) (commit : LogIndex) (peerID : NodeID) n
    : result AppendEntriesArgs :=
  if bool_decide (role n ≠ Leader) || negb (currentTerm n =? term)%N
  then Err (Msg "raft: leadership lost before ReadIndex RPC")
  else
    match nextIndexOf n peerID with
    | None => Err (Msg "peer has no replication state")
    | Some nextIndex =>
        if (1 <? nextIndex)%N then
          let prevIndex := u64_sub nextIndex 1 in
          match getLocked (log n) prevIndex with
          | None => Err (Msg "previous log entry for peer not found")
          | Some prevEntry =>
              Ok (mkAppendEntriesArgs term (id n) prevIndex (le_Term prevEntry) [] commit)
          end
        else Ok (mkAppendEntriesArgs term (id n) 0 0 [] commit)
    end.

(** What handling a result leads to: more acknowledgements to wait for, or the
    return value of [ReadIndex]. *)
Inductive ReadOutcome :=
| Wait (acks : gset NodeID)
| Return (r : result LogIndex).

Definition readIndexHandle (m : Membership) (term : Term) (commit : LogIndex) (acks : gset NodeID)
    (peerID : NodeID) (r : result AppendEntriesReply) n : RaftNode S * ReadOutcome :=
  match r with
  | Err _ => (n, Wait acks)
  | Ok reply =>
      if (term <? aer_Term reply)%N then
        match becomeFollowerLocked (aer_Term reply) n with
        | (n, Some e) => (n, Return (Err (Wrap "raft: step down during ReadIndex" e)))
        | (n, None) => (n, Return (Err (Msg "raft: leadership lost during ReadIndex")))
        end
      else if negb (aer_Term reply =? term)%N || negb (aer_Success reply) then (n, Wait acks)
      else
        let acks := {[peerID]} ∪ acks in
        if negb (membershipHasQuorum m acks) then (n, Wait acks)
        else if bool_decide (role n = Leader) && (currentTerm n =? term)%N
        then (n, Return (Ok (if (commit <? commitIndex n)%N then commit else commitIndex n)))
        else (n, Return (Err (Msg "raft: leadership lost during ReadIndex")))
  end.

Context {W : Type} (T : Transport W).

(** The peers one after the other. *)
Fixpoint readIndexPeers (m : Membership) (term : Term) (commit : LogIndex) (peers : list NodeID)
    (acks : gset NodeID) (w : W) n : W * RaftNode S * result LogIndex :=
  match peers with
  | [] => (w, n, Err (Msg "raft: ReadIndex quorum unavailable"))
  | peerID :: rest =>
      let '(w, r) :=
        match readIndexRequest term commit peerID n with
        | Err e => (w, Err e)
        | Ok args => tr_AppendEntries T w peerID args
        end in
      match readIndexHandle m term commit acks peerID r n with
      | (n, Wait acks) => readIndexPeers m term commit rest acks w n
      | (n, Return r) => (w, n, r)
      end
  end.

(** The checks of [ReadIndex] before it asks the peers. *)
Definition readIndexRefused n : option error :=
  if bool_decide (role n ≠ Leader) then Some (Msg "raft: not leader")
  else
    let term := currentTerm n in
    let commit := commitIndex n in
    let hasCommittedInCurrentTerm :=
      (0 <? commit)%N &&
      match getLocked (log n) commit with
      | None => false
      | Some entry => (le_Term entry =? term)%N
      end in
    if negb hasCommittedInCurrentTerm
    then Some (Msg "raft: leader has not committed an entry in the current term yet")
    else if negb (transportSet n) then Some (Msg "raft: transport is not configured")
    else None.

Definition ReadIndex (w : W) n : W * RaftNode S * result LogIndex :=
  match readIndexRefused n with
  | Some e => (w, n, Err e)
  | None =>
      if membershipHasQuorum (membership n) {[id n]} then (w, n, Ok (commitIndex n))
      else readIndexPeers (membership n) (currentTerm n) (commitIndex n) (peerIDs n) {[id n]} w n
  end.

(** [peerID] acknowledged the leader in [term]: some RPC to it succeeded. *)
Definition acked (term : Term) (peerID : NodeID) : Prop :=
  exists w w' args reply, tr_AppendEntries T w peerID args = (w', Ok reply) /\
    aer_Term reply = term /\ aer_Success reply = true.

(** ** Safety of a returned index *)

(** [I] holds of the network throughout; [A] of the peers that acknowledge. *)
Lemma readIndexPeers_ok (I : W -> Prop) (A : NodeID -> Prop) m term commit peers acks w n w' n' i :
  (forall w p args w' r, I w -> ae_Term args = term -> ae_LeaderID args = id n ->
     tr_AppendEntries T w p args = (w', r) ->
     I w' /\ forall reply, r = Ok reply -> aer_Term reply = term -> aer_Success reply = true -> A p) ->
  I w -> (forall p, p ∈ acks -> p = id n \/ A p) ->
  role n = Leader -> currentTerm n = term -> commitIndex n = commit ->
  readIndexPeers m term commit peers acks w n = (w', n', Ok i) ->
  n' = n /\ i = commit /\
  exists Q, membershipHasQuorum m Q = true /\ forall p, p ∈ Q -> p = id n \/ A p.
Proof.
  intros Hcall Hw Ha Hr Ht Hc. revert acks w Hw Ha. induction peers as [|p peers IH]; intros acks w Hw Ha; cbn; [done|].
  destruct (match readIndexRequest term commit p n with Ok args => _ | Err e => _ end) as [w1 r] eqn:E.
  assert (I w1 /\ forall reply, r = Ok reply -> aer_Term reply = term -> aer_Success reply = true -> A p) as [Hw1 Hack].
  { destruct (readIndexRequest term commit p n) as [args|] eqn:Ea; [|by simplify_eq].
    assert (ae_Term args = term /\ ae_LeaderID args = id n) as [? ?].
    { clear -Ea. unfold readIndexRequest in Ea. repeat split_hyp_match Ea; by simplify_eq. }
    by apply (Hcall w p args w1 r). }
  unfold readIndexHandle. destruct r as [reply|e]; [|by apply IH].
  destruct (term <? aer_Term reply)%N; [destruct (becomeFollowerLocked _ _) as [? []]; by intros [=]|].
  destruct (N.eqb_spec (aer_Term reply) term); cbn [negb orb]; [|by apply IH].
  destruct (aer_Success reply) eqn:Hs; cbn [negb]; [|by apply IH].
  assert (forall q, q ∈ {[p]} ∪ acks -> q = id n \/ A q) as Ha'.
  { intros q [->%elem_of_singleton|Hq]%elem_of_union; [right; by eapply Hack|by apply Ha]. }
  destruct (membershipHasQuorum m ({[p]} ∪ acks)) eqn:Hq; cbn [negb]; [|by apply IH].
  rewrite Hr, Ht, Hc, N.eqb_refl. cbn. rewrite N.ltb_irrefl. intros [= <- <- <-].
  split_and!; [done..|]. by exists ({[p]} ∪ acks).
Qed.

Lemma readIndexRefused_None n :
  readIndexRefused n = None ->
  role n = Leader /\ (0 < commitIndex n)%N /\
  exists e, getLocked (log n) (commitIndex n) = Some e /\ le_Term e = currentTerm n /\ transportSet n = true.
Proof.
  unfold readIndexRefused. case_bool_decide as Hr; [done|].
  destruct ((0 <? commitIndex n)%N && _) eqn:Hc; [|done]. cbn [negb].
  apply andb_true_iff in Hc as [Hpos%N.ltb_lt Hc]. destruct (getLocked (log n) (commitIndex n)) as [e|]; [|done].
  apply N.eqb_eq in Hc. destruct (transportSet n); [|done]. intros _. split_and!; try done. by exists e.
Qed.

Lemma ReadIndex_ok (I : W -> Prop) (A : NodeID -> Prop) w n w' n' i :
  (forall w p args w' r, I w -> ae_Term args = currentTerm n -> ae_LeaderID args = id n ->
     tr_AppendEntries T w p args = (w', r) ->
     I w' /\ forall reply, r = Ok reply -> aer_Term reply = currentTerm n -> aer_Success reply = true -> A p) ->
  I w -> ReadIndex w n = (w', n', Ok i) ->
  n' = n /\ role n = Leader /\ i = commitIndex n /\ (0 < i)%N /\
  (exists e, getLocked (log n) i = Some e /\ le_Term e = currentTerm n) /\
  exists Q, membershipHasQuorum (membership n) Q = true /\ forall p, p ∈ Q -> p = id n \/ A p.
Proof.
  intros Hcall Hw. unfold ReadIndex. destruct (readIndexRefused n) eqn:Href; [done|].
  apply readIndexRefused_None in Href as (Hlead & Hpos & e & Hg & Hc & _).
  destruct (membershipHasQuorum (membership n) {[id n]}) eqn:Hq.
  - intros [= <- <- <-]. split_and!; try done; [by exists e|]. exists {[id n]}. split; [done|]. set_solver.
  - intros E. apply (readIndexPeers_ok I A) in E as (-> & -> & HQ); try done; [|set_solver].
    split_and!; try done. by exists e.
Qed.

(** A read index is safe to serve.  When [ReadIndex] returns an index, it is
    the commit index of a leader that has committed an entry of its own term,
    and a quorum of the membership, the leader included, has acknowledged the
    leader in that term during the call. *)
Theorem readIndex_confirms_leadership w n w' n' i :
  ReadIndex w n = (w', n', Ok i) ->
  n' = n /\ role n = Leader /\ i = commitIndex n /\
  (exists e, getLocked (log n) i = Some e /\ le_Term e = currentTerm n) /\
  exists Q, membershipHasQuorum (membership n) Q = true /\
    forall p, p ∈ Q -> p = id n \/ acked (currentTerm n) p.
Proof.
  intros E. apply (ReadIndex_ok (fun _ => True) (acked (currentTerm n))) in E as (? & ? & ? & _ & ? & ?); [done| |done].
  intros w1 p args w2 r _ _ _ Ec. split; [done|]. intros reply -> Ht Hs. by exists w1, w2, args, reply.
Qed.

(** A late [ReadIndex] reply can lower the term.  The handling of a reply
    with a term above the one in which the read started steps down to the
    reply's term without comparing it with the node's current term: a node that
    has meanwhile moved on to a later term and voted in it falls back to the
    older term, forgets its vote, and stores both. *)
Theorem readIndex_can_lower_term m term commit acks peerID reply n :
  persists [with_term (aer_Term reply) (Persistent (state n))] (storage n) -> (term < aer_Term reply)%N -> (aer_Term reply < currentTerm n)%N ->
  exists n' r, readIndexHandle m term commit acks peerID (Ok reply) n = (n', Return r) /\
    (currentTerm n' < currentTerm n)%N /\ votedFor n' = "" /\ role n' = Follower.
Proof.
  intros (s & Hs & _) Hlt Hcur. unfold readIndexHandle, becomeFollowerLocked.
  destruct (N.ltb_spec term (aer_Term reply)); [|lia].
  set (p := with_term _ _) in *. unfold saveAndSync in Hs.
  destruct (st_SaveState (storage n) p) as [s1 [e|]]; [done|].
  destruct (st_Sync s1) as [s2 [e|]]; [done|].
  eexists _, _. split; [done|]. by split_and!.
Qed.

End ReadIndex.

(** ** Replication and the commit index *)

Section Matching.
Context {S : Type} `{StorageLaws S}.
Implicit Types n leader : RaftNode S.

Lemma collectEntries_spec l count index es :
  is_u64 (index + N.of_nat count)%N ->
  collectEntries l count index = Some es ->
  length es = count /\
  forall k e, es !! k = Some e -> getLocked l (index + N.of_nat k)%N = Some e.
Proof.
  revert index es; induction count as [|count IH]; intros index es Hu; cbn [collectEntries].
  { intros [= <-]. split; [done|]. intros k e Hk. by rewrite lookup_nil in Hk. }
  destruct (getLocked l index) as [e0|] eqn:Hg; [|done]. rewrite u64_add_small by lia.
  destruct (collectEntries l count (index + 1)) as [rest|] eqn:Hc; [|done]. intros [= <-].
  apply IH in Hc as [Hlen Hall]; [|lia]. split; [cbn; lia|]. intros [|k] e; cbn.
  - intros [= <-]. by rewrite N.add_0_r.
  - intros Hk. replace (index + N.of_nat (Datatypes.S k))%N with (index + 1 + N.of_nat k)%N by lia. auto.
Qed.

(** The request of a leader: consistent, and carrying the log from [nextIndex]
    to its end. *)
Lemma buildAppendEntries_spec n peerID args :
  log_wf (log n) -> is_u64 (lastIndexLocked (log n) + 2)%N ->
  buildAppendEntries n peerID = Some args ->
  (1 <= default 0 (nextIndexOf n peerID) <= lastIndexLocked (log n) + 1)%N ->
  request_wf args /\
  (ae_PrevLogIndex args + N.of_nat (length (ae_Entries args)) = lastIndexLocked (log n))%N /\
  ((0 < ae_PrevLogIndex args)%N -> term_at (log n) (ae_PrevLogIndex args) = Some (ae_PrevLogTerm args)) /\
  (forall e, e ∈ ae_Entries args -> getLocked (log n) (le_Index e) = Some e) /\
  ae_LeaderCommit args = commitIndex n /\ ae_Term args = currentTerm n.
Proof.
  intros Hwf Hu. unfold buildAppendEntries. case_bool_decide; [done|].
  destruct (nextIndexOf n peerID) as [next|]; [|done]. cbn [default from_option id].
  intros E Hn. cbn in Hn.
  destruct (if (1 <? next)%N then _ else _) as [[pi pt]|] eqn:Hp; [|done].
  assert (pi = next - 1 /\ ((0 < pi)%N -> term_at (log n) pi = Some pt))%N as [-> Hpt].
  { destruct (N.ltb_spec 1 next).
    - rewrite u64_sub_small in Hp by lia. destruct (getLocked (log n) (next - 1)) as [pe|] eqn:Hg; [|done].
      injection Hp as <- <-. split; [done|]. intros _. unfold term_at. by rewrite Hg.
    - injection Hp as <- <-. split; lia. }
  destruct (collectEntries _ _ _) as [es|] eqn:Hc; [|done]. injection E as <-. cbn.
  apply collectEntries_spec in Hc as [Hlen Hall]; [|lia].
  assert (forall k e, es !! k = Some e -> le_Index e = (next + N.of_nat k)%N) as Hidx.
  { intros k e Hk. by apply (getLocked_index (log n)), Hall. }
  split_and!; try done; [split|..].
  - intros k e Hk. rewrite (Hidx k e Hk). cbn. lia.
  - cbn. rewrite Hlen. lia.
  - rewrite Hlen. lia.
  - intros e [k Hk]%list_elem_of_lookup. rewrite (Hidx k e Hk). by apply Hall.
Qed.

(** Replication makes the logs agree.  When a follower accepts the request
    that a leader builds for it, the two logs have equal terms at every index
    from the request's previous index to the end of the leader's log, and every
    index that becomes committed on the follower above the previous index is
    committed on the leader with the same term. *)
Theorem accepted_append_matches_leader leader peerID args n n' reply :
  log_wf (log leader) -> is_u64 (lastIndexLocked (log leader) + 2)%N ->
  (1 <= default 0 (nextIndexOf leader peerID) <= lastIndexLocked (log leader) + 1)%N ->
  (commitIndex leader <= lastIndexLocked (log leader))%N ->
  buildAppendEntries leader peerID = Some args ->
  log_wf (log n) -> (lastIncludedIndex (log n) <= ae_PrevLogIndex args)%N ->
  AppendEntries args n = (n', reply) -> aer_Success reply = true ->
  (forall i, (0 < i)%N -> (ae_PrevLogIndex args <= i <= lastIndexLocked (log leader))%N ->
     term_at (log n') i = term_at (log leader) i) /\
  (forall i, (0 < i)%N -> (ae_PrevLogIndex args <= i)%N -> (commitIndex n < i <= commitIndex n')%N ->
     (i <= commitIndex leader)%N /\ term_at (log n') i = term_at (log leader) i).
Proof.
  intros Hwl Hul Hnext Hcl Hb Hwf Hinc E Hok.
  destruct (buildAppendEntries_spec _ _ _ Hwl Hul Hb Hnext) as (Hreq & Hlen & Hprev & Hents & Hlc & Ht).
  destruct (AppendEntries_effect args n n' reply Hwf Hreq Hinc E Hok)
    as (Hp & Hrec & Hcommit & _). pose proof Hrec as (_ & _ & _ & Hagree & _).
  assert (forall i, (0 < i)%N -> (ae_PrevLogIndex args <= i <= lastIndexLocked (log leader))%N ->
     term_at (log n') i = term_at (log leader) i) as Hmatch.
  { intros i Hi0 Hi. destruct (decide (i = ae_PrevLogIndex args)) as [->|Hne].
    - unfold term_at at 1. rewrite (reconciles_low _ _ _ _ _ Hrec) by lia. change (term_at (log n) (ae_PrevLogIndex args) =
        term_at (log leader) (ae_PrevLogIndex args)). rewrite Hp, Hprev by lia. done.
    - destruct (lookup_lt_is_Some_2 (ae_Entries args) (N.to_nat (i - ae_PrevLogIndex args - 1)))
        as [e He]; [lia|].
      assert (le_Index e = i) as Hei by (rewrite (proj1 Hreq _ _ He); lia).
      rewrite Forall_forall in Hagree. assert (e ∈ ae_Entries args) as Hin
        by (apply list_elem_of_lookup; eauto).
      rewrite <- Hei. rewrite (Hagree e Hin). unfold term_at. by rewrite (Hents e Hin). }
  split; [exact Hmatch|]. intros i Hi0 Hi Hc. rewrite Hcommit in Hc. unfold followerCommit in Hc.
  rewrite Hlc in Hc. destruct (N.ltb_spec (commitIndex n) (commitIndex leader)); [|lia].
  split; [lia|]. apply Hmatch; lia.
Qed.

End Matching.

(** ** A read heartbeat commits a conflicting entry *)

(** Node a was elected leader of term 2 with the log [1@1], so [nextIndex] of b
    is 2; it then committed its entry 2@2 with node c.  Node b still holds the
    entry 2@1 of an earlier leader. *)
Definition read_leader : RaftNode MemoryStorage :=
  let p := mkPersistent 2 "a" (mkMembership (mkConfiguration ["a"; "b"; "c"]) None) in
  let es := [mkLogEntry 1 1 [x00]; mkLogEntry 2 2 [x02]] in
  mkRaftNode "a"
    (mkState p (mkVolatile 2 2) (mkLeaderState {["b" := 2%N; "c" := 3%N]} {["b" := 0%N; "c" := 2%N]})
       {["a"; "c"]} Leader "a")
    (mkLog es 0 0) (mkMemoryStorage p es None) true ["b"; "c"] [] None 0 10 false false 0 1 true.

Definition stale_follower : RaftNode MemoryStorage :=
  sample_node "b" Follower [mkLogEntry 1 1 [x00]; mkLogEntry 2 1 [x01]].

(** A [ReadIndex] heartbeat can commit the wrong entry.  The heartbeat to b
    carries no entries, its previous entry 1@1 matches, and [AppendEntries] moves
    the commit index to the last index of b's log: b accepts, commits and
    delivers its stale entry 2@1, while the leader has committed 2@2. *)
Theorem readIndex_heartbeat_commits_conflict :
  exists args n' reply,
    readIndexRequest (currentTerm read_leader) (commitIndex read_leader) "b" read_leader = Ok args /\
    AppendEntries args stale_follower = (n', reply) /\ aer_Success reply = true /\
    commitIndex n' = 2%N /\ commitIndex read_leader = 2%N /\
    term_at (log n') 2 = Some 1%N /\ term_at (log read_leader) 2 = Some 2%N /\
    applyCh n' = [mkLogEntry 2 1 [x01]].
Proof.
  eexists _, _, _. split; [vm_compute; reflexivity|]. split; [vm_compute; reflexivity|].
  split_and!; vm_compute; reflexivity.
Qed.

(** ** Witnesses *)

(** Both peers acknowledge. *)
Definition all_ack : Transport unit :=
  mkTransport unit
    (fun w p args => (w, Err (Msg "unreachable")))
    (fun w p args => (w, Err (Msg "unreachable")))
    (fun w p args => (w, Ok (mkAppendEntriesReply (ae_Term args) p true)))
    (fun w p args => (w, Err (Msg "unreachable"))).

Lemma readIndex_confirms_leadership_witness :
  exists Q, membershipHasQuorum (membership read_leader) Q = true /\
    forall p, p ∈ Q -> p = "a" \/ acked all_ack 2 p.
Proof.
  destruct (readIndex_confirms_leadership all_ack tt read_leader tt read_leader 2)
    as (_ & _ & _ & _ & HQ); [vm_compute; reflexivity|exact HQ].
Defined.

(** The read started in term 1; the node has since voted in term 3. *)
Lemma readIndex_can_lower_term_witness :
  exists n' r, readIndexHandle (membership sample_voter) 1 1 {["a"]} "b"
      (Ok (mkAppendEntriesReply 2 "b" false)) sample_voter = (n', Return r) /\
    (currentTerm n' < 3)%N /\ votedFor n' = "" /\ role n' = Follower.
Proof.
  apply (readIndex_can_lower_term (membership sample_voter) 1 1 {["a"]} "b"
    (mkAppendEntriesReply 2 "b" false) sample_voter (MemoryStorage_persists _ _)); vm_compute; done.
Defined.

(** The leader replicates entry 2 to b, which replaces the stale one. *)
Lemma accepted_append_matches_leader_witness :
  exists args n' reply, buildAppendEntries read_leader "b" = Some args /\
    AppendEntries args stale_follower = (n', reply) /\
    forall i, (0 < i)%N -> (1 <= i <= 2)%N -> term_at (log n') i = term_at (log read_leader) i.
Proof.
  set (args := mkAppendEntriesArgs 2 "a" 1 1 [mkLogEntry 2 2 [x02]] 2).
  exists args, (fst (AppendEntries args stale_follower)), (snd (AppendEntries args stale_follower)).
  split; [vm_compute; reflexivity|]. split; [vm_compute; reflexivity|].
  destruct (accepted_append_matches_leader read_leader "b" args stale_follower
    (fst (AppendEntries args stale_follower)) (snd (AppendEntries args stale_follower)))
    as [Hm _]; [solve_log_wf|vm_compute; done|vm_compute; done|vm_compute; done|vm_compute; reflexivity|
      solve_log_wf|vm_compute; done|vm_compute; reflexivity|vm_compute; reflexivity|exact Hm].
Defined.
