(* ===== verification/ElectionSafety.v ===== *)
(** Election safety of a cluster: at most one leader per term.

    A [world] is a set of nodes with a network of vote replies that may be
    delayed, duplicated, reordered and lost.  The steps are the atomic sections
    of [internal/raft]: elections, vote requests and replies, the replication
    and snapshot handlers with arbitrary arguments, the heartbeats of reads and
    the answers to them, proposals, timers, and restarts from storage.  The
    storage is any implementation of the storage contract, so every write may
    fail.  The membership is fixed: no configuration entry is proposed or
    replicated.  One kind of step is left out: an answer that makes [ReadIndex]
    step down reaches a node whose term is not below the answer's.  It lowers the
    term or clears the vote ([readIndex_can_lower_term]), and
    [late_read_answer_allows_second_vote] shows a node that then votes twice.

    The files of the handlers are abstracted by one relation, [passive]: a step
    that casts no vote and starts no election. *)

From S2P Require Import Prelude Model RaftLog Storage Membership ConfigEntry Node Election.
From S2P Require Import ElectionFacts Apply SnapshotOps Replication ReplicationFacts Durability.
From S2P Require Import ReadIndex.

Section Safety.
Context {S : Type} `{StorageLaws S}.
Implicit Types n : RaftNode S.

(** ** Handlers other than voting *)

(** The handlers and operations of a node that cast no vote. *)
Inductive node_op :=
| OpAppendEntries (args : AppendEntriesArgs)
| OpAppendEntriesReply (peerID : NodeID) (args : AppendEntriesArgs) (reply : AppendEntriesReply)
| OpInstallSnapshot (args : InstallSnapshotArgs)
| OpInstallSnapshotReply (peerID : NodeID) (args : InstallSnapshotArgs) (reply : InstallSnapshotReply)
| OpPropose (data : bytes)
| OpApplyCommitted
| OpAdvanceCommitIndex
| OpCreateSnapshot (index : LogIndex) (data : bytes)
| OpTick
| OpHeartbeatDue
| OpResetElectionTimer
| OpSetTransport (peers : list NodeID)
| OpRegisterPeer (peerID : NodeID)
| OpReadHeartbeat (args : AppendEntriesArgs)
| OpReadReply (m : Membership) (term : Term) (commit : LogIndex) (acks : gset NodeID)
    (peerID : NodeID) (reply : AppendEntriesReply).

Definition run_op (op : node_op) n : RaftNode S :=
  match op with
  | OpAppendEntries args => fst (AppendEntries args n)
  | OpAppendEntriesReply peerID args reply => handleAppendEntriesReply peerID args reply n
  | OpInstallSnapshot args => fst (InstallSnapshot args n)
  | OpInstallSnapshotReply peerID args reply => handleInstallSnapshotReply peerID args reply n
  | OpPropose data => fst (proposeLocked data n)
  | OpApplyCommitted => applyCommitted n
  | OpAdvanceCommitIndex => advanceCommitIndex n
  | OpCreateSnapshot index data => fst (CreateSnapshot index data n)
  | OpTick => fst (tick n)
  | OpHeartbeatDue => fst (heartbeatDue n)
  | OpResetElectionTimer => resetElectionTimer n
  | OpSetTransport peers => SetTransport peers n
  | OpRegisterPeer peerID => fst (RegisterPeer peerID n)
  | OpReadHeartbeat args => fst (AppendEntries args n)
  | OpReadReply m term commit acks peerID reply =>
      fst (readIndexHandle m term commit acks peerID (Ok reply) n)
  end.

(** An answer that makes a read of term [term] step down is of a later term than the node. *)
Definition timely (term : Term) (reply : AppendEntriesReply) n : Prop :=
  (term < aer_Term reply)%N -> (currentTerm n < aer_Term reply)%N.

(** The operation brings no configuration entry into the log and is no late answer to a read. *)
Definition op_benign (op : node_op) n : Prop :=
  match op with
  | OpAppendEntries args | OpReadHeartbeat args => Forall config_free (ae_Entries args)
  | OpPropose data => IsConfigurationEntry data = false
  | OpReadReply _ term _ _ _ reply => timely term reply n
  | _ => True
  end.

(** ** The cluster *)

Record world := mkWorld {
  nodes : gmap NodeID (RaftNode S);
  (** vote replies sent so far, each with the request it answers *)
  replies : list (RequestVoteArgs * RequestVoteReply);
  (** history: the votes cast, as (term, voter, candidate) *)
  ballots : list (Term * NodeID * NodeID);
  (** history: the elections won, as (term, leader) *)
  won : list (Term * NodeID);
}.

(** The steps of an election. *)
Inductive vote_step : world -> world -> Prop :=
| StepStartElection i n n' r w :
    nodes w !! i = Some n -> is_u64 (currentTerm n + 1)%N -> startElection n = (n', r) ->
    vote_step w (mkWorld (<[i := n']> (nodes w)) (replies w)
              (match r with Ok t => (t, i, i) :: ballots w | Err _ => ballots w end) (won w))
| StepRequestVote i n n' args reply w :
    nodes w !! i = Some n -> RequestVote args n = (n', reply) ->
    vote_step w (mkWorld (<[i := n']> (nodes w)) ((args, reply) :: replies w)
              (if rvr_VoteGranted reply then (rvr_Term reply, i, rv_CandidateID args) :: ballots w
               else ballots w) (won w))
| StepVoteReply n args reply w :
    nodes w !! rv_CandidateID args = Some n -> (args, reply) ∈ replies w ->
    vote_step w (mkWorld (<[rv_CandidateID args := handleVoteReply (rv_Term args) reply n]> (nodes w))
              (replies w) (ballots w) (won w))
| StepTryBecomeLeader i n n' b w :
    nodes w !! i = Some n -> tryBecomeLeader n = (n', b) ->
    vote_step w (mkWorld (<[i := n']> (nodes w)) (replies w) (ballots w)
              (if b then (currentTerm n', i) :: won w else won w)).

(** Node [i] is in another state; nothing else changes. *)
Definition with_node (i : NodeID) n (w : world) : world :=
  mkWorld (<[i := n]> (nodes w)) (replies w) (ballots w) (won w).

Inductive step : world -> world -> Prop :=
| StepVote w w' : vote_step w w' -> step w w'
| StepOp i n op w :
    nodes w !! i = Some n -> op_benign op n -> step w (with_node i (run_op op n) w)
| StepRestart i n n' w :
    nodes w !! i = Some n -> NewRaftNodeWithStorage i (storage n) = Ok n' ->
    step w (with_node i n' w).

(** No configuration entry in the log or in the storage. *)
Definition clean n : Prop :=
  Forall config_free (entries (log n)) /\ Forall config_free (ms_entries (view (storage n))).

(** Nodes that start as followers under the membership [m], with any terms,
    votes and logs. *)
Definition initial (m : Membership) (w : world) : Prop :=
  replies w = [] /\ ballots w = [] /\ won w = [] /\
  forall i n, nodes w !! i = Some n ->
    id n = i /\ membership n = m /\ ps_Membership (stored n) = m /\ clean n /\ role n = Follower.

(** ** Passive steps *)

(** [p] remembers a vote for [c] in term [t], or is past that term. *)
Definition covers (p : PersistentState) (t : Term) (c : NodeID) : Prop :=
  (t < ps_CurrentTerm p)%N \/ t = ps_CurrentTerm p /\ c = ps_VotedFor p.

(** [p'] has the membership of [p] and remembers the votes of [p]. *)
Definition extends (p p' : PersistentState) : Prop :=
  ps_Membership p' = ps_Membership p /\ forall t c, c ≠ "" -> covers p t c -> covers p' t c.

(** The term of the node is stored. *)
Definition saved n : Prop := (currentTerm n <= ps_CurrentTerm (stored n))%N.

Definition passive n n' : Prop :=
  clean n ->
  clean n' /\ id n' = id n /\ extends (Persistent (state n)) (Persistent (state n')) /\
  (stored n' = stored n \/ extends (Persistent (state n)) (stored n')) /\
  (role n' = Follower \/ role n' = role n /\ votes n' = votes n /\ currentTerm n' = currentTerm n) /\
  (saved n -> saved n').

#[local] Instance extends_preorder : PreOrder extends.
Proof.
  unfold extends. split; [by intros p; auto|]. intros p1 p2 p3 [H1 H2] [H3 H4].
  split; [congruence|]. auto.
Qed.

(** Remembering the votes of a state keeps its term. *)
Lemma extends_term p p' : extends p p' -> (ps_CurrentTerm p <= ps_CurrentTerm p')%N.
Proof.
  intros [_ Hc]. destruct (decide (ps_CurrentTerm p = 0%N)) as [|Hne]; [lia|].
  destruct (Hc (ps_CurrentTerm p - 1)%N "a") as [?|[? Ha]]; [done|left; lia|lia|].
  destruct (Hc (ps_CurrentTerm p - 1)%N "b") as [?|[? Hb]]; [done|left; lia|lia|]. congruence.
Qed.

#[local] Instance passive_preorder : PreOrder passive.
Proof.
  split. { intros n Hc. split_and!; auto; reflexivity. }
  intros n1 n2 n3 P12 P23 Hc.
  destruct (P12 Hc) as (Hc2 & Hi2 & Ha2 & Hs2 & Hr2 & Hv2). destruct (P23 Hc2) as (Hc3 & Hi3 & Ha3 & Hs3 & Hr3 & Hv3).
  split_and!; try congruence; try done.
  - by etrans.
  - destruct Hs3 as [->|Hs3]; [done|]. right. by etrans.
  - destruct Hr3 as [?|(Hr3 & Hvt3 & Ht3)]; [by left|].
    destruct Hr2 as [?|(Hr2 & Hvt2 & Ht2)]; [left; congruence|]. right. split_and!; congruence.
  - auto.
Qed.

(** Steps that keep the persistent state, the stored state, and do not change
    the role except to follower. *)
Lemma passive_intro n n' :
  (clean n -> clean n') -> id n' = id n -> Persistent (state n') = Persistent (state n) ->
  stored n' = stored n ->
  (role n' = Follower \/ role n' = role n /\ votes n' = votes n) -> passive n n'.
Proof.
  intros Hc Hi Hp Hs Hr Hcl. rewrite Hp. split_and!; auto; [reflexivity|..].
  - unfold currentTerm. rewrite Hp. naive_solver.
  - unfold saved, currentTerm. by rewrite Hp, Hs.
Qed.

(** ** Where entries come from *)

Lemma cutFrom_sub i es : cutFrom i es ⊆ es.
Proof. induction es as [|e es IH]; cbn; [done|]. destruct (_ <=? _)%N; set_solver. Qed.

Lemma entriesAfter_sub i es : entriesAfter i es ⊆ es.
Proof. induction es as [|e es IH]; cbn; [done|]. destruct (_ <? _)%N; set_solver. Qed.

Lemma firstDifference_sub l es new rf : firstDifference l es = Some (new, rf) -> new ⊆ es.
Proof.
  induction es as [|e es IH]; cbn; [done|]. intros E.
  repeat (split_hyp_match E; simplify_eq; try done). set_solver.
Qed.

Lemma appendAll_sub l es : entries (fst (appendAll l es)) ⊆ entries l ++ es.
Proof.
  revert l; induction es as [|e es IH]; intros l; cbn; [set_solver|].
  destruct (Append l e) as [l'|] eqn:E; [|set_solver].
  assert (entries l' = entries l ++ [e]) as He.
  { unfold Append in E. repeat (split_hyp_match E; simplify_eq). done. }
  specialize (IH l'). rewrite He in IH. set_solver.
Qed.

Lemma RestoreSnapshot_sub l sn l' : RestoreSnapshot l sn = Ok l' -> entries l' ⊆ entries l.
Proof.
  unfold RestoreSnapshot. intros E. repeat (split_hyp_match E; simplify_eq; try done);
    try apply entriesAfter_sub; set_solver.
Qed.

Lemma Compact_sub l sn l' : Compact l sn = Ok l' -> entries l' ⊆ entries l.
Proof.
  unfold Compact. intros E. repeat (split_hyp_match E; simplify_eq; try done). apply entriesAfter_sub.
Qed.

(** The call leaves the stored term and vote alone and adds at most [es]. *)
Definition adds (es : list LogEntry) (s s' : S) : Prop :=
  ms_state (view s') = ms_state (view s) /\ ms_entries (view s') ⊆ ms_entries (view s) ++ es.

Ltac use_law L :=
  let H := fresh in
  pose proof L as H; intros E; rewrite E in H;
  lazymatch type of H with acts_as _ _ (_, ?o) _ => destruct o; cbn in H end;
  unfold adds;
  [rewrite H; set_solver|].

Lemma AppendEntries_adds s es s' o : st_AppendEntries s es = (s', o) -> adds es s s'.
Proof.
  use_law (AppendEntries_law s es). unfold mem_AppendEntries in *.
  repeat case_match; simplify_eq;
    match goal with Hv : _ = view s' |- _ => rewrite <- Hv end; set_solver.
Qed.

Lemma ReplaceSuffix_adds s from es s' o : st_ReplaceSuffix s from es = (s', o) -> adds es s s'.
Proof.
  use_law (ReplaceSuffix_law s from es). unfold mem_ReplaceSuffix in *.
  case_match; simplify_eq.
  match goal with Hv : _ = view s' |- _ => rewrite <- Hv end.
  split; [done|]. cbn. rewrite keepBefore_cutFrom. pose proof (cutFrom_sub from (ms_entries (view s))).
  set_solver.
Qed.

Lemma SaveSnapshot_adds s sn s' o : st_SaveSnapshot s sn = (s', o) -> adds [] s s'.
Proof.
  intros E. destruct o as [e|].
  - pose proof (SaveSnapshot_law s sn) as L. rewrite E in L. cbn in L. unfold adds. rewrite L. set_solver.
  - apply save_snapshot_view in E. unfold adds. rewrite E. set_solver.
Qed.

Lemma Compact_adds s sn s' o : st_Compact s sn = (s', o) -> adds [] s s'.
Proof.
  intros E. destruct o as [e|].
  - pose proof (Compact_law s sn) as L. rewrite E in L. cbn in L. unfold adds. rewrite L. set_solver.
  - apply compact_view in E as (o & _ & E). unfold adds. rewrite E. cbn.
    pose proof (entriesAfter_sub (snap_LastIncludedIndex sn) (ms_entries (view s))). set_solver.
Qed.

Lemma Sync_adds s s' o : st_Sync s = (s', o) -> adds [] s s'.
Proof. intros E. apply sync_view in E. unfold adds. rewrite E. set_solver. Qed.

Lemma Forall_sub (P : LogEntry -> Prop) es es' : es' ⊆ es -> Forall P es -> Forall P es'.
Proof. rewrite !Forall_forall. set_solver. Qed.

(** ** Every handler is passive *)

Lemma set_storage_passive es s n :
  adds es (storage n) s -> Forall config_free es -> passive n (set_storage s n).
Proof.
  intros [Hs He] Hes. apply passive_intro; try done; [|by right].
  intros [Hl Hst]. split; [done|]. cbn. eapply Forall_sub; [done|]. by apply Forall_app.
Qed.

Lemma set_log_passive l n :
  (clean n -> Forall config_free (entries l)) -> passive n (set_log l n).
Proof.
  intros Hl. apply passive_intro; try done; [|by right]. intros Hc. split; [by apply Hl|apply Hc].
Qed.

(** Steps that only touch timers, indexes, peers or the apply channel, or fall
    back to the follower role. *)
Ltac solve_frame :=
  apply passive_intro; [by intros [? ?]; split|done|done|done|first [by left|by right]].

Lemma stepFollower_passive i n : passive n (set_electionElapsed 0 (set_leaderID i (set_role Follower n))).
Proof. solve_frame. Qed.

(** Saving a state with a higher term, whatever the outcome. *)
Lemma save_passive p n s o :
  extends (Persistent (state n)) p -> saveAndSync (storage n) p = (s, o) ->
  passive n (set_storage s n).
Proof.
  intros Ha E [Hl He]. assert (
    ms_entries (view s) = ms_entries (view (storage n)) /\
    (ms_state (view s) = stored n \/ ms_state (view s) = p)) as [Hes Hst].
  { destruct o as [e|]; [apply saveAndSync_err in E as [->| ->]|apply saveAndSync_ok in E as ->]; auto. }
  split_and!; [split; cbn; [done|by rewrite Hes]|done|done| |by right|].
  - destruct Hst as [Hst|Hst]; [by left|right]. unfold stored. cbn. by rewrite Hst.
  - unfold saved, stored. cbn. destruct Hst as [->| ->]; [done|]. intros _.
    by apply extends_term in Ha.
Qed.

Lemma higher_extends t n :
  (currentTerm n < t)%N -> extends (Persistent (state n)) (with_term t (Persistent (state n))).
Proof.
  intros Ht. split; [done|]. intros t' c _ Hc. left. cbn. unfold currentTerm in Ht.
  destruct Hc as [?|[-> _]]; lia.
Qed.

(** A saved higher term that becomes the node's. *)
Lemma saved_passive t n s n' :
  (currentTerm n < t)%N ->
  saveAndSync (storage n) (with_term t (Persistent (state n))) = (s, None) ->
  log n' = log n -> storage n' = s -> id n' = id n ->
  Persistent (state n') = with_term t (Persistent (state n)) -> role n' = Follower ->
  passive n n'.
Proof.
  intros Ht E Hl Hs Hi Hp Hr [Hc1 Hc2]. apply saveAndSync_ok in E.
  unfold clean, stored. rewrite Hl, Hs, E, Hp. cbn.
  split_and!; try done; [by apply higher_extends|right; by apply higher_extends|by left|].
  unfold saved, stored, currentTerm. rewrite Hp, Hs, E. cbn. lia.
Qed.

Lemma adoptTerm_passive t n : (currentTerm n < t)%N -> passive n (fst (adoptTerm t n)).
Proof.
  intros Ht. unfold adoptTerm. destruct (saveAndSync _ _) as [s [e|]] eqn:E; cbn.
  - eapply save_passive; [|done]. by apply higher_extends.
  - by eapply saved_passive.
Qed.

Lemma applyCommitted_passive n : passive n (applyCommitted n).
Proof.
  unfold applyCommitted. generalize (N.to_nat (commitIndex n - lastApplied n)). intros fuel.
  revert n; induction fuel as [|fuel IH]; intros n Hc; cbn; [by apply passive_preorder|].
  destruct (applyOne_config_free n (proj1 Hc)) as [E|(a & ch & [E|E])]; rewrite E;
    [by apply passive_preorder| |].
  - refine ((_ : passive n _) Hc). etrans; [|apply IH]. solve_frame.
  - refine ((_ : passive n _) Hc). etrans; [|apply IH]. solve_frame.
Qed.

Lemma set_commitIndex_passive c n : passive n (set_commitIndex c n).
Proof. solve_frame. Qed.

Lemma advanceLocked_passive n : passive n (fst (advanceCommitIndexLocked n)).
Proof.
  destruct (advanceCommitIndexLocked n) as [n' b] eqn:E.
  apply advanceCommitIndexLocked_set in E as [c ->]. apply set_commitIndex_passive.
Qed.

Lemma advanceCommitIndex_passive n : passive n (advanceCommitIndex n).
Proof.
  unfold advanceCommitIndex. pose proof (advanceLocked_passive n) as P.
  destruct (advanceCommitIndexLocked n) as [n' []]; [|done].
  etrans; [exact P|apply applyCommitted_passive].
Qed.

Lemma reconcile_passive es n :
  Forall config_free es -> passive n (fst (reconcileReplicatedEntriesLocked es n)).
Proof.
  intros Hes. unfold reconcileReplicatedEntriesLocked.
  destruct (firstDifference (log n) es) as [[new rf]|] eqn:Hf; [|reflexivity].
  apply firstDifference_sub in Hf.
  assert (Forall config_free new) as Hnew by by eapply Forall_sub. clear Hf Hes.
  destruct (if (0 <? rf)%N then st_ReplaceSuffix _ _ _ else _) as [s1 o1] eqn:Hst.
  assert (adds new (storage n) s1) as H1.
  { destruct (0 <? rf)%N; [by eapply ReplaceSuffix_adds|by eapply AppendEntries_adds]. }
  destruct o1 as [e|]; [by eapply set_storage_passive|].
  destruct (st_Sync s1) as [s2 o2] eqn:Hy. apply sync_view in Hy.
  assert (passive n (set_storage s2 n)) as P.
  { eapply set_storage_passive; [|done]. unfold adds in *. by rewrite Hy. }
  destruct o2 as [e|]; [done|]. etrans; [exact P|].
  set (l0 := if (0 <? rf)%N then truncateFromLocked _ _ else _).
  pose proof (appendAll_sub l0 new) as Hsub.
  destruct (appendAll l0 new) as [l o]. apply set_log_passive. intros [Hc _].
  eapply Forall_sub; [exact Hsub|]. apply Forall_app. split; [|done].
  unfold l0, truncateFromLocked. repeat case_match; cbn; try done.
  all: by first [apply Forall_nil | eapply Forall_sub; [apply cutFrom_sub|]].
Qed.

Lemma appendInTerm_passive args n :
  Forall config_free (ae_Entries args) -> passive n (fst (appendInTerm args n)).
Proof.
  intros Hes. unfold appendInTerm. destruct (if (0 <? ae_PrevLogIndex args)%N then _ else _);
    [reflexivity|]. cbn zeta.
  set (n1 := set_electionElapsed _ _).
  assert (passive n n1) as P1 by apply stepFollower_passive. clearbody n1.
  pose proof (reconcile_passive _ n1 Hes) as P2.
  destruct (reconcileReplicatedEntriesLocked _ n1) as [n2 [e|]]; cbn in P2 |- *; [by etrans|].
  destruct (_ <? ae_LeaderCommit args)%N; [|by etrans].
  assert (forall b : bool, passive n (if b then set_commitIndex (ae_LeaderCommit args) n2
                               else set_commitIndex (lastIndexLocked (log n2)) n2)) as P3.
  { intros b. etrans; [exact P1|]. etrans; [exact P2|]. destruct b; apply set_commitIndex_passive. }
  destruct (_ <? commitIndex _)%N; [|apply P3].
  etrans; [apply (P3 (ae_LeaderCommit args <? lastIndexLocked (log n2))%N)|apply applyCommitted_passive].
Qed.

Lemma AppendEntries_passive args n :
  Forall config_free (ae_Entries args) -> passive n (fst (AppendEntries args n)).
Proof.
  intros Hes. unfold AppendEntries. destruct (_ <? _)%N; [reflexivity|].
  destruct (N.ltb_spec (currentTerm n) (ae_Term args)) as [Ht|]; [|by apply appendInTerm_passive].
  pose proof (adoptTerm_passive _ _ Ht) as P. destruct (adoptTerm _ n) as [n1 []]; cbn in P |- *; [|done].
  etrans; [exact P|by apply appendInTerm_passive].
Qed.

Lemma set_indexes_passive n n' :
  (exists ls, n' = set_leaderSt ls n) -> passive n n'.
Proof. intros [ls ->]. solve_frame. Qed.

Lemma if_indexes_passive (b : bool) n n' :
  (exists ls, n' = set_leaderSt ls n) -> passive n (if b then n' else n).
Proof. intros Hn. destruct b; [by apply set_indexes_passive|reflexivity]. Qed.

Lemma advance_tail_passive n :
  passive n match advanceCommitIndexLocked n with
            | (n, true) => applyCommitted n
            | (n, false) => n
            end.
Proof. apply advanceCommitIndex_passive. Qed.

Lemma handleAppendEntriesReply_passive peerID args reply n :
  passive n (handleAppendEntriesReply peerID args reply n).
Proof.
  unfold handleAppendEntriesReply.
  destruct (N.ltb_spec (currentTerm n) (aer_Term reply)); [by apply adoptTerm_passive|].
  case_bool_decide; [reflexivity|]. destruct (negb _); [reflexivity|]. destruct (negb _).
  { destruct (_ <? _)%N; [|reflexivity]. apply set_indexes_passive. by eexists. }
  destruct (last _) as [e|]; [|reflexivity].
  etrans; [|apply advance_tail_passive].
  destruct (_ <? _)%N; [|reflexivity].
  etrans; apply set_indexes_passive; by eexists.
Qed.

Lemma finishInstall_passive sn n : passive n (fst (finishInstall sn n)).
Proof.
  unfold finishInstall. destruct (st_Compact _ _) as [s o] eqn:E.
  apply Compact_adds in E. assert (passive n (set_storage s n)) as P by by eapply set_storage_passive.
  destruct o as [e|]; [done|]. destruct (RestoreSnapshot _ _) as [l|] eqn:El; [|done].
  apply RestoreSnapshot_sub in El. cbn. etrans; [exact P|].
  assert (passive (set_storage s n) (set_log l (set_storage s n))) as P2.
  { apply set_log_passive. intros [Hc _]. by eapply Forall_sub. }
  etrans; [exact P2|]. etrans; [apply (set_commitIndex_passive
    (if (commitIndex n <? snap_LastIncludedIndex sn)%N then snap_LastIncludedIndex sn else commitIndex n))|].
  repeat case_match; rewrite ?set_commitIndex_same; try reflexivity; solve_frame.
Qed.

Lemma installInTerm_passive args n : passive n (fst (installInTerm args n)).
Proof.
  unfold installInTerm. cbn zeta. set (n1 := set_electionElapsed _ _).
  assert (passive n n1) as P1 by apply stepFollower_passive. clearbody n1.
  destruct (_ <=? _)%N; [done|]. destruct (snapshotRestore n1) as [restore|]; [|done].
  set (sn := mkSnapshot _ _ _). unfold persistSnapshotLocked.
  destruct (st_SaveSnapshot _ _) as [s1 o1] eqn:E1. apply SaveSnapshot_adds in E1.
  assert (passive n (set_storage s1 n1)) as P2 by (etrans; [exact P1|by eapply set_storage_passive]).
  destruct o1 as [e|]; [done|].
  destruct (st_Sync s1) as [s2 o2] eqn:E2. apply sync_view in E2.
  assert (passive n (set_storage s2 n1)) as P3.
  { etrans; [exact P1|]. eapply set_storage_passive; [|by apply Forall_nil]. unfold adds. by rewrite E2. }
  destruct o2 as [e|]; [done|]. destruct (restore sn); [done|].
  pose proof (finishInstall_passive sn (set_storage s2 n1)) as P4.
  destruct (finishInstall _ _) as [n3 ok]. by etrans.
Qed.

Lemma InstallSnapshot_passive args n : passive n (fst (InstallSnapshot args n)).
Proof.
  unfold InstallSnapshot. destruct (_ <? _)%N; [reflexivity|].
  destruct (N.ltb_spec (currentTerm n) (is_Term args)) as [Ht|]; [|apply installInTerm_passive].
  destruct (saveAndSync _ _) as [s [e|]] eqn:E; cbn.
  { eapply save_passive; [|done]. by apply higher_extends. }
  set (n1 := set_persistent _ _).
  assert (passive n (set_role Follower n1)) as P by by eapply saved_passive.
  etrans; [exact P|]. change (installInTerm args n1) with (installInTerm args (set_role Follower n1)).
  apply installInTerm_passive.
Qed.

Lemma handleInstallSnapshotReply_passive peerID args reply n :
  passive n (handleInstallSnapshotReply peerID args reply n).
Proof.
  unfold handleInstallSnapshotReply.
  destruct (N.ltb_spec (currentTerm n) (isr_Term reply)); [by apply adoptTerm_passive|].
  case_bool_decide; [reflexivity|]. do 2 (destruct (negb _); [reflexivity|]).
  etrans; [|apply advance_tail_passive].
  set (n1 := if (matchIndexOf n peerID <? _)%N then _ else n).
  assert (passive n n1) as P by (by unfold n1; apply if_indexes_passive; eexists).
  etrans; [exact P|]. apply if_indexes_passive. by eexists.
Qed.

Lemma proposeLocked_passive data n :
  IsConfigurationEntry data = false -> passive n (fst (proposeLocked data n)).
Proof.
  intros Hd. unfold proposeLocked. case_bool_decide; [reflexivity|].
  set (entry := mkLogEntry _ _ _).
  assert (Forall config_free [entry]) as He by by apply Forall_singleton.
  destruct (st_AppendEntries _ _) as [s1 o1] eqn:E1. apply AppendEntries_adds in E1.
  destruct o1 as [e|]; [by eapply set_storage_passive|].
  destruct (st_Sync s1) as [s2 o2] eqn:E2. apply sync_view in E2.
  assert (passive n (set_storage s2 n)) as P.
  { eapply set_storage_passive; [|exact He]. unfold adds in *. by rewrite E2. }
  destruct o2 as [e|].
  { destruct (errors_Is _ _); [|done]. etrans; [exact P|]. solve_frame. }
  destruct (Append _ _) as [l|] eqn:El; [|done].
  pose proof (advanceLocked_passive (set_log l (set_storage s2 n))) as Pa.
  destruct (advanceCommitIndexLocked _) as [n' b]. cbn in Pa |- *.
  etrans; [exact P|]. etrans; [|exact Pa]. apply set_log_passive. intros [Hc _].
  unfold Append in El. destruct (negb _) eqn:Hb in El; [done|]. simplify_eq. by apply Forall_app.
Qed.

Lemma CreateSnapshot_passive index data n : passive n (fst (CreateSnapshot index data n)).
Proof.
  unfold CreateSnapshot. destruct (validateSnapshotRequestLocked _ _) as [entry|]; [|reflexivity].
  unfold persistAndCompactSnapshotLocked. set (sn := mkSnapshot _ _ _).
  destruct (st_SaveSnapshot _ _) as [s1 o1] eqn:E1. apply SaveSnapshot_adds in E1.
  destruct o1 as [e|]; [by eapply set_storage_passive|].
  destruct (st_Sync s1) as [s2 o2] eqn:E2. apply sync_view in E2.
  destruct o2 as [e|]; cbn.
  { eapply set_storage_passive; [|by apply Forall_nil]. unfold adds in *. by rewrite E2. }
  destruct (st_Compact _ _) as [s3 o3] eqn:E3. apply Compact_adds in E3.
  assert (passive n (set_storage s3 n)) as P.
  { eapply (set_storage_passive []); [|by apply Forall_nil]. unfold adds in *. rewrite E2 in E3.
    rewrite !app_nil_r in *. destruct E1, E3. split; [congruence|set_solver]. }
  destruct o3 as [e|]; [done|]. destruct (Compact _ _) as [l|] eqn:El; [|done].
  cbn. etrans; [exact P|]. apply set_log_passive. intros [Hc _]. apply Compact_sub in El.
  by eapply Forall_sub.
Qed.

Lemma readIndexHandle_passive m term commit acks peerID reply n :
  timely term reply n -> passive n (fst (readIndexHandle m term commit acks peerID (Ok reply) n)).
Proof.
  intros Ht. unfold readIndexHandle. destruct (N.ltb_spec term (aer_Term reply)) as [Hlt|]; [|by repeat case_match].
  pose proof (adoptTerm_passive _ _ (Ht Hlt)) as P. unfold becomeFollowerLocked.
  unfold adoptTerm, saveAndSync in P. destruct (st_SaveState _ _) as [s [e|]]; [done|].
  destruct (st_Sync s) as [s' [e|]]; [done|]. cbn in P |- *. etrans; [exact P|]. solve_frame.
Qed.

Lemma run_op_passive op n : op_benign op n -> passive n (run_op op n).
Proof.
  destruct op; cbn; intros Hop.
  - by apply AppendEntries_passive.
  - apply handleAppendEntriesReply_passive.
  - apply InstallSnapshot_passive.
  - apply handleInstallSnapshotReply_passive.
  - by apply proposeLocked_passive.
  - apply applyCommitted_passive.
  - apply advanceCommitIndex_passive.
  - apply CreateSnapshot_passive.
  - unfold tick. repeat case_match; solve_frame.
  - unfold heartbeatDue. repeat case_match; solve_frame.
  - solve_frame.
  - solve_frame.
  - unfold RegisterPeer. repeat case_bool_decide; solve_frame.
  - by apply AppendEntries_passive.
  - by apply readIndexHandle_passive.
Qed.

(** ** Voting *)

Lemma vote_extends c n :
  votedFor n = "" \/ votedFor n = c ->
  extends (Persistent (state n)) (with_vote c (Persistent (state n))).
Proof.
  intros Hv. split; [done|]. unfold votedFor in Hv. intros t d Hd [?|[-> ->]]; [by left|].
  right. cbn. split; [done|]. by destruct Hv.
Qed.

(** What a granted vote means for the voter's state. *)
Definition granted_by (args : RequestVoteArgs) (reply : RequestVoteReply) n' : Prop :=
  rv_CandidateID args ≠ "" /\ rvr_Term reply = currentTerm n' /\ rvr_VoterID reply = id n' /\
  votedFor n' = rv_CandidateID args /\ stored n' = Persistent (state n').

Lemma voteInCurrentTerm_passive args n n' reply :
  voteInCurrentTerm args n = (n', reply) ->
  passive n n' /\ (rvr_VoteGranted reply = true -> granted_by args reply n').
Proof.
  unfold voteInCurrentTerm. destruct (membershipIsVoter _ _) eqn:Hm; cbn [negb];
    [|intros [= <- <-]; split; [reflexivity|done]].
  destruct (bool_decide (votedFor n ≠ "") && _) eqn:Hv; [intros [= <- <-]; split; [reflexivity|done]|].
  destruct (negb _); [intros [= <- <-]; split; [reflexivity|done]|].
  assert (extends (Persistent (state n)) (with_vote (rv_CandidateID args) (Persistent (state n)))) as He.
  { apply vote_extends. apply andb_false_iff in Hv as [Hv|Hv]; case_bool_decide; try done; auto. }
  destruct (saveAndSync _ _) as [s [e|]] eqn:E; intros [= <- <-].
  - split; [by eapply save_passive|done].
  - pose proof (save_passive _ _ _ _ He E) as P. apply saveAndSync_ok in E. split.
    + intros Hc. destruct (P Hc) as (Hc' & _). split_and!; [done|done|done| |by right|].
      * unfold stored. cbn. rewrite E. by right.
      * intros _. unfold saved, stored. cbn. by rewrite E.
    + intros _. split_and!; try done; [|unfold stored; cbn; by rewrite E].
      intros Hz. rewrite Hz in Hm. done.
Qed.

Lemma RequestVote_passive args n n' reply :
  RequestVote args n = (n', reply) ->
  passive n n' /\ (rvr_VoteGranted reply = true -> granted_by args reply n').
Proof.
  unfold RequestVote. destruct (_ <? _)%N; [intros [= <- <-]; split; [reflexivity|done]|].
  destruct (N.ltb_spec (currentTerm n) (rv_Term args)) as [Ht|]; [|apply voteInCurrentTerm_passive].
  pose proof (adoptTerm_passive _ _ Ht) as P. destruct (adoptTerm _ n) as [n1 []]; cbn in P.
  - intros [P2 Hg]%voteInCurrentTerm_passive. split; [by etrans|done].
  - by intros [= <- <-].
Qed.

Lemma startElection_cases n n' r :
  is_u64 (currentTerm n + 1)%N -> startElection n = (n', r) ->
  match r with
  | Err _ => passive n n'
  | Ok t =>
      id n ≠ "" /\ t = currentTerm n' /\ votedFor n' = id n /\ role n' = Candidate /\
      votes n' = {[id n]} /\ id n' = id n /\ (clean n -> clean n') /\
      extends (Persistent (state n)) (Persistent (state n')) /\ stored n' = Persistent (state n')
  end.
Proof.
  intros Hu. unfold startElection. destruct (membershipIsVoter _ _) eqn:Hm; cbn [negb];
    [|by intros [= <- <-]]. destruct (storageWriteBlocked n); [by intros [= <- <-]|].
  rewrite u64_add_small by done. set (p := mkPersistent _ _ _).
  assert (extends (Persistent (state n)) p) as He.
  { split; [done|]. intros t c _ Hc. left. cbn. unfold currentTerm.
    destruct Hc as [?|[-> _]]; lia. }
  destruct (saveAndSync _ _) as [s [e|]] eqn:E; intros [= <- <-]; [by eapply save_passive|].
  apply saveAndSync_ok in E. unfold clean, stored. cbn. rewrite E. cbn.
  split_and!; try done. intros Hz. rewrite Hz in Hm. done.
Qed.

Lemma handleVoteReply_cases electionTerm reply n :
  let n' := handleVoteReply electionTerm reply n in
  passive n n' \/
  (role n = Candidate /\ rvr_Term reply = currentTerm n /\ rvr_VoteGranted reply = true /\
   n' = set_votes ({[rvr_VoterID reply]} ∪ votes n) n).
Proof.
  cbn zeta. unfold handleVoteReply.
  destruct (N.ltb_spec (currentTerm n) (rvr_Term reply)) as [Ht|].
  - left. pose proof (adoptTerm_passive _ _ Ht) as P.
    destruct (adoptTerm _ n) as [n1 []] eqn:Ea; cbn in P; [|done].
    etrans; [exact P|]. apply passive_intro; try done. left.
    apply adoptTerm_cases in Ea as (_ & _ & _ & _ & _ & Hr). by apply Hr.
  - case_bool_decide; [by left|].
    destruct (N.eqb_spec electionTerm (currentTerm n)); cbn; [|by left].
    destruct (N.eqb_spec (rvr_Term reply) electionTerm); cbn; [|by left].
    destruct (rvr_VoteGranted reply); cbn; [|by left].
    destruct (negb _); [by left|]. case_bool_decide; [by left|].
    right. split_and!; try done; congruence.
Qed.

(** ** The invariant *)

Section Invariant.
Context (m : Membership).

Definition node_inv (w : world) (i : NodeID) n : Prop :=
  id n = i /\ membership n = m /\ ps_Membership (stored n) = m /\ clean n /\
  (forall t c, (t, i, c) ∈ ballots w -> covers (Persistent (state n)) t c /\ covers (stored n) t c) /\
  (role n = Candidate -> forall v, v ∈ votes n -> (currentTerm n, v, i) ∈ ballots w) /\
  (role n = Leader -> (currentTerm n, i) ∈ won w).

(** Replies carry cast votes; votes are cast once per term, never for the empty
    ID; an election is won with a quorum of votes. *)
Definition history_inv (w : world) : Prop :=
  (forall args reply, (args, reply) ∈ replies w -> rvr_VoteGranted reply = true ->
     (rvr_Term reply, rvr_VoterID reply, rv_CandidateID args) ∈ ballots w) /\
  (forall t v c, (t, v, c) ∈ ballots w -> c ≠ "") /\
  (forall t v c d, (t, v, c) ∈ ballots w -> (t, v, d) ∈ ballots w -> c = d) /\
  (forall t i, (t, i) ∈ won w -> exists Q, membershipHasQuorum m Q = true /\
     forall v, v ∈ Q -> (t, v, i) ∈ ballots w).

Definition cluster_inv (w : world) : Prop :=
  history_inv w /\ forall i n, nodes w !! i = Some n -> node_inv w i n.

Lemma node_inv_passive w i n n' :
  (forall t c, (t, i, c) ∈ ballots w -> c ≠ "") ->
  node_inv w i n -> passive n n' -> node_inv w i n'.
Proof.
  intros Hne (Hi & Hm & Hs & Hc & Hb & Hcand & Hlead) P.
  destruct (P Hc) as (Hc' & Hi' & [Hm' He] & Hst & Hr & _).
  split_and!; [congruence|unfold membership in *; congruence| |done| | |].
  - destruct Hst as [->|[Hst _]]; unfold membership in *; congruence.
  - intros t c Hin. destruct (Hb t c Hin) as [Hb1 Hb2]. pose proof (Hne t c Hin).
    split; [by apply He|]. destruct Hst as [->|[_ Hst]]; [done|by apply Hst].
  - intros Hrole. destruct Hr as [?|(Hr & -> & ->)]; [congruence|]. apply Hcand. congruence.
  - intros Hrole. destruct Hr as [?|(Hr & _ & ->)]; [congruence|]. apply Hlead. congruence.
Qed.

(** The other nodes are not affected by a vote of node [i]. *)
Lemma node_inv_mono w w' j n :
  node_inv w j n -> ballots w ⊆ ballots w' -> won w ⊆ won w' ->
  (forall t c, (t, j, c) ∈ ballots w' -> (t, j, c) ∈ ballots w) -> node_inv w' j n.
Proof.
  intros (Hi & Hm & Hs & Hc & Hb & Hcand & Hlead) Hsub Hw Hj. split_and!; auto.
Qed.

(** Replacing the state of one node without new history. *)
Lemma inv_local w i n' :
  cluster_inv w -> node_inv w i n' ->
  cluster_inv (mkWorld (<[i := n']> (nodes w)) (replies w) (ballots w) (won w)).
Proof.
  intros [Hh Hn] Hi. split; [exact Hh|]. intros j nj. cbn.
  rewrite lookup_insert_Some. intros [[<- <-]|[_ Hj]]; [exact Hi|exact (Hn j nj Hj)].
Qed.

(** Replacing the state of node [i], which casts the vote it now remembers. *)
Lemma inv_ballot w i n' rs c :
  cluster_inv w -> c ≠ "" -> votedFor n' = c -> covers (stored n') (currentTerm n') c ->
  node_inv w i (set_role Follower n') ->
  (role n' = Candidate -> forall v, v ∈ votes n' ->
     (currentTerm n', v, i) ∈ ((currentTerm n', i, c) :: ballots w)) ->
  (role n' = Leader -> (currentTerm n', i) ∈ won w) ->
  (forall args reply, (args, reply) ∈ rs -> rvr_VoteGranted reply = true ->
     (rvr_Term reply, rvr_VoterID reply, rv_CandidateID args) ∈
       ((currentTerm n', i, c) :: ballots w)) ->
  cluster_inv (mkWorld (<[i := n']> (nodes w)) rs ((currentTerm n', i, c) :: ballots w) (won w)).
Proof.
  intros [(Hrep & Hne & Hfun & Hwon) Hn] Hc Hv Hst (Hi & Hm & Hs & Hcl & Hb & _ & _) Hcand Hlead Hrs.
  assert (forall t d, (t, i, d) ∈ ballots w -> t = currentTerm n' -> d = c) as Huniq.
  { intros t d Hin ->. destruct (Hb _ _ Hin) as [[Hlt|[_ ->]] _]; [|exact Hv].
    cbn in Hlt. unfold currentTerm in Hlt. lia. }
  split; [split_and!|].
  - exact Hrs.
  - cbn. intros t v d [E|Hin]%elem_of_cons; simplify_eq; eauto.
  - cbn. intros t v d e [E1|H1]%elem_of_cons [E2|H2]%elem_of_cons; simplify_eq; eauto.
    symmetry. eauto.
  - cbn. intros t j Hin. destruct (Hwon t j Hin) as (Q & HQ & Hall). exists Q. split; [done|].
    intros v Hv'. apply elem_of_cons. auto.
  - intros j nj. cbn. rewrite lookup_insert_Some. intros [[<- <-]|[Hij Hj]].
    + split_and!; try done. cbn. intros t d [E|Hin]%elem_of_cons; [simplify_eq|by apply Hb].
      split; [right; auto|exact Hst].
    + eapply node_inv_mono; [by apply Hn|set_solver|done|].
      cbn. intros t d [E|?]%elem_of_cons; by simplify_eq.
Qed.

Lemma inv_denied w args reply :
  cluster_inv w -> rvr_VoteGranted reply = false ->
  cluster_inv (mkWorld (nodes w) ((args, reply) :: replies w) (ballots w) (won w)).
Proof.
  intros [(Hrep & Hrest) Hn] Hd. split; [split; [|exact Hrest]|exact Hn].
  cbn. intros a r [E|Hin]%elem_of_cons Hg; [simplify_eq; congruence|eauto].
Qed.

Lemma inv_nonempty w i : cluster_inv w -> forall t c, (t, i, c) ∈ ballots w -> c ≠ "".
Proof. intros [(_ & Hne & _) _] t c. apply Hne. Qed.

Lemma inv_passive w i n n' :
  cluster_inv w -> nodes w !! i = Some n -> passive n n' -> node_inv w i n'.
Proof.
  intros Hw Hi. apply node_inv_passive; [by apply inv_nonempty|by apply Hw].
Qed.

Lemma start_inv w i n n' r :
  cluster_inv w -> nodes w !! i = Some n -> is_u64 (currentTerm n + 1)%N ->
  startElection n = (n', r) ->
  cluster_inv (mkWorld (<[i := n']> (nodes w)) (replies w)
    (match r with Ok t => (t, i, i) :: ballots w | Err _ => ballots w end) (won w)).
Proof.
  intros Hw Hi Hu E%startElection_cases; [|done]. destruct r as [t|e].
  2: { apply inv_local; [done|]. by eapply inv_passive. }
  destruct E as (Hne & -> & Hv & Hr & Hvs & Hid & Hcl & He & Hst).
  assert (id n = i) as Hidi by apply (proj2 Hw i n Hi). rewrite Hidi in *.
  apply inv_ballot; try done.
  - rewrite Hst. by right.
  - eapply inv_passive; [done|done|]. intros Hc. destruct (Hcl Hc).
    split_and!; [by split|cbn; congruence|exact He|right; by rewrite <- Hst in He|by left|].
    intros _. change (saved n'). unfold saved. by rewrite Hst.
  - intros _ v. rewrite Hvs. intros ->%elem_of_singleton. apply elem_of_cons. by left.
  - intros Hl. congruence.
  - intros args reply Hin Hg. apply elem_of_cons. right. by apply (proj1 Hw).
Qed.

Lemma vote_inv w i n n' args reply :
  cluster_inv w -> nodes w !! i = Some n -> RequestVote args n = (n', reply) ->
  cluster_inv (mkWorld (<[i := n']> (nodes w)) ((args, reply) :: replies w)
    (if rvr_VoteGranted reply then (rvr_Term reply, i, rv_CandidateID args) :: ballots w
     else ballots w) (won w)).
Proof.
  intros Hw Hi [P Hg]%RequestVote_passive.
  pose proof (inv_passive _ _ _ _ Hw Hi P) as Hn'.
  destruct (rvr_VoteGranted reply) eqn:Hgr.
  2: { apply (inv_denied (mkWorld _ (replies w) (ballots w) (won w))); [|done]. by apply inv_local. }
  destruct Hg as (Hne & Ht & Hvid & Hv & Hst); [done|]. rewrite Ht.
  assert (id n' = i) as Hidi by apply Hn'. apply inv_ballot; try done.
  - rewrite Hst. by right.
  - eapply node_inv_passive; [by apply inv_nonempty|exact Hn'|]. solve_frame.
  - intros Hr v Hin. apply elem_of_cons. right. by apply Hn'.
  - apply Hn'.
  - intros a r [E|Hin]%elem_of_cons Hgr'; [simplify_eq|].
    + apply elem_of_cons. left. congruence.
    + apply elem_of_cons. right. by apply (proj1 Hw).
Qed.

Lemma reply_inv w n args reply :
  cluster_inv w -> nodes w !! rv_CandidateID args = Some n -> (args, reply) ∈ replies w ->
  cluster_inv (mkWorld (<[rv_CandidateID args := handleVoteReply (rv_Term args) reply n]> (nodes w))
    (replies w) (ballots w) (won w)).
Proof.
  intros Hw Hi Hin. apply inv_local; [done|].
  destruct (handleVoteReply_cases (rv_Term args) reply n) as [P|(Hr & Ht & Hg & ->)].
  { by eapply inv_passive. }
  destruct (proj2 Hw _ _ Hi) as (Hid & Hm & Hs & Hc & Hb & Hcand & Hlead).
  split_and!; try done. intros _ v. cbn. intros [Hv|Hv]%elem_of_union; [|by apply Hcand].
  apply elem_of_singleton in Hv as ->.
  change (currentTerm _) with (currentTerm n). rewrite <- Ht. by apply (proj1 Hw).
Qed.

Lemma lead_inv w i n n' b :
  cluster_inv w -> nodes w !! i = Some n -> tryBecomeLeader n = (n', b) ->
  cluster_inv (mkWorld (<[i := n']> (nodes w)) (replies w) (ballots w)
    (if b then (currentTerm n', i) :: won w else won w)).
Proof.
  intros Hw Hi. pose proof (proj2 Hw _ _ Hi) as Hn. unfold tryBecomeLeader.
  case_bool_decide as Hr; [intros [= <- <-]; by apply inv_local|].
  destruct (membershipHasQuorum _ _) eqn:Hq; cbn [negb]; [|intros [= <- <-]; by apply inv_local].
  intros [= <- <-]. destruct (becomeLeaderLocked_frame n) as [ls ->].
  destruct Hn as (Hid & Hm & Hs & Hc & Hb & Hcand & _).
  assert (role n = Candidate) as Hcan by (by destruct (role n)).
  destruct Hw as [(Hrep & Hne & Hfun & Hwon) Hall]. change (currentTerm _) with (currentTerm n).
  split; [split_and!; [done..|]|].
  - intros t j. cbn. intros [E|Hin]%elem_of_cons; [simplify_eq|by apply Hwon].
    exists (votes n). split; [by rewrite <- Hm|]. by apply Hcand.
  - intros j nj. cbn. rewrite lookup_insert_Some. intros [[<- <-]|[_ Hj]].
    + split_and!; try done. intros _. apply elem_of_cons. by left.
    + eapply node_inv_mono; [by apply Hall|done|cbn; set_solver|done].
Qed.

Lemma restoreEntries_sub l es l' : restoreEntries l es = Ok l' -> entries l' ⊆ entries l ++ es.
Proof.
  revert l; induction es as [|e es IH]; intros l; cbn.
  { intros <-%(inj Ok). set_solver. }
  intros (l1 & Ha%wrap_err_Ok & Hr)%bind_Ok. apply IH in Hr.
  unfold Append in Ha. destruct (negb _) in Ha; [done|]. simplify_eq. cbn in Hr. set_solver.
Qed.

(** A restarted node is a follower with the stored state. *)
Lemma restart_state i s n' :
  NewRaftNodeWithStorage i s = Ok n' ->
  id n' = i /\ storage n' = s /\ Persistent (state n') = ms_state (view s) /\ role n' = Follower /\
  entries (log n') ⊆ ms_entries (view s).
Proof.
  unfold NewRaftNodeWithStorage.
  intros (p & Hp%wrap_err_Ok & E)%bind_Ok. apply LoadState_law in Hp as ->.
  apply bind_Ok in E as (es & He%wrap_err_Ok & E). apply LoadEntries_law in He as ->.
  apply bind_Ok in E as (sn & _ & E). apply bind_Ok in E as (l & Hl & E).
  apply restoreEntries_sub in Hl. apply bind_Ok in E as (l' & Hl' & E).
  assert (entries l' ⊆ entries l) as Hs.
  { destruct (0 <? snap_LastIncludedIndex sn)%N; [|by injection Hl' as <-].
    apply wrap_err_Ok in Hl'. by eapply RestoreSnapshot_sub. }
  injection E as <-. cbn. split_and!; try done. etrans; [exact Hs|exact Hl].
Qed.

Lemma restart_inv w i n n' :
  cluster_inv w -> nodes w !! i = Some n -> NewRaftNodeWithStorage i (storage n) = Ok n' ->
  node_inv w i n'.
Proof.
  intros Hw Hi. destruct (proj2 Hw _ _ Hi) as (Hid & Hm & Hs & [_ Hc] & Hb & _ & _).
  intros E. apply restart_state in E as (Hid' & Hst & Hp & Hr & Hl).
  assert (stored n' = stored n) as Hst' by (unfold stored; by rewrite Hst).
  unfold node_inv, membership, clean. rewrite Hp, Hst', Hst. split_and!; try done.
  - by eapply Forall_sub.
  - intros t c Hin. destruct (Hb t c Hin). done.
  - by rewrite Hr.
  - by rewrite Hr.
Qed.

Lemma step_inv w w' : cluster_inv w -> step w w' -> cluster_inv w'.
Proof.
  intros Hw Hstep. destruct Hstep as [w w' Hv| |]; [destruct Hv|..].
  - by eapply start_inv.
  - by eapply vote_inv.
  - by eapply reply_inv.
  - by eapply lead_inv.
  - apply inv_local; [done|]. eapply inv_passive; [done|done|by apply run_op_passive].
  - apply inv_local; [done|]. by eapply restart_inv.
Qed.

Lemma initial_inv w : initial m w -> cluster_inv w.
Proof.
  intros (Hr & Hb & Hw & Hn). split.
  - unfold history_inv. rewrite Hr, Hb, Hw. split_and!; intros; set_solver.
  - intros i n Hi. destruct (Hn i n Hi) as (? & ? & ? & ? & Hrole).
    split_and!; try done; rewrite ?Hrole, ?Hb; try done. intros; set_solver.
Qed.

Lemma reachable_inv w0 w : initial m w0 -> rtc step w0 w -> cluster_inv w.
Proof.
  intros Hinit%initial_inv Hs. induction Hs as [w|w1 w2 w3 H12 _ IH]; [done|].
  apply IH. by eapply step_inv.
Qed.

End Invariant.

(** No two elections of one term are won by different nodes. *)
Lemma won_unique m w t i j : cluster_inv m w -> (t, i) ∈ won w -> (t, j) ∈ won w -> i = j.
Proof.
  intros [(_ & _ & Hfun & Hwon) _] (Q1 & Hq1 & H1)%Hwon (Q2 & Hq2 & H2)%Hwon.
  destruct (quorums_intersect m Q1 Q2 Hq1 Hq2) as (v & Hv1 & Hv2). eauto.
Qed.

(** C1: election safety.  In every state that a cluster with a fixed membership
    (stable or joint) reaches by the steps above, whatever the network does and
    whichever storage writes fail, no two elections of one term were won by
    different nodes, and two nodes that are leaders in the same term are the same
    node.  The steps leave out one thing the code can do: handling an answer that
    makes a read step down when the node is already at or past the term of the
    answer ([timely]); [late_read_answer_allows_second_vote] shows what that does. *)
Theorem election_safety m w0 w :
  initial m w0 -> rtc step w0 w ->
  (forall t i j, (t, i) ∈ won w -> (t, j) ∈ won w -> i = j) /\
  (forall i j n1 n2, nodes w !! i = Some n1 -> nodes w !! j = Some n2 ->
     role n1 = Leader -> role n2 = Leader -> currentTerm n1 = currentTerm n2 -> i = j).
Proof.
  intros Hinit Hs. pose proof (reachable_inv m _ _ Hinit Hs) as Hinv.
  split; [intros t i j; by apply (won_unique m)|]. intros i j n1 n2 Hi Hj Hr1 Hr2 Ht.
  apply (won_unique m w (currentTerm n1)); [done|by apply (proj2 Hinv i)|].
  rewrite Ht. by apply (proj2 Hinv j).
Qed.

(** C2: votes are durable promises.  In every state reached by the steps above a
    vote that was cast is remembered by the voter's memory and by its storage
    until the term is over, and no voter casts two different votes in a term,
    across storage failures and restarts, as long as every answer that makes a
    read step down is of a later term than the node that handles it ([timely]). *)
Theorem votes_are_durable m w0 w t v c :
  initial m w0 -> rtc step w0 w -> (t, v, c) ∈ ballots w ->
  (forall d, (t, v, d) ∈ ballots w -> d = c) /\
  (forall n, nodes w !! v = Some n ->
     covers (Persistent (state n)) t c /\ covers (stored n) t c).
Proof.
  intros Hinit Hs Hin. destruct (reachable_inv m _ _ Hinit Hs) as [(_ & _ & Hfun & _) Hn].
  split; [eauto|]. intros n Hv. by apply (Hn v n Hv).
Qed.

End Safety.

(** ** A sample run: node a wins the election of term 1 with the vote of b *)

Definition fresh (i : NodeID) : RaftNode MemoryStorage :=
  let p := mkPersistent 0 "" (mkMembership (mkConfiguration ["a"; "b"; "c"]) None) in
  mkRaftNode i (mkState p (mkVolatile 0 0) (mkLeaderState ∅ ∅) ∅ Follower "") NewLog
    (mkMemoryStorage p [] None) true (filter (fun j => j ≠ i) ["a"; "b"; "c"]) [] None 0 10 false false 0 1 true.

Definition fresh_world : world :=
  mkWorld {["a" := fresh "a"; "b" := fresh "b"; "c" := fresh "c"]} [] [] [].

Definition vote_args : RequestVoteArgs := mkRequestVoteArgs 1 "a" 0 0.
Definition vote_reply : RequestVoteReply := mkRequestVoteReply 1 "b" true.
Definition candidate_a : RaftNode MemoryStorage := fst (startElection (fresh "a")).
Definition voter_b : RaftNode MemoryStorage := fst (RequestVote vote_args (fresh "b")).
Definition elected_a : RaftNode MemoryStorage :=
  fst (tryBecomeLeader (handleVoteReply 1 vote_reply candidate_a)).

Definition elected_world : world :=
  mkWorld (<["a" := elected_a]> (<["a" := handleVoteReply 1 vote_reply candidate_a]>
            (<["b" := voter_b]> (<["a" := candidate_a]> (nodes fresh_world)))))
    [(vote_args, vote_reply)] [(1%N, "b", "a"); (1%N, "a", "a")] [(1%N, "a")].

Lemma fresh_initial :
  initial (mkMembership (mkConfiguration ["a"; "b"; "c"]) None) fresh_world.
Proof.
  split_and!; [done..|]. intros i n Hi. cbn in Hi.
  repeat (apply lookup_insert_Some in Hi as [[<- <-]|[_ Hi]]; [by split_and!; try apply Forall_nil|]).
  apply lookup_singleton_Some in Hi as [<- <-]. by split_and!; try apply Forall_nil.
Qed.

Lemma elected_votes : rtc vote_step fresh_world elected_world.
Proof.
  eapply rtc_l.
  { apply (StepStartElection "a" (fresh "a") candidate_a (Ok 1%N)); vm_compute; reflexivity. }
  eapply rtc_l.
  { apply (StepRequestVote "b" (fresh "b") voter_b vote_args vote_reply); vm_compute; reflexivity. }
  eapply rtc_l.
  { apply (StepVoteReply candidate_a vote_args vote_reply); [vm_compute; reflexivity|set_solver]. }
  eapply rtc_l.
  { apply (StepTryBecomeLeader "a" (handleVoteReply 1 vote_reply candidate_a) elected_a true);
      vm_compute; reflexivity. }
  apply rtc_refl.
Qed.

Lemma elected_reachable : rtc step fresh_world elected_world.
Proof. eapply rtc_subrel; [|exact elected_votes]. exact StepVote. Qed.

(** What [timely] is for: node b has voted for a in term 2 when the answer of c to a read
    that b began as leader of term 1 arrives; b forgets its vote and grants c one too. *)
Lemma late_read_answer_allows_second_vote :
  let m := mkMembership (mkConfiguration ["a"; "b"; "c"]) None in
  let (n1, first) := RequestVote (mkRequestVoteArgs 2 "a" 0 0) (fresh "b") in
  let n2 := fst (readIndexHandle m 1 0 {["b"]} "c" (Ok (mkAppendEntriesReply 2 "c" false)) n1) in
  let second := snd (RequestVote (mkRequestVoteArgs 2 "c" 0 0) n2) in
  first = mkRequestVoteReply 2 "b" true /\ second = mkRequestVoteReply 2 "b" true.
Proof. vm_compute. split; reflexivity. Qed.

Lemma election_safety_witness :
  (1%N, "a") ∈ won elected_world /\
  forall j, (1%N, j) ∈ won elected_world -> "a" = j.
Proof.
  split; [set_solver|]. intros j Hj.
  destruct (election_safety _ _ _ fresh_initial elected_reachable) as [Hone _].
  apply (Hone 1%N); [set_solver|exact Hj].
Defined.

Lemma votes_are_durable_witness :
  covers (stored voter_b) 1 "a".
Proof.
  destruct (votes_are_durable _ _ _ 1 "b" "a" fresh_initial elected_reachable) as [_ Hn];
    [set_solver|]. apply (Hn voter_b). vm_compute. reflexivity.
Defined.
