(* ===== verification/Lock.v ===== *)
(** The replicated lock table: [internal/lock/types.go] and the sentinel errors
    of [errors.go].  Fencing tokens come from one counter shared by all keys. *)

From S2P Require Import Prelude Model.

Definition ErrLockBusy : error := Sentinel "lock is already held".
Definition ErrLockNotFound : error := Sentinel "lock not found".
Definition ErrNotOwner : error := Sentinel "lock owner mismatch".
Definition ErrInvalidOwner : error := Sentinel "invalid lock owner".
Definition ErrInvalidKey : error := Sentinel "invalid lock key".
Definition ErrStaleFencingToken : error := Sentinel "stale fencing token".

Record Lock := mkLock {
  lk_Key : string;
  lk_OwnerID : string;
  lk_FencingToken : N;
  lk_ExpiresAt : Z;
  lk_GrantIndex : LogIndex;
}.

Definition Lock_zero : Lock := mkLock "" "" 0 0 0.

#[global] Instance Lock_eq_dec : EqDecision Lock.
Proof. solve_decision. Defined.

Record LockState := mkLockState {
  Locks : gmap string Lock;
  NextToken : N;
}.

Definition NewState : LockState := mkLockState ∅ 0.

Definition Get (key : string) (s : LockState) : option Lock := Locks s !! key.

Definition Acquire (key ownerID : string) (expiresAt : Z) (grantIndex : LogIndex) (s : LockState)
    : LockState * Lock * bool :=
  match Locks s !! key with
  | Some current => (s, current, false)
  | None =>
      let next := u64_add (NextToken s) 1 in
      let current := mkLock key ownerID next expiresAt grantIndex in
      (mkLockState (<[key := current]> (Locks s)) next, current, true)
  end.

Definition Expire (key : string) (expectedToken : N) (s : LockState) : LockState * Lock * bool :=
  match Locks s !! key with
  | None => (s, Lock_zero, false)
  | Some current =>
      if negb (lk_FencingToken current =? expectedToken)%N then (s, current, false)
      else (mkLockState (delete key (Locks s)) (NextToken s), current, true)
  end.
