(* ===== verification/KvStore.v ===== *)
(** The replicated state machine: the store of [internal/kv] (key-value data,
    locks, fenced values and jobs), its commands, and how a committed log entry
    is applied ([store*.go], [jobs*.go], [command.go], [apply.go]).

    Every method runs under [s.mu], so it is a function from the store to the new
    store and its results; log calls and metrics are left out, and the defensive
    copies of the source are the identity.  String-typed enumerations are
    inductive types with one constructor for all other strings. *)

From stdpp Require Import pretty sorting.
From S2P Require Import Prelude Model Lock.

(** ** Jobs ([internal/model/job.go]) *)

Abbreviation JobID := string.

Inductive JobState :=
| JobPending
| JobScheduled
| JobRunning
| JobSucceeded
| JobFailed
| JobOther (name : string).

#[global] Instance JobState_eq_dec : EqDecision JobState.
Proof. solve_decision. Defined.

Record Job := mkJob {
  jb_ID : JobID;
  jb_Payload : bytes;
  jb_State : JobState;
  jb_ScheduledAt : Z;
  jb_AssignedWorkerID : string;
  jb_FencingToken : N;
  jb_Attempt : N;
  jb_ExecutionID : string;
  jb_CreatedIndex : LogIndex;
}.

Definition Job_zero : Job := mkJob "" [] (JobOther "") 0 "" 0 0 "" 0.

#[global] Instance Job_eq_dec : EqDecision Job.
Proof. solve_decision. Defined.

Definition ErrJobNotFound : error := Sentinel "job not found".
Definition ErrInvalidJob : error := Sentinel "invalid job".
Definition ErrJobAlreadyExists : error := Sentinel "job already exists".
Definition ErrJobNotClaimable : error := Sentinel "job is not claimable".
Definition ErrJobAlreadyClaimed : error := Sentinel "job is already claimed".
Definition ErrInvalidJobState : error := Sentinel "invalid job state transition".
Definition ErrJobOwnershipLost : error := Sentinel "job ownership lost".

(** ** The store *)

Record FencedValue := mkFenced {
  fv_Value : bytes;
  fv_FencingToken : N;
}.

Record Store := mkStore {
  data : gmap string bytes;
  locks : LockState;
  fenced : gmap string FencedValue;
  jobs : gmap JobID Job;
}.

Definition NewStore : Store := mkStore ∅ NewState ∅ ∅.

Definition set_locks (l : LockState) (s : Store) : Store := mkStore (data s) l (fenced s) (jobs s).
Definition set_job (i : JobID) (j : Job) (s : Store) : Store :=
  mkStore (data s) (locks s) (fenced s) (<[i := j]> (jobs s)).

(** *** Plain keys *)

Definition kv_Get (key : string) (s : Store) : option bytes := data s !! key.

Definition Put (key : string) (value : bytes) (s : Store) : Store :=
  mkStore (<[key := value]> (data s)) (locks s) (fenced s) (jobs s).

Definition Delete (key : string) (s : Store) : Store * bool :=
  match data s !! key with
  | None => (s, false)
  | Some _ => (mkStore (delete key (data s)) (locks s) (fenced s) (jobs s), true)
  end.

(** *** Locks *)

Definition AcquireLock (key ownerID : string) (expiresAt : Z) (grantIndex : LogIndex) (s : Store)
    : Store * result (Lock * bool) :=
  if bool_decide (key = "") then (s, Err ErrInvalidKey)
  else if bool_decide (ownerID = "") then (s, Err ErrInvalidOwner)
  else
    let '(l, res, acquired) := Acquire key ownerID expiresAt grantIndex (locks s) in
    (set_locks l s, Ok (res, acquired)).

Definition GetLock (key : string) (s : Store) : option Lock := Get key (locks s).

Definition ExpireLock (key : string) (expectedToken : N) (s : Store) : Store * result (Lock * bool) :=
  if bool_decide (key = "") then (s, Err ErrInvalidKey)
  else if (expectedToken =? 0)%N then (s, Err (Msg "invalid fencing token"))
  else
    let '(l, res, expired) := Expire key expectedToken (locks s) in
    (set_locks l s, Ok (res, expired)).

Definition ListLocks (s : Store) : list Lock := (map_to_list (Locks (locks s))).*2.

(** *** Fenced values *)

Definition FencedPut (key : string) (value : bytes) (fencingToken : N) (s : Store)
    : Store * option error :=
  if bool_decide (key = "") then (s, Some ErrInvalidKey)
  else if (fencingToken =? 0)%N then (s, Some ErrStaleFencingToken)
  else
    match Get key (locks s) with
    | None => (s, Some ErrLockNotFound)
    | Some currentLock =>
        if negb (lk_FencingToken currentLock =? fencingToken)%N then (s, Some ErrStaleFencingToken)
        else (mkStore (data s) (locks s) (<[key := mkFenced value fencingToken]> (fenced s)) (jobs s),
              None)
    end.

Definition GetFenced (key : string) (s : Store) : option FencedValue := fenced s !! key.

(** *** Jobs: creation, reading, replacing, removing *)

Definition CreateJob (job : Job) (s : Store) : Store * option error :=
  if bool_decide (jb_ID job = "") then (s, Some (Wrap "missing job ID" ErrInvalidJob))
  else if bool_decide (jb_State job = JobOther "") then (s, Some (Wrap "missing job state" ErrInvalidJob))
  else
    match jobs s !! jb_ID job with
    | Some _ => (s, Some (Wrap "job" ErrJobAlreadyExists))
    | None => (set_job (jb_ID job) job s, None)
    end.

Definition GetJob (i : JobID) (s : Store) : option Job := jobs s !! i.

Definition UpdateJob (job : Job) (s : Store) : Store * option error :=
  if bool_decide (jb_ID job = "") then (s, Some (Wrap "missing job ID" ErrInvalidJob))
  else
    match jobs s !! jb_ID job with
    | None => (s, Some ErrJobNotFound)
    | Some _ => (set_job (jb_ID job) job s, None)
    end.

Definition DeleteJob (i : JobID) (s : Store) : Store * bool :=
  match jobs s !! i with
  | None => (s, false)
  | Some _ => (mkStore (data s) (locks s) (fenced s) (delete i (jobs s)), true)
  end.

(** *** Jobs: claiming *)

Definition executionID (jobID : JobID) (attempt : N) : string := jobID +:+ "/" +:+ pretty attempt.

Definition validateClaimArguments (i : JobID) (workerID : string) (expiresAt : Z) : option error :=
  if bool_decide (i = "") then Some (Wrap "missing job ID" ErrInvalidJob)
  else if bool_decide (workerID = "") then Some (Wrap "missing worker ID" ErrInvalidJob)
  else if (expiresAt <=? 0)%Z then Some (Wrap "invalid expiration time" ErrInvalidJob)
  else None.

(** [None] when the claim is not settled by the job's state alone. *)
Definition handleExistingClaim (workerID : string) (job : Job) : option (result Job) :=
  match jb_State job with
  | JobPending => None
  | JobScheduled =>
      if bool_decide (jb_AssignedWorkerID job = workerID) then Some (Ok job)
      else Some (Err (Wrap "job is assigned to worker" ErrJobAlreadyClaimed))
  | _ => Some (Err (Wrap "job is in state" ErrJobNotClaimable))
  end.

Definition handleFailedClaim (i : JobID) (workerID : string) (job : Job) (currentLock : Lock) (s : Store)
    : Store * result Job :=
  if bool_decide (lk_OwnerID currentLock = workerID) then
    let job := mkJob (jb_ID job) (jb_Payload job) JobScheduled (jb_ScheduledAt job) workerID
                 (lk_FencingToken currentLock) (jb_Attempt job) (jb_ExecutionID job)
                 (jb_CreatedIndex job) in
    (set_job i job s, Ok job)
  else (s, Err (Wrap "job is owned by worker" ErrJobAlreadyClaimed)).

Definition ClaimJob (i : JobID) (workerID : string) (expiresAt : Z) (grantIndex : LogIndex) (s : Store)
    : Store * result Job :=
  match validateClaimArguments i workerID expiresAt with
  | Some e => (s, Err e)
  | None =>
      match jobs s !! i with
      | None => (s, Err ErrJobNotFound)
      | Some job =>
          match handleExistingClaim workerID job with
          | Some r => (s, r)
          | None =>
              let '(l, currentLock, acquired) := Acquire i workerID expiresAt grantIndex (locks s) in
              let s := set_locks l s in
              if negb acquired then handleFailedClaim i workerID job currentLock s
              else
                let attempt := ((jb_Attempt job + 1) mod u32_modulus)%N in
                let job := mkJob (jb_ID job) (jb_Payload job) JobScheduled (jb_ScheduledAt job) workerID
                             (lk_FencingToken currentLock) attempt
                             (executionID (jb_ID job) attempt) (jb_CreatedIndex job) in
                (set_job i job s, Ok job)
          end
      end
  end.

(** *** Jobs: reclaiming and state transitions *)

Definition active (st : JobState) : bool :=
  bool_decide (st = JobScheduled) || bool_decide (st = JobRunning).

Definition ReclaimExpiredJob (i : JobID) (expectedToken : N) (at_ : Z) (s : Store)
    : Store * result Job :=
  if bool_decide (i = "") || (expectedToken =? 0)%N || (at_ <=? 0)%Z then (s, Err ErrInvalidJob)
  else
    match jobs s !! i with
    | None => (s, Err ErrJobNotFound)
    | Some job =>
        if negb (active (jb_State job)) then (s, Err ErrInvalidJobState)
        else if negb (jb_FencingToken job =? expectedToken)%N then (s, Err ErrJobOwnershipLost)
        else
          match Get i (locks s) with
          | None => (s, Err ErrJobOwnershipLost)
          | Some currentLock =>
              if negb (lk_FencingToken currentLock =? expectedToken)%N then (s, Err ErrJobOwnershipLost)
              else if (at_ <? lk_ExpiresAt currentLock)%Z then (s, Err ErrJobOwnershipLost)
              else
                let s := set_locks (mkLockState (delete i (Locks (locks s))) (NextToken (locks s))) s in
                let job := mkJob (jb_ID job) (jb_Payload job) JobPending (jb_ScheduledAt job) "" 0
                             (jb_Attempt job) (jb_ExecutionID job) (jb_CreatedIndex job) in
                (set_job i job s, Ok job)
          end
    end.

Definition ValidateJobOwnership (jobID : JobID) (workerID : string) (fencingToken : N) (now : Z)
    (s : Store) : bool :=
  if bool_decide (jobID = "") || bool_decide (workerID = "") || (fencingToken =? 0)%N then false
  else
    match jobs s !! jobID with
    | None => false
    | Some job =>
        if bool_decide (jb_AssignedWorkerID job ≠ workerID) then false
        else if negb (jb_FencingToken job =? fencingToken)%N then false
        else if negb (active (jb_State job)) then false
        else
          match Get jobID (locks s) with
          | None => false
          | Some currentLock =>
              if bool_decide (lk_OwnerID currentLock ≠ workerID) then false
              else if negb (lk_FencingToken currentLock =? fencingToken)%N then false
              else if (lk_ExpiresAt currentLock <=? now)%Z then false
              else true
          end
    end.

Definition validateTransitionArguments (jobID workerID executionID : string) (fencingToken : N) (at_ : Z)
    : option error :=
  if bool_decide (jobID = "") || bool_decide (workerID = "") || bool_decide (executionID = "") ||
     (fencingToken =? 0)%N
  then Some ErrInvalidJob
  else if (at_ <=? 0)%Z then Some ErrInvalidJob
  else None.

Definition validateTransitionStates (expectedState nextState : JobState) : option error :=
  if bool_decide (expectedState ≠ JobScheduled) && bool_decide (expectedState ≠ JobRunning)
  then Some ErrInvalidJobState
  else if bool_decide (nextState ≠ JobRunning) && bool_decide (nextState ≠ JobSucceeded) &&
          bool_decide (nextState ≠ JobFailed)
  then Some ErrInvalidJobState
  else if bool_decide (expectedState = JobScheduled) && bool_decide (nextState ≠ JobRunning)
  then Some ErrInvalidJobState
  else if bool_decide (expectedState = JobRunning) && bool_decide (nextState ≠ JobSucceeded) &&
          bool_decide (nextState ≠ JobFailed)
  then Some ErrInvalidJobState
  else None.

Definition validateTransitionOwnership (job : Job) (jobID workerID executionID : string)
    (fencingToken : N) (at_ : Z) (expectedState : JobState) (s : Store) : option error :=
  if bool_decide (jb_State job ≠ expectedState) then Some ErrInvalidJobState
  else if bool_decide (jb_AssignedWorkerID job ≠ workerID) then Some ErrJobOwnershipLost
  else if bool_decide (jb_ExecutionID job ≠ executionID) then Some ErrJobOwnershipLost
  else if negb (jb_FencingToken job =? fencingToken)%N then Some ErrJobOwnershipLost
  else
    match Get jobID (locks s) with
    | None => Some ErrJobOwnershipLost
    | Some currentLock =>
        if bool_decide (lk_OwnerID currentLock ≠ workerID) then Some ErrJobOwnershipLost
        else if negb (lk_FencingToken currentLock =? fencingToken)%N then Some ErrJobOwnershipLost
        else if (lk_ExpiresAt currentLock <=? at_)%Z then Some ErrJobOwnershipLost
        else None
    end.

Definition with_state (st : JobState) (job : Job) : Job :=
  mkJob (jb_ID job) (jb_Payload job) st (jb_ScheduledAt job) (jb_AssignedWorkerID job)
    (jb_FencingToken job) (jb_Attempt job) (jb_ExecutionID job) (jb_CreatedIndex job).

Definition TransitionJobState (jobID workerID executionID : string) (fencingToken : N)
    (expectedState nextState : JobState) (at_ : Z) (s : Store) : Store * result Job :=
  match validateTransitionArguments jobID workerID executionID fencingToken at_ with
  | Some e => (s, Err e)
  | None =>
      match validateTransitionStates expectedState nextState with
      | Some e => (s, Err e)
      | None =>
          match jobs s !! jobID with
          | None => (s, Err ErrJobNotFound)
          | Some job =>
              match validateTransitionOwnership job jobID workerID executionID fencingToken at_
                      expectedState s with
              | Some e => (s, Err e)
              | None => (set_job jobID (with_state nextState job) s, Ok (with_state nextState job))
              end
          end
      end
  end.

(** *** Jobs: queries

    The source ranges over the job map, in no fixed order, and sorts with
    [sort.Slice]; here the map is listed in the order of [map_to_list] and
    sorted by [merge_sort]. *)

(** The order of the sort: by [ScheduledAt], then by ID. *)
Definition job_less (a b : Job) : bool :=
  if negb (jb_ScheduledAt a =? jb_ScheduledAt b)%Z then (jb_ScheduledAt a <? jb_ScheduledAt b)%Z
  else String.ltb (jb_ID a) (jb_ID b).

Definition job_le (a b : Job) : Prop := job_less b a = false.

#[global] Instance job_le_dec a b : Decision (job_le a b).
Proof. unfold job_le. apply _. Defined.

Definition sort_jobs (js : list Job) : list Job := merge_sort job_le js.

Definition all_jobs (s : Store) : list Job := (map_to_list (jobs s)).*2.

Definition ListPendingJobs (s : Store) : list Job :=
  sort_jobs (filter (fun job => jb_State job = JobPending) (all_jobs s)).

(** The job's lock exists with the job's token and has expired. *)
Definition lease_expired (now : Z) (s : Store) (job : Job) : bool :=
  active (jb_State job) &&
  match Get (jb_ID job) (locks s) with
  | None => false
  | Some currentLock =>
      (lk_FencingToken currentLock =? jb_FencingToken job)%N && (lk_ExpiresAt currentLock <=? now)%Z
  end.

Definition ListExpiredJobs (now : Z) (s : Store) : list Job :=
  if (now <=? 0)%Z then []
  else sort_jobs (filter (fun job => lease_expired now s job = true) (all_jobs s)).

Definition ListAssignedJobs (workerID : string) (s : Store) : list Job :=
  if bool_decide (workerID = "") then []
  else sort_jobs (filter (fun job => jb_State job = JobScheduled /\ jb_AssignedWorkerID job = workerID)
                    (all_jobs s)).

(** ** Commands *)

Inductive CommandType :=
| CommandPut
| CommandDelete
| CommandReadBarrier
| CommandLockAcquire
| CommandLockExpire
| CommandFencedPut
| CommandCreateJob
| CommandClaimJob
| CommandJobReclaim
| CommandJobStart
| CommandJobSucceeded
| CommandJobFailed
| CommandUnknown (name : string).

Record Command := mkCommand {
  cmd_Type : CommandType;
  cmd_Key : string;
  cmd_Value : bytes;
  cmd_JobID : string;
  cmd_Payload : bytes;
  cmd_ScheduledAt : Z;
  cmd_OwnerID : string;
  cmd_ExpiresAt : Z;
  cmd_FencingToken : N;
  cmd_ExecutionID : string;
  cmd_ExpectedState : JobState;
  cmd_At : Z;
}.

#[global] Instance CommandType_eq_dec : EqDecision CommandType.
Proof. solve_decision. Defined.

#[global] Instance Command_eq_dec : EqDecision Command.
Proof. solve_decision. Defined.

(** ** Applying a command *)

Record ApplyResult := mkApplyResult {
  ar_Job : option Job;
  ar_Err : option error;
}.

Definition err_of {A} (r : result A) : option error :=
  match r with Ok _ => None | Err e => Some e end.

Definition applyKVCommand (c : Command) (s : Store) : Store * ApplyResult :=
  match cmd_Type c with
  | CommandPut => (Put (cmd_Key c) (cmd_Value c) s, mkApplyResult None None)
  | CommandDelete => (fst (Delete (cmd_Key c) s), mkApplyResult None None)
  | _ => (s, mkApplyResult None None)
  end.

Definition applyFencedPut (c : Command) (s : Store) : Store * ApplyResult :=
  match FencedPut (cmd_Key c) (cmd_Value c) (cmd_FencingToken c) s with
  | (s, None) => (s, mkApplyResult None None)
  | (s, Some e) =>
      if errors_Is e "stale fencing token" || errors_Is e "lock not found"
      then (s, mkApplyResult None (Some e))
      else (s, mkApplyResult None (Some (Wrap "fenced put" e)))
  end.

Definition applyLockCommand (c : Command) (index : LogIndex) (s : Store) : Store * ApplyResult :=
  match cmd_Type c with
  | CommandLockAcquire =>
      match AcquireLock (cmd_Key c) (cmd_OwnerID c) (cmd_ExpiresAt c) index s with
      | (s, Err e) => (s, mkApplyResult None (Some (Wrap "acquire lock" e)))
      | (s, Ok _) => (s, mkApplyResult None None)
      end
  | CommandLockExpire =>
      match ExpireLock (cmd_Key c) (cmd_FencingToken c) s with
      | (s, Err e) => (s, mkApplyResult None (Some (Wrap "expire lock" e)))
      | (s, Ok _) => (s, mkApplyResult None None)
      end
  | CommandFencedPut => applyFencedPut c s
  | _ => (s, mkApplyResult None None)
  end.

Definition applyClaimJob (c : Command) (index : LogIndex) (s : Store) : Store * ApplyResult :=
  match ClaimJob (cmd_JobID c) (cmd_OwnerID c) (cmd_ExpiresAt c) index s with
  | (s, Err e) => (s, mkApplyResult None (Some (Wrap "claim job" e)))
  | (s, Ok job) => (s, mkApplyResult (Some job) None)
  end.

Definition applyJobCreationCommand (c : Command) (index : LogIndex) (s : Store) : Store * ApplyResult :=
  match cmd_Type c with
  | CommandClaimJob => applyClaimJob c index s
  | _ =>
      let job := mkJob (cmd_JobID c) (cmd_Payload c) JobPending (cmd_ScheduledAt c) "" 0 0 "" index in
      match CreateJob job s with
      | (s, Some e) => (s, mkApplyResult (Some job) (Some (Wrap "create job" e)))
      | (s, None) => (s, mkApplyResult (Some job) None)
      end
  end.

(** [jobTransitionStates] panics on other commands; [None] stands for that. *)
Definition jobTransitionStates (t : CommandType) : option (JobState * JobState) :=
  match t with
  | CommandJobStart => Some (JobScheduled, JobRunning)
  | CommandJobSucceeded => Some (JobRunning, JobSucceeded)
  | CommandJobFailed => Some (JobRunning, JobFailed)
  | _ => None
  end.

Definition job_result (r : result Job) : ApplyResult :=
  match r with
  | Ok job => mkApplyResult (Some job) None
  | Err e => mkApplyResult (Some Job_zero) (Some e)
  end.

Definition applyJobTransitionCommand (c : Command) (s : Store) : option (Store * ApplyResult) :=
  match jobTransitionStates (cmd_Type c) with
  | None => None
  | Some (fromState, toState) =>
      let '(s, r) := TransitionJobState (cmd_JobID c) (cmd_OwnerID c) (cmd_ExecutionID c)
                       (cmd_FencingToken c) fromState toState (cmd_At c) s in
      Some (s, job_result r)
  end.

Definition applyJobReclaimCommand (c : Command) (s : Store) : Store * ApplyResult :=
  let '(s, r) := ReclaimExpiredJob (cmd_JobID c) (cmd_FencingToken c) (cmd_At c) s in
  (s, job_result r).

(** The dispatch; [None] stands for a panic. *)
Definition applyCommand (c : Command) (index : LogIndex) (s : Store) : option (Store * ApplyResult) :=
  match cmd_Type c with
  | CommandPut | CommandDelete | CommandReadBarrier => Some (applyKVCommand c s)
  | CommandLockAcquire | CommandLockExpire | CommandFencedPut => Some (applyLockCommand c index s)
  | CommandCreateJob | CommandClaimJob => Some (applyJobCreationCommand c index s)
  | CommandJobStart | CommandJobSucceeded | CommandJobFailed => applyJobTransitionCommand c s
  | CommandJobReclaim => Some (applyJobReclaimCommand c s)
  | CommandUnknown name => Some (s, mkApplyResult None (Some (Msg "unknown command type")))
  end.
