(* ===== verification/JsonCommand.v ===== *)
(** Commands as JSON: [EncodeCommand] and [DecodeCommand] of [internal/kv/command.go].  A
    command whose strings are valid UTF-8 and whose integers fit their types is read back as
    it was written; a string that is not valid UTF-8 is replaced on the way. *)

From S2P Require Import Prelude Model Bytes Decimal Utf8 Json Base64 JsonCodec Lock KvStore.

(** ** The named string types *)

Definition type_text (t : CommandType) : string :=
  match t with
  | CommandPut => "PUT" | CommandDelete => "DELETE" | CommandReadBarrier => "READ_BARRIER"
  | CommandLockAcquire => "LOCK_ACQUIRE" | CommandLockExpire => "LOCK_EXPIRE" | CommandFencedPut => "FENCED_PUT"
  | CommandCreateJob => "CREATE_JOB" | CommandClaimJob => "CLAIM_JOB" | CommandJobReclaim => "JOB_RECLAIM"
  | CommandJobStart => "JOB_START" | CommandJobSucceeded => "JOB_SUCCEEDED" | CommandJobFailed => "JOB_FAILED"
  | CommandUnknown name => name
  end.

Definition known_types : list CommandType :=
  [CommandPut; CommandDelete; CommandReadBarrier; CommandLockAcquire; CommandLockExpire; CommandFencedPut;
   CommandCreateJob; CommandClaimJob; CommandJobReclaim; CommandJobStart; CommandJobSucceeded; CommandJobFailed].

Definition text_type (s : string) : CommandType :=
  default (CommandUnknown s) (find (fun t => bool_decide (type_text t = s)) known_types).

Definition state_text (st : JobState) : string :=
  match st with
  | JobPending => "PENDING" | JobScheduled => "SCHEDULED" | JobRunning => "RUNNING"
  | JobSucceeded => "SUCCEEDED" | JobFailed => "FAILED" | JobOther name => name
  end.

Definition text_state (s : string) : JobState :=
  default (JobOther s) (find (fun st => bool_decide (state_text st = s)) [JobPending; JobScheduled; JobRunning; JobSucceeded; JobFailed]).

Definition dec_type : decoder CommandType := fun v t => text_type <$> dec_string v (type_text t).
Definition dec_state : decoder JobState := fun v st => text_state <$> dec_string v (state_text st).

(** ** The struct *)

Definition Command_zero : Command := mkCommand (CommandUnknown "") "" [] "" [] 0 "" 0 0 "" (JobOther "") 0.

Definition set_Type t c := mkCommand t (cmd_Key c) (cmd_Value c) (cmd_JobID c) (cmd_Payload c) (cmd_ScheduledAt c)
  (cmd_OwnerID c) (cmd_ExpiresAt c) (cmd_FencingToken c) (cmd_ExecutionID c) (cmd_ExpectedState c) (cmd_At c).
Definition set_Key k c := mkCommand (cmd_Type c) k (cmd_Value c) (cmd_JobID c) (cmd_Payload c) (cmd_ScheduledAt c)
  (cmd_OwnerID c) (cmd_ExpiresAt c) (cmd_FencingToken c) (cmd_ExecutionID c) (cmd_ExpectedState c) (cmd_At c).
Definition set_Value x c := mkCommand (cmd_Type c) (cmd_Key c) x (cmd_JobID c) (cmd_Payload c) (cmd_ScheduledAt c)
  (cmd_OwnerID c) (cmd_ExpiresAt c) (cmd_FencingToken c) (cmd_ExecutionID c) (cmd_ExpectedState c) (cmd_At c).
Definition set_JobID x c := mkCommand (cmd_Type c) (cmd_Key c) (cmd_Value c) x (cmd_Payload c) (cmd_ScheduledAt c)
  (cmd_OwnerID c) (cmd_ExpiresAt c) (cmd_FencingToken c) (cmd_ExecutionID c) (cmd_ExpectedState c) (cmd_At c).
Definition set_Payload x c := mkCommand (cmd_Type c) (cmd_Key c) (cmd_Value c) (cmd_JobID c) x (cmd_ScheduledAt c)
  (cmd_OwnerID c) (cmd_ExpiresAt c) (cmd_FencingToken c) (cmd_ExecutionID c) (cmd_ExpectedState c) (cmd_At c).
Definition set_ScheduledAt x c := mkCommand (cmd_Type c) (cmd_Key c) (cmd_Value c) (cmd_JobID c) (cmd_Payload c) x
  (cmd_OwnerID c) (cmd_ExpiresAt c) (cmd_FencingToken c) (cmd_ExecutionID c) (cmd_ExpectedState c) (cmd_At c).
Definition set_OwnerID x c := mkCommand (cmd_Type c) (cmd_Key c) (cmd_Value c) (cmd_JobID c) (cmd_Payload c) (cmd_ScheduledAt c)
  x (cmd_ExpiresAt c) (cmd_FencingToken c) (cmd_ExecutionID c) (cmd_ExpectedState c) (cmd_At c).
Definition set_ExpiresAt x c := mkCommand (cmd_Type c) (cmd_Key c) (cmd_Value c) (cmd_JobID c) (cmd_Payload c) (cmd_ScheduledAt c)
  (cmd_OwnerID c) x (cmd_FencingToken c) (cmd_ExecutionID c) (cmd_ExpectedState c) (cmd_At c).
Definition set_FencingToken x c := mkCommand (cmd_Type c) (cmd_Key c) (cmd_Value c) (cmd_JobID c) (cmd_Payload c) (cmd_ScheduledAt c)
  (cmd_OwnerID c) (cmd_ExpiresAt c) x (cmd_ExecutionID c) (cmd_ExpectedState c) (cmd_At c).
Definition set_ExecutionID x c := mkCommand (cmd_Type c) (cmd_Key c) (cmd_Value c) (cmd_JobID c) (cmd_Payload c) (cmd_ScheduledAt c)
  (cmd_OwnerID c) (cmd_ExpiresAt c) (cmd_FencingToken c) x (cmd_ExpectedState c) (cmd_At c).
Definition set_ExpectedState x c := mkCommand (cmd_Type c) (cmd_Key c) (cmd_Value c) (cmd_JobID c) (cmd_Payload c) (cmd_ScheduledAt c)
  (cmd_OwnerID c) (cmd_ExpiresAt c) (cmd_FencingToken c) (cmd_ExecutionID c) x (cmd_At c).
Definition set_At x c := mkCommand (cmd_Type c) (cmd_Key c) (cmd_Value c) (cmd_JobID c) (cmd_Payload c) (cmd_ScheduledAt c)
  (cmd_OwnerID c) (cmd_ExpiresAt c) (cmd_FencingToken c) (cmd_ExecutionID c) (cmd_ExpectedState c) x.

Definition command_fields : list (string * decoder Command) :=
  [("type", field dec_type cmd_Type set_Type);
   ("key", field dec_string cmd_Key set_Key);
   ("value", field dec_bytes cmd_Value set_Value);
   ("job_id", field dec_string cmd_JobID set_JobID);
   ("payload", field dec_bytes cmd_Payload set_Payload);
   ("scheduled_at", field dec_int cmd_ScheduledAt set_ScheduledAt);
   ("owner_id", field dec_string cmd_OwnerID set_OwnerID);
   ("expires_at", field dec_int cmd_ExpiresAt set_ExpiresAt);
   ("fencing_token", field (dec_uint 64) cmd_FencingToken set_FencingToken);
   ("execution_id", field dec_string cmd_ExecutionID set_ExecutionID);
   ("expected_state", field dec_state cmd_ExpectedState set_ExpectedState);
   ("at", field dec_int cmd_At set_At)].

Definition command_json (c : Command) : json :=
  JObject (
    member "type" (enc_string (type_text (cmd_Type c))) ++
    member "key" (enc_string (cmd_Key c)) ++
    member_unless (bool_decide (cmd_Value c = [])) "value" (enc_bytes (cmd_Value c)) ++
    member_unless (bool_decide (cmd_JobID c = "")) "job_id" (enc_string (cmd_JobID c)) ++
    member_unless (bool_decide (cmd_Payload c = [])) "payload" (enc_bytes (cmd_Payload c)) ++
    member_unless (cmd_ScheduledAt c =? 0)%Z "scheduled_at" (enc_int (cmd_ScheduledAt c)) ++
    member_unless (bool_decide (cmd_OwnerID c = "")) "owner_id" (enc_string (cmd_OwnerID c)) ++
    member_unless (cmd_ExpiresAt c =? 0)%Z "expires_at" (enc_int (cmd_ExpiresAt c)) ++
    member_unless (cmd_FencingToken c =? 0)%N "fencing_token" (enc_uint (cmd_FencingToken c)) ++
    member_unless (bool_decide (cmd_ExecutionID c = "")) "execution_id" (enc_string (cmd_ExecutionID c)) ++
    member_unless (bool_decide (state_text (cmd_ExpectedState c) = "")) "expected_state"
      (enc_string (state_text (cmd_ExpectedState c))) ++
    member_unless (cmd_At c =? 0)%Z "at" (enc_int (cmd_At c))).

(** The text of a command; [json.Marshal] does not fail on it. *)
Definition command_data (c : Command) : bytes := render (command_json c).

Definition decode_command (data : bytes) : result Command :=
  json_Unmarshal_into (dec_struct command_fields) data Command_zero.

(** ** Round trip *)

(** A command as the program builds them from valid text. *)
Record command_ok (c : Command) : Prop := mkCommandOk {
  ok_type : text_type (type_text (cmd_Type c)) = cmd_Type c;
  ok_state : text_state (state_text (cmd_ExpectedState c)) = cmd_ExpectedState c;
  ok_texts : Forall text [type_text (cmd_Type c); cmd_Key c; cmd_JobID c; cmd_OwnerID c; cmd_ExecutionID c; state_text (cmd_ExpectedState c)];
  ok_times : Forall (fun z => is_i64 z) [cmd_ScheduledAt c; cmd_ExpiresAt c; cmd_At c];
  ok_token : is_u64 (cmd_FencingToken c);
}.

Lemma dec_enc_type t old : text_type (type_text t) = t -> dec_type (enc_string (type_text t)) old = Some t.
Proof. intros E. unfold dec_type. rewrite dec_enc_string. exact (f_equal Some E). Qed.

Lemma dec_enc_state st old : text_state (state_text st) = st -> dec_state (enc_string (state_text st)) old = Some st.
Proof. intros E. unfold dec_state. rewrite dec_enc_string. exact (f_equal Some E). Qed.

Ltac norm_command :=
  cbv beta iota delta [set_Type set_Key set_Value set_JobID set_Payload set_ScheduledAt set_OwnerID set_ExpiresAt set_FencingToken
       set_ExecutionID set_ExpectedState set_At cmd_Type cmd_Key cmd_Value cmd_JobID cmd_Payload cmd_ScheduledAt
       cmd_OwnerID cmd_ExpiresAt cmd_FencingToken cmd_ExecutionID cmd_ExpectedState cmd_At Command_zero].

Lemma command_json_read c : command_ok c -> dec_struct command_fields (command_json c) Command_zero = Some c.
Proof.
  destruct c as [ty k v ji pl sa ow ex tok xid st at_]. intros [Ht Hs _ Hz Hu].
  cbn [cmd_Type cmd_Key cmd_Value cmd_JobID cmd_Payload cmd_ScheduledAt cmd_OwnerID cmd_ExpiresAt cmd_FencingToken
       cmd_ExecutionID cmd_ExpectedState cmd_At] in *. apply Forall_cons in Hz as [Hz1 Hz]. apply Forall_cons in Hz as [Hz2 Hz]. apply Forall_cons in Hz as [Hz3 _].
  unfold command_json, dec_struct. norm_command.
  rewrite (dec_fields_member _ _ dec_type cmd_Type set_Type _ _ _ ty); [|reflexivity|by apply dec_enc_type].
  norm_command.
  rewrite (dec_fields_member _ _ dec_string cmd_Key set_Key _ _ _ k); [|reflexivity|by rewrite dec_enc_string].
  norm_command.
  rewrite (dec_fields_step _ _ dec_bytes cmd_Value set_Value _ _ _ _ v);
    [|reflexivity|by rewrite dec_enc_bytes|intros E%bool_decide_eq_true; rewrite E; reflexivity].
  norm_command.
  rewrite (dec_fields_step _ _ dec_string cmd_JobID set_JobID _ _ _ _ ji);
    [|reflexivity|by rewrite dec_enc_string|intros E%bool_decide_eq_true; rewrite E; reflexivity].
  norm_command.
  rewrite (dec_fields_step _ _ dec_bytes cmd_Payload set_Payload _ _ _ _ pl);
    [|reflexivity|by rewrite dec_enc_bytes|intros E%bool_decide_eq_true; rewrite E; reflexivity].
  norm_command.
  rewrite (dec_fields_step _ _ dec_int cmd_ScheduledAt set_ScheduledAt _ _ _ _ sa);
    [|reflexivity|apply dec_enc_int; assumption|intros E%Z.eqb_eq; rewrite E; reflexivity].
  norm_command.
  rewrite (dec_fields_step _ _ dec_string cmd_OwnerID set_OwnerID _ _ _ _ ow);
    [|reflexivity|by rewrite dec_enc_string|intros E%bool_decide_eq_true; rewrite E; reflexivity].
  norm_command.
  rewrite (dec_fields_step _ _ dec_int cmd_ExpiresAt set_ExpiresAt _ _ _ _ ex);
    [|reflexivity|apply dec_enc_int; assumption|intros E%Z.eqb_eq; rewrite E; reflexivity].
  norm_command.
  rewrite (dec_fields_step _ _ (dec_uint 64) cmd_FencingToken set_FencingToken _ _ _ _ tok);
    [|reflexivity|apply dec_enc_uint; [apply N.le_refl|exact Hu]|intros E%N.eqb_eq; rewrite E; reflexivity].
  norm_command.
  rewrite (dec_fields_step _ _ dec_string cmd_ExecutionID set_ExecutionID _ _ _ _ xid);
    [|reflexivity|by rewrite dec_enc_string|intros E%bool_decide_eq_true; rewrite E; reflexivity].
  norm_command.
  rewrite (dec_fields_step _ _ dec_state cmd_ExpectedState set_ExpectedState _ _ _ _ st);
    [|reflexivity|by apply dec_enc_state|].
  2: { intros E%bool_decide_eq_true. rewrite E in Hs. by rewrite <- Hs. }
  norm_command.
  rewrite <- (app_nil_r (member_unless (at_ =? 0)%Z "at" _)).
  rewrite (dec_fields_step _ _ dec_int cmd_At set_At _ _ _ _ at_); [|reflexivity|apply dec_enc_int; assumption|intros E%Z.eqb_eq; rewrite E; reflexivity].
  norm_command.
  reflexivity.
Qed.

Lemma command_json_writable c : command_ok c -> writable 0 (command_json c).
Proof.
  intros [_ _ Ht Hz Hu]. apply Forall_cons in Hz as [Z1 Hz]. apply Forall_cons in Hz as [Z2 Hz]. apply Forall_cons in Hz as [Z3 _].
  rewrite !Forall_cons in Ht. destruct Ht as (H1 & H2 & H3 & H4 & H5 & H6 & _).
  apply object_writable; [done|].
  repeat (apply Forall_app; split); first [apply member_ok|apply member_unless_ok]; try reflexivity; try exact H1; try exact H2;
    intros _; first [exact H3|exact H4|exact H5|exact H6|apply enc_bytes_writable|apply print_int_text; assumption|apply print_uint_text; exact Hu].
Qed.

(** A command of valid text and numbers in range is read back. *)
Lemma command_read c : command_ok c -> decode_command (command_data c) = Ok c.
Proof.
  intros Hc. unfold decode_command, json_Unmarshal_into, command_data.
  rewrite json_parse_render by (by apply command_json_writable). by rewrite command_json_read.
Qed.

(** ** What is read *)

Lemma type_text_of s : type_text (text_type s) = s.
Proof. unfold text_type. destruct (find _ known_types) as [t|] eqn:E; [|done]. by apply find_some in E as [_ E%bool_decide_eq_true]. Qed.

Lemma state_text_of s : state_text (text_state s) = s.
Proof. unfold text_state. destruct (find _ _) as [t|] eqn:E; [|done]. by apply find_some in E as [_ E%bool_decide_eq_true]. Qed.

Definition type_ok (t : CommandType) : Prop := text_type (type_text t) = t /\ text (type_text t).
Definition state_ok (st : JobState) : Prop := text_state (state_text st) = st /\ text (state_text st).

Lemma dec_type_keeps : keeps type_ok dec_type.
Proof.
  intros v t t' Hv [_ Ht]. unfold dec_type. destruct (dec_string v _) as [x|] eqn:E; [|done].
  intros [= Ex]. change (text_type x = t') in Ex. subst t'.
  split; rewrite !type_text_of; [done|]. by eapply dec_string_keeps.
Qed.

Lemma dec_state_keeps : keeps state_ok dec_state.
Proof.
  intros v t t' Hv [_ Ht]. unfold dec_state. destruct (dec_string v _) as [x|] eqn:E; [|done].
  intros [= Ex]. change (text_state x = t') in Ex. subst t'.
  split; rewrite !state_text_of; [done|]. by eapply dec_string_keeps.
Qed.

(** The property of one field of a command, from and to those of the command. *)
Ltac command_field :=
  intros;
  repeat match goal with
  | H : command_ok _ |- _ => destruct H
  | H : Forall _ (_ :: _) |- _ => apply Forall_cons in H as [? H]
  | H : type_ok _ |- _ => destruct H
  | H : state_ok _ |- _ => destruct H
  end;
  first [assumption|split; assumption|constructor; [assumption..|repeat (constructor; [assumption|]); constructor
    |repeat (constructor; [assumption|]); constructor|assumption]].

(** A command read from the log consists of valid text and numbers in range, whatever
    bytes it was read from. *)
Lemma decoded_ok data c : decode_command data = Ok c -> command_ok c.
Proof.
  apply Unmarshal_keeps.
  - apply dec_struct_keeps. repeat (apply Forall_cons; split); try apply Forall_nil_2; cbn [snd].
    + apply (field_keeps _ type_ok); [apply dec_type_keeps|command_field..].
    + apply (field_keeps _ text); [apply dec_string_keeps|command_field..].
    + apply (field_keeps _ (fun _ => True)); [done|done|command_field].
    + apply (field_keeps _ text); [apply dec_string_keeps|command_field..].
    + apply (field_keeps _ (fun _ => True)); [done|done|command_field].
    + apply (field_keeps _ (fun z => is_i64 z)); [apply dec_int_keeps|command_field..].
    + apply (field_keeps _ text); [apply dec_string_keeps|command_field..].
    + apply (field_keeps _ (fun z => is_i64 z)); [apply dec_int_keeps|command_field..].
    + apply (field_keeps _ (fun n => is_u64 n)); [apply (dec_uint_keeps 64)|command_field..].
    + apply (field_keeps _ text); [apply dec_string_keeps|command_field..].
    + apply (field_keeps _ state_ok); [apply dec_state_keeps|command_field..].
    + apply (field_keeps _ (fun z => is_i64 z)); [apply dec_int_keeps|command_field..].
  - constructor; [reflexivity|reflexivity|repeat (apply Forall_cons; split; [reflexivity|])
      |repeat (apply Forall_cons; split; [cbn; lia|])|reflexivity]; apply Forall_nil_2.
Qed.

(** C23: commands survive the log exactly when their text does.  A command is read back as it
    was written if and only if its strings are valid UTF-8, its integers fit their types and
    its type and state are the constants they spell; and whatever bytes of a log entry are
    read as a command, that command satisfies this, so writing it again loses nothing. *)
Theorem command_roundtrip c :
  (decode_command (command_data c) = Ok c <-> command_ok c) /\
  forall data, decode_command data = Ok c -> command_ok c.
Proof. split; [split; [apply decoded_ok|apply command_read]|intros bs; apply (decoded_ok bs)]. Qed.

(** The conditions on a command with given fields. *)
Ltac command_texts :=
  constructor;
  [reflexivity|reflexivity|repeat first [assumption|reflexivity|constructor]
  |repeat first [assumption|progress cbn; lia|constructor]|first [assumption|reflexivity]].
