(* ===== verification/JsonStore.v ===== *)
(** The values of a snapshot of the store as JSON: [lock.Lock], [kv.FencedValue] and
    [model.Job], structs without field tags, written with all their fields. *)

From stdpp Require Import pretty.
From S2P Require Import Prelude Model Bytes Decimal Utf8 Json Base64 JsonCodec Lock KvStore JsonCommand.

(** ** Locks *)

Definition set_lk_Key x l := mkLock x (lk_OwnerID l) (lk_FencingToken l) (lk_ExpiresAt l) (lk_GrantIndex l).
Definition set_lk_OwnerID x l := mkLock (lk_Key l) x (lk_FencingToken l) (lk_ExpiresAt l) (lk_GrantIndex l).
Definition set_lk_FencingToken x l := mkLock (lk_Key l) (lk_OwnerID l) x (lk_ExpiresAt l) (lk_GrantIndex l).
Definition set_lk_ExpiresAt x l := mkLock (lk_Key l) (lk_OwnerID l) (lk_FencingToken l) x (lk_GrantIndex l).
Definition set_lk_GrantIndex x l := mkLock (lk_Key l) (lk_OwnerID l) (lk_FencingToken l) (lk_ExpiresAt l) x.

Definition lock_fields : list (string * decoder Lock) :=
  [("Key", field dec_string lk_Key set_lk_Key);
   ("OwnerID", field dec_string lk_OwnerID set_lk_OwnerID);
   ("FencingToken", field (dec_uint 64) lk_FencingToken set_lk_FencingToken);
   ("ExpiresAt", field dec_int lk_ExpiresAt set_lk_ExpiresAt);
   ("GrantIndex", field (dec_uint 64) lk_GrantIndex set_lk_GrantIndex)].

Definition lock_json (l : Lock) : json :=
  JObject (
    member "Key" (enc_string (lk_Key l)) ++
    member "OwnerID" (enc_string (lk_OwnerID l)) ++
    member "FencingToken" (enc_uint (lk_FencingToken l)) ++
    member "ExpiresAt" (enc_int (lk_ExpiresAt l)) ++
    member "GrantIndex" (enc_uint (lk_GrantIndex l))).

(** ** Fenced values *)

Definition FencedValue_zero : FencedValue := mkFenced [] 0.

Definition set_fv_Value x v := mkFenced x (fv_FencingToken v).
Definition set_fv_FencingToken x v := mkFenced (fv_Value v) x.

Definition fenced_fields : list (string * decoder FencedValue) :=
  [("Value", field dec_bytes fv_Value set_fv_Value);
   ("FencingToken", field (dec_uint 64) fv_FencingToken set_fv_FencingToken)].

Definition fenced_json (v : FencedValue) : json :=
  JObject (member "Value" (enc_bytes (fv_Value v)) ++ member "FencingToken" (enc_uint (fv_FencingToken v))).

(** ** Jobs *)

Definition set_jb_ID x j := mkJob x (jb_Payload j) (jb_State j) (jb_ScheduledAt j) (jb_AssignedWorkerID j)
  (jb_FencingToken j) (jb_Attempt j) (jb_ExecutionID j) (jb_CreatedIndex j).
Definition set_jb_Payload x j := mkJob (jb_ID j) x (jb_State j) (jb_ScheduledAt j) (jb_AssignedWorkerID j)
  (jb_FencingToken j) (jb_Attempt j) (jb_ExecutionID j) (jb_CreatedIndex j).
Definition set_jb_State x j := mkJob (jb_ID j) (jb_Payload j) x (jb_ScheduledAt j) (jb_AssignedWorkerID j)
  (jb_FencingToken j) (jb_Attempt j) (jb_ExecutionID j) (jb_CreatedIndex j).
Definition set_jb_ScheduledAt x j := mkJob (jb_ID j) (jb_Payload j) (jb_State j) x (jb_AssignedWorkerID j)
  (jb_FencingToken j) (jb_Attempt j) (jb_ExecutionID j) (jb_CreatedIndex j).
Definition set_jb_AssignedWorkerID x j := mkJob (jb_ID j) (jb_Payload j) (jb_State j) (jb_ScheduledAt j) x
  (jb_FencingToken j) (jb_Attempt j) (jb_ExecutionID j) (jb_CreatedIndex j).
Definition set_jb_FencingToken x j := mkJob (jb_ID j) (jb_Payload j) (jb_State j) (jb_ScheduledAt j) (jb_AssignedWorkerID j)
  x (jb_Attempt j) (jb_ExecutionID j) (jb_CreatedIndex j).
Definition set_jb_Attempt x j := mkJob (jb_ID j) (jb_Payload j) (jb_State j) (jb_ScheduledAt j) (jb_AssignedWorkerID j)
  (jb_FencingToken j) x (jb_ExecutionID j) (jb_CreatedIndex j).
Definition set_jb_ExecutionID x j := mkJob (jb_ID j) (jb_Payload j) (jb_State j) (jb_ScheduledAt j) (jb_AssignedWorkerID j)
  (jb_FencingToken j) (jb_Attempt j) x (jb_CreatedIndex j).
Definition set_jb_CreatedIndex x j := mkJob (jb_ID j) (jb_Payload j) (jb_State j) (jb_ScheduledAt j) (jb_AssignedWorkerID j)
  (jb_FencingToken j) (jb_Attempt j) (jb_ExecutionID j) x.

Definition job_fields : list (string * decoder Job) :=
  [("ID", field dec_string jb_ID set_jb_ID);
   ("Payload", field dec_bytes jb_Payload set_jb_Payload);
   ("State", field dec_state jb_State set_jb_State);
   ("ScheduledAt", field dec_int jb_ScheduledAt set_jb_ScheduledAt);
   ("AssignedWorkerID", field dec_string jb_AssignedWorkerID set_jb_AssignedWorkerID);
   ("FencingToken", field (dec_uint 64) jb_FencingToken set_jb_FencingToken);
   ("Attempt", field (dec_uint 32) jb_Attempt set_jb_Attempt);
   ("ExecutionID", field dec_string jb_ExecutionID set_jb_ExecutionID);
   ("CreatedIndex", field (dec_uint 64) jb_CreatedIndex set_jb_CreatedIndex)].

Definition job_json (j : Job) : json :=
  JObject (
    member "ID" (enc_string (jb_ID j)) ++
    member "Payload" (enc_bytes (jb_Payload j)) ++
    member "State" (enc_string (state_text (jb_State j))) ++
    member "ScheduledAt" (enc_int (jb_ScheduledAt j)) ++
    member "AssignedWorkerID" (enc_string (jb_AssignedWorkerID j)) ++
    member "FencingToken" (enc_uint (jb_FencingToken j)) ++
    member "Attempt" (enc_uint (jb_Attempt j)) ++
    member "ExecutionID" (enc_string (jb_ExecutionID j)) ++
    member "CreatedIndex" (enc_uint (jb_CreatedIndex j))).

(** ** Values of valid text and numbers in range *)

Definition lock_text (l : Lock) : Prop :=
  text (lk_Key l) /\ text (lk_OwnerID l) /\ is_u64 (lk_FencingToken l) /\ is_i64 (lk_ExpiresAt l) /\ is_u64 (lk_GrantIndex l).

Definition fenced_text (v : FencedValue) : Prop := is_u64 (fv_FencingToken v).

Definition job_text (j : Job) : Prop :=
  text (jb_ID j) /\ state_ok (jb_State j) /\ is_i64 (jb_ScheduledAt j) /\ text (jb_AssignedWorkerID j) /\
  is_u64 (jb_FencingToken j) /\ (jb_Attempt j < u32_modulus)%N /\ text (jb_ExecutionID j) /\ is_u64 (jb_CreatedIndex j).

(** ** They are read back *)

Ltac norm_lock :=
  cbv beta iota delta [set_lk_Key set_lk_OwnerID set_lk_FencingToken set_lk_ExpiresAt set_lk_GrantIndex
    lk_Key lk_OwnerID lk_FencingToken lk_ExpiresAt lk_GrantIndex Lock_zero].

Lemma lock_read l : lock_text l -> dec_struct lock_fields (lock_json l) Lock_zero = Some l.
Proof.
  destruct l as [k o t e g]. intros (_ & _ & Ht & He & Hg).
  cbn [lk_Key lk_OwnerID lk_FencingToken lk_ExpiresAt lk_GrantIndex] in *. unfold lock_json, dec_struct. norm_lock.
  rewrite (dec_fields_member _ _ dec_string lk_Key set_lk_Key _ _ _ k); [|reflexivity|by rewrite dec_enc_string]. norm_lock.
  rewrite (dec_fields_member _ _ dec_string lk_OwnerID set_lk_OwnerID _ _ _ o); [|reflexivity|by rewrite dec_enc_string]. norm_lock.
  rewrite (dec_fields_member _ _ (dec_uint 64) lk_FencingToken set_lk_FencingToken _ _ _ t);
    [|reflexivity|apply dec_enc_uint; [apply N.le_refl|exact Ht]]. norm_lock.
  rewrite (dec_fields_member _ _ dec_int lk_ExpiresAt set_lk_ExpiresAt _ _ _ e); [|reflexivity|apply dec_enc_int; assumption]. norm_lock.
  rewrite <- (app_nil_r (member "GrantIndex" _)).
  rewrite (dec_fields_member _ _ (dec_uint 64) lk_GrantIndex set_lk_GrantIndex _ _ _ g);
    [|reflexivity|apply dec_enc_uint; [apply N.le_refl|exact Hg]]. norm_lock. reflexivity.
Qed.

Lemma fenced_read v : fenced_text v -> dec_struct fenced_fields (fenced_json v) FencedValue_zero = Some v.
Proof.
  destruct v as [x t]. unfold fenced_text. cbn [fv_FencingToken]. intros Ht. unfold fenced_json, dec_struct. cbn [fv_Value fv_FencingToken].
  rewrite (dec_fields_member _ _ dec_bytes fv_Value set_fv_Value _ _ _ x); [|reflexivity|by rewrite dec_enc_bytes].
  rewrite <- (app_nil_r (member "FencingToken" _)).
  rewrite (dec_fields_member _ _ (dec_uint 64) fv_FencingToken set_fv_FencingToken _ _ _ t);
    [|reflexivity|apply dec_enc_uint; [apply N.le_refl|exact Ht]]. reflexivity.
Qed.

Ltac norm_job :=
  cbv beta iota delta [set_jb_ID set_jb_Payload set_jb_State set_jb_ScheduledAt set_jb_AssignedWorkerID set_jb_FencingToken
    set_jb_Attempt set_jb_ExecutionID set_jb_CreatedIndex jb_ID jb_Payload jb_State jb_ScheduledAt jb_AssignedWorkerID
    jb_FencingToken jb_Attempt jb_ExecutionID jb_CreatedIndex Job_zero].

Lemma job_read j : job_text j -> dec_struct job_fields (job_json j) Job_zero = Some j.
Proof.
  destruct j as [i p st at_ w t a x c]. intros (_ & [Hst _] & Hat & _ & Ht & Ha & _ & Hc).
  cbn [jb_ID jb_Payload jb_State jb_ScheduledAt jb_AssignedWorkerID jb_FencingToken jb_Attempt jb_ExecutionID jb_CreatedIndex] in *.
  unfold job_json, dec_struct. norm_job.
  rewrite (dec_fields_member _ _ dec_string jb_ID set_jb_ID _ _ _ i); [|reflexivity|by rewrite dec_enc_string]. norm_job.
  rewrite (dec_fields_member _ _ dec_bytes jb_Payload set_jb_Payload _ _ _ p); [|reflexivity|by rewrite dec_enc_bytes]. norm_job.
  rewrite (dec_fields_member _ _ dec_state jb_State set_jb_State _ _ _ st); [|reflexivity|by apply dec_enc_state]. norm_job.
  rewrite (dec_fields_member _ _ dec_int jb_ScheduledAt set_jb_ScheduledAt _ _ _ at_); [|reflexivity|apply dec_enc_int; assumption]. norm_job.
  rewrite (dec_fields_member _ _ dec_string jb_AssignedWorkerID set_jb_AssignedWorkerID _ _ _ w); [|reflexivity|by rewrite dec_enc_string]. norm_job.
  rewrite (dec_fields_member _ _ (dec_uint 64) jb_FencingToken set_jb_FencingToken _ _ _ t);
    [|reflexivity|apply dec_enc_uint; [apply N.le_refl|exact Ht]]. norm_job.
  rewrite (dec_fields_member _ _ (dec_uint 32) jb_Attempt set_jb_Attempt _ _ _ a);
    [|reflexivity|apply dec_enc_uint; [by vm_compute|exact Ha]]. norm_job.
  rewrite (dec_fields_member _ _ dec_string jb_ExecutionID set_jb_ExecutionID _ _ _ x); [|reflexivity|by rewrite dec_enc_string]. norm_job.
  rewrite <- (app_nil_r (member "CreatedIndex" _)).
  rewrite (dec_fields_member _ _ (dec_uint 64) jb_CreatedIndex set_jb_CreatedIndex _ _ _ c);
    [|reflexivity|apply dec_enc_uint; [apply N.le_refl|exact Hc]]. norm_job. reflexivity.
Qed.

(** ** They can be written *)

(** The members of an object whose values are known to be writable. *)
Ltac members_ok :=
  apply object_writable; [assumption|]; repeat (apply Forall_app; split); apply member_ok; try reflexivity;
  first [assumption|apply enc_bytes_writable|apply print_int_text; assumption|apply print_uint_text; assumption].

Lemma lock_writable depth l : (depth < maxNestingDepth)%N -> lock_text l -> writable depth (lock_json l).
Proof. intros Hd (Hk & Ho & Ht & He & Hg). members_ok. Qed.

Lemma fenced_writable depth v : (depth < maxNestingDepth)%N -> fenced_text v -> writable depth (fenced_json v).
Proof. intros Hd Ht. unfold fenced_text in Ht. members_ok. Qed.

Lemma u32_is_u64 n : (n < u32_modulus)%N -> is_u64 n.
Proof. intros Hn. eapply N.lt_trans; [exact Hn|]. reflexivity. Qed.

Lemma job_writable depth j : (depth < maxNestingDepth)%N -> job_text j -> writable depth (job_json j).
Proof. intros Hd (Hi & [_ Hs] & Ha & Hw & Ht & Hn & Hx & Hc). apply u32_is_u64 in Hn. members_ok. Qed.

(** ** What is read has the ranges of its type *)

(** The property of one field of a struct, from and to those of the struct. *)
Ltac struct_field :=
  let H := fresh "H" in
  intros; unfold lock_text, fenced_text, job_text in *;
  repeat match goal with
  | H : text _ /\ _ |- _ => destruct H
  | H : state_ok _ /\ _ |- _ => destruct H
  | H : is_u64 _ /\ _ |- _ => destruct H
  | H : (_ < u32_modulus)%N /\ _ |- _ => destruct H
  | H : (_ <= _ < _)%Z /\ _ |- _ => destruct H
  end;
  repeat match goal with |- _ /\ _ => first [assumption|split] end; assumption.

Lemma dec_lock_keeps : keeps lock_text (dec_struct lock_fields).
Proof.
  apply dec_struct_keeps. repeat (apply Forall_cons; split); try apply Forall_nil_2; cbn [snd].
  - apply (field_keeps _ text); [apply dec_string_keeps|struct_field..].
  - apply (field_keeps _ text); [apply dec_string_keeps|struct_field..].
  - apply (field_keeps _ (fun n => is_u64 n)); [apply (dec_uint_keeps 64)|struct_field..].
  - apply (field_keeps _ (fun z => is_i64 z)); [apply dec_int_keeps|struct_field..].
  - apply (field_keeps _ (fun n => is_u64 n)); [apply (dec_uint_keeps 64)|struct_field..].
Qed.

Lemma dec_fenced_keeps : keeps fenced_text (dec_struct fenced_fields).
Proof.
  apply dec_struct_keeps. repeat (apply Forall_cons; split); try apply Forall_nil_2; cbn [snd].
  - apply (field_keeps _ (fun _ => True)); [done|done|struct_field].
  - apply (field_keeps _ (fun n => is_u64 n)); [apply (dec_uint_keeps 64)|struct_field..].
Qed.

Lemma dec_job_keeps : keeps job_text (dec_struct job_fields).
Proof.
  apply dec_struct_keeps. repeat (apply Forall_cons; split); try apply Forall_nil_2; cbn [snd].
  - apply (field_keeps _ text); [apply dec_string_keeps|struct_field..].
  - apply (field_keeps _ (fun _ => True)); [done|done|struct_field].
  - apply (field_keeps _ state_ok); [apply dec_state_keeps|struct_field..].
  - apply (field_keeps _ (fun z => is_i64 z)); [apply dec_int_keeps|struct_field..].
  - apply (field_keeps _ text); [apply dec_string_keeps|struct_field..].
  - apply (field_keeps _ (fun n => is_u64 n)); [apply (dec_uint_keeps 64)|struct_field..].
  - apply (field_keeps _ (fun n => n < u32_modulus)%N); [apply (dec_uint_keeps 32)|struct_field..].
  - apply (field_keeps _ text); [apply dec_string_keeps|struct_field..].
  - apply (field_keeps _ (fun n => is_u64 n)); [apply (dec_uint_keeps 64)|struct_field..].
Qed.

(** ** A store of valid text *)

Record store_text (s : Store) : Prop := mkStoreText {
  st_data : map_Forall (fun k (_ : bytes) => text k /\ True) (data s);
  st_locks : map_Forall (fun k l => text k /\ lock_text l) (Locks (locks s));
  st_next : is_u64 (NextToken (locks s));
  st_fenced : map_Forall (fun k v => text k /\ fenced_text v) (fenced s);
  st_jobs : map_Forall (fun k j => text k /\ job_text j) (jobs s);
}.

Lemma NewStore_text : store_text NewStore.
Proof. constructor; [apply map_Forall_empty|apply map_Forall_empty|reflexivity|apply map_Forall_empty|apply map_Forall_empty]. Qed.

Lemma set_locks_text l s :
  store_text s -> map_Forall (fun k l => text k /\ lock_text l) (Locks l) -> is_u64 (NextToken l) -> store_text (set_locks l s).
Proof. intros [Hd _ _ Hf Hj] Hl Hn. by constructor. Qed.

Lemma set_job_text i j s : store_text s -> text i -> job_text j -> store_text (set_job i j s).
Proof. intros [Hd Hl Hn Hf Hj] Hi Hjt. constructor; try done. by apply map_Forall_insert_2. Qed.

(** *** Execution IDs *)

Lemma text_app a b : text a -> text b -> text (a +:+ b).
Proof.
  unfold text. intros Ha Hb. replace (string_bytes (a +:+ b)) with (string_bytes a ++ string_bytes b); [by apply valid_app|].
  clear. induction a as [|c a IH]; [done|]. exact (f_equal (cons _) IH).
Qed.

Lemma pretty_go_text x s : text s -> text (pretty_N_go x s).
Proof.
  revert s. induction (N.lt_wf_0 x) as [x _ IH]. intros s Hs.
  destruct (decide (x = 0%N)) as [->|]; [by rewrite pretty_N_go_0|]. rewrite pretty_N_go_step by lia.
  apply IH; [apply N.div_lt; lia|]. apply (text_app (String (pretty_N_char (x `mod` 10)) EmptyString)); [|done].
  assert (x mod 10 < 10)%N by (apply N.mod_lt; lia). unfold pretty_N_char. by repeat case_match.
Qed.

Lemma pretty_text (n : N) : text (pretty n).
Proof. unfold pretty, pretty_N. case_decide; [done|]. by apply pretty_go_text. Qed.

Lemma executionID_text i n : text i -> text (executionID i n).
Proof. intros Hi. apply text_app; [done|]. apply text_app; [done|]. apply pretty_text. Qed.

(** *** Every command keeps it *)

(** The conditions on a lock or a job with given fields. *)
Ltac text_parts :=
  unfold lock_text, job_text; cbn [lk_Key lk_OwnerID lk_FencingToken lk_ExpiresAt lk_GrantIndex jb_ID jb_Payload jb_State
    jb_ScheduledAt jb_AssignedWorkerID jb_FencingToken jb_Attempt jb_ExecutionID jb_CreatedIndex with_state];
  repeat match goal with |- _ /\ _ => first [assumption|split] end;
  first [assumption|reflexivity|apply N.mod_lt; discriminate|apply executionID_text; assumption].

Lemma u64_add_range a b : is_u64 (u64_add a b).
Proof. apply N.mod_lt. done. Qed.

Lemma Acquire_text key owner e index l l' res b :
  text key -> text owner -> is_i64 e -> is_u64 index ->
  map_Forall (fun k l => text k /\ lock_text l) (Locks l) -> is_u64 (NextToken l) ->
  Acquire key owner e index l = (l', res, b) ->
  map_Forall (fun k l => text k /\ lock_text l) (Locks l') /\ is_u64 (NextToken l') /\ lock_text res.
Proof.
  intros Hk Ho He Hi Hl Hn. unfold Acquire. destruct (Locks l !! key) as [current|] eqn:E.
  - intros [= <- <- <-]. split_and!; [done|done|]. by apply (Hl _ _ E).
  - intros [= <- <- <-]. cbn [Locks NextToken]. pose proof (u64_add_range (NextToken l) 1).
    assert (lock_text (mkLock key owner (u64_add (NextToken l) 1) e index)) by text_parts.
    split_and!; [|assumption|assumption]. by apply map_Forall_insert_2.
Qed.

Lemma AcquireLock_text key owner e index s :
  text key -> text owner -> is_i64 e -> is_u64 index -> store_text s -> store_text (fst (AcquireLock key owner e index s)).
Proof.
  intros Hk Ho He Hi Hs. unfold AcquireLock. repeat case_bool_decide; [done..|].
  destruct (Acquire key owner e index (locks s)) as [[l res] b] eqn:E. cbn [fst].
  eapply Acquire_text in E as (Hl & Hn & _); [|done..|apply Hs|apply Hs]. by apply set_locks_text.
Qed.

Lemma ExpireLock_text key t s : store_text s -> store_text (fst (ExpireLock key t s)).
Proof.
  intros Hs. unfold ExpireLock. case_bool_decide; [done|]. destruct (t =? 0)%N; [done|]. unfold Expire.
  destruct (Locks (locks s) !! key) as [l|]; [|by apply set_locks_text; [|apply Hs..]].
  destruct (negb _); [by apply set_locks_text; [|apply Hs..]|]. apply set_locks_text; [done| |apply Hs].
  cbn [Locks]. apply map_Forall_delete, Hs.
Qed.

Lemma FencedPut_text key v t s : text key -> is_u64 t -> store_text s -> store_text (fst (FencedPut key v t s)).
Proof.
  intros Hk Ht Hs. unfold FencedPut. case_bool_decide; [done|]. destruct (t =? 0)%N; [done|].
  destruct (Get key (locks s)); [|done]. destruct (negb _); [done|]. destruct Hs as [Hd Hl Hn Hf Hj]. constructor; try done.
  by apply map_Forall_insert_2.
Qed.

Lemma CreateJob_text j s : job_text j -> store_text s -> store_text (fst (CreateJob j s)).
Proof.
  intros Hj Hs. unfold CreateJob. repeat case_bool_decide; [done..|]. destruct (jobs s !! jb_ID j); [done|].
  apply set_job_text; [done|apply Hj|done].
Qed.

Lemma state_ok_known st : (forall name, st <> JobOther name) -> state_ok st.
Proof. intros Hst. destruct st; try (split; reflexivity). by destruct (Hst name). Qed.

Lemma ClaimJob_text i w e index s :
  text i -> text w -> is_i64 e -> is_u64 index -> store_text s -> store_text (fst (ClaimJob i w e index s)).
Proof.
  intros Hi Hw He Hx Hs. unfold ClaimJob. destruct (validateClaimArguments i w e); [done|].
  destruct (jobs s !! i) as [j|] eqn:Ej; [|done]. destruct (handleExistingClaim w j); [done|].
  destruct (Acquire i w e index (locks s)) as [[l res] b] eqn:E.
  eapply Acquire_text in E as (Hl & Hn & Hr); [|done..|apply Hs|apply Hs].
  destruct (st_jobs s Hs i j Ej) as [_ (J1 & _ & J3 & J4 & J5 & J6 & J7 & J8)]. destruct Hr as (_ & _ & Hrt & _).
  assert (state_ok JobScheduled) as Hss by (by apply state_ok_known).
  destruct b; cbn [negb].
  - apply set_job_text; [by apply set_locks_text|done|]. text_parts.
  - unfold handleFailedClaim. case_bool_decide; [|by apply set_locks_text].
    apply set_job_text; [by apply set_locks_text|done|]. text_parts.
Qed.

Lemma ReclaimExpiredJob_text i t at_ s : text i -> store_text s -> store_text (fst (ReclaimExpiredJob i t at_ s)).
Proof.
  intros Hi Hs. unfold ReclaimExpiredJob. destruct (_ || _ || _); [done|]. destruct (jobs s !! i) as [j|] eqn:Ej; [|done].
  destruct (negb (active _)); [done|]. destruct (negb _); [done|]. destruct (Get i (locks s)) as [l|]; [|done].
  destruct (negb _); [done|]. destruct (_ <? _)%Z; [done|].
  destruct (st_jobs s Hs i j Ej) as [_ (J1 & _ & J3 & J4 & J5 & J6 & J7 & J8)].
  assert (state_ok JobPending) as Hss by (by apply state_ok_known).
  apply set_job_text; [|done|text_parts].
  apply set_locks_text; [done| |apply Hs]. cbn [Locks]. apply map_Forall_delete, Hs.
Qed.

Lemma TransitionJobState_text i w x t from to at_ s :
  state_ok to -> text i -> store_text s -> store_text (fst (TransitionJobState i w x t from to at_ s)).
Proof.
  intros Hto Hi Hs. unfold TransitionJobState. destruct (validateTransitionArguments _ _ _ _ _); [done|].
  destruct (validateTransitionStates _ _); [done|]. destruct (jobs s !! i) as [j|] eqn:Ej; [|done].
  destruct (validateTransitionOwnership _ _ _ _ _ _ _ _); [done|].
  destruct (st_jobs s Hs i j Ej) as [_ (J1 & _ & J3 & J4 & J5 & J6 & J7 & J8)].
  apply set_job_text; [done|done|]. text_parts.
Qed.

Lemma Put_text key v s : text key -> store_text s -> store_text (Put key v s).
Proof. intros Hk [Hd Hl Hn Hf Hj]. constructor; try done. by apply map_Forall_insert_2. Qed.

Lemma Delete_text key s : store_text s -> store_text (fst (Delete key s)).
Proof.
  intros Hs. unfold Delete. destruct (data s !! key); [|done]. destruct Hs as [Hd Hl Hn Hf Hj]. constructor; try done.
  by apply map_Forall_delete.
Qed.

(** Commands read from the log keep the store valid text. *)
Lemma applyCommand_text c index s s' r :
  command_ok c -> is_u64 index -> store_text s -> applyCommand c index s = Some (s', r) -> store_text s'.
Proof.
  intros [_ _ Ht Hz Hu] Hi Hs. rewrite !Forall_cons in Ht. rewrite !Forall_cons in Hz. destruct Ht as (_ & T2 & T3 & T4 & T5 & _ & _), Hz as (Z1 & Z2 & Z3 & _).
  assert (forall st, (forall name, st <> JobOther name) -> state_ok st) as Hst by exact state_ok_known.
  assert (forall from to, (forall name, to <> JobOther name) ->
    (let '(s, r) := TransitionJobState (cmd_JobID c) (cmd_OwnerID c) (cmd_ExecutionID c) (cmd_FencingToken c) from to (cmd_At c) s in
     Some (s, job_result r)) = Some (s', r) -> store_text s') as Htr.
  { intros from to Hto. pose proof (TransitionJobState_text (cmd_JobID c) (cmd_OwnerID c) (cmd_ExecutionID c) (cmd_FencingToken c)
      from to (cmd_At c) s (Hst to Hto) T3 Hs) as P. destruct (TransitionJobState _ _ _ _ _ _ _ _). intros [= <- _]. exact P. }
  unfold applyCommand, applyKVCommand, applyLockCommand, applyJobCreationCommand, applyJobTransitionCommand, applyJobReclaimCommand.
  destruct (cmd_Type c) eqn:Et; cbn [jobTransitionStates].
  - intros [= <- _]. by apply Put_text.
  - intros [= <- _]. by apply Delete_text.
  - by intros [= <- _].
  - pose proof (AcquireLock_text (cmd_Key c) (cmd_OwnerID c) (cmd_ExpiresAt c) index s) as P.
    destruct (AcquireLock _ _ _ _ _) as [s1 [?|?]]; intros [= <- _]; by apply P.
  - pose proof (ExpireLock_text (cmd_Key c) (cmd_FencingToken c) s) as P.
    destruct (ExpireLock _ _ _) as [s1 [?|?]]; intros [= <- _]; by apply P.
  - unfold applyFencedPut. pose proof (FencedPut_text (cmd_Key c) (cmd_Value c) (cmd_FencingToken c) s) as P.
    destruct (FencedPut _ _ _ _) as [s1 [e|]]; [destruct (_ || _)|]; intros [= <- _]; by apply P.
  - set (j := mkJob _ _ _ _ _ _ _ _ _). assert (job_text j) as Hj by (pose proof (Hst JobPending ltac:(done)); text_parts).
    pose proof (CreateJob_text j s Hj Hs) as P. destruct (CreateJob j s) as [s1 [e|]]; intros [= <- _]; exact P.
  - unfold applyClaimJob. pose proof (ClaimJob_text (cmd_JobID c) (cmd_OwnerID c) (cmd_ExpiresAt c) index s) as P.
    destruct (ClaimJob _ _ _ _ _) as [s1 [?|?]]; intros [= <- _]; by apply P.
  - pose proof (ReclaimExpiredJob_text (cmd_JobID c) (cmd_FencingToken c) (cmd_At c) s) as P.
    destruct (ReclaimExpiredJob _ _ _ _) as [s1 ?]; intros [= <- _]; by apply P.
  - by apply Htr.
  - by apply Htr.
  - by apply Htr.
  - by intros [= <- _].
Qed.
