(* ===== verification/KvSpec.v ===== *)
(** The store as an abstract state machine: the transitions a command can take,
    and the proof that applying any command is one of them.  The invariants and
    the guarantees of fencing tokens and jobs are proved on the abstract
    transitions and hold for every sequence of committed commands. *)

From stdpp Require Import pretty sorting.
From S2P Require Import Prelude Model Lock KvStore.

(** The job after a claim, a reclaim. *)
Definition claimed (worker : string) (token attempt : N) (exec : string) (j : Job) : Job :=
  mkJob (jb_ID j) (jb_Payload j) JobScheduled (jb_ScheduledAt j) worker token attempt exec
    (jb_CreatedIndex j).
Definition reclaimed (j : Job) : Job :=
  mkJob (jb_ID j) (jb_Payload j) JobPending (jb_ScheduledAt j) "" 0 (jb_Attempt j)
    (jb_ExecutionID j) (jb_CreatedIndex j).

(** The lock table after granting a new lock, and after removing one. *)
Definition grant (key owner : string) (expiresAt : Z) (index : LogIndex) (l : LockState) : LockState :=
  let t := u64_add (NextToken l) 1 in
  mkLockState (<[key := mkLock key owner t expiresAt index]> (Locks l)) t.
Definition release (key : string) (l : LockState) : LockState :=
  mkLockState (delete key (Locks l)) (NextToken l).

Definition lock_at (key : string) (s : Store) : option Lock := Locks (locks s) !! key.

(** The lock on [key] is held under [token]. *)
Definition holds (key : string) (token : N) (s : Store) : Prop :=
  exists l, lock_at key s = Some l /\ lk_FencingToken l = token.

(** The label names the key whose lock is removed by an explicit expiry. *)
Inductive kv_lstep : option string -> Store -> Store -> Prop :=
| KSkip x s : kv_lstep x s s
| KData d s : kv_lstep None s (mkStore d (locks s) (fenced s) (jobs s))
| KGrant key owner expiresAt index s :
    key ≠ "" -> owner ≠ "" -> lock_at key s = None ->
    kv_lstep None s (set_locks (grant key owner expiresAt index (locks s)) s)
| KExpire key token s :
    key ≠ "" -> token ≠ 0%N -> holds key token s -> kv_lstep (Some key) s (set_locks (release key (locks s)) s)
| KFence key value token s :
    key ≠ "" -> token ≠ 0%N -> holds key token s ->
    kv_lstep None s (mkStore (data s) (locks s) (<[key := mkFenced value token]> (fenced s)) (jobs s))
| KCreate i payload at_ index s :
    i ≠ "" -> jobs s !! i = None ->
    kv_lstep None s (set_job i (mkJob i payload JobPending at_ "" 0 0 "" index) s)
| KClaim i worker expiresAt index j s :
    i ≠ "" -> worker ≠ "" -> jobs s !! i = Some j -> jb_State j = JobPending -> lock_at i s = None ->
    let attempt := ((jb_Attempt j + 1) mod u32_modulus)%N in
    let l := grant i worker expiresAt index (locks s) in
    kv_lstep None s (set_job i (claimed worker (NextToken l) attempt (executionID (jb_ID j) attempt) j)
                 (set_locks l s))
| KReuse i worker l j s :
    i ≠ "" -> worker ≠ "" -> jobs s !! i = Some j -> jb_State j = JobPending ->
    lock_at i s = Some l -> lk_OwnerID l = worker ->
    kv_lstep None s (set_job i (claimed worker (lk_FencingToken l) (jb_Attempt j) (jb_ExecutionID j) j) s)
| KReclaim i token j s :
    i ≠ "" -> token ≠ 0%N -> jobs s !! i = Some j -> active (jb_State j) = true ->
    jb_FencingToken j = token -> holds i token s ->
    kv_lstep None s (set_job i (reclaimed j) (set_locks (release i (locks s)) s))
| KTransition i token from to j s :
    i ≠ "" -> token ≠ 0%N -> jobs s !! i = Some j -> jb_State j = from -> jb_FencingToken j = token ->
    jb_ExecutionID j ≠ "" -> holds i token s ->
    (from, to) ∈ [(JobScheduled, JobRunning); (JobRunning, JobSucceeded); (JobRunning, JobFailed)] ->
    kv_lstep None s (set_job i (with_state to j) s).

Definition kv_step (s s' : Store) : Prop := exists x, kv_lstep x s s'.

(** Applying a list of commands with their log indexes, in order; a panic would
    yield [None]. *)
Fixpoint run (cs : list (Command * LogIndex)) (s : Store) : option Store :=
  match cs with
  | [] => Some s
  | (c, index) :: rest =>
      match applyCommand c index s with
      | None => None
      | Some (s', _) => run rest s'
      end
  end.

(** ** Every command is a transition *)

Lemma set_locks_same s : set_locks (locks s) s = s.
Proof. by destruct s. Qed.

Lemma active_spec st : active st = true <-> st = JobScheduled \/ st = JobRunning.
Proof.
  unfold active. rewrite orb_true_iff, !bool_decide_eq_true. done.
Qed.

Lemma AcquireLock_step key owner e i s : kv_lstep None s (fst (AcquireLock key owner e i s)).
Proof.
  unfold AcquireLock. repeat case_bool_decide; try apply KSkip.
  unfold Acquire. destruct (Locks (locks s) !! key) eqn:E; cbn.
  - rewrite set_locks_same. apply KSkip.
  - by apply KGrant.
Qed.

Lemma ExpireLock_step key t s : kv_lstep (Some key) s (fst (ExpireLock key t s)).
Proof.
  unfold ExpireLock. case_bool_decide; [apply KSkip|].
  destruct (N.eqb_spec t 0); [apply KSkip|]. unfold Expire.
  destruct (Locks (locks s) !! key) as [l|] eqn:E; cbn; [|rewrite set_locks_same; apply KSkip].
  destruct (N.eqb_spec (lk_FencingToken l) t); cbn; [|rewrite set_locks_same; apply KSkip].
  apply (KExpire key t); [done..|]. by exists l.
Qed.

Lemma FencedPut_step key v t s : kv_lstep None s (fst (FencedPut key v t s)).
Proof.
  unfold FencedPut. case_bool_decide; [apply KSkip|].
  destruct (N.eqb_spec t 0); [apply KSkip|]. destruct (Get key (locks s)) as [l|] eqn:E; [|apply KSkip].
  destruct (N.eqb_spec (lk_FencingToken l) t); cbn; [|apply KSkip].
  apply KFence; [done..|]. by exists l.
Qed.

Lemma ClaimJob_step i w e index s : kv_lstep None s (fst (ClaimJob i w e index s)).
Proof.
  unfold ClaimJob, validateClaimArguments. repeat case_bool_decide; try apply KSkip.
  destruct (e <=? 0)%Z; [apply KSkip|]. destruct (jobs s !! i) as [j|] eqn:Hj; [|apply KSkip].
  destruct (handleExistingClaim w j) eqn:Hc; [apply KSkip|].
  assert (jb_State j = JobPending) as Hp.
  { unfold handleExistingClaim in Hc. destruct (jb_State j); try done. by case_bool_decide. }
  unfold Acquire. destruct (Locks (locks s) !! i) as [l|] eqn:E; cbn.
  - rewrite set_locks_same. unfold handleFailedClaim. case_bool_decide; [|apply KSkip].
    by apply (KReuse i w l j).
  - by apply (KClaim i w e index j).
Qed.

Lemma ReclaimExpiredJob_step i t at_ s : kv_lstep None s (fst (ReclaimExpiredJob i t at_ s)).
Proof.
  unfold ReclaimExpiredJob. destruct (_ || _ || _) eqn:Hb; [apply KSkip|]. bool_norm.
  destruct (jobs s !! i) as [j|] eqn:Hj; [|apply KSkip].
  destruct (active (jb_State j)) eqn:Ha; [|apply KSkip]. cbn [negb].
  destruct (N.eqb_spec (jb_FencingToken j) t) as [Ht|]; [|apply KSkip]. cbn [negb].
  destruct (Get i (locks s)) as [l|] eqn:E; [|apply KSkip].
  destruct (N.eqb_spec (lk_FencingToken l) t); [|apply KSkip]. cbn [negb].
  destruct (at_ <? lk_ExpiresAt l)%Z; [apply KSkip|].
  apply (KReclaim i t j); [done..|]. by exists l.
Qed.

Lemma validateTransitionStates_spec from to :
  validateTransitionStates from to = None <->
  (from, to) ∈ [(JobScheduled, JobRunning); (JobRunning, JobSucceeded); (JobRunning, JobFailed)].
Proof.
  unfold validateTransitionStates. split.
  - destruct from, to; try done; intros _; set_solver.
  - rewrite !elem_of_cons. intros [[= -> ->]|[[= -> ->]|[[= -> ->]|Hn]]]; try done.
    by apply not_elem_of_nil in Hn.
Qed.

Lemma TransitionJobState_step i w x t from to at_ s :
  kv_lstep None s (fst (TransitionJobState i w x t from to at_ s)).
Proof.
  unfold TransitionJobState. destruct (validateTransitionArguments _ _ _ _ _) eqn:Ha; [apply KSkip|].
  destruct (validateTransitionStates _ _) eqn:Hs; [apply KSkip|].
  apply validateTransitionStates_spec in Hs.
  destruct (jobs s !! i) as [j|] eqn:Hj; [|apply KSkip].
  destruct (validateTransitionOwnership _ _ _ _ _ _ _ _) eqn:Ho; [apply KSkip|].
  unfold validateTransitionArguments in Ha. destruct (_ || _) eqn:Hb; [done|]. bool_norm.
  unfold validateTransitionOwnership in Ho. repeat (case_bool_decide; try done).
  destruct (N.eqb_spec (jb_FencingToken j) t) as [Ht|]; [|done]. cbn [negb] in Ho.
  destruct (Get i (locks s)) as [l|] eqn:E; [|done]. repeat (case_bool_decide; try done).
  destruct (N.eqb_spec (lk_FencingToken l) t); [|done].
  apply (KTransition i t from to j); try done; [congruence|by exists l].
Qed.

(** The dispatch never panics, and its effect is a transition; only a
    LOCK_EXPIRE command removes a lock by expiry. *)
Lemma applyCommand_lstep c index s :
  exists s' r x, applyCommand c index s = Some (s', r) /\ kv_lstep x s s' /\
    (forall key, x = Some key -> cmd_Type c = CommandLockExpire /\ cmd_Key c = key).
Proof.
  unfold applyCommand, applyKVCommand, applyLockCommand, applyJobCreationCommand, applyFencedPut,
    applyClaimJob, applyJobTransitionCommand, applyJobReclaimCommand.
  assert (forall s' (r : ApplyResult), kv_lstep None s s' -> exists s2 r2 x, Some (s', r) = Some (s2, r2) /\
    kv_lstep x s s2 /\ (forall key, x = Some key -> cmd_Type c = CommandLockExpire /\ cmd_Key c = key))
    as Hnone by (intros s' r Hs; by exists s', r, None).
  destruct (cmd_Type c) eqn:Ht; cbn [jobTransitionStates].
  - apply Hnone, KData.
  - apply Hnone. unfold Delete. destruct (data s !! _); [apply KData|apply KSkip].
  - apply Hnone, KSkip.
  - pose proof (AcquireLock_step (cmd_Key c) (cmd_OwnerID c) (cmd_ExpiresAt c) index s) as H.
    destruct (AcquireLock _ _ _ _ _) as [s' []]; by apply Hnone.
  - pose proof (ExpireLock_step (cmd_Key c) (cmd_FencingToken c) s) as H.
    destruct (ExpireLock _ _ _) as [s' []]; eexists _, _, (Some (cmd_Key c));
      (split; [done|split; [exact H|by intros key [= ->]]]).
  - pose proof (FencedPut_step (cmd_Key c) (cmd_Value c) (cmd_FencingToken c) s) as H.
    destruct (FencedPut _ _ _ _) as [s' []]; [destruct (_ || _)|]; by apply Hnone.
  - unfold CreateJob. cbn [jb_ID jb_State]. case_bool_decide; [apply Hnone, KSkip|].
    rewrite bool_decide_false by done.
    destruct (jobs s !! cmd_JobID c) eqn:Hj; [apply Hnone, KSkip|]. by apply Hnone, KCreate.
  - pose proof (ClaimJob_step (cmd_JobID c) (cmd_OwnerID c) (cmd_ExpiresAt c) index s) as H.
    destruct (ClaimJob _ _ _ _ _) as [s' []]; by apply Hnone.
  - pose proof (ReclaimExpiredJob_step (cmd_JobID c) (cmd_FencingToken c) (cmd_At c) s) as H.
    destruct (ReclaimExpiredJob _ _ _ _) as [s' r]; by apply Hnone.
  - pose proof (TransitionJobState_step (cmd_JobID c) (cmd_OwnerID c) (cmd_ExecutionID c)
      (cmd_FencingToken c) JobScheduled JobRunning (cmd_At c) s) as H.
    destruct (TransitionJobState _ _ _ _ _ _ _ _) as [s' r]; by apply Hnone.
  - pose proof (TransitionJobState_step (cmd_JobID c) (cmd_OwnerID c) (cmd_ExecutionID c)
      (cmd_FencingToken c) JobRunning JobSucceeded (cmd_At c) s) as H.
    destruct (TransitionJobState _ _ _ _ _ _ _ _) as [s' r]; by apply Hnone.
  - pose proof (TransitionJobState_step (cmd_JobID c) (cmd_OwnerID c) (cmd_ExecutionID c)
      (cmd_FencingToken c) JobRunning JobFailed (cmd_At c) s) as H.
    destruct (TransitionJobState _ _ _ _ _ _ _ _) as [s' r]; by apply Hnone.
  - apply Hnone, KSkip.
Qed.

Lemma applyCommand_step c index s :
  exists s' r, applyCommand c index s = Some (s', r) /\ kv_step s s'.
Proof.
  destruct (applyCommand_lstep c index s) as (s' & r & x & E & Hs & _). exists s', r. split; [done|by exists x].
Qed.
