(* ===== verification/KvFacts.v ===== *)
(** What the replicated store guarantees, over every sequence of committed
    commands: fencing tokens, fenced writes, the lifecycle of jobs, and the
    invariant of the snapshots. *)

From S2P Require Import Prelude Model Lock KvStore KvSpec.

Definition next_token (s : Store) : N := NextToken (locks s).

(** The token counter does not overflow while [count] commands are applied. *)
Definition token_room (count : nat) (s : Store) : Prop := is_u64 (next_token s + N.of_nat count)%N.

(** The token [t] was issued, and is not (or no longer) the one of the lock on
    [key]. *)
Definition lost (key : string) (t : N) (s : Store) : Prop :=
  (t <= next_token s)%N /\ ~ holds key t s.

(** The edges of the job state machine. *)
Definition job_edges : list (JobState * JobState) :=
  [(JobPending, JobScheduled); (JobScheduled, JobRunning); (JobRunning, JobSucceeded);
   (JobRunning, JobFailed); (JobScheduled, JobPending); (JobRunning, JobPending)].

Definition terminal (st : JobState) : bool :=
  bool_decide (st = JobSucceeded) || bool_decide (st = JobFailed).

(** [j'] is a later version of [j]: the fields fixed at creation are kept. *)
Definition same_job (j j' : Job) : Prop :=
  jb_ID j' = jb_ID j /\ jb_Payload j' = jb_Payload j /\ jb_ScheduledAt j' = jb_ScheduledAt j /\
  jb_CreatedIndex j' = jb_CreatedIndex j.

(** ** Runs *)

Lemma kv_step_next s s' :
  token_room 1 s -> kv_step s s' -> (next_token s <= next_token s' <= next_token s + 1)%N.
Proof.
  unfold token_room, next_token. intros Hr Hs.
  destruct Hs as [x Hs]; destruct Hs; cbn; try lia; rewrite ?u64_add_small by lia; lia.
Qed.

(** A property kept by every transition is kept by every run. *)
Lemma run_preserves (P : Store -> Prop) cs s :
  (forall s1 s2, token_room 1 s1 -> kv_step s1 s2 -> P s1 -> P s2) ->
  token_room (length cs) s -> P s -> exists s', run cs s = Some s' /\ P s'.
Proof.
  intros HP. revert s; induction cs as [|[c i] cs IH]; intros s Hr Hs; cbn; [eauto|].
  destruct (applyCommand_step c i s) as (s1 & r & -> & H1).
  assert (token_room 1 s) as Hr1 by (unfold token_room in *; cbn in Hr; lia).
  pose proof (kv_step_next _ _ Hr1 H1). apply IH; [|by eapply HP].
  unfold token_room in *. cbn in Hr. lia.
Qed.

Lemma run_invariant (P : Store -> Prop) cs s s' :
  (forall s1 s2, token_room 1 s1 -> kv_step s1 s2 -> P s1 -> P s2) ->
  token_room (length cs) s -> run cs s = Some s' -> P s -> P s'.
Proof.
  intros HP Hr E Hs. destruct (run_preserves P cs s HP Hr Hs) as (s1 & E1 & H1). congruence.
Qed.

(** ** Fencing tokens *)

Lemma lock_at_release key key' s :
  lock_at key (set_locks (release key' (locks s)) s) = if decide (key' = key) then None else lock_at key s.
Proof.
  unfold lock_at. cbn. destruct (decide (key' = key)) as [->|Hne].
  - apply lookup_delete_eq.
  - by apply lookup_delete_ne.
Qed.

Lemma lock_at_grant key key' o e i s :
  lock_at key (set_locks (grant key' o e i (locks s)) s) =
  if decide (key' = key) then Some (mkLock key' o (u64_add (next_token s) 1) e i) else lock_at key s.
Proof.
  unfold lock_at. cbn. destruct (decide (key' = key)) as [->|Hne].
  - by rewrite lookup_insert_eq.
  - by rewrite lookup_insert_ne.
Qed.

(** Where the locks of the next state come from. *)
Lemma kv_step_locks s s' key l :
  token_room 1 s -> kv_step s s' -> lock_at key s' = Some l ->
  lock_at key s = Some l \/ (lk_FencingToken l = next_token s + 1 /\ next_token s' = next_token s + 1)%N.
Proof.
  intros Hr Hs. unfold token_room in Hr. cbn in Hr.
  assert (u64_add (next_token s) 1 = next_token s + 1)%N as Hn by (apply u64_add_small; lia).
  destruct Hs as [x Hs]; destruct Hs; try (by left).
  - rewrite lock_at_grant. case_decide; [|by left]. intros [= <-]. right. by rewrite Hn.
  - rewrite lock_at_release. case_decide; [done|by left].
  - change (lock_at key (set_job i _ ?x)) with (lock_at key x). unfold l0.
    rewrite lock_at_grant. case_decide; [|by left]. intros [= <-]. right. by rewrite Hn.
  - change (lock_at key (set_job i _ ?x)) with (lock_at key x).
    rewrite lock_at_release. case_decide; [done|by left].
Qed.

(** The locks of a later state are those of [s] or newer than all tokens of [s]. *)
Definition newer_locks (s s' : Store) : Prop :=
  (next_token s <= next_token s')%N /\
  forall key l, lock_at key s' = Some l ->
    lock_at key s = Some l \/ (next_token s < lk_FencingToken l <= next_token s')%N.

Lemma newer_locks_step s s1 s2 :
  token_room 1 s1 -> kv_step s1 s2 -> newer_locks s s1 -> newer_locks s s2.
Proof.
  intros Hr H12 [Hn Hl]. pose proof (kv_step_next _ _ Hr H12). split; [lia|].
  intros key l [H1|[-> ->]]%(kv_step_locks _ _ _ _ Hr H12); [|right; lia].
  destruct (Hl key l H1); [by left|right; lia].
Qed.

(** Fencing tokens only grow.  Applying commands never lowers the token
    counter, and every lock that appears carries a token above all tokens issued
    before. *)
Theorem tokens_increase cs s :
  token_room (length cs) s ->
  exists s', run cs s = Some s' /\ (next_token s <= next_token s')%N /\
    forall key l, lock_at key s' = Some l ->
      lock_at key s = Some l \/ (next_token s < lk_FencingToken l <= next_token s')%N.
Proof.
  intros Hr. apply (run_preserves (newer_locks s)); [apply newer_locks_step|done|].
  split; [lia|auto].
Qed.

Lemma lost_step key t s1 s2 : token_room 1 s1 -> kv_step s1 s2 -> lost key t s1 -> lost key t s2.
Proof.
  intros Hr H12 [Hle Hn]. pose proof (kv_step_next _ _ Hr H12). split; [lia|].
  intros (l & Hl & Ht). destruct (kv_step_locks _ _ _ _ Hr H12 Hl) as [H1|[H1 _]].
  - apply Hn. by exists l.
  - lia.
Qed.

(** C21: fencing.  A token that has lost its lock never regains it: after any
    further commands, a fenced write under that token is refused and changes
    nothing. *)
Theorem stale_writer_is_fenced cs key t value s :
  token_room (length cs) s -> lost key t s ->
  exists s' e, run cs s = Some s' /\ FencedPut key value t s' = (s', Some e).
Proof.
  intros Hr Hl. destruct (run_preserves (lost key t) cs s (lost_step key t) Hr Hl) as (s' & E & _ & Hn).
  exists s'. unfold FencedPut. repeat case_match; eauto.
  exfalso. apply Hn. eexists. split; [done|]. by bool_norm.
Qed.

(** The token of a fenced value never goes back. *)
Definition fenced_inv (s : Store) : Prop :=
  (forall key l, lock_at key s = Some l -> (lk_FencingToken l <= next_token s)%N) /\
  (forall key v, fenced s !! key = Some v -> (fv_FencingToken v <= next_token s)%N /\
     forall l, lock_at key s = Some l -> (fv_FencingToken v <= lk_FencingToken l)%N).

Lemma fenced_inv_step s1 s2 : token_room 1 s1 -> kv_step s1 s2 -> fenced_inv s1 -> fenced_inv s2.
Proof.
  intros Hr H12 [Hlk Hf]. pose proof (kv_step_next _ _ Hr H12) as Hn. split.
  { intros key l [H1|[-> ->]]%(kv_step_locks _ _ _ _ Hr H12); [|lia]. specialize (Hlk _ _ H1). lia. }
  intros key v Hv. assert (
    (exists tok, fv_FencingToken v = tok /\ holds key tok s1 /\ locks s2 = locks s1) \/
    fenced s1 !! key = Some v) as [(tok & -> & (l & Hl & <-) & Hsame)|Hold].
  { destruct H12 as [x H12]; destruct H12; try (by right). cbn in Hv. destruct (decide (key0 = key)) as [->|].
    - rewrite lookup_insert_eq in Hv. injection Hv as <-. left. by eexists.
    - rewrite lookup_insert_ne in Hv by done. by right. }
  - pose proof (Hlk _ _ Hl). split; [unfold next_token in *; rewrite Hsame; lia|].
    intros l2 Hl2. unfold lock_at in *. rewrite Hsame in Hl2. simplify_eq. lia.
  - destruct (Hf _ _ Hold) as [Hle Hall]. split; [lia|].
    intros l [H1|[-> _]]%(kv_step_locks _ _ _ _ Hr H12); [by apply Hall|lia].
Qed.

(** The fenced values of [s2] are at least as recent as those of [s1]. *)
Definition fenced_newer (s1 s2 : Store) : Prop :=
  forall key v1, fenced s1 !! key = Some v1 ->
    exists v2, fenced s2 !! key = Some v2 /\ (fv_FencingToken v1 <= fv_FencingToken v2)%N.

Lemma fenced_newer_step s s1 s2 :
  fenced_inv s1 -> kv_step s1 s2 -> fenced_newer s s1 -> fenced_newer s s2.
Proof.
  intros [_ Hf] H12 IH key v0 H0. destruct (IH key v0 H0) as (v1 & H1 & Hle).
  destruct H12 as [x H12]; destruct H12; try (by exists v1). cbn. destruct (decide (key0 = key)) as [->|Hne].
  - rewrite lookup_insert_eq. eexists. split; [done|]. cbn.
    match goal with Hh : holds _ _ _ |- _ => destruct Hh as (l & Hl & <-) end.
    pose proof (proj2 (Hf _ _ H1) _ Hl). lia.
  - rewrite lookup_insert_ne by done. by exists v1.
Qed.

Lemma run_app cs1 cs2 s : run (cs1 ++ cs2) s = run cs1 s ≫= run cs2.
Proof.
  revert s; induction cs1 as [|[c i] cs IH]; intros s; cbn; [done|].
  destruct (applyCommand c i s) as [[s' r]|]; [apply IH|done].
Qed.

(** The room left after a run. *)
Lemma run_room cs k s s' : token_room (length cs + k) s -> run cs s = Some s' -> token_room k s'.
Proof.
  revert s; induction cs as [|[c i] cs IH]; intros s Hr; cbn; [by intros [= <-]|].
  destruct (applyCommand_step c i s) as (s1 & r & -> & H1). apply IH.
  assert (token_room 1 s) as Hr1 by (unfold token_room in *; cbn in Hr; lia).
  pose proof (kv_step_next _ _ Hr1 H1). unfold token_room in *. cbn in Hr. lia.
Qed.

Lemma NewStore_fenced_inv : fenced_inv NewStore.
Proof. split; [by intros key l|by intros key v]. Qed.

(** A fenced value is never overwritten by an older lock holder.  In every
    run from an empty store, the token of the value stored under a key never
    decreases as more commands are applied. *)
Theorem fenced_values_are_monotone cs1 cs2 s1 key v1 :
  token_room (length cs1 + length cs2) NewStore ->
  run cs1 NewStore = Some s1 -> fenced s1 !! key = Some v1 ->
  exists s2 v2, run (cs1 ++ cs2) NewStore = Some s2 /\ fenced s2 !! key = Some v2 /\
    (fv_FencingToken v1 <= fv_FencingToken v2)%N.
Proof.
  intros Hr E1 Hv. pose proof (run_room _ _ _ _ Hr E1) as Hr2.
  assert (fenced_inv s1) as Hinv.
  { eapply (run_invariant fenced_inv cs1 NewStore); [apply fenced_inv_step| |done|apply NewStore_fenced_inv].
    unfold token_room in *. lia. }
  destruct (run_preserves (fun s => fenced_inv s /\ fenced_newer s1 s) cs2 s1) as (s2 & E2 & _ & Hnew).
  - intros a b Hab Hstep [Hi Hn]. split; [by eapply fenced_inv_step|by eapply fenced_newer_step].
  - done.
  - split; [done|]. intros k v Hk. by exists v.
  - destruct (Hnew key v1 Hv) as (v2 & ? & ?). exists s2, v2. split; [|done].
    rewrite run_app, E1. done.
Qed.

(** ** Jobs *)

(** How one transition changes one job. *)
Lemma kv_step_job s s' k j :
  kv_step s s' -> jobs s !! k = Some j ->
  exists j', jobs s' !! k = Some j' /\
    (j' = j \/ same_job j j' /\ (jb_State j, jb_State j') ∈ job_edges /\
      (active (jb_State j) = true -> holds k (jb_FencingToken j) s)).
Proof.
  intros [x Hs] Hj.
  destruct Hs as [x s|d s|key o e ix s|key t s|key v t s|i p a ix s Hi Hnone|
    i w e ix j0 s Hi Hw Hj0 Hst Hl|i w l j0 s Hi Hw Hj0 Hst Hl|i t j0 s Hi Ht Hj0 Hst Hft Hh|
    i t from to j0 s Hi Ht Hj0 Hst Hft Hx Hh Hedge]; try (by exists j; auto); cbn.
  all: destruct (decide (i = k)) as [->|Hne];
    [rewrite lookup_insert_eq|rewrite lookup_insert_ne by done; by exists j; auto].
  all: simplify_eq; eexists; (split; [done|right]); (split; [done|]); cbn.
  - rewrite Hst. split; [set_solver|done].
  - rewrite Hst. split; [set_solver|done].
  - split; [|done]. apply active_spec in Hst as [-> | ->]; set_solver.
  - split; [|done]. rewrite !elem_of_cons in Hedge.
    destruct Hedge as [Hx1|[Hx1|[Hx1|[]%not_elem_of_nil]]]; rewrite Hx1; clear; set_solver.
Qed.

(** C22: the job state machine.  Applying a command leaves a job alone or moves it
    along one edge of the lifecycle PENDING, SCHEDULED, RUNNING, SUCCEEDED or
    FAILED, with SCHEDULED and RUNNING falling back to PENDING; no job
    disappears; ID, payload, schedule and creation index never change. *)
Theorem job_lifecycle c index s k j :
  jobs s !! k = Some j ->
  exists s' r j', applyCommand c index s = Some (s', r) /\ jobs s' !! k = Some j' /\
    (j' = j \/ same_job j j' /\ (jb_State j, jb_State j') ∈ job_edges).
Proof.
  intros Hj. destruct (applyCommand_step c index s) as (s' & r & E & Hs).
  destruct (kv_step_job _ _ _ _ Hs Hj) as (j' & Hj' & Hcase).
  exists s', r, j'. split_and!; [done..|]. naive_solver.
Qed.

(** A job that no transition can move. *)
Lemma stuck_step k j s1 s2 :
  (terminal (jb_State j) = true \/ active (jb_State j) = true /\ lost k (jb_FencingToken j) s1) ->
  kv_step s1 s2 -> jobs s1 !! k = Some j -> jobs s2 !! k = Some j.
Proof.
  intros Hst Hs Hj. destruct (kv_step_job _ _ _ _ Hs Hj) as (j' & Hj' & [->|(_ & He & Hh)]); [done|].
  exfalso. destruct Hst as [Ht|[Ha [_ Hl]]]; [|by apply Hl, Hh].
  unfold terminal in Ht. apply orb_true_iff in Ht. rewrite !bool_decide_eq_true in Ht.
  unfold job_edges in He. rewrite !elem_of_cons in He.
  repeat lazymatch type of He with
  | _ \/ _ => destruct He as [He|He]
  | _ ∈ [] => by apply not_elem_of_nil in He
  | _ => injection He as H1 H2; destruct Ht as [Ht|Ht]; congruence
  end.
Qed.

(** Finished jobs stay finished.  No sequence of commands changes a job that
    has SUCCEEDED or FAILED. *)
Theorem terminal_jobs_are_final cs s k j :
  token_room (length cs) s -> jobs s !! k = Some j -> terminal (jb_State j) = true ->
  exists s', run cs s = Some s' /\ jobs s' !! k = Some j.
Proof.
  intros Hr Hj Ht. apply (run_preserves (fun s => jobs s !! k = Some j)); [|done..].
  intros s1 s2 _ Hs. apply stuck_step; auto.
Qed.

(** An active job whose lock is gone is stuck.  Once the lock of a SCHEDULED
    or RUNNING job no longer carries the job's token, no sequence of commands
    ever changes the job again: it cannot be claimed, started, finished or
    reclaimed. *)
Lemma job_without_lock_is_stuck cs s k j :
  token_room (length cs) s -> jobs s !! k = Some j -> active (jb_State j) = true ->
  lost k (jb_FencingToken j) s ->
  exists s', run cs s = Some s' /\ jobs s' !! k = Some j.
Proof.
  intros Hr Hj Ha Hl.
  destruct (run_preserves (fun s => jobs s !! k = Some j /\ lost k (jb_FencingToken j) s) cs s)
    as (s' & E & Hj' & _); [|done|done|by exists s'].
  intros s1 s2 Hr1 Hs [H1 H2]. split; [by eapply stuck_step; eauto|by eapply lost_step].
Qed.

(** ** Sample runs *)

Definition sample_command (t : CommandType) (key jobID owner exec : string) (token : N) : Command :=
  mkCommand t key [x01] jobID [x02] 5 owner 100 token exec (JobOther "") 50.

Definition acquire_k (owner : string) : Command := sample_command CommandLockAcquire "k" "" owner "" 0.
Definition expire_k (token : N) : Command := sample_command CommandLockExpire "k" "" "" "" token.
Definition fenced_put_k (token : N) : Command := sample_command CommandFencedPut "k" "" "" "" token.
Definition create_j : Command := sample_command CommandCreateJob "" "j" "" "" 0.
Definition claim_j (w : string) : Command := sample_command CommandClaimJob "" "j" w "" 0.
Definition start_j : Command := sample_command CommandJobStart "" "j" "w" "j/1" 1.
Definition succeed_j : Command := sample_command CommandJobSucceeded "" "j" "w" "j/1" 1.

Definition store_after (cs : list (Command * LogIndex)) : Store := default NewStore (run cs NewStore).

(** The lock passes from owner A (token 1) to owner B (token 2). *)
Definition handover : list (Command * LogIndex) :=
  [(acquire_k "A", 1%N); (fenced_put_k 1, 2%N); (expire_k 1, 3%N); (acquire_k "B", 4%N)].

Lemma tokens_increase_witness :
  exists s', run handover NewStore = Some s' /\ (0 <= next_token s')%N /\
    forall key l, lock_at key s' = Some l ->
      lock_at key NewStore = Some l \/ (0 < lk_FencingToken l <= next_token s')%N.
Proof. apply (tokens_increase handover NewStore). vm_compute. done. Defined.

Lemma stale_writer_is_fenced_witness :
  exists s' e, run [(fenced_put_k 2, 5%N)] (store_after handover) = Some s' /\
    FencedPut "k" [x09] 1 s' = (s', Some e).
Proof.
  apply (stale_writer_is_fenced [(fenced_put_k 2, 5%N)] "k" 1 [x09] (store_after handover)).
  - vm_compute. done.
  - split; [vm_compute; done|]. intros (l & Hl & Ht). vm_compute in Hl. injection Hl as <-. done.
Defined.

Lemma fenced_values_are_monotone_witness :
  exists s2 v2, run (handover ++ [(fenced_put_k 2, 5%N)]) NewStore = Some s2 /\
    fenced s2 !! "k" = Some v2 /\ (1 <= fv_FencingToken v2)%N.
Proof.
  apply (fenced_values_are_monotone handover [(fenced_put_k 2, 5%N)] (store_after handover)
           "k" (mkFenced [x01] 1)); vm_compute; reflexivity.
Defined.

(** A job that was created, claimed by w, started and has succeeded. *)
Definition finished : list (Command * LogIndex) :=
  [(create_j, 1%N); (claim_j "w", 2%N); (start_j, 3%N); (succeed_j, 4%N)].

Definition job_after (cs : list (Command * LogIndex)) : Job :=
  default Job_zero (jobs (store_after cs) !! "j").

Lemma job_lifecycle_witness :
  exists s' r j', applyCommand start_j 3 (store_after [(create_j, 1%N); (claim_j "w", 2%N)]) = Some (s', r) /\
    jobs s' !! "j" = Some j' /\
    (j' = job_after [(create_j, 1%N); (claim_j "w", 2%N)] \/
     same_job (job_after [(create_j, 1%N); (claim_j "w", 2%N)]) j' /\
     (jb_State (job_after [(create_j, 1%N); (claim_j "w", 2%N)]), jb_State j') ∈ job_edges).
Proof. apply (job_lifecycle start_j 3). vm_compute. reflexivity. Defined.

Lemma terminal_jobs_are_final_witness :
  exists s', run [(claim_j "v", 5%N); (start_j, 6%N)] (store_after finished) = Some s' /\
    jobs s' !! "j" = Some (job_after finished).
Proof.
  apply (terminal_jobs_are_final [(claim_j "v", 5%N); (start_j, 6%N)] (store_after finished));
    vm_compute; reflexivity.
Defined.
