(* ===== verification/KvSnapshot.v ===== *)
(** Snapshots of the store: [internal/kv/store_snapshot.go].

    [Snapshot] writes the state as JSON; [Restore] reads the member "version" of the text,
    then the versioned state, which it validates, or the map of a snapshot without a
    version.  The invariant [store_ok] is what the validation accepts; [store_text] of
    [JsonStore] is what the text keeps. *)

From S2P Require Import Prelude Model Bytes Decimal Utf8 Json Base64 JsonCodec Lock KvStore.
From S2P Require Import JsonCommand JsonStore KvSpec KvFacts.

Record snapshotState := mkSnapshotState {
  ss_Version : N;
  ss_Data : gmap string bytes;
  ss_Locks : gmap string Lock;
  ss_NextToken : N;
  ss_Fenced : gmap string FencedValue;
  ss_Jobs : gmap JobID Job;
}.

Definition snapshotVersion : N := 1.

#[global] Instance FencedValue_eq_dec : EqDecision FencedValue.
Proof. solve_decision. Defined.

#[global] Instance snapshotState_eq_dec : EqDecision snapshotState.
Proof. solve_decision. Defined.

(** The state captured by [Snapshot]. *)
Definition captureState (s : Store) : snapshotState :=
  mkSnapshotState snapshotVersion (data s) (Locks (locks s)) (NextToken (locks s)) (fenced s) (jobs s).

(** The checks of the first loop of [validateSnapshotState]. *)
Definition checkLock (nextToken : N) (key : string) (currentLock : Lock) : option error :=
  if bool_decide (key = "") then Some (Msg "snapshot contains lock with empty map key")
  else if bool_decide (lk_Key currentLock = "") then Some (Msg "snapshot lock has empty key")
  else if bool_decide (lk_Key currentLock ≠ key)
  then Some (Msg "snapshot lock map key does not match lock key")
  else if bool_decide (lk_OwnerID currentLock = "") then Some (Msg "snapshot lock has empty owner")
  else if (lk_FencingToken currentLock =? 0)%N
  then Some (Msg "snapshot lock has invalid fencing token 0")
  else if (nextToken <? lk_FencingToken currentLock)%N
  then Some (Msg "snapshot lock fencing token exceeds next token")
  else None.

Definition validateActiveJobOwnership (i : JobID) (job : Job) (lks : gmap string Lock) : option error :=
  if bool_decide (jb_AssignedWorkerID job = "") then Some (Msg "active job has empty assigned worker")
  else if (jb_FencingToken job =? 0)%N then Some (Msg "active job has invalid fencing token 0")
  else
    match lks !! i with
    | None => Some (Msg "active job has no corresponding lock")
    | Some currentLock =>
        if bool_decide (lk_OwnerID currentLock ≠ jb_AssignedWorkerID job)
        then Some (Msg "active job worker does not match lock owner")
        else if negb (lk_FencingToken currentLock =? jb_FencingToken job)%N
        then Some (Msg "active job fencing token does not match lock token")
        else None
    end.

(** The checks of the second loop. *)
Definition checkJob (lks : gmap string Lock) (i : JobID) (job : Job) : option error :=
  if bool_decide (i = "") then Some (Msg "snapshot contains job with empty map key")
  else if bool_decide (jb_ID job = "") then Some (Msg "snapshot job map key has empty job ID")
  else if bool_decide (jb_ID job ≠ i) then Some (Msg "snapshot job map key does not match job ID")
  else
    match jb_State job with
    | JobPending =>
        if bool_decide (jb_AssignedWorkerID job ≠ "") || negb (jb_FencingToken job =? 0)%N
        then Some (Msg "pending job retains active ownership")
        else None
    | JobScheduled | JobRunning => validateActiveJobOwnership i job lks
    | JobSucceeded | JobFailed => None
    | JobOther _ => Some (Msg "snapshot job has unknown state")
    end.

(** The first error of a loop over a map, in the order of [map_to_list]; the
    source visits the entries in an unspecified order, which only changes the
    text of the error. *)
Fixpoint firstError {A} (check : string -> A -> option error) (l : list (string * A)) : option error :=
  match l with
  | [] => None
  | (k, a) :: rest =>
      match check k a with
      | Some e => Some e
      | None => firstError check rest
      end
  end.

Definition validateSnapshotState (st : snapshotState) : option error :=
  match firstError (checkLock (ss_NextToken st)) (map_to_list (ss_Locks st)) with
  | Some e => Some e
  | None => firstError (checkJob (ss_Locks st)) (map_to_list (ss_Jobs st))
  end.

(** ** The text of a snapshot *)

Definition snapshotState_zero : snapshotState := mkSnapshotState 0 ∅ ∅ 0 ∅ ∅.

Definition set_ss_Version x st := mkSnapshotState x (ss_Data st) (ss_Locks st) (ss_NextToken st) (ss_Fenced st) (ss_Jobs st).
Definition set_ss_Data x st := mkSnapshotState (ss_Version st) x (ss_Locks st) (ss_NextToken st) (ss_Fenced st) (ss_Jobs st).
Definition set_ss_Locks x st := mkSnapshotState (ss_Version st) (ss_Data st) x (ss_NextToken st) (ss_Fenced st) (ss_Jobs st).
Definition set_ss_NextToken x st := mkSnapshotState (ss_Version st) (ss_Data st) (ss_Locks st) x (ss_Fenced st) (ss_Jobs st).
Definition set_ss_Fenced x st := mkSnapshotState (ss_Version st) (ss_Data st) (ss_Locks st) (ss_NextToken st) x (ss_Jobs st).
Definition set_ss_Jobs x st := mkSnapshotState (ss_Version st) (ss_Data st) (ss_Locks st) (ss_NextToken st) (ss_Fenced st) x.

Definition dec_data : decoder (gmap string bytes) := dec_map [] dec_bytes.
Definition dec_locks : decoder (gmap string Lock) := dec_map Lock_zero (dec_struct lock_fields).
Definition dec_fenced : decoder (gmap string FencedValue) := dec_map FencedValue_zero (dec_struct fenced_fields).
Definition dec_jobs : decoder (gmap JobID Job) := dec_map Job_zero (dec_struct job_fields).

Definition snapshot_fields : list (string * decoder snapshotState) :=
  [("version", field (dec_uint 64) ss_Version set_ss_Version);
   ("data", field dec_data ss_Data set_ss_Data);
   ("locks", field dec_locks ss_Locks set_ss_Locks);
   ("next_token", field (dec_uint 64) ss_NextToken set_ss_NextToken);
   ("fenced", field dec_fenced ss_Fenced set_ss_Fenced);
   ("jobs", field dec_jobs ss_Jobs set_ss_Jobs)].

Definition snapshot_json (st : snapshotState) : json :=
  JObject (
    member "version" (enc_uint (ss_Version st)) ++
    member "data" (enc_map enc_bytes (ss_Data st)) ++
    member "locks" (enc_map lock_json (ss_Locks st)) ++
    member "next_token" (enc_uint (ss_NextToken st)) ++
    member "fenced" (enc_map fenced_json (ss_Fenced st)) ++
    member "jobs" (enc_map job_json (ss_Jobs st))).

(** [json.Marshal] does not fail on a [snapshotState]. *)
Definition Snapshot (s : Store) : result bytes :=
  wrap_err "marshal KV snapshot" (Ok (render (snapshot_json (captureState s)))).

(** The member "version" of the text read into a [map[string]json.RawMessage]: the last one,
    by its exact name. *)
Definition envelope_version (bs : bytes) : result (option json) :=
  match json_parse bs with
  | None => Err (Msg "invalid JSON")
  | Some JNull => Ok None
  | Some (JObject ms) => Ok (snd <$> last (filter (fun m => fst m = string_bytes "version") ms))
  | Some _ => Err (Msg "cannot unmarshal JSON")
  end.

Definition Restore (bs : bytes) (s : Store) : Store * option error :=
  match envelope_version bs with
  | Err e => (s, Some (Wrap "unmarshal KV snapshot" e))
  | Ok (Some versionRaw) =>
      match dec_uint 64 versionRaw 0%N with
      | None => (s, Some (Wrap "decode KV snapshot version" (Msg "cannot unmarshal JSON")))
      | Some version =>
          if negb (version =? snapshotVersion)%N then (s, Some (Msg "unsupported KV snapshot version"))
          else
            match json_Unmarshal_into (dec_struct snapshot_fields) bs snapshotState_zero with
            | Err e => (s, Some (Wrap "decode KV snapshot" e))
            | Ok st =>
                match validateSnapshotState st with
                | Some e => (s, Some (Wrap "validate KV snapshot" e))
                | None =>
                    (mkStore (ss_Data st) (mkLockState (ss_Locks st) (ss_NextToken st))
                       (ss_Fenced st) (ss_Jobs st), None)
                end
            end
      end
  | Ok None =>
      match json_Unmarshal_into dec_data bs ∅ with
      | Err e => (s, Some (Wrap "decode legacy KV snapshot" e))
      | Ok legacyData => (mkStore legacyData NewState ∅ ∅, None)
      end
  end.

(** ** The text is read back *)

Ltac norm_snapshot :=
  cbv beta iota delta [set_ss_Version set_ss_Data set_ss_Locks set_ss_NextToken set_ss_Fenced set_ss_Jobs
    ss_Version ss_Data ss_Locks ss_NextToken ss_Fenced ss_Jobs snapshotState_zero].

Lemma snapshot_read s : store_text s -> dec_struct snapshot_fields (snapshot_json (captureState s)) snapshotState_zero = Some (captureState s).
Proof.
  intros [Hd Hl Hn Hf Hj]. destruct s as [d [l n] f j]. unfold captureState. cbn [data locks Locks NextToken fenced jobs] in *.
  unfold snapshot_json, dec_struct. norm_snapshot.
  rewrite (dec_fields_member _ _ (dec_uint 64) ss_Version set_ss_Version _ _ _ snapshotVersion);
    [|reflexivity|apply dec_enc_uint; [apply N.le_refl|reflexivity]]. norm_snapshot.
  rewrite (dec_fields_member _ _ dec_data ss_Data set_ss_Data _ _ _ d);
    [|reflexivity|apply dec_enc_map; intros k t _; apply dec_enc_bytes]. norm_snapshot.
  rewrite (dec_fields_member _ _ dec_locks ss_Locks set_ss_Locks _ _ _ l);
    [|reflexivity|apply dec_enc_map; intros k t Hk; apply lock_read, (Hl k t Hk)]. norm_snapshot.
  rewrite (dec_fields_member _ _ (dec_uint 64) ss_NextToken set_ss_NextToken _ _ _ n);
    [|reflexivity|apply dec_enc_uint; [apply N.le_refl|exact Hn]]. norm_snapshot.
  rewrite (dec_fields_member _ _ dec_fenced ss_Fenced set_ss_Fenced _ _ _ f);
    [|reflexivity|apply dec_enc_map; intros k t Hk; apply fenced_read, (Hf k t Hk)]. norm_snapshot.
  rewrite <- (app_nil_r (member "jobs" _)).
  rewrite (dec_fields_member _ _ dec_jobs ss_Jobs set_ss_Jobs _ _ _ j);
    [|reflexivity|apply dec_enc_map; intros k t Hk; apply job_read, (Hj k t Hk)]. norm_snapshot. reflexivity.
Qed.

Lemma snapshot_writable s : store_text s -> writable 0 (snapshot_json (captureState s)).
Proof.
  intros [Hd Hl Hn Hf Hj]. apply object_writable; [reflexivity|]. repeat (apply Forall_app; split); apply member_ok; try reflexivity.
  - apply print_uint_text. reflexivity.
  - apply enc_map_writable; [reflexivity|]. intros k t Hk. split; [apply (Hd k t Hk)|apply enc_bytes_writable].
  - apply enc_map_writable; [reflexivity|]. intros k t Hk. destruct (Hl k t Hk). split; [done|by apply lock_writable].
  - apply print_uint_text. exact Hn.
  - apply enc_map_writable; [reflexivity|]. intros k t Hk. destruct (Hf k t Hk). split; [done|by apply fenced_writable].
  - apply enc_map_writable; [reflexivity|]. intros k t Hk. destruct (Hj k t Hk). split; [done|by apply job_writable].
Qed.

(** What is restored is valid text. *)
Lemma Restore_text bs s s' : Restore bs s = (s', None) -> store_text s'.
Proof.
  unfold Restore. destruct (envelope_version bs) as [[raw|]|]; [| |done].
  - destruct (dec_uint 64 raw 0%N); [|done]. destruct (negb _); [done|].
    destruct (json_Unmarshal_into _ bs _) as [st|] eqn:E; [|done]. destruct (validateSnapshotState st); [done|]. intros [= <-].
    revert E. apply (Unmarshal_keeps (fun st => store_text (mkStore (ss_Data st) (mkLockState (ss_Locks st) (ss_NextToken st)) (ss_Fenced st) (ss_Jobs st))));
      [|apply NewStore_text].
    apply dec_struct_keeps. repeat (apply Forall_cons; split); try apply Forall_nil_2; cbn [snd].
    + apply (field_keeps _ (fun _ => True)); [done|done|]. by intros a t [Hd Hl Hn Hf Hj].
    + eapply field_keeps; [by apply (dec_map_keeps (fun _ => True))|by intros t []|]. by intros a t [Hd Hl Hn Hf Hj] Ha.
    + eapply field_keeps; [by apply (dec_map_keeps lock_text); [apply dec_lock_keeps|]|by intros t []|]. by intros a t [Hd Hl Hn Hf Hj] Ha.
    + apply (field_keeps _ (fun n => is_u64 n)); [apply (dec_uint_keeps 64)|by intros t []|]. by intros a t [Hd Hl Hn Hf Hj] Ha.
    + eapply field_keeps; [by apply (dec_map_keeps fenced_text); [apply dec_fenced_keeps|]|by intros t []|]. by intros a t [Hd Hl Hn Hf Hj] Ha.
    + eapply field_keeps; [by apply (dec_map_keeps job_text); [apply dec_job_keeps|]|by intros t []|]. by intros a t [Hd Hl Hn Hf Hj] Ha.
  - destruct (json_Unmarshal_into _ bs _) as [d|] eqn:E; [|done]. intros [= <-].
    assert (map_Forall (fun k (_ : bytes) => text k /\ True) d) as Hd.
    { revert E. apply Unmarshal_keeps; [by apply (dec_map_keeps (fun _ => True))|]. apply map_Forall_empty. }
    destruct NewStore_text as [_ Hl Hn Hf Hj]. by constructor.
Qed.

(** ** What the validation accepts *)

Lemma firstError_None {A} (check : string -> A -> option error) l :
  firstError check l = None <-> forall k a, (k, a) ∈ l -> check k a = None.
Proof.
  induction l as [|[k a] l IH]; cbn.
  - split; [|done]. by intros _ k a ?%not_elem_of_nil.
  - destruct (check k a) eqn:E.
    + split; [done|]. intros Hall. specialize (Hall k a). rewrite Hall in E; [done|set_solver].
    + rewrite IH. split.
      * intros Hall k' a' [[= -> ->]|Hin]%elem_of_cons; auto.
      * intros Hall k' a' Hin. apply Hall. set_solver.
Qed.

(** The well-formedness of locks and jobs that restoring requires. *)
Definition lock_ok (nextToken : N) (key : string) (l : Lock) : Prop :=
  key ≠ "" /\ lk_Key l = key /\ lk_OwnerID l ≠ "" /\ (0 < lk_FencingToken l <= nextToken)%N.

Definition job_ok (s : Store) (i : JobID) (j : Job) : Prop :=
  i ≠ "" /\ jb_ID j = i /\
  match jb_State j with
  | JobPending => jb_AssignedWorkerID j = "" /\ jb_FencingToken j = 0%N
  | JobScheduled | JobRunning =>
      jb_AssignedWorkerID j ≠ "" /\ jb_FencingToken j ≠ 0%N /\
      exists l, lock_at i s = Some l /\ lk_OwnerID l = jb_AssignedWorkerID j /\
        lk_FencingToken l = jb_FencingToken j
  | JobSucceeded | JobFailed => True
  | JobOther _ => False
  end.

Definition store_ok (s : Store) : Prop :=
  (forall key l, lock_at key s = Some l -> lock_ok (next_token s) key l) /\
  (forall i j, jobs s !! i = Some j -> job_ok s i j).

Lemma checkLock_ok nt key l : checkLock nt key l = None <-> lock_ok nt key l.
Proof.
  unfold checkLock, lock_ok. repeat case_bool_decide; try naive_solver.
  destruct (N.eqb_spec (lk_FencingToken l) 0); [naive_solver lia|].
  destruct (N.ltb_spec nt (lk_FencingToken l)); [naive_solver lia|].
  split; [|done]. intros _. split_and!; try done. lia.
Qed.

Lemma validateActive_ok s i j :
  validateActiveJobOwnership i j (Locks (locks s)) = None <->
  jb_AssignedWorkerID j ≠ "" /\ jb_FencingToken j ≠ 0%N /\
  exists l, lock_at i s = Some l /\ lk_OwnerID l = jb_AssignedWorkerID j /\
    lk_FencingToken l = jb_FencingToken j.
Proof.
  unfold validateActiveJobOwnership, lock_at. case_bool_decide; [naive_solver|].
  destruct (N.eqb_spec (jb_FencingToken j) 0); [naive_solver|].
  destruct (Locks (locks s) !! i) as [l|]; [|naive_solver].
  case_bool_decide; [naive_solver|].
  destruct (N.eqb_spec (lk_FencingToken l) (jb_FencingToken j)); cbn; naive_solver.
Qed.

Lemma checkJob_ok s i j : checkJob (Locks (locks s)) i j = None <-> job_ok s i j.
Proof.
  unfold checkJob, job_ok. case_bool_decide; [naive_solver|].
  case_bool_decide; [naive_solver|]. case_bool_decide; [naive_solver|].
  destruct (jb_State j); rewrite ?validateActive_ok; try naive_solver.
  destruct (N.eqb_spec (jb_FencingToken j) 0); case_bool_decide; cbn; naive_solver.
Qed.

(** The validation accepts a store exactly when it is well formed. *)
Lemma validate_ok s : validateSnapshotState (captureState s) = None <-> store_ok s.
Proof.
  unfold validateSnapshotState, store_ok. cbn.
  assert (firstError (checkLock (next_token s)) (map_to_list (Locks (locks s))) = None <->
    (forall key l, lock_at key s = Some l -> lock_ok (next_token s) key l)) as HL.
  { rewrite firstError_None. setoid_rewrite elem_of_map_to_list. by setoid_rewrite checkLock_ok. }
  assert (firstError (checkJob (Locks (locks s))) (map_to_list (jobs s)) = None <->
    (forall i j, jobs s !! i = Some j -> job_ok s i j)) as HJ.
  { rewrite firstError_None. setoid_rewrite elem_of_map_to_list. by setoid_rewrite checkJob_ok. }
  rewrite <- HL, <- HJ. unfold next_token. destruct (firstError (checkLock _) _); naive_solver.
Qed.

(** ** The invariant *)

(** The command does not expire the lock of an active job. *)
Definition spares (c : Command) (s : Store) : bool :=
  match cmd_Type c with
  | CommandLockExpire =>
      match jobs s !! cmd_Key c with
      | Some j => negb (active (jb_State j))
      | None => true
      end
  | _ => true
  end.

Definition locks_ok (s : Store) : Prop :=
  forall key l, lock_at key s = Some l -> lock_ok (next_token s) key l.

Lemma locks_ok_step x s s' :
  token_room 1 s -> kv_lstep x s s' -> locks_ok s -> locks_ok s'.
Proof.
  intros Hr Hs Hl key l Hk. pose proof (kv_step_next s s' Hr (ex_intro _ x Hs)) as Hn.
  assert (lock_at key s = Some l -> lock_ok (next_token s') key l) as Hold.
  { intros Ho. destruct (Hl _ _ Ho) as (? & ? & ? & ?). unfold lock_ok. split_and!; try done; lia. }
  unfold token_room in Hr. cbn in Hr.
  destruct Hs; try (by apply Hold).
  - rewrite lock_at_grant in Hk. case_decide; [|by apply Hold]. injection Hk as <-. subst.
    unfold lock_ok, next_token in *. cbn in *. rewrite u64_add_small in * by lia.
    split_and!; try done; lia.
  - rewrite lock_at_release in Hk. case_decide; [done|by apply Hold].
  - change (lock_at key (set_locks l0 s) = Some l) in Hk. unfold l0 in *.
    rewrite lock_at_grant in Hk. case_decide; [|by apply Hold]. injection Hk as <-. subst.
    unfold lock_ok, next_token in *. cbn in *. rewrite u64_add_small in * by lia.
    split_and!; try done; lia.
  - change (lock_at key (set_locks (release i (locks s)) s) = Some l) in Hk.
    rewrite lock_at_release in Hk. case_decide; [done|by apply Hold].
Qed.

Lemma store_ok_locks_step x s s' :
  token_room 1 s -> kv_lstep x s s' -> store_ok s ->
  forall key l, lock_at key s' = Some l -> lock_ok (next_token s') key l.
Proof. intros Hr Hs [Hl _]. by apply (locks_ok_step x s s'). Qed.

(** A job not touched by a transition that keeps its lock stays well formed. *)
Lemma job_ok_frame s s' i j :
  (forall l, lock_at i s = Some l -> active (jb_State j) = true -> lock_at i s' = Some l) ->
  job_ok s i j -> job_ok s' i j.
Proof.
  unfold job_ok. intros Hl (Hi & Hid & Hst). split_and!; try done.
  destruct (jb_State j); try done; destruct Hst as (? & ? & l & ? & ? & ?); split_and!; try done;
    exists l; split_and!; auto.
Qed.

(** The jobs of a store after replacing job [i]. *)
Lemma jobs_update_ok i j s s0 :
  (forall k j', k ≠ i -> jobs s0 !! k = Some j' -> job_ok s k j') ->
  jobs s = <[i := j]> (jobs s0) -> job_ok s i j ->
  forall k j', jobs s !! k = Some j' -> job_ok s k j'.
Proof.
  intros Hrest -> Hi k j' Hk. destruct (decide (i = k)) as [->|Hne].
  - rewrite lookup_insert_eq in Hk. by injection Hk as <-.
  - rewrite lookup_insert_ne in Hk by done. by apply Hrest.
Qed.

Lemma transition_ok from to i j s s' :
  (from, to) ∈ [(JobScheduled, JobRunning); (JobRunning, JobSucceeded); (JobRunning, JobFailed)] ->
  jb_State j = from -> locks s' = locks s -> job_ok s i j -> job_ok s' i (with_state to j).
Proof.
  intros He Hst Hl (Hi & Hid & Hok). split_and!; [done..|]. rewrite Hst in Hok. unfold lock_at in *. rewrite Hl.
  rewrite !elem_of_cons in He. destruct He as [[= -> ->]|[[= -> ->]|[[= -> ->]|Hn]]]; try done.
  by apply not_elem_of_nil in Hn.
Qed.

Lemma store_ok_jobs_step x s s' :
  token_room 1 s -> kv_lstep x s s' -> store_ok s ->
  (forall key j, x = Some key -> jobs s !! key = Some j -> active (jb_State j) = false) ->
  forall i j, jobs s' !! i = Some j -> job_ok s' i j.
Proof.
  intros Hr Hs [Hl Hj] Hx. unfold token_room in Hr. cbn in Hr.
  destruct Hs as [x s|d s|key o e ix s _ _ Hfree|key t s _ _ Hh|key v t s|i p a ix s Hi Hnone|
    i w e ix j0 s Hi Hw Hj0 Hst Hfree attempt l|i w l j0 s Hi Hw Hj0 Hst Hlk Ho|
    i t j0 s Hi Ht Hj0 Hst Hft Hh|i t from to j0 s Hi Ht Hj0 Hst Hft Hxn Hh Hedge].
  - exact Hj.
  - intros i j Hij. by apply Hj.
  - intros i j Hij. apply (job_ok_frame s); [|by apply Hj]. intros l Hk _. rewrite lock_at_grant.
    case_decide; [congruence|done].
  - intros i j Hij. apply (job_ok_frame s); [|by apply Hj]. intros l Hk Ha. rewrite lock_at_release.
    case_decide as He; [|done]. subst. rewrite (Hx _ _ eq_refl Hij) in Ha. done.
  - intros i j Hij. by apply Hj.
  - eapply (jobs_update_ok i); [|done|by split_and!]. intros k j' _ Hk. by apply (job_ok_frame s); [|apply Hj].
  - eapply (jobs_update_ok i _ _ s); [|done|].
    + intros k j' Hne Hk. apply (job_ok_frame s); [|by apply Hj]. intros l' Hk' _.
      change (lock_at k (set_locks l s) = Some l'). unfold l. rewrite lock_at_grant.
      by case_decide.
    + destruct (Hj _ _ Hj0) as (_ & Hid & _). split_and!; [done..|]. cbn.
      unfold next_token in Hr. rewrite u64_add_small by lia. split_and!; [done|lia|].
      eexists. split; [by apply lookup_insert_eq|]. cbn. by rewrite u64_add_small by lia.
  - eapply (jobs_update_ok i _ _ s); [|done|].
    + intros k j' _ Hk. by apply (job_ok_frame s); [|apply Hj].
    + destruct (Hj _ _ Hj0) as (_ & Hid & _). destruct (Hl _ _ Hlk) as (_ & _ & _ & ?).
      split_and!; [done..|]. cbn. split_and!; [done|lia|]. exists l. split_and!; done.
  - eapply (jobs_update_ok i _ _ s); [|done|].
    + intros k j' Hne Hk. apply (job_ok_frame s); [|by apply Hj]. intros l' Hk' _.
      change (lock_at k (set_locks (release i (locks s)) s) = Some l'). rewrite lock_at_release.
      by case_decide.
    + destruct (Hj _ _ Hj0) as (_ & Hid & _). by split_and!.
  - eapply (jobs_update_ok i _ _ s); [|done|].
    + intros k j' _ Hk. by apply (job_ok_frame s); [|apply Hj].
    + by eapply transition_ok; [| | |apply Hj].
Qed.

Lemma store_ok_apply c index s s' r :
  token_room 1 s -> spares c s = true -> applyCommand c index s = Some (s', r) -> store_ok s -> store_ok s'.
Proof.
  intros Hr Hsp E Hok. destruct (applyCommand_lstep c index s) as (s1 & r1 & x & E1 & Hs & Hx). simplify_eq.
  split; [by eapply store_ok_locks_step|]. eapply store_ok_jobs_step; [done..|].
  intros key j -> Hj. destruct (Hx key eq_refl) as [Ht Hk]. unfold spares in Hsp.
  rewrite Ht, Hk, Hj in Hsp. by apply negb_true_iff.
Qed.

Lemma NewStore_ok : store_ok NewStore.
Proof. split; [by intros key l|by intros i j]. Qed.

Lemma Restore_ok bs s s' : Restore bs s = (s', None) -> store_ok s'.
Proof.
  unfold Restore. destruct (envelope_version bs) as [[raw|]|]; [| |done].
  - destruct (dec_uint 64 raw 0%N); [|done]. destruct (negb _); [done|].
    destruct (json_Unmarshal_into _ bs _) as [st|]; [|done]. destruct (validateSnapshotState st) eqn:E; [done|]. intros [= <-].
    apply validate_ok. exact E.
  - destruct (json_Unmarshal_into _ bs _) as [d|]; [|done]. intros [= <-]. apply NewStore_ok.
Qed.

(** A well-formed store of valid text is restored from its snapshot. *)
Lemma Restore_Snapshot s s0 : store_ok s -> store_text s -> exists bs, Snapshot s = Ok bs /\ Restore bs s0 = (s, None).
Proof.
  intros Hok Ht. eexists. split; [reflexivity|]. unfold Restore, envelope_version, json_Unmarshal_into.
  rewrite json_parse_render by (by apply snapshot_writable). rewrite snapshot_read by done.
  assert (forall v rest, snapshot_json (captureState s) = JObject ((string_bytes "version", v) :: rest) ->
    v = enc_uint 1) as Hv.
  { intros v rest [= <- _]. done. }
  replace (match snapshot_json (captureState s) with JObject ms => _ | _ => _ end)
    with (@Ok (option json) (Some (enc_uint 1))).
  - rewrite dec_enc_uint by (done || reflexivity). cbn [negb N.eqb snapshotVersion Pos.eqb].
    rewrite (proj2 (validate_ok s)) by done. by destruct s as [? [] ? ?].
  - symmetry. unfold snapshot_json. cbn [member app]. rewrite !filter_cons. cbn [fst]. by repeat (rewrite decide_False by done || rewrite decide_True by done).
Qed.

(** The stores that the program can have: a new one, one restored from bytes of any origin,
    or one after a command that was read from the log.  The command does not expire the
    lock of an active job, and the counter of fencing tokens has not run out. *)
Inductive reached : Store -> Prop :=
| reached_new : reached NewStore
| reached_restored bs s s' : Restore bs s = (s', None) -> reached s'
| reached_applied data c index s s' r :
    reached s -> decode_command data = Ok c -> is_u64 index -> token_room 1 s -> spares c s = true ->
    applyCommand c index s = Some (s', r) -> reached s'.

Lemma reached_ok s : reached s -> store_ok s /\ store_text s.
Proof.
  induction 1 as [|bs s s' E|bs c index s s' r _ [Hok Ht] Hd Hi Hr Hsp E].
  - split; [apply NewStore_ok|apply NewStore_text].
  - split; [by eapply Restore_ok|by eapply Restore_text].
  - split; [by eapply store_ok_apply|]. exact (applyCommand_text c index s s' r (decoded_ok _ _ Hd) Hi Ht E).
Qed.

(** C24: a snapshot can be restored.  The snapshot of any store that the program can have,
    none of whose commands expired the lock of an active job, is the JSON text that
    [Restore] reads back as exactly the captured state, into any store. *)
Theorem snapshot_roundtrip s s0 :
  reached s -> exists bs, Snapshot s = Ok bs /\ Restore bs s0 = (s, None).
Proof. intros [Hok Ht]%reached_ok. by apply Restore_Snapshot. Qed.

(** ** Snapshots without a version *)

(** The form that [Restore] reads as version 0: the map of keys and values. *)
Definition legacy_data (d : gmap string bytes) : bytes := render (enc_map enc_bytes d).

Lemma string_bytes_inj a b : string_bytes a = string_bytes b -> a = b.
Proof. intros E. apply (f_equal bytes_string) in E. by rewrite !String.string_of_list_byte_of_string in E. Qed.

(** The member of a written map under a key. *)
Lemma enc_map_member {T} (enc : T -> json) (m : gmap string T) key ms :
  enc_map enc m = JObject ms -> snd <$> last (filter (fun x => fst x = string_bytes key) ms) = enc <$> m !! key.
Proof.
  intros [= <-]. assert (forall k t, (k, t) ∈ sorted_keys m <-> m !! k = Some t) as Hin.
  { intros k t. rewrite sorted_keys_perm. apply elem_of_map_to_list. }
  set (members := map _ _). destruct (last (filter _ members)) as [[k v]|] eqn:E.
  - apply last_Some_elem_of, list_elem_of_filter in E as [Hk E]. cbn in Hk. subst k.
    apply list_elem_of_fmap in E as ([k t] & [= Hk ->] & Ht). apply string_bytes_inj in Hk as ->. apply Hin in Ht. by rewrite Ht.
  - apply last_None in E. destruct (m !! key) as [t|] eqn:Ht; [|done]. apply Hin in Ht.
    assert ((string_bytes key, enc t) ∈ filter (fun x => fst x = string_bytes key) members) as Hx.
    { apply list_elem_of_filter. split; [done|]. apply list_elem_of_fmap. by exists (key, t). }
    rewrite E in Hx. by apply not_elem_of_nil in Hx.
Qed.

(** A snapshot of version 0 is restored, unless the store had a key named "version": then its
    value is taken for the version of the snapshot, and the snapshot is refused. *)
Theorem legacy_snapshots d s :
  (forall key, is_Some (d !! key) -> text key) ->
  match d !! "version" with
  | None => Restore (legacy_data d) s = (mkStore d NewState ∅ ∅, None)
  | Some _ => exists e, Restore (legacy_data d) s = (s, Some e)
  end.
Proof.
  intros Hd. assert (json_parse (legacy_data d) = Some (enc_map enc_bytes d)) as Hp.
  { apply json_parse_render, enc_map_writable; [reflexivity|]. intros k v Hk. split; [apply Hd; by exists v|apply enc_bytes_writable]. }
  unfold Restore, envelope_version, json_Unmarshal_into. rewrite Hp.
  destruct (enc_map enc_bytes d) as [| | | | |ms] eqn:E; try done.
  rewrite (enc_map_member enc_bytes d "version" ms E). destruct (d !! "version") as [v|]; cbn [fmap option_fmap option_map].
  - unfold enc_bytes. case_bool_decide; cbn [dec_uint]; [|by eexists]. by eexists.
  - rewrite <- E. unfold dec_data. rewrite dec_enc_map by (intros; apply dec_enc_bytes). done.
Qed.

(** The snapshot of a store in which an active job has no lock is refused. *)
Lemma unlocked_job_invalid s k j :
  jobs s !! k = Some j -> active (jb_State j) = true -> lock_at k s = None ->
  validateSnapshotState (captureState s) ≠ None.
Proof.
  intros Hj Ha Hgone. rewrite validate_ok. intros [_ Hjs]. destruct (Hjs k j Hj) as (_ & _ & Hst).
  destruct (proj1 (active_spec _) Ha) as [Hs|Hs]; rewrite Hs in Hst;
    destruct Hst as (_ & _ & l' & Hl' & _); congruence.
Qed.

(** ** Witnesses *)

(** A list of commands as they come from the log. *)
Fixpoint run_ok (cs : list (Command * LogIndex)) (s : Store) : bool :=
  match cs with
  | [] => true
  | (c, index) :: rest =>
      match decode_command (command_data c) with Ok c' => bool_decide (c' = c) | Err _ => false end && (index <? u64_modulus)%N && spares c s &&
      (next_token s + 1 <? u64_modulus)%N &&
      match applyCommand c index s with Some (s', _) => run_ok rest s' | None => false end
  end.

Lemma run_reached cs s : reached s -> run_ok cs s = true -> exists s', run cs s = Some s' /\ reached s'.
Proof.
  revert s. induction cs as [|[c index] cs IH]; intros s Hs; cbn [run_ok run]; [by exists s|].
  rewrite !andb_true_iff. intros ((((Hd & Hi%N.ltb_lt) & Hsp) & Hr%N.ltb_lt) & Hrun).
  destruct (decode_command (command_data c)) as [c'|] eqn:Ec; [|done]. apply bool_decide_eq_true in Hd as ->.
  destruct (applyCommand c index s) as [[s1 r]|] eqn:E; [|done]. apply IH; [|done]. apply (reached_applied (command_data c) c index s s1 r); [exact Hs|exact Ec|exact Hi| |exact Hsp|exact E].
  unfold token_room. cbn. lia.
Qed.

Lemma snapshot_roundtrip_witness :
  reached (store_after finished) /\
  exists bs, Snapshot (store_after finished) = Ok bs /\ Restore bs NewStore = (store_after finished, None).
Proof.
  assert (reached (store_after finished)) as Hr.
  { destruct (run_reached finished NewStore reached_new) as (s' & E & Hs'); [vm_compute; reflexivity|].
    unfold store_after. rewrite E. exact Hs'. }
  split; [exact Hr|]. exact (snapshot_roundtrip (store_after finished) NewStore Hr).
Defined.
