(* ===== verification/KvApplier.v ===== *)
(** The applier: [internal/kv/applier.go] and [ApplyWithMetrics] of [apply.go].

    It receives the committed entries from the apply channel, applies them to
    the store in order, records results for the waiting clients, and stops at the
    first error it does not expect.  The decoder of commands is an argument, so that
    what is proved holds for any; the one of the program is [decode_command] of
    [JsonCommand]. *)

From S2P Require Import Prelude Model Lock KvStore KvSpec KvFacts KvSnapshot.

Record Applier := mkApplier {
  ap_store : Store;
  ap_lastApplied : LogIndex;
  ap_applyErr : option error;
  ap_results : gmap LogIndex ApplyResult;
}.

Definition NewApplier (s : Store) : Applier := mkApplier s 0 None ∅.

Definition isExpectedApplyError (e : error) : bool :=
  errors_Is e "stale fencing token" || errors_Is e "lock not found" || errors_Is e "job not found" ||
  errors_Is e "invalid job" || errors_Is e "job is not claimable" ||
  errors_Is e "job is already claimed" || errors_Is e "job already exists" ||
  errors_Is e "invalid job state transition" || errors_Is e "job ownership lost".

Section Applier.
Context (DecodeCommand : bytes -> result Command).

(** [ApplyWithMetrics]; [None] stands for a panic. *)
Definition Apply (s : Store) (entry : LogEntry) : option (Store * ApplyResult) :=
  match DecodeCommand (le_Data entry) with
  | Err e => Some (s, mkApplyResult None (Some (Wrap "decode raft command" e)))
  | Ok command => applyCommand command (le_Index entry) s
  end.

Definition commandNeedsResult (entry : LogEntry) : bool :=
  match DecodeCommand (le_Data entry) with
  | Err _ => false
  | Ok command =>
      match cmd_Type command with
      | CommandFencedPut | CommandCreateJob | CommandClaimJob | CommandJobReclaim
      | CommandJobStart | CommandJobSucceeded | CommandJobFailed => true
      | _ => false
      end
  end.

(** One entry received by [Run]: the new state, and the error with which [Run]
    returns, if it does. *)
Definition applyEntry (a : Applier) (entry : LogEntry) : option (Applier * option error) :=
  match Apply (ap_store a) entry with
  | None => None
  | Some (s, res) =>
      let lastApplied := if (ap_lastApplied a <? le_Index entry)%N then le_Index entry
                         else ap_lastApplied a in
      let results := if commandNeedsResult entry then <[le_Index entry := res]> (ap_results a)
                     else ap_results a in
      match ar_Err res with
      | Some e =>
          if negb (isExpectedApplyError e) then
            let err := Wrap "apply entry" e in
            Some (mkApplier s lastApplied (Some err) results, Some err)
          else Some (mkApplier s lastApplied (ap_applyErr a) results, None)
      | None => Some (mkApplier s lastApplied (ap_applyErr a) results, None)
      end
  end.

(** [Run] on the entries received before the channel is closed. *)
Fixpoint Run (a : Applier) (es : list LogEntry) : option (Applier * option error) :=
  match es with
  | [] => Some (a, None)
  | entry :: rest =>
      match applyEntry a entry with
      | None => None
      | Some (a, Some e) => Some (a, Some e)
      | Some (a, None) => Run a rest
      end
  end.

(** One poll of [WaitApplied]: [None] to wait on, otherwise its return value. *)
Definition pollApplied (a : Applier) (index : LogIndex) : option (option error) :=
  match ap_applyErr a with
  | Some e => Some (Some e)
  | None => if (index <=? ap_lastApplied a)%N then Some None else None
  end.

(** One poll of [WaitResult]; the result is handed out once. *)
Definition pollResult (a : Applier) (index : LogIndex) : Applier * option (result ApplyResult) :=
  match ap_results a !! index with
  | Some res =>
      (mkApplier (ap_store a) (ap_lastApplied a) (ap_applyErr a) (delete index (ap_results a)),
       Some (Ok res))
  | None =>
      match ap_applyErr a with
      | Some e => (a, Some (Err e))
      | None => (a, None)
      end
  end.

Definition ap_Snapshot (a : Applier) : result (bytes * LogIndex) :=
  data ← wrap_err "snapshot KV state" (Snapshot (ap_store a));
  Ok (data, ap_lastApplied a).

Definition ap_RestoreSnapshot (snapshot : Model.Snapshot) (a : Applier) : Applier * option error :=
  match Restore (snap_Data snapshot) (ap_store a) with
  | (s, Some e) =>
      (mkApplier s (ap_lastApplied a) (ap_applyErr a) (ap_results a),
       Some (Wrap "restore KV snapshot" e))
  | (s, None) => (mkApplier s (snap_LastIncludedIndex snapshot) None ∅, None)
  end.

(** ** When the applier stops *)

(** Commands that make the state machine fail on every replica. *)
Definition poison (entry : LogEntry) : bool :=
  match DecodeCommand (le_Data entry) with
  | Err e => negb (isExpectedApplyError e)
  | Ok c =>
      match cmd_Type c with
      | CommandUnknown _ => true
      | CommandLockAcquire => bool_decide (cmd_Key c = "") || bool_decide (cmd_OwnerID c = "")
      | CommandLockExpire => bool_decide (cmd_Key c = "") || (cmd_FencingToken c =? 0)%N
      | CommandFencedPut => bool_decide (cmd_Key c = "")
      | _ => false
      end
  end.

(** The commands decoded from the entries, up to the first undecodable one. *)
Fixpoint decoded (es : list LogEntry) : list (Command * LogIndex) :=
  match es with
  | [] => []
  | entry :: rest =>
      match DecodeCommand (le_Data entry) with
      | Ok c => (c, le_Index entry) :: decoded rest
      | Err _ => decoded rest
      end
  end.

(** Errors of job operations are expected ones. *)
Definition expected {A} (r : result A) : Prop :=
  match r with Err e => isExpectedApplyError e = true | Ok _ => True end.

Ltac solve_expected := repeat (split_goal_match; cbn [snd expected]; try done).

Lemma TransitionJobState_expected i w x t from to at_ s :
  expected (snd (TransitionJobState i w x t from to at_ s)).
Proof.
  unfold TransitionJobState. destruct (validateTransitionArguments _ _ _ _ _) eqn:E.
  { unfold validateTransitionArguments in E. by repeat case_match; simplify_eq. }
  clear E. destruct (validateTransitionStates _ _) eqn:E.
  { unfold validateTransitionStates in E. by repeat case_match; simplify_eq. }
  clear E. destruct (jobs s !! i); [|done].
  destruct (validateTransitionOwnership _ _ _ _ _ _ _ _) eqn:E; [|done].
  unfold validateTransitionOwnership in E. by repeat case_match; simplify_eq.
Qed.

Lemma ReclaimExpiredJob_expected i t at_ s : expected (snd (ReclaimExpiredJob i t at_ s)).
Proof. unfold ReclaimExpiredJob. solve_expected. Qed.

Lemma ClaimJob_expected i w e index s : expected (snd (ClaimJob i w e index s)).
Proof.
  unfold ClaimJob. destruct (validateClaimArguments _ _ _) eqn:E.
  { unfold validateClaimArguments in E. by repeat case_match; simplify_eq. }
  clear E. destruct (jobs s !! i) as [j|]; [|done]. unfold handleExistingClaim.
  destruct (jb_State j); try done; [|by case_bool_decide].
  destruct (Acquire _ _ _ _ _) as [[l lk] []]; cbn; [done|].
  unfold handleFailedClaim. by case_bool_decide.
Qed.

Lemma CreateJob_expected j s e : snd (CreateJob j s) = Some e -> isExpectedApplyError e = true.
Proof. unfold CreateJob. repeat case_match; intros; by simplify_eq/=. Qed.

Lemma job_result_expected r : expected r ->
  match ar_Err (job_result r) with Some e => isExpectedApplyError e | None => true end = true.
Proof. by destruct r. Qed.

(** Which outcome of a command is an unexpected error. *)
Lemma applyCommand_unexpected c index s s' r :
  applyCommand c index s = Some (s', r) ->
  match ar_Err r with Some e => negb (isExpectedApplyError e) | None => false end =
  match cmd_Type c with
  | CommandUnknown _ => true
  | CommandLockAcquire => bool_decide (cmd_Key c = "") || bool_decide (cmd_OwnerID c = "")
  | CommandLockExpire => bool_decide (cmd_Key c = "") || (cmd_FencingToken c =? 0)%N
  | CommandFencedPut => bool_decide (cmd_Key c = "")
  | _ => false
  end.
Proof.
  unfold applyCommand, applyKVCommand, applyLockCommand, applyJobCreationCommand, applyClaimJob,
    applyJobTransitionCommand, applyJobReclaimCommand.
  destruct (cmd_Type c) eqn:Ht; cbn [jobTransitionStates].
  - by intros [= <- <-].
  - by intros [= <- <-].
  - by intros [= <- <-].
  - unfold AcquireLock. repeat case_bool_decide; try by intros [= <- <-].
    destruct (Acquire _ _ _ _ _) as [[l lk] b]. by intros [= <- <-].
  - unfold ExpireLock. case_bool_decide; [by intros [= <- <-]|].
    destruct (_ =? 0)%N; [by intros [= <- <-]|].
    destruct (Expire _ _ _) as [[l lk] b]. by intros [= <- <-].
  - unfold applyFencedPut, FencedPut. case_bool_decide; [by intros [= <- <-]|].
    destruct (_ =? 0)%N; [by intros [= <- <-]|]. destruct (Get _ _); [|by intros [= <- <-]].
    destruct (negb _); by intros [= <- <-].
  - pose proof (CreateJob_expected (mkJob (cmd_JobID c) (cmd_Payload c) JobPending (cmd_ScheduledAt c)
      "" 0 0 "" index) s) as He.
    destruct (CreateJob _ _) as [s1 [e|]]; intros [= <- <-]; cbn; [|done]. specialize (He e eq_refl).
    unfold isExpectedApplyError in *. cbn. by rewrite He.
  - pose proof (ClaimJob_expected (cmd_JobID c) (cmd_OwnerID c) (cmd_ExpiresAt c) index s) as He.
    destruct (ClaimJob _ _ _ _ _) as [s1 [j|e]]; intros [= <- <-]; cbn; [done|]. cbn in He.
    unfold isExpectedApplyError in *. cbn. by rewrite He.
  - pose proof (ReclaimExpiredJob_expected (cmd_JobID c) (cmd_FencingToken c) (cmd_At c) s) as He.
    destruct (ReclaimExpiredJob _ _ _ _) as [s1 [j|e]]; intros [= <- <-]; cbn in *; by rewrite ?He.
  - pose proof (TransitionJobState_expected (cmd_JobID c) (cmd_OwnerID c) (cmd_ExecutionID c)
      (cmd_FencingToken c) JobScheduled JobRunning (cmd_At c) s) as He.
    destruct (TransitionJobState _ _ _ _ _ _ _ _) as [s1 [j|e]]; intros [= <- <-]; cbn in *; by rewrite ?He.
  - pose proof (TransitionJobState_expected (cmd_JobID c) (cmd_OwnerID c) (cmd_ExecutionID c)
      (cmd_FencingToken c) JobRunning JobSucceeded (cmd_At c) s) as He.
    destruct (TransitionJobState _ _ _ _ _ _ _ _) as [s1 [j|e]]; intros [= <- <-]; cbn in *; by rewrite ?He.
  - pose proof (TransitionJobState_expected (cmd_JobID c) (cmd_OwnerID c) (cmd_ExecutionID c)
      (cmd_FencingToken c) JobRunning JobFailed (cmd_At c) s) as He.
    destruct (TransitionJobState _ _ _ _ _ _ _ _) as [s1 [j|e]]; intros [= <- <-]; cbn in *; by rewrite ?He.
  - by intros [= <- <-].
Qed.

(** One entry: the new state, and whether [Run] stops. *)
Lemma applyEntry_spec a entry :
  exists a' o, applyEntry a entry = Some (a', o) /\
    bool_decide (is_Some o) = poison entry /\ (forall err, o = Some err -> ap_applyErr a' = Some err) /\
    ap_lastApplied a' = N.max (ap_lastApplied a) (le_Index entry) /\
    run (decoded [entry]) (ap_store a) = Some (ap_store a').
Proof.
  unfold applyEntry, Apply, poison. cbn [decoded].
  assert ((if (ap_lastApplied a <? le_Index entry)%N then le_Index entry else ap_lastApplied a)
          = N.max (ap_lastApplied a) (le_Index entry)) as Hmax.
  { destruct (N.ltb_spec (ap_lastApplied a) (le_Index entry)); lia. }
  destruct (DecodeCommand (le_Data entry)) as [c|e]; cbn [run].
  - destruct (applyCommand_step c (le_Index entry) (ap_store a)) as (s' & r & E & _). rewrite E.
    apply applyCommand_unexpected in E. rewrite <- E.
    destruct (ar_Err r) as [e|]; [destruct (isExpectedApplyError e)|]; cbn; eexists _, _; split_and!; try done; naive_solver.
  - cbn [ar_Err]. change (isExpectedApplyError (Wrap "decode raft command" e)) with (isExpectedApplyError e).
    destruct (isExpectedApplyError e); cbn; eexists _, _; split_and!; try done; naive_solver.
Qed.

Lemma decoded_app es1 es2 : decoded (es1 ++ es2) = decoded es1 ++ decoded es2.
Proof. induction es1 as [|e es IH]; cbn; [done|]. rewrite IH. by destruct (DecodeCommand _). Qed.

(** What the applier does.  Received entries none of which is poisonous are
    all applied, in order: the store is that of the decoded commands, [Run] goes
    on, and [lastApplied] is the highest index received. *)
Theorem Run_applies a es :
  Forall (fun e => poison e = false) es ->
  exists a', Run a es = Some (a', None) /\ run (decoded es) (ap_store a) = Some (ap_store a') /\
    ap_lastApplied a' = fold_left N.max (map le_Index es) (ap_lastApplied a).
Proof.
  revert a; induction es as [|e es IH]; intros a Hp; cbn [Run map fold_left]; [by exists a|].
  apply Forall_cons in Hp as [He Hes].
  destruct (applyEntry_spec a e) as (a1 & o & -> & Ho & _ & Hl & Hr). rewrite He in Ho. bool_norm.
  destruct o as [err|]; [by destruct Ho|].
  destruct (IH a1 Hes) as (a' & -> & Hrun & Hlast). exists a'. split_and!; [done| |by rewrite Hlast, Hl].
  change (e :: es) with ([e] ++ es). by rewrite decoded_app, run_app, Hr.
Qed.

(** A poisonous entry halts the replica.  [Run] stops at the first entry that
    cannot be decoded, has an unknown type, or is a lock or fenced-write command
    with an empty key, empty owner or zero token to expire: the entries before it
    are applied, the error is kept for every later wait, and no later entry is
    applied. *)
Theorem Run_stops_at_poison a es1 e es2 :
  Forall (fun e => poison e = false) es1 -> poison e = true ->
  exists a' err, Run a (es1 ++ e :: es2) = Some (a', Some err) /\
    ap_applyErr a' = Some err /\
    (forall index, pollApplied a' index = Some (Some err)) /\
    run (decoded (es1 ++ [e])) (ap_store a) = Some (ap_store a').
Proof.
  intros Hp He. revert a; induction es1 as [|e1 es1 IH]; intros a.
  - cbn [app Run]. destruct (applyEntry_spec a e) as (a1 & o & -> & Ho & Herr & _ & Hr).
    rewrite He in Ho. bool_norm. destruct Ho as [err ->]. specialize (Herr err eq_refl).
    exists a1, err. split_and!; try done. intros index. unfold pollApplied. by rewrite Herr.
  - apply Forall_cons in Hp as [He1 Hes]. cbn [app Run].
    destruct (applyEntry_spec a e1) as (a1 & o & -> & Ho & _ & _ & Hr). rewrite He1 in Ho. bool_norm.
    destruct o as [err|]; [by destruct Ho|].
    destruct (IH Hes a1) as (a' & err & -> & Hae & Hpoll & Hrun). exists a', err. split_and!; try done.
    change (e1 :: es1 ++ [e]) with ([e1] ++ (es1 ++ [e])). by rewrite decoded_app, run_app, Hr.
Qed.

End Applier.

(** ** Witnesses *)

(** A decoder for two commands: the byte 1 acquires the lock k, the byte 0 a lock
    with no key. *)
Definition sample_decoder (bs : bytes) : result Command :=
  match bs with
  | [x01] => Ok (acquire_k "A")
  | [x00] => Ok (sample_command CommandLockAcquire "" "" "A" "" 0)
  | _ => Err (Msg "invalid character")
  end.

Lemma Run_applies_witness :
  exists a', Run sample_decoder (NewApplier NewStore) [mkLogEntry 4 1 [x01]] = Some (a', None) /\
    ap_lastApplied a' = 4%N.
Proof.
  destruct (Run_applies sample_decoder (NewApplier NewStore) [mkLogEntry 4 1 [x01]])
    as (a' & E & _ & Hl); [repeat constructor|].
  exists a'. split; [exact E|exact Hl].
Defined.

Lemma Run_stops_at_poison_witness :
  exists a' err, Run sample_decoder (NewApplier NewStore)
      ([mkLogEntry 1 1 [x01]] ++ mkLogEntry 2 1 [x00] :: [mkLogEntry 3 1 [x01]]) = Some (a', Some err) /\
    pollApplied a' 1 = Some (Some err).
Proof.
  destruct (Run_stops_at_poison sample_decoder (NewApplier NewStore) [mkLogEntry 1 1 [x01]]
    (mkLogEntry 2 1 [x00]) [mkLogEntry 3 1 [x01]]) as (a' & err & E & _ & Hp & _);
    [repeat constructor|done|].
  exists a', err. split; [exact E|apply Hp].
Defined.
