(* ===== verification/LogChain.v ===== *)
(** Where the entries of a log come from.

    Every entry is created once, by the leader of its term ([Propose]).  A creation
    records the index, the term, the data and the term of the entry before it.  A list of
    entries is a [chain] when each of them was created after the one in front of it;
    [log_ok] says that of a log.  The operations of a node keep its log, and what it
    has stored, a chain: this file shows that of each of them, [LogMatching] puts them
    together. *)

From S2P Require Import Prelude Model RaftLog Storage Membership ConfigEntry Node Election.
From S2P Require Import ElectionFacts Apply SnapshotOps Replication ReplicationFacts Durability.
From S2P Require Import ElectionSafety ReadIndex.

Record creation := mkCreation {
  cr_Index : LogIndex;
  cr_Term : Term;
  cr_Prev : Term;
  cr_Data : bytes;
}.

Definition created_as (p : Term) (e : LogEntry) : creation :=
  mkCreation (le_Index e) (le_Term e) p (le_Data e).

(** The term at the end of [es] behind an entry of term [p]. *)
Definition last_term (p : Term) (es : list LogEntry) : Term := default p (le_Term <$> last es).

Fixpoint chain (C : list creation) (p : Term) (es : list LogEntry) : Prop :=
  match es with
  | [] => True
  | e :: es => created_as p e ∈ C /\ chain C (le_Term e) es
  end.

(** A well-formed log of created entries.  Two indexes are left free above it, and its
    boundary is not the index 1. *)
Definition log_ok (C : list creation) (l : Log) : Prop :=
  log_wf l /\ is_u64 (lastIndexLocked l + 2)%N /\ lastIncludedIndex l ≠ 1%N /\
  (lastIncludedIndex l = 0%N -> lastIncludedTerm l = 0%N) /\
  chain C (lastIncludedTerm l) (entries l).

(** ** Chains *)

Lemma last_term_nil p : last_term p [] = p.
Proof. done. Qed.

Lemma last_term_snoc p es e : last_term p (es ++ [e]) = le_Term e.
Proof. unfold last_term. by rewrite last_snoc. Qed.

Lemma last_term_cons p e es : last_term p (e :: es) = last_term (le_Term e) es.
Proof. unfold last_term. rewrite last_cons. by destruct (last es). Qed.

Lemma last_term_app p es1 es2 : last_term p (es1 ++ es2) = last_term (last_term p es1) es2.
Proof. unfold last_term. rewrite last_app. by destruct (last es2). Qed.

Lemma lastTermLocked_last l : lastTermLocked l = last_term (lastIncludedTerm l) (entries l).
Proof. unfold lastTermLocked, last_term. by destruct (last (entries l)). Qed.

Lemma chain_app C p es1 es2 :
  chain C p (es1 ++ es2) <-> chain C p es1 /\ chain C (last_term p es1) es2.
Proof.
  revert p; induction es1 as [|e es IH]; intros p; cbn [app chain].
  - rewrite last_term_nil. tauto.
  - rewrite IH, last_term_cons. tauto.
Qed.

Lemma chain_mono C C' p es : C ⊆ C' -> chain C p es -> chain C' p es.
Proof. intros Hs. revert p; induction es as [|e es IH]; intros p; cbn; [done|]. intros []. auto. Qed.

Lemma chain_take C p es k : chain C p es -> chain C p (take k es).
Proof. intros Hc. rewrite <- (take_drop k es) in Hc. by apply chain_app in Hc as [Hc _]. Qed.

Lemma chain_drop C p es k : chain C p es -> chain C (last_term p (take k es)) (drop k es).
Proof. intros Hc. rewrite <- (take_drop k es) in Hc. by apply chain_app in Hc as [_ Hc]. Qed.

Lemma chain_lookup C p es k e :
  chain C p es -> es !! k = Some e -> created_as (last_term p (take k es)) e ∈ C.
Proof.
  intros Hc Hk. apply (chain_drop _ _ _ k) in Hc. rewrite (drop_S _ _ _ Hk) in Hc. apply Hc.
Qed.

Lemma log_ok_mono C C' l : C ⊆ C' -> log_ok C l -> log_ok C' l.
Proof. intros Hs (? & ? & ? & ? & Hc). split_and!; try done. by eapply chain_mono. Qed.

Lemma last_take (es : list LogEntry) k e : es !! k = Some e -> last (take (S k) es) = Some e.
Proof. intros Hk. rewrite (take_S_r _ _ e Hk). apply last_snoc. Qed.

(** The term at an index of the log, by the entries up to it. *)
Lemma prefix_term l i :
  log_wf l -> (lastIncludedIndex l <= i <= lastIndexLocked l)%N -> i ≠ 0%N ->
  term_at l i = Some (last_term (lastIncludedTerm l) (take (N.to_nat (i - lastIncludedIndex l)) (entries l))).
Proof.
  intros Hwf Hi H0. unfold term_at. rewrite getLocked_spec by done.
  rewrite lastIndexLocked_spec in Hi by done.
  destruct (N.eqb_spec i (lastIncludedIndex l)) as [Heq|Hne]; destruct (N.eqb_spec i 0) as [?|_]; try done; cbn.
  - rewrite <- Heq, N.sub_diag. done.
  - destruct (N.ltb_spec (lastIncludedIndex l) i); [|lia].
    destruct (lookup_lt_is_Some_2 (entries l) (N.to_nat (i - lastIncludedIndex l - 1))) as [e He]; [lia|].
    rewrite He. cbn. unfold last_term.
    replace (N.to_nat (i - lastIncludedIndex l)) with (S (N.to_nat (i - lastIncludedIndex l - 1))) by lia.
    by rewrite (last_take _ _ e He).
Qed.

(** An entry above the boundary, and the term before it. *)
Lemma log_ok_entry C l i e :
  log_ok C l -> (lastIncludedIndex l < i)%N -> getLocked l i = Some e ->
  created_as (if (i =? 1)%N then 0%N else default 0%N (term_at l (i - 1))) e ∈ C.
Proof.
  intros (Hwf & Hu & H1 & H0 & Hc) Hi Hg.
  assert (is_Some (getLocked l i)) as Hr by eauto. apply (getLocked_range l _ Hwf) in Hr.
  rewrite getLocked_spec in Hg by done.
  destruct (N.eqb_spec i (lastIncludedIndex l)); [lia|]. cbn in Hg.
  destruct (N.ltb_spec (lastIncludedIndex l) i); [|lia].
  pose proof (chain_lookup _ _ _ _ _ Hc Hg) as Hin.
  destruct (N.eqb_spec i 1) as [->|Hne].
  - rewrite H0 in Hin by lia. by replace (N.to_nat (1 - lastIncludedIndex l - 1)) with 0 in Hin by lia.
  - rewrite prefix_term by (done || lia). cbn.
    by replace (N.to_nat (i - 1 - lastIncludedIndex l)) with (N.to_nat (i - lastIncludedIndex l - 1)) by lia.
Qed.

(** Creations are unique, so entries of one index and term have the same past. *)
Definition unique (C : list creation) : Prop :=
  forall a b, a ∈ C -> b ∈ C -> cr_Index a = cr_Index b -> cr_Term a = cr_Term b -> a = b.

Lemma chains_agree C l1 l2 :
  unique C -> log_ok C l1 -> log_ok C l2 ->
  forall k i e1 e2, getLocked l1 i = Some e1 -> getLocked l2 i = Some e2 -> le_Term e1 = le_Term e2 ->
    (lastIncludedIndex l1 < i - N.of_nat k)%N -> (lastIncludedIndex l2 < i - N.of_nat k)%N ->
    getLocked l1 (i - N.of_nat k) = getLocked l2 (i - N.of_nat k).
Proof.
  intros Hun H1 H2. induction k as [|k IH]; intros i e1 e2 Hg1 Hg2 Ht Hb1 Hb2.
  all: pose proof (log_ok_entry C l1 i e1 H1 ltac:(lia) Hg1) as Hc1.
  all: pose proof (log_ok_entry C l2 i e2 H2 ltac:(lia) Hg2) as Hc2.
  all: pose proof (getLocked_index _ _ _ (proj1 H1) Hg1) as Hi1.
  all: pose proof (getLocked_index _ _ _ (proj1 H2) Hg2) as Hi2.
  all: assert (created_as (if (i =? 1)%N then 0%N else default 0%N (term_at l1 (i - 1))) e1 =
               created_as (if (i =? 1)%N then 0%N else default 0%N (term_at l2 (i - 1))) e2) as Heq
         by (apply Hun; try done; cbn; congruence).
  - rewrite N.sub_0_r, Hg1, Hg2. destruct e1, e2. cbn in *. by simplify_eq.
  - injection Heq as _ _ Hp _. destruct (N.eqb_spec i 1); [lia|].
    assert (is_Some (getLocked l1 i)) as Hr1%(getLocked_range l1 _ (proj1 H1)) by eauto.
    assert (is_Some (getLocked l2 i)) as Hr2%(getLocked_range l2 _ (proj1 H2)) by eauto.
    destruct (getLocked l1 (i - 1)) as [f1|] eqn:E1.
    2: { apply eq_None_not_Some in E1. rewrite (getLocked_range l1 _ (proj1 H1)) in E1. lia. }
    destruct (getLocked l2 (i - 1)) as [f2|] eqn:E2.
    2: { apply eq_None_not_Some in E2. rewrite (getLocked_range l2 _ (proj1 H2)) in E2. lia. }
    unfold term_at in Hp. rewrite E1, E2 in Hp. cbn in Hp.
    replace (i - N.of_nat (S k))%N with (i - 1 - N.of_nat k)%N in * by lia. by eapply IH.
Qed.

(** ** The operations on a log *)

Lemma keep_ok C l i t :
  log_ok C l -> (lastIncludedIndex l <= i <= lastIndexLocked l)%N -> i ≠ 0%N -> i ≠ 1%N ->
  term_at l i = Some t -> log_ok C (mkLog (entriesAfter i (entries l)) i t).
Proof.
  intros (Hwf & Hu & H1 & H0 & Hc) Hi Hi0 Hi1 Ht. rewrite prefix_term in Ht by done.
  destruct (keep_wf l i t Hwf Hi) as [Hwf' _]. split_and!; try done.
  - rewrite lastIndexLocked_spec in * by done. cbn.
    rewrite (entriesAfter_spec _ _ i (proj1 Hwf)), length_drop. lia.
  - cbn. rewrite (entriesAfter_spec _ _ i (proj1 Hwf)). injection Ht as <-. by apply chain_drop.
Qed.

Lemma base_ok C i t : i ≠ 0%N -> i ≠ 1%N -> is_u64 (i + 2)%N -> log_ok C (mkLog [] i t).
Proof. intros. split_and!; try done. split; [apply contiguous_nil|]. cbn. lia. Qed.

Lemma Compact_log_ok C l sn l' :
  log_ok C l -> snap_LastIncludedIndex sn ≠ 0%N -> snap_LastIncludedIndex sn ≠ 1%N ->
  Compact l sn = Ok l' -> log_ok C l' /\ lastIndexLocked l' = lastIndexLocked l.
Proof.
  intros Hok H0 H1 E. pose proof (proj1 Hok) as Hwf.
  apply Compact_ok in E as [Hr [(-> & _)|[-> Ht]]]; [done| |done].
  split; [by apply keep_ok|]. destruct (keep_wf l _ (snap_LastIncludedTerm sn) Hwf Hr) as [Hwf' _].
  rewrite !lastIndexLocked_spec in * by done. cbn. rewrite (entriesAfter_spec _ _ _ (proj1 Hwf)), length_drop. lia.
Qed.

Lemma RestoreSnapshot_log_ok C l sn l' :
  log_ok C l -> snap_LastIncludedIndex sn ≠ 1%N -> is_u64 (snap_LastIncludedIndex sn + 2)%N ->
  RestoreSnapshot l sn = Ok l' -> log_ok C l'.
Proof.
  intros Hok H1 Hu. unfold RestoreSnapshot. rewrite term_test.
  destruct (N.ltb_spec (snap_LastIncludedIndex sn) (lastIncludedIndex l)); [done|].
  destruct (N.eqb_spec (snap_LastIncludedIndex sn) (lastIncludedIndex l)) as [|Hne].
  { destruct (negb _); [done|]. by intros [= <-]. }
  case_bool_decide as Ht; intros [= <-]; [|apply base_ok; [lia|done..]].
  apply keep_ok; try done; [|lia].
  assert (is_Some (getLocked l (snap_LastIncludedIndex sn))) as Hs.
  { apply (fmap_is_Some le_Term). rewrite Ht. eauto. }
  apply (getLocked_range l _ (proj1 Hok)) in Hs. lia.
Qed.

(** An entry created at the end. *)
Lemma snoc_ok C l e :
  log_ok C l -> is_u64 (lastIndexLocked l + 3)%N -> le_Index e = (lastIndexLocked l + 1)%N ->
  log_ok (created_as (lastTermLocked l) e :: C)
    (mkLog (entries l ++ [e]) (lastIncludedIndex l) (lastIncludedTerm l)).
Proof.
  intros (Hwf & Hu & H1 & H0 & Hc) Hu3 He.
  assert (is_u64 (lastIndexLocked l + 1)%N) as Hu1 by lia.
  destruct (Append_ok l e _ Hwf Hu1 (Append_accepts l e Hu1 He)) as (_ & _ & Hwf').
  split_and!; try done.
  - rewrite (lastIndexLocked_spec (mkLog _ _ _)) by done. cbn. rewrite length_app. cbn.
    rewrite lastIndexLocked_spec in Hu3 by done. lia.
  - cbn. apply chain_app. split; [eapply chain_mono; [|done]; set_solver|].
    cbn. split; [|done]. rewrite lastTermLocked_last. set_solver.
Qed.

(** A request: its entries follow the previous one and were created so. *)
Definition request_ok (C : list creation) (args : AppendEntriesArgs) : Prop :=
  contiguous (ae_PrevLogIndex args) (ae_Entries args) /\
  is_u64 (ae_PrevLogIndex args + N.of_nat (length (ae_Entries args)) + 2)%N /\
  (ae_PrevLogIndex args = 0%N -> ae_PrevLogTerm args = 0%N) /\
  chain C (ae_PrevLogTerm args) (ae_Entries args) /\ Forall config_free (ae_Entries args).

Lemma last_term_matches l b p pre :
  contiguous b pre -> Forall (fun e => term_at l (le_Index e) = Some (le_Term e)) pre ->
  ((0 < b)%N -> term_at l b = Some p) -> (0 < b + N.of_nat (length pre))%N ->
  term_at l (b + N.of_nat (length pre)) = Some (last_term p pre).
Proof.
  intros Hc Hf Hb Hpos. destruct (last pre) as [e|] eqn:El.
  - apply last_Some in El as [pre' ->]. rewrite last_term_snoc. apply Forall_app in Hf as [_ Hf].
    rewrite Forall_singleton in Hf. apply contiguous_app in Hc as [_ Hc].
    apply contiguous_cons in Hc as [He _]. rewrite <- Hf, length_app, He. f_equal. cbn. lia.
  - apply last_None in El as ->. cbn [length N.of_nat] in *. rewrite N.add_0_r in *. rewrite last_term_nil. auto.
Qed.

(** Reconciliation with a request anchored in the log. *)
Lemma reconciled_ok C l args :
  log_ok C l -> request_ok C args ->
  (lastIncludedIndex l <= ae_PrevLogIndex args <= lastIndexLocked l)%N ->
  ((0 < ae_PrevLogIndex args)%N -> term_at l (ae_PrevLogIndex args) = Some (ae_PrevLogTerm args)) ->
  log_ok C (reconciled l (ae_Entries args)).
Proof.
  intros Hok (Hc & Hu & Hp0 & Hch & _) Hb Hp. destruct Hok as (Hwf & Hul & H1 & H0 & Hl).
  pose proof (firstDifference_spec l _ _ Hwf Hc Hb) as Hd.
  unfold reconciled. destruct (firstDifference l (ae_Entries args)) as [[new rf]|]; [|done].
  destruct Hd as (pre & e0 & rest & Hes & Hnew & Hpre & Hcn & Hlen & Hlt & Hcase).
  rewrite Hes in Hc, Hch, Hu. rewrite length_app in Hu.
  apply contiguous_app in Hc as [Hcp _]. apply chain_app in Hch as [_ Hch].
  destruct (kept_prefix l e0 rf) as (Hwf1 & Hlast1 & He1 & Hi1 & Ht1 & _); [done|lia|naive_solver|].
  assert (entries (if (0 <? rf)%N then truncateFromLocked l rf else l) =
    take (N.to_nat (le_Index e0 - 1 - lastIncludedIndex l)) (entries l)) as Htake.
  { rewrite He1. rewrite lastIndexLocked_spec in Hcase by done.
    destruct Hcase as [[-> He0]|[[-> He0] _]]; cbn.
    - rewrite take_ge; [done|lia].
    - destruct (N.ltb_spec 0 (le_Index e0)); [|lia]. rewrite (cutFrom_spec _ _ _ (proj1 Hwf)) by lia.
      f_equal. lia. }
  rewrite <- He1, <- Hi1, <- Ht1.
  remember (if (0 <? rf)%N then truncateFromLocked l rf else l) as l1 eqn:El1. clear El1 He1.
  destruct (appendAll_spec l1 new) as [_ Hwf2]; [done|by rewrite Hlast1|rewrite Hlast1; lia|].
  split_and!; try done; [|by rewrite Hi1|by rewrite Hi1, Ht1|].
  - rewrite (lastIndexLocked_spec (mkLog _ _ _)) by done. cbn. rewrite length_app.
    rewrite lastIndexLocked_spec in Hlast1 by done. lia.
  - cbn. rewrite Ht1. apply chain_app. rewrite Htake. split; [by apply chain_take|].
    replace (last_term (lastIncludedTerm l) _) with (last_term (ae_PrevLogTerm args) pre); [done|].
    destruct (decide (le_Index e0 = 1%N)) as [He|He].
    + assert (ae_PrevLogIndex args = 0%N) as Hz by lia. assert (pre = []) as -> by (destruct pre; cbn in *; [done|lia]).
      rewrite last_term_nil, He, (Hp0 Hz). symmetry. rewrite <- H0 by lia. done.
    + apply (inj Some). rewrite <- prefix_term by (done || lia).
      rewrite <- (last_term_matches l (ae_PrevLogIndex args)) by (done || lia). f_equal. lia.
Qed.

(** A request from the start of the log is refused by a log with a boundary. *)
Lemma unanchored_request C l es :
  log_ok C l -> contiguous 0 es -> es ≠ [] -> (0 < lastIncludedIndex l)%N ->
  firstDifference l es = Some (es, 0%N) /\ exists err, appendAll l es = (l, Some err).
Proof.
  intros (Hwf & Hu & H1 & _) Hc Hne Hb. destruct es as [|e es]; [done|].
  apply contiguous_cons in Hc as [He _].
  assert (lastIncludedIndex l <= lastIndexLocked l)%N as Hle by (rewrite lastIndexLocked_spec by done; lia).
  cbn. destruct (getLocked l (le_Index e)) eqn:Hg.
  { assert (is_Some (getLocked l (le_Index e))) as Hr%(getLocked_range l _ Hwf) by eauto. lia. }
  split; [done|]. unfold Append. rewrite u64_add_small by lia.
  destruct (N.eqb_spec (le_Index e) (lastIndexLocked l + 1)); [lia|]. eauto.
Qed.

(** ** The operations of a node *)

Section Ops.
Context {S : Type} `{StorageLaws S}.
Implicit Types n : RaftNode S.

Notation disk n := (ms_entries (view (storage n))).

(** The storage holds the entries of the log. *)
Definition faithful n : Prop := disk n = entries (log n).

Definition snapshot_ok n : Prop :=
  forall sn, ms_snapshot (view (storage n)) = Some sn ->
    snap_LastIncludedIndex sn ≠ 1%N /\ is_u64 (snap_LastIncludedIndex sn + 2)%N.

(** Stored entries from which a restart makes a good log. *)
Definition disk_ok (C : list creation) (es : list LogEntry) : Prop :=
  exists b p, contiguous b es /\ is_u64 (b + N.of_nat (length es) + 2)%N /\ chain C p es /\
    (b = 0%N -> p = 0%N).

(** Index [j] is taken: in the log, or by an entry that was stored in front of a
    failed [Sync]. *)
Definition taken n (j : LogIndex) : Prop :=
  (j <= lastIndexLocked (log n))%N \/
  (j = lastIndexLocked (log n) + 1)%N /\ exists e, last (disk n) = Some e /\ le_Index e = j.

(** The creation of an entry: a leader has stored its proposal. *)
Definition created_by (op : node_op) n : list creation :=
  match op with
  | OpPropose data =>
      let entry := mkLogEntry (u64_add (lastIndexLocked (log n)) 1) (currentTerm n) data in
      if bool_decide (role n = Leader)
      then match st_AppendEntries (storage n) [entry] with
           | (_, None) => [created_as (lastTermLocked (log n)) entry]
           | _ => []
           end
      else []
  | _ => []
  end.

(** What an operation leaves behind, [C] being the creations up to its end. *)
Definition effect (C : list creation) n n' : Prop :=
  log_ok C (log n') /\ snapshot_ok n' /\ (faithful n -> disk_ok C (disk n')) /\
  (role n' = Leader -> forall j, taken n j -> taken n' j).

(** The log, the stored entries and the snapshot stay. *)
Definition quiet n n' : Prop :=
  log n' = log n /\ disk n' = disk n /\ ms_snapshot (view (storage n')) = ms_snapshot (view (storage n)).

#[local] Instance quiet_preorder : PreOrder quiet.
Proof. split; [done|]. intros n1 n2 n3 (? & ? & ?) (? & ? & ?). split_and!; congruence. Qed.

Lemma log_ok_disk C l : log_ok C l -> disk_ok C (entries l).
Proof.
  intros (Hwf & Hu & _ & Hb0 & Hc). exists (lastIncludedIndex l), (lastIncludedTerm l).
  rewrite lastIndexLocked_spec in Hu by done. split_and!; try done. apply Hwf.
Qed.

Lemma disk_ok_after C es i : disk_ok C es -> disk_ok C (entriesAfter i es).
Proof.
  intros (b & p & Hc & Hu & Hch & Hb0). rewrite (entriesAfter_spec _ _ i Hc).
  set (k := N.to_nat (i - b)). destruct (decide (length es <= k)) as [Hk|Hk].
  - exists 0%N, 0%N. rewrite drop_ge by done. split_and!; try done; apply contiguous_nil.
  - exists (b + N.of_nat k)%N, (last_term p (take k es)). split_and!.
    + by apply contiguous_drop.
    + rewrite length_drop. lia.
    + by apply chain_drop.
    + intros Hz. assert (k = 0 /\ b = 0%N) as [-> Hb] by lia. by apply Hb0.
Qed.

Lemma taken_quiet n n' j : quiet n n' -> taken n j <-> taken n' j.
Proof. intros (Hl & Hd & _). unfold taken. by rewrite Hl, Hd. Qed.

Lemma quiet_effect C n n' : quiet n n' -> log_ok C (log n) -> snapshot_ok n -> effect C n n'.
Proof.
  intros Hq Hok Hs. split_and!.
  - by rewrite (proj1 Hq).
  - unfold snapshot_ok. by rewrite (proj2 (proj2 Hq)).
  - intros Hf. rewrite (proj1 (proj2 Hq)), Hf. by apply log_ok_disk.
  - intros _ j. apply (taken_quiet n n' j Hq).
Qed.

Lemma effect_quiet_l C n n1 n2 : quiet n n1 -> effect C n1 n2 -> effect C n n2.
Proof.
  intros Hq (Hl & Hs & Hd & Ht). split_and!; try done.
  - intros Hf. apply Hd. unfold faithful. destruct Hq as (-> & -> & _). exact Hf.
  - intros Hr j Hj. apply Ht; [done|]. by apply (taken_quiet n n1 j Hq).
Qed.

Lemma effect_quiet_r C n n1 n2 :
  effect C n n1 -> quiet n1 n2 -> (role n2 = Leader -> role n1 = Leader) -> effect C n n2.
Proof.
  intros (Hl & Hs & Hd & Ht) Hq Hr. split_and!.
  - by rewrite (proj1 Hq).
  - unfold snapshot_ok. by rewrite (proj2 (proj2 Hq)).
  - rewrite (proj1 (proj2 Hq)). exact Hd.
  - intros Hr2 j Hj. apply (taken_quiet n1 n2 j Hq), Ht; auto.
Qed.

Lemma apply_frame_quiet n n' : apply_frame n n' -> quiet n n'.
Proof. by intros (? & _ & _ & ? & ? & _). Qed.

Lemma applyCommitted_quiet n : quiet n (applyCommitted n).
Proof. apply apply_frame_quiet, applyCommitted_frame. Qed.

Lemma adoptTerm_quiet t n : quiet n (fst (adoptTerm t n)).
Proof. destruct (adoptTerm t n) as [n' b] eqn:E. by apply adoptTerm_cases in E as (? & _ & _ & ? & ? & _). Qed.

Lemma advance_quiet n : quiet n (advanceCommitIndex n).
Proof.
  unfold advanceCommitIndex. destruct (advanceCommitIndexLocked n) as [n' b] eqn:E.
  apply advanceCommitIndexLocked_set in E as [c ->].
  destruct b; [|done]. etrans; [|apply applyCommitted_quiet]. done.
Qed.

Lemma save_quiet n p s o : saveAndSync (storage n) p = (s, o) -> quiet n (set_storage s n).
Proof.
  intros E. destruct o; [apply saveAndSync_err in E as [E|E]|apply saveAndSync_ok in E];
    unfold quiet; cbn; by rewrite E.
Qed.

(** Storing the new entries of a request. *)
Lemma store_new s rf new s1 :
  new ≠ [] ->
  (if (0 <? rf)%N then st_ReplaceSuffix s rf new else st_AppendEntries s new) = (s1, None) ->
  ms_entries (view s1) =
    (if (0 <? rf)%N then cutFrom rf (ms_entries (view s)) else ms_entries (view s)) ++ new /\
  ms_snapshot (view s1) = ms_snapshot (view s) /\
  (rf = 0%N -> validateAppend (ms_entries (view s)) new = None).
Proof.
  intros Hne E. destruct (N.ltb_spec 0 rf).
  - pose proof (ReplaceSuffix_law s rf new) as L. rewrite E in L. cbn in L. unfold mem_ReplaceSuffix in L.
    destruct (validateReplaceSuffix _ _ _); [done|]. injection L as L. rewrite <- L. cbn.
    rewrite keepBefore_cutFrom. split_and!; try done. lia.
  - pose proof (AppendEntries_law s new) as L. rewrite E in L. cbn in L. unfold mem_AppendEntries in L.
    destruct new; [done|]. destruct (validateEntries _); [done|].
    destruct (validateAppend _ _); [done|]. injection L as L. by rewrite <- L.
Qed.

Lemma store_new_err s (rf : LogIndex) new s1 e :
  (if (0 <? rf)%N then st_ReplaceSuffix s rf new else st_AppendEntries s new) = (s1, Some e) ->
  view s1 = view s.
Proof.
  intros E. destruct (_ <? _)%N.
  - pose proof (ReplaceSuffix_law s rf new) as L. by rewrite E in L.
  - pose proof (AppendEntries_law s new) as L. by rewrite E in L.
Qed.

Definition anchored (args : AppendEntriesArgs) n : Prop :=
  (0 < ae_PrevLogIndex args)%N -> term_at (log n) (ae_PrevLogIndex args) = Some (ae_PrevLogTerm args).

(** The disk after the new entries of an unanchored request: they are taken only by
    an empty one. *)
Lemma unanchored_disk C l args es :
  log_ok C l -> request_ok C args -> ae_PrevLogIndex args = 0%N -> ae_Entries args ≠ [] ->
  (0 < lastIncludedIndex l)%N -> es = entries l -> validateAppend es (ae_Entries args) = None ->
  disk_ok C (es ++ ae_Entries args).
Proof.
  intros (Hwf & Hu & _) (Hc & Hua & Hp0 & Hch & _) Hp Hne Hb -> Hv. rewrite Hp in *.
  destruct (ae_Entries args) as [|a rest]; [done|]. unfold validateAppend in Hv.
  destruct (last (entries l)) as [e|] eqn:El.
  - assert (le_Index e = lastIndexLocked l) as He by (unfold lastIndexLocked; by rewrite El).
    apply contiguous_cons in Hc as [Ha _]. rewrite u64_add_small in Hv by lia.
    assert (lastIncludedIndex l <= lastIndexLocked l)%N by (rewrite lastIndexLocked_spec by done; lia).
    destruct (N.eqb_spec (le_Index a) (le_Index e + 1)); [lia|done].
  - apply last_None in El as ->. exists 0%N, 0%N. rewrite Hp0 in Hch by done. by split_and!.
Qed.

Lemma reconcile_effect C args n n' o :
  log_ok C (log n) -> request_ok C args -> anchored args n ->
  reconcileReplicatedEntriesLocked (ae_Entries args) n = (n', o) ->
  log_ok C (log n') /\ ms_snapshot (view (storage n')) = ms_snapshot (view (storage n)) /\
  (faithful n -> disk_ok C (disk n')) /\ role n' = role n.
Proof.
  intros Hok Hreq Ha. pose proof (proj1 Hok) as Hwf. unfold reconcileReplicatedEntriesLocked.
  destruct (firstDifference (log n) (ae_Entries args)) as [[new rf]|] eqn:Hf.
  2: { intros [= <- <-]. split_and!; try done. intros ->. by apply log_ok_disk. }
  pose proof (firstDifference_new _ _ _ _ Hf) as Hne.
  assert (lastIncludedIndex (log n) <= ae_PrevLogIndex args \/
          ae_PrevLogIndex args = 0 /\ 0 < lastIncludedIndex (log n))%N as Hcase.
  { destruct (decide (0 < ae_PrevLogIndex args)%N) as [Hpos|]; [|lia]. left.
    assert (is_Some (term_at (log n) (ae_PrevLogIndex args))) as Hs by (rewrite Ha by done; eauto).
    unfold term_at in Hs. rewrite fmap_is_Some, (getLocked_range _ _ Hwf) in Hs. lia. }
  destruct (if (0 <? rf)%N then st_ReplaceSuffix _ _ _ else _) as [s1 [e|]] eqn:Hst.
  { intros [= <- <-]. unfold faithful. cbn. rewrite (store_new_err _ _ _ _ _ Hst).
    split_and!; try done. intros ->. by apply log_ok_disk. }
  apply store_new in Hst as (Hdisk & Hsnap & Hval); [|done].
  assert (faithful n -> disk_ok C (ms_entries (view s1))) as Hfd.
  { intros Hfa. rewrite Hdisk, Hfa. destruct Hcase as [Hb|[Hp Hb]].
    - pose proof (reconciled_ok C (log n) args Hok Hreq (conj Hb (prev_in_log n args Hwf Ha)) Ha) as Hr.
      unfold reconciled in Hr. rewrite Hf in Hr. apply log_ok_disk in Hr. exact Hr.
    - destruct (unanchored_request C (log n) (ae_Entries args)) as [Hf' _]; try done.
      { rewrite <- Hp. apply Hreq. } { intros Hz. by rewrite Hz in Hf. }
      rewrite Hf in Hf'. simplify_eq. cbn. rewrite Hfa in Hval. by eapply unanchored_disk; eauto. }
  destruct (st_Sync s1) as [s2 o2] eqn:Hy. apply sync_view in Hy.
  destruct o2 as [e|]; [intros [= <- <-]; cbn; rewrite Hy; by split_and!|]. cbn [log set_storage].
  destruct Hcase as [Hb|[Hp Hb]].
  - pose proof (reconciled_ok C (log n) args Hok Hreq (conj Hb (prev_in_log n args Hwf Ha)) Ha) as Hr.
    destruct Hreq as (Hc & Hu & _).
    pose proof (firstDifference_spec _ _ _ Hwf Hc (conj Hb (prev_in_log n args Hwf Ha))) as Hd.
    rewrite Hf in Hd. destruct Hd as (pre & e0 & rest & Hes & Hnew & _ & Hcn & Hlen & Hlt & Hcs).
    destruct (kept_prefix (log n) e0 rf) as (Hwf1 & Hlast1 & He1 & Hi1 & Ht1 & _); [done|lia|naive_solver|].
    rewrite Hes, length_app in Hu.
    destruct (appendAll_spec (if (0 <? rf)%N then truncateFromLocked (log n) rf else log n) new)
      as [-> _]; [done|by rewrite Hlast1|rewrite Hlast1; lia|].
    intros [= <- <-]. cbn. rewrite Hy, He1, Hi1, Ht1. unfold reconciled in Hr. rewrite Hf in Hr. by split_and!.
  - destruct (unanchored_request C (log n) (ae_Entries args)) as [Hf' [err Herr]]; try done.
    { rewrite <- Hp. apply Hreq. } { intros Hz. by rewrite Hz in Hf. }
    rewrite Hf in Hf'. simplify_eq. cbn. rewrite Herr. intros [= <- <-]. cbn. rewrite Hy. by split_and!.
Qed.

Lemma appendInTerm_effect C args n :
  log_ok C (log n) -> snapshot_ok n -> request_ok C args \/ ae_Entries args = [] ->
  effect C n (fst (appendInTerm args n)).
Proof.
  intros Hok Hs Hreq. unfold appendInTerm.
  destruct (if (0 <? ae_PrevLogIndex args)%N then _ else false) eqn:Hprev.
  { by apply quiet_effect. }
  pose proof (prev_check _ _ Hprev) as Ha. clear Hprev. cbn zeta.
  set (n1 := set_electionElapsed _ _).
  assert (forall n2 o, reconcileReplicatedEntriesLocked (ae_Entries args) n1 = (n2, o) ->
    effect C n n2 /\ role n2 = Follower) as Hrec.
  { intros n2 o E. destruct Hreq as [Hreq|Hnil].
    - destruct (reconcile_effect C args n1 n2 o Hok Hreq Ha E) as (Hl & Hsn & Hd & Hr).
      split; [|by rewrite Hr]. split_and!; try done.
      + unfold snapshot_ok. by rewrite Hsn.
      + rewrite Hr. done.
    - rewrite Hnil in E. injection E as <- <-. split; [|done]. by apply quiet_effect. }
  destruct (reconcileReplicatedEntriesLocked _ n1) as [n2 [e|]]; cbn [fst].
  { by eapply Hrec. }
  destruct (Hrec n2 None eq_refl) as [He Hr]. clear Hrec.
  destruct (_ <? ae_LeaderCommit args)%N; [|done].
  set (n3 := if (ae_LeaderCommit args <? _)%N then _ else _).
  assert (quiet n2 n3 /\ role n3 = Follower) as [Hq Hr3].
  { unfold n3. by destruct (ae_LeaderCommit args <? _)%N. }
  clearbody n3. destruct (_ <? commitIndex n3)%N; cbn [fst].
  - apply (effect_quiet_r C n n2); [done| |].
    + etrans; [exact Hq|apply applyCommitted_quiet].
    + destruct (applyCommitted_frame n3) as (_ & _ & _ & _ & _ & Hf).
      destruct Hf as [-> _]; rewrite Hr3; done.
  - apply (effect_quiet_r C n n2); [done..|]. by rewrite Hr3.
Qed.

Lemma AppendEntries_log_effect C args n :
  log_ok C (log n) -> snapshot_ok n -> request_ok C args \/ ae_Entries args = [] ->
  effect C n (fst (AppendEntries args n)).
Proof.
  intros Hok Hs Hreq. unfold AppendEntries. destruct (_ <? _)%N; [by apply quiet_effect|].
  destruct (_ <? _)%N; [|by apply appendInTerm_effect].
  pose proof (adoptTerm_quiet (ae_Term args) n) as Hq.
  destruct (adoptTerm _ n) as [n1 []]; cbn [fst] in *; [|by apply quiet_effect].
  apply (effect_quiet_l _ _ _ _ Hq). apply appendInTerm_effect; try done.
  - by rewrite (proj1 Hq).
  - unfold snapshot_ok. by rewrite (proj2 (proj2 Hq)).
Qed.

(** *** Snapshots *)

Lemma last_entriesAfter i es e :
  last es = Some e -> (i < le_Index e)%N -> last (entriesAfter i es) = Some e.
Proof.
  intros [es' ->]%last_Some Hi. clear -Hi. induction es' as [|x es' IH]; cbn.
  - destruct (N.ltb_spec i (le_Index e)); [done|lia].
  - destruct (_ <? _)%N; [|done]. rewrite last_cons, IH. done.
Qed.

Definition boundary_ok (sn : Snapshot) : Prop :=
  snap_LastIncludedIndex sn ≠ 1%N /\ is_u64 (snap_LastIncludedIndex sn + 2)%N.

(** Saving a snapshot and compacting, whichever call fails: the disk keeps its entries or
    those after the snapshot, and remembers a good snapshot. *)
Definition snapshotted (sn : Snapshot) (s s' : S) : Prop :=
  (ms_entries (view s') = ms_entries (view s) \/
   ms_entries (view s') = entriesAfter (snap_LastIncludedIndex sn) (ms_entries (view s))) /\
  (ms_snapshot (view s') = ms_snapshot (view s) \/ ms_snapshot (view s') = Some sn).

Lemma save_snapshotted sn s s' o : st_SaveSnapshot s sn = (s', o) -> snapshotted sn s s'.
Proof.
  intros E. destruct o.
  - pose proof (SaveSnapshot_law s sn) as L. rewrite E in L. cbn in L. unfold snapshotted. rewrite L. auto.
  - apply save_snapshot_view in E. unfold snapshotted. rewrite E. cbn. auto.
Qed.

Lemma compact_snapshotted sn s s1 s2 o :
  snapshotted sn s s1 -> ms_entries (view s1) = ms_entries (view s) -> st_Compact s1 sn = (s2, o) ->
  snapshotted sn s s2.
Proof.
  intros [_ Hs] He E. destruct o.
  - pose proof (Compact_law s1 sn) as L. rewrite E in L. cbn in L. unfold snapshotted. rewrite L. auto.
  - apply compact_view in E as (o & Ho & E). unfold snapshotted. rewrite E. cbn. rewrite He.
    split; [by right|]. destruct Ho as [->| ->]; auto.
Qed.

Lemma snapshotted_effect C sn n n' :
  boundary_ok sn -> snapshot_ok n -> log_ok C (log n) -> snapshotted sn (storage n) (storage n') ->
  log_ok C (log n') ->
  (role n' = Leader -> (snap_LastIncludedIndex sn <= lastIndexLocked (log n))%N /\
     lastIndexLocked (log n') = lastIndexLocked (log n)) ->
  effect C n n'.
Proof.
  intros Hsn Hs Hok [Hd Hm] Hok' Hl. split_and!; [done| | |].
  - intros sn'. destruct Hm as [->| ->]; [apply Hs|]. intros [= <-]. exact Hsn.
  - intros Hf. apply log_ok_disk in Hok. rewrite <- Hf in Hok.
    destruct Hd as [->| ->]; [done|by apply disk_ok_after].
  - intros Hr j Hj. destruct (Hl Hr) as [Hle Hlast]. unfold taken. rewrite Hlast.
    destruct Hj as [Hj|(Hj & e & He & <-)]; [by left|right].
    split; [done|]. exists e. split; [|done]. destruct Hd as [->| ->]; [done|].
    apply last_entriesAfter; [done|lia].
Qed.

Lemma CreateSnapshot_effect C index data n :
  log_ok C (log n) -> snapshot_ok n -> index ≠ 1%N -> effect C n (fst (CreateSnapshot index data n)).
Proof.
  intros Hok Hs Hi. unfold CreateSnapshot, validateSnapshotRequestLocked.
  destruct (_ <? _)%N; [by apply quiet_effect|]. destruct (_ <? _)%N; [by apply quiet_effect|].
  destruct (N.eqb_spec index 0); [by apply quiet_effect|].
  destruct (getLocked (log n) index) as [entry|] eqn:Hg; [|by apply quiet_effect].
  assert (is_Some (getLocked (log n) index)) as Hr by eauto.
  apply (getLocked_range _ _ (proj1 Hok)) in Hr.
  set (sn := mkSnapshot index (le_Term entry) data).
  assert (boundary_ok sn) as Hb.
  { split; [done|]. destruct Hok as (_ & Hu & _). cbn. lia. }
  unfold persistAndCompactSnapshotLocked.
  destruct (st_SaveSnapshot _ _) as [s1 o1] eqn:E1.
  assert (ms_entries (view s1) = disk n) as Hd1.
  { destruct o1; [|by apply save_snapshot_view in E1 as ->].
    pose proof (SaveSnapshot_law (storage n) sn) as L. rewrite E1 in L. cbn in L. by rewrite L. }
  apply save_snapshotted in E1.
  destruct o1 as [e|]; [apply (snapshotted_effect C sn); try done; cbn; lia|].
  destruct (st_Sync s1) as [s2 o2] eqn:E2. apply sync_view in E2.
  assert (snapshotted sn (storage n) s2) as P2 by (unfold snapshotted; by rewrite E2).
  destruct o2 as [e|]; [apply (snapshotted_effect C sn); try done; cbn; lia|].
  destruct (st_Compact _ _) as [s3 o3] eqn:E3.
  apply (compact_snapshotted _ _ _ _ _ P2) in E3; [|by rewrite E2].
  destruct o3 as [e|]; [apply (snapshotted_effect C sn); try done; cbn; lia|].
  destruct (Compact (log n) sn) as [l|] eqn:El; [|apply (snapshotted_effect C sn); try done; cbn; lia].
  apply (Compact_log_ok C) in El as [Hl Hlast]; [|done..].
  apply (snapshotted_effect C sn); try done; cbn; lia.
Qed.

Lemma finishInstall_log C sn n n' ok s0 :
  log_ok C (log n) -> boundary_ok sn -> snapshotted sn s0 (storage n) ->
  ms_entries (view (storage n)) = ms_entries (view s0) -> finishInstall sn n = (n', ok) ->
  log_ok C (log n') /\ snapshotted sn s0 (storage n') /\ role n' = role n.
Proof.
  intros Hok [Hb1 Hb2] Hs He. unfold finishInstall. destruct (st_Compact _ _) as [s1 o] eqn:E.
  apply (compact_snapshotted _ _ _ _ _ Hs He) in E.
  destruct o as [e|]; [by intros [= <- <-]|]. cbn [log set_storage].
  destruct (RestoreSnapshot (log n) sn) as [l|] eqn:El; [|by intros [= <- <-]].
  apply (RestoreSnapshot_log_ok C) in El; [|done..]. intros [= <- <-]. by repeat case_match.
Qed.

Lemma installInTerm_effect C args n :
  log_ok C (log n) -> snapshot_ok n ->
  is_LastIncludedIndex args ≠ 1%N -> is_u64 (is_LastIncludedIndex args + 2)%N ->
  effect C n (fst (installInTerm args n)).
Proof.
  intros Hok Hs Hi1 Hi2. unfold installInTerm. cbn zeta. set (n1 := set_electionElapsed _ _).
  destruct (_ <=? _)%N; [by apply quiet_effect|].
  destruct (snapshotRestore n1) as [restore|]; [|by apply quiet_effect].
  set (sn := mkSnapshot _ _ _). assert (boundary_ok sn) as Hb by done.
  assert (forall n', log_ok C (log n') -> snapshotted sn (storage n) (storage n') -> role n' = Follower ->
    effect C n n') as Heff.
  { intros n' Hl Hd Hr. apply (snapshotted_effect C sn); try done. by rewrite Hr. }
  unfold persistSnapshotLocked. destruct (st_SaveSnapshot _ _) as [s1 o1] eqn:E1.
  assert (ms_entries (view s1) = disk n) as Hd1.
  { destruct o1; [|by apply save_snapshot_view in E1 as ->].
    pose proof (SaveSnapshot_law (storage n) sn) as L. change (storage n1) with (storage n) in E1.
    rewrite E1 in L. cbn in L. by rewrite L. }
  apply save_snapshotted in E1. destruct o1 as [e|]; [by apply Heff|].
  destruct (st_Sync s1) as [s2 o2] eqn:E2. apply sync_view in E2.
  assert (snapshotted sn (storage n) s2) as P2 by (unfold snapshotted; by rewrite E2).
  destruct o2 as [e|]; [by apply Heff|]. destruct (restore sn); [by apply Heff|].
  destruct (finishInstall sn (set_storage s2 n1)) as [n3 ok] eqn:E3.
  apply (finishInstall_log C sn _ _ _ (storage n)) in E3 as (Hl & Hd & Hr); try done; [|cbn; by rewrite E2].
  by apply Heff.
Qed.

Lemma InstallSnapshot_effect C args n :
  log_ok C (log n) -> snapshot_ok n ->
  is_LastIncludedIndex args ≠ 1%N -> is_u64 (is_LastIncludedIndex args + 2)%N ->
  effect C n (fst (InstallSnapshot args n)).
Proof.
  intros Hok Hs Hi1 Hi2. unfold InstallSnapshot. destruct (_ <? _)%N; [by apply quiet_effect|].
  destruct (_ <? _)%N; [|by apply installInTerm_effect].
  destruct (saveAndSync _ _) as [s [e|]] eqn:E; apply save_quiet in E; [by apply quiet_effect|].
  set (n1 := set_persistent _ _). assert (quiet n n1) as Hq by exact E.
  apply (effect_quiet_l _ _ _ _ Hq). apply installInTerm_effect; try done.
  unfold snapshot_ok. by rewrite (proj2 (proj2 Hq)).
Qed.

(** *** Proposals *)

(** An entry is stored at the end of the log only when nothing is stored above it. *)
Lemma taken_free n entry j :
  le_Index entry = (lastIndexLocked (log n) + 1)%N -> (is_u64 (lastIndexLocked (log n) + 3))%N ->
  validateAppend (disk n) [entry] = None -> taken n j -> (j <= lastIndexLocked (log n))%N.
Proof.
  intros He Hu Hval [Hle|(-> & x & Hx & Hix)]; [done|]. unfold validateAppend in Hval.
  rewrite Hx, He, Hix, u64_add_small in Hval by lia.
  by destruct (N.eqb_spec (lastIndexLocked (log n) + 1) (lastIndexLocked (log n) + 1 + 1)); [lia|].
Qed.

(** The stored proposal is new, and its index is taken afterwards. *)
Lemma created_by_spec op n a :
  (is_u64 (lastIndexLocked (log n) + 3))%N -> a ∈ created_by op n ->
  role n = Leader /\ cr_Term a = currentTerm n /\ ~ taken n (cr_Index a) /\ taken (run_op op n) (cr_Index a) /\
  created_by op n = [a].
Proof.
  intros Hu. destruct op as [| | | |data| | | | | | | | | |]; cbn [created_by]; try set_solver.
  case_bool_decide as Hr; [|set_solver]. rewrite u64_add_small by lia.
  set (entry := mkLogEntry _ _ _).
  destruct (st_AppendEntries _ _) as [s1 [e|]] eqn:E; [set_solver|].
  intros ->%list_elem_of_singleton. cbn [cr_Term cr_Index created_as le_Term le_Index entry].
  assert (exists s2 : S, view s2 = view s1 /\ storage (run_op (OpPropose data) n) = s2 /\
    (log (run_op (OpPropose data) n) = log n \/ log (run_op (OpPropose data) n) =
       mkLog (entries (log n) ++ [entry]) (lastIncludedIndex (log n)) (lastIncludedTerm (log n))))
    as (s2 & Hv & Hst & Hlog).
  { cbn [run_op]. unfold proposeLocked. rewrite bool_decide_false by congruence.
    rewrite u64_add_small by lia. fold entry. rewrite E.
    destruct (st_Sync s1) as [s2 o2] eqn:E2. apply sync_view in E2. exists s2. split; [done|].
    destruct o2 as [e|]; [destruct (errors_Is _ _); auto|].
    cbn [log set_storage]. rewrite Append_accepts by (done || lia).
    destruct (advanceCommitIndexLocked _) as [n' b] eqn:Ea.
    apply advanceCommitIndexLocked_set in Ea as [c ->]. auto. }
  destruct (store_new (storage n) 0 [entry] s1 ltac:(done) E) as (Hd & _ & Hval).
  split_and!; try done.
  - intros Ht%(taken_free n entry); [lia|done..|by apply Hval].
  - destruct Hlog as [Hl|Hl].
    + right. rewrite Hl. split; [done|]. exists entry. rewrite Hst, Hv, Hd. cbn. by rewrite last_snoc.
    + left. rewrite Hl. unfold lastIndexLocked at 2. cbn. by rewrite last_snoc.
Qed.

Lemma propose_effect C data n :
  log_ok C (log n) -> snapshot_ok n -> (is_u64 (lastIndexLocked (log n) + 3))%N ->
  effect (created_by (OpPropose data) n ++ C) n (fst (proposeLocked data n)).
Proof.
  intros Hok Hs Hu. unfold proposeLocked. cbn [created_by].
  destruct (decide (role n = Leader)) as [Hr|Hr].
  2: { rewrite bool_decide_false, bool_decide_true by done. by apply quiet_effect. }
  rewrite bool_decide_true, bool_decide_false by (done || congruence). rewrite u64_add_small by lia.
  set (entry := mkLogEntry _ _ _).
  destruct (st_AppendEntries _ _) as [s1 [e|]] eqn:E.
  { apply append_err_view in E. apply quiet_effect; try done. split_and!; cbn; by rewrite ?E. }
  destruct (store_new (storage n) 0 [entry] s1 ltac:(done) E) as (Hd & Hsn & Hval). cbn in Hd.
  assert (forall j, taken n j -> (j <= lastIndexLocked (log n))%N) as Htk
    by (intros j; by apply (taken_free n entry); [..|apply Hval]).
  destruct (st_Sync s1) as [s2 o2] eqn:E2. apply sync_view in E2.
  pose proof (snoc_ok C (log n) entry Hok Hu eq_refl) as Hsnoc.
  pose proof (log_ok_disk _ _ Hsnoc) as Hdisk. cbn [entries] in Hdisk.
  assert (forall n', storage n' = s2 -> log n' = log n \/
      log n' = mkLog (entries (log n) ++ [entry]) (lastIncludedIndex (log n)) (lastIncludedTerm (log n)) ->
    effect (created_as (lastTermLocked (log n)) entry :: C) n n') as Heff.
  { intros n' Hst Hl. split_and!.
    - destruct Hl as [->| ->]; [eapply log_ok_mono; [|done]; set_solver|done].
    - unfold snapshot_ok. by rewrite Hst, E2, Hsn.
    - intros Hf. rewrite Hst, E2, Hd, Hf. exact Hdisk.
    - intros _ j Hj%Htk. left. destruct Hl as [->| ->]; [done|].
      rewrite (lastIndexLocked_spec (mkLog _ _ _)) by apply Hsnoc.
      rewrite lastIndexLocked_spec in Hj by apply Hok. cbn. rewrite length_app. lia. }
  destruct o2 as [e|]; cbn [fst].
  { destruct (errors_Is _ _); apply Heff; by try left. }
  cbn [log set_storage]. rewrite Append_accepts by (done || lia).
  destruct (advanceCommitIndexLocked _) as [n' b] eqn:Ea.
  apply advanceCommitIndexLocked_set in Ea as [c ->]. cbn [fst]. apply Heff; [done|by right].
Qed.

(** *** All operations *)

(** The operations of a cluster in which requests come from leaders, indexes do not
    overflow and no snapshot is taken at the index 1. *)
Definition op_ok (C : list creation) (op : node_op) n : Prop :=
  match op with
  | OpAppendEntries args => request_ok C args \/ ae_Entries args = []
  | OpInstallSnapshot args => is_LastIncludedIndex args ≠ 1%N /\ is_u64 (is_LastIncludedIndex args + 2)%N
  | OpCreateSnapshot index _ => index ≠ 1%N
  | OpPropose data => IsConfigurationEntry data = false /\ is_u64 (lastIndexLocked (log n) + 3)%N
  | OpReadHeartbeat args => ae_Entries args = []
  | OpReadReply _ term _ _ _ reply => timely term reply n
  | _ => True
  end.

Lemma handleAppendEntriesReply_quiet peerID args reply n :
  quiet n (handleAppendEntriesReply peerID args reply n).
Proof.
  unfold handleAppendEntriesReply. destruct (_ <? _)%N; [apply adoptTerm_quiet|].
  case_bool_decide; [done|]. destruct (negb _); [done|]. destruct (negb _); [by destruct (_ <? _)%N|].
  destruct (last _) as [e|]; [|done]. etrans; [|apply advance_quiet]. by destruct (_ <? _)%N.
Qed.

Lemma handleInstallSnapshotReply_quiet peerID args reply n :
  quiet n (handleInstallSnapshotReply peerID args reply n).
Proof.
  unfold handleInstallSnapshotReply. destruct (_ <? _)%N; [apply adoptTerm_quiet|].
  case_bool_decide; [done|]. do 2 (destruct (negb _); [done|]).
  etrans; [|apply advance_quiet]. by repeat case_match.
Qed.

Lemma readIndexHandle_quiet m term commit acks peerID r n :
  quiet n (fst (readIndexHandle m term commit acks peerID r n)).
Proof.
  unfold readIndexHandle. destruct r as [reply|e]; [|done]. destruct (_ <? _)%N; [|by repeat case_match].
  pose proof (adoptTerm_quiet (aer_Term reply) n) as Hq. unfold becomeFollowerLocked.
  unfold adoptTerm, saveAndSync in Hq. destruct (st_SaveState _ _) as [s [e|]]; [done|].
  by destruct (st_Sync s) as [s' [e|]].
Qed.

Lemma run_op_effect C op n :
  log_ok C (log n) -> snapshot_ok n -> op_ok C op n ->
  effect (created_by op n ++ C) n (run_op op n).
Proof.
  intros Hok Hs Hop. destruct op; cbn [run_op created_by app].
  - by apply AppendEntries_log_effect.
  - apply quiet_effect; [apply handleAppendEntriesReply_quiet|done..].
  - by apply InstallSnapshot_effect; [..|apply Hop|apply Hop].
  - apply quiet_effect; [apply handleInstallSnapshotReply_quiet|done..].
  - apply propose_effect; [done..|apply Hop].
  - apply quiet_effect; [apply applyCommitted_quiet|done..].
  - apply quiet_effect; [apply advance_quiet|done..].
  - by apply CreateSnapshot_effect.
  - apply quiet_effect; [|done..]. unfold tick. by repeat case_match.
  - apply quiet_effect; [|done..]. unfold heartbeatDue. by repeat case_match.
  - by apply quiet_effect.
  - by apply quiet_effect.
  - apply quiet_effect; [|done..]. unfold RegisterPeer. by repeat case_match.
  - apply AppendEntries_log_effect; try done. by right.
  - apply quiet_effect; [apply readIndexHandle_quiet|done..].
Qed.

(** *** Votes and restarts *)

Lemma startElection_quiet n : quiet n (fst (startElection n)).
Proof.
  unfold startElection. destruct (negb _); [done|]. destruct (storageWriteBlocked n); [done|].
  destruct (saveAndSync _ _) as [s [e|]] eqn:E; apply save_quiet in E; exact E.
Qed.

Lemma RequestVote_quiet args n : quiet n (fst (RequestVote args n)).
Proof.
  assert (forall n, quiet n (fst (voteInCurrentTerm args n))) as Hv.
  { clear n. intros n. unfold voteInCurrentTerm. destruct (negb _); [done|]. destruct (_ && _); [done|].
    destruct (negb _); [done|]. destruct (saveAndSync _ _) as [s [e|]] eqn:E; apply save_quiet in E; exact E. }
  unfold RequestVote. destruct (_ <? _)%N; [done|]. destruct (_ <? _)%N; [|apply Hv].
  pose proof (adoptTerm_quiet (rv_Term args) n) as Hq. destruct (adoptTerm _ n) as [n1 []]; [|exact Hq].
  etrans; [exact Hq|apply Hv].
Qed.

Lemma handleVoteReply_quiet t reply n : quiet n (handleVoteReply t reply n).
Proof.
  unfold handleVoteReply. destruct (_ <? _)%N.
  - pose proof (adoptTerm_quiet (rvr_Term reply) n) as Hq. by destruct (adoptTerm _ n) as [n1 []].
  - by repeat case_match.
Qed.

Lemma tryBecomeLeader_quiet n : quiet n (fst (tryBecomeLeader n)).
Proof.
  unfold tryBecomeLeader. case_bool_decide; [done|]. destruct (negb _); [done|]. cbn [fst].
  by destruct (becomeLeaderLocked_frame n) as [ls ->].
Qed.

Lemma restoreEntries_ok C es l :
  disk_ok C es -> restoreEntries NewLog es = Ok l -> log_ok C l.
Proof.
  intros (b & p & Hc & Hu & Hch & Hb0) E. destruct es as [|e es].
  { injection E as <-. by split_and!. }
  assert (b = 0%N) as ->.
  { cbn in E. apply bind_Ok in E as (l1 & Ha%wrap_err_Ok & _). unfold Append in Ha.
    apply contiguous_cons in Hc as [He _]. cbn in Ha. rewrite He in Ha.
    destruct (N.eqb_spec (b + 1) (u64_add 0 1)) as [Hb|]; [|done]. change (u64_add 0 1) with 1%N in Hb. lia. }
  rewrite restoreEntries_app in E; [|apply NewLog_wf|done|cbn in *; lia]. injection E as <-.
  assert (log_wf (mkLog (e :: es) 0 0)) as Hwf by (split; cbn in *; [done|lia]).
  split_and!; try done; [|by rewrite Hb0 in Hch].
  rewrite lastIndexLocked_spec by done. cbn in *. lia.
Qed.

Lemma restart_ok C i s n' n :
  disk_ok C (ms_entries (view s)) -> storage n = s -> snapshot_ok n ->
  NewRaftNodeWithStorage i s = Ok n' -> log_ok C (log n') /\ snapshot_ok n'.
Proof.
  intros Hd Hn Hs E. pose proof (restart_state _ _ _ E) as (_ & Hst & _).
  split; [|unfold snapshot_ok; rewrite Hst, <- Hn; exact Hs].
  unfold NewRaftNodeWithStorage in E. apply bind_Ok in E as (p & _ & E).
  apply bind_Ok in E as (es & He%wrap_err_Ok & E). apply LoadEntries_law in He as ->.
  apply bind_Ok in E as (sn & Hsn%wrap_err_Ok & E). apply LoadSnapshot_law in Hsn.
  apply bind_Ok in E as (l & Hl & E). apply (restoreEntries_ok C) in Hl; [|done].
  apply bind_Ok in E as (l' & Hl' & E). injection E as <-. cbn.
  destruct (N.ltb_spec 0 (snap_LastIncludedIndex sn)); [|by injection Hl' as <-].
  apply wrap_err_Ok in Hl'. unfold mem_LoadSnapshot in Hsn.
  destruct (ms_snapshot (view s)) as [sn'|] eqn:Es; [|injection Hsn as <-; cbn in *; lia].
  injection Hsn as ->. rewrite <- Hn in Es. destruct (Hs _ Es) as [Hs1 Hs2].
  by eapply RestoreSnapshot_log_ok.
Qed.

(** *** Requests *)

Lemma collectEntries_zero l count : log_wf l -> collectEntries l (Datatypes.S count) 0 = None.
Proof.
  intros Hwf. cbn. destruct (getLocked l 0) as [e|] eqn:E; [|done].
  assert (is_Some (getLocked l 0)) as Hr%(getLocked_range l _ Hwf) by eauto. lia.
Qed.

(** A leader sends from inside its log: the entries are the end of the log. *)
Lemma buildAppendEntries_suffix C n peerID args :
  log_ok C (log n) -> buildAppendEntries n peerID = Some args -> ae_Entries args ≠ [] ->
  (lastIncludedIndex (log n) <= ae_PrevLogIndex args < lastIndexLocked (log n))%N /\
  ae_Entries args = drop (N.to_nat (ae_PrevLogIndex args - lastIncludedIndex (log n))) (entries (log n)) /\
  (ae_PrevLogIndex args = 0%N -> ae_PrevLogTerm args = 0%N) /\
  ((0 < ae_PrevLogIndex args)%N -> term_at (log n) (ae_PrevLogIndex args) = Some (ae_PrevLogTerm args)).
Proof.
  intros (Hwf & Hu & Hb1 & _) E Hne.
  assert (1 <= default 0 (nextIndexOf n peerID) <= lastIndexLocked (log n))%N as Hnext.
  { unfold buildAppendEntries in E. case_bool_decide; [done|].
    destruct (nextIndexOf n peerID) as [next|]; [|done]. change (default 0%N (Some next)) with next.
    destruct (if (1 <? next)%N then _ else _) as [[pi pt]|]; [|done].
    destruct (collectEntries _ _ _) as [es|] eqn:Hc; [|done]. injection E as <-. cbn in Hne.
    destruct (N.to_nat (lastIndexLocked (log n) + 1 - next)) as [|k] eqn:Hk; [by injection Hc as <-|].
    split; [|lia]. destruct (decide (next = 0%N)) as [->|]; [|lia].
    by rewrite collectEntries_zero in Hc. }
  destruct (buildAppendEntries_spec n peerID args Hwf Hu E ltac:(lia)) as ([Hc _] & Hlen & Hprev & Hents & _).
  assert (ae_PrevLogIndex args = 0%N -> ae_PrevLogTerm args = 0%N) as Hp0.
  { unfold buildAppendEntries in E. case_bool_decide; [done|].
    destruct (nextIndexOf n peerID) as [next|]; [|done]. cbn in Hnext.
    destruct (N.ltb_spec 1 next).
    - rewrite u64_sub_small in E by lia. destruct (getLocked _ _); [|done].
      destruct (collectEntries _ _ _); [|done]. injection E as <-. cbn. lia.
    - destruct (collectEntries _ _ _); [|done]. by injection E as <-. }
  pose proof (prev_in_log n args Hwf Hprev) as Hle.
  destruct (ae_Entries args) as [|e0 es] eqn:Ees; [done|]. cbn in Hlen.
  assert (lastIncludedIndex (log n) <= ae_PrevLogIndex args)%N as Hb.
  { apply contiguous_cons in Hc as [He0 _].
    assert (is_Some (getLocked (log n) (le_Index e0))) as Hr%(getLocked_range _ _ Hwf).
    { rewrite Hents; [eauto|]. set_solver. }
    destruct (decide (0 < ae_PrevLogIndex args)%N) as [Hpos|]; [|lia].
    assert (is_Some (term_at (log n) (ae_PrevLogIndex args))) as Hs by (rewrite Hprev by done; eauto).
    unfold term_at in Hs. rewrite fmap_is_Some, (getLocked_range _ _ Hwf) in Hs. lia. }
  split_and!; try done; [lia|].
  apply list_eq_same_length with (n := N.to_nat (lastIndexLocked (log n) - ae_PrevLogIndex args)).
  - rewrite length_drop. rewrite lastIndexLocked_spec in Hlen |- * by done. lia.
  - cbn. lia.
  - intros k x y _ Hx Hy. assert (x ∈ e0 :: es) as Hin by (apply list_elem_of_lookup; eauto).
    pose proof (Hents x Hin) as Hgx. rewrite (Hc _ _ Hx), getLocked_spec in Hgx by done.
    destruct (N.eqb_spec (ae_PrevLogIndex args + 1 + N.of_nat k) (lastIncludedIndex (log n))); [lia|].
    cbn in Hgx. destruct (N.ltb_spec (lastIncludedIndex (log n)) (ae_PrevLogIndex args + 1 + N.of_nat k)); [|lia].
    rewrite lookup_drop in Hy. replace (N.to_nat (_ - _ - 1)) with
      (N.to_nat (ae_PrevLogIndex args - lastIncludedIndex (log n)) + k) in Hgx by lia. congruence.
Qed.

Lemma buildAppendEntries_request C n peerID args :
  log_ok C (log n) -> Forall config_free (entries (log n)) -> buildAppendEntries n peerID = Some args ->
  request_ok C args \/ ae_Entries args = [].
Proof.
  intros Hok Hcl E. destruct (decide (ae_Entries args = [])) as [|Hne]; [by right|left].
  destruct (buildAppendEntries_suffix C n peerID args Hok E Hne) as (Hb & Hes & Hp0 & Hp).
  destruct Hok as (Hwf & Hu & _ & Hb0 & Hc). rewrite lastIndexLocked_spec in Hu, Hb by done.
  unfold request_ok. rewrite Hes. split_and!; try done.
  - pose proof (contiguous_drop _ _ (N.to_nat (ae_PrevLogIndex args - lastIncludedIndex (log n))) (proj1 Hwf)) as Hd.
    replace (_ + _)%N with (ae_PrevLogIndex args) in Hd by lia. exact Hd.
  - rewrite length_drop. lia.
  - replace (ae_PrevLogTerm args) with (last_term (lastIncludedTerm (log n))
      (take (N.to_nat (ae_PrevLogIndex args - lastIncludedIndex (log n))) (entries (log n)))); [by apply chain_drop|].
    destruct (decide (ae_PrevLogIndex args = 0%N)) as [Hz|Hz].
    + rewrite (Hp0 Hz), Hz. replace (N.to_nat _) with 0 by lia. apply Hb0. lia.
    + apply (inj Some). rewrite <- prefix_term, Hp by (done || lia || (rewrite lastIndexLocked_spec by done; lia)). done.
  - by apply Forall_drop.
Qed.
End Ops.
