(* ===== verification/LogMatching.v ===== *)
(** Log matching: in a cluster, entries with the same index and term are the same,
    and so is everything in front of them.

    A [cluster] is the [world] of [ElectionSafety] with the requests that leaders have
    sent.  Its steps are those of [ElectionSafety], except that [AppendEntries] handles a
    request some leader has built ([buildAppendEntries]) and sent before, to whom and
    how often the network likes, or one without entries (a heartbeat, one of [ReadIndex]
    included).  Snapshots are taken at any applied index but 1 and installed with any
    boundary but index 1 and any data.  A crash can hit a node in the middle of an
    operation or after a failed write: the operation runs against a storage whose calls
    may fail, and the node restarts from what is stored.  Before that operation the
    storage held the log in memory ([faithful]).

    These conditions are needed: [failed_sync_breaks_matching] and [boundary_sent_as_entry]
    show two runs without them that end in different logs. *)

From S2P Require Import Prelude Model RaftLog Storage Membership ConfigEntry Node Election.
From S2P Require Import ElectionFacts Apply SnapshotOps Replication ReplicationFacts Durability.
From S2P Require Import ElectionSafety ReadIndex LogChain.

Section Matching.
Context {S : Type} `{StorageLaws S}.
Implicit Types n : RaftNode S.

Record cluster := mkCluster {
  cl_world : world (S := S);
  (** the requests sent so far *)
  sent : list AppendEntriesArgs;
  (** history: the entries that leaders have stored *)
  creations : list creation;
}.

(** What the network and the users of a node may ask of it: requests leaders have sent, and
    any without entries; snapshots whose boundary is not index 1; no configuration entries;
    no late answers to reads; indexes within 64 bits. *)
Definition op_allowed (c : cluster) (op : node_op) n : Prop :=
  match op with
  | OpAppendEntries args => args ∈ sent c \/ ae_Entries args = []
  | OpInstallSnapshot args => is_LastIncludedIndex args ≠ 1%N /\ is_u64 (is_LastIncludedIndex args + 2)%N
  | OpCreateSnapshot index _ => index ≠ 1%N
  | OpPropose data => IsConfigurationEntry data = false /\ is_u64 (lastIndexLocked (log n) + 3)%N
  | OpReadHeartbeat args => ae_Entries args = []
  | OpReadReply _ term _ _ _ reply => timely term reply n
  | _ => True
  end.

Inductive cluster_step : cluster -> cluster -> Prop :=
| StepElection w c : vote_step (cl_world c) w -> cluster_step c (mkCluster w (sent c) (creations c))
| StepSend i n peerID args c :
    nodes (cl_world c) !! i = Some n -> buildAppendEntries n peerID = Some args ->
    cluster_step c (mkCluster (cl_world c) (args :: sent c) (creations c))
| StepOperation i n op c :
    nodes (cl_world c) !! i = Some n -> op_allowed c op n ->
    cluster_step c (mkCluster (with_node i (run_op op n) (cl_world c)) (sent c)
                      (created_by op n ++ creations c))
| StepCrash i n op n' c :
    nodes (cl_world c) !! i = Some n -> op_allowed c op n -> faithful n ->
    NewRaftNodeWithStorage i (storage (run_op op n)) = Ok n' ->
    cluster_step c (mkCluster (with_node i n' (cl_world c)) (sent c) (created_by op n ++ creations c)).

(** A new cluster: empty logs, no snapshots, nothing sent. *)
Definition new_cluster (m : Membership) (c : cluster) : Prop :=
  initial m (cl_world c) /\ sent c = [] /\ creations c = [] /\
  forall i n, nodes (cl_world c) !! i = Some n -> log n = NewLog /\ ms_snapshot (view (storage n)) = None.

(** ** The invariant *)

Definition log_inv (w : world (S := S)) (C : list creation) (i : NodeID) n : Prop :=
  log_ok C (log n) /\ snapshot_ok n /\
  (role n = Candidate -> (currentTerm n, i, i) ∈ ballots w /\ ~ (currentTerm n, i) ∈ won w) /\
  (role n = Leader -> forall a, a ∈ C -> cr_Term a = currentTerm n -> taken n (cr_Index a)).

Definition matching_inv (c : cluster) : Prop :=
  let w := cl_world c in
  unique (creations c) /\
  (forall a, a ∈ creations c -> exists i, (cr_Term a, i) ∈ won w) /\
  (forall t i, (t, i) ∈ won w -> (t, i, i) ∈ ballots w) /\
  (forall args, args ∈ sent c -> request_ok (creations c) args \/ ae_Entries args = []) /\
  (forall i n, nodes w !! i = Some n -> log_inv w (creations c) i n).

Lemma request_ok_mono C C' args : C ⊆ C' -> request_ok C args -> request_ok C' args.
Proof. intros Hs (? & ? & ? & Hc & ?). split_and!; try done. by eapply chain_mono. Qed.

(** A passive step that leaves log and storage alone. *)
Lemma log_inv_quiet m w C i n n' :
  node_inv m w i n -> log_inv w C i n -> passive n n' -> quiet n n' -> log_inv w C i n'.
Proof.
  intros (_ & _ & _ & Hc & _) (Hl & Hs & Hcand & Hlead) P Hq. destruct (P Hc) as (_ & _ & _ & _ & Hr & _).
  split_and!.
  - by rewrite (proj1 Hq).
  - unfold snapshot_ok. by rewrite (proj2 (proj2 Hq)).
  - intros Hr'. destruct Hr as [?|(Hr & _ & ->)]; [congruence|]. apply Hcand. congruence.
  - intros Hr' a Ha. destruct Hr as [?|(Hr & _ & ->)]; [congruence|]. intros Ht.
    apply (taken_quiet n n' _ Hq). apply Hlead; congruence.
Qed.

(** More ballots and other nodes' victories do not matter to a node. *)
Lemma log_inv_mono w w' C i n :
  ballots w ⊆ ballots w' -> (forall t, (t, i) ∈ won w' -> (t, i) ∈ won w) ->
  log_inv w C i n -> log_inv w' C i n.
Proof. intros Hb Hw (Hl & Hs & Hcand & Hlead). split_and!; try done. naive_solver. Qed.


(** Node [i] changes in an election step. *)
Lemma matching_vote c w i n' :
  matching_inv c -> nodes w = <[i := n']> (nodes (cl_world c)) ->
  ballots (cl_world c) ⊆ ballots w -> won (cl_world c) ⊆ won w ->
  (forall t j, (t, j) ∈ won w -> (t, j) ∈ won (cl_world c) \/ j = i /\ (t, i, i) ∈ ballots w) ->
  log_inv w (creations c) i n' -> matching_inv (mkCluster w (sent c) (creations c)).
Proof.
  intros (Hun & Hcr & Hwb & Hsent & Hn) Hnodes Hb Hw Hnew Hi. split_and!; cbn; try done.
  - intros a Ha. destruct (Hcr a Ha) as [j Hj]. exists j. by apply Hw.
  - intros t j [Hj|[-> Hj]]%Hnew; [|done]. by apply Hb, Hwb.
  - intros j nj. rewrite Hnodes, lookup_insert_Some. intros [[<- <-]|[Hij Hj]]; [done|].
    eapply log_inv_mono; [done| |by apply Hn]. intros t [?|[? _]]%Hnew; congruence.
Qed.

Lemma start_matching m c i n n' r :
  let w := cl_world c in
  cluster_inv m w -> matching_inv c -> nodes w !! i = Some n -> is_u64 (currentTerm n + 1)%N ->
  startElection n = (n', r) ->
  matching_inv (mkCluster (mkWorld (<[i := n']> (nodes w)) (replies w)
    (match r with Ok t => (t, i, i) :: ballots w | Err _ => ballots w end) (won w)) (sent c) (creations c)).
Proof.
  intros w Hc Hm Hi Hu E. pose proof (startElection_quiet n) as Hq. rewrite E in Hq. cbn in Hq.
  pose proof (proj2 Hc i n Hi) as Hni. pose proof (startElection_cases _ _ _ Hu E) as Hcases.
  assert (log_inv w (creations c) i n) as Hli by by apply Hm.
  eapply matching_vote; [done|done|destruct r; set_solver|done|by left|]. destruct r as [t|e]; cbn.
  2: { eapply (log_inv_mono w); [done|done|]. by eapply log_inv_quiet. }
  destruct Hcases as (_ & -> & _ & Hr & _). destruct Hli as (Hl & Hs & _). split_and!.
  - by rewrite (proj1 Hq).
  - unfold snapshot_ok. by rewrite (proj2 (proj2 Hq)).
  - intros _. split; [apply elem_of_cons; by left|]. intros Hw.
    assert (currentTerm n' = currentTerm n + 1)%N as Ht.
    { unfold startElection in E. destruct (negb _); [done|]. destruct (storageWriteBlocked n); [done|].
      rewrite u64_add_small in E by done. destruct (saveAndSync _ _) as [s [e|]]; [done|]. by simplify_eq. }
    destruct Hm as (_ & _ & Hwb & _). apply Hwb in Hw. destruct Hni as (_ & _ & _ & _ & Hb & _).
    destruct (Hb _ _ Hw) as [[Hlt|[Heq _]] _]; unfold currentTerm in *; lia.
  - congruence.
Qed.

Lemma lead_matching m c i n n' (b : bool) :
  let w := cl_world c in
  let w' := mkWorld (<[i := n']> (nodes w)) (replies w) (ballots w)
              (if b then (currentTerm n', i) :: won w else won w) in
  cluster_inv m w -> cluster_inv m w' -> matching_inv c -> nodes w !! i = Some n ->
  tryBecomeLeader n = (n', b) -> matching_inv (mkCluster w' (sent c) (creations c)).
Proof.
  intros w w' Hc Hc' Hm Hi E. pose proof (tryBecomeLeader_quiet n) as Hq. rewrite E in Hq. cbn in Hq.
  assert (log_inv w (creations c) i n) as (Hl & Hs & Hcand & Hlead) by by apply Hm.
  unfold tryBecomeLeader in E. case_bool_decide as Hr.
  { injection E as <- <-. eapply matching_vote; [done..|by left|by split_and!]. }
  assert (role n = Candidate) as Hrc by (by destruct (role n)). destruct (Hcand Hrc) as [Hbal Hnot].
  destruct (negb _); injection E as <- <-.
  { eapply matching_vote; [done..|by left|by split_and!]. }
  destruct (becomeLeaderLocked_frame n) as [ls Hls]. unfold w' in *. clear w'. rewrite Hls in *.
  eapply matching_vote; [done|done|done|cbn; set_solver|cbn; intros t j [Hj|Hj]%elem_of_cons; [injection Hj as -> ->; right; split; [done|exact Hbal]|by left]|].
  split_and!; try done. intros _ a Ha Ht. exfalso.
  destruct Hm as (_ & Hcr & _). destruct (Hcr a Ha) as [j Hj]. change (currentTerm _) with (currentTerm n) in Ht.
  rewrite Ht in Hj. apply Hnot. replace i with j; [done|].
  apply (won_unique m _ (currentTerm n) _ _ Hc'); apply elem_of_cons; [by right|by left].
Qed.

Lemma vote_step_matching m c w :
  cluster_inv m (cl_world c) -> cluster_inv m w -> matching_inv c -> vote_step (cl_world c) w ->
  matching_inv (mkCluster w (sent c) (creations c)).
Proof.
  destruct c as [w0 ss C]. cbn. intros Hc Hc' Hm Hv.
  assert (forall i n, nodes w0 !! i = Some n -> log_inv w0 C i n) as Hlog by apply Hm.
  destruct Hv as [i n n' r w Hi Hu E|i n n' args reply w Hi E|n args reply w Hi Hin|i n n' b w Hi E].
  - by apply (start_matching m (mkCluster w ss C) i n).
  - pose proof (RequestVote_quiet args n) as Hq. rewrite E in Hq. apply RequestVote_passive in E as [P _].
    eapply (matching_vote (mkCluster w ss C)); [done|done|cbn; destruct (rvr_VoteGranted reply); set_solver|done|by left|].
    eapply (log_inv_mono w); [cbn; destruct (rvr_VoteGranted reply); set_solver|done|].
    eapply log_inv_quiet; [by apply (proj2 Hc)|by apply Hlog|done|done].
  - eapply (matching_vote (mkCluster w ss C)); [done..|by left|].
    eapply (log_inv_mono w); [done|done|].
    destruct (handleVoteReply_cases (rv_Term args) reply n) as [P|(Hr & Ht & Hg & ->)].
    + eapply log_inv_quiet; [by apply (proj2 Hc)|by apply Hlog|done|apply handleVoteReply_quiet].
    + by destruct (Hlog _ _ Hi) as (Hl & Hs & Hcand & Hlead).
  - by apply (lead_matching m (mkCluster w ss C) i n).
Qed.

(** ** Operations and crashes *)

Lemma allowed_ok c op n : matching_inv c -> op_allowed c op n -> op_ok (creations c) op n /\ op_benign op n.
Proof.
  intros (_ & _ & _ & Hsent & _). destruct op; cbn; try done; [|by intros []|by intros ->].
  intros [Hin|Hnil]; [|split; [by right|by rewrite Hnil]].
  destruct (Hsent _ Hin) as [Hreq|Hnil]; [|split; [by right|by rewrite Hnil]].
  split; [by left|]. apply Hreq.
Qed.

(** The creation of an operation is new. *)
Lemma creation_new C op n a :
  op_ok C op n -> a ∈ created_by op n ->
  role n = Leader /\ cr_Term a = currentTerm n /\ ~ taken n (cr_Index a) /\ taken (run_op op n) (cr_Index a) /\
  created_by op n = [a].
Proof.
  intros Hop Ha. destruct op as [| | | |data| | | | | | | | | |]; cbn in Ha; try set_solver.
  by apply created_by_spec; [apply Hop|].
Qed.

Lemma matching_grow m c i n op n' :
  let w := cl_world c in let C := created_by op n ++ creations c in
  cluster_inv m w -> matching_inv c -> nodes w !! i = Some n -> op_ok (creations c) op n ->
  log_inv w C i n' -> matching_inv (mkCluster (with_node i n' w) (sent c) C).
Proof.
  intros w C Hc (Hun & Hcr & Hwb & Hsent & Hn) Hi Hop Hi'.
  assert (forall a, a ∈ created_by op n -> (cr_Term a, i) ∈ won w) as Hnew.
  { intros a Ha. destruct (creation_new _ _ _ _ Hop Ha) as (Hr & -> & _). by apply (proj2 Hc i n Hi). }
  assert (forall a b, a ∈ created_by op n -> b ∈ creations c -> cr_Index a = cr_Index b ->
    cr_Term a = cr_Term b -> False) as Hfresh.
  { intros a b Ha Hb Hidx Ht. destruct (creation_new _ _ _ _ Hop Ha) as (Hr & Hta & Hnt & _).
    destruct (Hn i n Hi) as (_ & _ & _ & Hlead). apply Hnt. rewrite Hidx. apply Hlead; congruence. }
  split_and!; cbn.
  - intros a b [Ha|Ha]%elem_of_app [Hb|Hb]%elem_of_app Hidx Ht; [| | |by apply Hun].
    + destruct (creation_new _ _ _ _ Hop Ha) as (_ & _ & _ & _ & Heq). rewrite Heq in Hb. set_solver.
    + by destruct (Hfresh a b).
    + by destruct (Hfresh b a).
  - intros a [Ha|Ha]%elem_of_app; [exists i; by apply Hnew|by apply Hcr].
  - done.
  - intros args [Hreq|]%Hsent; [left|by right]. eapply request_ok_mono; [|done]. set_solver.
  - intros j nj. rewrite lookup_insert_Some. intros [[<- <-]|[Hij Hj]]; [exact Hi'|].
    destruct (Hn j nj Hj) as (Hl & Hs & Hcand & Hlead). split_and!; try done.
    + eapply log_ok_mono; [|done]. set_solver.
    + intros Hr a [Ha|Ha]%elem_of_app Ht; [|by apply Hlead]. exfalso. apply Hij.
      apply (won_unique m w (cr_Term a)); [done|by apply Hnew|].
      rewrite Ht. by apply (proj2 Hc j nj Hj).
Qed.

Lemma run_op_log_inv m c i n op :
  let w := cl_world c in
  cluster_inv m w -> matching_inv c -> nodes w !! i = Some n -> op_allowed c op n ->
  log_inv w (created_by op n ++ creations c) i (run_op op n).
Proof.
  intros w Hc Hm Hi Ha. destruct (allowed_ok _ _ _ Hm Ha) as [Hop Hcf].
  assert (log_inv w (creations c) i n) as (Hl & Hs & Hcand & Hlead) by by apply Hm.
  destruct (run_op_effect _ _ _ Hl Hs Hop) as (Hl' & Hs' & _ & Ht').
  destruct (proj2 Hc i n Hi) as (_ & _ & _ & Hcl & _).
  destruct (run_op_passive op n Hcf Hcl) as (_ & _ & _ & _ & Hr & _).
  split_and!; try done.
  - intros Hr'. destruct Hr as [?|(Hr & _ & ->)]; [congruence|]. apply Hcand. congruence.
  - intros Hr' a Hin Ht. destruct Hr as [?|(Hr & _ & Htm)]; [congruence|].
    apply elem_of_app in Hin as [Hin|Hin]; [by eapply creation_new|].
    apply Ht'; [done|]. apply Hlead; congruence.
Qed.

Lemma crash_log_inv m c i n op n' :
  let w := cl_world c in
  cluster_inv m w -> matching_inv c -> nodes w !! i = Some n -> op_allowed c op n -> faithful n ->
  NewRaftNodeWithStorage i (storage (run_op op n)) = Ok n' ->
  log_inv w (created_by op n ++ creations c) i n'.
Proof.
  intros w Hc Hm Hi Ha Hf E. destruct (allowed_ok _ _ _ Hm Ha) as [Hop _].
  assert (log_inv w (creations c) i n) as (Hl & Hs & _) by by apply Hm.
  destruct (run_op_effect _ _ _ Hl Hs Hop) as (_ & Hs' & Hd & _).
  pose proof (restart_state _ _ _ E) as (_ & _ & _ & Hr & _).
  destruct (restart_ok _ _ _ _ (run_op op n) (Hd Hf) eq_refl Hs' E) as [Hl2 Hs2].
  split_and!; try done; by rewrite Hr.
Qed.

Lemma cluster_step_inv m c c' :
  cluster_inv m (cl_world c) /\ matching_inv c -> cluster_step c c' ->
  cluster_inv m (cl_world c') /\ matching_inv c'.
Proof.
  intros [Hc Hm] Hstep. destruct Hstep as [w c Hv|i n peerID args c Hi Hb|i n op c Hi Ha|i n op n' c Hi Ha Hf E].
  - assert (cluster_inv m w) as Hc' by (eapply step_inv; [done|by apply StepVote]).
    split; [done|by eapply vote_step_matching].
  - split; [done|]. destruct Hm as (Hun & Hcr & Hwb & Hsent & Hn). split_and!; cbn; try done.
    intros a [->|Ha]%elem_of_cons; [|by apply Hsent].
    destruct (proj2 Hc i n Hi) as (_ & _ & _ & [Hcl _] & _). destruct (Hn i n Hi) as (Hl & _).
    by eapply buildAppendEntries_request.
  - destruct (allowed_ok _ _ _ Hm Ha) as [Hop Hcf]. split; cbn.
    + eapply step_inv; [done|by eapply StepOp].
    + eapply matching_grow; try done. by eapply run_op_log_inv.
  - destruct (allowed_ok _ _ _ Hm Ha) as [Hop Hcf]. split; cbn.
    + assert (cluster_inv m (with_node i (run_op op n) (cl_world c))) as Hc1
        by (eapply step_inv; [done|by eapply StepOp]).
      assert (with_node i n' (cl_world c) = with_node i n' (with_node i (run_op op n) (cl_world c))) as ->
        by (unfold with_node; cbn; by rewrite insert_insert_eq).
      eapply step_inv; [exact Hc1|]. apply (StepRestart i (run_op op n)); [|done].
      cbn. apply lookup_insert_eq.
    + eapply matching_grow; try done. by eapply crash_log_inv.
Qed.

Lemma new_cluster_inv m c : new_cluster m c -> cluster_inv m (cl_world c) /\ matching_inv c.
Proof.
  intros (Hinit & Hs & Hcr & Hn). split; [by apply initial_inv|].
  destruct Hinit as (_ & _ & Hw & Hroles). unfold matching_inv. rewrite Hs, Hcr, Hw. split_and!.
  - by intros a b Ha%elem_of_nil.
  - by intros a Ha%elem_of_nil.
  - by intros t i Ht%elem_of_nil.
  - by intros args Ha%elem_of_nil.
  - intros i n Hi. destruct (Hn i n Hi) as [Hl Hsn]. destruct (Hroles i n Hi) as (_ & _ & _ & _ & Hr).
    split_and!; [rewrite Hl; by split_and!|unfold snapshot_ok; by rewrite Hsn|by rewrite Hr|by rewrite Hr].
Qed.

Lemma reachable_matching m c0 c :
  new_cluster m c0 -> rtc cluster_step c0 c -> cluster_inv m (cl_world c) /\ matching_inv c.
Proof.
  intros Hinit%new_cluster_inv Hs. induction Hs as [c|c1 c2 c3 H12 _ IH]; [done|].
  apply IH. by eapply cluster_step_inv.
Qed.

(** C3: log matching.  Take a new cluster with a fixed membership and a run by the steps
    above: whatever the network does and whichever storage calls fail; no snapshot ends at
    index 1; answers that make a read step down are of a later term than the node; and a
    node that crashes held its log in memory on its disk before the operation it crashes in
    (no earlier write had failed).  In every state reached, if two logs have an entry of the
    same term at an index, they have the same entries, data included, at that index and at
    every index below that both still hold.  An entry of a request in flight is the one of
    the logs that have its index and term. *)
Theorem log_matching m c0 c :
  new_cluster m c0 -> rtc cluster_step c0 c ->
  (forall i j n1 n2 k e1 e2,
     nodes (cl_world c) !! i = Some n1 -> nodes (cl_world c) !! j = Some n2 ->
     getLocked (log n1) k = Some e1 -> getLocked (log n2) k = Some e2 -> le_Term e1 = le_Term e2 ->
     forall h, (lastIncludedIndex (log n1) < h <= k)%N -> (lastIncludedIndex (log n2) < h)%N ->
       getLocked (log n1) h = getLocked (log n2) h) /\
  (forall i n args e e', nodes (cl_world c) !! i = Some n -> args ∈ sent c -> e ∈ ae_Entries args ->
     getLocked (log n) (le_Index e) = Some e' -> (lastIncludedIndex (log n) < le_Index e)%N ->
     le_Term e' = le_Term e -> e' = e).
Proof.
  intros Hinit Hs. destruct (reachable_matching m _ _ Hinit Hs) as [_ (Hun & _ & _ & Hsent & Hn)]. split.
  - intros i j n1 n2 k e1 e2 Hi Hj Hg1 Hg2 Ht h Hh1 Hh2.
    destruct (Hn i n1 Hi) as (Hl1 & _). destruct (Hn j n2 Hj) as (Hl2 & _).
    replace h with (k - N.of_nat (N.to_nat (k - h)))%N by lia.
    eapply (chains_agree _ (log n1) (log n2) Hun Hl1 Hl2); try done; lia.
  - intros i n args e e' Hi Hin He Hg Hb Ht. destruct (Hn i n Hi) as (Hl & _).
    pose proof (log_ok_entry _ _ _ _ Hl Hb Hg) as Hc1.
    pose proof (getLocked_index _ _ _ (proj1 Hl) Hg) as Hidx.
    destruct (Hsent args Hin) as [(_ & _ & _ & Hch & _)|Hnil]; [|rewrite Hnil in He; set_solver].
    apply list_elem_of_lookup in He as [q Hq]. pose proof (chain_lookup _ _ _ _ _ Hch Hq) as Hc2.
    pose proof (Hun _ _ Hc1 Hc2 Hidx Ht) as Heq. destruct e, e'. unfold created_as in Heq. cbn in *. congruence.
Qed.

End Matching.

(** ** A run: node a is elected, stores a proposal and sends it to b *)

Definition leader_a : RaftNode MemoryStorage := run_op (OpPropose [x07]) elected_a.
Definition request_b : AppendEntriesArgs :=
  default (mkAppendEntriesArgs 0 "" 0 0 [] 0) (buildAppendEntries leader_a "b").
Definition follower_b : RaftNode MemoryStorage := run_op (OpAppendEntries request_b) voter_b.

Definition matched_cluster : cluster :=
  mkCluster (with_node "b" follower_b (with_node "a" leader_a elected_world)) [request_b]
    (created_by (OpAppendEntries request_b) voter_b ++ created_by (OpPropose [x07]) elected_a ++ []).

Lemma matched_reachable : rtc cluster_step (mkCluster fresh_world [] []) matched_cluster.
Proof.
  etrans.
  { refine (rtc_congruence (fun w => mkCluster w [] []) _ _ _ _ elected_votes).
    intros w w' Hv. exact (StepElection w' (mkCluster w [] []) Hv). }
  eapply rtc_l.
  { apply (StepOperation "a" elected_a (OpPropose [x07])); [vm_compute; reflexivity|by vm_compute]. }
  eapply rtc_l.
  { apply (StepSend "a" leader_a "b" request_b); vm_compute; reflexivity. }
  eapply rtc_l.
  { apply (StepOperation "b" voter_b (OpAppendEntries request_b)); [vm_compute; reflexivity|].
    left. apply elem_of_cons. by left. }
  apply rtc_refl.
Qed.

Lemma fresh_cluster :
  new_cluster (mkMembership (mkConfiguration ["a"; "b"; "c"]) None) (mkCluster fresh_world [] []).
Proof.
  split_and!; [exact fresh_initial|done..|]. intros i n Hi. cbn in Hi.
  repeat (apply lookup_insert_Some in Hi as [[<- <-]|[_ Hi]]; [done|]).
  by apply lookup_singleton_Some in Hi as [<- <-].
Qed.

Lemma log_matching_witness :
  getLocked (log leader_a) 1 = Some (mkLogEntry 1 1 [x07]) /\
  getLocked (log leader_a) 1 = getLocked (log follower_b) 1.
Proof.
  split; [vm_compute; reflexivity|].
  apply (proj1 (log_matching _ _ _ fresh_cluster matched_reachable) "a" "b" leader_a follower_b 1%N
    (mkLogEntry 1 1 [x07]) (mkLogEntry 1 1 [x07])); vm_compute; done.
Defined.

(** ** What the conditions are for *)

(** A node keeps running after a failed [Sync] of a replaced suffix.  Its disk has the
    entry 2 of term 2, its memory the one of term 1.  The leader of term 3 agrees
    with the memory and replaces entry 3; the node accepts.  After a restart the node has the
    entry 3 of that leader behind an entry 2 that this leader never had. *)
Lemma failed_sync_breaks_matching :
  let p := mkPersistent 2 "" (mkMembership (mkConfiguration ["a"; "b"; "c"]) None) in
  let es := [mkLogEntry 1 1 [x01]; mkLogEntry 2 1 [x02]; mkLogEntry 3 1 [x03]] in
  let n := mkRaftNode "b" (mkState p (mkVolatile 0 0) (mkLeaderState ∅ ∅) ∅ Follower "") (mkLog es 0 0)
             (mkFaultyStorage (mkMemoryStorage p es None) [None; Some (Msg "sync failed")])
             true [] [] None 0 10 false false 0 1 true in
  let n1 := fst (AppendEntries (mkAppendEntriesArgs 2 "a" 1 1 [mkLogEntry 2 2 [x04]] 0) n) in
  let r2 := AppendEntries (mkAppendEntriesArgs 3 "c" 2 1 [mkLogEntry 3 3 [x05]] 0) n1 in
  log n1 = log n /\ aer_Success (snd r2) = true /\
  entries (log (fst r2)) = [mkLogEntry 1 1 [x01]; mkLogEntry 2 1 [x02]; mkLogEntry 3 3 [x05]] /\
  exists n3, NewRaftNodeWithStorage "b" (storage (fst r2)) = Ok n3 /\
    entries (log n3) = [mkLogEntry 1 1 [x01]; mkLogEntry 2 2 [x04]; mkLogEntry 3 3 [x05]].
Proof.
  intros p es n n1 r2. split_and!; [vm_compute; reflexivity..|].
  destruct (NewRaftNodeWithStorage "b" (storage (fst r2))) as [n3|e] eqn:E; [|by vm_compute in E].
  exists n3. split; [done|]. vm_compute in E. by injection E as <-.
Qed.

(** A leader whose snapshot ends at index 1 sends a new peer, when the snapshot does not
    get through, the boundary as an entry without data; the peer takes it. *)
Lemma boundary_sent_as_entry :
  let leader := fst (CreateSnapshot 1 [] (set_nextIndex "b" 1
    (sample_node "a" Leader [mkLogEntry 1 1 [x01]; mkLogEntry 2 2 [x02]]))) in
  lastIncludedIndex (log leader) = 1%N /\
  exists args, buildAppendEntries leader "b" = Some args /\
    aer_Success (snd (AppendEntries args (fresh "b"))) = true /\
    entries (log (fst (AppendEntries args (fresh "b")))) = [mkLogEntry 1 1 []; mkLogEntry 2 2 [x02]].
Proof.
  intros leader. split; [vm_compute; reflexivity|].
  destruct (buildAppendEntries leader "b") as [args|] eqn:E; [|by vm_compute in E].
  exists args. vm_compute in E. injection E as <-. split_and!; vm_compute; reflexivity.
Qed.

(** A follower whose log conflicts with an installed snapshot drops its entries from
    memory but keeps those after the snapshot on disk.  It then refuses the next entry of the
    leader, whose snapshot it accepts again: the two repeat this without end. *)
Lemma conflicting_snapshot_blocks_follower :
  let es := [mkLogEntry 1 1 [x01]; mkLogEntry 2 1 [x02]; mkLogEntry 3 1 [x03]; mkLogEntry 4 1 [x04]] in
  let n := SetSnapshotRestore (fun _ => None) (sample_node "b" Follower es) in
  let snapshot := mkInstallSnapshotArgs 2 "a" 3 2 [x05] in
  let next := mkAppendEntriesArgs 2 "a" 3 2 [mkLogEntry 4 2 [x06]] 3 in
  let r1 := InstallSnapshot snapshot n in
  let r2 := AppendEntries next (fst r1) in
  isr_Success (snd r1) = true /\ entries (log (fst r1)) = [] /\
  ms_entries (view (storage (fst r1))) = [mkLogEntry 4 1 [x04]] /\
  aer_Success (snd r2) = false /\
  isr_Success (snd (InstallSnapshot snapshot (fst r2))) = true /\
  aer_Success (snd (AppendEntries next (fst (InstallSnapshot snapshot (fst r2))))) = false.
Proof. vm_compute. split_and!; reflexivity. Qed.
