(* ===== verification/LogTree.v ===== *)
(** The tree of all entries.

    Creations form a tree: the parent of an entry is the entry that was in front of it
    when its leader created it.  A position is an index with a term, the root the
    position before the first entry.  [under C x y] says that [x] lies on the path from
    the root to [y]; a log that was never compacted is the path to its end.  The log
    that a request of a leader leads to is described by the ends of the two paths. *)

From S2P Require Import Prelude Model RaftLog Storage Membership ConfigEntry Node Election.
From S2P Require Import ElectionFacts Apply SnapshotOps Replication ReplicationFacts Durability.
From S2P Require Import ElectionSafety ReadIndex LogChain.

Definition pos : Type := LogIndex * Term.
Definition root : pos := (0, 0)%N.

Definition cpos (a : creation) : pos := (cr_Index a, cr_Term a).
Definition parent (a : creation) : pos := (cr_Index a - 1, cr_Prev a)%N.

Inductive under (C : list creation) : pos -> pos -> Prop :=
| under_refl x : under C x x
| under_step x a : a ∈ C -> under C x (parent a) -> under C x (cpos a).

(** Every creation has its parent in the tree, and terms grow along the paths. *)
Definition tree_ok (C : list creation) : Prop :=
  unique C /\
  forall a, a ∈ C -> (1 <= cr_Index a)%N /\ (1 <= cr_Term a)%N /\ (cr_Prev a <= cr_Term a)%N /\
    under C root (parent a).

#[global] Instance under_preorder C : PreOrder (under C).
Proof.
  split; [intros x; apply under_refl|]. intros x y z Hxy Hyz.
  induction Hyz as [|y a Ha _ IH]; [done|]. apply under_step; auto.
Qed.

Lemma under_mono C C' x y : C ⊆ C' -> under C x y -> under C' x y.
Proof. intros Hs Hu. induction Hu; [reflexivity|]. apply under_step; auto. Qed.

Section Tree.
Context (C : list creation) (Htree : tree_ok C).

Lemma under_le x y : under C x y -> (x.1 <= y.1)%N /\ (x.2 <= y.2)%N.
Proof.
  intros Hu. induction Hu as [x|x a Ha _ [IH1 IH2]]; [lia|].
  destruct (proj2 Htree a Ha) as (? & ? & ? & _). cbn in *. lia.
Qed.

(** The paths to a creation. *)
Lemma under_inv x a : a ∈ C -> under C x (cpos a) -> x = cpos a \/ under C x (parent a).
Proof.
  intros Ha Hu. remember (cpos a) as y eqn:Hy. destruct Hu as [x|x b Hb Hu]; [by left|right].
  replace a with b; [done|]. injection Hy as Hi Ht. by apply Htree.
Qed.

Lemma under_linear x y z : under C x z -> under C y z -> (x.1 <= y.1)%N -> under C x y.
Proof.
  intros Hx Hy. revert Hx. induction Hy as [y|y a Ha Hy IH]; intros Hx Hle; [done|].
  apply under_le in Hy. destruct (proj2 Htree a Ha) as (? & _).
  apply under_inv in Hx as [->|Hx]; [cbn in *; lia|auto|done].
Qed.

Lemma under_same x y : under C x y -> x.1 = y.1 -> x = y.
Proof.
  intros Hu Heq. destruct Hu as [|x a Ha Hu]; [done|]. apply under_le in Hu.
  destruct (proj2 Htree a Ha) as (? & _). cbn in *. lia.
Qed.

(** One path has one position per index. *)
Lemma under_index x y z : under C x z -> under C y z -> x.1 = y.1 -> x = y.
Proof. intros Hx Hy Heq. apply under_same; [|done]. eapply under_linear; eauto. lia. Qed.

Lemma under_total x y z : under C x z -> under C y z -> under C x y \/ under C y x.
Proof.
  intros Hx Hy. destruct (decide (x.1 <= y.1)%N); [left|right]; eapply under_linear; eauto; lia.
Qed.

Lemma in_tree_under x y : under C root y -> under C x y -> under C root x.
Proof. intros Hy Hx. eapply under_linear; eauto. cbn. lia. Qed.

Lemma under_root x : under C x root -> x = root.
Proof.
  intros Hu. remember root as y eqn:Hy. destruct Hu as [|x a Ha Hu]; [done|].
  destruct (proj2 Htree a Ha) as (? & _). injection Hy as Hi Ht. lia.
Qed.

(** A position of the tree other than the root was created. *)
Lemma in_tree_created x : under C root x -> x = root \/ exists a, a ∈ C /\ cpos a = x.
Proof. intros Hu. destruct Hu; [by left|right; eauto]. Qed.

Lemma under_decide x y : under C root y -> under C x y \/ ~ under C x y.
Proof.
  intros Hy. remember root as r eqn:Hr. induction Hy as [r|r a Ha Hy IH]; subst.
  - destruct (decide (x = root)) as [->|Hne]; [left; reflexivity|right]. by intros ?%under_root.
  - destruct (decide (x = cpos a)) as [->|Hne]; [left; reflexivity|].
    destruct (IH eq_refl) as [Hu|Hu]; [left; by apply under_step|right]. by intros [?|?]%under_inv.
Qed.

End Tree.

(** New creations do not change the paths to old positions. *)
Lemma under_stable C C' x y :
  tree_ok C' -> C ⊆ C' -> under C root y -> under C' x y -> under C x y.
Proof.
  intros Ht Hs Hy. remember root as r eqn:Hr. induction Hy as [r|r a Ha Hy IH]; subst; intros Hx.
  - apply under_root in Hx as ->; [reflexivity|done].
  - apply under_inv in Hx as [->|Hx]; [reflexivity| |done|by apply Hs].
    apply under_step; auto.
Qed.

(** ** Paths and logs *)

Definition log_end (l : Log) : pos := (lastIndexLocked l, lastTermLocked l).

(** A log that was never compacted. *)
Definition whole (C : list creation) (l : Log) : Prop := log_ok C l /\ lastIncludedIndex l = 0%N.

Lemma whole_term C l : whole C l -> lastIncludedTerm l = 0%N.
Proof. intros [(_ & _ & _ & Hb & _) H0]. auto. Qed.

Lemma whole_last C l : whole C l -> lastIndexLocked l = N.of_nat (length (entries l)).
Proof. intros [Hok H0]. rewrite lastIndexLocked_spec, H0 by apply Hok. lia. Qed.

Lemma chain_under C b p es :
  contiguous b es -> chain C p es -> under C (b, p) (b + N.of_nat (length es), last_term p es)%N.
Proof.
  revert b p; induction es as [|e es IH]; intros b p Hc Hch.
  { cbn [length N.of_nat]. rewrite N.add_0_r, last_term_nil. reflexivity. }
  apply contiguous_cons in Hc as [He Hc]. destruct Hch as [Hin Hch].
  rewrite last_term_cons. cbn [length].
  replace (b + N.of_nat (S (length es)))%N with (b + 1 + N.of_nat (length es))%N by lia.
  etrans; [|by apply IH].
  assert ((b + 1, le_Term e)%N = cpos (created_as p e)) as -> by (unfold cpos; cbn; by rewrite He).
  apply under_step; [done|]. unfold parent. cbn. rewrite He.
  replace (b + 1 - 1)%N with b by lia. reflexivity.
Qed.

(** The position at an index of the log. *)
Lemma prefix_under C l k :
  whole C l -> (k <= length (entries l)) ->
  under C root (N.of_nat k, last_term 0 (take k (entries l))) /\
  under C (N.of_nat k, last_term 0 (take k (entries l))) (log_end l).
Proof.
  intros Hw Hk. pose proof (whole_term _ _ Hw) as Ht. pose proof (whole_last _ _ Hw) as Hl.
  destruct Hw as [(Hwf & _ & _ & _ & Hch) H0]. destruct Hwf as [Hc _]. rewrite H0 in Hc. rewrite Ht in Hch.
  split.
  - pose proof (chain_under C 0 0 (take k (entries l)) (contiguous_take _ _ k Hc) (chain_take _ _ _ k Hch)) as Hu.
    rewrite length_take, N.add_0_l in Hu. by replace (k `min` _) with k in Hu by lia.
  - pose proof (chain_under C (N.of_nat k) _ (drop k (entries l)) (contiguous_drop _ _ k Hc)
      (chain_drop _ _ _ k Hch)) as Hu.
    unfold log_end. rewrite Hl, lastTermLocked_last, Ht.
    replace (last_term (last_term 0 (take k (entries l))) (drop k (entries l)))
      with (last_term 0 (entries l)) in Hu.
    2: { rewrite <- (take_drop k (entries l)) at 1. apply last_term_app. }
    rewrite length_drop in Hu. by replace (N.of_nat k + _)%N with (N.of_nat (length (entries l))) in Hu by lia.
Qed.

Lemma log_end_in_tree C l : whole C l -> under C root (log_end l).
Proof.
  intros Hw. destruct (prefix_under C l 0 Hw) as [H1 H2]; [lia|]. by etrans.
Qed.

Lemma term_at_prefix C l k :
  whole C l -> (1 <= k <= lastIndexLocked l)%N ->
  term_at l k = Some (last_term 0 (take (N.to_nat k) (entries l))).
Proof.
  intros Hw Hk. pose proof (whole_term _ _ Hw) as Ht. destruct Hw as [Hok H0].
  rewrite prefix_term, Ht, H0, N.sub_0_r; [done|apply Hok|lia|lia].
Qed.

Lemma entry_under C l k t : whole C l -> term_at l k = Some t -> under C (k, t) (log_end l).
Proof.
  intros Hw Ht. assert (1 <= k <= lastIndexLocked l)%N as Hk.
  { assert (is_Some (getLocked l k)) as Hr by (apply (fmap_is_Some le_Term); unfold term_at in Ht; rewrite Ht; eauto).
    apply (getLocked_range l _ (proj1 (proj1 Hw))) in Hr. lia. }
  rewrite (term_at_prefix C) in Ht by done. injection Ht as <-.
  rewrite (whole_last _ _ Hw) in Hk.
  destruct (prefix_under C l (N.to_nat k) Hw) as [_ Hu]; [lia|]. by rewrite N2Nat.id in Hu.
Qed.

Lemma under_entry C l k t :
  tree_ok C -> whole C l -> (1 <= k)%N -> under C (k, t) (log_end l) -> term_at l k = Some t.
Proof.
  intros Htree Hw Hk Hu. pose proof (under_le C Htree _ _ Hu) as [Hle _]. cbn in Hle.
  rewrite (term_at_prefix C) by done. rewrite (whole_last _ _ Hw) in Hle.
  destruct (prefix_under C l (N.to_nat k) Hw) as [_ Hp]; [lia|]. rewrite N2Nat.id in Hp.
  pose proof (under_index C Htree _ _ _ Hu Hp eq_refl) as Heq. by injection Heq as ->.
Qed.

(** ** Requests *)

(** The end of the path a request carries. *)
Definition req_end (args : AppendEntriesArgs) : pos :=
  (ae_PrevLogIndex args + N.of_nat (length (ae_Entries args)),
   last_term (ae_PrevLogTerm args) (ae_Entries args))%N.

Lemma request_prev_under C args :
  request_ok C args -> under C (ae_PrevLogIndex args, ae_PrevLogTerm args) (req_end args).
Proof. intros (Hc & _ & _ & Hch & _). by apply chain_under. Qed.

Lemma request_entry_under C args e :
  request_ok C args -> e ∈ ae_Entries args -> under C (le_Index e, le_Term e) (req_end args).
Proof.
  intros (Hc & _ & _ & Hch & _) [q Hq]%list_elem_of_lookup.
  pose proof (chain_under _ _ _ _ (contiguous_drop _ _ (S q) Hc) (chain_drop _ _ _ (S q) Hch)) as Hu.
  rewrite <- last_term_app, take_drop, length_drop in Hu.
  rewrite (take_S_r _ _ _ Hq), last_term_snoc in Hu. rewrite (Hc _ _ Hq).
  apply lookup_lt_Some in Hq. unfold req_end.
  replace (ae_PrevLogIndex args + 1 + N.of_nat q)%N with (ae_PrevLogIndex args + N.of_nat (S q))%N by lia.
  by replace (ae_PrevLogIndex args + N.of_nat (S q) + _)%N
    with (ae_PrevLogIndex args + N.of_nat (length (ae_Entries args)))%N in Hu by lia.
Qed.

Lemma firstDifference_agrees l es :
  Forall (fun e => term_at l (le_Index e) = Some (le_Term e)) es -> firstDifference l es = None.
Proof.
  induction 1 as [|e es He _ IH]; cbn; [done|]. unfold term_at in He.
  destruct (getLocked l (le_Index e)) as [x|]; [|done]. injection He as ->. by rewrite N.eqb_refl.
Qed.

(** Where reconciliation leads: nowhere when the log already holds the path of the
    request, to the end of the request otherwise. *)
Lemma reconciled_path C l args :
  tree_ok C -> whole C l -> request_ok C args ->
  ((0 < ae_PrevLogIndex args)%N -> term_at l (ae_PrevLogIndex args) = Some (ae_PrevLogTerm args)) ->
  (ae_PrevLogIndex args <= lastIndexLocked l)%N ->
  let l' := reconciled l (ae_Entries args) in
  whole C l' /\ under C (req_end args) (log_end l') /\
  (l' = l \/ log_end l' = req_end args /\ ~ under C (req_end args) (log_end l)).
Proof.
  intros Htree Hw Hreq Ha Hle. assert (whole C (reconciled l (ae_Entries args))) as Hw'.
  { split; [apply reconciled_ok; try done; [apply Hw|destruct Hw; lia]|].
    unfold reconciled. destruct (firstDifference _ _) as [[new rf]|]; apply Hw. }
  cbn zeta. split; [done|]. pose proof Hreq as (Hc & Hu & Hp0 & Hch & _).
  pose proof (firstDifference_spec l _ _ (proj1 (proj1 Hw)) Hc) as Hd.
  assert (under C (req_end args) (log_end l) -> firstDifference l (ae_Entries args) = None) as Hnone.
  { intros Hun. apply firstDifference_agrees, Forall_forall. intros e He.
    apply (under_entry C); try done.
    - destruct (contiguous_position _ _ _ Hc He). lia.
    - etrans; [by apply request_entry_under|done]. }
  unfold reconciled. destruct (firstDifference l (ae_Entries args)) as [[new rf]|] eqn:Hf.
  - destruct Hd as (pre & e0 & rest & Hes & Hnew & _); [destruct Hw; lia|].
    assert (log_end (reconciled l (ae_Entries args)) = req_end args) as He.
    { destruct (last (ae_Entries args)) as [e|] eqn:El; [|apply last_None in El; by rewrite El in Hf].
      assert (last new = Some e) as El'.
      { rewrite Hes, last_app in El. destruct (last new) as [x|] eqn:Ex; [done|].
        apply last_None in Ex. by rewrite Ex in Hnew. }
      assert (e ∈ ae_Entries args) as Hin by (by apply last_Some_elem_of).
      assert (le_Index e = ae_PrevLogIndex args + N.of_nat (length (ae_Entries args)))%N as Hi.
      { apply last_Some in El as [es' Hes']. rewrite Hes' in Hc |- *. apply contiguous_app in Hc as [_ Hc].
        apply contiguous_cons in Hc as [Hi _]. rewrite length_app. cbn. lia. }
      unfold log_end, req_end, lastIndexLocked, lastTermLocked, reconciled. rewrite Hf. cbn [entries].
      rewrite last_app, El', Hi. unfold last_term. by rewrite El. }
    unfold reconciled in He, Hw'. rewrite Hf in He, Hw'. rewrite He. split; [reflexivity|right].
    split; [done|]. intros Hun%Hnone. done.
  - split; [|by left]. destruct (last (ae_Entries args)) as [e|] eqn:El.
    + assert (under C (le_Index e, le_Term e) (log_end l)) as Hl.
      { specialize (Hd ltac:(destruct Hw; lia)). apply entry_under; [done|].
        rewrite Forall_forall in Hd. apply Hd. by apply last_Some_elem_of. }
      apply last_Some in El as [es' Hes']. rewrite Hes' in Hc. apply contiguous_app in Hc as [_ Hc].
      apply contiguous_cons in Hc as [Hi _].
      replace (req_end args) with (le_Index e, le_Term e); [done|]. unfold req_end.
      rewrite Hes', last_term_snoc, length_app, Hi. cbn. f_equal. lia.
    + apply last_None in El. unfold req_end. rewrite El, last_term_nil. cbn. rewrite N.add_0_r.
      destruct (decide (ae_PrevLogIndex args = 0%N)) as [Hz|].
      * rewrite Hz, (Hp0 Hz). by apply log_end_in_tree.
      * apply entry_under; [done|]. apply Ha. lia.
Qed.
