(* ===== verification/RaftSteps.v ===== *)
(** What one operation does to a node of a cluster that does not compact its logs: the
    path its log and its disk move along, the indexes known to be replicated, and the
    commit index. *)

From S2P Require Import Prelude Model RaftLog Storage Membership ConfigEntry Node Election.
From S2P Require Import ElectionFacts Apply SnapshotOps Replication ReplicationFacts Durability.
From S2P Require Import ElectionSafety ReadIndex LogChain LogMatching LogTree.

Section Steps.
Context {S : Type} `{StorageLaws S}.
Implicit Types n : RaftNode S.

Notation disk n := (ms_entries (view (storage n))).

(** The operations considered: no snapshots, and the peers only grow. *)
Definition plain_op (op : node_op) n : Prop :=
  match op with
  | OpInstallSnapshot _ | OpInstallSnapshotReply _ _ _ | OpCreateSnapshot _ _ => False
  | OpAppendEntriesReply peerID _ _ => peerID ∈ peerIDs n
  | OpSetTransport peers => peerIDs n ⊆ peers
  | _ => True
  end.

(** The log a leader has after storing a proposal. *)
Definition with_proposal (data : bytes) n : Log :=
  mkLog (entries (log n) ++ [mkLogEntry (u64_add (lastIndexLocked (log n)) 1) (currentTerm n) data])
    (lastIncludedIndex (log n)) (lastIncludedTerm (log n)).

Inductive moved n : node_op -> Log -> Prop :=
| moved_stays op : moved n op (log n)
| moved_request args :
    (currentTerm n <= ae_Term args)%N -> anchored args n ->
    moved n (OpAppendEntries args) (reconciled (log n) (ae_Entries args))
| moved_propose data :
    role n = Leader -> created_by (OpPropose data) n ≠ [] -> moved n (OpPropose data) (with_proposal data n).

Lemma moved_inv n op l :
  moved n op l ->
  l = log n \/
  (exists args, op = OpAppendEntries args /\ (currentTerm n <= ae_Term args)%N /\ anchored args n /\
     l = reconciled (log n) (ae_Entries args)) \/
  exists data, op = OpPropose data /\ role n = Leader /\ created_by op n ≠ [] /\ l = with_proposal data n.
Proof. intros Hm. destruct Hm; eauto 10. Qed.

(** The term an operation that moves the log runs in. *)
Definition op_term (op : node_op) n : Term :=
  match op with
  | OpAppendEntries args => ae_Term args
  | _ => currentTerm n
  end.

(** Applying entries that are no configuration entries. *)
Lemma applyCommitted_clean n :
  Forall config_free (entries (log n)) ->
  exists a ch, applyCommitted n = set_lastApplied a (set_applyCh ch n).
Proof.
  intros Hc. unfold applyCommitted. generalize (N.to_nat (commitIndex n - lastApplied n)). intros fuel.
  assert (forall a ch, exists a' ch', applyLoop fuel (set_lastApplied a (set_applyCh ch n)) =
    set_lastApplied a' (set_applyCh ch' n)) as Hall.
  { induction fuel as [|fuel IH]; intros a ch; cbn; [by exists a, ch|].
    destruct (applyOne_config_free (set_lastApplied a (set_applyCh ch n)) Hc)
      as [E|(a' & ch' & [E|E])]; rewrite E; [by exists a, ch|apply (IH a' ch')|apply (IH a ch')]. }
  destruct (Hall (lastApplied n) (applyCh n)) as (a & ch & E). exists a, ch. rewrite <- E. f_equal.
  by destruct n as [? [? [] ? ? ? ?]].
Qed.

(** Advancing the commit index, and applying. *)
Lemma advance_clean n :
  Forall config_free (entries (log n)) -> is_u64 (lastIndexLocked (log n) + 1)%N ->
  (commitIndex n <= lastIndexLocked (log n))%N ->
  exists c a ch, advanceCommitIndex n = set_lastApplied a (set_applyCh ch (set_commitIndex c n)) /\
    (c = commitIndex n \/
     role n = Leader /\ (commitIndex n < c <= lastIndexLocked (log n))%N /\ committable n c).
Proof.
  intros Hc Hu Hle. assert (n = set_lastApplied (lastApplied n) (set_applyCh (applyCh n) n)) as Hself
    by (by destruct n as [? [? [] ? ? ? ?]]).
  unfold advanceCommitIndex. destruct (decide (role n = Leader)) as [Hr|Hr].
  - destruct (advanceCommitIndexLocked_spec n Hu Hle Hr) as (c & -> & Hcase & _).
    assert ((exists a ch, (if (commitIndex n <? c)%N then applyCommitted (set_commitIndex c n)
      else set_commitIndex c n) = set_lastApplied a (set_applyCh ch (set_commitIndex c n)))) as (a & ch & E).
    { destruct (_ <? _)%N; [by apply applyCommitted_clean|]. exists (lastApplied n), (applyCh n).
      rewrite Hself at 1. done. }
    exists c, a, ch. split; [by destruct (_ <? _)%N|]. naive_solver.
  - unfold advanceCommitIndexLocked. rewrite bool_decide_true by done.
    exists (commitIndex n), (lastApplied n), (applyCh n). split; [|by left].
    rewrite set_commitIndex_same. exact Hself.
Qed.

Lemma reconcile_moved C args n n' o :
  whole C (log n) -> request_ok C args -> anchored args n ->
  reconcileReplicatedEntriesLocked (ae_Entries args) n = (n', o) ->
  (exists s, n' = set_log (log n') (set_storage s n)) /\
  ms_snapshot (view (storage n')) = ms_snapshot (view (storage n)) /\
  (log n' = log n \/ log n' = reconciled (log n) (ae_Entries args)) /\
  (o = None -> log n' = reconciled (log n) (ae_Entries args)) /\
  (faithful n -> disk n' = entries (log n) \/ disk n' = entries (reconciled (log n) (ae_Entries args))).
Proof.
  intros [Hok Hb0] (Hc & Hu & _) Ha E. pose proof (proj1 Hok) as Hwf.
  pose proof (prev_in_log n args Hwf Ha) as Hle.
  assert (Hrec : o = None -> log n' = reconciled (log n) (ae_Entries args)).
  { intros ->. assert (lastIncludedIndex (log n) <= ae_PrevLogIndex args <= lastIndexLocked (log n))%N as Hr by lia.
    destruct (reconcile_ok (ae_PrevLogIndex args) (ae_Entries args) n n' Hwf Hc Hr ltac:(lia) E) as [Hn _].
    by rewrite Hn. }
  unfold reconcileReplicatedEntriesLocked in E. unfold reconciled in *.
  assert (lastIncludedIndex (log n) <= ae_PrevLogIndex args)%N as Hb by lia.
  pose proof (firstDifference_spec _ _ _ Hwf Hc (conj Hb Hle)) as Hd.
  destruct (firstDifference (log n) (ae_Entries args)) as [[new rf]|] eqn:Hf.
  2: { injection E as <- <-. split_and!; try done; [|by left|by left]. exists (storage n). by destruct n. }
  destruct Hd as (pre & e0 & rest & Hes & Hnew & _ & Hcn & Hlen & Hlt & Hcs).
  pose proof (firstDifference_new _ _ _ _ Hf) as Hne.
  destruct (if (0 <? rf)%N then st_ReplaceSuffix _ _ _ else _) as [s1 [e|]] eqn:Hst.
  { injection E as <- <-. cbn. rewrite (store_new_err _ _ _ _ _ Hst). split_and!; try done; auto. by exists s1. }
  apply store_new in Hst as (Hdisk & Hsnap & _); [|done].
  destruct (st_Sync s1) as [s2 o2] eqn:Hy. apply sync_view in Hy.
  destruct o2 as [e|].
  { injection E as <- <-. cbn [storage set_storage log entries]. rewrite Hy. split_and!; try done; auto; [by exists s2|].
    intros Hfa. right. unfold faithful in Hfa. by rewrite Hdisk, !Hfa. }
  cbn [log set_storage] in E.
  destruct (kept_prefix (log n) e0 rf) as (Hwf1 & Hlast1 & He1 & Hi1 & Ht1 & _); [done|lia|naive_solver|].
  rewrite Hes, length_app in Hu.
  destruct (appendAll_spec (if (0 <? rf)%N then truncateFromLocked (log n) rf else log n) new)
    as [Hap _]; [done|by rewrite Hlast1|rewrite Hlast1; lia|].
  rewrite Hap in E. injection E as <- <-. cbn [storage set_storage set_log log entries]. rewrite Hy, Hdisk, He1, Hi1, Ht1.
  split_and!; try done; [by exists s2|by right|].
  intros Hfa. right. unfold faithful in Hfa. by rewrite !Hfa.
Qed.

(** ** [AppendEntries] *)

Lemma reconciled_free l es :
  Forall config_free (entries l) -> Forall config_free es -> Forall config_free (entries (reconciled l es)).
Proof.
  intros Hl Hes. unfold reconciled. destruct (firstDifference l es) as [[new rf]|] eqn:Hf; [|done].
  apply firstDifference_sub in Hf. cbn [entries]. apply Forall_app. split; [|by eapply Forall_sub].
  destruct (0 <? rf)%N; [|done]. eapply Forall_sub; [apply cutFrom_sub|done].
Qed.

(** The state of the leader, the peers and the snapshot stay. *)
Definition kept n n' : Prop :=
  LeaderSt (state n') = LeaderSt (state n) /\ peerIDs n' = peerIDs n /\ id n' = id n /\
  ms_snapshot (view (storage n')) = ms_snapshot (view (storage n)).

Definition append_outcome (args : AppendEntriesArgs) n n' (ok : bool) : Prop :=
  kept n n' /\
  (ok = true -> role n' = Follower /\ anchored args n /\ currentTerm n' = ae_Term args /\
     log n' = reconciled (log n) (ae_Entries args) /\
     commitIndex n' = followerCommit (commitIndex n) (ae_LeaderCommit args) (lastIndexLocked (log n'))) /\
  (ok = false -> commitIndex n' = commitIndex n) /\
  moved n (OpAppendEntries args) (log n') /\
  (log n' = log n \/ role n' = Follower /\ currentTerm n' = ae_Term args) /\
  (faithful n -> exists l', moved n (OpAppendEntries args) l' /\ disk n' = entries l' /\
     (l' = log n \/ currentTerm n' = ae_Term args)).

Lemma moved_same_log n n1 args l :
  log n1 = log n -> (currentTerm n <= ae_Term args)%N ->
  moved n1 (OpAppendEntries args) l -> moved n (OpAppendEntries args) l.
Proof.
  intros Hl Ht Hm. inversion Hm as [op Hop|? Ht1 Ha|]; subst; rewrite Hl; [apply moved_stays|].
  apply moved_request; [done|]. unfold anchored in *. by rewrite <- Hl.
Qed.

Lemma append_rejected args n : append_outcome args n n false.
Proof.
  split_and!; try done; [apply moved_stays|by left|]. intros ->. exists (log n).
  split_and!; [apply moved_stays|done|by left].
Qed.

(** The commit index of a follower, and what is applied. *)
Lemma commit_tail {A} (leaderCommit : LogIndex) n (r : A) :
  Forall config_free (entries (log n)) ->
  exists a ch,
    (if (commitIndex n <? leaderCommit)%N then
       let lastIndex := lastIndexLocked (log n) in
       let oldCommitIndex := commitIndex n in
       let n := if (leaderCommit <? lastIndex)%N then set_commitIndex leaderCommit n
                else set_commitIndex lastIndex n in
       if (oldCommitIndex <? commitIndex n)%N then (applyCommitted n, r) else (n, r)
     else (n, r)) =
    (set_lastApplied a (set_applyCh ch
       (set_commitIndex (followerCommit (commitIndex n) leaderCommit (lastIndexLocked (log n))) n)), r).
Proof.
  intros Hc. assert (forall m : RaftNode S, m = set_lastApplied (lastApplied m) (set_applyCh (applyCh m) m)) as Hself
    by (by intros [? [? [] ? ? ? ?]]).
  unfold followerCommit. destruct (N.ltb_spec (commitIndex n) leaderCommit).
  - set (c := N.min leaderCommit (lastIndexLocked (log n))).
    replace (if (leaderCommit <? _)%N then _ else _) with (set_commitIndex c n).
    2: { unfold c. destruct (N.ltb_spec leaderCommit (lastIndexLocked (log n))); do 2 f_equal; lia. }
    cbn zeta. destruct (_ <? commitIndex _)%N.
    + destruct (applyCommitted_clean (set_commitIndex c n) Hc) as (a & ch & ->). by exists a, ch.
    + exists (lastApplied n), (applyCh n). by rewrite (Hself (set_commitIndex c n)) at 1.
  - exists (lastApplied n), (applyCh n). by rewrite set_commitIndex_same, <- Hself.
Qed.

Lemma appendInTerm_outcome C args n n' reply :
  whole C (log n) -> Forall config_free (entries (log n)) -> request_ok C args ->
  currentTerm n = ae_Term args -> appendInTerm args n = (n', reply) ->
  append_outcome args n n' (aer_Success reply).
Proof.
  intros Hw Hcl Hreq Ht. unfold appendInTerm.
  destruct (if (0 <? ae_PrevLogIndex args)%N then _ else false) eqn:Hprev.
  { intros [= <- <-]. apply append_rejected. }
  pose proof (prev_check _ _ Hprev) as Ha. clear Hprev. cbn zeta.
  set (n1 := set_electionElapsed _ _).
  destruct (reconcileReplicatedEntriesLocked _ n1) as [n2 o] eqn:Hr.
  destruct (reconcile_moved C args n1 n2 o Hw Hreq Ha Hr) as ([s Hn2] & Hsn & Hl & Hln & Hd).
  assert (moved n (OpAppendEntries args) (reconciled (log n) (ae_Entries args))) as Hmv
    by (apply moved_request; [lia|done]).
  assert (forall l, l = log n \/ l = reconciled (log n) (ae_Entries args) -> moved n (OpAppendEntries args) l)
    as Hmoved by (intros l [->| ->]; [apply moved_stays|done]).
  assert (faithful n -> exists l', moved n (OpAppendEntries args) l' /\ disk n2 = entries l' /\
    (l' = log n \/ currentTerm n = ae_Term args)) as Hdisk.
  { intros Hf. destruct (Hd Hf) as [->| ->]; [exists (log n)|exists (reconciled (log n) (ae_Entries args))];
      split_and!; try done; [apply moved_stays|by left|by right]. }
  assert (kept n n2) as Hk by (split_and!; [by rewrite Hn2..|exact Hsn]).
  destruct o as [e|].
  - intros [= <- <-]. split_and!; try done; [|by apply Hmoved| |].
    + intros _. by rewrite Hn2.
    + right. by rewrite Hn2.
    + intros Hf. destruct (Hdisk Hf) as (l' & ? & ? & ?). exists l'. split_and!; try done. right. by rewrite Hn2.
  - specialize (Hln eq_refl).
    assert (Forall config_free (entries (log n2))) as Hcl2.
    { rewrite Hln. apply reconciled_free; [done|apply Hreq]. }
    destruct (commit_tail (ae_LeaderCommit args) n2 (mkAppendEntriesReply (currentTerm n) (id n) true) Hcl2)
      as (a & ch & Htail).
    assert (commitIndex n2 = commitIndex n) as Hcm by (by rewrite Hn2).
    intros E. pose proof (eq_trans (eq_sym Htail) E) as E'. injection E' as <- <-. clear E Htail. split_and!; try done; cbn [aer_Success].
    + intros _. split_and!; try done; [by rewrite Hn2|by rewrite Hn2|].
      by rewrite <- Hcm.
    + by apply Hmoved.
    + right. by rewrite Hn2.
    + intros Hf. destruct (Hdisk Hf) as (l' & ? & ? & ?). exists l'. split_and!; try done. right. by rewrite Hn2.
Qed.

Lemma AppendEntries_outcome C args n n' reply :
  whole C (log n) -> Forall config_free (entries (log n)) -> request_ok C args ->
  AppendEntries args n = (n', reply) -> append_outcome args n n' (aer_Success reply).
Proof.
  intros Hw Hcl Hreq. unfold AppendEntries.
  destruct (N.ltb_spec (ae_Term args) (currentTerm n)); [intros [= <- <-]; apply append_rejected|].
  destruct (N.ltb_spec (currentTerm n) (ae_Term args)).
  2: { apply appendInTerm_outcome with C; try done. lia. }
  destruct (adoptTerm (ae_Term args) n) as [n1 b] eqn:Ha.
  assert (kept n n1 /\ log n1 = log n /\ commitIndex n1 = commitIndex n /\ disk n1 = disk n /\
    (b = true -> currentTerm n1 = ae_Term args)) as (Hk & Hl & Hc & Hd & Ht).
  { pose proof Ha as Ha'. apply adoptTerm_cases in Ha' as (? & ? & ? & ? & ? & Ht). split_and!; try done; [|naive_solver].
    unfold adoptTerm in Ha. destruct (saveAndSync _ _) as [s [e|]]; injection Ha as <- <-; done. }
  destruct b.
  - rewrite <- Hl in Hw, Hcl. intros E.
    destruct (appendInTerm_outcome C args n1 n' reply Hw Hcl Hreq (Ht eq_refl) E) as (Hk' & Hok & Hno & Hm & Hlg & Hdk).
    unfold append_outcome. split_and!.
    + unfold kept in *. destruct_and!. split_and!; congruence.
    + intros Ho. destruct (Hok Ho) as (? & Han & ? & ? & ?). unfold anchored in *. rewrite <- Hl, <- Hc. by split_and!.
    + intros Ho. rewrite <- Hc. by apply Hno.
    + by eapply moved_same_log; [..|done]; [done|lia].
    + rewrite <- Hl. exact Hlg.
    + intros Hf. destruct Hdk as (l' & Hm' & Hd' & Hc'). { unfold faithful in *. by rewrite Hd, Hl. }
      exists l'. split_and!; [|done|by rewrite <- Hl]. by eapply moved_same_log; [..|done]; [done|lia].
  - intros [= <- <-]. unfold append_outcome. rewrite Hl. split_and!; try done; [apply moved_stays|by left|].
    intros Hf. exists (log n). split_and!; [apply moved_stays|by rewrite Hd|by left].
Qed.

(** ** All operations *)

(** The reply credits [peerID] with the entries up to [k]. *)
Definition credited (op : node_op) n (peerID : NodeID) (k : LogIndex) : Prop :=
  exists args reply e, op = OpAppendEntriesReply peerID args reply /\ aer_Success reply = true /\
    ae_Term args = currentTerm n /\ last (ae_Entries args) = Some e /\ k = le_Index e.

Record progress n (op : node_op) n' : Prop := mkProgress {
  pg_moved : moved n op (log n');
  pg_term : log n' = log n \/ currentTerm n' = op_term op n;
  pg_role : log n' = log n \/ role n' = Follower \/ role n = Leader /\ created_by op n ≠ [];
  pg_snapshot : ms_snapshot (view (storage n')) = ms_snapshot (view (storage n));
  pg_peers : peerIDs n ⊆ peerIDs n';
  pg_match p : matchIndexOf n' p = matchIndexOf n p \/
    role n = Leader /\ currentTerm n' = currentTerm n /\ credited op n p (matchIndexOf n' p);
  pg_commit : commitIndex n' = commitIndex n \/
    role n' = Leader /\ (commitIndex n < commitIndex n' <= lastIndexLocked (log n'))%N /\
      committable n' (commitIndex n') \/
    exists args, (op = OpAppendEntries args \/ op = OpReadHeartbeat args) /\
      aer_Success (snd (AppendEntries args n)) = true /\ role n' = Follower /\
      commitIndex n' = followerCommit (commitIndex n) (ae_LeaderCommit args) (lastIndexLocked (log n'));
  pg_disk : faithful n -> exists l', moved n op l' /\ disk n' = entries l' /\
    (l' = log n \/ currentTerm n' = op_term op n);
}.

(** Operations that keep log and storage and touch no index but the commit index. *)
Lemma progress_still n op n' :
  quiet n n' -> peerIDs n ⊆ peerIDs n' ->
  (forall p, matchIndexOf n' p = matchIndexOf n p \/
    role n = Leader /\ currentTerm n' = currentTerm n /\ credited op n p (matchIndexOf n' p)) ->
  (commitIndex n' = commitIndex n \/
    role n' = Leader /\ (commitIndex n < commitIndex n' <= lastIndexLocked (log n'))%N /\
      committable n' (commitIndex n')) -> progress n op n'.
Proof.
  intros (Hl & Hd & Hs) Hp Hm Hc. split; try done.
  - rewrite Hl. apply moved_stays.
  - by left.
  - by left.
  - destruct Hc as [?|?]; auto.
  - intros Hf. exists (log n). split_and!; [apply moved_stays|by rewrite Hd|by left].
Qed.

Lemma progress_frame n op n' :
  quiet n n' -> peerIDs n ⊆ peerIDs n' -> LeaderSt (state n') = LeaderSt (state n) ->
  commitIndex n' = commitIndex n -> progress n op n'.
Proof.
  intros Hq Hp Hl Hc. apply progress_still; auto. intros p. left. unfold matchIndexOf. by rewrite Hl.
Qed.

Lemma advance_progress n n1 op :
  Forall config_free (entries (log n1)) -> is_u64 (lastIndexLocked (log n1) + 1)%N ->
  (commitIndex n1 <= lastIndexLocked (log n1))%N ->
  quiet n n1 -> peerIDs n ⊆ peerIDs n1 -> commitIndex n1 = commitIndex n ->
  (forall p, matchIndexOf n1 p = matchIndexOf n p \/
    role n = Leader /\ currentTerm n1 = currentTerm n /\ credited op n p (matchIndexOf n1 p)) ->
  progress n op (advanceCommitIndex n1).
Proof.
  intros Hcl Hu Hle Hq Hp Hc Hm. destruct (advance_clean n1 Hcl Hu Hle) as (c & a & ch & -> & Hcase).
  apply progress_still; try done. destruct Hcase as [->|(Hr & Hlt & Hcom)]; [by left|right].
  rewrite <- Hc. done.
Qed.

Lemma adoptTerm_frame t n :
  peerIDs (fst (adoptTerm t n)) = peerIDs n /\ LeaderSt (state (fst (adoptTerm t n))) = LeaderSt (state n) /\
  commitIndex (fst (adoptTerm t n)) = commitIndex n.
Proof. unfold adoptTerm. by destruct (saveAndSync _ _) as [s [e|]]. Qed.

Lemma reply_progress peerID args reply n :
  Forall config_free (entries (log n)) -> is_u64 (lastIndexLocked (log n) + 1)%N ->
  (commitIndex n <= lastIndexLocked (log n))%N ->
  progress n (OpAppendEntriesReply peerID args reply) (handleAppendEntriesReply peerID args reply n).
Proof.
  intros Hcl Hu Hle. pose proof (handleAppendEntriesReply_quiet peerID args reply n) as Hq.
  unfold handleAppendEntriesReply in *. destruct (N.ltb_spec (currentTerm n) (aer_Term reply)).
  { destruct (adoptTerm_frame (aer_Term reply) n) as (Hp & Hl & Hc). apply progress_frame; try done. by rewrite Hp. }
  case_bool_decide as Hr; [by apply progress_frame|].
  destruct (N.eqb_spec (ae_Term args) (currentTerm n)) as [Ht|]; cbn [negb] in *; [|by apply progress_frame].
  destruct (aer_Success reply) eqn:Hok; cbn [negb] in *.
  2: { destruct (_ <? _)%N; [|by apply progress_frame]. apply progress_still; try done; [by left|by left]. }
  destruct (last (ae_Entries args)) as [e|] eqn:El; [|by apply progress_frame].
  refine (advance_progress n _ _ _ _ _ _ _ _ _); try (by destruct (_ <? _)%N).
  intros p. destruct (_ <? _)%N; [|by left]. destruct (decide (p = peerID)) as [->|Hne].
  - right. split_and!; [by destruct (role n)|done|]. exists args, reply, e. split_and!; try done.
    unfold matchIndexOf. cbn. by rewrite lookup_insert_eq.
  - left. unfold matchIndexOf. cbn. by rewrite lookup_insert_ne.
Qed.

Lemma append_progress C args n :
  whole C (log n) -> Forall config_free (entries (log n)) -> request_ok C args ->
  progress n (OpAppendEntries args) (fst (AppendEntries args n)).
Proof.
  intros Hw Hcl Hreq. destruct (AppendEntries args n) as [n' reply] eqn:E.
  destruct (AppendEntries_outcome C args n n' reply Hw Hcl Hreq E)
    as ((Hls & Hp & _ & Hsn) & Hok & Hno & Hm & Hl & Hd).
  cbn [fst]. split; try done.
  - by destruct Hl as [?|[_ ?]]; [left|right].
  - by destruct Hl as [?|[? _]]; [left|right; left].
  - by rewrite Hp.
  - intros p. left. unfold matchIndexOf. by rewrite Hls.
  - destruct (aer_Success reply) eqn:Ho; [|left; auto].
    destruct (Hok eq_refl) as (Hr & _ & _ & _ & Hc). right; right. exists args. rewrite E. split_and!; auto.
Qed.

(** A heartbeat of a read moves no log. *)
Lemma read_progress C args n :
  whole C (log n) -> Forall config_free (entries (log n)) -> request_ok C args -> ae_Entries args = [] ->
  progress n (OpReadHeartbeat args) (fst (AppendEntries args n)).
Proof.
  intros Hw Hcl Hreq Hnil. destruct (append_progress C args n Hw Hcl Hreq) as [Hm _ _ Hsn Hp Hmt Hc Hd].
  assert (forall l, moved n (OpAppendEntries args) l -> l = log n) as Hstay.
  { intros l [->|[(a & [= <-] & _ & _ & ->)|(data & [=] & _)]]%moved_inv; [done|].
    unfold reconciled. by rewrite Hnil. }
  pose proof (Hstay _ Hm) as Hl. split; try done; [|by left|by left| | |].
  - rewrite Hl. apply moved_stays.
  - intros p. destruct (Hmt p) as [?|(_ & _ & a & r & e & [=] & _)]. by left.
  - destruct Hc as [?|[?|(a & [[= <-]|[=]] & ? & ? & ?)]]; auto. right; right. exists args. auto.
  - intros Hf. destruct (Hd Hf) as (l & ->%Hstay & ? & _). exists (log n).
    split_and!; [apply moved_stays|done|by left].
Qed.

Lemma read_reply_progress m term commit acks peerID reply n :
  progress n (OpReadReply m term commit acks peerID reply)
    (fst (readIndexHandle m term commit acks peerID (Ok reply) n)).
Proof.
  pose proof (readIndexHandle_quiet m term commit acks peerID (Ok reply) n) as Hq.
  apply progress_frame; [done|..]; unfold readIndexHandle, becomeFollowerLocked; repeat case_match; simplify_eq; done.
Qed.

(** A follower that accepts holds the log of the request. *)
Lemma append_success C args n :
  tree_ok C -> whole C (log n) -> Forall config_free (entries (log n)) -> request_ok C args ->
  aer_Success (snd (AppendEntries args n)) = true ->
  currentTerm (fst (AppendEntries args n)) = ae_Term args /\
  under C (req_end args) (log_end (log (fst (AppendEntries args n)))).
Proof.
  intros Htree Hw Hcl Hreq. destruct (AppendEntries args n) as [n' reply] eqn:E. cbn [fst snd]. intros Hs.
  destruct (AppendEntries_outcome C args n n' reply Hw Hcl Hreq E) as (_ & Hok & _).
  destruct (Hok Hs) as (_ & Ha & Ht & Hl & _). split; [done|]. rewrite Hl.
  apply (reconciled_path C (log n) args); try done. apply (prev_in_log n args); [apply Hw|done].
Qed.

(** The log after [Propose]. *)
Lemma propose_progress data n :
  Forall config_free (entries (log n)) -> IsConfigurationEntry data = false -> log_wf (log n) ->
  is_u64 (lastIndexLocked (log n) + 3)%N -> (commitIndex n <= lastIndexLocked (log n))%N ->
  progress n (OpPropose data) (fst (proposeLocked data n)).
Proof.
  intros Hcl Hdata Hwf Hu Hle. unfold proposeLocked. destruct (decide (role n = Leader)) as [Hr|Hr].
  2: { rewrite bool_decide_true by done. by apply progress_frame. }
  rewrite bool_decide_false by congruence.
  set (entry := mkLogEntry _ _ _).
  destruct (st_AppendEntries _ _) as [s1 [e|]] eqn:E.
  { apply append_err_view in E. apply progress_frame; try done. split_and!; cbn; by rewrite ?E. }
  destruct (store_new (storage n) 0 [entry] s1 ltac:(done) E) as (Hd & Hsn & _). cbn in Hd.
  assert (created_by (OpPropose data) n ≠ []) as Hcb.
  { cbn [created_by]. rewrite bool_decide_true by done. fold entry. by rewrite E. }
  assert (moved n (OpPropose data) (with_proposal data n)) as Hmv by (by apply moved_propose).
  destruct (st_Sync s1) as [s2 o2] eqn:E2. apply sync_view in E2.
  assert (forall n', storage n' = s2 -> LeaderSt (state n') = LeaderSt (state n) -> peerIDs n' = peerIDs n ->
    currentTerm n' = currentTerm n -> log n' = log n \/ log n' = with_proposal data n ->
    (commitIndex n' = commitIndex n \/
     role n' = Leader /\ (commitIndex n < commitIndex n' <= lastIndexLocked (log n'))%N /\
       committable n' (commitIndex n')) -> progress n (OpPropose data) n') as Hall.
  { intros n' Hst Hls Hp Ht Hl Hc. split; try done.
    - destruct Hl as [->| ->]; [apply moved_stays|done].
    - by right.
    - right; by right.
    - by rewrite Hst, E2.
    - by rewrite Hp.
    - intros p. left. unfold matchIndexOf. by rewrite Hls.
    - destruct Hc as [?|?]; auto.
    - intros Hf. exists (with_proposal data n). split_and!; [done| |by right].
      by rewrite Hst, E2, Hd, Hf. }
  destruct o2 as [e|]; cbn [fst].
  { destruct (errors_Is _ _); apply Hall; try done; by left. }
  cbn [log set_storage].
  assert (le_Index entry = lastIndexLocked (log n) + 1)%N as Hidx by (cbn; rewrite u64_add_small; [done|lia]).
  assert (Append (log n) entry = Ok (with_proposal data n)) as Hap by (apply Append_accepts; [lia|done]).
  rewrite Hap. set (n1 := set_log _ _).
  destruct (Append_ok _ _ _ Hwf ltac:(lia) Hap) as (_ & _ & Hwf').
  assert (lastIndexLocked (log n1) = lastIndexLocked (log n) + 1)%N as Hlast.
  { unfold lastIndexLocked at 1. cbn. by rewrite last_snoc. }
  destruct (advanceCommitIndexLocked_spec n1) as (c & -> & Hcase & _);
    [rewrite Hlast; lia|rewrite Hlast; change (commitIndex n1) with (commitIndex n); lia|done|].
  apply Hall; try done; [by right|]. destruct Hcase as [->|[Hlt Hcom]]; [by left|right; exact (conj Hr (conj Hlt Hcom))].
Qed.

(** What the model asks of an operation. *)
Definition step_ok (C : list creation) (op : node_op) n : Prop :=
  plain_op op n /\
  match op with
  | OpAppendEntries args => request_ok C args
  | OpPropose data => IsConfigurationEntry data = false /\ is_u64 (lastIndexLocked (log n) + 3)%N
  | OpReadHeartbeat args => request_ok C args /\ ae_Entries args = []
  | OpReadReply _ term _ _ _ reply => timely term reply n
  | _ => True
  end.

Lemma run_op_progress C op n :
  whole C (log n) -> Forall config_free (entries (log n)) -> (commitIndex n <= lastIndexLocked (log n))%N ->
  step_ok C op n -> progress n op (run_op op n).
Proof.
  intros Hw Hcl Hle [Hpl Hop]. pose proof Hw as [(Hwf & Hu & _) _]. destruct op; cbn [run_op]; try done.
  - by eapply append_progress.
  - apply reply_progress; try done. lia.
  - by apply propose_progress; try apply Hop.
  - destruct (applyCommitted_clean n Hcl) as (a & ch & ->). by apply progress_frame.
  - apply advance_progress; try done; [lia|by left].
  - unfold tick. repeat case_match; by apply progress_frame.
  - unfold heartbeatDue. repeat case_match; by apply progress_frame.
  - by apply progress_frame.
  - by apply progress_frame.
  - unfold RegisterPeer. repeat case_bool_decide; try (by apply progress_frame).
    apply progress_frame; try done. cbn. set_solver.
  - by eapply read_progress; try apply Hop.
  - apply read_reply_progress.
Qed.

(** ** Requests *)

Lemma whole_log_end C l : whole C l -> log_end l = (N.of_nat (length (entries l)), last_term 0 (entries l)).
Proof.
  intros Hw. unfold log_end. by rewrite (whole_last _ _ Hw), lastTermLocked_last, (whole_term _ _ Hw).
Qed.

(** A request without entries is anchored at the end of the leader's log. *)
Lemma build_empty C n peerID args :
  whole C (log n) -> is_u64 (default 0%N (nextIndexOf n peerID)) ->
  buildAppendEntries n peerID = Some args -> ae_Entries args = [] ->
  (ae_PrevLogIndex args, ae_PrevLogTerm args) = log_end (log n).
Proof.
  intros Hw Hu E Hnil. rewrite (whole_log_end _ _ Hw). pose proof Hw as [(Hwf & Hul & _) H0'].
  pose proof (whole_last _ _ Hw) as Hlast. unfold buildAppendEntries in E. case_bool_decide; [done|].
  destruct (nextIndexOf n peerID) as [next|]; [|done]. change (default 0%N (Some next)) with next in Hu.
  destruct (if (1 <? next)%N then _ else _) as [[pi pt]|] eqn:Hp; [|done].
  destruct (collectEntries _ _ _) as [es|] eqn:Hc; [|done]. injection E as <-. cbn in Hnil |- *. subst es.
  assert (lastIndexLocked (log n) + 1 <= next)%N as Hge.
  { destruct (N.to_nat (lastIndexLocked (log n) + 1 - next)) as [|k] eqn:Hk; [lia|]. cbn in Hc.
    destruct (getLocked (log n) next); [|done]. by destruct (collectEntries (log n) k _). }
  destruct (N.ltb_spec 1 next).
  - rewrite u64_sub_small in Hp by (done || lia).
    destruct (getLocked (log n) (next - 1)) as [e|] eqn:Hg; [|done]. injection Hp as <- <-.
    assert (is_Some (getLocked (log n) (next - 1))) as Hr%(getLocked_range _ _ Hwf) by eauto.
    assert (next - 1 = lastIndexLocked (log n))%N as Hn by lia.
    assert (term_at (log n) (next - 1) = Some (le_Term e)) as Ht by (unfold term_at; by rewrite Hg).
    rewrite (term_at_prefix C) in Ht by (done || lia). injection Ht as <-.
    rewrite Hn, Hlast, Nat2N.id, firstn_all. done.
  - injection Hp as <- <-. assert (length (entries (log n)) = 0) as Hz by lia. rewrite Hz.
    apply nil_length_inv in Hz. by rewrite Hz.
Qed.

(** A request of a leader ends where its log ends. *)
Lemma build_end C n peerID args :
  whole C (log n) -> Forall config_free (entries (log n)) -> is_u64 (default 0%N (nextIndexOf n peerID)) ->
  buildAppendEntries n peerID = Some args ->
  role n = Leader /\ ae_Term args = currentTerm n /\ ae_LeaderCommit args = commitIndex n /\
  request_ok C args /\ req_end args = log_end (log n).
Proof.
  intros Hw Hcl Hu E.
  assert (role n = Leader /\ ae_Term args = currentTerm n /\ ae_LeaderCommit args = commitIndex n) as (Hr & Ht & Hc).
  { unfold buildAppendEntries in E. case_bool_decide as Hr; [done|].
    destruct (nextIndexOf n peerID) as [next|]; [|done].
    destruct (if (1 <? next)%N then _ else _) as [[pi pt]|]; [|done].
    destruct (collectEntries _ _ _) as [es|]; [|done]. injection E as <-. done. }
  split_and!; try done.
  all: destruct (decide (ae_Entries args = [])) as [Hnil|Hne].
  - pose proof (build_empty _ _ _ _ Hw Hu E Hnil) as Hp. rewrite (whole_log_end _ _ Hw) in Hp. injection Hp as Hpi Hpt.
    unfold request_ok. rewrite Hnil, Hpi, Hpt. pose proof (whole_last _ _ Hw). destruct Hw as [(_ & Hul & _) _].
    split_and!; [apply contiguous_nil|cbn; lia| |done|by apply Forall_nil].
    intros Hz. apply (f_equal N.to_nat) in Hz. rewrite Nat2N.id in Hz. by apply nil_length_inv in Hz as ->.
  - by destruct (buildAppendEntries_request C n peerID args (proj1 Hw) Hcl E).
  - rewrite <- (build_empty _ _ _ _ Hw Hu E Hnil). unfold req_end. rewrite Hnil, last_term_nil. cbn. f_equal. lia.
  - destruct (buildAppendEntries_suffix C n peerID args (proj1 Hw) E Hne) as (Hb & Hes & _).
    rewrite (whole_log_end _ _ Hw). pose proof (whole_last _ _ Hw) as Hlast. rewrite Hlast, (proj2 Hw), N.sub_0_r in *.
    unfold req_end. f_equal.
    + rewrite Hes, length_drop. lia.
    + destruct (last (ae_Entries args)) as [e|] eqn:El; [|by apply last_None in El].
      unfold last_term. rewrite El. rewrite Hes in El.
      by rewrite <- (take_drop (N.to_nat (ae_PrevLogIndex args)) (entries (log n))), last_app, El.
Qed.

Lemma voteRequest_end n args :
  voteRequest n = Some args ->
  role n = Candidate /\ rv_Term args = currentTerm n /\ rv_CandidateID args = id n /\
  (rv_LastLogIndex args, rv_LastLogTerm args) = log_end (log n).
Proof.
  unfold voteRequest. destruct (bool_decide (role n ≠ Candidate)) eqn:Hr; cbn [orb]; [done|].
  destruct (negb _); [done|]. intros [= <-]. apply bool_decide_eq_false, dec_stable in Hr. by split_and!.
Qed.

(** ** Votes and restarts *)

(** The indexes and the peers stay. *)
Definition idle n n' : Prop :=
  LeaderSt (state n') = LeaderSt (state n) /\ peerIDs n' = peerIDs n /\ commitIndex n' = commitIndex n.

Lemma startElection_idle n : idle n (fst (startElection n)).
Proof.
  unfold startElection. destruct (negb _); [done|]. destruct (storageWriteBlocked n); [done|].
  by destruct (saveAndSync _ _) as [s [e|]].
Qed.

Lemma startElection_term n n' t :
  is_u64 (currentTerm n + 1)%N -> startElection n = (n', Ok t) -> currentTerm n' = (currentTerm n + 1)%N.
Proof.
  intros Hu. unfold startElection. destruct (negb _); [done|]. destruct (storageWriteBlocked n); [done|].
  rewrite u64_add_small by done. destruct (saveAndSync _ _) as [s [e|]]; [done|]. by intros [= <- _].
Qed.

Lemma voteInCurrentTerm_grants args n n' reply :
  voteInCurrentTerm args n = (n', reply) ->
  idle n n' /\ currentTerm n' = currentTerm n /\
  (rvr_VoteGranted reply = true ->
   rvr_Term reply = currentTerm n /\ at_least_as_recent (log n) (rv_LastLogIndex args) (rv_LastLogTerm args)).
Proof.
  unfold voteInCurrentTerm. destruct (negb _); [by intros [= <- <-]|]. destruct (_ && _); [by intros [= <- <-]|].
  destruct (isCandidateLogUpToDate _ _ _) eqn:Hup; cbn [negb]; [|by intros [= <- <-]].
  apply isCandidateLogUpToDate_spec in Hup.
  destruct (saveAndSync _ _) as [s [e|]]; by intros [= <- <-].
Qed.

Lemma RequestVote_grants args n n' reply :
  RequestVote args n = (n', reply) ->
  idle n n' /\
  (rvr_VoteGranted reply = true ->
   rvr_Term reply = rv_Term args /\ currentTerm n' = rv_Term args /\ (currentTerm n <= rv_Term args)%N /\
   at_least_as_recent (log n) (rv_LastLogIndex args) (rv_LastLogTerm args)).
Proof.
  unfold RequestVote. destruct (N.ltb_spec (rv_Term args) (currentTerm n)); [by intros [= <- <-]|].
  destruct (N.ltb_spec (currentTerm n) (rv_Term args)).
  - pose proof (adoptTerm_frame (rv_Term args) n) as Hf. destruct (adoptTerm (rv_Term args) n) as [n1 b] eqn:Ha.
    apply adoptTerm_cases in Ha as (Hl & _ & _ & _ & _ & Ht). cbn in Hf. destruct Hf as (Hp & Hls & Hc).
    destruct b; [|intros [= <- <-]; by split_and!]. destruct (Ht eq_refl) as [Ht1 _].
    intros ((Hls' & Hp' & Hc') & Ht' & Hg)%voteInCurrentTerm_grants. rewrite Hl, Ht1 in Hg. split.
    + split_and!; congruence.
    + intros [? ?]%Hg. split_and!; [done|congruence|lia|done].
  - assert (rv_Term args = currentTerm n) as -> by lia.
    intros (Hi & Ht & Hg)%voteInCurrentTerm_grants. split; [done|]. intros [? ?]%Hg. by split_and!.
Qed.

Lemma handleVoteReply_idle t reply n : idle n (handleVoteReply t reply n).
Proof.
  unfold handleVoteReply. destruct (_ <? _)%N.
  - pose proof (adoptTerm_frame (rvr_Term reply) n) as (? & ? & ?). by destruct (adoptTerm _ n) as [n1 []].
  - by repeat case_match.
Qed.

(** A new leader knows of no replicated entry. *)
Lemma becomeLeader_match n p :
  matchIndexOf (becomeLeaderLocked n) p = if bool_decide (p ∈ peerIDs n) then 0%N else matchIndexOf n p.
Proof.
  unfold becomeLeaderLocked. cbn zeta. set (n1 := set_heartbeatElapsed _ _).
  change (matchIndexOf n p) with (matchIndexOf n1 p). change (peerIDs n) with (peerIDs n1).
  generalize (peerIDs n1). intros ps. generalize n1. clear n1. induction ps as [|q ps IH]; intros k; cbn [fold_left].
  { by rewrite bool_decide_false by set_solver. }
  rewrite IH. destruct (decide (p = q)) as [->|Hne].
  - rewrite (bool_decide_true (q ∈ q :: ps)) by set_solver.
    assert (matchIndexOf (initializeReplicationStateLocked q k) q = 0%N) as ->; [|by case_bool_decide].
    unfold matchIndexOf. cbn. by rewrite lookup_insert_eq.
  - assert (matchIndexOf (initializeReplicationStateLocked q k) p = matchIndexOf k p) as ->.
    { unfold matchIndexOf. cbn. by rewrite lookup_insert_ne. }
    by rewrite (bool_decide_ext (p ∈ q :: ps) (p ∈ ps)) by set_solver.
Qed.

Lemma restart_plain C i s n' l :
  whole C l -> ms_entries (view s) = entries l -> ms_snapshot (view s) = None ->
  NewRaftNodeWithStorage i s = Ok n' ->
  log n' = l /\ commitIndex n' = 0%N /\ peerIDs n' = [] /\ forall p, matchIndexOf n' p = 0%N.
Proof.
  intros Hw He Hs. pose proof (whole_term _ _ Hw) as Ht. destruct Hw as [(Hwf & Hu & _) Hb].
  unfold NewRaftNodeWithStorage. intros (p & _ & E)%bind_Ok.
  apply bind_Ok in E as (es & Hes%wrap_err_Ok & E). apply LoadEntries_law in Hes as ->.
  apply bind_Ok in E as (sn & Hsn%wrap_err_Ok & E). apply LoadSnapshot_law in Hsn.
  unfold mem_LoadSnapshot in Hsn. rewrite Hs in Hsn. injection Hsn as <-. cbn [snap_LastIncludedIndex] in E.
  rewrite lastIndexLocked_spec, Hb in Hu by done. destruct Hwf as [Hc _]. rewrite Hb in Hc.
  apply bind_Ok in E as (l1 & Hl & E). rewrite He, restoreEntries_app in Hl; [|apply NewLog_wf|done|cbn in *; lia].
  injection Hl as <-. apply bind_Ok in E as (l2 & Hl2 & E). injection Hl2 as <-. injection E as <-. cbn.
  split_and!; try done. destruct l as [es b t]. cbn in *. by subst.
Qed.
End Steps.
