(* ===== verification/RaftHistory.v ===== *)
(** The history of a cluster, and why committed entries stay.

    A history lists what the nodes of a cluster have done: the entries created, the votes
    cast, the elections begun and won, the requests sent, the requests answered and the
    commit indexes leaders have advanced to.  Positions are those of [LogTree].
    [history_ok] collects what is true of the history of every run; from it alone follow
    leader completeness ([complete]) and the order of all committed positions
    ([committed_order]).  That runs keep [history_ok] is shown in [StateMachineSafety]. *)

From S2P Require Import Prelude Model RaftLog Storage Membership ConfigEntry Node Election.
From S2P Require Import ElectionFacts Apply SnapshotOps Replication ReplicationFacts Durability.
From S2P Require Import ElectionSafety ReadIndex LogChain LogTree.

Record history := mkHistory {
  h_created : list creation;
  (** votes, as (term, voter, candidate) *)
  h_ballots : list (Term * NodeID * NodeID);
  h_won : list (Term * NodeID);
  (** elections begun, with the end of the candidate's log *)
  h_camps : list (Term * NodeID * pos);
  h_votereqs : list RequestVoteArgs;
  h_sent : list AppendEntriesArgs;
  (** heartbeats of reads, with the log of the leader that sent them *)
  h_beats : list (AppendEntriesArgs * Log);
  (** requests handled, with the node that handled them *)
  h_answers : list (NodeID * AppendEntriesArgs * AppendEntriesReply);
  (** commit indexes advanced to by leaders, with the end of the leader's log *)
  h_commits : list (Term * NodeID * LogIndex * pos);
}.

(** The leader of term [T] began with a log that ends at [E]. *)
Definition elected (h : history) (T : Term) (E : pos) : Prop :=
  exists L, (T, L) ∈ h_won h /\ (T, L, E) ∈ h_camps h.

(** In term [t] node [v] held the path to [y]: it accepted a request, or committed. *)
Definition acked (h : history) (t : Term) (v : NodeID) (y : pos) : Prop :=
  (exists args reply, (v, args, reply) ∈ h_answers h /\ aer_Success reply = true /\
     ae_Term args = t /\ req_end args = y) \/
  exists c, (t, v, c, y) ∈ h_commits h.

(** The log of the leader of term [t] ended at [y] at some point. *)
Definition tip (h : history) (t : Term) (y : pos) : Prop :=
  (exists args, args ∈ h_sent h /\ ae_Term args = t /\ req_end args = y) \/
  exists i c, (t, i, c, y) ∈ h_commits h.

(** A leader of a term between [t] and [T] began without [x]. *)
Definition dropped (h : history) (t T : Term) (x : pos) : Prop :=
  exists T' E, elected h T' E /\ (t < T' < T)%N /\ ~ under (h_created h) x E.

(** What was held at [y] in term [t] is held at [e], up to what leaders before [T] dropped. *)
Definition retains (h : history) (t : Term) (y : pos) (T : Term) (e : pos) : Prop :=
  forall x, under (h_created h) x y -> under (h_created h) x e \/ dropped h t T x.

(** The comparison of [isCandidateLogUpToDate]. *)
Definition up_to_date (e E : pos) : Prop := (e.2 < E.2)%N \/ e.2 = E.2 /\ (e.1 <= E.1)%N.

(** A vote of [v] in term [T] for a candidate whose log ends at [E], by a log that ended
    at an [e] not past [E] and held all that [v] had acknowledged. *)
Definition vote_fact (h : history) (T : Term) (v : NodeID) (E : pos) : Prop :=
  exists e, under (h_created h) root e /\ up_to_date e E /\
    forall t y, acked h t v y -> (t < T)%N -> retains h t y T e.

(** A position a leader of a term up to [T] has committed. *)
Definition committed (h : history) (T : Term) (x : pos) : Prop :=
  x = root \/ exists t i c F, (t, i, c, F) ∈ h_commits h /\ (t <= T)%N /\ under (h_created h) x (c, t).

Lemma committed_under h T x y :
  tree_ok (h_created h) -> under (h_created h) y x -> committed h T x -> committed h T y.
Proof.
  intros Htree Hu [->|(t & i & c & F & Hin & Ht & Hx)]; [left; by eapply under_root|right].
  exists t, i, c, F. split_and!; [done|done|by etrans].
Qed.

(** ** What holds of every element *)

Definition camp_ok (h : history) (T : Term) (i : NodeID) (E : pos) : Prop :=
  under (h_created h) root E /\ (E.2 < T)%N /\ (T, i, i) ∈ h_ballots h.

Definition ballot_ok (h : history) (T : Term) (v c : NodeID) : Prop :=
  exists E, (T, c, E) ∈ h_camps h /\ ((exists L, (T, L) ∈ h_won h) \/ vote_fact h T v E).

Definition won_ok (m : Membership) (h : history) (T : Term) (L : NodeID) : Prop :=
  exists E Q, (T, L, E) ∈ h_camps h /\ membershipHasQuorum m Q = true /\
    forall v, v ∈ Q -> (T, v, L) ∈ h_ballots h /\ vote_fact h T v E.

Definition created_ok (h : history) (a : creation) : Prop :=
  exists E, elected h (cr_Term a) E /\ under (h_created h) E (cpos a).

Definition sent_ok (h : history) (args : AppendEntriesArgs) : Prop :=
  request_ok (h_created h) args /\
  exists x, x.1 = ae_LeaderCommit args /\ committed h (ae_Term args) x /\
    under (h_created h) x (req_end args).

Definition beat_ok (h : history) (args : AppendEntriesArgs) (l : Log) : Prop :=
  request_ok (h_created h) args /\ ae_Entries args = [] /\ whole (h_created h) l /\
  exists x, x.1 = ae_LeaderCommit args /\ committed h (ae_Term args) x /\
    under (h_created h) x (log_end l).

Definition tip_ok (h : history) (t : Term) (y : pos) : Prop :=
  exists E, elected h t E /\ under (h_created h) E y /\ under (h_created h) root y /\ (y.2 <= t)%N.

Definition commit_ok (m : Membership) (h : history) (t : Term) (c : LogIndex) (F : pos) : Prop :=
  (1 <= c)%N /\ under (h_created h) (c, t) F /\
  exists Q, membershipHasQuorum m Q = true /\
    forall v, v ∈ Q -> exists y, acked h t v y /\ under (h_created h) (c, t) y.

Definition camps_unique (h : history) : Prop :=
  forall T i E E', (T, i, E) ∈ h_camps h -> (T, i, E') ∈ h_camps h -> E = E'.

(** The entries of one term lie on one path, and so do the ends of its leader's log. *)
Definition terms_linear (h : history) : Prop :=
  forall a b, a ∈ h_created h -> b ∈ h_created h -> cr_Term a = cr_Term b ->
    (cr_Index a <= cr_Index b)%N -> under (h_created h) (cpos a) (cpos b).

Definition tips_linear (h : history) : Prop :=
  forall t y y', tip h t y -> tip h t y' -> (y.1 <= y'.1)%N -> under (h_created h) y y'.

Definition wins_unique (h : history) : Prop :=
  forall T i j, (T, i) ∈ h_won h -> (T, j) ∈ h_won h -> i = j.

Record history_ok (m : Membership) (h : history) : Prop := mkHistoryOk {
  ho_tree : tree_ok (h_created h);
  ho_wins : wins_unique h;
  ho_camps : camps_unique h;
  ho_terms : terms_linear h;
  ho_tips : tips_linear h;
  ho_camp T i E : (T, i, E) ∈ h_camps h -> camp_ok h T i E;
  ho_votereq args : args ∈ h_votereqs h ->
    (rv_Term args, rv_CandidateID args, (rv_LastLogIndex args, rv_LastLogTerm args)) ∈ h_camps h;
  ho_ballot T v c : (T, v, c) ∈ h_ballots h -> ballot_ok h T v c;
  ho_won T L : (T, L) ∈ h_won h -> won_ok m h T L;
  ho_created a : a ∈ h_created h -> created_ok h a;
  ho_sent args : args ∈ h_sent h -> sent_ok h args;
  ho_beat args l : (args, l) ∈ h_beats h -> beat_ok h args l;
  ho_tip t y : tip h t y -> tip_ok h t y;
  ho_answer v args reply : (v, args, reply) ∈ h_answers h -> args ∈ h_sent h;
  ho_commit t i c F : (t, i, c, F) ∈ h_commits h -> commit_ok m h t c F;
}.

(** ** Leader completeness *)

Section Completeness.
Context (m : Membership) (h : history) (Hh : history_ok m h).
Notation C := (h_created h).

Lemma acked_tip t v y : acked h t v y -> tip h t y.
Proof.
  intros [(args & reply & Hin & _ & Ht & Hy)|(c & Hin)].
  - left. exists args. split_and!; try done. by eapply ho_answer.
  - right. eauto.
Qed.

Lemma elected_unique T E E' : elected h T E -> elected h T E' -> E = E'.
Proof.
  intros (L & Hw & Hc) (L' & Hw' & Hc'). rewrite (ho_wins _ _ Hh _ _ _ Hw' Hw) in Hc'.
  by eapply ho_camps.
Qed.

Lemma elected_pos T E : elected h T E -> under C root E /\ (E.2 < T)%N.
Proof. intros (L & _ & Hc). by destruct (ho_camp _ _ Hh _ _ _ Hc) as (? & ? & _). Qed.

(** Two positions of one term, in the order of their indexes. *)
Lemma same_term_under x y :
  under C root x -> under C root y -> x.2 = y.2 -> (1 <= x.2)%N -> (x.1 <= y.1)%N -> under C x y.
Proof.
  intros Hx Hy Ht Hpos Hle. apply in_tree_created in Hx as [->|(a & Ha & <-)]; [cbn in *; lia|].
  apply in_tree_created in Hy as [->|(b & Hb & <-)]; [cbn in *; lia|]. by apply (ho_terms _ _ Hh).
Qed.

(** A position of term [u] lies above the log its leader began with. *)
Lemma above_elected x :
  under C root x -> (1 <= x.2)%N -> exists E, elected h x.2 E /\ under C E x.
Proof.
  intros Hx Hpos. apply in_tree_created in Hx as [->|(a & Ha & <-)]; [cbn in *; lia|].
  exact (ho_created _ _ Hh a Ha).
Qed.

(** A committed position with its quorum. *)
Lemma commit_quorum t i c F :
  (t, i, c, F) ∈ h_commits h ->
  under C root (c, t) /\ (1 <= t)%N /\
  exists Q, membershipHasQuorum m Q = true /\
    forall v, v ∈ Q -> exists y, acked h t v y /\ under C (c, t) y.
Proof.
  intros Hin. destruct (ho_commit _ _ Hh _ _ _ _ Hin) as (Hc & Hu & HQ).
  destruct (ho_tip _ _ Hh t F) as (E & He & _ & Hr & _); [right; eauto|].
  split_and!; [by eapply in_tree_under; [apply Hh|..]| |done].
  destruct (elected_pos _ _ He). lia.
Qed.

(** Every leader of a later term began with the committed entries in its log. *)
Lemma complete t i c F T E :
  (t, i, c, F) ∈ h_commits h -> elected h T E -> (t < T)%N -> under C (c, t) E.
Proof.
  intros Hin. destruct (commit_quorum _ _ _ _ Hin) as (Hz & Hpos & Q & HQ & Hacks). revert E.
  induction T as [T IH] using (well_founded_induction N.lt_wf_0). intros E HE Hlt.
  pose proof HE as (L & Hw & Hc). destruct (ho_won _ _ Hh _ _ Hw) as (E' & Q' & Hc' & HQ' & Hvotes).
  rewrite (ho_camps _ _ Hh _ _ _ _ Hc' Hc) in Hvotes. clear E' Hc'.
  destruct (quorums_intersect m Q Q' HQ HQ') as (v & Hv & Hv').
  destruct (Hacks v Hv) as (y & Hack & Hzy). destruct (Hvotes v Hv') as (_ & e & He & Hup & Hret).
  destruct (Hret t y Hack Hlt _ Hzy) as [Hze|(T' & E' & HE' & HT' & Hno)].
  2: { destruct Hno. apply (IH T'); [lia|done|lia]. }
  destruct (elected_pos _ _ HE) as [HrE HET]. pose proof (under_le C (ho_tree _ _ Hh) _ _ Hze) as [_ Hle]. cbn in Hle.
  destruct Hup as [Hterm|[Hterm Hidx]].
  - destruct (above_elected E HrE ltac:(lia)) as (E' & HE' & Hu). etrans; [|exact Hu].
    apply (IH E.2); [done|done|lia].
  - etrans; [exact Hze|]. apply same_term_under; try done. lia.
Qed.

(** All committed positions lie on one path. *)
Lemma committed_order t i c F t' i' c' F' :
  (t, i, c, F) ∈ h_commits h -> (t', i', c', F') ∈ h_commits h -> (t < t')%N \/ t = t' /\ (c <= c')%N ->
  under C (c, t) (c', t').
Proof.
  intros Hin Hin' Hle. destruct (commit_quorum _ _ _ _ Hin) as (Hz & Hpos & _).
  destruct (commit_quorum _ _ _ _ Hin') as (Hz' & Hpos' & _). destruct Hle as [Hlt|[<- Hle]].
  - destruct (above_elected (c', t') Hz' Hpos') as (E & HE & Hu). etrans; [|exact Hu].
    by eapply complete.
  - by apply same_term_under.
Qed.

Lemma committed_total T T' x x' :
  committed h T x -> committed h T' x' -> (x.1 <= x'.1)%N -> under C x x'.
Proof.
  assert (Htree := ho_tree _ _ Hh).
  intros Hx Hx' Hle. destruct Hx as [->|(t & i & c & F & Hin & _ & Hu)].
  { destruct Hx' as [->|(t' & i' & c' & F' & Hin' & _ & Hu')]; [reflexivity|].
    eapply in_tree_under; [done|by eapply commit_quorum|done]. }
  destruct (commit_quorum _ _ _ _ Hin) as (Hz & _).
  destruct Hx' as [->|(t' & i' & c' & F' & Hin' & _ & Hu')].
  { apply (under_linear C Htree x root (c, t)); try done. }
  assert (under C (c, t) (c', t') \/ under C (c', t') (c, t)) as [Ho|Ho].
  { destruct (N.lt_trichotomy t t') as [?|[<-|?]];
      [left; eapply committed_order; eauto| |right; eapply committed_order; eauto].
    destruct (N.le_ge_cases c c'); [left|right]; eapply committed_order; eauto. }
  - eapply (under_linear C Htree x x' (c', t')); [by etrans|done|done].
  - eapply (under_linear C Htree x x' (c, t)); [done|by etrans|done].
Qed.

(** What a leader holds of the committed positions of its term and before. *)
Lemma committed_in_request T x y e :
  committed h T x -> tip h T y -> under C x e -> ~ under C y e -> under C x y.
Proof.
  assert (Htree := ho_tree _ _ Hh).
  intros Hx Hy Hxe Hno. destruct (ho_tip _ _ Hh _ _ Hy) as (E & HE & HEy & Hry & _).
  destruct Hx as [->|(t & i & c & F & Hin & Ht & Hu)]; [done|].
  destruct (decide (t = T)) as [->|].
  2: { etrans; [exact Hu|]. etrans; [|exact HEy]. eapply complete; eauto. lia. }
  assert (tip h T F) as HF by (right; eauto).
  destruct (ho_commit _ _ Hh _ _ _ _ Hin) as (_ & HcF & _). assert (under C x F) as HxF by (etrans; [exact Hu|exact HcF]).
  destruct (decide (F.1 <= y.1)%N) as [Hle|Hle].
  { etrans; [exact HxF|]. by apply (ho_tips _ _ Hh T). }
  assert (under C y F) as HyF by (apply (ho_tips _ _ Hh T); [done..|lia]).
  destruct (under_total C Htree _ _ _ HxF HyF) as [?|Hyx]; [done|]. destruct Hno. by etrans.
Qed.

(** Following a leader keeps what was acknowledged, up to what its election dropped. *)
Lemma retains_request t v y0 y e T T' :
  acked h t v y0 -> (t <= T)%N -> (T' <= T + 1)%N ->
  tip h T y -> retains h t y0 T' e -> ~ under C y e -> retains h t y0 (T + 1) y.
Proof.
  assert (Htree := ho_tree _ _ Hh).
  intros Ha HtT HT' Hy Hret Hno x Hx. destruct (Hret x Hx) as [Hxe|(T'' & E'' & HE'' & Hlt & Hd)].
  2: { right. exists T'', E''. split_and!; try done; lia. }
  destruct (ho_tip _ _ Hh _ _ Hy) as (E & HE & HEy & Hry & _).
  destruct (decide (t = T)) as [->|].
  - left. pose proof (acked_tip _ _ _ Ha) as Hy0.
    destruct (decide (y0.1 <= y.1)%N) as [Hle|Hle].
    { etrans; [exact Hx|]. by apply (ho_tips _ _ Hh T). }
    assert (under C y y0) as Hyy0 by (apply (ho_tips _ _ Hh T); [done..|lia]).
    destruct (under_total C Htree _ _ _ Hx Hyy0) as [?|Hyx]; [done|]. destruct Hno. by etrans.
  - destruct (elected_pos _ _ HE) as [HrE _].
    destruct (under_decide C Htree x E HrE) as [Hxe'|Hxe']; [left; by etrans|]. right. exists T, E. split_and!; try done; lia.
Qed.
End Completeness.

(** ** Histories grow *)

Record grows (h h' : history) : Prop := mkGrows {
  gr_created : h_created h ⊆ h_created h';
  gr_ballots : h_ballots h ⊆ h_ballots h';
  gr_won : h_won h ⊆ h_won h';
  gr_camps : h_camps h ⊆ h_camps h';
  gr_sent : h_sent h ⊆ h_sent h';
  gr_answers : h_answers h ⊆ h_answers h';
  gr_commits : h_commits h ⊆ h_commits h';
}.

#[global] Instance grows_preorder : PreOrder grows.
Proof. split; [by intros h; split|]. intros h1 h2 h3 [] []. split; by etrans. Qed.

Section Grow.
Context (m : Membership) (h h' : history) (Hh : history_ok m h) (Hg : grows h h').
Context (Htree : tree_ok (h_created h')).
Notation C := (h_created h).
Notation C' := (h_created h').

Lemma under_grow x y : under C x y -> under C' x y.
Proof. apply under_mono, Hg. Qed.

Lemma under_shrink x y : under C root y -> under C' x y -> under C x y.
Proof. apply under_stable; [done|apply Hg]. Qed.

Lemma elected_grow T E : elected h T E -> elected h' T E.
Proof. intros (L & ? & ?). exists L. split; by apply Hg. Qed.

Lemma acked_grow t v y : acked h t v y -> acked h' t v y.
Proof.
  intros [(args & reply & Hin & ?)|(c & Hin)]; [left; exists args, reply; split; [|done]|right; exists c]; by apply Hg.
Qed.

Lemma tip_grow t y : tip h t y -> tip h' t y.
Proof.
  intros [(args & Hin & ?)|(i & c & Hin)]; [left; exists args; split; [|done]|right; exists i, c]; by apply Hg.
Qed.

Lemma committed_grow T T' x : (T <= T')%N -> committed h T x -> committed h' T' x.
Proof.
  intros HT [->|(t & i & c & F & Hin & ? & ?)]; [by left|right]. exists t, i, c, F.
  split_and!; [by apply Hg|lia|by apply under_grow].
Qed.

Lemma dropped_grow t T T' x : (T <= T')%N -> dropped h t T x -> dropped h' t T' x.
Proof.
  intros HT (T'' & E & HE & ? & Hno). exists T'', E. split_and!; [by apply elected_grow|lia|lia|].
  intros Hu. apply Hno, under_shrink; [|done]. by apply (elected_pos m h Hh T'').
Qed.

Lemma retains_grow t y T T' e :
  under C root y -> (T <= T')%N -> retains h t y T e -> retains h' t y T' e.
Proof.
  intros Hy HT Hr x Hx. destruct (Hr x) as [?|?]; [by apply under_shrink|left; by apply under_grow|right].
  by eapply dropped_grow.
Qed.

Lemma acked_in_tree t v y : acked h t v y -> under C root y.
Proof. intros (E & _ & _ & ? & _)%(acked_tip m h Hh)%(ho_tip _ _ Hh). done. Qed.

Lemma vote_fact_grow T v E :
  (forall t y, acked h' t v y -> (t < T)%N -> acked h t v y) -> vote_fact h T v E -> vote_fact h' T v E.
Proof.
  intros Hack (e & He & Hup & Hr). exists e. split_and!; [by apply under_grow|done|].
  intros t y Ha Ht. pose proof (Hack _ _ Ha Ht) as Ha'. eapply retains_grow; [by eapply acked_in_tree|done|by apply Hr].
Qed.

(** The elements already in the history stay good. *)
Context (Hacks : forall T v c t y, (T, v, c) ∈ h_ballots h -> acked h' t v y -> (t < T)%N -> acked h t v y).

Lemma camp_grow T i E : camp_ok h T i E -> camp_ok h' T i E.
Proof. intros (? & ? & ?). split_and!; [by apply under_grow|done|by apply Hg]. Qed.

Lemma ballot_grow T v c : (T, v, c) ∈ h_ballots h -> ballot_ok h T v c -> ballot_ok h' T v c.
Proof.
  intros Hin (E & Hc & Hv). exists E. split; [by apply Hg|]. destruct Hv as [[L HL]|Hv].
  - left. exists L. by apply Hg.
  - right. apply vote_fact_grow; [by eauto|done].
Qed.

Lemma won_grow T L : won_ok m h T L -> won_ok m h' T L.
Proof.
  intros (E & Q & Hc & HQ & Hv). exists E, Q. split_and!; [by apply Hg|done|].
  intros v [Hb Hf]%Hv. split; [by apply Hg|]. apply vote_fact_grow; [by eauto|done].
Qed.

Lemma created_grow a : created_ok h a -> created_ok h' a.
Proof. intros (E & ? & ?). exists E. split; [by apply elected_grow|by apply under_grow]. Qed.

Lemma sent_grow args : sent_ok h args -> sent_ok h' args.
Proof.
  intros ((Hc & Hu & Hp & Hch & Hf) & x & ? & ? & ?). split.
  - split_and!; try done. eapply chain_mono; [apply Hg|done].
  - exists x. split_and!; [done|by eapply committed_grow|by apply under_grow].
Qed.

Lemma beat_grow args l : beat_ok h args l -> beat_ok h' args l.
Proof.
  intros ((Hc & Hu & Hp & Hch & Hf) & Hnil & [Hw ?] & x & ? & ? & ?). split_and!; try done.
  - split_and!; try done. eapply chain_mono; [apply Hg|done].
  - split; [|done]. eapply log_ok_mono; [apply Hg|done].
  - exists x. split_and!; [done|by eapply committed_grow|by apply under_grow].
Qed.

Lemma tip_ok_grow t y : tip_ok h t y -> tip_ok h' t y.
Proof. intros (E & ? & ? & ? & ?). exists E. split_and!; try (by apply under_grow); [by apply elected_grow|done]. Qed.

Lemma commit_grow t c F : commit_ok m h t c F -> commit_ok m h' t c F.
Proof.
  intros (? & ? & Q & HQ & Hv). split_and!; [done|by apply under_grow|]. exists Q. split; [done|].
  intros v (y & ? & ?)%Hv. exists y. split; [by apply acked_grow|by apply under_grow].
Qed.

Lemma history_grow :
  wins_unique h' -> camps_unique h' -> terms_linear h' -> tips_linear h' ->
  (forall T i E, (T, i, E) ∈ h_camps h' -> (T, i, E) ∈ h_camps h \/ camp_ok h' T i E) ->
  (forall args, args ∈ h_votereqs h' -> args ∈ h_votereqs h \/
    (rv_Term args, rv_CandidateID args, (rv_LastLogIndex args, rv_LastLogTerm args)) ∈ h_camps h') ->
  (forall T v c, (T, v, c) ∈ h_ballots h' -> (T, v, c) ∈ h_ballots h \/ ballot_ok h' T v c) ->
  (forall T L, (T, L) ∈ h_won h' -> (T, L) ∈ h_won h \/ won_ok m h' T L) ->
  (forall a, a ∈ C' -> a ∈ C \/ created_ok h' a) ->
  (forall args, args ∈ h_sent h' -> args ∈ h_sent h \/ sent_ok h' args) ->
  (forall args l, (args, l) ∈ h_beats h' -> (args, l) ∈ h_beats h \/ beat_ok h' args l) ->
  (forall t y, tip h' t y -> tip h t y \/ tip_ok h' t y) ->
  (forall v args reply, (v, args, reply) ∈ h_answers h' -> (v, args, reply) ∈ h_answers h \/ args ∈ h_sent h') ->
  (forall t i c F, (t, i, c, F) ∈ h_commits h' -> (t, i, c, F) ∈ h_commits h \/ commit_ok m h' t c F) ->
  history_ok m h'.
Proof.
  intros Hw Hcu Htl Hpl Hcamp Hreq Hbal Hwon Hcre Hsent Hbeat Htip Hans Hcom. split; try done.
  - intros T i E [Hin|?]%Hcamp; [|done]. by apply camp_grow, Hh.
  - intros args [Hin|?]%Hreq; [|done]. by apply Hg, Hh.
  - intros T v c [Hin|?]%Hbal; [|done]. by apply ballot_grow, Hh.
  - intros T L [Hin|?]%Hwon; [|done]. by apply won_grow, Hh.
  - intros a [Hin|?]%Hcre; [|done]. by apply created_grow, Hh.
  - intros args [Hin|?]%Hsent; [|done]. by apply sent_grow, Hh.
  - intros args l [Hin|?]%Hbeat; [|done]. by apply beat_grow, Hh.
  - intros t y [Hin|?]%Htip; [|done]. by apply tip_ok_grow, Hh.
  - intros v args reply [Hin|?]%Hans; [|done]. apply Hg. by eapply Hh.
  - intros t i c F [Hin|?]%Hcom; [|done]. eapply commit_grow, Hh. done.
Qed.
End Grow.
