(* ===== verification/StateMachineSafety.v ===== *)
(** State machine safety: nodes never commit different entries at the same index.

    A [raft] is the [cluster] of [LogMatching] with the vote requests, the heartbeats of
    reads and the answers on the network.  Its steps are the ones of [LogMatching] for a
    cluster that takes no snapshots: every message that is handled was built and sent by a
    node before ([voteRequest], [buildAppendEntries], [readIndexRequest], and the replies to
    them), may be lost, delayed, duplicated and reordered; every storage call may fail; a
    node whose storage holds its log may crash in the middle of an operation.  The peers
    of a node only grow.

    The heartbeats of [ReadIndex] are not anchored at the end of the leader's log, and a
    follower that accepts one may commit entries its leader does not have
    ([readIndex_heartbeat_commits_conflict]).  A run has no such handling: where a heartbeat
    raises the commit index of a follower, its entry there is of the term the leader had
    there ([agrees]). *)

From S2P Require Import Prelude Model RaftLog Storage Membership ConfigEntry Node Election.
From S2P Require Import ElectionFacts Apply SnapshotOps Replication ReplicationFacts Durability.
From S2P Require Import ElectionSafety ReadIndex LogChain LogMatching LogTree RaftSteps RaftHistory.

Section Safety.
Context {S : Type} `{StorageLaws S}.
Implicit Types n : RaftNode S.

Record raft := mkRaft {
  cl : cluster (S := S);
  (** vote requests sent so far *)
  votereqs : list RequestVoteArgs;
  (** requests handled so far, with the node that handled them and its answer *)
  answers : list (NodeID * AppendEntriesArgs * AppendEntriesReply);
  (** history: elections begun, with the end of the candidate's log *)
  camps : list (Term * NodeID * pos);
  (** history: commit indexes leaders have advanced to, with the end of their log *)
  commits : list (Term * NodeID * LogIndex * pos);
  (** heartbeats of reads sent so far, with the log of the leader when it sent them *)
  beats : list (AppendEntriesArgs * Log);
}.

Definition hist (r : raft) : history :=
  mkHistory (creations (cl r)) (ballots (cl_world (cl r))) (won (cl_world (cl r))) (camps r)
    (votereqs r) (sent (cl r)) (beats r) (answers r) (commits r).

(** A read's heartbeat of a leader whose log was [l] commits no entry that [l] does not have. *)
Definition agrees (args : AppendEntriesArgs) (l : Log) n : Prop :=
  let index := N.min (ae_LeaderCommit args) (lastIndexLocked (log n)) in
  (commitIndex n < index)%N -> term_at (log n) index = term_at l index.

(** Messages come from the network; peers only grow; no snapshots, no configuration entries;
    the heartbeats of reads and their answers as described above. *)
Definition raft_op (r : raft) (op : node_op) n : Prop :=
  plain_op op n /\
  match op with
  | OpReadHeartbeat args => exists l, (args, l) ∈ beats r /\ agrees args l n
  | OpReadReply _ term _ _ _ reply => timely term reply n
  | OpAppendEntries args => args ∈ sent (cl r)
  | OpAppendEntriesReply peerID args reply => (peerID, args, reply) ∈ answers r
  | OpPropose data => IsConfigurationEntry data = false /\ is_u64 (lastIndexLocked (log n) + 3)%N
  | _ => True
  end.

(** The answer an operation puts on the network. *)
Definition answered (i : NodeID) (op : node_op) n : list (NodeID * AppendEntriesArgs * AppendEntriesReply) :=
  match op with
  | OpAppendEntries args => [(i, args, snd (AppendEntries args n))]
  | _ => []
  end.

(** The commit index a leader has advanced to. *)
Definition advanced (i : NodeID) n n' : list (Term * NodeID * LogIndex * pos) :=
  if bool_decide (role n' = Leader) && (commitIndex n <? commitIndex n')%N
  then [(currentTerm n', i, commitIndex n', log_end (log n'))] else [].

(** A read sends its heartbeats in the term it began in, with the commit index the leader had
    then, which is not beyond the present one ([RBeat]). *)
Inductive raft_step : raft -> raft -> Prop :=
| RStart i n n' res w ss C vr an ca co be :
    nodes w !! i = Some n -> is_u64 (currentTerm n + 1)%N -> startElection n = (n', res) ->
    raft_step (mkRaft (mkCluster w ss C) vr an ca co be)
      (mkRaft (mkCluster (mkWorld (<[i := n']> (nodes w)) (replies w)
         (match res with Ok t => (t, i, i) :: ballots w | Err _ => ballots w end) (won w)) ss C) vr an
         (match res with Ok t => (t, i, log_end (log n)) :: ca | Err _ => ca end) co be)
| RSolicit i n args w ss C vr an ca co be :
    nodes w !! i = Some n -> voteRequest n = Some args ->
    raft_step (mkRaft (mkCluster w ss C) vr an ca co be) (mkRaft (mkCluster w ss C) (args :: vr) an ca co be)
| RVote i n n' args reply w ss C vr an ca co be :
    nodes w !! i = Some n -> args ∈ vr -> RequestVote args n = (n', reply) ->
    raft_step (mkRaft (mkCluster w ss C) vr an ca co be)
      (mkRaft (mkCluster (mkWorld (<[i := n']> (nodes w)) ((args, reply) :: replies w)
         (if rvr_VoteGranted reply then (rvr_Term reply, i, rv_CandidateID args) :: ballots w
          else ballots w) (won w)) ss C) vr an ca co be)
| RVoteReply n args reply w ss C vr an ca co be :
    nodes w !! rv_CandidateID args = Some n -> (args, reply) ∈ replies w ->
    raft_step (mkRaft (mkCluster w ss C) vr an ca co be)
      (mkRaft (mkCluster (with_node (rv_CandidateID args) (handleVoteReply (rv_Term args) reply n) w) ss C)
         vr an ca co be)
| RLead i n n' b w ss C vr an ca co be :
    nodes w !! i = Some n -> tryBecomeLeader n = (n', b) ->
    raft_step (mkRaft (mkCluster w ss C) vr an ca co be)
      (mkRaft (mkCluster (mkWorld (<[i := n']> (nodes w)) (replies w) (ballots w)
         (if b : bool then (currentTerm n', i) :: won w else won w)) ss C) vr an ca co be)
| RSend i n peerID args w ss C vr an ca co be :
    nodes w !! i = Some n -> is_u64 (default 0%N (nextIndexOf n peerID)) ->
    buildAppendEntries n peerID = Some args ->
    raft_step (mkRaft (mkCluster w ss C) vr an ca co be) (mkRaft (mkCluster w (args :: ss) C) vr an ca co be)
| RBeat i n peerID term commit args w ss C vr an ca co be :
    nodes w !! i = Some n -> is_u64 (default 0%N (nextIndexOf n peerID)) -> (commit <= commitIndex n)%N ->
    readIndexRequest term commit peerID n = Ok args ->
    raft_step (mkRaft (mkCluster w ss C) vr an ca co be)
      (mkRaft (mkCluster w ss C) vr an ca co ((args, log n) :: be))
| ROp i n op w ss C vr an ca co be :
    nodes w !! i = Some n -> raft_op (mkRaft (mkCluster w ss C) vr an ca co be) op n ->
    raft_step (mkRaft (mkCluster w ss C) vr an ca co be)
      (mkRaft (mkCluster (with_node i (run_op op n) w) ss (created_by op n ++ C)) vr
         (answered i op n ++ an) ca (advanced i n (run_op op n) ++ co) be)
| RCrash i n op n' w ss C vr an ca co be :
    nodes w !! i = Some n -> raft_op (mkRaft (mkCluster w ss C) vr an ca co be) op n -> faithful n ->
    NewRaftNodeWithStorage i (storage (run_op op n)) = Ok n' ->
    raft_step (mkRaft (mkCluster w ss C) vr an ca co be)
      (mkRaft (mkCluster (with_node i n' w) ss (created_by op n ++ C)) vr an ca co be).

(** A new cluster: empty logs, nothing sent, nothing committed. *)
Definition new_raft (m : Membership) (r : raft) : Prop :=
  new_cluster m (cl r) /\ votereqs r = [] /\ answers r = [] /\ camps r = [] /\ commits r = [] /\ beats r = [] /\
  forall i n, nodes (cl_world (cl r)) !! i = Some n ->
    saved n /\ commitIndex n = 0%N /\ forall p, matchIndexOf n p = 0%N.

Lemma raft_op_allowed r op n :
  (forall args l, (args, l) ∈ beats r -> ae_Entries args = []) -> raft_op r op n -> op_allowed (cl r) op n.
Proof. intros Hbe [Hpl Hop]. destruct op; try done; [by left|]. destruct Hop as (l & Hin & _). by eapply Hbe. Qed.

Lemma raft_cluster_step r r' :
  (forall args l, (args, l) ∈ beats r -> ae_Entries args = []) -> raft_step r r' -> rtc cluster_step (cl r) (cl r').
Proof.
  intros Hbe Hs. destruct Hs as [i n n' res w ss C vr an ca co be Hi Hu E| |i n n' args reply w ss C vr an ca co be Hi Hin E
    |n args reply w ss C vr an ca co be Hi Hin|i n n' b w ss C vr an ca co be Hi E
    |i n peerID args w ss C vr an ca co be Hi Hu E| |i n op w ss C vr an ca co be Hi Hop
    |i n op n' w ss C vr an ca co be Hi Hop Hf E]; cbn [cl].
  - apply rtc_once. eapply (StepElection _ (mkCluster w ss C)). by eapply StepStartElection.
  - apply rtc_refl.
  - apply rtc_once. eapply (StepElection _ (mkCluster w ss C)). by eapply StepRequestVote.
  - apply rtc_once. eapply (StepElection _ (mkCluster w ss C)). by eapply StepVoteReply.
  - apply rtc_once. eapply (StepElection _ (mkCluster w ss C)). by eapply StepTryBecomeLeader.
  - apply rtc_once. by eapply (StepSend _ _ _ _ (mkCluster w ss C)).
  - apply rtc_refl.
  - apply raft_op_allowed in Hop; [|done]. apply rtc_once. by eapply (StepOperation _ _ _ (mkCluster w ss C)).
  - apply raft_op_allowed in Hop; [|done]. apply rtc_once. by eapply (StepCrash _ _ _ _ (mkCluster w ss C)).
Qed.

(** ** What holds of a node *)

Definition leads (h : history) (i : NodeID) n : Prop :=
  (exists E, (currentTerm n, i, E) ∈ h_camps h /\ under (h_created h) E (log_end (log n))) /\
  (forall y, tip h (currentTerm n) y -> under (h_created h) y (log_end (log n))) /\
  (forall b, b ∈ h_created h -> cr_Term b = currentTerm n -> (cr_Index b <= lastIndexLocked (log n))%N ->
     under (h_created h) (cpos b) (log_end (log n))) /\
  (forall p, matchIndexOf n p = 0%N \/ exists y, acked h (currentTerm n) p y /\ (matchIndexOf n p <= y.1)%N).

Record node_ok (h : history) (i : NodeID) n : Prop := mkNodeOk {
  no_whole : whole (h_created h) (log n);
  no_snapshot : ms_snapshot (view (storage n)) = None;
  no_term : (lastTermLocked (log n) <= currentTerm n)%N;
  no_saved : saved n;
  no_commit : exists x, x.1 = commitIndex n /\ committed h (currentTerm n) x /\
    under (h_created h) x (log_end (log n));
  no_acked t y : acked h t i y ->
    (t <= currentTerm n)%N /\ retains h t y (currentTerm n + 1) (log_end (log n));
  no_candidate : role n = Candidate -> (currentTerm n, i, log_end (log n)) ∈ h_camps h;
  no_leader : role n = Leader -> leads h i n;
  no_peers p : p ∉ peerIDs n -> matchIndexOf n p = 0%N;
}.

Definition raft_inv (m : Membership) (r : raft) : Prop :=
  history_ok m (hist r) /\ forall i n, nodes (cl_world (cl r)) !! i = Some n -> node_ok (hist r) i n.

Lemma node_commit_le m h i n : history_ok m h -> node_ok h i n -> (commitIndex n <= lastIndexLocked (log n))%N.
Proof.
  intros Hh Hn. destruct (no_commit _ _ _ Hn) as (x & Hx & _ & Hu). apply under_le in Hu; [|apply Hh].
  cbn in Hu. lia.
Qed.

(** The history grows; what it says of this node is true of the node as it is. *)
Lemma node_ok_grow m h h' i n :
  history_ok m h -> grows h h' -> tree_ok (h_created h') -> node_ok h i n ->
  (forall t y, acked h' t i y -> acked h t i y \/
     (t <= currentTerm n)%N /\ under (h_created h') y (log_end (log n))) ->
  (role n = Leader -> forall y, tip h' (currentTerm n) y ->
     tip h (currentTerm n) y \/ under (h_created h') y (log_end (log n))) ->
  (role n = Leader -> forall b, b ∈ h_created h' -> cr_Term b = currentTerm n ->
     b ∈ h_created h \/ (lastIndexLocked (log n) < cr_Index b)%N) ->
  node_ok h' i n.
Proof.
  intros Hh Hg Htree [Hw Hs Ht Hsv Hc Ha Hcand Hlead Hp] Hack Htip Hcre. split; try done.
  - destruct Hw. split; [eapply log_ok_mono; [apply Hg|done]|done].
  - destruct Hc as (x & ? & ? & ?). exists x.
    split_and!; [done|by eapply committed_grow; [|reflexivity|]|by eapply under_grow].
  - intros t y [Hy|[Ht' Hy]]%Hack; [|split; [done|]; intros x Hx; left; by etrans].
    destruct (Ha t y Hy). split; [done|].
    apply (retains_grow m h h' Hh Hg Htree t y (currentTerm n + 1)); [by eapply acked_in_tree|lia|done].
  - intros Hr. by apply Hg, Hcand.
  - intros Hr. destruct (Hlead Hr) as ((E & ? & ?) & Htips & Hcr & Hm). split_and!.
    + exists E. split; [by apply Hg|by eapply under_grow].
    + intros y Hy. destruct (Htip Hr y Hy) as [Hy'|Hy']; [|done]. apply (under_grow h h' Hg). auto.
    + intros b Hb Hbt Hle. destruct (Hcre Hr b Hb Hbt) as [?|?]; [|lia]. apply (under_grow h h' Hg); auto.
    + intros p. destruct (Hm p) as [?|(y & ? & ?)]; [by left|right]. exists y. split; [by eapply acked_grow|done].
Qed.

(** Where the log of a node may go: on, or to a tip of a leader that is not behind. *)
Definition follows (h : history) n n' : Prop :=
  under (h_created h) (log_end (log n)) (log_end (log n')) \/
  exists T, (currentTerm n <= T <= currentTerm n')%N /\ tip h T (log_end (log n')) /\
    ~ under (h_created h) (log_end (log n')) (log_end (log n)).

Lemma follows_committed m h i n n' T x :
  history_ok m h -> node_ok h i n -> follows h n n' -> (T <= currentTerm n)%N -> committed h T x ->
  under (h_created h) x (log_end (log n)) -> under (h_created h) x (log_end (log n')).
Proof.
  intros Hh Hn Hf HT Hx Hu. destruct Hf as [Hf|(T' & HT' & Htip & Hno)]; [by etrans|].
  eapply (committed_in_request m h Hh T'); try done. apply (committed_grow h h ltac:(reflexivity) T); [lia|done].
Qed.

Lemma follows_retains m h i n n' t y :
  history_ok m h -> node_ok h i n -> follows h n n' -> (currentTerm n <= currentTerm n')%N ->
  acked h t i y -> retains h t y (currentTerm n' + 1) (log_end (log n')).
Proof.
  intros Hh Hn Hf Ht Ha. destruct (no_acked _ _ _ Hn t y Ha) as [Hle Hr].
  assert (forall T e, retains h t y (T + 1) e -> (T <= currentTerm n')%N -> retains h t y (currentTerm n' + 1) e) as Hup.
  { intros T e He HT. apply (retains_grow m h h Hh ltac:(reflexivity) (ho_tree _ _ Hh) t y (T + 1)); [|lia|done].
    by eapply acked_in_tree. }
  destruct Hf as [Hf|(T & HT & Htip & Hno)].
  - apply (Hup (currentTerm n)); [|done]. intros x Hx. destruct (Hr x Hx) as [?|?]; [left; by etrans|by right].
  - apply (Hup T); [|lia]. apply (retains_request m h Hh t i y _ (log_end (log n)) T (currentTerm n + 1)); try done; lia.
Qed.

(** A node moves; its commit index and the role it reports are checked by the caller. *)
Lemma node_ok_move m h i n n' :
  history_ok m h -> node_ok h i n -> (currentTerm n <= currentTerm n')%N -> saved n' ->
  ms_snapshot (view (storage n')) = None -> whole (h_created h) (log n') ->
  (lastTermLocked (log n') <= currentTerm n')%N -> follows h n n' ->
  (commitIndex n' = commitIndex n \/ commitIndex n' = 0%N) ->
  (role n' = Candidate -> (currentTerm n', i, log_end (log n')) ∈ h_camps h) ->
  (role n' = Leader -> leads h i n') ->
  (forall p, p ∉ peerIDs n' -> matchIndexOf n' p = 0%N) -> node_ok h i n'.
Proof.
  intros Hh Hn Hterm Hsv Hsn Hw Hlt Hf Hc Hcand Hlead Hp. split; try done.
  - destruct Hc as [Hc|Hc].
    + destruct (no_commit _ _ _ Hn) as (x & Hx & Hcx & Hu). exists x. rewrite Hc. split_and!; [done| |].
      * by eapply committed_grow; [reflexivity|exact Hterm|].
      * by apply (follows_committed m h i n n' (currentTerm n)).
    + exists root. rewrite Hc. split_and!; [done|by left|by apply log_end_in_tree].
  - intros t y Ha. split; [|by eapply follows_retains]. destruct (no_acked _ _ _ Hn t y Ha). lia.
Qed.

Lemma node_ok_commit h i n c :
  node_ok h i n ->
  (exists x, x.1 = c /\ committed h (currentTerm n) x /\ under (h_created h) x (log_end (log n))) ->
  node_ok h i (set_commitIndex c n).
Proof. intros [] Hc. by split. Qed.

(** ** Events *)

Definition world_inv (m : Membership) (w : world (S := S)) (h : history) : Prop :=
  history_ok m h /\ forall i n, nodes w !! i = Some n -> node_ok h i n.

Lemma node_event m w h i n' :
  world_inv m w h -> node_ok h i n' -> world_inv m (with_node i n' w) h.
Proof.
  intros [Hh Hn] Hi. split; [done|]. intros j nj. cbn. rewrite lookup_insert_Some.
  intros [[<- <-]|[_ Hj]]; [done|by apply Hn].
Qed.

Lemma tips_linear_add h h' T F :
  tree_ok (h_created h') -> tips_linear h -> h_created h ⊆ h_created h' ->
  (forall t y, tip h' t y -> tip h t y \/ t = T /\ y = F) ->
  (forall y, tip h T y -> under (h_created h') y F) -> tips_linear h'.
Proof.
  intros Htree Hl Hs Hnew HF t y y' [Hy|[-> ->]]%Hnew [Hy'|[Ht' ->]]%Hnew Hle; [| | |reflexivity].
  - eapply under_mono; [done|by eapply Hl].
  - subst t. by apply HF.
  - pose proof (HF y' Hy') as Hu. pose proof (under_le _ Htree _ _ Hu) as [? _].
    rewrite <- (under_same _ Htree _ _ Hu ltac:(lia)). reflexivity.
Qed.

Section Events.
Context (m : Membership) (w : world (S := S)) (h : history).
Context (Hc : cluster_inv m w) (Hbal : h_ballots h = ballots w) (Hwon : h_won h = won w).
Context (Hinv : world_inv m w h).

Lemma leader_won i n : nodes w !! i = Some n -> role n = Leader -> (currentTerm n, i) ∈ h_won h.
Proof. intros Hi Hr. rewrite Hwon. by apply (proj2 Hc i n Hi). Qed.

Lemma ballot_term i n T c : nodes w !! i = Some n -> (T, i, c) ∈ h_ballots h -> (T <= currentTerm n)%N.
Proof.
  rewrite Hbal. intros Hi Hb. destruct (proj2 Hc i n Hi) as (_ & _ & _ & _ & Hcov & _).
  destruct (Hcov _ _ Hb) as [[?|[? _]] _]; unfold currentTerm; lia.
Qed.

Lemma leader_elected i n :
  nodes w !! i = Some n -> role n = Leader ->
  exists E, elected h (currentTerm n) E /\ under (h_created h) E (log_end (log n)).
Proof.
  intros Hi Hr. destruct (no_leader _ _ _ (proj2 Hinv i n Hi) Hr) as ((E & Hca & Hu) & _).
  exists E. split; [|done]. exists i. split; [by apply leader_won|done].
Qed.

Lemma leader_tip i n : nodes w !! i = Some n -> role n = Leader -> tip_ok h (currentTerm n) (log_end (log n)).
Proof.
  intros Hi Hr. destruct (leader_elected i n Hi Hr) as (E & HE & Hu). pose proof (proj2 Hinv i n Hi) as Hn.
  exists E. split_and!; try done; [apply log_end_in_tree, Hn|apply Hn].
Qed.

(** Only one node leads a term. *)
Lemma other_leader i j n nj :
  nodes w !! i = Some n -> nodes w !! j = Some nj -> role n = Leader -> role nj = Leader ->
  currentTerm n = currentTerm nj -> i = j.
Proof.
  intros Hi Hj Hr Hrj Ht. apply (ho_wins _ _ (proj1 Hinv) (currentTerm n)); [by apply leader_won|].
  rewrite Ht. by apply leader_won.
Qed.

Definition with_created (a : creation) : history :=
  mkHistory (a :: h_created h) (h_ballots h) (h_won h) (h_camps h) (h_votereqs h) (h_sent h) (h_beats h) (h_answers h)
    (h_commits h).

Lemma cpos_above i n a :
  node_ok h i n -> cr_Index a = (lastIndexLocked (log n) + 1)%N -> cr_Prev a = lastTermLocked (log n) ->
  parent a = log_end (log n).
Proof. intros Hn Hi Hp. unfold parent, log_end. rewrite Hi, Hp. f_equal. lia. Qed.

Lemma created_tree i n a :
  nodes w !! i = Some n -> role n = Leader ->
  cr_Index a = (lastIndexLocked (log n) + 1)%N -> cr_Term a = currentTerm n ->
  cr_Prev a = lastTermLocked (log n) ->
  (forall b, b ∈ h_created h -> cr_Term b = currentTerm n -> (cr_Index b <= lastIndexLocked (log n))%N) ->
  tree_ok (a :: h_created h).
Proof.
  intros Hi Hr Hai Hat Hap Hnew. destruct Hinv as [Hh Hall]. pose proof (Hall i n Hi) as Hn.
  destruct (leader_tip i n Hi Hr) as (E & HE & HEu & Hroot & Ht). cbn in Ht.
  destruct (elected_pos m h Hh _ _ HE) as [_ HEt].
  assert (h_created h ⊆ a :: h_created h) as Hsub by set_solver. split.
  - intros b c [->|Hb]%elem_of_cons [->|Hc']%elem_of_cons Hidx Hterm; [done| | |by apply (ho_tree _ _ Hh)].
    + pose proof (Hnew c Hc' ltac:(congruence)). lia.
    + pose proof (Hnew b Hb ltac:(congruence)). lia.
  - intros b [->|Hb]%elem_of_cons.
    + rewrite (cpos_above i n a Hn Hai Hap), Hat, Hap, Hai. split_and!; [lia|lia|done|].
      by eapply under_mono.
    + destruct (proj2 (ho_tree _ _ Hh) b Hb) as (? & ? & ? & ?). split_and!; try done. by eapply under_mono.
Qed.

Lemma created_event i n a :
  nodes w !! i = Some n -> role n = Leader ->
  cr_Index a = (lastIndexLocked (log n) + 1)%N -> cr_Term a = currentTerm n ->
  cr_Prev a = lastTermLocked (log n) ->
  (forall b, b ∈ h_created h -> cr_Term b = currentTerm n -> (cr_Index b <= lastIndexLocked (log n))%N) ->
  world_inv m w (with_created a).
Proof.
  intros Hi Hr Hai Hat Hap Hnew. pose proof (created_tree i n a Hi Hr Hai Hat Hap Hnew) as Htree.
  destruct Hinv as [Hh Hall]. pose proof (Hall i n Hi) as Hn.
  pose proof (cpos_above i n a Hn Hai Hap) as Hpar.
  assert (h_created h ⊆ a :: h_created h) as Hsub by set_solver.
  assert (grows h (with_created a)) as Hg by (by split).
  assert (forall x, under (h_created h) x (log_end (log n)) -> under (a :: h_created h) x (cpos a)) as Hup.
  { intros x Hx. apply under_step; [set_solver|]. rewrite Hpar. by eapply under_mono. }
  split.
  - apply (history_grow m h); try done; try (by left).
    + apply Hh.
    + apply Hh.
    + intros b c [->|Hb]%elem_of_cons [->|Hc']%elem_of_cons Hterm Hidx; [reflexivity| | |].
      * pose proof (Hnew c Hc' ltac:(congruence)). lia.
      * apply Hup. pose proof (Hnew b Hb ltac:(congruence)).
        by apply (no_leader _ _ _ Hn Hr); [|congruence|].
      * eapply under_mono; [exact Hsub|]. by apply (ho_terms _ _ Hh).
    + intros t y y' Hy Hy' Hle. eapply under_mono; [exact Hsub|]. by apply (ho_tips _ _ Hh t).
    + intros b [->|Hb]%elem_of_cons; [right|by left]. destruct (leader_elected i n Hi Hr) as (E & HE & Hu).
      exists E. rewrite Hat. split; [done|by apply Hup].
  - intros j nj Hj. apply (node_ok_grow m h); try done; [by apply Hall|by left|by left|].
    intros Hrj b [->|Hb]%elem_of_cons Hbt; [right|by left].
    pose proof (other_leader i j n nj Hi Hj Hr Hrj ltac:(congruence)) as <-.
    assert (nj = n) as -> by congruence. lia.
Qed.

(** A request is accepted. *)
Definition with_answer (x : NodeID * AppendEntriesArgs * AppendEntriesReply) : history :=
  mkHistory (h_created h) (h_ballots h) (h_won h) (h_camps h) (h_votereqs h) (h_sent h) (h_beats h) (x :: h_answers h)
    (h_commits h).

Lemma answer_event i n args reply :
  nodes w !! i = Some n -> args ∈ h_sent h ->
  (aer_Success reply = true ->
   currentTerm n = ae_Term args /\ under (h_created h) (req_end args) (log_end (log n))) ->
  world_inv m w (with_answer (i, args, reply)).
Proof.
  intros Hi Hin Hok. destruct Hinv as [Hh Hall].
  assert (grows h (with_answer (i, args, reply))) as Hg by (split; cbn; set_solver).
  assert (forall t v y, acked (with_answer (i, args, reply)) t v y -> acked h t v y \/
    v = i /\ t = currentTerm n /\ under (h_created h) y (log_end (log n))) as Hnew.
  { intros t v y [(a & r & Hx & Hs & <- & <-)|Hx]; [|left; by right]. apply elem_of_cons in Hx as [Hx|Hx].
    - injection Hx as -> -> ->. right. by destruct (Hok Hs) as [-> ?].
    - left. left. by exists a, r. }
  split.
  - apply (history_grow m h); try done; try apply Hh; try (by left).
    + intros T v c t y Hb [?|(-> & -> & _)]%Hnew Hlt; [done|]. pose proof (ballot_term i n T c Hi Hb). lia.
    + intros v a r [Hx|Hx]%elem_of_cons; [right|by left]. by injection Hx as -> -> ->.
  - intros j nj Hj. apply (node_ok_grow m h); try done; [apply Hh|by apply Hall| |by left|by left].
    intros t y [?|(-> & -> & ?)]%Hnew; [by left|right]. by assert (nj = n) as -> by congruence.
Qed.

(** A leader sends its log. *)
Definition with_sent (args : AppendEntriesArgs) : history :=
  mkHistory (h_created h) (h_ballots h) (h_won h) (h_camps h) (h_votereqs h) (args :: h_sent h) (h_beats h) (h_answers h)
    (h_commits h).

Lemma sent_event i n args :
  nodes w !! i = Some n -> role n = Leader -> ae_Term args = currentTerm n ->
  ae_LeaderCommit args = commitIndex n -> request_ok (h_created h) args -> req_end args = log_end (log n) ->
  world_inv m w (with_sent args).
Proof.
  intros Hi Hr Ht Hcm Hreq He. destruct Hinv as [Hh Hall]. pose proof (Hall i n Hi) as Hn.
  assert (grows h (with_sent args)) as Hg by (split; cbn; set_solver).
  assert (forall t y, tip (with_sent args) t y -> tip h t y \/ t = currentTerm n /\ y = log_end (log n)) as Hnew.
  { intros t y [(a & Hx & <- & <-)|Hx]; [|left; by right]. apply elem_of_cons in Hx as [->|Hx].
    - right. by rewrite Ht, He.
    - left. left. by exists a. }
  split.
  - apply (history_grow m h); try done; try apply Hh; try (by left).
    + eapply (tips_linear_add h); [apply Hh|apply Hh|done|exact Hnew|]. by apply (no_leader _ _ _ Hn Hr).
    + intros a [->|Ha]%elem_of_cons; [right|by left]. split; [done|].
      destruct (no_commit _ _ _ Hn) as (x & Hx & Hcx & Hu). exists x. rewrite Hcm, Ht, He. by split_and!.
    + intros t y [?|[-> ->]]%Hnew; [by left|right]. by apply (leader_tip i).
  - intros j nj Hj. apply (node_ok_grow m h); try done; [apply Hh|by apply Hall|by left| |by left].
    intros Hrj y [?|[Htj ->]]%Hnew; [by left|right].
    pose proof (other_leader i j n nj Hi Hj Hr Hrj ltac:(done)) as <-.
    assert (nj = n) as -> by congruence. reflexivity.
Qed.

(** A leader sends the heartbeat of a read. *)
Definition with_beat (args : AppendEntriesArgs) (l : Log) : history :=
  mkHistory (h_created h) (h_ballots h) (h_won h) (h_camps h) (h_votereqs h) (h_sent h)
    ((args, l) :: h_beats h) (h_answers h) (h_commits h).

Lemma beat_event args l : beat_ok h args l -> world_inv m w (with_beat args l).
Proof.
  intros Hb. destruct Hinv as [Hh Hall].
  assert (grows h (with_beat args l)) as Hg by (split; cbn; set_solver). split.
  - apply (history_grow m h); try done; try apply Hh; try (by left).
    intros a l' [Hx|?]%elem_of_cons; [right|by left]. by injection Hx as -> ->.
  - intros j nj Hj. apply (node_ok_grow m h); try done; [apply Hh|by apply Hall|by left..].
Qed.

(** A leader commits. *)
Definition with_commit (x : Term * NodeID * LogIndex * pos) : history :=
  mkHistory (h_created h) (h_ballots h) (h_won h) (h_camps h) (h_votereqs h) (h_sent h) (h_beats h) (h_answers h)
    (x :: h_commits h).

Lemma logTerm_under i n c t :
  node_ok h i n -> (1 <= c <= lastIndexLocked (log n))%N -> logTerm n c = t ->
  under (h_created h) (c, t) (log_end (log n)).
Proof.
  intros Hn Hc' Ht. apply entry_under; [apply Hn|]. destruct (no_whole _ _ _ Hn) as [Hok H0'].
  assert (is_Some (getLocked (log n) c)) as [e He] by (apply (getLocked_range _ _ (proj1 Hok)); lia).
  unfold term_at, logTerm in *. rewrite He in *. by rewrite <- Ht.
Qed.

Lemma commit_event_ok i n c :
  nodes w !! i = Some n -> role n = Leader -> (1 <= c <= lastIndexLocked (log n))%N -> committable n c ->
  commit_ok m (with_commit (currentTerm n, i, c, log_end (log n))) (currentTerm n) c (log_end (log n)).
Proof.
  intros Hi Hr Hle [Hterm HQ]. destruct Hinv as [Hh Hall]. pose proof (Hall i n Hi) as Hn.
  pose proof (logTerm_under i n c _ Hn Hle Hterm) as Hu. split_and!; [lia|done|].
  destruct (proj2 Hc i n Hi) as (Hid & Hm & _). rewrite Hm in HQ.
  exists (replicated n c). split; [done|]. intros v Hv. unfold replicated in Hv. apply elem_of_union in Hv as [Hv|Hv].
  - apply elem_of_singleton in Hv as ->. exists (log_end (log n)). split; [|done].
    right. exists c. rewrite Hid. set_solver.
  - rewrite elem_of_list_to_set, list_elem_of_filter in Hv. destruct Hv as [Hv _].
    destruct (no_leader _ _ _ Hn Hr) as (_ & Htips & _ & Hmatch).
    destruct (Hmatch v) as [?|(y & Hy & Hyl)]; [lia|]. exists y. split.
    + destruct Hy as [?|(c' & ?)]; [by left|right]. exists c'. set_solver.
    + apply (under_linear _ (ho_tree _ _ Hh) _ _ (log_end (log n))); [done| |cbn; lia].
      apply Htips. by eapply acked_tip.
Qed.

Lemma commit_event i n c :
  nodes w !! i = Some n -> role n = Leader -> (1 <= c <= lastIndexLocked (log n))%N -> committable n c ->
  world_inv m w (with_commit (currentTerm n, i, c, log_end (log n))).
Proof.
  intros Hi Hr Hle Hcom. pose proof (commit_event_ok i n c Hi Hr Hle Hcom) as Hok.
  destruct Hinv as [Hh Hall]. pose proof (Hall i n Hi) as Hn.
  set (h' := with_commit _). assert (grows h h') as Hg by (split; cbn; set_solver).
  assert (forall t v y, acked h' t v y -> acked h t v y \/ v = i /\ t = currentTerm n /\ y = log_end (log n)) as Hna.
  { intros t v y [?|(c' & Hx)]; [left; by left|]. apply elem_of_cons in Hx as [Hx|Hx].
    - injection Hx as -> -> _ ->. by right.
    - left. right. by exists c'. }
  assert (forall t y, tip h' t y -> tip h t y \/ t = currentTerm n /\ y = log_end (log n)) as Hnt.
  { intros t y [?|(v & c' & Hx)]; [left; by left|]. apply elem_of_cons in Hx as [Hx|Hx].
    - injection Hx as -> _ _ ->. by right.
    - left. right. by exists v, c'. }
  split.
  - apply (history_grow m h); try done; try apply Hh; try (by left).
    + intros T v c' t y Hb [?|(-> & -> & _)]%Hna Hlt; [done|]. pose proof (ballot_term i n T c' Hi Hb). lia.
    + eapply (tips_linear_add h); [apply Hh|apply Hh|done|exact Hnt|]. by apply (no_leader _ _ _ Hn Hr).
    + intros t y [?|[-> ->]]%Hnt; [by left|right]. by apply (leader_tip i).
    + intros t v c' F [Hx|?]%elem_of_cons; [right|by left]. by injection Hx as -> _ -> ->.
  - intros j nj Hj. apply (node_ok_grow m h); try done; [apply Hh|by apply Hall| | |by left].
    + intros t y [?|(-> & -> & ->)]%Hna; [by left|right]. by assert (nj = n) as -> by congruence.
    + intros Hrj y [?|[Htj ->]]%Hnt; [by left|right].
      pose proof (other_leader i j n nj Hi Hj Hr Hrj ltac:(done)) as <-.
      assert (nj = n) as -> by congruence. reflexivity.
Qed.

(** A candidate asks for votes. *)
Definition with_votereq (args : RequestVoteArgs) : history :=
  mkHistory (h_created h) (h_ballots h) (h_won h) (h_camps h) (args :: h_votereqs h) (h_sent h) (h_beats h) (h_answers h)
    (h_commits h).

Lemma votereq_event i n args :
  nodes w !! i = Some n -> voteRequest n = Some args -> world_inv m w (with_votereq args).
Proof.
  intros Hi (Hr & Ht & Hcid & He)%voteRequest_end. destruct Hinv as [Hh Hall]. pose proof (Hall i n Hi) as Hn.
  assert (grows h (with_votereq args)) as Hg by (split; cbn; set_solver). split.
  - apply (history_grow m h); try done; try apply Hh; try (by left).
    intros a [->|?]%elem_of_cons; [right|by left]. rewrite Ht, Hcid, He.
    destruct (proj2 Hc i n Hi) as (-> & _). by apply Hn.
  - intros j nj Hj. apply (node_ok_grow m h); try done; [apply Hh|by apply Hall|by left..].
Qed.

(** An election begins. *)
Definition with_camp (T : Term) (i : NodeID) (E : pos) : history :=
  mkHistory (h_created h) ((T, i, i) :: h_ballots h) (h_won h) ((T, i, E) :: h_camps h) (h_votereqs h)
    (h_sent h) (h_beats h) (h_answers h) (h_commits h).

Lemma camp_event i n :
  nodes w !! i = Some n -> world_inv m w (with_camp (currentTerm n + 1) i (log_end (log n))).
Proof.
  intros Hi. destruct Hinv as [Hh Hall]. pose proof (Hall i n Hi) as Hn.
  set (h' := with_camp _ _ _). assert (grows h h') as Hg by (split; cbn; set_solver).
  assert (under (h_created h) root (log_end (log n))) as Hroot by apply log_end_in_tree, Hn.
  assert (forall E, (currentTerm n + 1, i, E)%N ∈ h_camps h -> False) as Hno.
  { intros E (_ & _ & Hb)%(ho_camp _ _ Hh). pose proof (ballot_term i n _ _ Hi Hb). lia. }
  split.
  - apply (history_grow m h); try done; try apply Hh; try (by left).
    + intros T j E E' [Hx|Hx]%elem_of_cons [Hy|Hy]%elem_of_cons; simplify_eq; try done.
      * by destruct (Hno E').
      * by destruct (Hno E).
      * by eapply (ho_camps _ _ Hh).
    + intros T j E [Hx|Hx]%elem_of_cons; [right|by left]. injection Hx as -> -> ->.
      split_and!; [done| |cbn; set_solver]. pose proof (no_term _ _ _ Hn). cbn. lia.
    + intros T v c [Hx|Hx]%elem_of_cons; [right|by left]. injection Hx as -> -> ->.
      exists (log_end (log n)). split; [cbn; set_solver|right]. exists (log_end (log n)).
      split_and!; [done|right; lia|]. intros t y Ha Ht. destruct (no_acked _ _ _ Hn t y Ha) as [_ Hret].
      apply (retains_grow m h h' Hh Hg (ho_tree _ _ Hh) t y (currentTerm n + 1)); [|lia|done].
      by eapply acked_in_tree.
  - intros j nj Hj. apply (node_ok_grow m h); try done; [apply Hh|by apply Hall|by left..].
Qed.

(** A vote is cast. *)
Definition with_ballot (T : Term) (v c : NodeID) : history :=
  mkHistory (h_created h) ((T, v, c) :: h_ballots h) (h_won h) (h_camps h) (h_votereqs h)
    (h_sent h) (h_beats h) (h_answers h) (h_commits h).

Lemma ballot_event i n args :
  nodes w !! i = Some n -> args ∈ h_votereqs h -> (currentTerm n <= rv_Term args)%N ->
  at_least_as_recent (log n) (rv_LastLogIndex args) (rv_LastLogTerm args) ->
  world_inv m w (with_ballot (rv_Term args) i (rv_CandidateID args)).
Proof.
  intros Hi Hreq Hle Hup. destruct Hinv as [Hh Hall]. pose proof (Hall i n Hi) as Hn.
  set (h' := with_ballot _ _ _). assert (grows h h') as Hg by (split; cbn; set_solver).
  split.
  - apply (history_grow m h); try done; try apply Hh; try (by left).
    intros T v c [Hx|Hx]%elem_of_cons; [right|by left]. injection Hx as -> -> ->.
    eexists. split; [by apply (ho_votereq _ _ Hh)|].
    destruct (decide (rv_Term args ∈ (h_won h).*1)) as [Hw|Hw].
    { left. apply list_elem_of_fmap in Hw as ([T L] & HT & Hin). cbn in HT. exists L. by rewrite HT. }
    right. exists (log_end (log n)). split_and!.
    + apply log_end_in_tree, Hn.
    + unfold up_to_date, at_least_as_recent in *. cbn. naive_solver.
    + intros t y Ha Ht. destruct (no_acked _ _ _ Hn t y Ha) as [_ Hret]. intros x Hx.
      destruct (Hret x Hx) as [?|(T & E & HE & HT & Hno)]; [by left|right]. exists T, E.
      assert (T ≠ rv_Term args); [|split_and!; try done; lia]. intros ->. apply Hw.
      destruct HE as (L & HL & _). apply list_elem_of_fmap. by exists (rv_Term args, L).
  - intros j nj Hj. apply (node_ok_grow m h); try done; [apply Hh|by apply Hall|by left..].
Qed.

(** An election is won. *)
Definition with_win (T : Term) (i : NodeID) : history :=
  mkHistory (h_created h) (h_ballots h) ((T, i) :: h_won h) (h_camps h) (h_votereqs h)
    (h_sent h) (h_beats h) (h_answers h) (h_commits h).

Lemma win_event i n :
  nodes w !! i = Some n -> role n = Candidate -> membershipHasQuorum (membership n) (votes n) = true ->
  (forall L, (currentTerm n, L) ∈ h_won h -> False) ->
  world_inv m w (with_win (currentTerm n) i).
Proof.
  intros Hi Hr HQ Hno. destruct Hinv as [Hh Hall]. pose proof (Hall i n Hi) as Hn.
  set (h' := with_win _ _). assert (grows h h') as Hg by (split; cbn; set_solver). split.
  - apply (history_grow m h); try done; try apply Hh; try (by left).
    + intros T j k [Hx|Hx]%elem_of_cons [Hy|Hy]%elem_of_cons; simplify_eq; try done.
      * by destruct (Hno k).
      * by destruct (Hno j).
      * by eapply (ho_wins _ _ Hh).
    + intros T L [Hx|Hx]%elem_of_cons; [right|by left]. injection Hx as -> ->.
      pose proof (no_candidate _ _ _ Hn Hr) as Hca.
      destruct (proj2 Hc i n Hi) as (_ & Hm & _ & _ & _ & Hv & _). rewrite Hm in HQ.
      exists (log_end (log n)), (votes n). split_and!; try done. intros v Hv'.
      pose proof (Hv Hr v Hv') as Hb. rewrite <- Hbal in Hb. split; [done|].
      destruct (ho_ballot _ _ Hh _ _ _ Hb) as (E & HE & [[L HL]|Hf]); [by destruct (Hno L)|].
      rewrite (ho_camps _ _ Hh _ _ _ _ HE Hca) in Hf.
      by apply (vote_fact_grow m h h' Hh Hg (ho_tree _ _ Hh)).
  - intros j nj Hj. apply (node_ok_grow m h); try done; [apply Hh|by apply Hall|by left..].
Qed.
End Events.

(** ** Steps of an election *)

Lemma leads_same h i n n' :
  currentTerm n' = currentTerm n -> log n' = log n -> LeaderSt (state n') = LeaderSt (state n) ->
  leads h i n -> leads h i n'.
Proof. intros Ht Hl Hls. unfold leads, matchIndexOf. by rewrite Ht, Hl, Hls. Qed.

Lemma node_ok_idle m h i n n' :
  history_ok m h -> node_ok h i n -> clean n -> passive n n' -> quiet n n' -> idle n n' -> node_ok h i n'.
Proof.
  intros Hh Hn Hcl P (Hl & _ & Hs) (Hls & Hp & Hcm).
  destruct (P Hcl) as (_ & _ & He & _ & Hr & Hsv). apply extends_term in He.
  change (currentTerm n <= currentTerm n')%N in He.
  apply (node_ok_move m h i n); rewrite ?Hl, ?Hs; try done; try apply Hn.
  - apply Hsv, Hn.
  - pose proof (no_term _ _ _ Hn). lia.
  - left. by rewrite Hl.
  - by left.
  - intros Hc. destruct Hr as [?|(Hr & _ & ->)]; [congruence|]. apply Hn. congruence.
  - intros Hc. destruct Hr as [?|(Hr & _ & Ht)]; [congruence|]. apply (leads_same h i n); try done. apply Hn. congruence.
  - intros p. unfold matchIndexOf. rewrite Hls, Hp. apply Hn.
Qed.

Lemma world_inv_nodes m w h i n n' :
  world_inv m w h -> node_ok h i n' -> forall w', nodes w' = <[i := n']> (nodes w) -> world_inv m w' h.
Proof.
  intros Hw Hn w' Hnodes. destruct (node_event m w h i n' Hw Hn) as [Hh Hall]. split; [done|].
  intros j nj. rewrite Hnodes. apply Hall.
Qed.

Lemma start_step m w ss C vr an ca co be i n n' res :
  let r := mkRaft (mkCluster w ss C) vr an ca co be in
  cluster_inv m w -> world_inv m w (hist r) -> nodes w !! i = Some n -> is_u64 (currentTerm n + 1)%N ->
  startElection n = (n', res) ->
  let w' := mkWorld (<[i := n']> (nodes w)) (replies w)
    (match res with Ok t => (t, i, i) :: ballots w | Err _ => ballots w end) (won w) in
  world_inv m w' (hist (mkRaft (mkCluster w' ss C) vr an
    (match res with Ok t => (t, i, log_end (log n)) :: ca | Err _ => ca end) co be)).
Proof.
  intros r Hc Hinv Hi Hu E w'. pose proof (startElection_quiet n) as Hq. pose proof (startElection_idle n) as Hid.
  rewrite E in Hq, Hid. cbn [fst] in Hq, Hid. pose proof (startElection_cases n n' res Hu E) as Hcase.
  destruct (proj2 Hc i n Hi) as (Hidi & _ & _ & Hcl & _). destruct res as [t|e].
  - pose proof (startElection_term n n' t Hu E) as Ht. destruct Hcase as (_ & -> & _ & Hr & _ & _ & _ & _ & Hst).
    unfold w'. rewrite Ht in *. clear w'. pose proof (camp_event m w (hist r) Hc eq_refl eq_refl Hinv i n Hi) as Hev.
    eapply (world_inv_nodes m w _ i n n'); [exact Hev| |done]. pose proof (proj2 Hev i n Hi) as Hn.
    destruct Hq as (Hl & _ & Hs). destruct Hid as (Hls & Hp & Hcm).
    apply (node_ok_move m _ i n); rewrite ?Hl, ?Hs; try done; try apply Hn; try exact (proj1 Hev).
    + lia.
    + unfold saved. by rewrite Hst.
    + pose proof (no_term _ _ _ Hn). lia.
    + left. by rewrite Hl.
    + by left.
    + intros _. rewrite Ht. cbn. set_solver.
    + congruence.
    + intros p. unfold matchIndexOf. rewrite Hls, Hp. apply Hn.
  - eapply (world_inv_nodes m w _ i n n'); [exact Hinv| |done].
    apply (node_ok_idle m _ i n); try done; apply Hinv. done.
Qed.

Lemma vote_step_inv m w ss C vr an ca co be i n n' args reply :
  let r := mkRaft (mkCluster w ss C) vr an ca co be in
  cluster_inv m w -> world_inv m w (hist r) -> nodes w !! i = Some n -> args ∈ vr ->
  RequestVote args n = (n', reply) ->
  let w' := mkWorld (<[i := n']> (nodes w)) ((args, reply) :: replies w)
    (if rvr_VoteGranted reply then (rvr_Term reply, i, rv_CandidateID args) :: ballots w else ballots w) (won w) in
  world_inv m w' (hist (mkRaft (mkCluster w' ss C) vr an ca co be)).
Proof.
  intros r Hc Hinv Hi Hin E w'. pose proof (RequestVote_quiet args n) as Hq. rewrite E in Hq. cbn in Hq.
  destruct (RequestVote_grants args n n' reply E) as [Hid Hg]. apply RequestVote_passive in E as [P _].
  destruct (proj2 Hc i n Hi) as (_ & _ & _ & Hcl & _).
  assert (forall h, world_inv m w h -> world_inv m w' h) as Hnode.
  { intros h Hw. eapply (world_inv_nodes m w _ i n n'); [exact Hw| |done].
    apply (node_ok_idle m _ i n); try done; apply Hw. done. }
  unfold w', hist in *. cbn. destruct (rvr_VoteGranted reply); [|by apply Hnode].
  destruct (Hg eq_refl) as (-> & _ & Hle & Hup).
  exact (Hnode _ (ballot_event m w (hist r) Hc eq_refl eq_refl Hinv i n args Hi Hin Hle Hup)).
Qed.

Lemma reply_step m w ss C vr an ca co be n args reply :
  let r := mkRaft (mkCluster w ss C) vr an ca co be in
  cluster_inv m w -> world_inv m w (hist r) -> nodes w !! rv_CandidateID args = Some n ->
  world_inv m (with_node (rv_CandidateID args) (handleVoteReply (rv_Term args) reply n) w) (hist r).
Proof.
  intros r Hc Hinv Hi. apply node_event; [done|]. pose proof (proj2 Hinv _ n Hi) as Hn.
  destruct (proj2 Hc _ n Hi) as (_ & _ & _ & Hcl & _).
  destruct (handleVoteReply_cases (rv_Term args) reply n) as [P|(_ & _ & _ & ->)].
  - apply (node_ok_idle m _ _ n); try done; [apply Hinv|apply handleVoteReply_quiet|apply handleVoteReply_idle].
  - by destruct Hn.
Qed.

Lemma lead_step m w ss C vr an ca co be i n n' (b : bool) :
  let r := mkRaft (mkCluster w ss C) vr an ca co be in
  let w' := mkWorld (<[i := n']> (nodes w)) (replies w) (ballots w)
              (if b then (currentTerm n', i) :: won w else won w) in
  cluster_inv m w -> matching_inv (cl r) -> cluster_inv m w' -> world_inv m w (hist r) -> nodes w !! i = Some n ->
  tryBecomeLeader n = (n', b) -> world_inv m w' (hist (mkRaft (mkCluster w' ss C) vr an ca co be)).
Proof.
  intros r w' Hc Hm Hc' Hinv Hi E. unfold tryBecomeLeader in E. case_bool_decide as Hr.
  { injection E as <- <-. eapply (world_inv_nodes m w _ i n n); [exact Hinv|by apply Hinv|done]. }
  assert (role n = Candidate) as Hrc by (by destruct (role n)).
  destruct (membershipHasQuorum (membership n) (votes n)) eqn:HQ; cbn [negb] in E; injection E as <- <-.
  2: { eapply (world_inv_nodes m w _ i n n); [exact Hinv|by apply Hinv|done]. }
  assert (forall p, matchIndexOf (becomeLeaderLocked n) p = 0%N) as Hmatch.
  { intros p. rewrite becomeLeader_match. case_bool_decide; [done|]. by apply (proj2 Hinv i n Hi). }
  destruct (becomeLeaderLocked_frame n) as [ls Hls]. unfold w' in *. clear w'. rewrite Hls in *.
  change (currentTerm _) with (currentTerm n) in *.
  assert (forall L, (currentTerm n, L) ∈ won w -> False) as Hno.
  { intros L HL. destruct Hm as (_ & _ & _ & _ & Hlog). destruct (Hlog i n Hi) as (_ & _ & Hcand & _).
    destruct (Hcand Hrc) as [_ Hnot]. apply Hnot. replace i with L; [done|].
    apply (won_unique m _ (currentTerm n) _ _ Hc'); cbn; set_solver. }
  pose proof (win_event m w (hist r) Hc eq_refl eq_refl Hinv i n Hi Hrc HQ Hno) as Hev.
  eapply (world_inv_nodes m w _ i n); [exact Hev| |done]. pose proof (proj2 Hev i n Hi) as Hn.
  destruct Hn as [Hw Hs Ht Hsv Hcm Ha Hcand Hlead Hp]. split; try done. intros _. split_and!.
  - exists (log_end (log n)). split; [by apply Hcand|reflexivity].
  - intros y (E & (L & HL & _) & _)%(ho_tip _ _ (proj1 Hinv)). by destruct (Hno L).
  - intros c Hcr Hct _. destruct (ho_created _ _ (proj1 Hinv) c Hcr) as (E & (L & HL & _) & _).
    rewrite Hct in HL. by destruct (Hno L).
  - intros p. left. apply Hmatch.
Qed.

Lemma send_step m w ss C vr an ca co be i n peerID args :
  let r := mkRaft (mkCluster w ss C) vr an ca co be in
  cluster_inv m w -> world_inv m w (hist r) -> nodes w !! i = Some n ->
  is_u64 (default 0%N (nextIndexOf n peerID)) -> buildAppendEntries n peerID = Some args ->
  world_inv m w (hist (mkRaft (mkCluster w (args :: ss) C) vr an ca co be)).
Proof.
  intros r Hc Hinv Hi Hu E. pose proof (proj2 Hinv i n Hi) as Hn.
  destruct (proj2 Hc i n Hi) as (_ & _ & _ & [Hcl _] & _).
  destruct (build_end C n peerID args (no_whole _ _ _ Hn) Hcl Hu E) as (Hr & Ht & Hcm & Hreq & He).
  by apply (sent_event m w (hist r) Hc eq_refl eq_refl Hinv i n args).
Qed.

(** The heartbeat of a read is anchored in the leader's log, and its commit index is one the
    leader has reached. *)
Lemma readIndexRequest_spec term commit peerID n args :
  is_u64 (default 0%N (nextIndexOf n peerID)) -> readIndexRequest term commit peerID n = Ok args ->
  role n = Leader /\ ae_Term args = currentTerm n /\ ae_Term args = term /\ ae_LeaderCommit args = commit /\
  ae_Entries args = [] /\ (ae_PrevLogIndex args = 0%N -> ae_PrevLogTerm args = 0%N) /\
  (ae_PrevLogIndex args = 0%N \/ is_Some (getLocked (log n) (ae_PrevLogIndex args))).
Proof.
  unfold readIndexRequest. destruct (bool_decide (role n ≠ Leader)) eqn:Hr; cbn [orb]; [done|].
  apply bool_decide_eq_false, dec_stable in Hr. destruct (N.eqb_spec (currentTerm n) term) as [<-|]; cbn [negb]; [|done].
  destruct (nextIndexOf n peerID) as [next|]; [|done]. cbn [default from_option Datatypes.id]. intros Hu.
  destruct (N.ltb_spec 1 next) as [Hlt|]; [|intros [= <-]; split_and!; auto].
  change (is_u64 next) in Hu. rewrite u64_sub_small by (done || lia).
  destruct (getLocked (log n) (next - 1)) as [e|] eqn:Hg; [|done].
  intros [= <-]. cbn. split_and!; try done; [lia|right; eauto].
Qed.

Lemma beat_step m w ss C vr an ca co be i n peerID term commit args :
  let r := mkRaft (mkCluster w ss C) vr an ca co be in
  world_inv m w (hist r) -> nodes w !! i = Some n -> is_u64 (default 0%N (nextIndexOf n peerID)) ->
  (commit <= commitIndex n)%N -> readIndexRequest term commit peerID n = Ok args ->
  world_inv m w (hist (mkRaft (mkCluster w ss C) vr an ca co ((args, log n) :: be))).
Proof.
  intros r Hinv Hi Hu Hle E. pose proof (proj2 Hinv i n Hi) as Hn.
  destruct (readIndexRequest_spec _ _ _ _ _ Hu E) as (Hr & Ht & _ & Hcm & Hnil & Hz & Hprev).
  apply (beat_event m w (hist r) Hinv). pose proof (no_whole _ _ _ Hn) as Hw. pose proof Hw as [(Hwf & Hul & _) Hb].
  split_and!; [|done|done|].
  - unfold request_ok. rewrite Hnil. split_and!; [apply contiguous_nil| |done|done|by apply Forall_nil].
    destruct Hprev as [->|Hp%(getLocked_range _ _ Hwf)]; cbn; lia.
  - destruct (no_commit _ _ _ Hn) as (x & Hx & Hcx & Hux).
    pose proof (node_commit_le m _ i n (proj1 Hinv) Hn) as Hlast.
    destruct (decide (commit = 0%N)) as [->|Hpos].
    { exists root. split_and!; [by rewrite Hcm|by left|by apply log_end_in_tree]. }
    assert (is_Some (getLocked (log n) commit)) as [e He] by (apply (getLocked_range _ _ Hwf); lia).
    assert (under (h_created (hist r)) (commit, le_Term e) (log_end (log n))) as Hue.
    { apply entry_under; [done|]. unfold term_at. by rewrite He. }
    exists (commit, le_Term e). split_and!; [by rewrite Hcm| |done]. rewrite Ht.
    apply (committed_under _ _ x); [apply Hinv| |done].
    apply (under_linear _ (ho_tree _ _ (proj1 Hinv)) _ _ (log_end (log n))); [done..|cbn; lia].
Qed.

(** ** Operations and crashes *)

Lemma created_cases op n :
  created_by op n = [] \/
  exists data, op = OpPropose data /\ role n = Leader /\
    created_by op n = [created_as (lastTermLocked (log n))
      (mkLogEntry (u64_add (lastIndexLocked (log n)) 1) (currentTerm n) data)].
Proof.
  destruct op as [| | | |data| | | | | | | | | |]; try by left. cbn [created_by].
  case_bool_decide; [|by left]. destruct (st_AppendEntries _ _) as [s [e|]]; [by left|right].
  by exists data.
Qed.

Lemma answered_cases i op n :
  answered i op n = [] \/
  exists args, op = OpAppendEntries args /\ answered i op n = [(i, args, snd (AppendEntries args n))].
Proof. destruct op; try by left. right. by eexists. Qed.

Section Operation.
Context (m : Membership) (w : world (S := S)) (ss : list AppendEntriesArgs) (C : list creation).
Context (vr : list RequestVoteArgs) (an : list (NodeID * AppendEntriesArgs * AppendEntriesReply)).
Context (ca : list (Term * NodeID * pos)) (co : list (Term * NodeID * LogIndex * pos)).
Context (be : list (AppendEntriesArgs * Log)).
Notation r := (mkRaft (mkCluster w ss C) vr an ca co be).
Context (Hc : cluster_inv m w) (Hm : matching_inv (cl r)) (Hinv : world_inv m w (hist r)).
Context (i : NodeID) (n : RaftNode S) (op : node_op) (Hi : nodes w !! i = Some n) (Hop : raft_op r op n).

Notation h1 := (hist (mkRaft (mkCluster w ss (created_by op n ++ C)) vr an ca co be)).

Lemma op_step_ok : step_ok C op n.
Proof.
  destruct Hop as [Hpl Ho]. split; [done|]. destruct op; try done.
  - by apply (ho_sent _ _ (proj1 Hinv)).
  - destruct Ho as (l & Hin & _). by destruct (ho_beat _ _ (proj1 Hinv) _ _ Hin) as (? & ? & _).
Qed.

Lemma op_free : op_benign op n.
Proof. pose proof op_step_ok as [_ Ho]. destruct op; try done; apply Ho. Qed.

Lemma op_progress : progress n op (run_op op n).
Proof.
  destruct (proj2 Hc i n Hi) as (_ & _ & _ & [Hcl _] & _). pose proof (proj2 Hinv i n Hi) as Hn.
  apply (run_op_progress C); [apply Hn|done| |apply op_step_ok].
  eapply node_commit_le; [apply Hinv|done].
Qed.

(** The proposal is in the history before anything else happens. *)
Lemma op_created : world_inv m w h1.
Proof.
  destruct (created_cases op n) as [E|(data & Hd & Hr & E)]; rewrite E; [done|]. cbn [app].
  assert (is_u64 (lastIndexLocked (log n) + 3)%N) as Hu by (destruct Hop as [_ Ho]; subst op; apply Ho).
  rewrite u64_add_small by lia. set (a := created_as _ _).
  apply (created_event m w (hist r) Hc eq_refl eq_refl Hinv i n a); try done.
  intros b Hb Ht. destruct Hm as (_ & _ & _ & _ & Hlog). destruct (Hlog i n Hi) as (_ & _ & _ & Hlead).
  destruct (Hlead Hr b Hb Ht) as [?|(Heq & Hlast)]; [done|]. exfalso.
  destruct (created_by_spec op n a Hu) as (_ & _ & Hnt & _).
  { rewrite E, u64_add_small by lia. by apply list_elem_of_singleton. }
  apply Hnt. right. change (cr_Index a) with (lastIndexLocked (log n) + 1)%N. rewrite <- Heq. done.
Qed.

Lemma with_proposal_end data :
  created_by op n = [created_as (lastTermLocked (log n))
      (mkLogEntry (u64_add (lastIndexLocked (log n)) 1) (currentTerm n) data)] ->
  op = OpPropose data -> role n = Leader ->
  exists a, a ∈ h_created h1 /\ cpos a = log_end (with_proposal data n) /\ parent a = log_end (log n) /\
    cr_Term a = currentTerm n /\ cr_Index a = (lastIndexLocked (log n) + 1)%N /\
    lastIndexLocked (with_proposal data n) = (lastIndexLocked (log n) + 1)%N /\
    whole (h_created h1) (with_proposal data n).
Proof.
  intros E Hd Hr. assert (is_u64 (lastIndexLocked (log n) + 3)%N) as Hu by (destruct Hop as [_ Ho]; subst op; apply Ho).
  rewrite u64_add_small in E by lia. pose proof (proj2 Hinv i n Hi) as Hn. cbn [hist h_created cl creations].
  rewrite E. unfold with_proposal. rewrite u64_add_small by lia.
  set (e := mkLogEntry _ _ _). exists (created_as (lastTermLocked (log n)) e).
  assert (lastIndexLocked (mkLog (entries (log n) ++ [e]) (lastIncludedIndex (log n)) (lastIncludedTerm (log n)))
    = lastIndexLocked (log n) + 1)%N as Hlast by (unfold lastIndexLocked at 1; cbn; by rewrite last_snoc).
  split_and!; try done; [set_solver| | |].
  - unfold cpos, log_end. rewrite Hlast. f_equal. unfold lastTermLocked. cbn. by rewrite last_snoc.
  - by apply (cpos_above (hist r) i).
  - destruct (no_whole _ _ _ Hn) as [Hok Hb]. split; [|done]. by apply snoc_ok.
Qed.

(** Where an operation can lead the log. *)
Lemma moved_ok l :
  moved n op l ->
  whole (h_created h1) l /\
  (l = log n \/ (currentTerm n <= op_term op n)%N /\ (lastTermLocked l <= op_term op n)%N /\
    (under (h_created h1) (log_end (log n)) (log_end l) \/
     tip h1 (op_term op n) (log_end l) /\ ~ under (h_created h1) (log_end l) (log_end (log n)))).
Proof.
  destruct op_created as [Hh Hall]. pose proof (Hall i n Hi) as Hn. pose proof (no_whole _ _ _ Hn) as Hw.
  intros [->|[(args & Hop' & Ht & Ha & ->)|(data & Hop' & Hr & Hne & ->)]]%moved_inv.
  - split; [done|by left].
  - assert (op_term op n = ae_Term args) as Hot by (by rewrite Hop').
    rewrite Hot. assert (args ∈ ss) as Hin by (destruct Hop as [_ Ho]; by rewrite Hop' in Ho).
    assert (request_ok (h_created h1) args) as Hreq by by apply (ho_sent _ _ Hh).
    destruct (reconciled_path (h_created h1) (log n) args) as (Hw' & Hu & Hcase); try done; [apply Hh| |].
    { apply (prev_in_log n args); [apply Hw|done]. }
    split; [done|]. destruct Hcase as [->|[He Hno]]; [by left|right].
    assert (tip h1 (ae_Term args) (log_end (reconciled (log n) (ae_Entries args)))) as Htip.
    { left. exists args. by rewrite He. }
    split_and!; [done| |right; split; [done|by rewrite He]].
    destruct (ho_tip _ _ Hh _ _ Htip) as (_ & _ & _ & _ & ?). done.
  - destruct (created_cases op n) as [E|(data' & Hd & _ & E)]; [done|].
    assert (data' = data) as -> by congruence.
    destruct (with_proposal_end data E Hd Hr) as (a & Hin & Hcp & Hpar & Hat & Hai & _ & Hw').
    assert (op_term op n = currentTerm n) as Hot by (by rewrite Hop').
    rewrite Hot. split; [done|right]. split_and!; [done| |left].
    + change (lastTermLocked _) with ((log_end (with_proposal data n)).2). rewrite <- Hcp. cbn. by rewrite Hat.
    + rewrite <- Hcp. apply under_step; [done|]. by rewrite Hpar.
Qed.

(** The node after the operation follows the leaders it has heard of. *)
Lemma moved_follows n' :
  moved n op (log n') -> (log n' = log n \/ (op_term op n <= currentTerm n')%N) ->
  (currentTerm n <= currentTerm n')%N ->
  whole (h_created h1) (log n') /\ (lastTermLocked (log n') <= currentTerm n')%N /\ follows h1 n n'.
Proof.
  intros Hmv Hterm Hle. destruct (moved_ok _ Hmv) as [Hw [Hl|(H1 & H2 & H3)]].
  - split_and!; [done| |left; by rewrite Hl]. rewrite Hl. pose proof (no_term _ _ _ (proj2 op_created i n Hi)). lia.
  - destruct Hterm as [Hl|Hterm].
    { split_and!; [done| |left; by rewrite Hl]. rewrite Hl. pose proof (no_term _ _ _ (proj2 op_created i n Hi)). lia. }
    split_and!; [done|lia|]. destruct H3 as [H3|[H3 H4]]; [by left|right]. exists (op_term op n). by split_and!.
Qed.

Lemma op_term_le : (currentTerm n <= currentTerm (run_op op n))%N.
Proof.
  destruct (proj2 Hc i n Hi) as (_ & _ & _ & Hcl & _).
  destruct (run_op_passive op n op_free Hcl) as (_ & _ & He & _). by apply extends_term in He.
Qed.

(** An index credited to a peer was acknowledged by it. *)
Lemma credited_acked p k : credited op n p k -> exists y, acked h1 (currentTerm n) p y /\ (k <= y.1)%N.
Proof.
  intros (args & reply & e & Ho & Hs & Ht & He & ->). destruct Hop as [_ Hans]. rewrite Ho in Hans.
  exists (req_end args). split; [left; by exists args, reply|].
  assert (request_ok (h_created h1) args) as (Hcont & _).
  { apply (ho_sent _ _ (proj1 op_created)). by eapply (ho_answer _ _ (proj1 Hinv)). }
  apply last_Some in He as [es Hes]. rewrite Hes in Hcont. apply contiguous_app in Hcont as [_ Hcont].
  apply contiguous_cons in Hcont as [Hidx _]. unfold req_end. rewrite Hes, length_app. cbn. lia.
Qed.

Lemma op_leads :
  role (run_op op n) = Leader -> role n = Leader -> currentTerm (run_op op n) = currentTerm n ->
  leads h1 i (run_op op n).
Proof.
  intros Hr' Hr Ht. pose proof op_progress as [Hmv _ Hrole _ _ Hmatch _ _].
  destruct op_created as [Hh Hall]. destruct (no_leader _ _ _ (Hall i n Hi) Hr) as ((E & HE & HEu) & Htips & Hcre & Hmt).
  assert (under (h_created h1) (log_end (log n)) (log_end (log (run_op op n))) /\
    forall b, b ∈ h_created h1 -> cr_Term b = currentTerm n -> (cr_Index b <= lastIndexLocked (log (run_op op n)))%N ->
      under (h_created h1) (cpos b) (log_end (log (run_op op n)))) as [Hup Hbs].
  { apply moved_inv in Hmv as [Hl|[(args & Ho & _ & _ & Hl)|(data & Hd & _ & Hne & Hl)]].
    - rewrite Hl. by split.
    - destruct Hrole as [Hsame|[?|[_ Hne]]]; [|congruence|by rewrite Ho in Hne]. rewrite Hsame. by split.
    - destruct (created_cases op n) as [E'|(data' & Hd' & _ & E')]; [done|]. assert (data' = data) as -> by congruence.
      destruct (with_proposal_end data E' Hd Hr) as (a & Hin & Hcp & Hpar & Hat & Hai & Hlast & _).
      assert (under (h_created h1) (log_end (log n)) (log_end (with_proposal data n))) as Hup.
      { rewrite <- Hcp. apply under_step; [done|]. by rewrite Hpar. }
      rewrite Hl, Hlast. split; [done|]. intros b Hb Hbt Hbi.
      destruct (decide (cr_Index b = cr_Index a)) as [Heq|].
      + assert (b = a) as -> by (apply (ho_tree _ _ Hh); try done; congruence). by rewrite Hcp.
      + etrans; [|exact Hup]. apply Hcre; try done. lia. }
  unfold leads. rewrite Ht. split_and!; try done.
  - exists E. split; [done|by etrans].
  - intros y Hy%Htips. by etrans.
  - intros p. destruct (Hmatch p) as [->|(_ & _ & Hcr)]; [apply Hmt|]. right. by apply credited_acked.
Qed.

(** The node after the operation, before its commit index moves. *)
Lemma op_node : node_ok h1 i (set_commitIndex (commitIndex n) (run_op op n)).
Proof.
  pose proof op_progress as [Hmv Hterm Hrole Hsn Hpeers Hmatch _ _].
  destruct (proj2 Hc i n Hi) as (_ & _ & _ & Hcl & _).
  destruct (run_op_passive op n op_free Hcl) as (_ & _ & _ & _ & Hr & Hsv).
  pose proof (proj2 op_created i n Hi) as Hn. pose proof op_term_le as Hle.
  destruct (moved_follows (run_op op n) Hmv) as (Hw & Hlt & Hf); [by destruct Hterm as [?| ->]; [left|right]|done|].
  apply (node_ok_move m h1 i n); try done.
  - apply op_created.
  - apply Hsv, Hn.
  - change (ms_snapshot (view (storage (run_op op n))) = None). rewrite Hsn. apply Hn.
  - by left.
  - intros Hcand. change (role (run_op op n) = Candidate) in Hcand.
    destruct Hr as [?|(Hr & _ & Ht)]; [congruence|]. rewrite Hr in Hcand.
    destruct Hrole as [Hl|[?|[? _]]]; [|congruence..].
    change ((currentTerm (run_op op n), i, log_end (log (run_op op n))) ∈ h_camps h1). rewrite Ht, Hl. by apply Hn.
  - intros Hlead. change (role (run_op op n) = Leader) in Hlead. change (leads h1 i (run_op op n)).
    destruct Hr as [?|(Hr & _ & Ht)]; [congruence|]. apply op_leads; congruence.
  - intros p Hp. change (matchIndexOf (run_op op n) p = 0%N). change (p ∉ peerIDs (run_op op n)) in Hp.
    destruct (Hmatch p) as [->|(_ & _ & args & reply & e & Ho & _)]; [apply Hn; set_solver|].
    destruct Hop as [Hpl _]. rewrite Ho in Hpl. cbn in Hpl. set_solver.
Qed.

Notation n1 := (set_commitIndex (commitIndex n) (run_op op n)).
Notation w1 := (with_node i n1 w).
Notation h2 := (hist (mkRaft (mkCluster w ss (created_by op n ++ C)) vr (answered i op n ++ an) ca co be)).

Lemma op_cluster : cluster_inv m (with_node i (run_op op n) w) -> cluster_inv m w1.
Proof.
  intros Hc'. apply (inv_local m w); [done|].
  exact (proj2 Hc' i (run_op op n) ltac:(cbn; apply lookup_insert_eq)).
Qed.

(** The answer is on the network. *)
Lemma op_answered : cluster_inv m w1 -> world_inv m w1 h2.
Proof.
  intros Hc1. pose proof (node_event m w h1 i n1 op_created op_node) as Hw.
  destruct (answered_cases i op n) as [E|(args & Eop & E)]; rewrite E; [exact Hw|]. cbn [app].
  assert (nodes w1 !! i = Some n1) as Hi1 by (cbn; apply lookup_insert_eq).
  assert (args ∈ ss) as Hin by (destruct Hop as [_ Ho]; by rewrite Eop in Ho).
  refine (answer_event m w1 h1 Hc1 eq_refl eq_refl Hw i n1 args _ Hi1 Hin _).
  intros Hs. destruct (proj2 Hc i n Hi) as (_ & _ & _ & [Hcl _] & _).
  pose proof (append_success (h_created h1) args n (ho_tree _ _ (proj1 op_created))
    (no_whole _ _ _ (proj2 op_created i n Hi)) Hcl) as Ha.
  change (currentTerm (run_op op n) = ae_Term args /\
    under (h_created h1) (req_end args) (log_end (log (run_op op n)))).
  replace (run_op op n) with (fst (AppendEntries args n)) by (by rewrite Eop).
  apply Ha; [|done]. by apply (ho_sent _ _ (proj1 op_created)).
Qed.

(** The commit index of a follower that accepts a request. *)
Lemma follower_commit args :
  cluster_inv m w1 -> op = OpAppendEntries args -> aer_Success (snd (AppendEntries args n)) = true ->
  exists x, x.1 = followerCommit (commitIndex n) (ae_LeaderCommit args) (lastIndexLocked (log (run_op op n))) /\
    committed h2 (currentTerm n1) x /\ under (h_created h2) x (log_end (log n1)).
Proof.
  intros Hc1 Eop Hs. destruct (op_answered Hc1) as [Hh Hall].
  assert (nodes w1 !! i = Some n1) as Hi1 by (cbn; apply lookup_insert_eq).
  pose proof (Hall i n1 Hi1) as Hn1. unfold followerCommit.
  destruct (N.ltb_spec (commitIndex n) (ae_LeaderCommit args)); [|apply Hn1].
  assert (args ∈ ss) as Hin by (destruct Hop as [_ Ho]; by rewrite Eop in Ho).
  destruct (ho_sent _ _ Hh args Hin) as (Hreq & x & Hx & Hcx & Hux).
  destruct (proj2 Hc i n Hi) as (_ & _ & _ & [Hcl _] & _).
  destruct (append_success (h_created h1) args n) as [Ht Hu]; try done.
  { apply op_created. }
  { apply (no_whole _ _ _ (proj2 op_created i n Hi)). }
  replace (fst (AppendEntries args n)) with (run_op op n) in Ht, Hu by (by rewrite Eop).
  assert (under (h_created h2) x (log_end (log n1))) as Hxe by (etrans; [exact Hux|exact Hu]).
  exists x. split_and!; [|by change (currentTerm n1) with (currentTerm (run_op op n)); rewrite Ht|done].
  apply under_le in Hxe; [|apply Hh]. change (log n1) with (log (run_op op n)) in Hxe. cbn in Hxe. lia.
Qed.

(** The commit index of a follower that accepts the heartbeat of a read. *)
Lemma read_commit args :
  cluster_inv m w1 -> op = OpReadHeartbeat args -> aer_Success (snd (AppendEntries args n)) = true ->
  exists x, x.1 = followerCommit (commitIndex n) (ae_LeaderCommit args) (lastIndexLocked (log (run_op op n))) /\
    committed h2 (currentTerm n1) x /\ under (h_created h2) x (log_end (log n1)).
Proof.
  intros Hc1 Eop Hs. destruct (op_answered Hc1) as [Hh Hall].
  assert (nodes w1 !! i = Some n1) as Hi1 by (cbn; apply lookup_insert_eq).
  pose proof (Hall i n1 Hi1) as Hn1. pose proof (no_commit _ _ _ Hn1) as Hold.
  pose proof (node_commit_le m _ i n1 Hh Hn1) as Hle. destruct (no_whole _ _ _ Hn1) as [(Hwf & _) Hb0].
  change (commitIndex n1) with (commitIndex n) in Hold, Hle.
  assert (log n1 = log n) as Hlog.
  { change (log (run_op op n) = log n). pose proof (pg_moved _ _ _ op_progress) as Hm'.
    apply moved_inv in Hm' as [?|[(? & ? & _)|(? & ? & _)]]; [done|congruence|congruence]. }
  change (log (run_op op n)) with (log n1). rewrite Hlog in *.
  set (index := N.min (ae_LeaderCommit args) (lastIndexLocked (log n))).
  assert (followerCommit (commitIndex n) (ae_LeaderCommit args) (lastIndexLocked (log n)) = N.max (commitIndex n) index) as ->.
  { unfold followerCommit. destruct (N.ltb_spec (commitIndex n) (ae_LeaderCommit args)); lia. }
  destruct (decide (commitIndex n < index)%N) as [Hlt|]; [|by rewrite N.max_l by lia]. rewrite N.max_r by lia.
  assert (exists l, (args, l) ∈ be /\ agrees args l n) as (l & Hin & Hag)
    by (destruct Hop as [_ Ho]; by rewrite Eop in Ho).
  destruct (ho_beat _ _ Hh args l Hin) as (Hreq & _ & Hwl & x & Hx & Hcx & Hux).
  assert (currentTerm n1 = ae_Term args) as ->.
  { destruct (proj2 Hc i n Hi) as (_ & _ & _ & [Hcl _] & _).
    destruct (append_success (h_created h1) args n) as [Ht _]; try done.
    - apply op_created.
    - apply (no_whole _ _ _ (proj2 op_created i n Hi)).
    - change (currentTerm (run_op op n) = ae_Term args). by rewrite Eop. }
  assert (is_Some (getLocked (log n) index)) as [e He] by (apply (getLocked_range _ _ Hwf); lia).
  assert (term_at (log n) index = Some (le_Term e)) as Hterm by (unfold term_at; by rewrite He).
  pose proof (Hag Hlt) as Hl. fold index in Hl. rewrite Hterm in Hl. symmetry in Hl.
  exists (index, le_Term e). split_and!; [done| |].
  - apply (committed_under _ _ x); [apply Hh| |done].
    apply (under_linear _ (ho_tree _ _ Hh) _ _ (log_end l)); [by apply entry_under|done|cbn; lia].
  - apply entry_under; [|done]. rewrite <- Hlog. apply Hn1.
Qed.

Lemma op_step :
  cluster_inv m (with_node i (run_op op n) w) ->
  world_inv m (with_node i (run_op op n) w)
    (hist (mkRaft (mkCluster (with_node i (run_op op n) w) ss (created_by op n ++ C)) vr
         (answered i op n ++ an) ca (advanced i n (run_op op n) ++ co) be)).
Proof.
  intros Hc'. pose proof (op_cluster Hc') as Hc1. pose proof (op_answered Hc1) as Hw.
  assert (nodes w1 !! i = Some n1) as Hi1 by (cbn; apply lookup_insert_eq).
  assert (forall h c, world_inv m w1 h -> commitIndex (run_op op n) = c ->
    (exists x, x.1 = c /\ committed h (currentTerm n1) x /\ under (h_created h) x (log_end (log n1))) ->
    world_inv m (with_node i (run_op op n) w) h) as Hset.
  { intros h c Hwh Hcm Hx. pose proof (node_ok_commit h i n1 c (proj2 Hwh i n1 Hi1) Hx) as Hn.
    assert (set_commitIndex c n1 = run_op op n) as Heq.
    { rewrite <- Hcm. change (set_commitIndex (commitIndex (run_op op n)) (run_op op n) = run_op op n).
      apply set_commitIndex_same. }
    rewrite Heq in Hn. pose proof (node_event m w1 h i _ Hwh Hn) as Hfin.
    unfold with_node in Hfin |- *. cbn in Hfin. by rewrite insert_insert_eq in Hfin. }
  pose proof op_progress as [_ _ _ _ _ _ Hcommit _]. unfold advanced.
  destruct Hcommit as [Hcm|[(Hr & Hlt & Hcom)|(args & Ho & Hs & Hr & Hcm)]].
  - rewrite Hcm, N.ltb_irrefl, andb_false_r. apply (Hset h2 (commitIndex n) Hw Hcm). apply (proj2 Hw i n1 Hi1).
  - rewrite bool_decide_true by done. destruct (N.ltb_spec (commitIndex n) (commitIndex (run_op op n))); [|lia].
    cbn [andb app]. assert (1 <= commitIndex (run_op op n) <= lastIndexLocked (log n1))%N as Hr1
      by (change (log n1) with (log (run_op op n)); lia).
    pose proof (commit_event m w1 h2 Hc1 eq_refl eq_refl Hw i n1 _ Hi1 Hr Hr1 Hcom) as Hev.
    apply (Hset _ _ Hev eq_refl). exists (commitIndex (run_op op n), currentTerm n1). split_and!; [done| |].
    + right. exists (currentTerm n1), i, (commitIndex (run_op op n)), (log_end (log n1)).
      split_and!; [cbn; set_solver|done|reflexivity].
    + apply (logTerm_under _ i n1); [apply Hev, Hi1|done|apply Hcom].
  - rewrite bool_decide_false by congruence. cbn [andb app].
    apply (Hset h2 _ Hw eq_refl). rewrite Hcm. destruct Ho; [by apply follower_commit|by apply read_commit].
Qed.

Lemma crash_step n' :
  faithful n -> NewRaftNodeWithStorage i (storage (run_op op n)) = Ok n' ->
  world_inv m (with_node i n' w)
    (hist (mkRaft (mkCluster (with_node i n' w) ss (created_by op n ++ C)) vr an ca co be)).
Proof.
  intros Hf E. refine (node_event m w h1 i n' op_created _). pose proof op_progress as [_ _ _ Hsn _ _ _ Hdisk].
  destruct (Hdisk Hf) as (l & Hmv & Hd & Hterm). destruct (moved_ok l Hmv) as [Hw _].
  pose proof (proj2 op_created i n Hi) as Hn.
  destruct (restart_plain _ _ _ _ _ Hw Hd ltac:(rewrite Hsn; apply Hn) E) as (Hl & Hcm & Hp & Hmatch).
  destruct (restart_state _ _ _ E) as (_ & Hst & Hps & Hr & _). pose proof op_term_le as Hle.
  destruct (proj2 Hc i n Hi) as (_ & _ & _ & Hcl & _).
  destruct (run_op_passive op n op_free Hcl) as (_ & _ & _ & _ & _ & Hsv). specialize (Hsv (no_saved _ _ _ Hn)).
  assert (currentTerm n' = ps_CurrentTerm (stored (run_op op n))) as Ht by (unfold currentTerm; by rewrite Hps).
  unfold saved in Hsv.
  destruct (moved_follows n') as (Hw' & Hlt & Hfol).
  { by rewrite Hl. }
  { rewrite Hl, Ht. destruct Hterm as [?|Hterm]; [by left|right]. lia. }
  { lia. }
  apply (node_ok_move m h1 i n); try done; [apply op_created|lia| | |by right|congruence|congruence].
  - unfold saved, stored. by rewrite Ht, Hst.
  - rewrite Hst, Hsn. apply Hn.
Qed.
End Operation.

(** ** Runs *)

Lemma raft_step_inv m r r' :
  cluster_inv m (cl_world (cl r)) -> matching_inv (cl r) -> cluster_inv m (cl_world (cl r')) ->
  raft_inv m r -> raft_step r r' -> raft_inv m r'.
Proof.
  intros Hc Hm Hc' Hinv Hs. destruct Hs; cbn [cl cl_world] in *.
  - by eapply start_step.
  - by refine (votereq_event m w (hist (mkRaft (mkCluster w ss C) vr an ca co be)) Hc Hinv i n args _ _).
  - by eapply vote_step_inv.
  - by refine (reply_step m w ss C vr an ca co be n args reply Hc Hinv _).
  - by eapply lead_step.
  - by eapply send_step.
  - by eapply beat_step.
  - by apply op_step.
  - by eapply crash_step.
Qed.

Lemma new_raft_inv m r : new_raft m r -> raft_inv m r.
Proof.
  intros ((Hinit & Hss & Hcr & Hnew) & Hvr & Han & Hca & Hco & Hbe & Hn). destruct Hinit as (_ & Hb & Hw & Hall).
  assert (hist r = mkHistory [] [] [] [] [] [] [] [] []) as Hh by (unfold hist; congruence).
  unfold raft_inv. rewrite Hh. split.
  - split; cbn.
    + split; [by intros a b Ha%elem_of_nil|by intros a Ha%elem_of_nil].
    + by intros T i j Hx%elem_of_nil.
    + by intros T i E E' Hx%elem_of_nil.
    + by intros a b Ha%elem_of_nil.
    + by intros t y y' [(? & Hx%elem_of_nil & _)|(? & ? & Hx%elem_of_nil)].
    + by intros T i E Hx%elem_of_nil.
    + by intros args Hx%elem_of_nil.
    + by intros T v c Hx%elem_of_nil.
    + by intros T L Hx%elem_of_nil.
    + by intros a Hx%elem_of_nil.
    + by intros args Hx%elem_of_nil.
    + by intros args l Hx%elem_of_nil.
    + by intros t y [(? & Hx%elem_of_nil & _)|(? & ? & Hx%elem_of_nil)].
    + by intros v args reply Hx%elem_of_nil.
    + by intros t i c F Hx%elem_of_nil.
  - intros i n Hi. destruct (Hnew i n Hi) as [Hl Hsn]. destruct (Hn i n Hi) as (Hsv & Hcm & Hmatch).
    destruct (Hall i n Hi) as (_ & _ & _ & _ & Hr).
    split; try done; rewrite ?Hl, ?Hr; try done.
    + cbn. lia.
    + exists root. rewrite Hcm. split_and!; [done|by left|reflexivity].
    + by intros t y [(? & ? & Hx%elem_of_nil & _)|(? & Hx%elem_of_nil)].
Qed.

Lemma reachable_raft m r0 r :
  new_raft m r0 -> rtc raft_step r0 r ->
  cluster_inv m (cl_world (cl r)) /\ matching_inv (cl r) /\ raft_inv m r.
Proof.
  intros Hinit Hs. assert (cluster_inv m (cl_world (cl r0)) /\ matching_inv (cl r0) /\ raft_inv m r0) as Hinv.
  { pose proof (new_raft_inv m r0 Hinit). destruct Hinit as [Hnew _]. by apply new_cluster_inv in Hnew as [? ?]. }
  clear Hinit. induction Hs as [r|r1 r2 r3 H12 _ IH]; [done|]. apply IH. clear IH. destruct Hinv as (Hc & Hm & Hr).
  assert (cluster_inv m (cl_world (cl r2)) /\ matching_inv (cl r2)) as [Hc2 Hm2].
  { apply raft_cluster_step in H12; [|by intros args l (_ & ? & _)%(ho_beat _ _ (proj1 Hr))]. clear Hr. induction H12 as [|c1 c2 c3 Hcs _ IH]; [done|].
    destruct (cluster_step_inv m c1 c2) as [? ?]; auto. }
  split_and!; try done. by apply (raft_step_inv m r1).
Qed.

Lemma raft_step_grows r r' : raft_step r r' -> grows (hist r) (hist r').
Proof.
  intros Hs. destruct Hs as [i n n' [t|e]|i n args|i n n' args reply|n args reply|i n n' []|i n p args|i n p t c args|i n op|i n op n'];
    try destruct (rvr_VoteGranted reply); split; cbn; set_solver.
Qed.

Lemma raft_grows r r' : rtc raft_step r r' -> grows (hist r) (hist r').
Proof. intros Hs. induction Hs as [|r1 r2 r3 H12 _ IH]; [reflexivity|]. etrans; [by apply raft_step_grows|done]. Qed.

(** The committed part of a log lies on the path to a committed position. *)
Lemma committed_entry m h i n k :
  history_ok m h -> node_ok h i n -> (1 <= k <= commitIndex n)%N ->
  exists e x, getLocked (log n) k = Some e /\ committed h (currentTerm n) x /\
    under (h_created h) (k, le_Term e) x.
Proof.
  intros Hh Hn Hk. pose proof (node_commit_le m h i n Hh Hn) as Hle.
  destruct (no_commit _ _ _ Hn) as (x & Hx & Hcx & Hux). destruct (no_whole _ _ _ Hn) as [Hok Hb].
  assert (is_Some (getLocked (log n) k)) as [e He] by (apply (getLocked_range _ _ (proj1 Hok)); lia).
  exists e, x. split_and!; try done.
  apply (under_linear _ (ho_tree _ _ Hh) _ _ (log_end (log n))); [|done|cbn; lia].
  apply entry_under; [apply Hn|]. unfold term_at. by rewrite He.
Qed.

(** C5: leader completeness.  Take a new cluster with a fixed membership that takes no
    snapshots and a run by the steps above, with any message loss, delay, duplication and
    reordering, failing storage calls and crashes of nodes whose disk held their log, in
    which a read's heartbeat makes no follower commit an entry its leader does not have
    ([agrees]) and a read's answer that forces a step down is of a later term than the node
    ([timely]).  The entry of term [t] that the leader of term [t] committed at [c] is in
    the log of every leader of that or a later term. *)
Theorem leader_completeness m r0 r t i c F j n :
  new_raft m r0 -> rtc raft_step r0 r -> (t, i, c, F) ∈ commits r ->
  nodes (cl_world (cl r)) !! j = Some n -> role n = Leader -> (t <= currentTerm n)%N ->
  term_at (log n) c = Some t.
Proof.
  intros Hinit Hs Hin Hj Hr Ht. destruct (reachable_raft m _ _ Hinit Hs) as (Hc & _ & Hinv).
  pose proof Hinv as [Hh Hall]. pose proof (Hall j n Hj) as Hn.
  destruct (ho_commit _ _ Hh _ _ _ _ Hin) as (Hc1 & HcF & _).
  apply (under_entry (h_created (hist r))); [apply Hh|apply Hn|done|].
  destruct (decide (t = currentTerm n)) as [->|Hne].
  - etrans; [exact HcF|]. apply (no_leader _ _ _ Hn Hr). right. by exists i, c.
  - destruct (leader_elected m _ (hist r) Hc eq_refl Hinv j n Hj Hr) as (E & HE & Hu).
    etrans; [|exact Hu]. eapply (complete m (hist r) Hh); [done|done|lia].
Qed.

Lemma committed_agree m r0 r1 r2 i j n1 n2 k :
  new_raft m r0 -> rtc raft_step r0 r1 -> rtc raft_step r1 r2 ->
  nodes (cl_world (cl r1)) !! i = Some n1 -> nodes (cl_world (cl r2)) !! j = Some n2 ->
  (1 <= k <= commitIndex n1)%N -> (k <= commitIndex n2)%N ->
  exists e, getLocked (log n1) k = Some e /\ getLocked (log n2) k = Some e.
Proof.
  intros Hinit Hs1 Hs2 Hi Hj Hk1 Hk2. pose proof (raft_grows _ _ Hs2) as Hg.
  destruct (reachable_raft m _ _ Hinit Hs1) as (_ & _ & Hh1 & Hall1).
  destruct (reachable_raft m _ _ Hinit ltac:(by etrans)) as (_ & _ & Hh2 & Hall2).
  pose proof (Hall1 i n1 Hi) as Hn1. pose proof (Hall2 j n2 Hj) as Hn2. pose proof (ho_tree _ _ Hh2) as Htree.
  destruct (committed_entry m _ i n1 k Hh1 Hn1 Hk1) as (e1 & x1 & Hg1 & Hc1 & Hu1).
  destruct (committed_entry m _ j n2 k Hh2 Hn2 ltac:(lia)) as (e2 & x2 & Hg2 & Hc2 & Hu2).
  apply (committed_grow _ _ Hg _ (currentTerm n1)) in Hc1; [|done]. apply (under_grow _ _ Hg) in Hu1.
  assert (le_Term e1 = le_Term e2) as Hterm.
  { assert ((k, le_Term e1) = (k, le_Term e2)) as [= ?]; [|done].
    destruct (N.le_ge_cases x1.1 x2.1) as [Hle|Hle].
    - apply (under_index _ Htree _ _ x2); [|done..]. etrans; [exact Hu1|]. by eapply committed_total.
    - apply (under_index _ Htree _ _ x1); [done| |done]. etrans; [exact Hu2|]. by eapply committed_total. }
  exists e1. split; [done|]. rewrite Hg2. f_equal.
  destruct (no_whole _ _ _ Hn1) as [Hok1 Hb1]. destruct (no_whole _ _ _ Hn2) as [Hok2 Hb2].
  pose proof (log_ok_entry _ (log n1) k e1 Hok1 ltac:(lia) Hg1) as Hin1. apply (gr_created _ _ Hg) in Hin1.
  pose proof (log_ok_entry _ (log n2) k e2 Hok2 ltac:(lia) Hg2) as Hin2.
  pose proof (getLocked_index _ _ _ (proj1 Hok1) Hg1) as Hi1. pose proof (getLocked_index _ _ _ (proj1 Hok2) Hg2) as Hi2.
  pose proof (proj1 Htree _ _ Hin2 Hin1 ltac:(cbn; congruence) ltac:(cbn; congruence)) as Heq.
  destruct e1, e2. unfold created_as in Heq. cbn in *. congruence.
Qed.

(** C4: state machine safety.  In a run as in [leader_completeness] (no snapshots, fixed
    membership, a read's heartbeat commits only what its leader has, late answers to reads
    excluded), an entry that a node has committed at an index at some time is the entry,
    data included, that any node has committed at this index at that or any later time. *)
Theorem state_machine_safety m r0 r1 r2 i j n1 n2 k :
  new_raft m r0 -> rtc raft_step r0 r1 -> rtc raft_step r1 r2 ->
  nodes (cl_world (cl r1)) !! i = Some n1 -> nodes (cl_world (cl r2)) !! j = Some n2 ->
  (1 <= k <= commitIndex n1)%N -> (k <= commitIndex n2)%N ->
  exists e, getLocked (log n1) k = Some e /\ getLocked (log n2) k = Some e.
Proof. apply committed_agree. Qed.
End Safety.

(** ** A run: node a stores a proposal, b accepts it, a commits it and b learns of it *)

Definition abc : Membership := mkMembership (mkConfiguration ["a"; "b"; "c"]) None.
Definition reply_b : AppendEntriesReply := snd (AppendEntries request_b voter_b).
Definition committed_a : RaftNode MemoryStorage := run_op (OpAppendEntriesReply "b" request_b reply_b) leader_a.
Definition heartbeat_b : AppendEntriesArgs :=
  default (mkAppendEntriesArgs 0 "" 0 0 [] 0) (buildAppendEntries committed_a "b").
Definition committed_b : RaftNode MemoryStorage := run_op (OpAppendEntries heartbeat_b) follower_b.

Definition fresh_raft : raft := mkRaft (mkCluster fresh_world [] []) [] [] [] [] [].

Definition elected_raft : raft :=
  mkRaft (mkCluster elected_world [] []) [vote_args] [] [(1%N, "a", (0, 0)%N)] [] [].

Definition committed_raft : raft :=
  mkRaft (mkCluster (with_node "b" committed_b (with_node "a" committed_a
                      (with_node "b" follower_b (with_node "a" leader_a elected_world))))
            [heartbeat_b; request_b]
            (created_by (OpAppendEntries heartbeat_b) follower_b ++
             created_by (OpAppendEntriesReply "b" request_b reply_b) leader_a ++
             created_by (OpAppendEntries request_b) voter_b ++ created_by (OpPropose [x07]) elected_a ++ []))
    [vote_args]
    (answered "b" (OpAppendEntries heartbeat_b) follower_b ++
     answered "a" (OpAppendEntriesReply "b" request_b reply_b) leader_a ++
     answered "b" (OpAppendEntries request_b) voter_b ++ answered "a" (OpPropose [x07]) elected_a ++ [])
    [(1%N, "a", (0, 0)%N)]
    (advanced "b" follower_b committed_b ++ advanced "a" leader_a committed_a ++
     advanced "b" voter_b follower_b ++ advanced "a" elected_a leader_a ++ []) [].

Lemma fresh_raft_new : new_raft abc fresh_raft.
Proof.
  split_and!; [exact fresh_cluster|done..|]. intros i n Hi. cbn in Hi.
  repeat (apply lookup_insert_Some in Hi as [[<- <-]|[_ Hi]]; [done|]).
  by apply lookup_singleton_Some in Hi as [<- <-].
Qed.

Lemma elected_raft_reachable : rtc raft_step fresh_raft elected_raft.
Proof.
  eapply rtc_l.
  { apply (RStart "a" (fresh "a") candidate_a (Ok 1%N)); vm_compute; reflexivity. }
  eapply rtc_l.
  { apply (RSolicit "a" candidate_a vote_args); vm_compute; reflexivity. }
  eapply rtc_l.
  { apply (RVote "b" (fresh "b") voter_b vote_args vote_reply); [vm_compute; reflexivity|set_solver|vm_compute; reflexivity]. }
  eapply rtc_l.
  { apply (RVoteReply candidate_a vote_args vote_reply); [vm_compute; reflexivity|set_solver]. }
  eapply rtc_l.
  { apply (RLead "a" (handleVoteReply 1 vote_reply candidate_a) elected_a true); vm_compute; reflexivity. }
  apply rtc_refl.
Qed.

Lemma committed_raft_reachable : rtc raft_step elected_raft committed_raft.
Proof.
  eapply rtc_l.
  { apply (ROp "a" elected_a (OpPropose [x07])); [vm_compute; reflexivity|by vm_compute]. }
  eapply rtc_l.
  { apply (RSend "a" leader_a "b" request_b); vm_compute; reflexivity. }
  eapply rtc_l.
  { apply (ROp "b" voter_b (OpAppendEntries request_b)); [vm_compute; reflexivity|]. split; [done|]. exact (list_elem_of_here _ _). }
  eapply rtc_l.
  { apply (ROp "a" leader_a (OpAppendEntriesReply "b" request_b reply_b)); [vm_compute; reflexivity|].
    split; [vm_compute; set_solver|]. exact (list_elem_of_here _ _). }
  eapply rtc_l.
  { apply (RSend "a" committed_a "b" heartbeat_b); vm_compute; reflexivity. }
  eapply rtc_l.
  { apply (ROp "b" follower_b (OpAppendEntries heartbeat_b)); [vm_compute; reflexivity|]. split; [done|]. exact (list_elem_of_here _ _). }
  apply rtc_refl.
Qed.

Lemma committed_run : rtc raft_step fresh_raft committed_raft.
Proof. etrans; [exact elected_raft_reachable|exact committed_raft_reachable]. Qed.

Lemma leader_completeness_witness :
  (1%N, "a", 1%N, (1, 1)%N) ∈ commits committed_raft /\ term_at (log committed_a) 1 = Some 1%N.
Proof.
  assert ((1%N, "a", 1%N, (1, 1)%N) ∈ commits committed_raft) as Hin by (vm_compute; set_solver).
  split; [exact Hin|].
  apply (leader_completeness abc fresh_raft committed_raft 1 "a" 1 (1, 1)%N "a" committed_a);
    [exact fresh_raft_new|exact committed_run
    |exact Hin|vm_compute; reflexivity..|vm_compute; discriminate].
Defined.

Lemma state_machine_safety_witness :
  commitIndex committed_a = 1%N /\ commitIndex committed_b = 1%N /\
  exists e, getLocked (log committed_a) 1 = Some e /\ getLocked (log committed_b) 1 = Some e.
Proof.
  split_and!; [vm_compute; reflexivity..|].
  apply (state_machine_safety abc fresh_raft committed_raft committed_raft "a" "b" committed_a committed_b 1);
    [exact fresh_raft_new|exact committed_run
    |apply rtc_refl|vm_compute; reflexivity..|vm_compute; split; discriminate|vm_compute; discriminate].
Defined.
