(* ===== verification/ReplicationLoop.v ===== *)
(** The retry loop of [replicateTo]: the requests it builds, and when it does not terminate.
    With a follower that takes the entries it catches the follower up: [CatchUp.v]. *)

From S2P Require Import Prelude Model RaftLog Storage Membership ConfigEntry Node Election.
From S2P Require Import Apply SnapshotOps Replication ReplicationFacts Durability ReadIndex.

Section Loop.
Context {S : Type} `{Storage S} {W : Type} (T : Transport W).
Implicit Types n : RaftNode S.

(** There is no snapshot to send. *)
Definition no_snapshot n : Prop :=
  match st_LoadSnapshot (storage n) with
  | Ok sn => snap_LastIncludedIndex sn = 0%N
  | Err _ => True
  end.

(** The peer rejects every request, in the term of the request. *)
Definition always_rejects (peerID : NodeID) : Prop :=
  forall w args, exists w', tr_AppendEntries T w peerID args =
    (w', Ok (mkAppendEntriesReply (ae_Term args) peerID false)).

(** ** Frames *)

Lemma applyOne_leaderSt n n' b : applyOne n = (n', b) -> LeaderSt (state n') = LeaderSt (state n).
Proof.
  unfold applyOne, applyConfigurationEntryLocked, becomeFollowerLocked. intros E.
  repeat (split_hyp_match E; simplify_eq; try done).
Qed.

Lemma applyCommitted_leaderSt n : LeaderSt (state (applyCommitted n)) = LeaderSt (state n).
Proof.
  unfold applyCommitted. generalize (N.to_nat (commitIndex n - lastApplied n)). intros fuel.
  revert n; induction fuel as [|fuel IH]; intros n; cbn; [done|].
  destruct (applyOne n) as [n1 []] eqn:E; apply applyOne_leaderSt in E; [by rewrite IH|done].
Qed.

Lemma sendInstallSnapshot_none peerID w n :
  no_snapshot n -> sendInstallSnapshot T peerID w n = (w, n, false).
Proof.
  unfold no_snapshot, sendInstallSnapshot, buildInstallSnapshot. intros Hs.
  destruct (negb _); [done|]. case_bool_decide; [done|].
  destruct (nextIndexOf n peerID); [|done]. destruct (st_LoadSnapshot _) as [sn|]; [|done].
  rewrite Hs. done.
Qed.

(** A leader with an uncompacted log can always build a request. *)
Lemma collectEntries_total l count index :
  log_wf l -> lastIncludedIndex l = 0%N -> (0 < index)%N ->
  (index + N.of_nat count <= lastIndexLocked l + 1)%N -> is_u64 (lastIndexLocked l + 1)%N ->
  exists es, collectEntries l count index = Some es.
Proof.
  intros Hwf Hb. revert index; induction count as [|count IH]; intros index Hi Hle Hu; cbn; [eauto|].
  assert (is_Some (getLocked l index)) as [e ->] by (apply getLocked_range; [done|lia]).
  rewrite u64_add_small by lia. destruct (IH (index + 1)%N) as [es ->]; [lia..|]. eauto.
Qed.

Lemma buildAppendEntries_total n peerID next :
  role n = Leader -> log_wf (log n) -> lastIncludedIndex (log n) = 0%N ->
  is_u64 (lastIndexLocked (log n) + 1)%N -> nextIndexOf n peerID = Some next ->
  (1 <= next <= lastIndexLocked (log n) + 1)%N ->
  exists pt es, buildAppendEntries n peerID =
    Some (mkAppendEntriesArgs (currentTerm n) (id n) (next - 1) pt es (commitIndex n)) /\
    length es = N.to_nat (lastIndexLocked (log n) + 1 - next) /\
    forall k e, es !! k = Some e -> le_Index e = (next + N.of_nat k)%N.
Proof.
  intros Hr Hwf Hb Hu Hn Hrange. unfold buildAppendEntries. rewrite bool_decide_false by (intros Hx; exact (Hx Hr)).
  rewrite Hn.
  destruct (collectEntries_total (log n) (N.to_nat (lastIndexLocked (log n) + 1 - next)) next)
    as [es Hes]; [done|done|lia..|].
  pose proof Hes as Hsp. apply collectEntries_spec in Hsp as [Hlen Hall]; [|lia].
  rewrite Hes. assert (forall k e, es !! k = Some e -> le_Index e = (next + N.of_nat k)%N) as Hix.
  { intros k e Hk. by apply (getLocked_index (log n)), Hall. }
  destruct (N.ltb_spec 1 next).
  - rewrite u64_sub_small by lia.
    assert (is_Some (getLocked (log n) (next - 1))) as [pe ->] by (apply getLocked_range; [done|lia]).
    eexists _, _. split; [done|done].
  - replace (next - 1)%N with 0%N by lia. eexists _, _. split; [done|done].
Qed.

Lemma matchIndexOf_leaderSt n n' peerID :
  LeaderSt (state n') = LeaderSt (state n) -> matchIndexOf n' peerID = matchIndexOf n peerID.
Proof. unfold matchIndexOf. by intros ->. Qed.

(** An accepted request brings the match index to its last entry. *)
Lemma handle_accept peerID args n e :
  role n = Leader -> ae_Term args = currentTerm n -> last (ae_Entries args) = Some e ->
  (le_Index e <= matchIndexOf
    (handleAppendEntriesReply peerID args (mkAppendEntriesReply (ae_Term args) peerID true) n) peerID)%N.
Proof.
  intros Hr Ht He. unfold handleAppendEntriesReply. cbn [aer_Term aer_Success]. rewrite Ht, N.ltb_irrefl.
  rewrite bool_decide_false by (intros Hx; exact (Hx Hr)). rewrite N.eqb_refl, He. cbn [negb].
  set (n1 := if (_ <? _)%N then _ else n).
  assert (le_Index e <= matchIndexOf n1 peerID)%N as Hm.
  { unfold n1. destruct (N.ltb_spec (matchIndexOf n peerID) (le_Index e)); [|lia].
    unfold matchIndexOf. cbn. rewrite lookup_insert_eq. cbn. lia. }
  clearbody n1. destruct (advanceCommitIndexLocked n1) as [n2 b] eqn:E.
  apply advanceCommitIndexLocked_set in E as [c ->].
  destruct b; rewrite (matchIndexOf_leaderSt n1); rewrite ?applyCommitted_leaderSt; done.
Qed.

(** Replication to a peer that keeps rejecting never ends.  A peer that
    answers in the leader's term but rejects even the request that starts at
    index 1 (a follower whose storage fails) keeps the loop of [replicateTo]
    running forever, whatever the fuel. *)
Theorem replicateTo_spins fuel peerID next w n :
  role n = Leader -> transportSet n = true -> no_snapshot n -> log_wf (log n) ->
  lastIncludedIndex (log n) = 0%N -> is_u64 (lastIndexLocked (log n) + 1)%N ->
  always_rejects peerID -> nextIndexOf n peerID = Some next ->
  (1 <= next <= lastIndexLocked (log n) + 1)%N ->
  replicateTo T fuel peerID w n = None.
Proof.
  intros Hr Htr Hs Hwf Hb Hu Hrej. revert next w n Hr Htr Hs Hwf Hb Hu.
  induction fuel as [|fuel IH]; intros next w n Hr Htr Hs Hwf Hb Hu Hn Hrange; [done|].
  cbn [replicateTo]. rewrite Htr, sendInstallSnapshot_none by done. cbn [negb].
  destruct (buildAppendEntries_total n peerID next) as (pt & es & -> & _ & _); [done..|].
  destruct (Hrej w (mkAppendEntriesArgs (currentTerm n) (id n) (next - 1) pt es (commitIndex n))) as [w1 ->].
  cbn [ae_Term aer_Success]. unfold handleAppendEntriesReply. cbn [aer_Term aer_Success ae_Term].
  rewrite N.ltb_irrefl. rewrite (bool_decide_false (role n ≠ Leader)) by (intros Hx; exact (Hx Hr)).
  rewrite N.eqb_refl, Hn. cbn [negb]. change (default 0%N (Some next)) with next.
  destruct (N.ltb_spec 1 next).
  - rewrite u64_sub_small by lia. rewrite bool_decide_false by (intros Hx; exact (Hx Hr)).
    apply (IH (next - 1)%N); try done; [|cbn; lia]. unfold nextIndexOf. cbn. by rewrite lookup_insert_eq.
  - rewrite bool_decide_false by (intros Hx; exact (Hx Hr)). by apply (IH next).
Qed.

End Loop.

(** ** Witnesses *)

(** A peer that rejects all requests. *)
Definition rejecting_peer : Transport unit :=
  mkTransport unit
    (fun w p args => (w, Err (Msg "unreachable")))
    (fun w p args => (w, Err (Msg "unreachable")))
    (fun w p args => (w, Ok (mkAppendEntriesReply (ae_Term args) p false)))
    (fun w p args => (w, Err (Msg "unreachable"))).

(** The leader of [sample_node] believes that b needs entry 3 next. *)
Definition loop_leader : RaftNode MemoryStorage := sample_node "a" Leader two_entries.

Lemma replicateTo_spins_witness :
  replicateTo rejecting_peer 1000 "b" tt (set_nextIndex "b" 2 loop_leader) = None.
Proof.
  apply (replicateTo_spins rejecting_peer 1000 "b" 2 tt
    (set_nextIndex "b" 2 loop_leader)).
  - done.
  - done.
  - done.
  - solve_log_wf.
  - done.
  - vm_compute. done.
  - intros w args. by exists w.
  - vm_compute. done.
  - vm_compute. done.
Defined.
