(* ===== verification/Lifecycle.v ===== *)
(** The goroutines of a node: [Start], [run], [runTick], [startElectionIfNeeded],
    [Stop] and [IsRunning] of [internal/raft/node_lifecycle.go].

    The channels made by the [g]th call of [Start] are [stopCh] and [doneCh] number [g].
    A loop reads [n.stopCh] anew in every iteration; its [doneCh] is the one in the
    node when [run] begins, because the argument of the deferred [close] is evaluated
    there.  A transition is one section under [runMu], or one step of a goroutine between
    them; [tick] itself is in [Node].

    The goroutines of heartbeats and elections run the node's own code and can hang: a
    heartbeat that finds [applyMu] held by a goroutine blocked on the apply channel
    ([Pipeline.v]) or a [replicateTo] that does not end ([ReplicationLoop.v]).  Whether they
    come to an end is the argument of the steps. *)

From S2P Require Import Prelude Model RaftLog Storage Membership Node.

(** A goroutine of [run]: not yet begun, or in its loop with the [doneCh] to close. *)
Inductive loop := Starting | Looping (doneCh : nat).

Record lifecycle := mkLifecycle {
  lc_running : bool;
  lc_electionInFlight : bool;
  lc_started : nat;               (* the number of calls of Start; the current channels *)
  lc_stopClosed : gset nat;       (* the stop channels that are closed *)
  lc_doneClosed : gset nat;       (* the done channels that are closed *)
  lc_loops : list loop;
  lc_heartbeats : nat;            (* goroutines of runTick *)
  lc_elections : nat;             (* goroutines of startElectionIfNeeded *)
  lc_stopping : list nat;         (* calls of Stop, by the doneCh they wait for *)
  lc_panicked : bool;             (* a channel was closed twice *)
}.

Definition lc_new : lifecycle := mkLifecycle false false 0 ∅ ∅ [] 0 0 [] false.

(** [Start]: [None] for the error of a running node. *)
Definition lc_Start (s : lifecycle) : option lifecycle :=
  if lc_running s then None
  else Some (mkLifecycle true (lc_electionInFlight s) (S (lc_started s)) (lc_stopClosed s) (lc_doneClosed s)
               (lc_loops s ++ [Starting]) (lc_heartbeats s) (lc_elections s) (lc_stopping s) (lc_panicked s)).

(** [Stop] up to the wait; a node that is not running returns at once. *)
Definition lc_Stop (s : lifecycle) : lifecycle :=
  if negb (lc_running s) then s
  else mkLifecycle false (lc_electionInFlight s) (lc_started s) ({[lc_started s]} ∪ lc_stopClosed s) (lc_doneClosed s)
         (lc_loops s) (lc_heartbeats s) (lc_elections s) (lc_stopping s ++ [lc_started s]) (lc_panicked s).

Definition lc_IsRunning (s : lifecycle) : bool := lc_running s.

(** [startElectionIfNeeded]: one election at a time. *)
Definition startElectionIfNeeded (s : lifecycle) : lifecycle :=
  if lc_electionInFlight s then s
  else mkLifecycle (lc_running s) true (lc_started s) (lc_stopClosed s) (lc_doneClosed s) (lc_loops s)
         (lc_heartbeats s) (S (lc_elections s)) (lc_stopping s) (lc_panicked s).

(** [runTick], by what [tick] says is due. *)
Definition runTick (electionDue heartbeatDue : bool) (s : lifecycle) : lifecycle :=
  let s := if heartbeatDue
           then mkLifecycle (lc_running s) (lc_electionInFlight s) (lc_started s) (lc_stopClosed s) (lc_doneClosed s)
                  (lc_loops s) (S (lc_heartbeats s)) (lc_elections s) (lc_stopping s) (lc_panicked s)
           else s in
  if electionDue then startElectionIfNeeded s else s.

Definition set_loops (ls : list loop) (s : lifecycle) : lifecycle :=
  mkLifecycle (lc_running s) (lc_electionInFlight s) (lc_started s) (lc_stopClosed s) (lc_doneClosed s) ls
    (lc_heartbeats s) (lc_elections s) (lc_stopping s) (lc_panicked s).

(** [close(doneCh)]: closing it again panics. *)
Definition closeDone (d : nat) (s : lifecycle) : lifecycle :=
  mkLifecycle (lc_running s) (lc_electionInFlight s) (lc_started s) (lc_stopClosed s) ({[d]} ∪ lc_doneClosed s) (lc_loops s)
    (lc_heartbeats s) (lc_elections s) (lc_stopping s) (lc_panicked s || bool_decide (d ∈ lc_doneClosed s)).

Section Steps.
Context (heartbeatsEnd electionsEnd : bool).

Inductive lstep : lifecycle -> lifecycle -> Prop :=
| ls_start s s' : lc_Start s = Some s' -> lstep s s'
| ls_stop s : lc_running s = true -> lstep s (lc_Stop s)
| ls_begin s ls1 ls2 :
    lc_loops s = ls1 ++ Starting :: ls2 ->
    lstep s (set_loops (ls1 ++ Looping (lc_started s) :: ls2) s)
| ls_tick s d electionDue heartbeatDue :
    Looping d ∈ lc_loops s -> lstep s (runTick electionDue heartbeatDue s)
| ls_exit s ls1 d ls2 :
    lc_loops s = ls1 ++ Looping d :: ls2 -> lc_started s ∈ lc_stopClosed s ->
    lstep s (closeDone d (set_loops (ls1 ++ ls2) s))
| ls_heartbeat_done s k :
    lc_heartbeats s = S k -> heartbeatsEnd = true ->
    lstep s (mkLifecycle (lc_running s) (lc_electionInFlight s) (lc_started s) (lc_stopClosed s) (lc_doneClosed s)
               (lc_loops s) k (lc_elections s) (lc_stopping s) (lc_panicked s))
| ls_election_done s k :
    lc_elections s = S k -> electionsEnd = true ->
    lstep s (mkLifecycle (lc_running s) false (lc_started s) (lc_stopClosed s) (lc_doneClosed s)
               (lc_loops s) (lc_heartbeats s) k (lc_stopping s) (lc_panicked s))
| ls_stopped s ws1 d ws2 :
    lc_stopping s = ws1 ++ d :: ws2 -> d ∈ lc_doneClosed s -> lc_heartbeats s = 0 -> lc_elections s = 0 ->
    lstep s (mkLifecycle (lc_running s) (lc_electionInFlight s) (lc_started s) (lc_stopClosed s) (lc_doneClosed s)
               (lc_loops s) 0 0 (ws1 ++ ws2) (lc_panicked s)).

(** The calls of one owner: [Start] is not called while a [Stop] is waiting. *)
Inductive owned_step : lifecycle -> lifecycle -> Prop :=
| os_step s s' : lstep s s' -> (lc_Start s = Some s' -> lc_stopping s = []) -> owned_step s s'.

End Steps.

(** ** Invariants *)

Section Invariants.
Context {he ee : bool}.
Notation lstep := (lstep he ee).
Notation owned_step := (owned_step he ee).

(** At most one election runs, and the flag tells. *)
Definition one_election (s : lifecycle) : Prop :=
  lc_elections s = if lc_electionInFlight s then 1 else 0.

Lemma lstep_one_election s s' : lstep s s' -> one_election s -> one_election s'.
Proof.
  unfold one_election. intros Hs Hi. destruct Hs as [x x' E|x Hr|x ls1 ls2 E|x d e h Hin|x ls1 d ls2 E Hc|x k E Hend|x k E Hend|x ws1 d ws2 E Hd Hh He].
  - unfold lc_Start in E. destruct (lc_running x); [done|]. by simplify_eq.
  - unfold lc_Stop. by rewrite Hr.
  - done.
  - unfold runTick, startElectionIfNeeded. destruct h, e; cbn; try done; destruct (lc_electionInFlight x) eqn:Ef; cbn; rewrite ?Ef; lia.
  - done.
  - done.
  - cbn. destruct (lc_electionInFlight x); lia.
  - cbn. rewrite Hi in He. by destruct (lc_electionInFlight x).
Qed.

(** The states of a node with one owner: idle, running with one loop, and stopping. *)
Inductive phase (s : lifecycle) : Prop :=
| idle : lc_running s = false -> lc_stopping s = [] -> lc_loops s = [] -> lc_heartbeats s = 0 -> lc_elections s = 0 -> phase s
| up l : lc_running s = true -> lc_stopping s = [] -> lc_loops s = [l] -> (l = Starting \/ l = Looping (lc_started s)) ->
    (lc_started s ∉ lc_stopClosed s) -> (lc_started s ∉ lc_doneClosed s) -> phase s
| ending l : lc_running s = false -> lc_stopping s = [lc_started s] -> lc_loops s = [l] ->
    (l = Starting \/ l = Looping (lc_started s)) -> lc_started s ∈ lc_stopClosed s -> (lc_started s ∉ lc_doneClosed s) -> phase s
| ended : lc_running s = false -> lc_stopping s = [lc_started s] -> lc_loops s = [] -> lc_started s ∈ lc_doneClosed s -> phase s.

Definition owned_ok (s : lifecycle) : Prop :=
  phase s /\ lc_panicked s = false /\
  (forall d, d ∈ lc_stopClosed s \/ d ∈ lc_doneClosed s -> d <= lc_started s).

(** Ticks and the goroutines they start leave the channels and loops alone. *)
Lemma runTick_frame e h s :
  lc_running (runTick e h s) = lc_running s /\ lc_started (runTick e h s) = lc_started s /\
  lc_stopClosed (runTick e h s) = lc_stopClosed s /\ lc_doneClosed (runTick e h s) = lc_doneClosed s /\
  lc_loops (runTick e h s) = lc_loops s /\ lc_stopping (runTick e h s) = lc_stopping s /\
  lc_panicked (runTick e h s) = lc_panicked s.
Proof. unfold runTick, startElectionIfNeeded. destruct h, e; cbn; try done; by destruct (lc_electionInFlight s). Qed.

Lemma singleton_split {A} (x y : A) l1 l2 : [x] = l1 ++ y :: l2 -> l1 = [] /\ y = x /\ l2 = [].
Proof. destruct l1 as [|z l1]; cbn; [naive_solver|]. intros [= _ E]. by destruct l1. Qed.

Lemma no_split {A} (y : A) l1 l2 : [] = l1 ++ y :: l2 -> False.
Proof. by destruct l1. Qed.

Lemma owned_step_ok s s' : owned_step s s' -> owned_ok s -> owned_ok s'.
Proof.
  intros [y y' Hs Hown] (Hp & Hpan & Hle).
  destruct Hs as [x x' E|x Hr|x ls1 ls2 E|x d e h Hin|x ls1 d ls2 E Hc|x k E Hend|x k E Hend|x ws1 d ws2 E Hd Hh He].
  - unfold lc_Start in E. destruct (lc_running x) eqn:Hr; [done|]. simplify_eq.
    specialize (Hown ltac:(unfold lc_Start; by rewrite Hr)). split_and!; [|done|cbn; intros d Hd; specialize (Hle d Hd); lia].
    destruct Hp; try congruence. eapply up with (l := Starting); cbn; [done|done|by rewrite H1|by left|..].
    all: intros Hd; specialize (Hle (S (lc_started x))); naive_solver lia.
  - unfold lc_Stop. rewrite Hr. cbn. split_and!; [|done|cbn; intros d [[->%elem_of_singleton|?]%elem_of_union|?]; auto].
    destruct Hp; try congruence. eapply ending; cbn; try done; [by rewrite H0|set_solver].
  - split_and!; [|done|done]. destruct Hp as [Hr Hst Hl _ _|l Hr Hst Hl Hlo Hns Hnd|l Hr Hst Hl Hlo Hns Hnd|Hr Hst Hl Hd];
      rewrite Hl in E; try (by destruct (no_split _ _ _ E)); apply singleton_split in E as (-> & <- & ->).
    + eapply up; cbn; try done. by right.
    + eapply ending; cbn; try done. by right.
  - destruct (runTick_frame e h x) as (F1 & F2 & F3 & F4 & F5 & F6 & F7). unfold owned_ok. rewrite F2, F3, F4, F7.
    split_and!; [|done|done]. destruct Hp as [Hr Hst Hl _ _|l Hr Hst Hl Hlo Hns Hnd|l Hr Hst Hl Hlo Hns Hnd|Hr Hst Hl Hd].
    + rewrite Hl in Hin. set_solver.
    + eapply up; rewrite ?F1, ?F2, ?F3, ?F4, ?F5, ?F6; eauto.
    + eapply ending; rewrite ?F1, ?F2, ?F3, ?F4, ?F5, ?F6; eauto.
    + rewrite Hl in Hin. set_solver.
  - destruct Hp as [Hr Hst Hl _ _|l Hr Hst Hl Hlo Hns Hnd|l Hr Hst Hl Hlo Hns Hnd|Hr Hst Hl Hd];
      rewrite Hl in E; try (by destruct (no_split _ _ _ E)); [done|].
    apply singleton_split in E as (-> & <- & ->). destruct Hlo as [?|[= ->]]; [done|].
    split_and!; cbn; [apply ended; cbn; try done; set_solver|by rewrite Hpan, bool_decide_false|].
    intros d. rewrite elem_of_union, elem_of_singleton. naive_solver lia.
  - split_and!; [|done|done]. destruct Hp; [apply idle|eapply up|eapply ending|apply ended]; cbn; eauto; lia.
  - split_and!; [|done|done]. destruct Hp; [apply idle|eapply up|eapply ending|apply ended]; cbn; eauto; lia.
  - split_and!; [|done|done]. destruct Hp as [Hr Hst Hl _ _|l Hr Hst Hl Hlo Hns Hnd|l Hr Hst Hl Hlo Hns Hnd|Hr Hst Hl Hd'];
      rewrite Hst in E; try (by destruct (no_split _ _ _ E)); apply singleton_split in E as (-> & -> & ->).
    + done.
    + apply idle; done.
Qed.

(** Once the goroutines of the ticks have ended the pending [Stop] can return: the loop
    begins if it has not, sees the closed channel, and the wait is over. *)
Lemma stop_returns s :
  owned_ok s -> lc_stopping s ≠ [] -> lc_heartbeats s = 0 -> lc_elections s = 0 ->
  exists s', rtc (Lifecycle.lstep false false) s s' /\ lc_stopping s' = [] /\ lc_loops s' = [].
Proof.
  intros (Hp & _ & _) Hst Hh He.
  destruct Hp as [_ Hn _ _ _|l _ Hn _ _ _ _|l Hr Hs Hl Hlo Hc Hd|Hr Hs Hl Hd]; [by rewrite Hn in Hst..| |].
  - assert (exists s1, rtc (Lifecycle.lstep false false) s s1 /\ lc_stopping s1 = [lc_started s] /\
      lc_loops s1 = [Looping (lc_started s)] /\ lc_started s1 = lc_started s /\ lc_stopClosed s1 = lc_stopClosed s /\
      lc_heartbeats s1 = 0 /\ lc_elections s1 = 0) as (s1 & R1 & Hs1 & Hl1 & Hst1 & Hc1 & Hh1 & He1).
    { destruct Hlo as [->| ->]; [|by exists s].
      exists (set_loops [Looping (lc_started s)] s). split; [|done]. apply rtc_once. by apply (ls_begin _ _ s [] []). }
    eexists. split; [|split].
    { etrans; [exact R1|]. eapply rtc_l; [by apply (ls_exit _ _ s1 [] (lc_started s) []); [|rewrite Hst1, Hc1]|].
      apply rtc_once. eapply (ls_stopped _ _ _ [] (lc_started s) []); [exact Hs1|cbn; set_solver|exact Hh1|exact He1]. }
    + done.
    + done.
  - eexists. split; [|split].
    { apply rtc_once. eapply (ls_stopped _ _ _ [] (lc_started s) []); [exact Hs|exact Hd|exact Hh|exact He]. }
    + done.
    + exact Hl.
Qed.

(** A goroutine that hangs holds up every [Stop]. *)
Definition hung (s : lifecycle) : Prop := he = false /\ lc_heartbeats s ≠ 0 \/ ee = false /\ lc_elections s ≠ 0.

Lemma hung_step s s' : lstep s s' -> hung s -> hung s' /\ lc_stopping s ⊆ lc_stopping s'.
Proof.
  unfold hung. intros Hs Hh. destruct Hs as [x x' E|x Hr|x ls1 ls2 E|x d e h Hin|x ls1 d ls2 E Hc|x k E Hend|x k E Hend|x ws1 d ws2 E Hd Hz He]; cbn.
  - unfold lc_Start in E. destruct (lc_running x); [done|]. by simplify_eq.
  - unfold lc_Stop. rewrite Hr. cbn. split; [done|set_solver].
  - done.
  - destruct (runTick_frame e h x) as (_ & _ & _ & _ & _ & -> & _). split; [|done].
    assert (lc_heartbeats x <= lc_heartbeats (runTick e h x) /\ lc_elections x <= lc_elections (runTick e h x)) as [? ?].
    { unfold runTick, startElectionIfNeeded. destruct h, e; cbn; try lia; destruct (lc_electionInFlight x); cbn; lia. }
    destruct Hh as [[? ?]|[? ?]]; [left|right]; split; done || lia.
  - done.
  - split; [|done]. destruct Hh as [[? ?]|Hh]; [congruence|by right].
  - split; [|done]. destruct Hh as [Hh|[? ?]]; [by left|congruence].
  - exfalso. destruct Hh as [[_ ?]|[_ ?]]; done.
Qed.

Lemma hung_stays s s' : rtc lstep s s' -> hung s -> lc_stopping s ⊆ lc_stopping s'.
Proof.
  induction 1 as [|s1 s2 s3 Hs _ IH]; [done|]. intros Hh. destruct (hung_step _ _ Hs Hh) as [Hh2 Hsub].
  etrans; [exact Hsub|]. by apply IH.
Qed.

Lemma owned_reach s : rtc owned_step lc_new s -> owned_ok s /\ one_election s.
Proof.
  intros HR. assert (owned_ok lc_new /\ one_election lc_new) as H0 by (split; [split_and!; [by apply idle|done|set_solver]|done]).
  revert H0. induction HR as [|s1 s2 s3 Hs _ IH]; [done|]. intros [Ho He]. apply IH.
  split; [by eapply owned_step_ok|]. destruct Hs as [? ? Hs _]. by eapply lstep_one_election.
Qed.

End Invariants.

(** C35: the life of a node with one owner.  As long as [Start] is not called while a
    [Stop] waits, in every reachable state, whether or not the goroutines of heartbeats and
    elections come to an end: no channel has been closed twice, at most one loop and one
    election run, and when no [Stop] waits and the node is not running, none of its goroutines
    is left.  A [Stop] that waits can return once the heartbeats and the election that run have
    ended, without a further step of theirs; while one of them hangs it never returns. *)
Theorem node_lifecycle he ee s :
  rtc (owned_step he ee) lc_new s ->
  lc_panicked s = false /\ length (lc_loops s) <= 1 /\ lc_elections s <= 1 /\
  (lc_IsRunning s = false -> lc_stopping s = [] ->
     lc_loops s = [] /\ lc_heartbeats s = 0 /\ lc_elections s = 0) /\
  (lc_stopping s ≠ [] -> lc_heartbeats s = 0 -> lc_elections s = 0 ->
     exists s', rtc (lstep false false) s s' /\ lc_stopping s' = [] /\ lc_loops s' = []) /\
  (he = false /\ lc_heartbeats s ≠ 0 \/ ee = false /\ lc_elections s ≠ 0 ->
     forall s', rtc (lstep he ee) s s' -> lc_stopping s ⊆ lc_stopping s').
Proof.
  intros [(Hp & Hpan & Hle) He]%owned_reach. split_and!; [done| | | | |].
  - destruct Hp as [_ _ Hl _ _|l _ _ Hl _ _ _|l _ _ Hl _ _ _|_ _ Hl _]; rewrite Hl; cbn; lia.
  - rewrite He. destruct (lc_electionInFlight s); lia.
  - unfold lc_IsRunning. intros Hr Hst. destruct Hp; try congruence. done.
  - by apply stop_returns.
  - intros Hh s' Hs. by apply (hung_stays s s' Hs).
Qed.

(** A leader that is stopped while a heartbeat hangs: [Stop] waits for ever. *)
Definition hung_leader : lifecycle := mkLifecycle false false 1 {[1]} ∅ [Looping 1] 1 0 [1] false.

Lemma hung_leader_reached : rtc (owned_step false true) lc_new hung_leader.
Proof.
  eapply rtc_l; [apply (os_step _ _ lc_new (mkLifecycle true false 1 ∅ ∅ [Starting] 0 0 [] false)); [by apply ls_start|done]|].
  eapply rtc_l; [apply os_step; [apply (ls_begin _ _ _ [] []); reflexivity|done]|].
  eapply rtc_l; [apply os_step; [apply (ls_tick _ _ _ 1 false true); cbn; set_solver|done]|].
  replace hung_leader with (lc_Stop (runTick false true (set_loops [Looping 1] (mkLifecycle true false 1 ∅ ∅ [Starting] 0 0 [] false))))
    by (unfold hung_leader, lc_Stop; cbn; by rewrite union_empty_r_L).
  apply rtc_once. apply os_step; [by apply ls_stop|done].
Qed.

Lemma node_lifecycle_witness :
  (exists s', rtc (lstep false false) (lc_Stop (mkLifecycle true false 1 ∅ ∅ [Starting] 0 0 [] false)) s' /\
    lc_stopping s' = [] /\ lc_loops s' = []) /\
  forall s', rtc (lstep false true) hung_leader s' -> [1] ⊆ lc_stopping s'.
Proof.
  split.
  - apply (node_lifecycle true true (lc_Stop (mkLifecycle true false 1 ∅ ∅ [Starting] 0 0 [] false))); [|done..].
    eapply rtc_l; [apply (os_step _ _ lc_new (mkLifecycle true false 1 ∅ ∅ [Starting] 0 0 [] false)); [by apply ls_start|done]|].
    apply rtc_once. apply os_step; [by apply ls_stop|done].
  - apply (node_lifecycle false true hung_leader); [exact hung_leader_reached|]. left. by split.
Defined.

(** Restarting a node while it is being stopped is not safe.  If [Start] is
    called between the two halves of [Stop], before the first loop has begun, both
    loops take the second [doneCh], and the second of them to end closes a closed
    channel: the process panics. *)
Theorem restart_during_stop_panics :
  exists s1 s2, rtc (lstep true true) lc_new s1 /\ lc_Start (lc_Stop s1) = Some s2 /\
    exists s3, rtc (lstep true true) s2 s3 /\ lc_panicked s3 = true.
Proof.
  eexists _, _. split; [apply rtc_once; by apply ls_start|]. split; [reflexivity|].
  eexists. split.
  - eapply rtc_l; [by apply (ls_begin _ _ _ [] [Starting])|].
    eapply rtc_l; [by apply (ls_begin _ _ _ [Looping 2] [])|].
    eapply rtc_l; [by apply ls_stop|].
    eapply rtc_l; [apply (ls_exit _ _ _ [] 2 [Looping 2]); [reflexivity|vm_compute; set_solver]|].
    apply rtc_once. apply (ls_exit _ _ _ [] 2 []); [reflexivity|vm_compute; set_solver].
  - vm_compute. reflexivity.
Qed.
