(* ===== verification/LocalTransport.v ===== *)
(** The in-process transport: [internal/raft/local_transport.go].

    The peers are nodes; a call runs the handler of the target and keeps its new
    state.  Links can be blocked in one direction, and the transport can be closed.
    [late from to] tells that the context of the caller ends before the reply: the
    handler has run, the caller gets the error of the context. *)

From S2P Require Import Prelude Model RaftLog Storage Membership ConfigEntry Node Election.
From S2P Require Import Apply SnapshotOps Replication ReplicationFacts ElectionFacts ReadIndex.
From S2P Require Import ReplicationLoop.

Definition ErrTransportClosed : error := Sentinel "raft transport is closed".
Definition ErrPeerNotFound : error := Sentinel "raft peer not found".

Record LocalTransport {S : Type} := mkLocalTransport {
  lt_peers : gmap NodeID (RaftNode S);
  lt_blocked : gset (NodeID * NodeID);
  lt_closed : bool;
}.
Global Arguments LocalTransport : clear implicits.
Global Arguments mkLocalTransport {S}.

Section LocalTransport.
Context {S : Type} `{Storage S}.
Implicit Types t : LocalTransport S.

Definition NewLocalTransport : LocalTransport S := mkLocalTransport ∅ ∅ false.

Definition AddPeer (peer : RaftNode S) t : LocalTransport S * option error :=
  if lt_closed t then (t, Some ErrTransportClosed)
  else
    match lt_peers t !! id peer with
    | Some _ => (t, Some (Msg "raft peer already registered"))
    | None => (mkLocalTransport (<[id peer := peer]> (lt_peers t)) (lt_blocked t) (lt_closed t), None)
    end.

Definition AddNode (node : RaftNode S) t : LocalTransport S * option error := AddPeer node t.

(** The peers of [SetPeers], of which nil ones and those with the ID of an earlier one are
    left out. *)
Fixpoint registerPeers (peers : list (option (RaftNode S))) t (ids : list NodeID) : LocalTransport S * list NodeID :=
  match peers with
  | [] => (t, ids)
  | None :: peers => registerPeers peers t ids
  | Some peer :: peers =>
      match AddPeer peer t with
      | (t, Some _) => registerPeers peers t ids
      | (t, None) => registerPeers peers t (ids ++ [id peer])
      end
  end.

Definition SetPeers (peers : list (option (RaftNode S))) (n : RaftNode S) : LocalTransport S * RaftNode S :=
  let '(t, ids) := registerPeers peers NewLocalTransport [] in (t, SetTransport ids n).

Definition RemoveNode (i : NodeID) t : LocalTransport S :=
  mkLocalTransport (delete i (lt_peers t)) (lt_blocked t) (lt_closed t).

Definition Block (from to : NodeID) t : LocalTransport S :=
  if lt_closed t then t
  else mkLocalTransport (lt_peers t) ({[(from, to)]} ∪ lt_blocked t) (lt_closed t).

Definition Unblock (from to : NodeID) t : LocalTransport S :=
  mkLocalTransport (lt_peers t) (lt_blocked t ∖ {[(from, to)]}) (lt_closed t).

Definition IsBlocked (from to : NodeID) t : bool := bool_decide ((from, to) ∈ lt_blocked t).

Definition BlockBidirectional (a b : NodeID) t : LocalTransport S :=
  if lt_closed t then t
  else mkLocalTransport (lt_peers t) ({[(b, a)]} ∪ ({[(a, b)]} ∪ lt_blocked t)) (lt_closed t).

Definition UnblockBidirectional (a b : NodeID) t : LocalTransport S :=
  mkLocalTransport (lt_peers t) ((lt_blocked t ∖ {[(a, b)]}) ∖ {[(b, a)]}) (lt_closed t).

Definition Close t : LocalTransport S := mkLocalTransport ∅ ∅ true.

Definition lt_peer (target : NodeID) t : result (RaftNode S) :=
  if lt_closed t then Err ErrTransportClosed
  else
    match lt_peers t !! target with
    | None => Err (Wrap "raft peer not found" ErrPeerNotFound)
    | Some peer => Ok peer
    end.

Definition checkBlocked (from to : NodeID) t : option error :=
  if lt_closed t then Some ErrTransportClosed
  else if bool_decide ((from, to) ∈ lt_blocked t) then Some (Msg "raft transport link is blocked")
  else None.

Context (late : NodeID -> NodeID -> bool).

(** The shape shared by the four calls. *)
Definition lt_call {A} (from target : NodeID) (handle : RaftNode S -> RaftNode S * A) t
    : LocalTransport S * result A :=
  match checkBlocked from target t with
  | Some e => (t, Err e)
  | None =>
      match lt_peer target t with
      | Err e => (t, Err e)
      | Ok peer =>
          let '(peer, reply) := handle peer in
          (mkLocalTransport (<[target := peer]> (lt_peers t)) (lt_blocked t) (lt_closed t),
           if late from target then Err (Sentinel "context deadline exceeded") else Ok reply)
      end
  end.

Definition lt_RequestVote t (target : NodeID) (args : RequestVoteArgs) :=
  lt_call (rv_CandidateID args) target (RequestVote args) t.
Definition lt_PreVote t (target : NodeID) (args : PreVoteArgs) :=
  lt_call (pv_CandidateID args) target (fun peer => (peer, PreVote args peer)) t.
Definition lt_AppendEntries t (target : NodeID) (args : AppendEntriesArgs) :=
  lt_call (ae_LeaderID args) target (AppendEntries args) t.
Definition lt_InstallSnapshot t (target : NodeID) (args : InstallSnapshotArgs) :=
  lt_call (is_LeaderID args) target (InstallSnapshot args) t.

Definition local_transport : Transport (LocalTransport S) :=
  mkTransport _ lt_RequestVote lt_PreVote lt_AppendEntries lt_InstallSnapshot.

End LocalTransport.

(** ** What the operations of a node keep of the network *)

(** [SetPeers] makes each ID a peer once, and exactly the peers of the transport. *)
Lemma SetPeers_peers {S} `{Storage S} peers (n : RaftNode S) t n' :
  SetPeers peers n = (t, n') -> NoDup (peerIDs n') /\ forall i, i ∈ peerIDs n' <-> is_Some (lt_peers t !! i).
Proof.
  unfold SetPeers. destruct (registerPeers peers NewLocalTransport []) as [t' ids] eqn:E. intros [= <- <-]. cbn.
  assert (forall (l : list (option (RaftNode S))) (t0 : LocalTransport S) ids0, lt_closed t0 = false ->
    NoDup ids0 /\ (forall i, i ∈ ids0 <-> is_Some (lt_peers t0 !! i)) ->
    let '(t1, ids1) := registerPeers l t0 ids0 in NoDup ids1 /\ forall i, i ∈ ids1 <-> is_Some (lt_peers t1 !! i)) as Hgen.
  { clear. induction l as [|[peer|] l IH]; intros t0 ids0 Hc [Hn Hi]; cbn [registerPeers]; [done| |by apply IH].
    unfold AddPeer. rewrite Hc. destruct (lt_peers t0 !! id peer) as [old|] eqn:Ep; [by apply IH|]. apply IH; [done|].
    cbn [lt_peers]. split.
    - apply NoDup_app. split_and!; [done| |apply NoDup_singleton]. intros x Hx ->%list_elem_of_singleton.
      apply Hi in Hx as [? ?]. congruence.
    - intros i. rewrite elem_of_app, list_elem_of_singleton, Hi. destruct (decide (i = id peer)) as [->|Hne].
      + rewrite lookup_insert_eq. naive_solver.
      + rewrite lookup_insert_ne by done. naive_solver. }
  specialize (Hgen peers NewLocalTransport [] eq_refl). rewrite E in Hgen. apply Hgen. split; [constructor|].
  intros i. cbn. rewrite lookup_empty. split; [by intros ?%elem_of_nil|by intros [? ?]].
Qed.

Section Frames.
Context {S : Type} `{Storage S} {W : Type} (T : Transport W).
Implicit Types n : RaftNode S.

(** The calls made in the name of [who] keep [I]. *)
Record calls_keep (who : NodeID) (I : W -> Prop) : Prop := {
  ck_vote w p args : rv_CandidateID args = who -> I w -> I (fst (tr_RequestVote T w p args));
  ck_prevote w p args : pv_CandidateID args = who -> I w -> I (fst (tr_PreVote T w p args));
  ck_append w p args : ae_LeaderID args = who -> I w -> I (fst (tr_AppendEntries T w p args));
  ck_install w p args : is_LeaderID args = who -> I w -> I (fst (tr_InstallSnapshot T w p args));
}.

Lemma adoptTerm_id t n n' b : adoptTerm t n = (n', b) -> id n' = id n.
Proof. unfold adoptTerm. intros E. repeat split_hyp_match E; by simplify_eq. Qed.

Lemma applyCommitted_id n : id (applyCommitted n) = id n.
Proof.
  unfold applyCommitted. generalize (N.to_nat (commitIndex n - lastApplied n)). intros fuel.
  revert n; induction fuel as [|fuel IH]; intros n; cbn; [done|].
  assert (forall n' b, applyOne n = (n', b) -> id n' = id n) as Hone.
  { intros n' b E. unfold applyOne, applyConfigurationEntryLocked, becomeFollowerLocked in E.
    repeat (split_hyp_match E; simplify_eq; try done). }
  destruct (applyOne n) as [n1 []] eqn:E; specialize (Hone _ _ eq_refl); [by rewrite IH|done].
Qed.

Lemma applyCommitted_commitIndex n : commitIndex (applyCommitted n) = commitIndex n.
Proof.
  unfold applyCommitted. generalize (N.to_nat (commitIndex n - lastApplied n)). intros fuel.
  revert n; induction fuel as [|fuel IH]; intros n; cbn; [done|].
  assert (forall n' b, applyOne n = (n', b) -> commitIndex n' = commitIndex n) as Hone.
  { intros n' b E. unfold applyOne, applyConfigurationEntryLocked, becomeFollowerLocked in E.
    repeat (split_hyp_match E; simplify_eq; try done). }
  destruct (applyOne n) as [n1 []] eqn:E; specialize (Hone _ _ eq_refl); [by rewrite IH|done].
Qed.

Lemma advance_id n : id (match advanceCommitIndexLocked n with
                         | (n, true) => applyCommitted n | (n, false) => n end) = id n.
Proof.
  destruct (advanceCommitIndexLocked n) as [n1 b] eqn:E.
  apply advanceCommitIndexLocked_set in E as [c ->]. destruct b; [by rewrite applyCommitted_id|done].
Qed.

Lemma handleAppendEntriesReply_id p args reply n : id (handleAppendEntriesReply p args reply n) = id n.
Proof.
  unfold handleAppendEntriesReply. destruct (_ <? _)%N.
  { destruct (adoptTerm _ n) as [n1 b] eqn:E. by apply adoptTerm_id in E. }
  case_bool_decide; [done|]. destruct (negb _); [done|]. destruct (negb _); [by destruct (_ <? _)%N|].
  destruct (last _); [|done]. rewrite advance_id. by destruct (_ <? _)%N.
Qed.

Lemma handleInstallSnapshotReply_id p args reply n : id (handleInstallSnapshotReply p args reply n) = id n.
Proof.
  unfold handleInstallSnapshotReply. destruct (_ <? _)%N.
  { destruct (adoptTerm _ n) as [n1 b] eqn:E. by apply adoptTerm_id in E. }
  case_bool_decide; [done|]. destruct (negb _); [done|]. destruct (negb _); [done|].
  rewrite advance_id. by repeat destruct (_ <? _)%N.
Qed.

Lemma handleVoteReply_id t reply n : id (handleVoteReply t reply n) = id n.
Proof.
  unfold handleVoteReply. destruct (_ <? _)%N.
  { destruct (adoptTerm _ n) as [n1 []] eqn:E; by apply adoptTerm_id in E. }
  by repeat case_match.
Qed.

(** What an operation on [n] with the network [w] keeps. *)
Definition kept (I : W -> Prop) (who : NodeID) (r : option (W * RaftNode S)) : Prop :=
  match r with Some (w, n) => I w /\ id n = who | None => True end.

Lemma sendInstallSnapshot_keeps I p w n :
  calls_keep (id n) I -> I w ->
  let '(w', n', _) := sendInstallSnapshot T p w n in I w' /\ id n' = id n.
Proof.
  intros Hk HI. unfold sendInstallSnapshot. destruct (negb _); [done|].
  destruct (buildInstallSnapshot n p) as [args|] eqn:Hb; [|done].
  assert (is_LeaderID args = id n) as Hl
    by (unfold buildInstallSnapshot in Hb; repeat split_hyp_match Hb; by simplify_eq).
  pose proof (ck_install _ _ Hk w p args Hl HI) as Hw.
  destruct (tr_InstallSnapshot T w p args) as [w1 [reply|]]; cbn in *; [|done].
  by rewrite handleInstallSnapshotReply_id.
Qed.

Lemma replicateTo_keeps I fuel p w n :
  calls_keep (id n) I -> I w -> kept I (id n) (replicateTo T fuel p w n).
Proof.
  revert w n. induction fuel as [|fuel IH]; intros w n Hk HI; cbn [replicateTo]; [done|].
  destruct (negb (transportSet n)); [done|]. pose proof (sendInstallSnapshot_keeps I p w n Hk HI) as Hs.
  destruct (sendInstallSnapshot T p w n) as [[w1 n1] []]; destruct Hs as [HI1 Hid1];
    rewrite <- Hid1 in *; [by apply IH|].
  destruct (buildAppendEntries n1 p) as [args|] eqn:Hb; [|done].
  assert (ae_LeaderID args = id n1) as Hl
    by (unfold buildAppendEntries in Hb; repeat split_hyp_match Hb; by simplify_eq).
  pose proof (ck_append _ _ Hk w1 p args Hl HI1) as Hw.
  destruct (tr_AppendEntries T w1 p args) as [w2 [reply|]]; cbn [fst] in Hw; [|done].
  pose proof (handleAppendEntriesReply_id p args reply n1) as Hid. cbn zeta.
  destruct (aer_Success reply); [done|]. case_bool_decide; [done|]. rewrite <- Hid. apply IH; [by rewrite Hid|done].
Qed.

Lemma replicateAll_keeps I fuel ps w n :
  calls_keep (id n) I -> I w -> kept I (id n) (replicateAll T fuel ps w n).
Proof.
  revert w n. induction ps as [|p ps IH]; intros w n Hk HI; cbn [replicateAll]; [done|].
  pose proof (replicateTo_keeps I fuel p w n Hk HI) as Hs.
  destruct (replicateTo T fuel p w n) as [[w1 n1]|]; [|done]. destruct Hs as [HI1 Hid].
  rewrite <- Hid. apply IH; [by rewrite Hid|done].
Qed.

Lemma proposeLocked_id data n n' r : proposeLocked data n = (n', r) -> id n' = id n.
Proof.
  unfold proposeLocked. intros E.
  repeat (split_hyp_match E; simplify_eq; try done).
  match goal with Ha : advanceCommitIndexLocked _ = _ |- _ => by apply advanceCommitIndexLocked_set in Ha as [? ->] end.
Qed.

Lemma Propose_keeps I fuel data w n :
  calls_keep (id n) I -> I w ->
  match Propose T fuel data w n with Some (w', n', _) => I w' /\ id n' = id n | None => True end.
Proof.
  intros Hk HI. unfold Propose. destruct (proposeLocked data n) as [n1 [[index advanced]|e]] eqn:E;
    apply proposeLocked_id in E; [|done].
  set (n2 := if advanced then applyCommitted n1 else n1).
  assert (id n2 = id n) as Hid by (unfold n2; destruct advanced; rewrite ?applyCommitted_id; done).
  destruct (negb (transportSet n2)); [done|]. rewrite <- Hid in *.
  pose proof (replicateAll_keeps I fuel (peerIDs n1) w n2 Hk HI) as Hs.
  by destruct (replicateAll T fuel (peerIDs n1) w n2) as [[w' n']|].
Qed.

Lemma readIndexPeers_keeps I m term commit ps acks w n :
  calls_keep (id n) I -> I w -> I (fst (fst (readIndexPeers T m term commit ps acks w n))).
Proof.
  revert acks w n. induction ps as [|p ps IH]; intros acks w n Hk HI; cbn [readIndexPeers]; [done|].
  assert (I (fst (match readIndexRequest term commit p n with
                  | Ok args => tr_AppendEntries T w p args | Err e => (w, Err e) end))) as Hw.
  { destruct (readIndexRequest term commit p n) as [args|] eqn:Hr; [|done]. apply (ck_append _ _ Hk); [|done].
    unfold readIndexRequest in Hr. repeat split_hyp_match Hr; by simplify_eq. }
  destruct (match readIndexRequest term commit p n with
            | Ok args => tr_AppendEntries T w p args | Err e => (w, Err e) end) as [w1 r]. cbn in Hw.
  destruct (readIndexHandle m term commit acks p r n) as [n1 [acks1|r1]] eqn:Hh; [|done].
  assert (id n1 = id n) as Hid.
  { unfold readIndexHandle in Hh. repeat split_hyp_match Hh; simplify_eq; done. }
  apply IH; [by rewrite Hid|done].
Qed.

Lemma ReadIndex_keeps I w n : calls_keep (id n) I -> I w -> I (fst (fst (ReadIndex T w n))).
Proof.
  intros Hk HI. unfold ReadIndex. destruct (readIndexRefused n); [done|].
  destruct (membershipHasQuorum _ _); [done|]. by apply readIndexPeers_keeps.
Qed.

Lemma runElection_keeps I w n : calls_keep (id n) I -> I w -> I (fst (runElection T w n)).
Proof.
  intros Hk HI. unfold runElection. destruct (storageWriteBlocked n); [done|].
  assert (forall m ps args granted w, pv_CandidateID args = id n -> I w ->
    I (fst (preVotesFrom T m ps args granted w))) as Hpre.
  { intros m ps args granted w0 Ha. revert granted w0. induction ps as [|p ps IH]; intros granted w0 HI0; cbn; [done|].
    pose proof (ck_prevote _ _ Hk w0 p args Ha HI0) as Hw.
    destruct (tr_PreVote T w0 p args) as [w1 [reply|]]; cbn in Hw; [|by apply IH].
    destruct (negb _); [by apply IH|]. destruct (membershipHasQuorum _ _); [done|by apply IH]. }
  assert (I (fst (runPreVote T w n))) as Hw.
  { unfold runPreVote. repeat (case_match; try done). by apply Hpre. }
  destruct (runPreVote T w n) as [w1 []]; [|done]. cbn in Hw.
  case_bool_decide; [done|]. destruct (_ && _); [done|].
  destruct (startElection n) as [n1 [t|]] eqn:Es; [|done].
  assert (id n1 = id n) as Hid by (unfold startElection in Es; repeat split_hyp_match Es; by simplify_eq).
  assert (forall ps args w0 n0, rv_CandidateID args = id n -> I w0 ->
    I (fst (requestVotesFrom T ps args w0 n0))) as Hreq.
  { intros ps args. induction ps as [|p ps IH]; intros w0 n0 Ha HI0; cbn; [done|].
    pose proof (ck_vote _ _ Hk w0 p args Ha HI0) as Hw0.
    by destruct (tr_RequestVote T w0 p args) as [w2 [reply|]]; apply IH. }
  unfold requestVotes. destruct (voteRequest n1) as [args|] eqn:Hv; [|done].
  assert (rv_CandidateID args = id n) as Ha.
  { rewrite <- Hid. unfold voteRequest in Hv. by destruct (_ || _); simplify_eq. }
  destruct (negb (transportSet n1)); [done|]. specialize (Hreq (peerIDs n1) args w1 n1 Ha Hw).
  by destruct (requestVotesFrom T (peerIDs n1) args w1 n1).
Qed.

End Frames.

(** ** Partitions *)

Section Partition.
Context {S : Type} `{Storage S} (late : NodeID -> NodeID -> bool).
Implicit Types n : RaftNode S.
Implicit Types t : LocalTransport S.
Let T : Transport (LocalTransport S) := local_transport late.

(** The node [p] and the links are as in [t0]. *)
Definition untouched (t0 : LocalTransport S) (p : NodeID) t : Prop :=
  lt_peers t !! p = lt_peers t0 !! p /\ lt_blocked t = lt_blocked t0 /\ lt_closed t = lt_closed t0.

Lemma lt_call_blocked {A} from target (handle : RaftNode S -> RaftNode S * A) t :
  (from, target) ∈ lt_blocked t -> exists e, lt_call late from target handle t = (t, Err e).
Proof.
  intros Hb. unfold lt_call, checkBlocked. destruct (lt_closed t); [eauto|].
  rewrite bool_decide_true by done. eauto.
Qed.

Lemma lt_call_untouched {A} t0 p from target (handle : RaftNode S -> RaftNode S * A) t :
  (from, p) ∈ lt_blocked t0 -> untouched t0 p t -> untouched t0 p (fst (lt_call late from target handle t)).
Proof.
  intros Hb Hu. pose proof Hu as (Hp & Hl & Hc). unfold lt_call, checkBlocked.
  destruct (lt_closed t) eqn:Ht; [exact Hu|].
  case_bool_decide as Hx; [exact Hu|]. destruct (lt_peer target t) as [peer|]; [|exact Hu].
  destruct (handle peer) as [peer' reply]. split_and!; try done. cbn. rewrite lookup_insert_ne; [done|].
  intros ->. apply Hx. by rewrite Hl.
Qed.

Lemma blocked_calls_keep t0 who p : (who, p) ∈ lt_blocked t0 -> calls_keep T who (untouched t0 p).
Proof. intros Hb. split; intros w q args <-; by apply lt_call_untouched. Qed.

(** A blocked link isolates.  Whatever a node does over the transport
    (proposing and replicating, confirming a read, running an election), a peer to
    which its link is blocked keeps its state, and the links stay as they are. *)
Theorem partition_isolates t n p :
  (id n, p) ∈ lt_blocked t ->
  (forall fuel data, match Propose T fuel data t n with
                     | Some (t', _, _) => untouched t p t' | None => True end) /\
  untouched t p (fst (fst (ReadIndex T t n))) /\
  untouched t p (fst (runElection T t n)).
Proof.
  intros Hb. pose proof (blocked_calls_keep t (id n) p Hb) as Hk.
  assert (untouched t p t) as Hu by done. split_and!.
  - intros fuel data. pose proof (Propose_keeps T _ fuel data t n Hk Hu) as HP.
    destruct (Propose T fuel data t n) as [[[t' n'] r]|]; [apply HP|done].
  - by apply ReadIndex_keeps.
  - by apply runElection_keeps.
Qed.

(** Every link of the node is blocked. *)
Definition cut_off n t : Prop := forall p, p ∈ peerIDs n -> (id n, p) ∈ lt_blocked t.

Lemma replicateTo_cut_off fuel p t n :
  (id n, p) ∈ lt_blocked t -> replicateTo T (Datatypes.S fuel) p t n = Some (t, n).
Proof.
  intros Hb. cbn [replicateTo]. destruct (negb (transportSet n)) eqn:Ht; [done|].
  assert (sendInstallSnapshot T p t n = (t, n, false)) as ->.
  { unfold sendInstallSnapshot. rewrite Ht. destruct (buildInstallSnapshot n p) as [args|] eqn:Ha; [|done].
    assert (is_LeaderID args = id n) as Hl
      by (unfold buildInstallSnapshot in Ha; repeat split_hyp_match Ha; by simplify_eq).
    cbn [tr_InstallSnapshot T local_transport]. unfold lt_InstallSnapshot. rewrite Hl.
    by destruct (lt_call_blocked (id n) p (InstallSnapshot args) t Hb) as [e ->]. }
  destruct (buildAppendEntries n p) as [args|] eqn:Ha; [|done].
  assert (ae_LeaderID args = id n) as Hl
    by (unfold buildAppendEntries in Ha; repeat split_hyp_match Ha; by simplify_eq).
  cbn [tr_AppendEntries T local_transport]. unfold lt_AppendEntries. rewrite Hl.
  by destruct (lt_call_blocked (id n) p (AppendEntries args) t Hb) as [e ->].
Qed.

Lemma replicateAll_cut_off fuel ps t n :
  (forall p, p ∈ ps -> (id n, p) ∈ lt_blocked t) -> replicateAll T (Datatypes.S fuel) ps t n = Some (t, n).
Proof.
  induction ps as [|p ps IH]; intros Hb; cbn [replicateAll]; [done|].
  rewrite replicateTo_cut_off by (apply Hb; set_solver). apply IH. intros q Hq. apply Hb. set_solver.
Qed.

Lemma readIndexPeers_cut_off m term commit ps acks t n :
  (forall p, p ∈ ps -> (id n, p) ∈ lt_blocked t) ->
  readIndexPeers T m term commit ps acks t n = (t, n, Err (Msg "raft: ReadIndex quorum unavailable")).
Proof.
  induction ps as [|p ps IH]; intros Hb; cbn [readIndexPeers]; [done|].
  assert (exists e, match readIndexRequest term commit p n with
    | Ok args => tr_AppendEntries T t p args | Err e => (t, Err e) end = (t, Err e)) as [e ->].
  { destruct (readIndexRequest term commit p n) as [args|e] eqn:Hr; [|eauto].
    assert (ae_LeaderID args = id n) as Hl
      by (unfold readIndexRequest in Hr; repeat split_hyp_match Hr; by simplify_eq).
    cbn [tr_AppendEntries T local_transport]. unfold lt_AppendEntries. rewrite Hl.
    apply lt_call_blocked, Hb. set_solver. }
  cbn [readIndexHandle]. apply IH. intros q Hq. apply Hb. set_solver.
Qed.

Lemma preVotesFrom_cut_off m ps args granted t :
  (forall p, p ∈ ps -> (pv_CandidateID args, p) ∈ lt_blocked t) ->
  preVotesFrom T m ps args granted t = (t, false).
Proof.
  induction ps as [|p ps IH]; intros Hb; cbn [preVotesFrom]; [done|].
  cbn [tr_PreVote T local_transport]. unfold lt_PreVote.
  destruct (lt_call_blocked (pv_CandidateID args) p (fun peer => (peer, PreVote args peer)) t) as [e ->];
    [apply Hb; set_solver|]. apply IH. intros q Hq. apply Hb. set_solver.
Qed.

End Partition.

Section CutOff.
Context {S : Type} `{StorageLaws S} (late : NodeID -> NodeID -> bool).
Implicit Types n : RaftNode S.
Implicit Types t : LocalTransport S.
Let T : Transport (LocalTransport S) := local_transport late.

(** What a proposal leaves of a leader none of whose peers has the new entry. *)
Lemma proposeLocked_uncommitted data n n' index advanced :
  log_wf (log n) -> is_u64 (lastIndexLocked (log n) + 2)%N -> (commitIndex n <= lastIndexLocked (log n))%N ->
  membershipHasQuorum (membership n) {[id n]} = false ->
  (forall p, p ∈ peerIDs n -> matchIndexOf n p <= lastIndexLocked (log n))%N ->
  proposeLocked data n = (n', Ok (index, advanced)) ->
  index = (lastIndexLocked (log n) + 1)%N /\ (commitIndex n' < index)%N /\
  peerIDs n' = peerIDs n /\ id n' = id n.
Proof.
  intros Hwf Hu Hc Hq Hm. unfold proposeLocked. case_bool_decide as Hr; [done|].
  rewrite u64_add_small by lia. set (entry := mkLogEntry _ _ _).
  destruct (st_AppendEntries (storage n) [entry]) as [s1 [e|]]; [done|].
  destruct (st_Sync s1) as [s2 [e|]]; [by destruct (errors_Is e "wal disk full")|].
  cbn [log set_storage]. destruct (Append (log n) entry) as [l|] eqn:HA; [|done].
  apply Append_ok in HA as (_ & -> & Hwf'); [|done|lia].
  set (n1 := set_log _ (set_storage s2 n)).
  assert (lastIndexLocked (log n1) = (lastIndexLocked (log n) + 1)%N) as Hl1
    by (unfold n1, lastIndexLocked at 1; cbn; by rewrite last_snoc).
  assert (role n = Leader) as Hlead by (destruct (role n); naive_solver).
  destruct (advanceCommitIndexLocked_spec n1) as (c & -> & Hcases & _); [rewrite Hl1; lia| |done|].
  { rewrite Hl1. change (commitIndex n1) with (commitIndex n). lia. }
  intros [= <- <- _]. split_and!; try done. change (commitIndex (set_commitIndex c n1)) with c.
  change (commitIndex n1) with (commitIndex n) in Hcases.
  destruct Hcases as [->|[Hle [_ Hquorum]]]; [lia|]. rewrite Hl1 in Hle.
  destruct (decide (c = lastIndexLocked (log n) + 1)%N) as [->|]; [|lia]. exfalso.
  revert Hquorum. unfold replicated. change (peerIDs n1) with (peerIDs n). change (id n1) with (id n).
  change (membership n1) with (membership n).
  destruct (filter _ (peerIDs n)) as [|p ps] eqn:Ef;
    [cbn [list_to_set]; by rewrite (right_id_L ∅ (∪)), Hq|].
  assert (p ∈ p :: ps) as Hin by set_solver. rewrite <- Ef in Hin. apply list_elem_of_filter in Hin as [Hge Hin].
  specialize (Hm p Hin). change (matchIndexOf n1 p) with (matchIndexOf n p) in Hge. lia.
Qed.

(** A leader cut off from its peers makes no progress, and does no harm.  When
    every link of a node that is not a quorum by itself is blocked: a proposal is
    kept in the log but not committed, no read is confirmed, an election ends in
    the pre-vote phase with the term unchanged, and no other node changes. *)
Theorem cut_off_node_makes_no_progress fuel data t n :
  cut_off n t -> membershipHasQuorum (membership n) {[id n]} = false ->
  log_wf (log n) -> is_u64 (lastIndexLocked (log n) + 2)%N -> (commitIndex n <= lastIndexLocked (log n))%N ->
  (forall p, p ∈ peerIDs n -> matchIndexOf n p <= lastIndexLocked (log n))%N ->
  (exists n' r, Propose T (Datatypes.S fuel) data t n = Some (t, n', r) /\
     forall index, r = Ok index -> index = (lastIndexLocked (log n) + 1)%N /\ (commitIndex n' < index)%N) /\
  (exists e, ReadIndex T t n = (t, n, Err e)) /\
  runElection T t n = (t, n).
Proof.
  intros Hcut Hq Hwf Hu Hc Hm. unfold T. split_and!.
  - unfold Propose. destruct (proposeLocked data n) as [n1 [[index advanced]|e]] eqn:E; [|by eexists _, _].
    apply proposeLocked_uncommitted in E as (-> & Hlt & Hp & Hid); [|done..].
    set (n2 := if advanced then applyCommitted n1 else n1).
    assert (commitIndex n2 = commitIndex n1 /\ id n2 = id n) as [Hc2 Hid2].
    { unfold n2. destruct advanced; [|done]. rewrite applyCommitted_commitIndex, applyCommitted_id. done. }
    destruct (negb (transportSet n2)).
    + eexists n2, _. split; [done|]. intros index [= <-]. by rewrite Hc2.
    + rewrite replicateAll_cut_off by (rewrite Hid2, Hp; exact Hcut).
      eexists n2, _. split; [done|]. intros index [= <-]. by rewrite Hc2.
  - unfold ReadIndex. destruct (readIndexRefused n); [eauto|]. rewrite Hq. rewrite readIndexPeers_cut_off by exact Hcut. eauto.
  - unfold runElection, runPreVote. destruct (storageWriteBlocked n); [done|].
    destruct (negb _); [done|]. rewrite Hq. destruct (negb _); [done|].
    by rewrite preVotesFrom_cut_off by exact Hcut.
Qed.

End CutOff.

(** ** Witnesses *)

Definition follower_of (i : NodeID) (others : list NodeID) : RaftNode MemoryStorage :=
  mkRaftNode i
    (mkState (mkPersistent 0 "" (mkMembership (mkConfiguration ["a"; "b"; "c"]) None))
       (mkVolatile 0 0) (mkLeaderState ∅ ∅) ∅ Follower "")
    NewLog NewMemoryStorage true others [] None 10 10 false false 0 1 true.

(** A cluster of three over the transport, with a's links to b and c blocked. *)
Definition three_nodes : LocalTransport MemoryStorage :=
  mkLocalTransport {["b" := follower_of "b" ["a"; "c"]; "c" := follower_of "c" ["a"; "b"]]} ∅ false.
Definition partitioned : LocalTransport MemoryStorage := Block "a" "b" (Block "a" "c" three_nodes).

Definition prompt (from to : NodeID) : bool := false.

Lemma partition_isolates_witness :
  untouched partitioned "b" (fst (runElection (local_transport prompt) partitioned (follower_of "a" ["b"; "c"]))).
Proof.
  apply (partition_isolates prompt partitioned (follower_of "a" ["b"; "c"]) "b").
  apply (bool_decide_unpack _). vm_compute. exact I.
Defined.

Lemma cut_off_node_makes_no_progress_witness :
  runElection (local_transport prompt) partitioned (follower_of "a" ["b"; "c"]) =
    (partitioned, follower_of "a" ["b"; "c"]).
Proof.
  apply (cut_off_node_makes_no_progress prompt 5 [x01] partitioned (follower_of "a" ["b"; "c"])).
  - intros p Hp. apply elem_of_cons in Hp as [->|[->|Hp%not_elem_of_nil]%elem_of_cons]; [..|done];
      apply (bool_decide_unpack _); vm_compute; exact I.
  - vm_compute. reflexivity.
  - apply NewLog_wf.
  - vm_compute. reflexivity.
  - vm_compute. done.
  - intros p _. vm_compute. done.
Defined.

(** A cluster of three at work: a is elected, its first entry is committed and
    applied on a, and the next heartbeat commits and applies it on b and c. *)
Example three_nodes_agree :
  let '(t, a) := runElection (local_transport prompt) three_nodes (follower_of "a" ["b"; "c"]) in
  role a = Leader /\
  match Propose (local_transport prompt) 10 [x01] t a with
  | Some (t, a, Ok index) =>
      index = 1%N /\ map le_Data (applyCh a) = [[x01]] /\
      match heartbeat (local_transport prompt) 10 t a with
      | Some (t, a) =>
          map (fun p => map le_Data (applyCh p)) (map snd (map_to_list (lt_peers t))) = [[[x01]]; [[x01]]]
      | None => False
      end
  | _ => False
  end.
Proof. vm_compute. split_and!; reflexivity. Qed.
