(* ===== verification/ElectionWins.v ===== *)
(** An election in a cluster of nodes: over the in-process transport, a node that a quorum of
    its peers would vote for becomes leader.

    The peers are nodes; what is asked of those that grant is a condition on their state at
    the start of the election ([would_vote]), and on their storage only that the writes of this
    vote succeed. *)

From S2P Require Import Prelude Model RaftLog Storage Membership ConfigEntry Node Election.
From S2P Require Import Apply SnapshotOps Replication ElectionFacts LocalTransport.

Section Wins.
Context {S : Type} `{Storage S} (late : NodeID -> NodeID -> bool).
Implicit Types n peer : RaftNode S.
Implicit Types l : LocalTransport S.

(** The link from [self] to [p] works in both directions. *)
Definition linked (self p : NodeID) l : Prop := ((self, p) ∉ lt_blocked l) /\ late self p = false.

(** Node [peer], known as [p], votes for [n]: it is not a leader and has heard of none for an
    election timeout, [n] is a voter for it, its term is not past the term of the election, in
    which it has not voted for another, and its log is no more recent than that of [n]. *)
Record would_vote n (p : NodeID) peer : Prop := {
  wv_id : id peer = p;
  wv_role : role peer ≠ Leader;
  wv_leader : leaderID peer = "" \/ (electionTimeout peer <= electionElapsed peer)%Z;
  wv_voter : membershipIsVoter (membership peer) (id n) = true;
  wv_term : (currentTerm peer <= currentTerm n + 1)%N;
  wv_vote : (currentTerm peer < currentTerm n + 1)%N \/ votedFor peer = "" \/ votedFor peer = id n;
  wv_log : at_least_as_recent (log peer) (lastIndexLocked (log n)) (lastTermLocked (log n));
  wv_saves : persists (vote_writes (vote_request n) peer) (storage peer);
}.

Lemma would_vote_grants args peer :
  persists (vote_writes args peer) (storage peer) ->
  rvr_VoteGranted (snd (RequestVote args peer)) = true ->
  snd (RequestVote args peer) = mkRequestVoteReply (rv_Term args) (id peer) true.
Proof.
  unfold vote_writes, RequestVote, adoptTerm, voteInCurrentTerm. intros Hf.
  destruct (N.ltb_spec (rv_Term args) (currentTerm peer)); [done|].
  destruct (N.ltb_spec (currentTerm peer) (rv_Term args)).
  - destruct Hf as (s1 & -> & s2 & Hs2 & _). cbn -[saveAndSync]. repeat (case_match; cbn; try done).
  - destruct Hf as (s1 & Hs1 & _). repeat (case_match; cbn; try done).
    intros _. f_equal. lia.
Qed.

Lemma would_vote_replies n p peer :
  is_u64 (currentTerm n + 1)%N -> would_vote n p peer ->
  PreVote (pre_request n) peer = mkPreVoteReply (currentTerm peer) p true /\
  snd (RequestVote (vote_request n) peer) = mkRequestVoteReply (rv_Term (vote_request n)) p true.
Proof.
  intros Hu [<- Hr Hl Hv Ht Hvote Hlog Hs]. split.
  - unfold PreVote, pre_request. cbn. rewrite u64_add_small by done.
    rewrite bool_decide_false by done. rewrite Hv. cbn.
    destruct (N.ltb_spec (currentTerm n + 1) (currentTerm peer)); [lia|].
    replace (bool_decide (leaderID peer ≠ "") && _) with false.
    2: { symmetry. apply andb_false_iff. destruct Hl as [->|?]; [by left|right]. by apply Z.ltb_ge. }
    by rewrite (proj2 (isCandidateLogUpToDate_spec _ _ _) Hlog).
  - apply would_vote_grants; [done|]. apply vote_granted_iff; [done|].
    cbn. rewrite u64_add_small by done. split_and!; [lia|done|tauto|done].
Qed.

(** The state of the network while the peers [ps] have yet to be asked. *)
Definition awaiting n (granters : gset NodeID) (ps : list NodeID) l : Prop :=
  lt_closed l = false /\ NoDup ps /\
  (forall p, p ∈ ps -> p ∈ granters ->
     linked (id n) p l /\ exists peer, lt_peers l !! p = Some peer /\ would_vote n p peer) /\
  (forall p peer, p ∈ ps -> lt_peers l !! p = Some peer -> (currentTerm peer <= currentTerm n + 1)%N).

(** A pre-vote changes nothing; the vote of one peer leaves the others as they are. *)
Lemma PreVote_leaves l p args l' r :
  tr_PreVote (local_transport late) l p args = (l', r) -> l' = l.
Proof.
  cbn. unfold lt_PreVote, lt_call, checkBlocked, lt_peer. destruct (lt_closed l) eqn:Ec; [congruence|].
  case_bool_decide; [congruence|]. destruct (lt_peers l !! p) as [peer|] eqn:Ep; [|congruence].
  intros [= <- _]. rewrite insert_id by done. destruct l; cbn in *; congruence.
Qed.

Lemma awaiting_supported n granters :
  is_u64 (currentTerm n + 1)%N ->
  supported (local_transport late) granters (pre_request n) (vote_request n) (awaiting n granters).
Proof.
  intros Hu. split.
  - intros ps l p l' r Hw Hp E. pose proof (PreVote_leaves _ _ _ _ _ E) as ->. split; [done|]. intros Hg.
    destruct Hw as (Hc & _ & Hgr & _). destruct (Hgr p Hp Hg) as ([Hb Hla] & peer & Hpeer & Hv).
    cbn in E. unfold lt_PreVote, lt_call, checkBlocked, lt_peer in E. rewrite Hc in E.
    rewrite bool_decide_false in E by exact Hb. rewrite Hpeer in E.
    change (pv_CandidateID (pre_request n)) with (id n) in E. rewrite Hla in E. injection E as _ <-.
    eexists. f_equal. by apply (would_vote_replies n p peer).
  - intros ps l p l' r (Hc & Hnd & Hgr & Hterms) E. apply NoDup_cons in Hnd as [Hfresh Hnd].
    cbn in E. unfold lt_RequestVote, lt_call, checkBlocked, lt_peer in E. rewrite Hc in E.
    change (rv_CandidateID (vote_request n)) with (id n) in E.
    assert (awaiting n granters ps l) as Hsame.
    { split_and!; [done|done|intros q Hq; apply Hgr; by right|intros q peer Hq; apply Hterms; by right]. }
    case_bool_decide as Hblock.
    { injection E as <- <-. split_and!; [done| |done]. intros Hg. by destruct (Hgr p ltac:(left) Hg) as [[? _] _]. }
    destruct (lt_peers l !! p) as [peer|] eqn:Hpeer.
    2: { injection E as <- <-. split_and!; [done| |done]. intros Hg.
         destruct (Hgr p ltac:(left) Hg) as (_ & peer & Hp & _). congruence. }
    destruct (RequestVote (vote_request n) peer) as [peer' reply] eqn:Er. injection E as <- <-. split_and!.
    + destruct Hsame as (_ & _ & Hgr' & Hterms'). split_and!; [done|done| |]; cbn [lt_peers lt_blocked].
      * intros q Hq Hg. rewrite lookup_insert_ne by (intros ->; done). by apply Hgr'.
      * intros q peer2 Hq. rewrite lookup_insert_ne by (intros ->; done). by apply Hterms'.
    + intros Hg. destruct (Hgr p ltac:(left) Hg) as ([_ Hla] & peer2 & Hp2 & Hv). assert (peer2 = peer) as -> by congruence.
      rewrite Hla. f_equal. change reply with (snd (peer', reply)). rewrite <- Er. by apply (would_vote_replies n p peer).
    + intros reply'. destruct (late (id n) p); [done|]. intros [= <-].
      change reply with (snd (peer', reply)). rewrite <- Er. apply RequestVote_reply_term. cbn.
      rewrite u64_add_small by done. eapply Hterms; [left|exact Hpeer].
Qed.

(** C30: an election that a quorum supports is won.  In a cluster of nodes, a voter that is
    not leader and has heard of none for an election timeout becomes leader of the next term
    by [runElection] when it, together with the reachable peers that would vote for it
    ([would_vote]: their term, vote, log, timer and membership allow it and their storage
    takes the vote), forms a quorum of its membership, no reachable peer is in a later term
    than the one of the election, and its own storage takes its state.  Other peers may be
    unreachable, late or opposed. *)
Theorem runElection_wins l n granters :
  lt_closed l = false -> NoDup (peerIDs n) ->
  (forall p, p ∈ granters -> membershipIsVoter (membership n) p = true /\ linked (id n) p l /\
     exists peer, lt_peers l !! p = Some peer /\ would_vote n p peer) ->
  (forall p peer, p ∈ peerIDs n -> lt_peers l !! p = Some peer -> (currentTerm peer <= currentTerm n + 1)%N) ->
  membershipIsVoter (membership n) (id n) = true ->
  membershipHasQuorum (membership n) ({[id n]} ∪ (granters ∩ list_to_set (peerIDs n))) = true ->
  persists [candidate_state n] (storage n) ->
  storageWriteBlocked n = false -> transportSet n = true -> role n ≠ Leader ->
  leaderID n = "" \/ (electionTimeout n <= electionElapsed n)%Z ->
  is_u64 (currentTerm n + 1)%N ->
  let n' := snd (runElection (local_transport late) l n) in
  role n' = Leader /\ currentTerm n' = (currentTerm n + 1)%N /\ votedFor n' = id n /\ leaderID n' = id n.
Proof.
  intros Hc Hnd Hg Hterms Hself Hq Hs Hb Htr Hnl Hlead Hu.
  eapply (supported_wins _ granters); try done; [by apply awaiting_supported| |intros p Hp; by apply Hg].
  split_and!; [done|done|intros p _ Hp; by apply Hg|done].
Qed.

End Wins.

(** Node a is elected by b; the link to c is blocked. *)
Lemma runElection_wins_witness :
  role (snd (runElection (local_transport prompt) (Block "a" "c" three_nodes) (follower_of "a" ["b"; "c"]))) = Leader.
Proof.
  apply (runElection_wins prompt (Block "a" "c" three_nodes) (follower_of "a" ["b"; "c"]) {["b"]}).
  - reflexivity.
  - apply (bool_decide_unpack _). vm_compute. exact I.
  - intros p ->%elem_of_singleton. split; [reflexivity|]. split.
    + split; [|reflexivity]. apply (bool_decide_unpack _). vm_compute. exact I.
    + exists (follower_of "b" ["a"; "c"]). split; [reflexivity|].
      split; [reflexivity|done|by left|reflexivity|vm_compute; discriminate|left; vm_compute; reflexivity| |apply MemoryStorage_persists].
      right. split; [reflexivity|vm_compute; discriminate].
  - intros p peer Hp. apply elem_of_cons in Hp as [->|[->|Hp%not_elem_of_nil]%elem_of_cons]; [..|done];
      intros [= <-]; vm_compute; discriminate.
  - reflexivity.
  - vm_compute. reflexivity.
  - apply MemoryStorage_persists.
  - reflexivity.
  - reflexivity.
  - done.
  - by left.
  - vm_compute. reflexivity.
Defined.
