(* ===== verification/ReadSafety.v ===== *)
(** Linearizable reads: an index that [ReadIndex] returns covers everything committed
    before the read began.

    A [system] is the cluster of [StateMachineSafety] with the reads in progress on its
    nodes.  A read begins with the checks of [ReadIndex], sends its heartbeats
    ([readIndexRequest]) and handles the answers ([readIndexHandle]) one at a time; between
    any two of these the cluster takes any steps: the reading node and its peers go on
    replicating, vote, crash and restart, other reads run, heartbeats and answers are lost
    or delayed. *)

From S2P Require Import Prelude Model RaftLog Storage Membership ConfigEntry Node Election.
From S2P Require Import ElectionFacts Apply SnapshotOps Replication ReplicationFacts Durability.
From S2P Require Import ElectionSafety ReadIndex LogChain LogMatching LogTree RaftSteps RaftHistory.
From S2P Require Import StateMachineSafety ReplicationLoop LocalTransport.

Section Reads.
Context {S : Type} `{StorageLaws S}.
Implicit Types n : RaftNode S.
Implicit Types w : world (S := S).
Notation raft := (raft (S := S)).

(** ** What a leader has committed *)

(** A leader's commit index has reached all it has committed in its term. *)
Definition reached w (co : list (Term * NodeID * LogIndex * pos)) : Prop :=
  forall t i c F, (t, i, c, F) ∈ co -> (t, i) ∈ won w /\
    forall n, nodes w !! i = Some n -> role n = Leader -> currentTerm n = t -> (c <= commitIndex n)%N.

Definition keeps_reached w i n n' : Prop :=
  role n' = Leader -> (currentTerm n', i) ∉ won w \/
    role n = Leader /\ currentTerm n = currentTerm n' /\ (commitIndex n <= commitIndex n')%N.

Lemma reached_node w w' co i n n' :
  nodes w' = <[i := n']> (nodes w) -> won w ⊆ won w' -> nodes w !! i = Some n ->
  keeps_reached w i n n' -> reached w co -> reached w' co.
Proof.
  intros Hn Hw Hi Hk Hr t j c F Hin. destruct (Hr t j c F Hin) as [Hwon Hc]. split; [by apply Hw|].
  intros nj. rewrite Hn, lookup_insert_Some. intros [[<- <-]|[_ Hj]] Hl Ht; [|by apply Hc].
  destruct (Hk Hl) as [Hno|(Hl' & Ht' & Hle)]; [by rewrite Ht in Hno|].
  pose proof (Hc n Hi Hl' ltac:(congruence)). lia.
Qed.

Lemma keeps_passive w i n n' : clean n -> passive n n' -> commitIndex n' = commitIndex n -> keeps_reached w i n n'.
Proof.
  intros Hc P Hcm Hl. right. destruct (P Hc) as (_ & _ & _ & _ & Hr & _).
  destruct Hr as [Hr|(Hr & _ & Ht)]; [congruence|]. split_and!; [congruence|done|lia].
Qed.

Lemma reached_advanced m w co i n n' :
  cluster_inv m (with_node i n' w) -> nodes w !! i = Some n ->
  keeps_reached w i n n' -> reached w co -> reached (with_node i n' w) (advanced i n n' ++ co).
Proof.
  intros Hc Hi Hk Hr t j c F [Hin|Hin]%elem_of_app.
  - unfold advanced in Hin. destruct (bool_decide (role n' = Leader) && _) eqn:Hb; [|by apply elem_of_nil in Hin].
    apply andb_true_iff in Hb as [Hl%bool_decide_eq_true _]. apply list_elem_of_singleton in Hin as [= -> -> -> ->].
    assert (nodes (with_node i n' w) !! i = Some n') as Hi' by apply lookup_insert_eq. split.
    + by apply (proj2 Hc i n' Hi').
    + intros nj. rewrite Hi'. by intros [= <-].
  - by apply (reached_node w (with_node i n' w) co i n n' eq_refl ltac:(reflexivity) Hi Hk Hr t j c F).
Qed.

(** A step changes at most one node, which keeps what it has reached and its term. *)
Definition local_step (r r' : raft) i n n' : Prop :=
  nodes (cl_world (cl r')) = <[i := n']> (nodes (cl_world (cl r))) /\
  nodes (cl_world (cl r)) !! i = Some n /\ keeps_reached (cl_world (cl r)) i n n' /\
  (currentTerm n <= currentTerm n')%N.

Lemma term_le_passive n n' : clean n -> passive n n' -> (currentTerm n <= currentTerm n')%N.
Proof. intros Hc P. destruct (P Hc) as (_ & _ & He & _). by apply extends_term in He. Qed.

Lemma step_local m r r' :
  cluster_inv m (cl_world (cl r)) -> matching_inv (cl r) -> raft_inv m r -> raft_step r r' ->
  won (cl_world (cl r)) ⊆ won (cl_world (cl r')) /\
  (nodes (cl_world (cl r')) = nodes (cl_world (cl r)) /\ commits r' = commits r \/
   exists i n n', local_step r r' i n n' /\
     (commits r' = commits r \/
      cl_world (cl r') = with_node i n' (cl_world (cl r)) /\ commits r' = advanced i n n' ++ commits r)).
Proof.
  intros Hc Hm Hinv Hs.
  assert (forall i n, nodes (cl_world (cl r)) !! i = Some n -> clean n) as Hclean.
  { intros i n Hi. by destruct (proj2 Hc i n Hi) as (_ & _ & _ & ? & _). }
  destruct Hs as [i n n' res w ss C vr an ca co be Hi Hu E|i n args w ss C vr an ca co be Hi E
    |i n n' args reply w ss C vr an ca co be Hi Hin E|n args reply w ss C vr an ca co be Hi Hin
    |i n n' b w ss C vr an ca co be Hi E|i n peerID args w ss C vr an ca co be Hi Hu E
    |i n peerID term commit args w ss C vr an ca co be Hi Hu Hle E
    |i n op w ss C vr an ca co be Hi Hop|i n op n' w ss C vr an ca co be Hi Hop Hf E];
    unfold local_step; cbn [cl cl_world commits won with_node nodes] in *;
    (split; [try done; by destruct b; set_solver|]); try (by left); right.
  - exists i, n, n'. split; [|by left]. split_and!; [done|done|..].
    all: pose proof (startElection_idle n) as (_ & _ & Hcm); rewrite E in Hcm; cbn in Hcm;
      pose proof (startElection_cases n n' res Hu E) as Hcase; destruct res as [t|e].
    + destruct Hcase as (_ & _ & _ & Hrole & _). intros Hl. congruence.
    + apply keeps_passive; [by eapply Hclean|apply Hcase|done].
    + destruct Hcase as (_ & _ & _ & _ & _ & _ & _ & He & _). by apply extends_term in He.
    + apply term_le_passive; [by eapply Hclean|apply Hcase].
  - exists i, n, n'. destruct (RequestVote_grants args n n' reply E) as [(_ & _ & Hcm) _].
    apply RequestVote_passive in E as [P _]. split; [|by left].
    split_and!; [done|done|by apply keeps_passive; [eapply Hclean|..]|apply term_le_passive; [by eapply Hclean|done]].
  - exists (rv_CandidateID args), n, (handleVoteReply (rv_Term args) reply n). split; [|by left].
    destruct (handleVoteReply_cases (rv_Term args) reply n) as [P|(Hrole & _ & _ & E)].
    + split_and!; [done|done| |apply term_le_passive; [by eapply Hclean|done]].
      apply keeps_passive; [by eapply Hclean|done|apply handleVoteReply_idle].
    + rewrite E. split_and!; [done|done| |done]. intros Hl. change (role n = Leader) in Hl. congruence.
  - exists i, n, n'. split; [|by left].
    unfold tryBecomeLeader in E. case_bool_decide as Hrole; [injection E as <- <-; split_and!; try done; by right|].
    destruct (negb _); injection E as <- <-; [split_and!; try done; by right|].
    assert (role n = Candidate) as Hcand by (by destruct (role n)).
    destruct Hm as (_ & _ & _ & _ & Hlog). destruct (Hlog i n Hi) as (_ & _ & Hno & _).
    destruct (becomeLeaderLocked_frame n) as [ls ->]. split_and!; try done. intros _. left. by apply Hno.
  - exists i, n, (run_op op n). split; [|by right].
    pose proof (op_progress m w ss C vr an ca co be Hc Hinv i n op Hi Hop) as Hp.
    pose proof (op_free m w ss C vr an ca co be Hinv n op Hop) as Hfree.
    pose proof (run_op_passive op n Hfree) as P. split_and!; [done|done| |apply term_le_passive; [by eapply Hclean|done]].
    destruct (P (Hclean i n Hi)) as (_ & _ & _ & _ & Hrole & _).
    intros Hl. right. destruct Hrole as [Hrole|(Hrole & _ & Ht)]; [congruence|]. split_and!; [congruence|done|].
    destruct (pg_commit _ _ _ Hp) as [->|[(_ & ? & _)|(args & _ & _ & Hrole' & _)]]; [lia|lia|congruence].
  - exists i, n, n'. split; [|by left]. destruct (restart_state _ _ _ E) as (_ & _ & Hps & Hrole & _).
    split_and!; [done|done|intros Hl; congruence|].
    pose proof (op_free m w ss C vr an ca co be Hinv n op Hop) as Hfree.
    pose proof (run_op_passive op n Hfree) as P. pose proof (term_le_passive _ _ (Hclean i n Hi) P).
    destruct (P (Hclean i n Hi)) as (_ & _ & _ & _ & _ & Hsv).
    specialize (Hsv (no_saved _ _ _ (proj2 Hinv i n Hi))). unfold saved, stored in Hsv.
    unfold currentTerm at 2. rewrite Hps. lia.
Qed.

(** What leaders have reached stays reached. *)
Lemma reached_kept m r r' co :
  cluster_inv m (cl_world (cl r)) -> matching_inv (cl r) -> raft_inv m r -> raft_step r r' ->
  reached (cl_world (cl r)) co -> reached (cl_world (cl r')) co.
Proof.
  intros Hc Hm Hinv Hs Hr. destruct (step_local m r r' Hc Hm Hinv Hs) as [Hw [[Hn _]|(i & n & n' & (Hn & Hi & Hk & _) & _)]].
  - intros t j c F Hin. destruct (Hr t j c F Hin). rewrite Hn. split; [by apply Hw|done].
  - by eapply reached_node.
Qed.

Lemma reached_step m r r' :
  cluster_inv m (cl_world (cl r)) -> matching_inv (cl r) -> raft_inv m r -> cluster_inv m (cl_world (cl r')) ->
  reached (cl_world (cl r)) (commits r) -> raft_step r r' -> reached (cl_world (cl r')) (commits r').
Proof.
  intros Hc Hm Hinv Hc' Hr Hs. pose proof (reached_kept m r r' _ Hc Hm Hinv Hs Hr) as Hkept.
  destruct (step_local m r r' Hc Hm Hinv Hs) as [_ [[_ ->]|(i & n & n' & (_ & Hi & Hk & _) & [->|[Hw ->]])]]; try done.
  rewrite Hw in *. by apply (reached_advanced m).
Qed.

Lemma reachable_reached m r0 r :
  new_raft m r0 -> rtc raft_step r0 r -> reached (cl_world (cl r)) (commits r).
Proof.
  intros Hinit Hs. revert r Hs. apply (rtc_ind_r (fun r => reached (cl_world (cl r)) (commits r)) r0).
  { destruct Hinit as (_ & _ & _ & _ & Hco & _ & _). intros t i c F. rewrite Hco. by intros ?%elem_of_nil. }
  intros r1 r2 Hs1 Hstep IH. destruct (reachable_raft m _ _ Hinit Hs1) as (Hc1 & Hm1 & Hinv1).
  destruct (reachable_raft m r0 r2 Hinit) as (Hc2 & _); [by eapply rtc_r|].
  by eapply (reached_step m r1).
Qed.

(** ** The answers of the peers *)

Lemma appendInTerm_term args n n' reply : appendInTerm args n = (n', reply) -> currentTerm n' = currentTerm n.
Proof.
  unfold appendInTerm. destruct (if (0 <? _)%N then _ else _); [by intros [= <- _]|].
  set (n1 := set_electionElapsed _ _). destruct (reconcileReplicatedEntriesLocked (ae_Entries args) n1) as [n2 o] eqn:E.
  assert (currentTerm n2 = currentTerm n) as Ht.
  { change (currentTerm n) with (currentTerm n1). clear -E. unfold reconcileReplicatedEntriesLocked in E.
    repeat split_hyp_match E; by simplify_eq. }
  destruct o; [by intros [= <- _]|]. destruct (applyCommitted_frame n2) as (_ & _ & Ha & _).
  repeat case_match; intros [= <- _]; try done.
  all: match goal with |- context [applyCommitted ?x] => destruct (applyCommitted_frame x) as (_ & _ & -> & _) end; done.
Qed.

Lemma AppendEntries_term args n n' reply :
  AppendEntries args n = (n', reply) ->
  (currentTerm n <= currentTerm n')%N /\ (aer_Success reply = true -> (currentTerm n <= ae_Term args)%N).
Proof.
  unfold AppendEntries. destruct (N.ltb_spec (ae_Term args) (currentTerm n)); [by intros [= <- <-]|].
  destruct (N.ltb_spec (currentTerm n) (ae_Term args)) as [Hlt|].
  2: { intros ->%appendInTerm_term. by split; [|intros _]. }
  destruct (adoptTerm _ n) as [n1 []] eqn:Ea.
  - apply adoptTerm_cases in Ea as (_ & _ & _ & _ & _ & Ht). destruct (Ht eq_refl) as [Ht1 _].
    intros ->%appendInTerm_term. rewrite Ht1. split; [lia|by intros _].
  - intros [= <- <-]. split; [|done]. unfold adoptTerm in Ea. destruct (saveAndSync _ _) as [s [e|]]; by simplify_eq.
Qed.

(** ** Reads *)

(** What is committed lies at or below the commit index of a leader that a quorum has
    confirmed in its term. *)
Lemma confirmed_covers m r0 r i n t j c F Q :
  new_raft m r0 -> rtc raft_step r0 r -> nodes (cl_world (cl r)) !! i = Some n ->
  role n = Leader -> term_at (log n) (commitIndex n) = Some (currentTerm n) -> (0 < commitIndex n)%N ->
  membershipHasQuorum m Q = true ->
  (forall p, p ∈ Q -> exists np, nodes (cl_world (cl r)) !! p = Some np /\ (currentTerm np <= currentTerm n)%N) ->
  (t, j, c, F) ∈ commits r -> (c <= commitIndex n)%N.
Proof.
  intros Hinit Hs Hi Hl Hterm Hpos HQ Hacks Hin. destruct (reachable_raft m _ _ Hinit Hs) as (Hc & Hm & Hinv).
  destruct (reachable_reached m _ _ Hinit Hs _ _ _ _ Hin) as [Hwon Hreach]. pose proof Hinv as [Hh Hall].
  destruct (N.lt_trichotomy t (currentTerm n)) as [Hlt|[->|Hgt]].
  - destruct (leader_elected m _ (hist r) Hc eq_refl Hinv i n Hi Hl) as (E & HE & HEu).
    pose proof (complete m (hist r) Hh _ _ _ _ _ _ Hin HE Hlt) as Hcomp.
    assert (under (h_created (hist r)) (commitIndex n, currentTerm n) (log_end (log n))) as Hu.
    { apply entry_under; [apply (Hall i n Hi)|done]. }
    destruct (under_total _ (ho_tree _ _ Hh) (c, t) (commitIndex n, currentTerm n) (log_end (log n))) as [Ho|Ho];
      [by etrans|done|..]; apply (under_le _ (ho_tree _ _ Hh)) in Ho; cbn in Ho; lia.
  - assert (j = i) as ->; [|by eapply Hreach]. apply (won_unique m (cl_world (cl r)) (currentTerm n)); try done.
    by apply (leader_won m _ (hist r) Hc eq_refl).
  - destruct (proj1 Hc) as (_ & _ & _ & Hquorum). destruct (Hquorum t j Hwon) as (Q' & HQ' & Hballots).
    destruct (quorums_intersect m Q Q' HQ HQ') as (v & Hv & Hv'). destruct (Hacks v Hv) as (nv & Hnv & Hle).
    pose proof (ballot_term m _ (hist r) Hc eq_refl v nv t j Hnv (Hballots v Hv')). lia.
Qed.

(** ** Reads in progress *)

(** The local variables of a call of [ReadIndex], and what it has returned. *)
Record read := mkRead {
  rd_node : NodeID;
  rd_term : Term;
  rd_commit : LogIndex;
  rd_membership : Membership;
  rd_acks : gset NodeID;
  rd_result : option (result LogIndex);
}.

Definition beginRead i n : read :=
  mkRead i (currentTerm n) (commitIndex n) (membership n) {[id n]}
    (if membershipHasQuorum (membership n) {[id n]} then Some (Ok (commitIndex n)) else None).

Definition settle (d : read) (o : ReadOutcome) : read :=
  match o with
  | Wait acks => mkRead (rd_node d) (rd_term d) (rd_commit d) (rd_membership d) acks (rd_result d)
  | Return res => mkRead (rd_node d) (rd_term d) (rd_commit d) (rd_membership d) (rd_acks d) (Some res)
  end.

Record system := mkSystem {
  sy_raft : raft;
  (** the reads begun so far *)
  sy_reads : list read;
  (** heartbeats sent: the read, the peer, the request, and the log of the leader *)
  sy_calls : list (nat * NodeID * AppendEntriesArgs * Log);
  (** answers to them *)
  sy_results : list (nat * NodeID * AppendEntriesReply);
}.

(** The cluster after an operation of a node, and after a heartbeat is sent. *)
Definition after_op i n (op : node_op) (r : raft) : raft :=
  mkRaft (mkCluster (with_node i (run_op op n) (cl_world (cl r))) (sent (cl r)) (created_by op n ++ creations (cl r)))
    (votereqs r) (answered i op n ++ answers r) (camps r) (advanced i n (run_op op n) ++ commits r) (beats r).

Definition after_beat (args : AppendEntriesArgs) (l : Log) (r : raft) : raft :=
  mkRaft (cl r) (votereqs r) (answers r) (camps r) (commits r) ((args, l) :: beats r).

Definition read_reply_op (d : read) (p : NodeID) (reply : AppendEntriesReply) : node_op :=
  OpReadReply (rd_membership d) (rd_term d) (rd_commit d) (rd_acks d) p reply.

(** A system in which no read has begun, and one in which node [i], now [n], begins one. *)
Definition no_reads (r : raft) : system := mkSystem r [] [] [].

Definition with_read i n (s : system) : system :=
  mkSystem (sy_raft s) (sy_reads s ++ [beginRead i n]) (sy_calls s) (sy_results s).

Inductive system_step : system -> system -> Prop :=
| SRaft r r' rd cs rs : raft_step r r' -> system_step (mkSystem r rd cs rs) (mkSystem r' rd cs rs)
| SBegin i n r rd cs rs :
    nodes (cl_world (cl r)) !! i = Some n -> readIndexRefused n = None ->
    system_step (mkSystem r rd cs rs) (with_read i n (mkSystem r rd cs rs))
| SCall k d n p args r rd cs rs :
    rd !! k = Some d -> nodes (cl_world (cl r)) !! rd_node d = Some n ->
    is_u64 (default 0%N (nextIndexOf n p)) ->
    readIndexRequest (rd_term d) (rd_commit d) p n = Ok args ->
    system_step (mkSystem r rd cs rs)
      (mkSystem (after_beat args (log n) r) rd ((k, p, args, log n) :: cs) rs)
| SDeliver k p args l n r rd cs rs :
    (k, p, args, l) ∈ cs -> nodes (cl_world (cl r)) !! p = Some n -> agrees args l n ->
    system_step (mkSystem r rd cs rs)
      (mkSystem (after_op p n (OpReadHeartbeat args) r) rd cs ((k, p, snd (AppendEntries args n)) :: rs))
| SResult k d p reply n r rd cs rs :
    (k, p, reply) ∈ rs -> rd !! k = Some d -> rd_result d = None ->
    nodes (cl_world (cl r)) !! rd_node d = Some n -> timely (rd_term d) reply n ->
    system_step (mkSystem r rd cs rs)
      (mkSystem (after_op (rd_node d) n (read_reply_op d p reply) r)
         (<[k := settle d (snd (readIndexHandle (rd_membership d) (rd_term d) (rd_commit d) (rd_acks d) p (Ok reply) n))]> rd)
         cs rs).

(** What the reads have reached: the index a leader had committed to when it began one. *)
Definition begun (rd : list read) : list (Term * NodeID * LogIndex * pos) :=
  (fun d => (rd_term d, rd_node d, rd_commit d, root)) <$> rd.

Lemma elem_of_begun d rd : d ∈ rd -> (rd_term d, rd_node d, rd_commit d, root) ∈ begun rd.
Proof. intros Hd. apply list_elem_of_fmap. by exists d. Qed.

Record system_inv (r0 : raft) (s : system) : Prop := mkSystemInv {
  si_run : rtc raft_step r0 (sy_raft s);
  si_reached : reached (cl_world (cl (sy_raft s))) (begun (sy_reads s));
  si_calls k p args l : (k, p, args, l) ∈ sy_calls s -> (args, l) ∈ beats (sy_raft s) /\
    exists d, sy_reads s !! k = Some d /\ ae_Term args = rd_term d;
  si_results k p reply : (k, p, reply) ∈ sy_results s -> is_Some (sy_reads s !! k);
}.

Lemma settle_static d o :
  rd_node (settle d o) = rd_node d /\ rd_term (settle d o) = rd_term d /\
  rd_commit (settle d o) = rd_commit d /\ rd_membership (settle d o) = rd_membership d.
Proof. by destruct o. Qed.

Lemma begun_settle rd k d o : rd !! k = Some d -> begun (<[k := settle d o]> rd) = begun rd.
Proof.
  intros Hk. unfold begun. rewrite list_fmap_insert. destruct (settle_static d o) as (-> & -> & -> & _).
  apply list_insert_id. by rewrite list_lookup_fmap, Hk.
Qed.

Lemma op_raft_step i n op (r : raft) :
  nodes (cl_world (cl r)) !! i = Some n -> raft_op r op n -> raft_step r (after_op i n op r).
Proof. intros Hi Hop. destruct r as [[w ss C] vr an ca co be]. by apply ROp. Qed.

(** A leader that is still in the term of its read has not lost what it had committed. *)
Lemma read_reached r0 s d n :
  system_inv r0 s -> d ∈ sy_reads s -> nodes (cl_world (cl (sy_raft s))) !! rd_node d = Some n ->
  role n = Leader -> currentTerm n = rd_term d -> (rd_commit d <= commitIndex n)%N.
Proof. intros Hs Hd Hn. by apply (si_reached _ _ Hs _ _ _ _ (elem_of_begun _ _ Hd)). Qed.

Lemma beats_kept (r r' : raft) x : raft_step r r' -> x ∈ beats r -> x ∈ beats r'.
Proof. intros Hs. destruct Hs; cbn; set_solver. Qed.

Section Runs.
Context (m : Membership) (r0 : raft) (Hnew : new_raft m r0).

(** The cluster of a system takes its own steps. *)
Lemma system_raft_step s s' :
  system_inv r0 s -> system_step s s' -> sy_raft s' = sy_raft s \/ raft_step (sy_raft s) (sy_raft s').
Proof.
  intros Hinv Hs. destruct Hs as [r r' rd cs rs Hs|i n r rd cs rs Hi Hn|k d n p args r rd cs rs Hk Hn Hu E
    |k p args l n r rd cs rs Hin Hn Hag|k d p reply n r rd cs rs Hin Hk Hres Hn Ht]; cbn [sy_raft]; [by right|by left|..]; right.
  - destruct (readIndexRequest_spec _ _ _ _ _ Hu E) as (Hr & Ht & Ht' & _).
    pose proof (read_reached r0 _ d n Hinv (list_elem_of_lookup_2 _ _ _ Hk) Hn Hr ltac:(congruence)) as Hle.
    destruct r as [[w ss C] vr an ca co be]. by eapply RBeat.
  - apply op_raft_step; [done|]. split; [done|]. exists l. split; [|done]. by eapply (si_calls _ _ Hinv).
  - by apply op_raft_step; [|split].
Qed.

Lemma reachable_read s :
  system_inv r0 s -> cluster_inv m (cl_world (cl (sy_raft s))) /\ matching_inv (cl (sy_raft s)) /\ raft_inv m (sy_raft s).
Proof. intros Hs. apply (reachable_raft m r0); [done|apply Hs]. Qed.

Lemma system_reached s s' :
  system_inv r0 s -> system_step s s' -> reached (cl_world (cl (sy_raft s'))) (begun (sy_reads s)).
Proof.
  intros Hinv Hs. destruct (reachable_read s Hinv) as (Hc & Hm & Hr).
  destruct (system_raft_step s s' Hinv Hs) as [->|Hstep]; [apply Hinv|]. eapply reached_kept; try done. apply Hinv.
Qed.

Lemma system_step_inv s s' : system_inv r0 s -> system_step s s' -> system_inv r0 s'.
Proof.
  intros Hinv Hs. pose proof (system_raft_step s s' Hinv Hs) as Hraft. pose proof (system_reached s s' Hinv Hs) as Hreach.
  assert (rtc raft_step r0 (sy_raft s')) as Hrun.
  { destruct Hraft as [->|?]; [apply Hinv|]. eapply rtc_r; [apply Hinv|done]. }
  assert (forall x, x ∈ beats (sy_raft s) -> x ∈ beats (sy_raft s')) as Hbeats.
  { intros x Hx. destruct Hraft as [->|Hst]; [done|by eapply beats_kept]. }
  destruct (reachable_read s Hinv) as (Hc & _ & _). destruct Hinv as [_ _ Hcalls Hresults].
  destruct Hs as [r r' rd cs rs Hs|i n r rd cs rs Hi Hn|k d n p args r rd cs rs Hk Hn Hu E
    |k p args l n r rd cs rs Hin Hn Hag|k d p reply n r rd cs rs Hin Hk Hres Hn Ht];
    unfold with_read in *; cbn [sy_raft sy_reads sy_calls sy_results] in *; split; cbn [sy_raft sy_reads sy_calls sy_results]; try done.
  - intros k p args l (? & d & ? & ?)%Hcalls. split; [by apply Hbeats|by exists d].
  - unfold begun. rewrite fmap_app. intros t j c F [Hx|Hx]%elem_of_app; [by eapply Hreach|].
    apply list_elem_of_singleton in Hx as [= -> -> -> ->]. apply readIndexRefused_None in Hn as (Hl & _).
    split; [by apply (proj2 Hc i n Hi)|]. intros n'. rewrite Hi. by intros [= <-].
  - intros k p args l (? & d & Hd & ?)%Hcalls. split; [done|]. exists d. split; [by apply lookup_app_l_Some|done].
  - intros k p reply [d Hd]%Hresults. exists d. by apply lookup_app_l_Some.
  - intros k' p' args' l' [Hx|Hx]%elem_of_cons.
    + injection Hx as -> -> -> ->. split; [cbn; set_solver|]. exists d. split; [done|].
      by destruct (readIndexRequest_spec _ _ _ _ _ Hu E) as (_ & _ & ? & _).
    + apply Hcalls in Hx as [? ?]. split; [by apply Hbeats|done].
  - intros k' p' reply' [Hx|Hx]%elem_of_cons; [|by eapply Hresults]. injection Hx as -> -> ->.
    destruct (Hcalls _ _ _ _ Hin) as (_ & d & Hd & _). by exists d.
  - by rewrite begun_settle.
  - intros k' p' args' l' Hx. apply Hcalls in Hx as (? & d' & Hd' & ?). split; [by apply Hbeats|].
    destruct (decide (k' = k)) as [->|]; [|exists d'; by rewrite list_lookup_insert_ne].
    assert (d' = d) as -> by congruence. eexists. split; [apply list_lookup_insert_eq; by eapply lookup_lt_Some|].
    by destruct (settle_static d (snd (readIndexHandle (rd_membership d) (rd_term d) (rd_commit d) (rd_acks d) p (Ok reply) n)))
      as (_ & -> & _).
  - intros k' p' reply' Hx. apply Hresults in Hx. rewrite lookup_lt_is_Some in Hx |- *. by rewrite length_insert.
Qed.

Lemma system_runs s s' :
  system_inv r0 s -> rtc system_step s s' -> system_inv r0 s' /\ rtc raft_step (sy_raft s) (sy_raft s').
Proof.
  intros Hinv Hs. induction Hs as [s|s1 s2 s3 Hstep _ IH]; [done|].
  destruct (IH (system_step_inv _ _ Hinv Hstep)) as [? Hrun]. split; [done|].
  destruct (system_raft_step _ _ Hinv Hstep) as [<-|?]; [done|by eapply rtc_l].
Qed.

Lemma no_reads_inv : system_inv r0 (no_reads r0).
Proof.
  split; cbn; [done|..].
  - by intros t i c F Hx%elem_of_nil.
  - by intros k p args l Hx%elem_of_nil.
  - by intros k p reply Hx%elem_of_nil.
Qed.

(** *** One read, from its beginning *)

(** Node [p] was in a term not beyond [term] in the world [w1]. *)
Definition confirms w1 (term : Term) (p : NodeID) : Prop :=
  exists np, nodes w1 !! p = Some np /\ (currentTerm np <= term)%N.

(** Read number [k], which began as [d0] in the world [w1]. *)
Record tracked w1 (k : nat) (d0 : read) (s : system) : Prop := mkTracked {
  tk_read : exists d, sy_reads s !! k = Some d /\
    (rd_node d = rd_node d0 /\ rd_term d = rd_term d0 /\ rd_commit d = rd_commit d0 /\
     rd_membership d = rd_membership d0) /\
    (forall p, p ∈ rd_acks d -> p = rd_node d0 \/ confirms w1 (rd_term d0) p) /\
    (forall index, rd_result d = Some (Ok index) -> index = rd_commit d0 /\
       exists Q, membershipHasQuorum (rd_membership d0) Q = true /\
         forall p, p ∈ Q -> p = rd_node d0 \/ confirms w1 (rd_term d0) p);
  tk_results p reply : (k, p, reply) ∈ sy_results s -> aer_Success reply = true -> confirms w1 (rd_term d0) p;
  tk_terms p np : nodes (cl_world (cl (sy_raft s))) !! p = Some np ->
    exists np1, nodes w1 !! p = Some np1 /\ (currentTerm np1 <= currentTerm np)%N;
}.

Lemma terms_step w1 s s' :
  system_inv r0 s -> system_step s s' ->
  (forall p np, nodes (cl_world (cl (sy_raft s))) !! p = Some np ->
     exists np1, nodes w1 !! p = Some np1 /\ (currentTerm np1 <= currentTerm np)%N) ->
  forall p np, nodes (cl_world (cl (sy_raft s'))) !! p = Some np ->
    exists np1, nodes w1 !! p = Some np1 /\ (currentTerm np1 <= currentTerm np)%N.
Proof.
  intros Hinv Hs Hall p np. destruct (reachable_read s Hinv) as (Hc & Hm & Hr).
  destruct (system_raft_step s s' Hinv Hs) as [->|Hstep]; [apply Hall|].
  destruct (step_local m _ _ Hc Hm Hr Hstep) as [_ [[-> _]|(i & n & n' & (-> & Hi & _ & Hle) & _)]]; [apply Hall|].
  rewrite lookup_insert_Some. intros [[<- <-]|[_ Hp]]; [|by apply Hall].
  destruct (Hall i n Hi) as (np1 & ? & ?). exists np1. split; [done|lia].
Qed.

(** Handling an answer to the read. *)
Lemma tracked_settle w1 d0 d p reply n :
  rd_term d = rd_term d0 -> rd_commit d = rd_commit d0 -> rd_membership d = rd_membership d0 ->
  (role n = Leader -> currentTerm n = rd_term d -> (rd_commit d <= commitIndex n)%N) ->
  (forall q, q ∈ rd_acks d -> q = rd_node d0 \/ confirms w1 (rd_term d0) q) ->
  (aer_Success reply = true -> confirms w1 (rd_term d0) p) -> rd_result d = None ->
  let d' := settle d (snd (readIndexHandle (rd_membership d) (rd_term d) (rd_commit d) (rd_acks d) p (Ok reply) n)) in
  (forall q, q ∈ rd_acks d' -> q = rd_node d0 \/ confirms w1 (rd_term d0) q) /\
  forall index, rd_result d' = Some (Ok index) -> index = rd_commit d0 /\
    exists Q, membershipHasQuorum (rd_membership d0) Q = true /\
      forall q, q ∈ Q -> q = rd_node d0 \/ confirms w1 (rd_term d0) q.
Proof.
  intros Ht Hc Hm Hle Ha Hp Hn. cbn zeta. unfold readIndexHandle.
  destruct (_ <? _)%N; [by destruct (becomeFollowerLocked _ n) as [? []]|].
  destruct (negb (aer_Term reply =? rd_term d)%N); cbn [orb]; [split; [done|cbn; by rewrite Hn]|].
  destruct (aer_Success reply); cbn [negb]; [|split; [done|cbn; by rewrite Hn]]. specialize (Hp eq_refl).
  assert (forall q, q ∈ {[p]} ∪ rd_acks d -> q = rd_node d0 \/ confirms w1 (rd_term d0) q) as Ha'.
  { intros q [->%elem_of_singleton|?]%elem_of_union; [by right|by apply Ha]. }
  destruct (membershipHasQuorum (rd_membership d) _) eqn:HQ; cbn [negb]; [|split; [done|cbn; by rewrite Hn]].
  destruct (bool_decide (role n = Leader)) eqn:Hr; [|split; done]. apply bool_decide_eq_true in Hr.
  destruct (N.eqb_spec (currentTerm n) (rd_term d)); [|split; done]. cbn [andb snd settle rd_acks rd_result]. split; [done|].
  intros index [= <-]. specialize (Hle Hr ltac:(done)). split.
  - rewrite <- Hc. destruct (N.ltb_spec (rd_commit d) (commitIndex n)); lia.
  - exists ({[p]} ∪ rd_acks d). by rewrite <- Hm.
Qed.

Lemma tracked_step w1 k d0 s s' :
  system_inv r0 s -> system_step s s' -> tracked w1 k d0 s -> tracked w1 k d0 s'.
Proof.
  intros Hinv Hs [(d & Hd & Hst & Hacks & Hres) Hresults Hterms].
  pose proof (terms_step w1 s s' Hinv Hs Hterms) as Hterms'. pose proof (si_calls _ _ Hinv) as Hcalls.
  pose proof (fun n => read_reached r0 s d n Hinv (list_elem_of_lookup_2 _ _ _ Hd)) as Hreach.
  destruct Hs as [r r' rd cs rs Hs|i n r rd cs rs Hi Hn|k' d' n p args r rd cs rs Hk Hn Hu E
    |k' p args l n r rd cs rs Hin Hn Hag|k' d' p reply n r rd cs rs Hin Hk Hnone Hn Ht];
    unfold with_read in *; cbn [sy_raft sy_reads sy_calls sy_results] in *; split; cbn [sy_raft sy_reads sy_calls sy_results]; try done.
  - by exists d.
  - exists d. split_and!; try done; [by apply lookup_app_l_Some|apply Hst..].
  - by exists d.
  - by exists d.
  - intros q reply [Hx|Hx]%elem_of_cons; [|by eapply Hresults]. injection Hx as <- -> ->. intros Hok.
    destruct (Hcalls _ _ _ _ Hin) as (_ & d' & Hd' & Ht). assert (d' = d) as -> by congruence.
    destruct (AppendEntries args n) as [n' reply] eqn:E. apply AppendEntries_term in E as [_ Hle].
    destruct (Hterms p n Hn) as (np1 & Hp1 & Hle1). exists np1. split; [done|]. specialize (Hle Hok).
    destruct Hst as (_ & Hrt & _). rewrite <- Hrt, <- Ht. lia.
  - destruct (decide (k' = k)) as [->|]; [|exists d; split; [by rewrite list_lookup_insert_ne|done]].
    assert (d' = d) as -> by congruence.
    eexists. split; [apply list_lookup_insert_eq; by eapply lookup_lt_Some|]. destruct Hst as (E1 & E2 & E3 & E4).
    split; [set (o := snd _); destruct (settle_static d o) as (-> & -> & -> & ->); by split_and!|].
    apply tracked_settle; try done; [intros Hl Hc'; by apply (Hreach n)|by eapply Hresults].
Qed.

(** A read that has returned an index covers what was committed when it began. *)
Lemma read_covers i n s1 s2 d index :
  let k := length (sy_reads s1) in
  system_inv r0 s1 -> nodes (cl_world (cl (sy_raft s1))) !! i = Some n -> readIndexRefused n = None ->
  rtc system_step (with_read i n s1) s2 ->
  sy_reads s2 !! k = Some d -> rd_result d = Some (Ok index) ->
  (forall u j c F, (u, j, c, F) ∈ commits (sy_raft s1) -> (c <= index)%N) /\
  forall j nj, nodes (cl_world (cl (sy_raft s1))) !! j = Some nj -> (commitIndex nj <= index)%N.
Proof.
  intros k Hinv Hi Hn Hs Hd Hres. set (w1 := cl_world (cl (sy_raft s1))). set (s1' := with_read i n s1) in Hs.
  destruct (reachable_read s1 Hinv) as (Hc & _ & Hr). destruct (proj2 Hc i n Hi) as (Hid & Hmem & _).
  assert (system_step s1 s1') as Hbegin by (destruct s1; by eapply SBegin).
  assert (system_inv r0 s1' /\ tracked w1 k (beginRead i n) s1') as Hstart.
  { split; [by eapply system_step_inv|]. split.
    - exists (beginRead i n). cbn. split_and!; try done; [by apply list_lookup_middle| |].
      + rewrite Hid. intros p ->%elem_of_singleton. by left.
      + intros x. destruct (membershipHasQuorum (membership n) {[id n]}) eqn:HQ; [|done]. intros [= <-].
        split; [done|]. exists {[id n]}. split; [done|]. rewrite Hid. intros p ->%elem_of_singleton. by left.
    - intros p reply Hx. apply (si_results _ _ Hinv) in Hx as [d' Hd']. apply lookup_lt_Some in Hd'. unfold k in Hd'. lia.
    - intros p np Hp. by exists np. }
  clear Hbegin. clearbody s1'. induction Hs as [s|s s' s'' Hstep _ IH].
  2: { apply IH; [done..|]. destruct Hstart. split; [by eapply system_step_inv|by eapply tracked_step]. }
  destruct Hstart as [_ [(d' & Hd' & _ & _ & Hok) _ _]]. assert (d' = d) as -> by congruence.
  destruct (Hok index Hres) as (-> & Q & HQ & Hall). cbn in HQ, Hall |- *.
  apply readIndexRefused_None in Hn as (Hl & Hpos & e & Hg & He & _).
  assert (forall u j c F, (u, j, c, F) ∈ commits (sy_raft s1) -> (c <= commitIndex n)%N) as Hcov.
  { intros u j c F. apply (confirmed_covers m r0 (sy_raft s1) i n u j c F Q); try done; [apply Hinv| |by rewrite <- Hmem|].
    - unfold term_at. rewrite Hg. cbn. by rewrite He.
    - intros p [->|Hp]%Hall; [by exists n|done]. }
  split; [done|]. intros j nj Hj. destruct (no_commit _ _ _ (proj2 Hr j nj Hj)) as (x & <- & Hx & _).
  destruct Hx as [->|(u & k' & c & F & Hin & _ & Hu)]; [cbn; lia|].
  apply (under_le _ (ho_tree _ _ (proj1 Hr))) in Hu. cbn in Hu. pose proof (Hcov _ _ _ _ Hin). lia.
Qed.
End Runs.

End Reads.
