(* ===== verification/Replicas.v ===== *)
(** Replication of the store: the state machines of all nodes go through the same states.

    A node of the cluster of [StateMachineSafety] delivers committed entries on its apply
    channel; the applier of [KvApplier] consumes them.  [delivered]: what a node has
    delivered since it started is the log up to its last applied index.  So the channels of
    any two nodes, at any times, are prefixes of one another, and an applier that has
    consumed less is a past state of one that has consumed more. *)

From S2P Require Import Prelude Model RaftLog Storage Membership ConfigEntry Node Election.
From S2P Require Import ElectionFacts Apply SnapshotOps Replication ReplicationFacts Durability.
From S2P Require Import ElectionSafety ReadIndex LogChain LogMatching LogTree RaftSteps RaftHistory.
From S2P Require Import StateMachineSafety ReplicationLoop LocalTransport ReadSafety.
From S2P Require Import Lock KvStore KvSpec KvSnapshot KvApplier.

Section Replicas.
Context {S : Type} `{StorageLaws S}.
Implicit Types n : RaftNode S.
Notation raft := (raft (S := S)).

(** ** What an operation delivers *)

Definition same_channel n n' : Prop := applyCh n' = applyCh n /\ lastApplied n' = lastApplied n.

(** An operation leaves the channel alone, or ends with applying. *)
Definition feeds n n' : Prop :=
  same_channel n n' \/ exists n1, n' = applyCommitted n1 /\ same_channel n n1.

Lemma same_feeds n n1 n' : same_channel n n1 -> feeds n1 n' -> feeds n n'.
Proof.
  intros [E1 E2] [[E3 E4]|(n2 & E & E3 & E4)]; [left|right; exists n2]; unfold same_channel; split_and?; congruence.
Qed.

Lemma adoptTerm_channel t n : same_channel n (fst (adoptTerm t n)).
Proof. unfold adoptTerm. by destruct (saveAndSync _ _) as [s [e|]]. Qed.

Lemma becomeFollowerLocked_channel t n : same_channel n (fst (becomeFollowerLocked t n)).
Proof. unfold becomeFollowerLocked. by repeat case_match. Qed.

Lemma reconcile_channel es n : same_channel n (fst (reconcileReplicatedEntriesLocked es n)).
Proof.
  unfold reconcileReplicatedEntriesLocked. repeat (case_match; try done).
Qed.

Lemma appendInTerm_feeds args n : feeds n (fst (appendInTerm args n)).
Proof.
  unfold appendInTerm. destruct (if (0 <? _)%N then _ else _); [by left|].
  set (n1 := set_electionElapsed _ _). assert (same_channel n n1) as Hn1 by done.
  pose proof (reconcile_channel (ae_Entries args) n1) as Hn2.
  destruct (reconcileReplicatedEntriesLocked (ae_Entries args) n1) as [n2 o]. cbn in Hn2.
  apply (same_feeds n n1); [done|]. apply (same_feeds n1 n2); [done|]. destruct o; [by left|].
  repeat case_match; try (by left); right; eexists; by split.
Qed.

Lemma AppendEntries_feeds args n : feeds n (fst (AppendEntries args n)).
Proof.
  unfold AppendEntries. destruct (_ <? _)%N; [by left|]. destruct (_ <? _)%N; [|apply appendInTerm_feeds].
  pose proof (adoptTerm_channel (ae_Term args) n) as Ha. destruct (adoptTerm _ n) as [n1 []]; [|by left].
  eapply same_feeds; [exact Ha|apply appendInTerm_feeds].
Qed.

Lemma advanceLocked_channel n : same_channel n (fst (advanceCommitIndexLocked n)).
Proof. destruct (advanceCommitIndexLocked n) as [n' b] eqn:E. by apply advanceCommitIndexLocked_set in E as [c ->]. Qed.

Lemma advance_feeds n : feeds n (advanceCommitIndex n).
Proof.
  unfold advanceCommitIndex. pose proof (advanceLocked_channel n) as Ha.
  destruct (advanceCommitIndexLocked n) as [n1 []]; [right; by exists n1|by left].
Qed.

Lemma reply_feeds peerID args reply n : feeds n (handleAppendEntriesReply peerID args reply n).
Proof.
  unfold handleAppendEntriesReply. destruct (_ <? _)%N; [left; apply adoptTerm_channel|].
  case_bool_decide; [by left|]. destruct (negb _); [by left|]. destruct (negb _); [left; by destruct (_ <? _)%N|].
  destruct (last _) as [e|]; [|by left]. set (n1 := if (_ <? _)%N then _ else n).
  assert (same_channel n n1) as Hn1 by (unfold n1; by destruct (_ <? _)%N).
  apply (same_feeds n n1); [done|]. exact (advance_feeds n1).
Qed.

Lemma propose_feeds data n : feeds n (fst (proposeLocked data n)).
Proof.
  unfold proposeLocked. case_bool_decide; [by left|]. destruct (st_AppendEntries _ _) as [s [e|]]; [by left|].
  destruct (st_Sync s) as [s1 [e|]]; [left; by destruct (errors_Is _ _)|].
  destruct (Append _ _) as [l|]; [|by left]. pose proof (advanceLocked_channel (set_log l (set_storage s1 n))) as Ha.
  destruct (advanceCommitIndexLocked _) as [n1 b]. left. exact Ha.
Qed.

Lemma run_op_feeds op n : plain_op op n -> feeds n (run_op op n).
Proof.
  intros Hp. destruct op; try done; cbn [run_op].
  - apply AppendEntries_feeds.
  - apply reply_feeds.
  - apply propose_feeds.
  - right. by exists n.
  - apply advance_feeds.
  - left. unfold tick. by repeat case_match.
  - left. unfold heartbeatDue. by repeat case_match.
  - by left.
  - by left.
  - left. unfold RegisterPeer. by repeat case_match.
  - apply AppendEntries_feeds.
  - left. unfold readIndexHandle. destruct (_ <? _)%N; [|by repeat case_match].
    pose proof (becomeFollowerLocked_channel (aer_Term reply) n) as Hb. by destruct (becomeFollowerLocked _ n) as [? []].
Qed.

(** ** What a node has delivered *)

Definition delivered n : Prop :=
  (lastApplied n <= commitIndex n)%N /\ applyCh n = entriesBetween (log n) 0 (N.to_nat (lastApplied n)).

Lemma entriesBetween_ext l l' from count :
  (forall k, (from < k <= from + N.of_nat count)%N -> getLocked l k = getLocked l' k) ->
  entriesBetween l from count = entriesBetween l' from count.
Proof.
  revert from. induction count as [|count IH]; intros from Hk; cbn [entriesBetween]; [done|].
  rewrite (Hk (from + 1)%N) by lia. rewrite (IH (from + 1)%N); [done|]. intros k Hr. apply Hk. lia.
Qed.

Lemma entriesBetween_app l from a b :
  entriesBetween l from (a + b) = entriesBetween l from a ++ entriesBetween l (from + N.of_nat a) b.
Proof.
  revert from. induction a as [|a IH]; intros from; cbn [entriesBetween Nat.add app]; [by rewrite N.add_0_r|].
  rewrite IH. replace (from + 1 + N.of_nat a)%N with (from + N.of_nat (Datatypes.S a))%N by lia.
  by destruct (getLocked l (from + 1)).
Qed.

Lemma entriesBetween_free l from count :
  Forall config_free (entries l) -> filter config_free (entriesBetween l from count) = entriesBetween l from count.
Proof.
  intros Hc. revert from. induction count as [|count IH]; intros from; cbn [entriesBetween]; [done|].
  destruct (getLocked l (from + 1)) as [e|] eqn:Hg; [|done]. rewrite filter_cons_True, IH; [done|].
  by eapply getLocked_config_free.
Qed.

(** A step that does not lower the commit index and keeps the committed part of the log. *)
Lemma delivered_step n n' :
  delivered n -> feeds n n' -> clean n' -> is_u64 (commitIndex n') -> (commitIndex n <= commitIndex n')%N ->
  (forall k, (1 <= k <= commitIndex n)%N -> getLocked (log n) k = getLocked (log n') k) -> delivered n'.
Proof.
  intros [Hle Hch] Hf [Hclean _] Hu Hcm Hlog.
  assert (entriesBetween (log n) 0 (N.to_nat (lastApplied n)) = entriesBetween (log n') 0 (N.to_nat (lastApplied n))) as Hold.
  { apply entriesBetween_ext. intros k Hk. apply Hlog. lia. }
  destruct Hf as [[E1 E2]|(n1 & -> & E1 & E2)]; unfold delivered; [rewrite E1, E2, Hch; split; [lia|done]|].
  pose proof (applyCommitted_frame n1) as (Hl1 & Hc1 & _). rewrite Hl1 in *. rewrite Hc1 in *.
  destruct (applyLoop_spec (N.to_nat (commitIndex n1 - lastApplied n1)) n1 Hu ltac:(lia) ltac:(lia))
    as (k & _ & _ & _ & Ha & Hle' & _ & Hch' & _). fold (applyCommitted n1) in *.
  split; [done|]. rewrite Ha, Hch', E1, E2, Hch, Hold, entriesBetween_free by done.
  rewrite N2Nat.inj_add, Nat2N.id, entriesBetween_app. cbn. by rewrite N2Nat.id.
Qed.

Lemma delivered_same n n' :
  delivered n -> same_channel n n' -> log n' = log n -> commitIndex n' = commitIndex n -> delivered n'.
Proof. intros [? ?] [E1 E2] E3 E4. unfold delivered. by rewrite E1, E2, E3, E4. Qed.

Lemma restart_delivered i s n' :
  NewRaftNodeWithStorage i s = Ok n' -> commitIndex n' = 0%N -> delivered n'.
Proof.
  unfold NewRaftNodeWithStorage. intros (p & _ & E)%bind_Ok. apply bind_Ok in E as (es & _ & E).
  apply bind_Ok in E as (sn & _ & E). apply bind_Ok in E as (l & _ & E). apply bind_Ok in E as (l' & _ & E).
  injection E as <-. unfold delivered, commitIndex, lastApplied. cbn. intros ->. done.
Qed.

(** ** Every reachable state *)

Definition all_delivered (r : raft) : Prop := forall i n, nodes (cl_world (cl r)) !! i = Some n -> delivered n.

Lemma all_delivered_node (w w' : world (S := S)) i n' :
  nodes w' = <[i := n']> (nodes w) -> (forall j n, nodes w !! j = Some n -> delivered n) -> delivered n' ->
  forall j n, nodes w' !! j = Some n -> delivered n.
Proof. intros -> Hall Hn' j n. rewrite lookup_insert_Some. intros [[<- <-]|[_ Hj]]; [done|by eapply Hall]. Qed.

Lemma op_commit_le m w ss C vr an ca co be i n op :
  let r := mkRaft (mkCluster w ss C) vr an ca co be in
  cluster_inv m w -> matching_inv (cl r) -> raft_inv m r -> nodes w !! i = Some n -> raft_op r op n ->
  (commitIndex n <= commitIndex (run_op op n))%N.
Proof.
  intros r Hc Hm Hinv Hi Hop.
  pose proof (op_node m w ss C vr an ca co be Hc Hm Hinv i n op Hi Hop) as Hn.
  pose proof (op_created m w ss C vr an ca co be Hc Hm Hinv i n op Hi Hop) as [Hh _].
  pose proof (node_commit_le m _ i _ Hh Hn) as Hle. cbn in Hle.
  destruct (pg_commit _ _ _ (op_progress m w ss C vr an ca co be Hc Hinv i n op Hi Hop))
    as [->|[(_ & ? & _)|(args & _ & _ & _ & ->)]]; [lia|lia|].
  unfold followerCommit. destruct (N.ltb_spec (commitIndex n) (ae_LeaderCommit args)); [|lia].
  change (log (set_commitIndex _ (run_op op n))) with (log (run_op op n)) in Hle.
  change (commitIndex (set_commitIndex (commitIndex n) _)) with (commitIndex n) in Hle. lia.
Qed.

Lemma step_delivered m r0 r r' :
  new_raft m r0 -> rtc raft_step r0 r -> raft_step r r' -> all_delivered r -> all_delivered r'.
Proof.
  intros Hinit Hs Hstep Hall. destruct (reachable_raft m _ _ Hinit Hs) as (Hc & Hm & Hinv).
  destruct (reachable_raft m r0 r' Hinit) as (Hc' & _ & Hinv'); [by eapply rtc_r|].
  pose proof Hstep as Hstep'. unfold all_delivered in *.
  destruct Hstep as [i n n' res w ss C vr an ca co be Hi Hu E|i n args w ss C vr an ca co be Hi E
    |i n n' args reply w ss C vr an ca co be Hi Hin E|n args reply w ss C vr an ca co be Hi Hin
    |i n n' b w ss C vr an ca co be Hi E|i n peerID args w ss C vr an ca co be Hi Hu E
    |i n peerID term commit args w ss C vr an ca co be Hi Hu Hle E
    |i n op w ss C vr an ca co be Hi Hop|i n op n' w ss C vr an ca co be Hi Hop Hf E]; cbn [cl cl_world] in *.
  - apply (all_delivered_node w _ i n'); [done|done|]. pose proof (Hall i n Hi) as Hn.
    pose proof (startElection_quiet n) as (Hl & _). pose proof (startElection_idle n) as (_ & _ & Hcm). rewrite E in Hl, Hcm.
    apply (delivered_same n); try done. unfold startElection in E. repeat split_hyp_match E; by simplify_eq.
  - done.
  - apply (all_delivered_node w _ i n'); [done|done|]. pose proof (Hall i n Hi) as Hn.
    pose proof (RequestVote_quiet args n) as (Hl & _). rewrite E in Hl.
    destruct (RequestVote_grants args n n' reply E) as [(_ & _ & Hcm) _].
    apply (delivered_same n); try done. pose proof (adoptTerm_channel (rv_Term args) n) as Ha.
    unfold RequestVote, voteInCurrentTerm in E. destruct (adoptTerm (rv_Term args) n) as [na []] eqn:Ea; cbn in Ha;
      repeat split_hyp_match E; by simplify_eq.
  - apply (all_delivered_node w _ (rv_CandidateID args) (handleVoteReply (rv_Term args) reply n)); [done|done|].
    pose proof (handleVoteReply_quiet (rv_Term args) reply n) as (Hl & _).
    pose proof (handleVoteReply_idle (rv_Term args) reply n) as (_ & _ & Hcm).
    apply (delivered_same n); try done; [by eapply Hall|]. pose proof (adoptTerm_channel (rvr_Term reply) n) as Ha.
    unfold handleVoteReply. destruct (adoptTerm (rvr_Term reply) n) as [na []]; cbn in Ha; by repeat case_match.
  - apply (all_delivered_node w _ i n'); [done|done|]. pose proof (Hall i n Hi) as Hn.
    unfold tryBecomeLeader in E. case_bool_decide; [by simplify_eq|]. destruct (negb _); simplify_eq; [done|].
    destruct (becomeLeaderLocked_frame n) as [ls ->]. by apply (delivered_same n).
  - done.
  - done.
  - apply (all_delivered_node w _ i (run_op op n)); [done|done|].
    assert (nodes (with_node i (run_op op n) w) !! i = Some (run_op op n)) as Hi' by apply lookup_insert_eq.
    pose proof (op_commit_le m w ss C vr an ca co be i n op Hc Hm Hinv Hi Hop) as Hle.
    pose proof (proj2 Hinv' i _ Hi') as Hn'. pose proof (node_commit_le m _ i _ (proj1 Hinv') Hn') as Hle'.
    destruct (no_whole _ _ _ Hn') as [(_ & Hu & _) _].
    apply (delivered_step n); [by eapply Hall|apply run_op_feeds, Hop| | |done|].
    + by destruct (proj2 Hc' i _ Hi') as (_ & _ & _ & ? & _).
    + lia.
    + intros k Hk. destruct (committed_agree m r0 _ _ i i n (run_op op n) k Hinit Hs (rtc_once _ _ Hstep') Hi Hi' Hk ltac:(lia))
        as (e & -> & ->). done.
  - apply (all_delivered_node w _ i n'); [done|done|]. apply (restart_delivered i (storage (run_op op n))); [done|].
    destruct (op_progress m w ss C vr an ca co be Hc Hinv i n op Hi Hop) as [_ _ _ Hsn _ _ _ Hdisk].
    destruct (Hdisk Hf) as (l & Hmv & Hd & _).
    destruct (moved_ok m w ss C vr an ca co be Hc Hm Hinv i n op Hi Hop l Hmv) as [Hw _].
    apply (restart_plain _ _ _ _ _ Hw Hd) in E as (_ & ? & _); [done|].
    rewrite Hsn. apply (proj2 Hinv i n Hi).
Qed.

Lemma reachable_delivered m r0 r :
  new_raft m r0 -> (forall i n, nodes (cl_world (cl r0)) !! i = Some n -> applyCh n = [] /\ lastApplied n = 0%N) ->
  rtc raft_step r0 r -> all_delivered r.
Proof.
  intros Hinit Hnew Hs. revert r Hs. apply (rtc_ind_r all_delivered r0).
  - intros i n Hi. destruct (Hnew i n Hi) as [Hch Ha]. unfold delivered. rewrite Hch, Ha. split; [lia|done].
  - intros r1 r2 Hs1 Hstep. by apply (step_delivered m r0).
Qed.

(** ** Replicas *)

(** A new cluster whose nodes have delivered nothing. *)
Definition fresh_start (m : Membership) (r : raft) : Prop :=
  new_raft m r /\ forall i n, nodes (cl_world (cl r)) !! i = Some n -> applyCh n = [] /\ lastApplied n = 0%N.

Lemma delivered_prefix n1 n2 :
  delivered n1 -> delivered n2 -> (lastApplied n1 <= lastApplied n2)%N ->
  (forall k, (1 <= k <= lastApplied n1)%N -> getLocked (log n1) k = getLocked (log n2) k) ->
  exists rest, applyCh n2 = applyCh n1 ++ rest.
Proof.
  intros [_ E1] [_ E2] Hle Hlog. rewrite E1, E2.
  replace (N.to_nat (lastApplied n2)) with (N.to_nat (lastApplied n1) + N.to_nat (lastApplied n2 - lastApplied n1)) by lia.
  rewrite entriesBetween_app. eexists. f_equal. symmetry. apply entriesBetween_ext. intros k Hk. apply Hlog. lia.
Qed.

Lemma channels_agree m r0 r1 r2 i j n1 n2 :
  fresh_start m r0 -> rtc raft_step r0 r1 -> rtc raft_step r1 r2 ->
  nodes (cl_world (cl r1)) !! i = Some n1 -> nodes (cl_world (cl r2)) !! j = Some n2 ->
  ((lastApplied n1 <= lastApplied n2)%N -> exists rest, applyCh n2 = applyCh n1 ++ rest) /\
  ((lastApplied n2 <= lastApplied n1)%N -> exists rest, applyCh n1 = applyCh n2 ++ rest).
Proof.
  intros [Hinit Hnew] Hs1 Hs2 Hi Hj.
  pose proof (reachable_delivered m r0 r1 Hinit Hnew Hs1 i n1 Hi) as Hd1.
  pose proof (reachable_delivered m r0 r2 Hinit Hnew ltac:(by etrans) j n2 Hj) as Hd2.
  assert (forall k, (1 <= k)%N -> (k <= lastApplied n1)%N -> (k <= lastApplied n2)%N ->
    getLocked (log n1) k = getLocked (log n2) k) as Hlog.
  { intros k H1 Hk1 Hk2. destruct Hd1 as [? _], Hd2 as [? _].
    destruct (committed_agree m r0 r1 r2 i j n1 n2 k Hinit Hs1 Hs2 Hi Hj ltac:(lia) ltac:(lia)) as (e & -> & ->). done. }
  split; intros Hle; apply delivered_prefix; try done; intros k Hk; [|symmetry]; apply Hlog; lia.
Qed.

Lemma Run_app DecodeCommand a es1 es2 a1 :
  Run DecodeCommand a es1 = Some (a1, None) -> Run DecodeCommand a (es1 ++ es2) = Run DecodeCommand a1 es2.
Proof.
  revert a. induction es1 as [|e es1 IH]; intros a; cbn; [by intros [= ->]|].
  destruct (applyEntry DecodeCommand a e) as [[a' [err|]]|]; [done|apply IH|done].
Qed.

(** C6: replicas agree.  In a run of a cluster as in [state_machine_safety] (no snapshots, a
    fixed membership, a read's heartbeat commits only what its leader has, no late answers to
    reads), take what two nodes, at any two times, have delivered to their state machines
    since they started.  The one whose last applied index is not greater has delivered an
    initial part of what the other has; and when an applier has consumed it without an
    error, an applier on the other node, from the same store, passes through exactly its
    state: the same store, results and index.  Equal indexes mean equal deliveries. *)
Theorem replicas_agree m r0 r1 r2 i j n1 n2 :
  fresh_start m r0 -> rtc raft_step r0 r1 -> rtc raft_step r1 r2 ->
  nodes (cl_world (cl r1)) !! i = Some n1 -> nodes (cl_world (cl r2)) !! j = Some n2 ->
  (forall DecodeCommand store a1,
     (lastApplied n1 <= lastApplied n2)%N -> Run DecodeCommand (NewApplier store) (applyCh n1) = Some (a1, None) ->
     exists rest, applyCh n2 = applyCh n1 ++ rest /\
       Run DecodeCommand (NewApplier store) (applyCh n2) = Run DecodeCommand a1 rest) /\
  (forall DecodeCommand store a2,
     (lastApplied n2 <= lastApplied n1)%N -> Run DecodeCommand (NewApplier store) (applyCh n2) = Some (a2, None) ->
     exists rest, applyCh n1 = applyCh n2 ++ rest /\
       Run DecodeCommand (NewApplier store) (applyCh n1) = Run DecodeCommand a2 rest) /\
  (lastApplied n1 = lastApplied n2 -> applyCh n1 = applyCh n2).
Proof.
  intros Hf Hs1 Hs2 Hi Hj. destruct (channels_agree m r0 r1 r2 i j n1 n2 Hf Hs1 Hs2 Hi Hj) as [H12 H21]. split_and!.
  - intros D store a1 Hle Hrun. destruct (H12 Hle) as [rest E]. exists rest. split; [done|]. rewrite E. by apply Run_app.
  - intros D store a2 Hle Hrun. destruct (H21 Hle) as [rest E]. exists rest. split; [done|]. rewrite E. by apply Run_app.
  - intros Heq. destruct (H12 ltac:(lia)) as [x Hx], (H21 ltac:(lia)) as [y Hy].
    rewrite Hx, <- app_assoc in Hy. rewrite <- (app_nil_r (applyCh n1)) in Hy at 1. apply app_inv_head in Hy.
    symmetry in Hy. apply app_nil in Hy as [-> ->]. by rewrite app_nil_r in Hx.
Qed.

(** C9: reads are linearizable.  In a run of a cluster as in [state_machine_safety] in which
    nodes serve reads, a node begins a read in the state [s1].  While the read is going on
    the cluster takes any further steps, on the reading node and on its peers, and other
    reads run.  When the read has returned an index, no leader had committed past that index
    and no node's commit index was beyond it in [s1]; and whichever node has applied up to
    that index at any later time has delivered everything that any node had delivered
    in [s1]. *)
Theorem reads_are_linearizable m r0 s1 s2 s3 i n d index :
  fresh_start m r0 -> rtc system_step (no_reads r0) s1 ->
  nodes (cl_world (cl (sy_raft s1))) !! i = Some n -> readIndexRefused n = None ->
  rtc system_step (with_read i n s1) s2 ->
  sy_reads s2 !! length (sy_reads s1) = Some d -> rd_result d = Some (Ok index) ->
  rtc system_step s2 s3 ->
  (forall u j c F, (u, j, c, F) ∈ commits (sy_raft s1) -> (c <= index)%N) /\
  (forall j nj, nodes (cl_world (cl (sy_raft s1))) !! j = Some nj -> (commitIndex nj <= index)%N) /\
  forall j nj k nk, nodes (cl_world (cl (sy_raft s1))) !! j = Some nj ->
    nodes (cl_world (cl (sy_raft s3))) !! k = Some nk ->
    (index <= lastApplied nk)%N -> exists rest, applyCh nk = applyCh nj ++ rest.
Proof.
  intros Hf Hs1 Hi Hn Hs2 Hd Hres Hs3. pose proof Hf as [Hinit Hnew].
  destruct (system_runs m r0 Hinit _ _ (no_reads_inv r0) Hs1) as [Hinv1 Hrun1].
  assert (system_inv r0 (with_read i n s1)) as Hinv1' by (eapply system_step_inv; [done..|]; destruct s1; by apply SBegin).
  destruct (system_runs m r0 Hinit _ _ Hinv1' Hs2) as [Hinv2 Hrun2].
  destruct (system_runs m r0 Hinit _ _ Hinv2 Hs3) as [_ Hrun3].
  destruct (read_covers m r0 Hinit i n s1 s2 d index Hinv1 Hi Hn Hs2 Hd Hres) as [Hcov Hcm]. split_and!; try done.
  intros j nj k nk Hj Hk Ha.
  apply (channels_agree m r0 (sy_raft s1) (sy_raft s3) j k nj nk Hf Hrun1 ltac:(by etrans) Hj Hk).
  pose proof (reachable_delivered m r0 _ Hinit Hnew Hrun1 j nj Hj) as [Hle _]. pose proof (Hcm j nj Hj). lia.
Qed.
End Replicas.

(** ** Witnesses *)

Lemma fresh_raft_start : fresh_start abc fresh_raft.
Proof.
  split; [exact fresh_raft_new|]. intros i n Hi. cbn in Hi.
  repeat (apply lookup_insert_Some in Hi as [[<- <-]|[_ Hi]]; [done|]).
  by apply lookup_singleton_Some in Hi as [<- <-].
Qed.

(** Both nodes have delivered the committed proposal; its data is no command. *)
Lemma replicas_agree_witness :
  applyCh committed_a = [mkLogEntry 1 1 [x07]] /\ applyCh committed_a = applyCh committed_b.
Proof.
  split; [vm_compute; reflexivity|].
  apply (replicas_agree abc fresh_raft committed_raft committed_raft "a" "b" committed_a committed_b);
    [exact fresh_raft_start|exact committed_run|apply rtc_refl|vm_compute; reflexivity..].
Defined.

(** Node a has committed its entry with b, begins a read, asks b and returns. *)
Definition read_begun : system := with_read "a" committed_a (no_reads committed_raft).

Definition read_args : AppendEntriesArgs :=
  match readIndexRequest 1 1 "b" committed_a with Ok args => args | Err _ => heartbeat_b end.

Definition read_called : system :=
  mkSystem (after_beat read_args (log committed_a) committed_raft) (sy_reads read_begun)
    [(0, "b", read_args, log committed_a)] [].

Definition read_answered : system :=
  mkSystem (after_op "b" committed_b (OpReadHeartbeat read_args) (sy_raft read_called)) (sy_reads read_begun)
    (sy_calls read_called) [(0, "b", snd (AppendEntries read_args committed_b))].

Definition read_done : system :=
  let reply := snd (AppendEntries read_args committed_b) in
  let d := beginRead "a" committed_a in
  mkSystem (after_op "a" committed_a (read_reply_op d "b" reply) (sy_raft read_answered))
    [settle d (snd (readIndexHandle abc 1 1 {["a"]} "b" (Ok reply) committed_a))]
    (sy_calls read_answered) (sy_results read_answered).

Lemma read_run : rtc system_step read_begun read_done.
Proof.
  eapply rtc_l.
  { apply (SCall 0 (beginRead "a" committed_a) committed_a "b" read_args committed_raft); vm_compute; reflexivity. }
  eapply rtc_l.
  { apply (SDeliver 0 "b" read_args (log committed_a) committed_b (sy_raft read_called));
      [exact (list_elem_of_here _ _)|vm_compute; reflexivity|vm_compute; discriminate]. }
  eapply rtc_l.
  { apply (SResult 0 (beginRead "a" committed_a) "b" (snd (AppendEntries read_args committed_b)) committed_a (sy_raft read_answered));
      [exact (list_elem_of_here _ _)|vm_compute; reflexivity..|vm_compute; discriminate]. }
  apply rtc_refl.
Qed.

Lemma reads_are_linearizable_witness :
  (rd_result <$> sy_reads read_done !! 0) = Some (Some (Ok 1%N)) /\
  forall j nj, nodes (cl_world (cl committed_raft)) !! j = Some nj ->
    (commitIndex nj <= 1)%N /\ exists rest, applyCh committed_a = applyCh nj ++ rest.
Proof.
  split; [vm_compute; reflexivity|].
  destruct (sy_reads read_done !! 0) as [d|] eqn:Hd; [|by vm_compute in Hd].
  assert (rd_result d = Some (Ok 1%N)) as Hr by (vm_compute in Hd; by injection Hd as <-).
  assert (rtc system_step (no_reads fresh_raft) (no_reads committed_raft)) as Hs1.
  { refine (rtc_congruence no_reads _ _ _ _ committed_run). intros r r'. apply SRaft. }
  destruct (reads_are_linearizable abc fresh_raft (no_reads committed_raft) read_done read_done "a" committed_a d 1
    fresh_raft_start Hs1 ltac:(vm_compute; reflexivity) ltac:(vm_compute; reflexivity) read_run Hd Hr (rtc_refl _ _))
    as (_ & Hc & Hdl).
  intros j nj Hj. split; [by apply (Hc j)|].
  apply (Hdl j nj "a" committed_a Hj); [vm_compute; reflexivity|vm_compute; discriminate].
Defined.
