(* ===== verification/MembershipChange.v ===== *)
(** Changing the membership: [AddMember], [RemoveMember] and their helpers of
    [internal/raft/node_membership.go], and [waitForApplied] of [node_apply.go].

    Both run on the leader: they propose an enter-joint entry, wait until it is
    applied, propose a leave-joint entry and wait again; [AddMember] first brings
    the new peer up to date.  [rounds] is the number of rounds of a catch-up loop
    before the context ends; [fuel] bounds [replicateTo].  Between the calls nothing
    else runs on the node, so a wait sees the state the proposal left. *)

From S2P Require Import Prelude Model Bytes RaftLog Storage Membership ConfigEntry Node Election.
From S2P Require Import Apply SnapshotOps Replication ReplicationFacts ElectionFacts ReadIndex.
From S2P Require Import ReplicationLoop LocalTransport.

Section MembershipChange.
Context {S : Type} `{Storage S} {W : Type} (T : Transport W).
Implicit Types n : RaftNode S.

Definition ctx_DeadlineExceeded : error := Sentinel "context deadline exceeded".

Fixpoint catchUpPeer (fuel rounds : nat) (peerID : NodeID) (targetIndex : LogIndex) (w : W) n
    : option (W * RaftNode S * option error) :=
  if bool_decide (role n ≠ Leader) then Some (w, n, Some (Msg "leader lost while catching up peer"))
  else if (targetIndex <=? matchIndexOf n peerID)%N then Some (w, n, None)
  else
    match rounds with
    | O => Some (w, n, Some (Wrap "timed out catching up peer" ctx_DeadlineExceeded))
    | Datatypes.S rounds =>
        match replicateTo T fuel peerID w n with
        | None => None
        | Some (w, n) => catchUpPeer fuel rounds peerID targetIndex w n
        end
    end.

Definition validateAddMemberLocked (peerID : NodeID) n : result (Configuration * Configuration) :=
  if bool_decide (role n ≠ Leader) then Err (Msg "cannot add member: node is not leader")
  else if bool_decide (peerID = id n) then Err (Msg "cannot add member: member is the local node")
  else if bool_decide (mem_Joint (membership n) ≠ None)
  then Err (Msg "cannot add member while membership is in joint configuration")
  else if membershipIsVoter (membership n) peerID then Err (Msg "member is already a voter")
  else if negb (bool_decide (peerID ∈ peerIDs n)) then Err (Msg "member is not registered as a raft peer")
  else
    let oldConfiguration := mem_Current (membership n) in
    Ok (oldConfiguration, mkConfiguration (Voters oldConfiguration ++ [peerID])).

Definition validateRemoveMemberLocked (peerID : NodeID) n : result (Configuration * Configuration) :=
  if bool_decide (role n ≠ Leader) then Err (Msg "cannot remove member: node is not leader")
  else if bool_decide (peerID = id n) then Err (Msg "cannot remove self: transfer leadership first")
  else if bool_decide (mem_Joint (membership n) ≠ None)
  then Err (Msg "cannot remove member while membership is in joint configuration")
  else if negb (membershipIsVoter (membership n) peerID) then Err (Msg "member is not a voter")
  else
    let oldConfiguration := mem_Current (membership n) in
    if (length (Voters oldConfiguration) <=? 1)%nat then Err (Msg "cannot remove the last voter")
    else Ok (oldConfiguration,
             mkConfiguration (filter (fun voterID => voterID ≠ peerID) (Voters oldConfiguration))).

(** One turn of the loop of [WaitApplied]: whether it returns. *)
Definition WaitApplied (index : LogIndex) n : bool := (index <=? lastApplied n)%N.

Definition waitForApplied (targetIndex : LogIndex) n : option error :=
  if (targetIndex <=? lastApplied n)%N then None
  else if bool_decide (role n ≠ Leader) then Some (Msg "leader lost while waiting for index to apply")
  else Some (Wrap "timed out waiting for index to apply" ctx_DeadlineExceeded).

(** Proposing an encoded entry and waiting for it. *)
Definition proposeAndWait (fuel : nat) (encoded : result bytes) (encode propose wait : string) (w : W) n
    : option (W * RaftNode S * option error) :=
  match encoded with
  | Err e => Some (w, n, Some (Wrap encode e))
  | Ok data =>
      match Propose T fuel data w n with
      | None => None
      | Some (w, n, Err e) => Some (w, n, Some (Wrap propose e))
      | Some (w, n, Ok index) =>
          match waitForApplied index n with
          | Some e => Some (w, n, Some (Wrap wait e))
          | None => Some (w, n, None)
          end
      end
  end.

Definition AddMember (fuel rounds : nat) (peerID : NodeID) (w : W) n
    : option (W * RaftNode S * option error) :=
  if bool_decide (peerID = "") then Some (w, n, Some (Msg "raft member ID is required"))
  else
    match validateAddMemberLocked peerID n with
    | Err e => Some (w, n, Some e)
    | Ok (oldConfiguration, newConfiguration) =>
        let n := initializeNewPeerReplicationStateLocked peerID n in
        match catchUpPeer fuel rounds peerID (lastIndexLocked (log n)) w n with
        | None => None
        | Some (w, n, Some e) => Some (w, n, Some (Wrap "catch up new member" e))
        | Some (w, n, None) =>
            match proposeAndWait fuel (EncodeEnterJointConfigurationEntry oldConfiguration newConfiguration)
                    "encode enter-joint configuration for member"
                    "propose enter-joint configuration for member"
                    "wait for enter-joint configuration" w n with
            | None => None
            | Some (w, n, Some e) => Some (w, n, Some e)
            | Some (w, n, None) =>
                match replicateTo T fuel peerID w n with
                | None => None
                | Some (w, n) =>
                    match catchUpPeer fuel rounds peerID (lastIndexLocked (log n)) w n with
                    | None => None
                    | Some (w, n, Some e) =>
                        Some (w, n, Some (Wrap "catch up member through joint configuration" e))
                    | Some (w, n, None) =>
                        match proposeAndWait fuel (EncodeLeaveJointConfigurationEntry newConfiguration)
                                "encode leave-joint configuration for member"
                                "propose leave-joint configuration for member"
                                "wait for leave-joint configuration" w n with
                        | None => None
                        | Some (w, n, Some e) => Some (w, n, Some e)
                        | Some (w, n, None) =>
                            if bool_decide (mem_Joint (membership n) ≠ None)
                            then Some (w, n, Some (Msg "member added but membership is still joint"))
                            else if negb (configurationContainsVoter (mem_Current (membership n)) peerID)
                            then Some (w, n, Some (Msg "member was not present in final membership"))
                            else Some (w, n, None)
                        end
                    end
                end
            end
        end
    end.

Definition RemoveMember (fuel : nat) (peerID : NodeID) (w : W) n
    : option (W * RaftNode S * option error) :=
  if bool_decide (peerID = "") then Some (w, n, Some (Msg "raft member ID is required"))
  else
    match validateRemoveMemberLocked peerID n with
    | Err e => Some (w, n, Some e)
    | Ok (oldConfiguration, newConfiguration) =>
        match proposeAndWait fuel (EncodeEnterJointConfigurationEntry oldConfiguration newConfiguration)
                "encode enter-joint configuration for member"
                "propose enter-joint configuration for member"
                "wait for enter-joint configuration to apply" w n with
        | None => None
        | Some (w, n, Some e) => Some (w, n, Some e)
        | Some (w, n, None) =>
            match proposeAndWait fuel (EncodeLeaveJointConfigurationEntry newConfiguration)
                    "encode leave-joint configuration for member"
                    "propose leave-joint configuration for member"
                    "wait for leave-joint configuration to apply" w n with
            | None => None
            | Some (w, n, Some e) => Some (w, n, Some e)
            | Some (w, n, None) =>
                if bool_decide (mem_Joint (membership n) ≠ None)
                then Some (w, n, Some (Msg "member removal completed with joint configuration still active"))
                else if membershipIsVoter (membership n) peerID
                then Some (w, n, Some (Msg "member is still present after removal"))
                else Some (w, n, None)
            end
        end
    end.

End MembershipChange.

(** ** What the entries do when they are applied *)

Lemma encoded_header t rest : IsConfigurationEntry (encodeHeader t ++ rest) = true /\ (encodeHeader t ++ rest) !! 5%nat = Some t.
Proof. split; [|done]. unfold IsConfigurationEntry. cbn [app encodeHeader]. by vm_compute. Qed.

Lemma enter_joint_membership old new data :
  EncodeEnterJointConfigurationEntry old new = Ok data ->
  IsConfigurationEntry data = true /\ decodeMembershipEntry data = Ok (mkMembership old (Some (mkJoint old new))).
Proof.
  intros E. pose proof (proj2 (enter_joint_entry_exact data old new) E) as Hd.
  assert (exists rest, data = encodeHeader configurationEntryTypeEnterJoint ++ rest) as [rest ->].
  { unfold EncodeEnterJointConfigurationEntry in E. repeat split_hyp_match E; try done.
    apply (inj Ok) in E. eauto. }
  destruct (encoded_header configurationEntryTypeEnterJoint rest) as [Hc H5]. split; [done|].
  unfold decodeMembershipEntry. rewrite H5. cbn [bool_decide]. rewrite Hd. done.
Qed.

Lemma leave_joint_membership new data :
  EncodeLeaveJointConfigurationEntry new = Ok data ->
  IsConfigurationEntry data = true /\ decodeMembershipEntry data = Ok (mkMembership new None).
Proof.
  intros E. pose proof (proj2 (leave_joint_entry_exact data new) E) as Hd.
  assert (exists rest, data = encodeHeader configurationEntryTypeLeaveJoint ++ rest) as [rest ->].
  { unfold EncodeLeaveJointConfigurationEntry in E. repeat split_hyp_match E; try done.
    apply (inj Ok) in E. eauto. }
  destruct (encoded_header configurationEntryTypeLeaveJoint rest) as [Hc H5]. split; [done|].
  unfold decodeMembershipEntry. rewrite H5. cbn [bool_decide]. rewrite Hd. done.
Qed.

(** ** Replication on the leader's side *)

Section Leader.
Context {S : Type} `{Storage S} {W : Type} (T : Transport W).
Implicit Types n : RaftNode S.

(** Handling replies keeps [P]. *)
Record replies_keep (P : RaftNode S -> Prop) : Prop := {
  rk_append p args reply n : P n -> P (handleAppendEntriesReply p args reply n);
  rk_install p args reply n : P n -> P (handleInstallSnapshotReply p args reply n);
}.

Lemma replicateTo_node P fuel p w n w' n' :
  replies_keep P -> P n -> replicateTo T fuel p w n = Some (w', n') -> P n'.
Proof.
  intros Hk. revert w n. induction fuel as [|fuel IH]; intros w n HP E; cbn [replicateTo] in E; [done|].
  destruct (negb (transportSet n)); [by simplify_eq|].
  assert (P (snd (fst (sendInstallSnapshot T p w n)))) as Hs.
  { unfold sendInstallSnapshot. destruct (negb (transportSet n)); [done|].
    destruct (buildInstallSnapshot n p) as [args|]; [|done].
    destruct (tr_InstallSnapshot T w p args) as [w1 [reply|]]; [by apply rk_install|done]. }
  destruct (sendInstallSnapshot T p w n) as [[w1 n1] []]; cbn in Hs; [by eapply IH|].
  destruct (buildAppendEntries n1 p) as [args|]; [|by simplify_eq].
  destruct (tr_AppendEntries T w1 p args) as [w2 [reply|]]; [|by simplify_eq].
  pose proof (rk_append _ Hk p args reply n1 Hs) as HP1. cbn zeta in E.
  destruct (aer_Success reply); [by simplify_eq|]. case_bool_decide; [by simplify_eq|]. by eapply IH.
Qed.

Lemma replicateAll_node P fuel ps w n w' n' :
  replies_keep P -> P n -> replicateAll T fuel ps w n = Some (w', n') -> P n'.
Proof.
  intros Hk. revert w n. induction ps as [|p ps IH]; intros w n HP E; cbn in E; [by simplify_eq|].
  destruct (replicateTo T fuel p w n) as [[w1 n1]|] eqn:E1; [|done].
  eapply IH; [|exact E]. by eapply replicateTo_node.
Qed.

Lemma catchUpPeer_node P fuel rounds p target w n w' n' e :
  replies_keep P -> P n -> catchUpPeer T fuel rounds p target w n = Some (w', n', e) -> P n'.
Proof.
  intros Hk. revert w n. induction rounds as [|rounds IH]; intros w n HP E; cbn [catchUpPeer] in E.
  - repeat split_hyp_match E; by simplify_eq.
  - case_bool_decide; [by simplify_eq|]. destruct (_ <=? _)%N; [by simplify_eq|].
    destruct (replicateTo T fuel p w n) as [[w1 n1]|] eqn:E1; [|done].
    eapply IH; [|exact E]. by eapply replicateTo_node.
Qed.

(** ** A configuration entry at the end of the log *)

(** The log ends with an entry that decodes to [m]; everything before it is
    committed in order, and [m] is in force once the entry is applied. *)
Record settling (l : Log) (i : LogIndex) (m : Membership) n : Prop := {
  se_log : log n = l;
  se_last : lastIndexLocked l = i;
  se_room : is_u64 (i + 1)%N;
  se_entry : exists e, getLocked l i = Some e /\ IsConfigurationEntry (le_Data e) = true /\
    decodeMembershipEntry (le_Data e) = Ok m;
  se_commit : (lastApplied n <= commitIndex n <= i)%N;
  se_applied : lastApplied n = i -> membership n = m;
}.

Lemma becomeFollower_membership t n n' o : becomeFollowerLocked t n = (n', o) -> membership n' = membership n.
Proof. unfold becomeFollowerLocked. intros E. repeat split_hyp_match E; by simplify_eq. Qed.

Lemma applyConfig_membership e n n' :
  applyConfigurationEntryLocked e n = (n', None) -> decodeMembershipEntry (le_Data e) = Ok (membership n').
Proof.
  unfold applyConfigurationEntryLocked. intros E. destruct (decodeMembershipEntry _) as [m|]; [|done].
  repeat (split_hyp_match E; simplify_eq; try done).
  match goal with Hf : becomeFollowerLocked _ _ = _ |- _ => apply becomeFollower_membership in Hf as -> end. done.
Qed.

Lemma applyOne_settling l i m n n' b : applyOne n = (n', b) -> settling l i m n -> settling l i m n'.
Proof.
  intros E [Hl Hlast Hroom He Hc Ha]. pose proof E as E'.
  apply applyOne_cases in E' as (Hlog & Hcommit & _ & Hb); [|lia].
  destruct b.
  - destruct Hb as (Hlt & Hla & e' & Hg & _). split; try done; [congruence|lia|]. intros Hi.
    destruct He as (e & Hge & Hce & Hde). rewrite Hl in Hg. rewrite <- Hla, Hi, Hge in Hg. injection Hg as <-.
    unfold applyOne in E. destruct (_ <=? _)%N; [done|]. rewrite u64_add_small in E by lia.
    rewrite <- Hla, Hi, Hl, Hge, Hce in E.
    destruct (applyConfigurationEntryLocked e n) as [n1 [err|]] eqn:Ec; [done|].
    apply applyConfig_membership in Ec. injection E as <-. change (membership (set_lastApplied i n1)) with (membership n1).
    congruence.
  - destruct Hb as (Hla & _). split; try done; [congruence|lia|]. intros Hi. rewrite Hla in Hi.
    unfold applyOne in E. destruct (N.leb_spec (commitIndex n) (lastApplied n)); [|lia].
    injection E as <-. by apply Ha.
Qed.

Lemma applyCommitted_settling l i m n : settling l i m n -> settling l i m (applyCommitted n).
Proof.
  unfold applyCommitted. generalize (N.to_nat (commitIndex n - lastApplied n)). intros fuel.
  revert n; induction fuel as [|fuel IH]; intros n Hs; cbn; [done|].
  destruct (applyOne n) as [n1 []] eqn:E; pose proof (applyOne_settling _ _ _ _ _ _ E Hs); [by apply IH|done].
Qed.

Lemma advance_settling l i m n :
  settling l i m n -> settling l i m (match advanceCommitIndexLocked n with
                                      | (n, true) => applyCommitted n | (n, false) => n end).
Proof.
  intros Hs. destruct (decide (role n = Leader)) as [Hr|Hr].
  - destruct Hs as [Hl Hlast Hroom He Hc Ha].
    destruct (advanceCommitIndexLocked_spec n) as (c & -> & Hcases & _); rewrite ?Hl, ?Hlast; [done|lia|done|].
    rewrite Hl, Hlast in Hcases. assert (settling l i m (set_commitIndex c n)) as Hs.
    { split; try done. change (commitIndex (set_commitIndex c n)) with c.
      change (lastApplied (set_commitIndex c n)) with (lastApplied n). destruct Hcases as [->|[? _]]; lia. }
    destruct (_ <? _)%N; [by apply applyCommitted_settling|done].
  - unfold advanceCommitIndexLocked. by rewrite bool_decide_true.
Qed.

Lemma adoptTerm_settling l i m t n : settling l i m n -> settling l i m (fst (adoptTerm t n)).
Proof.
  intros [Hl Hlast Hroom He Hc Ha]. unfold adoptTerm. destruct (saveAndSync _ _) as [s [e|]]; by split.
Qed.

Lemma settling_leaderSt l i m x n : settling l i m n -> settling l i m (set_leaderSt x n).
Proof. intros []. by split. Qed.

(** A property closed under what the handlers do. *)
Lemma replies_closed P :
  (forall t n, P n -> P (fst (adoptTerm t n))) -> (forall x n, P n -> P (set_leaderSt x n)) ->
  (forall n, P n -> P (advanceCommitIndex n)) -> replies_keep P.
Proof.
  intros Ha Hl Hc. split; intros p args reply n Hs.
  - unfold handleAppendEntriesReply. destruct (_ <? _)%N; [by apply Ha|].
    case_bool_decide; [done|]. destruct (negb _); [done|].
    destruct (negb _); [destruct (_ <? _)%N; [by apply Hl|done]|].
    destruct (last _); [|done]. apply Hc. destruct (_ <? _)%N; [by repeat apply Hl|done].
  - unfold handleInstallSnapshotReply. destruct (_ <? _)%N; [by apply Ha|].
    case_bool_decide; [done|]. destruct (negb _); [done|]. destruct (negb _); [done|]. apply Hc.
    repeat destruct (_ <? _)%N; by repeat apply Hl.
Qed.

Lemma settling_replies l i m : replies_keep (settling l i m).
Proof. apply replies_closed; [intros; by apply adoptTerm_settling|apply settling_leaderSt|apply advance_settling]. Qed.

(** ** A leader with nothing pending *)

(** Every entry of [l] is committed and applied, and [m] is in force. *)
Record quiet (l : Log) (m : Membership) n : Prop := {
  qu_log : log n = l;
  qu_wf : log_wf l;
  qu_commit : commitIndex n = lastIndexLocked l;
  qu_applied : lastApplied n = lastIndexLocked l;
  qu_membership : membership n = m;
}.

Lemma quiet_replies l m : is_u64 (lastIndexLocked l + 1)%N -> replies_keep (quiet l m).
Proof.
  intros Hu. apply replies_closed.
  - intros t n []. unfold adoptTerm. destruct (saveAndSync _ _) as [s [e|]]; by split.
  - intros x n []. by split.
  - intros n []. unfold advanceCommitIndex, advanceCommitIndexLocked. case_bool_decide; [by split|].
    rewrite qu_log0, qu_commit0, N.sub_diag. change (N.to_nat 0) with 0%nat. cbn [advanceFrom].
    rewrite qu_commit0, N.ltb_irrefl. by split.
Qed.

Lemma proposed_settling data n n' index advanced m l :
  quiet l m n -> is_u64 (lastIndexLocked l + 2)%N -> proposeLocked data n = (n', Ok (index, advanced)) ->
  IsConfigurationEntry data = true -> forall m', decodeMembershipEntry data = Ok m' ->
  exists e l', Append l e = Ok l' /\ le_Data e = data /\ le_Term e = currentTerm n /\ log_wf l' /\
    lastIndexLocked l' = (lastIndexLocked l + 1)%N /\ index = lastIndexLocked l' /\
    settling l' index m' (if advanced then applyCommitted n' else n').
Proof.
  intros [Hl Hwf Hc Ha Hm] Hu E Hcfg m' Hdec. unfold proposeLocked in E. case_bool_decide; [done|].
  rewrite Hl, u64_add_small in E by lia. set (e := mkLogEntry (lastIndexLocked l + 1) (currentTerm n) data) in *.
  destruct (st_AppendEntries (storage n) [e]) as [s [err|]]; [done|].
  destruct (st_Sync s) as [s' [err|]]; [by destruct (errors_Is _ _)|].
  change (log (set_storage s' n)) with (log n) in E. rewrite Hl in E.
  destruct (Append l e) as [l'|] eqn:EA; [|done]. pose proof EA as EA'.
  apply Append_ok in EA' as (_ & El & Hwf'); [|done|lia].
  assert (lastIndexLocked l' = (lastIndexLocked l + 1)%N) as Hlast.
  { rewrite !lastIndexLocked_spec by done. rewrite El. cbn. rewrite length_app. cbn. lia. }
  set (n0 := set_log l' (set_storage s' n)) in *.
  destruct (advanceCommitIndexLocked n0) as [n1 adv] eqn:Eadv. injection E as <- <- <-.
  exists e, l'. split_and!; try done.
  assert (settling l' (lastIndexLocked l + 1) m' n0) as Hs.
  { split; try done; [lia| | |].
    - exists e. rewrite (getLocked_append l e l') by (done || lia). cbn [le_Index e]. by rewrite N.eqb_refl.
    - change (commitIndex n0) with (commitIndex n). change (lastApplied n0) with (lastApplied n). lia.
    - change (lastApplied n0) with (lastApplied n). lia. }
  apply advance_settling in Hs. by rewrite Eadv in Hs.
Qed.

Lemma proposeAndWait_ok fuel data s1 s2 s3 w n w' n' l m m' :
  quiet l m n -> is_u64 (lastIndexLocked l + 2)%N ->
  IsConfigurationEntry data = true -> decodeMembershipEntry data = Ok m' ->
  proposeAndWait T fuel (Ok data) s1 s2 s3 w n = Some (w', n', None) ->
  exists e l', Append l e = Ok l' /\ le_Data e = data /\
    lastIndexLocked l' = (lastIndexLocked l + 1)%N /\ quiet l' m' n'.
Proof.
  intros Hq Hu Hcfg Hdec E. unfold proposeAndWait, Propose in E.
  destruct (proposeLocked data n) as [n1 [[index advanced]|]] eqn:Ep; [|done].
  pose proof (proposed_settling _ _ _ _ _ _ _ Hq Hu Ep Hcfg m' Hdec)
    as (e & l' & HA & Hdata & _ & Hwf & Hlast & Hi & Hs). cbn zeta in E.
  exists e, l'. split_and!; [done..|].
  set (n2 := if advanced then applyCommitted n1 else n1) in *.
  assert (settling l' index m' n' /\ waitForApplied index n' = None) as [H2 Hw].
  { destruct (negb (transportSet n2)).
    - destruct (waitForApplied index n2) eqn:Ew; [done|]. by injection E as _ <-.
    - destruct (replicateAll T fuel (peerIDs n1) w n2) as [[w3 n3]|] eqn:Er; [|done].
      destruct (waitForApplied index n3) eqn:Ew; [done|]. injection E as _ <-. split; [|done].
      eapply replicateAll_node; [apply settling_replies|exact Hs|exact Er]. }
  unfold waitForApplied in Hw. destruct (N.leb_spec index (lastApplied n')); [|by case_bool_decide].
  destruct H2 as [? ? ? ? ? Hm]. split; try done; [lia..|]. apply Hm. lia.
Qed.

End Leader.

(** ** Changes of the membership *)

Inductive change : Type :=
| add (peerID : NodeID)
| remove (peerID : NodeID).

(** The voters a change leads to. *)
Definition changed (c : change) (old : Configuration) : Configuration :=
  match c with
  | add p => mkConfiguration (Voters old ++ [p])
  | remove p => mkConfiguration (filter (fun v => v ≠ p) (Voters old))
  end.

Section Changes.
Context {S : Type} `{Storage S} {W : Type} (T : Transport W).
Implicit Types n : RaftNode S.

Definition runChange (fuel rounds : nat) (c : change) (w : W) n : option (W * RaftNode S * option error) :=
  match c with
  | add p => AddMember T fuel rounds p w n
  | remove p => RemoveMember T fuel p w n
  end.

(** What both operations do once the change is validated, up to the catch-up
    of [AddMember] in between, which keeps a quiet leader quiet. *)
Lemma two_entries fuel old new n1 w1 w2 n2 w3 n3 w4 n4 l s1 s2 s3 s4 s5 s6 m :
  quiet l m n1 -> is_u64 (lastIndexLocked l + 3)%N ->
  proposeAndWait T fuel (EncodeEnterJointConfigurationEntry old new) s1 s2 s3 w1 n1 = Some (w2, n2, None) ->
  (forall l' m', is_u64 (lastIndexLocked l' + 1)%N -> quiet l' m' n2 -> quiet l' m' n3) ->
  proposeAndWait T fuel (EncodeLeaveJointConfigurationEntry new) s4 s5 s6 w3 n3 = Some (w4, n4, None) ->
  exists e1 e2 l1 l2,
    Append l e1 = Ok l1 /\ Append l1 e2 = Ok l2 /\
    decodeMembershipEntry (le_Data e1) = Ok (mkMembership old (Some (mkJoint old new))) /\
    decodeMembershipEntry (le_Data e2) = Ok (mkMembership new None) /\
    quiet l2 (mkMembership new None) n4.
Proof.
  intros Hq Hu E1 Hkeep E2.
  destruct (EncodeEnterJointConfigurationEntry old new) as [d1|] eqn:Ed1; [|done].
  destruct (EncodeLeaveJointConfigurationEntry new) as [d2|] eqn:Ed2; [|done].
  apply enter_joint_membership in Ed1 as [Hc1 Hd1]. apply leave_joint_membership in Ed2 as [Hc2 Hd2].
  eapply proposeAndWait_ok in E1 as (e1 & l1 & HA1 & <- & Hl1 & Hq1); [|done|lia|done..].
  apply Hkeep in Hq1; [|lia].
  eapply proposeAndWait_ok in E2 as (e2 & l2 & HA2 & <- & _ & Hq2); [|done|lia|done..].
  by exists e1, e2, l1, l2.
Qed.

Lemma two_steps_adjacent old new m :
  m = mkMembership old None ->
  adjacent m (mkMembership old (Some (mkJoint old new))) /\
  adjacent (mkMembership old (Some (mkJoint old new))) (mkMembership new None).
Proof. intros ->. split; [apply adj_sym, adj_old|apply adj_new]. Qed.

Lemma validateAdd_ok p n old new :
  validateAddMemberLocked p n = Ok (old, new) ->
  mem_Joint (membership n) = None /\ old = mem_Current (membership n) /\ new = changed (add p) old.
Proof.
  unfold validateAddMemberLocked. intros E. repeat split_hyp_match E; simplify_eq; try done.
  repeat match goal with Hb : bool_decide _ = false |- _ => apply bool_decide_eq_false in Hb end.
  split_and!; [|done..]. by destruct (mem_Joint (membership n)); [exfalso; naive_solver|].
Qed.

Lemma validateRemove_ok p n old new :
  validateRemoveMemberLocked p n = Ok (old, new) ->
  mem_Joint (membership n) = None /\ old = mem_Current (membership n) /\ new = changed (remove p) old.
Proof.
  unfold validateRemoveMemberLocked. intros E. repeat split_hyp_match E; simplify_eq; try done.
  repeat match goal with Hb : bool_decide _ = false |- _ => apply bool_decide_eq_false in Hb end.
  split_and!; [|done..]. by destruct (mem_Joint (membership n)); [exfalso; naive_solver|].
Qed.

(** Two entries appended to the log of [n] lead to [n'], at rest with the new voters. *)
Definition joint_change (c : change) n n' : Prop :=
  let old := mem_Current (membership n) in
  mem_Joint (membership n) = None /\ exists e1 e2 l1 l2,
    Append (log n) e1 = Ok l1 /\ Append l1 e2 = Ok l2 /\
    decodeMembershipEntry (le_Data e1) = Ok (mkMembership old (Some (mkJoint old (changed c old)))) /\
    decodeMembershipEntry (le_Data e2) = Ok (mkMembership (changed c old) None) /\
    quiet l2 (mkMembership (changed c old) None) n'.

Lemma AddMember_joint fuel rounds p w n w' n' :
  quiet (log n) (membership n) n -> is_u64 (lastIndexLocked (log n) + 3)%N ->
  runChange fuel rounds (add p) w n = Some (w', n', None) -> joint_change (add p) n n'.
Proof.
  intros Hq Hu E. cbn [runChange] in E. unfold joint_change.
  unfold AddMember in E. case_bool_decide; [done|].
  destruct (validateAddMemberLocked p n) as [[old' new]|] eqn:Ev; [|done].
  apply validateAdd_ok in Ev as (Hj & -> & ->). split; [done|].
  set (n0 := initializeNewPeerReplicationStateLocked p n) in *.
  assert (quiet (log n) (membership n) n0) as Hq0 by (by destruct Hq).
  destruct (catchUpPeer _ _ _ _ _ w n0) as [[[w1 n1] [e|]]|] eqn:Ec1; [done| |done].
  destruct (proposeAndWait _ _ (EncodeEnterJointConfigurationEntry _ _) _ _ _ _ _) as [[[w2 n2] [e|]]|] eqn:E1; [done| |done].
  destruct (replicateTo T fuel p w2 n2) as [[w3 n3]|] eqn:Er; [|done].
  destruct (catchUpPeer _ _ _ _ _ w3 n3) as [[[w4 n4] [e|]]|] eqn:Ec2; [done| |done].
  destruct (proposeAndWait _ _ (EncodeLeaveJointConfigurationEntry _) _ _ _ _ _) as [[[w5 n5] [e|]]|] eqn:E2; [done| |done].
  destruct (bool_decide _) in E; [done|]. destruct (negb _) in E; [done|]. injection E as <- <-.
  eapply (two_entries _ _ _ n1 _ _ n2 _ n4); [|done|exact E1| |exact E2].
  + eapply catchUpPeer_node; [apply quiet_replies; lia|exact Hq0|exact Ec1].
  + intros l' m' Hu' Hq'. eapply catchUpPeer_node; [by apply quiet_replies| |exact Ec2].
    eapply replicateTo_node; [by apply quiet_replies|exact Hq'|exact Er].
Qed.

Lemma RemoveMember_joint fuel rounds p w n w' n' :
  quiet (log n) (membership n) n -> is_u64 (lastIndexLocked (log n) + 3)%N ->
  runChange fuel rounds (remove p) w n = Some (w', n', None) -> joint_change (remove p) n n'.
Proof.
  intros Hq Hu E. cbn [runChange] in E. unfold joint_change.
  unfold RemoveMember in E. case_bool_decide; [done|].
  destruct (validateRemoveMemberLocked p n) as [[old' new]|] eqn:Ev; [|done].
  apply validateRemove_ok in Ev as (Hj & -> & ->). split; [done|].
  destruct (proposeAndWait _ _ (EncodeEnterJointConfigurationEntry _ _) _ _ _ _ _) as [[[w2 n2] [e|]]|] eqn:E1; [done| |done].
  destruct (proposeAndWait _ _ (EncodeLeaveJointConfigurationEntry _) _ _ _ _ _) as [[[w5 n5] [e|]]|] eqn:E2; [done| |done].
  destruct (bool_decide _) in E; [done|]. destruct (membershipIsVoter _ _) in E; [done|]. injection E as <- <-.
  by eapply (two_entries _ _ _ n _ _ n2 _ n2); [exact Hq|done|exact E1| |exact E2].
Qed.

(** C16: a membership change that succeeds on a leader with nothing pending has
    gone through joint consensus: the log is the old one followed by exactly two
    entries, the first decoding to the joint membership of the old and the new
    voters, the second to the new voters alone; both are committed and applied,
    the new voters are in force, and each membership on the way is adjacent to
    the one before it, so that quorums taken under either share a node. *)
Theorem membership_change_goes_through_joint fuel rounds c w n w' n' :
  quiet (log n) (membership n) n -> is_u64 (lastIndexLocked (log n) + 3)%N ->
  runChange fuel rounds c w n = Some (w', n', None) ->
  let old := mem_Current (membership n) in
  let joint := mkMembership old (Some (mkJoint old (changed c old))) in
  let final := mkMembership (changed c old) None in
  exists e1 e2 l1 l2,
    Append (log n) e1 = Ok l1 /\ Append l1 e2 = Ok l2 /\ log n' = l2 /\
    decodeMembershipEntry (le_Data e1) = Ok joint /\ decodeMembershipEntry (le_Data e2) = Ok final /\
    quiet l2 final n' /\ adjacent (membership n) joint /\ adjacent joint final.
Proof.
  intros Hq Hu E. cbn zeta. set (old := mem_Current (membership n)).
  assert (joint_change c n n') as (Hj & e1 & e2 & l1 & l2 & ? & ? & ? & ? & Hq2).
  { destruct c; [by eapply AddMember_joint|by eapply RemoveMember_joint]. }
  destruct (two_steps_adjacent old (changed c old) (membership n)) as [??].
  { subst old. by destruct (membership n); simplify_eq/=. }
  exists e1, e2, l1, l2. split_and!; try done. by destruct Hq2.
Qed.

(** When a change may start. *)
Definition allowed (c : change) n : Prop :=
  role n = Leader /\ mem_Joint (membership n) = None /\
  match c with
  | add p => p ≠ "" /\ p ≠ id n /\ membershipIsVoter (membership n) p = false /\ p ∈ peerIDs n
  | remove p => p ≠ "" /\ p ≠ id n /\ membershipIsVoter (membership n) p = true /\
      (1 < length (Voters (mem_Current (membership n))))%nat
  end.

#[global] Instance allowed_dec c n : Decision (allowed c n).
Proof. destruct c; unfold allowed; apply _. Defined.

Lemma validate_allowed c n :
  match c with add p => p ≠ "" | remove p => p ≠ "" end ->
  forall x, match c with add p => validateAddMemberLocked p n | remove p => validateRemoveMemberLocked p n end = Ok x ->
  allowed c n.
Proof.
  intros Hp x E. unfold allowed. destruct c as [p|p].
  all: unfold validateAddMemberLocked, validateRemoveMemberLocked in E; repeat split_hyp_match E; try done.
  all: repeat match goal with
       | Hb : bool_decide _ = false |- _ => apply bool_decide_eq_false in Hb
       | Hb : negb (bool_decide _) = false |- _ => apply negb_false_iff, bool_decide_eq_true in Hb
       | Hb : negb _ = false |- _ => apply negb_false_iff in Hb
       | Hb : (_ <=? _)%nat = false |- _ => apply Nat.leb_gt in Hb
       | Hb : ¬ (role _ ≠ _) |- _ => apply dec_stable in Hb
       | Hb : ¬ (mem_Joint _ ≠ _) |- _ => apply dec_stable in Hb
       end; split_and!; done.
Qed.

(** A change that may not start is refused and changes nothing: the node is
    not the leader, a change is already under way, the member is unnamed or the
    node itself, an added member is a voter already or no registered peer, a
    removed one is no voter or the last. *)
Theorem membership_change_refused fuel rounds c w n :
  ¬ allowed c n -> exists e, runChange fuel rounds c w n = Some (w, n, Some e).
Proof.
  intros Hn. destruct c as [p|p]; cbn [runChange]; unfold AddMember, RemoveMember.
  all: case_bool_decide as Hp; [by eexists|].
  - destruct (validateAddMemberLocked p n) as [[old new]|e] eqn:E; [|by eexists].
    destruct Hn. by eapply validate_allowed.
  - destruct (validateRemoveMemberLocked p n) as [[old new]|e] eqn:E; [|by eexists].
    destruct Hn. by eapply validate_allowed.
Qed.

End Changes.

(** ** Witnesses *)

(** Three voters and d, which is registered with a as a peer. *)
Definition four_nodes : LocalTransport MemoryStorage :=
  fst (AddNode (follower_of "d" ["a"; "b"; "c"]) three_nodes).
Definition four_transport := local_transport prompt (S := MemoryStorage).

(** a, elected by b and c. *)
Definition elected (t : LocalTransport MemoryStorage) : LocalTransport MemoryStorage * RaftNode MemoryStorage :=
  let '(t, a) := runElection four_transport t (follower_of "a" ["b"; "c"]) in
  (t, fst (RegisterPeer "d" a)).

Lemma membership_change_goes_through_joint_witness :
  exists t n e1 e2 l1 l2,
    runChange four_transport 10 3 (add "d") (fst (elected four_nodes)) (snd (elected four_nodes)) = Some (t, n, None) /\
    Append (log (snd (elected four_nodes))) e1 = Ok l1 /\ Append l1 e2 = Ok l2 /\ log n = l2 /\
    quiet l2 (mkMembership (mkConfiguration ["a"; "b"; "c"; "d"]) None) n.
Proof.
  destruct (runChange four_transport 10 3 (add "d") (fst (elected four_nodes)) (snd (elected four_nodes)))
    as [[[t n] [e|]]|] eqn:E; [by vm_compute in E| |by vm_compute in E].
  destruct (membership_change_goes_through_joint four_transport 10 3 (add "d") (fst (elected four_nodes))
    (snd (elected four_nodes)) t n) as (e1 & e2 & l1 & l2 & ? & ? & ? & _ & _ & Hq & _).
  - split; [done|apply NewLog_wf|vm_compute; reflexivity..].
  - vm_compute. reflexivity.
  - exact E.
  - exists t, n, e1, e2, l1, l2. split_and!; done.
Defined.

Lemma membership_change_refused_witness :
  ¬ allowed (remove "a") (snd (elected four_nodes)) /\
  exists e, runChange four_transport 10 3 (remove "a") (fst (elected four_nodes)) (snd (elected four_nodes)) =
    Some (elected four_nodes, Some e).
Proof.
  assert (¬ allowed (remove "a") (snd (elected four_nodes))) as Hn by (apply (bool_decide_unpack _); vm_compute; exact I).
  split; [exact Hn|]. destruct (elected four_nodes) as [t a] eqn:E.
  exact (membership_change_refused four_transport 10 3 (remove "a") t a Hn).
Defined.

(** Adding a member that is registered but cannot be reached fails after the
    joint configuration is already in force, and nothing leads out of it: when
    the member is reachable again, adding it and removing it are both refused,
    because the membership is joint. *)
Theorem failed_addition_is_stuck :
  let '(t, a) := elected (Block "a" "d" four_nodes) in
  match AddMember four_transport 10 3 "d" t a with
  | Some (t', a', Some _) =>
      mem_Joint (membership a') ≠ None /\ role a' = Leader /\
      let t'' := Unblock "a" "d" t' in
      AddMember four_transport 10 3 "d" t'' a' =
        Some (t'', a', Some (Msg "cannot add member while membership is in joint configuration")) /\
      RemoveMember four_transport 10 "d" t'' a' =
        Some (t'', a', Some (Msg "cannot remove member while membership is in joint configuration"))
  | _ => False
  end.
Proof. vm_compute. by split_and!. Qed.
