(* ===== verification/TransportSim.v ===== *)
(** Transports that cannot be told apart.

    A node reaches its peers through the [Transport] interface of
    [internal/raft/transport.go].  When every call on one transport has the same
    outcome as on another, up to the text of an error, every operation of the node
    has the same effect over both: the elections, replication, proposals, heartbeats,
    reads and membership changes of the node do not depend on the transport. *)

From S2P Require Import Prelude Model Bytes RaftLog Storage Membership ConfigEntry Node Election.
From S2P Require Import Apply SnapshotOps Replication ReplicationFacts ElectionFacts ReadIndex.
From S2P Require Import ReplicationLoop LocalTransport MembershipChange.

Section Sim.
Context {W1 W2 : Type} (T1 : Transport W1) (T2 : Transport W2) (R : W1 -> W2 -> Prop).

(** Two outcomes of a call: equal replies, or an error on both sides. *)
Definition same_result {A} (r1 r2 : result A) : Prop :=
  match r1, r2 with
  | Ok a, Ok b => a = b
  | Err _, Err _ => True
  | _, _ => False
  end.

Definition same_call {A} (r1 : W1 * result A) (r2 : W2 * result A) : Prop :=
  R (fst r1) (fst r2) /\ same_result (snd r1) (snd r2).

(** The calls a node named [who] makes agree on both transports. *)
Record calls_agree (who : NodeID) : Prop := {
  ca_vote w1 w2 p args : rv_CandidateID args = who -> R w1 w2 ->
    same_call (tr_RequestVote T1 w1 p args) (tr_RequestVote T2 w2 p args);
  ca_prevote w1 w2 p args : pv_CandidateID args = who -> R w1 w2 ->
    same_call (tr_PreVote T1 w1 p args) (tr_PreVote T2 w2 p args);
  ca_append w1 w2 p args : ae_LeaderID args = who -> R w1 w2 ->
    same_call (tr_AppendEntries T1 w1 p args) (tr_AppendEntries T2 w2 p args);
  ca_install w1 w2 p args : is_LeaderID args = who -> R w1 w2 ->
    same_call (tr_InstallSnapshot T1 w1 p args) (tr_InstallSnapshot T2 w2 p args);
}.

(** Two outcomes of an operation: related networks, the same node and result. *)
Definition same_run {A} (r1 : option (W1 * A)) (r2 : option (W2 * A)) : Prop :=
  match r1, r2 with
  | Some (w1, a1), Some (w2, a2) => R w1 w2 /\ a1 = a2
  | None, None => True
  | _, _ => False
  end.

Context {S : Type} `{Storage S}.
Implicit Types n : RaftNode S.

(** The same for an operation that also returns a value; the node is named [who]. *)
Definition same_op {A} (who : NodeID) (r1 : option (W1 * RaftNode S * A)) (r2 : option (W2 * RaftNode S * A)) : Prop :=
  match r1, r2 with
  | Some (v1, n1, a1), Some (v2, n2, a2) => R v1 v2 /\ n1 = n2 /\ a1 = a2 /\ id n1 = who
  | None, None => True
  | _, _ => False
  end.

Lemma same_call_cases {A} (r1 : W1 * result A) (r2 : W2 * result A) :
  same_call r1 r2 ->
  (exists w1 w2 a, r1 = (w1, Ok a) /\ r2 = (w2, Ok a) /\ R w1 w2) \/
  (exists w1 w2 e1 e2, r1 = (w1, Err e1) /\ r2 = (w2, Err e2) /\ R w1 w2).
Proof.
  destruct r1 as [w1 [a1|e1]], r2 as [w2 [a2|e2]]; intros [HR Hs]; cbn in *; try done.
  - subst. left. eauto 10.
  - right. eauto 10.
Qed.

Lemma buildAppendEntries_leader n p args : buildAppendEntries n p = Some args -> ae_LeaderID args = id n.
Proof. unfold buildAppendEntries. intros E. repeat split_hyp_match E; by simplify_eq. Qed.

Lemma buildInstallSnapshot_leader n p args : buildInstallSnapshot n p = Some args -> is_LeaderID args = id n.
Proof. unfold buildInstallSnapshot. intros E. repeat split_hyp_match E; by simplify_eq. Qed.

(** ** Replication *)

Lemma sendInstallSnapshot_same p w1 w2 n :
  calls_agree (id n) -> R w1 w2 ->
  exists w1' w2' n' b, sendInstallSnapshot T1 p w1 n = (w1', n', b) /\
    sendInstallSnapshot T2 p w2 n = (w2', n', b) /\ R w1' w2' /\ id n' = id n.
Proof.
  intros Ha HR. unfold sendInstallSnapshot. destruct (negb _); [by eauto 10|].
  destruct (buildInstallSnapshot n p) as [args|] eqn:Hb; [|by eauto 10].
  apply buildInstallSnapshot_leader in Hb.
  destruct (same_call_cases _ _ (ca_install _ Ha w1 w2 p args Hb HR))
    as [(w1' & w2' & a & -> & -> & ?)|(w1' & w2' & e1 & e2 & -> & -> & ?)]; [|by eauto 10].
  eexists _, _, _, _. split_and!; [done..|]. apply handleInstallSnapshotReply_id.
Qed.

Lemma replicateTo_same fuel p w1 w2 n :
  calls_agree (id n) -> R w1 w2 -> same_run (replicateTo T1 fuel p w1 n) (replicateTo T2 fuel p w2 n).
Proof.
  revert w1 w2 n. induction fuel as [|fuel IH]; intros w1 w2 n Ha HR; cbn [replicateTo]; [done|].
  destruct (negb (transportSet n)); [done|].
  destruct (sendInstallSnapshot_same p w1 w2 n Ha HR) as (v1 & v2 & n1 & b & -> & -> & HR' & Hid).
  rewrite <- Hid in Ha. destruct b; [by apply IH|].
  destruct (buildAppendEntries n1 p) as [args|] eqn:Hb; [|done]. apply buildAppendEntries_leader in Hb.
  destruct (same_call_cases _ _ (ca_append _ Ha v1 v2 p args Hb HR'))
    as [(u1 & u2 & a & -> & -> & HR2)|(u1 & u2 & e1 & e2 & -> & -> & ?)]; [|done].
  cbn zeta. destruct (aer_Success a); [done|]. case_bool_decide; [done|].
  apply IH; [by rewrite handleAppendEntriesReply_id|done].
Qed.

Lemma replicateTo_id fuel p w2 n w2' n' : replicateTo T2 fuel p w2 n = Some (w2', n') -> id n' = id n.
Proof.
  intros E. pose proof (replicateTo_keeps T2 (fun _ => True) fuel p w2 n) as Hk. rewrite E in Hk.
  apply Hk; [by split|done].
Qed.

Lemma replicateAll_same fuel ps w1 w2 n :
  calls_agree (id n) -> R w1 w2 -> same_run (replicateAll T1 fuel ps w1 n) (replicateAll T2 fuel ps w2 n).
Proof.
  revert w1 w2 n. induction ps as [|p ps IH]; intros w1 w2 n Ha HR; cbn; [done|].
  pose proof (replicateTo_same fuel p w1 w2 n Ha HR) as Hs. pose proof (replicateTo_id fuel p w2 n) as Hi.
  destruct (replicateTo T1 fuel p w1 n) as [[v1 n1]|], (replicateTo T2 fuel p w2 n) as [[v2 n2]|]; try done.
  destruct Hs as [HR' ->]. apply IH; [by erewrite Hi|done].
Qed.

Lemma Propose_same fuel data w1 w2 n :
  calls_agree (id n) -> R w1 w2 ->
  same_op (id n) (Propose T1 fuel data w1 n) (Propose T2 fuel data w2 n).
Proof.
  intros Ha HR. unfold Propose. destruct (proposeLocked data n) as [n1 [[index b]|e]] eqn:E;
    apply proposeLocked_id in E as Hid; [|done]. cbn zeta.
  set (n2 := if b then applyCommitted n1 else n1).
  assert (id n2 = id n) as Hid2 by (subst n2; destruct b; rewrite ?applyCommitted_id; done).
  destruct (negb _); [done|]. rewrite <- Hid2 in Ha |- *.
  pose proof (replicateAll_same fuel (peerIDs n1) w1 w2 n2 Ha HR) as Hs.
  pose proof (replicateAll_keeps T2 (fun _ => True) fuel (peerIDs n1) w2 n2) as Hk.
  destruct (replicateAll T1 _ _ _ _) as [[v1 m1]|], (replicateAll T2 _ _ _ _) as [[v2 m2]|]; try done.
  destruct Hs as [? ->]. split_and!; try done. apply Hk; [by split|done].
Qed.

Lemma heartbeat_same fuel w1 w2 n :
  calls_agree (id n) -> R w1 w2 -> same_run (heartbeat T1 fuel w1 n) (heartbeat T2 fuel w2 n).
Proof. intros Ha HR. unfold heartbeat. case_bool_decide; [done|]. by apply replicateAll_same. Qed.

Lemma sendHeartbeat_same p w1 w2 n :
  calls_agree (id n) -> R w1 w2 ->
  R (fst (sendHeartbeat T1 p w1 n)) (fst (sendHeartbeat T2 p w2 n)) /\
  snd (sendHeartbeat T1 p w1 n) = snd (sendHeartbeat T2 p w2 n).
Proof.
  intros Ha HR. unfold sendHeartbeat. destruct (negb _); [done|].
  destruct (buildAppendEntries n p) as [args|] eqn:Hb; [|done]. apply buildAppendEntries_leader in Hb.
  destruct (ae_Entries args); [|done].
  by destruct (same_call_cases _ _ (ca_append _ Ha w1 w2 p args Hb HR))
    as [(v1 & v2 & a & -> & -> & ?)|(v1 & v2 & e1 & e2 & -> & -> & ?)].
Qed.

(** ** Reads *)

Lemma readIndexRequest_leader term commit p n args :
  readIndexRequest term commit p n = Ok args -> ae_LeaderID args = id n.
Proof. unfold readIndexRequest. intros E. repeat split_hyp_match E; by simplify_eq. Qed.

Lemma readIndexHandle_wait m term commit acks p r n n' acks' :
  readIndexHandle m term commit acks p r n = (n', Wait acks') -> n' = n.
Proof. unfold readIndexHandle. intros E. repeat split_hyp_match E; by simplify_eq. Qed.

Lemma readIndexPeers_same m term commit ps acks w1 w2 n :
  calls_agree (id n) -> R w1 w2 ->
  let r1 := readIndexPeers T1 m term commit ps acks w1 n in
  let r2 := readIndexPeers T2 m term commit ps acks w2 n in
  R (fst (fst r1)) (fst (fst r2)) /\ snd (fst r1) = snd (fst r2) /\ snd r1 = snd r2.
Proof.
  revert acks w1 w2. induction ps as [|p ps IH]; intros acks w1 w2 Ha HR; cbn [readIndexPeers]; [done|].
  destruct (readIndexRequest term commit p n) as [args|e] eqn:Hr; [|by apply IH].
  apply readIndexRequest_leader in Hr.
  destruct (same_call_cases _ _ (ca_append _ Ha w1 w2 p args Hr HR))
    as [(v1 & v2 & a & -> & -> & HR')|(v1 & v2 & e1 & e2 & -> & -> & HR')]; [|by apply IH].
  destruct (readIndexHandle m term commit acks p (Ok a) n) as [n1 [acks1|r1]] eqn:Hh; [|done].
  apply readIndexHandle_wait in Hh as ->. by apply IH.
Qed.

Lemma ReadIndex_same w1 w2 n :
  calls_agree (id n) -> R w1 w2 ->
  R (fst (fst (ReadIndex T1 w1 n))) (fst (fst (ReadIndex T2 w2 n))) /\
  snd (fst (ReadIndex T1 w1 n)) = snd (fst (ReadIndex T2 w2 n)) /\
  snd (ReadIndex T1 w1 n) = snd (ReadIndex T2 w2 n).
Proof.
  intros Ha HR. unfold ReadIndex. destruct (readIndexRefused n); [done|].
  destruct (membershipHasQuorum _ _); [done|]. by apply readIndexPeers_same.
Qed.

(** ** Elections *)

Lemma preVotesFrom_same m ps args granted w1 w2 :
  calls_agree (pv_CandidateID args) -> R w1 w2 ->
  R (fst (preVotesFrom T1 m ps args granted w1)) (fst (preVotesFrom T2 m ps args granted w2)) /\
  snd (preVotesFrom T1 m ps args granted w1) = snd (preVotesFrom T2 m ps args granted w2).
Proof.
  intros Ha. revert granted w1 w2. induction ps as [|p ps IH]; intros granted w1 w2 HR; cbn; [done|].
  destruct (same_call_cases _ _ (ca_prevote _ Ha w1 w2 p args eq_refl HR))
    as [(v1 & v2 & a & -> & -> & HR')|(v1 & v2 & e1 & e2 & -> & -> & HR')]; [|by apply IH].
  destruct (negb _); [by apply IH|]. destruct (membershipHasQuorum _ _); [done|by apply IH].
Qed.

Lemma requestVotesFrom_same ps args w1 w2 n :
  calls_agree (rv_CandidateID args) -> R w1 w2 ->
  R (fst (requestVotesFrom T1 ps args w1 n)) (fst (requestVotesFrom T2 ps args w2 n)) /\
  snd (requestVotesFrom T1 ps args w1 n) = snd (requestVotesFrom T2 ps args w2 n).
Proof.
  intros Ha. revert w1 w2 n. induction ps as [|p ps IH]; intros w1 w2 n HR; cbn; [done|].
  destruct (same_call_cases _ _ (ca_vote _ Ha w1 w2 p args eq_refl HR))
    as [(v1 & v2 & a & -> & -> & HR')|(v1 & v2 & e1 & e2 & -> & -> & HR')]; by apply IH.
Qed.

Lemma runElection_same w1 w2 n :
  calls_agree (id n) -> R w1 w2 ->
  R (fst (runElection T1 w1 n)) (fst (runElection T2 w2 n)) /\
  snd (runElection T1 w1 n) = snd (runElection T2 w2 n).
Proof.
  intros Ha HR. unfold runElection. destruct (storageWriteBlocked n); [done|].
  assert (R (fst (runPreVote T1 w1 n)) (fst (runPreVote T2 w2 n)) /\
    snd (runPreVote T1 w1 n) = snd (runPreVote T2 w2 n)) as Hpre.
  { unfold runPreVote. destruct (negb _); [done|]. destruct (membershipHasQuorum _ _); [done|].
    destruct (negb _); [done|]. by apply preVotesFrom_same. }
  destruct (runPreVote T1 w1 n) as [v1 b1], (runPreVote T2 w2 n) as [v2 b2]. destruct Hpre as [HR' Heq].
  cbn in HR', Heq. subst b2. destruct b1; [|done]. case_bool_decide; [done|]. destruct (_ && _); [done|].
  destruct (startElection n) as [n1 [t|]] eqn:Es; [|done].
  assert (id n1 = id n) as Hid by (unfold startElection in Es; repeat split_hyp_match Es; by simplify_eq).
  unfold requestVotes. destruct (voteRequest n1) as [args|] eqn:Hv; [|done].
  assert (rv_CandidateID args = id n) as Hc.
  { rewrite <- Hid. unfold voteRequest in Hv. by destruct (_ || _); simplify_eq. }
  destruct (negb (transportSet n1)); [done|]. rewrite <- Hc in Ha.
  pose proof (requestVotesFrom_same (peerIDs n1) args v1 v2 n1 Ha HR') as [HR2 Heq].
  destruct (requestVotesFrom T1 _ _ _ _) as [u1 m1], (requestVotesFrom T2 _ _ _ _) as [u2 m2].
  cbn in HR2, Heq. by subst m2.
Qed.

(** ** Membership changes *)

Lemma catchUpPeer_same fuel rounds p target w1 w2 n :
  calls_agree (id n) -> R w1 w2 ->
  same_op (id n) (catchUpPeer T1 fuel rounds p target w1 n) (catchUpPeer T2 fuel rounds p target w2 n).
Proof.
  revert w1 w2 n. induction rounds as [|rounds IH]; intros w1 w2 n Ha HR; cbn [catchUpPeer];
    (case_bool_decide; [done|]); destruct (_ <=? _)%N; try done.
  pose proof (replicateTo_same fuel p w1 w2 n Ha HR) as Hs. pose proof (replicateTo_id fuel p w2 n) as Hi.
  destruct (replicateTo T1 fuel p w1 n) as [[v1 n1]|], (replicateTo T2 fuel p w2 n) as [[v2 n2]|]; try done.
  destruct Hs as [HR' ->]. specialize (Hi _ _ eq_refl). rewrite <- Hi in *. by apply IH.
Qed.

Lemma proposeAndWait_same fuel enc s1 s2 s3 w1 w2 n :
  calls_agree (id n) -> R w1 w2 ->
  same_op (id n) (proposeAndWait T1 fuel enc s1 s2 s3 w1 n) (proposeAndWait T2 fuel enc s1 s2 s3 w2 n).
Proof.
  intros Ha HR. unfold proposeAndWait. destruct enc as [data|]; [|done].
  pose proof (Propose_same fuel data w1 w2 n Ha HR) as Hs.
  destruct (Propose T1 fuel data w1 n) as [[[v1 n1] [i1|]]|], (Propose T2 fuel data w2 n) as [[[v2 n2] [i2|]]|];
    try done; destruct Hs as (? & -> & Heq & ?); simplify_eq; [|done].
  by destruct (waitForApplied _ _).
Qed.

(** Continuing after a call that may have failed. *)
Lemma same_then who (f : error -> error) r1 r2 (k1 : W1 -> RaftNode S -> _) (k2 : W2 -> RaftNode S -> _) :
  same_op who r1 r2 ->
  (forall w1 w2 n, R w1 w2 -> id n = who -> same_op who (k1 w1 n) (k2 w2 n)) ->
  same_op who
    (match r1 with
     | None => None | Some (w, n, Some e) => Some (w, n, Some (f e)) | Some (w, n, None) => k1 w n
     end)
    (match r2 with
     | None => None | Some (w, n, Some e) => Some (w, n, Some (f e)) | Some (w, n, None) => k2 w n
     end).
Proof.
  intros Hs Hk. destruct r1 as [[[v1 n1] e1]|], r2 as [[[v2 n2] e2]|]; try done.
  destruct Hs as (HR & -> & -> & Hid). destruct e2; [done|]. by apply Hk.
Qed.

Lemma runChange_same fuel rounds c w1 w2 n :
  calls_agree (id n) -> R w1 w2 ->
  same_op (id n) (runChange T1 fuel rounds c w1 n) (runChange T2 fuel rounds c w2 n).
Proof.
  intros Ha HR. destruct c as [p|p]; cbn [runChange]; unfold AddMember, RemoveMember.
  all: case_bool_decide; [done|].
  - destruct (validateAddMemberLocked p n) as [[old new]|]; [|done].
    eapply (same_then (id n) (fun e => Wrap _ e)).
    { exact (catchUpPeer_same fuel rounds p _ w1 w2 (initializeNewPeerReplicationStateLocked p n) Ha HR). }
    intros v1 v2 n1 HR1 Hid1.
    eapply (same_then (id n) (fun e => e)); [rewrite <- Hid1 in *; by apply proposeAndWait_same|].
    intros v3 v4 n2 HR2 Hid2. rewrite <- Hid2 in Ha.
    pose proof (replicateTo_same fuel p v3 v4 n2 Ha HR2) as Hs. pose proof (replicateTo_id fuel p v4 n2) as Hi.
    destruct (replicateTo T1 _ _ _ _) as [[v5 n5]|], (replicateTo T2 _ _ _ _) as [[v6 n6]|]; try done.
    destruct Hs as [HR3 ->]. specialize (Hi _ _ eq_refl). rewrite <- Hid2, <- Hi in *. clear Hid2 Hi.
    eapply (same_then (id n6) (fun e => Wrap _ e)); [by apply catchUpPeer_same|]. intros v7 v8 n7 HR4 Hid4.
    eapply (same_then (id n6) (fun e => e)); [rewrite <- Hid4 in *; by apply proposeAndWait_same|].
    intros va vb nb HR5 Hid5. destruct (bool_decide _); [done|]. by destruct (negb _).
  - destruct (validateRemoveMemberLocked p n) as [[old new]|]; [|done].
    eapply (same_then (id n) (fun e => e)); [by apply proposeAndWait_same|]. intros v1 v2 n1 HR1 Hid1.
    eapply (same_then (id n) (fun e => e)); [rewrite <- Hid1 in *; by apply proposeAndWait_same|].
    intros va vb nb HR5 Hid5. destruct (bool_decide _); [done|]. by destruct (membershipIsVoter _ _).
Qed.

End Sim.
