(* ===== verification/Tls.v ===== *)
(** Mutual TLS between the nodes: [internal/transport/tls.go] and [initializeTLS]
    of [cmd/raftiq/runtime.go].

    Of crypto/tls and crypto/x509 the code reads files, parses a pool of CA
    certificates and loads a key pair: [ReadFile], [ParsePool] and [LoadX509KeyPair]
    are parameters.  The chain of a certificate is checked by crypto/tls against the
    pools of the configuration; what the program adds is the policy modelled here: who
    is asked for a certificate, the server name a client insists on and the subject
    alternative names a server lets in. *)

From S2P Require Import Prelude Model Bytes.

Definition ErrTLSCACertificate : error := Sentinel "TLS CA certificate is required".
Definition ErrTLSCertificate : error := Sentinel "TLS certificate is required".
Definition ErrTLSPrivateKey : error := Sentinel "TLS private key is required".
Definition ErrTLSInvalidPeerName : error := Sentinel "TLS peer server name is required".
Definition ErrTLSInvalidPeerSAN : error := Sentinel "TLS peer SAN validation failed".

Record TLSConfig : Type := mkTLSConfig {
  CAFile : string;
  CertFile : string;
  KeyFile : string;
  PeerServerName : string;
}.

(** x509.Certificate and tls.ConnectionState, as far as they are read. *)
Record Certificate : Type := mkCertificate { DNSNames : list string }.
Record ConnectionState : Type := mkConnectionState { PeerCertificates : list Certificate }.

Inductive ClientAuthType : Type := NoClientCert | RequireAndVerifyClientCert.

Definition VersionTLS13 : N := 772.

(** tls.Config, the fields that are set; the zero value of the others is kept. *)
Record tls_Config {KeyPair Pool : Type} : Type := mkTlsConfig {
  MinVersion : N;
  Certificates : list KeyPair;
  RootCAs : option Pool;
  ClientCAs : option Pool;
  ClientAuth : ClientAuthType;
  ServerName : string;
  VerifyConnection : option (ConnectionState -> option error);
}.
Global Arguments tls_Config : clear implicits.
Global Arguments mkTlsConfig {KeyPair Pool}.

(** [config.Clone()] followed by setting the server name. *)
Definition with_ServerName {K P} (name : string) (c : tls_Config K P) : tls_Config K P :=
  mkTlsConfig (MinVersion c) (Certificates c) (RootCAs c) (ClientCAs c) (ClientAuth c) name (VerifyConnection c).

Definition peerServerName (i : NodeID) : string := i ++ ".raftiq".

Section Tls.
Context {KeyPair Pool : Type}.
Context (ReadFile : string -> result bytes) (ParsePool : bytes -> option Pool).
Context (LoadX509KeyPair : string -> string -> result KeyPair).

(** The part the four constructors share: the CA pool and the key pair. *)
Definition loadMaterial (cfg : TLSConfig) : result (Pool * KeyPair) :=
  caPEM ← wrap_err "read TLS CA certificate" (ReadFile (CAFile cfg));
  match ParsePool caPEM with
  | None => Err (Msg "parse TLS CA certificate")
  | Some caPool =>
      certificate ← wrap_err "load TLS certificate and key" (LoadX509KeyPair (CertFile cfg) (KeyFile cfg));
      Ok (caPool, certificate)
  end.

Definition LoadTLSConfig (cfg : TLSConfig) : result (tls_Config KeyPair Pool) :=
  if bool_decide (CAFile cfg = "") then Err ErrTLSCACertificate
  else if bool_decide (CertFile cfg = "") then Err ErrTLSCertificate
  else if bool_decide (KeyFile cfg = "") then Err ErrTLSPrivateKey
  else if bool_decide (PeerServerName cfg = "") then Err ErrTLSInvalidPeerName
  else
    '(caPool, certificate) ← loadMaterial cfg;
    Ok (mkTlsConfig VersionTLS13 [certificate] (Some caPool) (Some caPool)
          RequireAndVerifyClientCert (PeerServerName cfg) None).

Definition LoadTLSClientConfig (cfg : TLSConfig) : result (tls_Config KeyPair Pool) :=
  if bool_decide (CAFile cfg = "") then Err ErrTLSCACertificate
  else if bool_decide (CertFile cfg = "") then Err ErrTLSCertificate
  else if bool_decide (KeyFile cfg = "") then Err ErrTLSPrivateKey
  else
    '(caPool, certificate) ← loadMaterial cfg;
    Ok (mkTlsConfig VersionTLS13 [certificate] (Some caPool) (Some caPool) RequireAndVerifyClientCert "" None).

Definition LoadTLSKVServerConfig (cfg : TLSConfig) : result (tls_Config KeyPair Pool) :=
  if bool_decide (CAFile cfg = "") then Err ErrTLSCACertificate
  else if bool_decide (CertFile cfg = "") then Err ErrTLSCertificate
  else if bool_decide (KeyFile cfg = "") then Err ErrTLSPrivateKey
  else
    '(caPool, certificate) ← loadMaterial cfg;
    Ok (mkTlsConfig VersionTLS13 [certificate] None (Some caPool) RequireAndVerifyClientCert "" None).

Definition verifyPeerSAN (expectedSAN : string) (state : ConnectionState) : option error :=
  if bool_decide (expectedSAN = "") then Some ErrTLSInvalidPeerName
  else
    match PeerCertificates state with
    | [] => Some ErrTLSInvalidPeerSAN
    | cert :: _ =>
        if existsb (fun san => bool_decide (san = expectedSAN)) (DNSNames cert) then None
        else Some (Wrap "expected" ErrTLSInvalidPeerSAN)
    end.

Definition verifyPeerSANs (allowedSANs : gset string) (state : ConnectionState) : option error :=
  match PeerCertificates state with
  | [] => Some ErrTLSInvalidPeerSAN
  | cert :: _ =>
      if existsb (fun san => bool_decide (san ∈ allowedSANs)) (DNSNames cert) then None
      else Some ErrTLSInvalidPeerSAN
  end.

Definition LoadTLSServerConfig (cfg : TLSConfig) (allowedPeerSANs : gset string) : result (tls_Config KeyPair Pool) :=
  if bool_decide (CAFile cfg = "") then Err ErrTLSCACertificate
  else if bool_decide (CertFile cfg = "") then Err ErrTLSCertificate
  else if bool_decide (KeyFile cfg = "") then Err ErrTLSPrivateKey
  else if bool_decide (allowedPeerSANs = ∅) then Err ErrTLSInvalidPeerName
  else
    '(caPool, certificate) ← loadMaterial cfg;
    Ok (mkTlsConfig VersionTLS13 [certificate] (Some caPool) (Some caPool) RequireAndVerifyClientCert ""
          (Some (verifyPeerSANs allowedPeerSANs))).

(** The loop of [initializeTLS] over the configured peers. *)
Definition allowedPeerSANs (nodeID : NodeID) (peers : gmap NodeID string) : gset string :=
  set_map peerServerName (dom peers ∖ {[nodeID]}).

(** The client, server and KV server configurations of a node. *)
Definition initializeTLS (tlsCA tlsCert tlsKey : string) (nodeID : NodeID) (peers : gmap NodeID string)
    : result (tls_Config KeyPair Pool * tls_Config KeyPair Pool * tls_Config KeyPair Pool) :=
  let cfg := mkTLSConfig tlsCA tlsCert tlsKey "" in
  clientTLS ← wrap_err "load Raft client TLS configuration" (LoadTLSClientConfig cfg);
  serverTLS ← wrap_err "load Raft server TLS configuration" (LoadTLSServerConfig cfg (allowedPeerSANs nodeID peers));
  kvServerTLS ← wrap_err "load KV server TLS configuration" (LoadTLSKVServerConfig cfg);
  Ok (clientTLS, serverTLS, kvServerTLS).

(** ** Lemmas *)

#[global] Instance peerServerName_inj : Inj (=) (=) peerServerName.
Proof.
  unfold peerServerName. intros a b E.
  assert (forall c, String.length (c ++ ".raftiq") = String.length c + 7)%nat as Hlen.
  { intros c. induction c as [|x c IH]; [done|]. exact (f_equal Datatypes.S IH). }
  assert (String.length a = String.length b) as Hl.
  { pose proof (Hlen a). pose proof (Hlen b). rewrite E in *. lia. }
  clear Hlen. revert b E Hl. induction a as [|x a IH]; intros [|y b] E Hl; try done.
  change (String x (a ++ ".raftiq") = String y (b ++ ".raftiq")) in E. injection E as -> E.
  injection Hl as Hl. f_equal. by apply IH.
Qed.

Lemma allowedPeerSANs_spec nodeID peers san :
  san ∈ allowedPeerSANs nodeID peers <->
  exists p, p ∈ dom peers /\ p ≠ nodeID /\ san = peerServerName p.
Proof. unfold allowedPeerSANs. set_solver. Qed.

Lemma verifyPeerSANs_spec allowed st :
  verifyPeerSANs allowed st = None <->
  exists cert rest san, PeerCertificates st = cert :: rest /\ san ∈ DNSNames cert /\ san ∈ allowed.
Proof.
  unfold verifyPeerSANs. destruct (PeerCertificates st) as [|cert rest]; [naive_solver|].
  destruct (existsb _ _) eqn:E.
  - apply existsb_exists in E as (san & Hin & Hd%bool_decide_eq_true). split; [intros _|done].
    exists cert, rest, san. by rewrite list_elem_of_In.
  - split; [done|]. intros (c & r & san & [= <- <-] & Hin & Ha). rewrite <- not_true_iff_false in E.
    destruct E. apply existsb_exists. exists san. rewrite <- list_elem_of_In. by rewrite bool_decide_true.
Qed.

(** The configurations a node starts with. *)
Lemma initializeTLS_ok ca cert key nodeID peers client server kv :
  initializeTLS ca cert key nodeID peers = Ok (client, server, kv) ->
  exists pool pair, loadMaterial (mkTLSConfig ca cert key "") = Ok (pool, pair) /\
    allowedPeerSANs nodeID peers ≠ ∅ /\
    client = mkTlsConfig VersionTLS13 [pair] (Some pool) (Some pool) RequireAndVerifyClientCert "" None /\
    server = mkTlsConfig VersionTLS13 [pair] (Some pool) (Some pool) RequireAndVerifyClientCert ""
               (Some (verifyPeerSANs (allowedPeerSANs nodeID peers))) /\
    kv = mkTlsConfig VersionTLS13 [pair] None (Some pool) RequireAndVerifyClientCert "" None.
Proof.
  unfold initializeTLS, LoadTLSClientConfig, LoadTLSServerConfig, LoadTLSKVServerConfig. cbn [CAFile CertFile KeyFile].
  do 3 (case_bool_decide; [done|]).
  destruct (loadMaterial _) as [[pool pair]|]; [|done]. cbn. case_bool_decide as Hne; [done|].
  cbn. intros [= <- <- <-]. eauto 10.
Qed.

Lemma allowed_peer_exists nodeID peers :
  allowedPeerSANs nodeID peers ≠ ∅ <-> exists p, p ∈ dom peers /\ p ≠ nodeID.
Proof.
  split.
  - intros (san & (p & ? & ? & _)%allowedPeerSANs_spec)%set_choose_L. eauto.
  - intros (p & ? & ?) E. assert (peerServerName p ∈ allowedPeerSANs nodeID peers) as Hin
      by (apply allowedPeerSANs_spec; eauto). rewrite E in Hin. set_solver.
Qed.

(** C37: mutual TLS as a node sets it up.  Every endpoint asks for TLS 1.3 and a
    client certificate signed by the configured CA; the Raft endpoint lets a
    connection in exactly when the leaf certificate names a configured peer other
    than the node itself; a client that dials peer [p] insists on the name that the
    servers of the other nodes accept for [p], and on no other peer's; and the set-up
    succeeds only when there is another peer. *)
Theorem raft_endpoint_admits_peers ca cert key nodeID peers client server kv :
  initializeTLS ca cert key nodeID peers = Ok (client, server, kv) ->
  (forall c, c = client \/ c = server \/ c = kv ->
    MinVersion c = VersionTLS13 /\ ClientAuth c = RequireAndVerifyClientCert /\ ClientCAs c = ClientCAs client) /\
  (exists verify, VerifyConnection server = Some verify /\
    forall st, verify st = None <->
      exists leaf rest p, PeerCertificates st = leaf :: rest /\ p ∈ dom peers /\ p ≠ nodeID /\
        peerServerName p ∈ DNSNames leaf) /\
  (forall p q, ServerName (with_ServerName (peerServerName p) client) =
     ServerName (with_ServerName (peerServerName q) client) <-> p = q) /\
  (exists p, p ∈ dom peers /\ p ≠ nodeID).
Proof.
  intros (pool & pair & _ & Hne & -> & -> & ->)%initializeTLS_ok. split_and!.
  - intros c [->|[->| ->]]; done.
  - eexists. split; [done|]. intros st. rewrite verifyPeerSANs_spec. split.
    + intros (leaf & rest & san & ? & ? & (p & ? & ? & ->)%allowedPeerSANs_spec). eauto 10.
    + intros (leaf & rest & p & ? & ? & ? & ?). exists leaf, rest, (peerServerName p).
      rewrite allowedPeerSANs_spec. eauto 10.
  - intros p q. cbn. split; [apply (inj _)|by intros ->].
  - by apply allowed_peer_exists.
Qed.

(** The constructors agree with each other.  A configuration for a fixed peer is
    the client configuration with the server name filled in; the KV server's differs
    from it only in not trusting any server. *)
Lemma tls_constructors_agree cfg :
  PeerServerName cfg ≠ "" ->
  LoadTLSConfig cfg = (c ← LoadTLSClientConfig cfg; Ok (with_ServerName (PeerServerName cfg) c)) /\
  LoadTLSKVServerConfig cfg =
    (c ← LoadTLSClientConfig cfg;
     Ok (mkTlsConfig (MinVersion c) (Certificates c) None (ClientCAs c) (ClientAuth c) (ServerName c) (VerifyConnection c))).
Proof.
  intros Hn. unfold LoadTLSConfig, LoadTLSClientConfig, LoadTLSKVServerConfig.
  do 3 (case_bool_decide; [done|]). rewrite bool_decide_false by done.
  by destruct (loadMaterial cfg) as [[pool pair]|].
Qed.

End Tls.

(** ** Witness: the files are readable, and b is the only other peer. *)

Definition sample_peers : gmap NodeID string := {["a" := "localhost:7001"; "b" := "localhost:7002"]}.
Definition sample_tls :=
  initializeTLS (fun _ => Ok []) Some (fun cert key => Ok (cert, key)) "ca.pem" "node.pem" "node.key" "a" sample_peers.

Lemma raft_endpoint_admits_peers_witness :
  exists client server kv verify, sample_tls = Ok (client, server, kv) /\ VerifyConnection server = Some verify /\
    verify (mkConnectionState [mkCertificate ["x"; "b.raftiq"]]) = None /\
    verify (mkConnectionState [mkCertificate ["a.raftiq"]]) ≠ None.
Proof.
  assert (exists client server kv, sample_tls = Ok (client, server, kv)) as (client & server & kv & E)
    by (eexists _, _, _; vm_compute; reflexivity).
  destruct (raft_endpoint_admits_peers _ _ _ _ _ _ _ _ _ _ _ E) as (_ & (verify & Hv & Hspec) & _).
  exists client, server, kv, verify. split; [done|]. split; [done|]. split.
  - apply Hspec. exists (mkCertificate ["x"; "b.raftiq"]), [], "b".
    split_and!; [done|apply (bool_decide_unpack _); vm_compute; exact I|done|].
    apply (bool_decide_unpack _). vm_compute. exact I.
  - intros (leaf & rest & p & [= <- <-] & Hp & Hn & Hin)%Hspec. cbn in Hin.
    apply list_elem_of_singleton in Hin. apply Hn, (inj peerServerName). exact Hin.
Defined.
