(* ===== verification/RaftRpc.v ===== *)
(** The gRPC transport between the nodes: [GRPCTransport] of
    [internal/transport/grpc_raft_transport*.go] on the calling side and [RaftService]
    of [raft_service.go] on the side of the called node.

    The messages are the structs of [api/proto/raftiq.pb.go]; a request is a pointer,
    [None] when nil.  gRPC carries a request to the service at the other end of a
    connection when it can be encoded and is within the size limit ([carried_request]):
    [Invoke] is a parameter, with what is relied on as [NetworkLaws].  The creation and
    closing of connections are parameters too. *)

From S2P Require Import Prelude Model Bytes Proto RaftLog Storage Membership ConfigEntry Node Election.
From S2P Require Import Apply SnapshotOps Replication ReadIndex LocalTransport MembershipChange.
From S2P Require Import TransportSim Tls.

(** ** Messages *)

Record pb_LogEntry := mkPbLogEntry { pe_Index : N; pe_Term : N; pe_Data : bytes }.
Record RequestVoteRequest := mkRequestVoteRequest {
  rvq_Term : N; rvq_CandidateId : string; rvq_LastLogIndex : N; rvq_LastLogTerm : N }.
Record RequestVoteResponse := mkRequestVoteResponse {
  rvs_Term : N; rvs_VoterId : string; rvs_VoteGranted : bool }.
Record PreVoteRequest := mkPreVoteRequest {
  pvq_Term : N; pvq_CandidateId : string; pvq_LastLogIndex : N; pvq_LastLogTerm : N }.
Record PreVoteResponse := mkPreVoteResponse {
  pvs_Term : N; pvs_VoterId : string; pvs_VoteGranted : bool }.
Record AppendEntriesRequest := mkAppendEntriesRequest {
  aeq_Term : N; aeq_LeaderId : string; aeq_PrevLogIndex : N; aeq_PrevLogTerm : N;
  aeq_Entries : list (option pb_LogEntry); aeq_LeaderCommit : N }.
Record AppendEntriesResponse := mkAppendEntriesResponse {
  aes_Term : N; aes_FollowerId : string; aes_Success : bool }.
Record InstallSnapshotRequest := mkInstallSnapshotRequest {
  isq_Term : N; isq_LeaderId : string; isq_LastIncludedIndex : N; isq_LastIncludedTerm : N; isq_Data : bytes }.
Record InstallSnapshotResponse := mkInstallSnapshotResponse {
  iss_Term : N; iss_FollowerId : string; iss_Success : bool }.

Definition rpcMethodRequestVote : string := "RequestVote".
Definition rpcMethodPreVote : string := "PreVote".
Definition rpcMethodAppendEntries : string := "AppendEntries".
Definition rpcMethodInstallSnapshot : string := "InstallSnapshot".

(** ** The service *)

(** The node behind the service and the counters of its metrics. *)
Record RaftService {S : Type} := mkRaftService {
  rs_node : RaftNode S;
  rs_requests : gmap string N;
  rs_errors : gmap string N;
}.
Global Arguments RaftService : clear implicits.
Global Arguments mkRaftService {S}.

Definition inc (method : string) (m : gmap string N) : gmap string N :=
  <[method := (default 0 (m !! method) + 1)%N]> m.

Section Service.
Context {S : Type} `{Storage S}.
Implicit Types s : RaftService S.

Definition NewRaftService (node : option (RaftNode S)) : result (RaftService S) :=
  match node with
  | None => Err (Msg "raft node is required")
  | Some node => Ok (mkRaftService node ∅ ∅)
  end.

(** The deferred [observeRPC]: a request, and an error when the call failed. *)
Definition observeRPC {A} (method : string) (r : RaftService S * result A) : RaftService S * result A :=
  let '(s, r) := r in
  (mkRaftService (rs_node s) (inc method (rs_requests s))
     (match r with Ok _ => rs_errors s | Err _ => inc method (rs_errors s) end), r).

Definition set_rs_node (n : RaftNode S) s : RaftService S := mkRaftService n (rs_requests s) (rs_errors s).

Definition rs_RequestVote (req : option RequestVoteRequest) s : RaftService S * result RequestVoteResponse :=
  observeRPC rpcMethodRequestVote
    match req with
    | None => (s, Err (Msg "request vote request is required"))
    | Some req =>
        let '(n, reply) := RequestVote (mkRequestVoteArgs (rvq_Term req) (rvq_CandidateId req)
                             (rvq_LastLogIndex req) (rvq_LastLogTerm req)) (rs_node s) in
        (set_rs_node n s, Ok (mkRequestVoteResponse (rvr_Term reply) (rvr_VoterID reply) (rvr_VoteGranted reply)))
    end.

(** The loop of [AppendEntries] that copies the entries. *)
Fixpoint copyEntries (es : list (option pb_LogEntry)) : result (list LogEntry) :=
  match es with
  | [] => Ok []
  | None :: _ => Err (Msg "append entries contains nil log entry")
  | Some e :: es => rest ← copyEntries es; Ok (mkLogEntry (pe_Index e) (pe_Term e) (pe_Data e) :: rest)
  end.

Definition rs_AppendEntries (req : option AppendEntriesRequest) s : RaftService S * result AppendEntriesResponse :=
  observeRPC rpcMethodAppendEntries
    match req with
    | None => (s, Err (Msg "append entries request is required"))
    | Some req =>
        match copyEntries (aeq_Entries req) with
        | Err e => (s, Err e)
        | Ok entries =>
            let '(n, reply) := AppendEntries (mkAppendEntriesArgs (aeq_Term req) (aeq_LeaderId req)
                                 (aeq_PrevLogIndex req) (aeq_PrevLogTerm req) entries (aeq_LeaderCommit req))
                                 (rs_node s) in
            (set_rs_node n s, Ok (mkAppendEntriesResponse (aer_Term reply) (aer_FollowerID reply) (aer_Success reply)))
        end
    end.

Definition rs_InstallSnapshot (req : option InstallSnapshotRequest) s
    : RaftService S * result InstallSnapshotResponse :=
  observeRPC rpcMethodInstallSnapshot
    match req with
    | None => (s, Err (Msg "install snapshot request is required"))
    | Some req =>
        let '(n, reply) := InstallSnapshot (mkInstallSnapshotArgs (isq_Term req) (isq_LeaderId req)
                             (isq_LastIncludedIndex req) (isq_LastIncludedTerm req) (isq_Data req)) (rs_node s) in
        (set_rs_node n s, Ok (mkInstallSnapshotResponse (isr_Term reply) (isr_FollowerID reply) (isr_Success reply)))
    end.

Definition rs_PreVote (req : option PreVoteRequest) s : RaftService S * result PreVoteResponse :=
  observeRPC rpcMethodPreVote
    match req with
    | None => (s, Err (Msg "pre vote request is required"))
    | Some req =>
        let reply := PreVote (mkPreVoteArgs (pvq_Term req) (pvq_CandidateId req)
                       (pvq_LastLogIndex req) (pvq_LastLogTerm req)) (rs_node s) in
        (s, Ok (mkPreVoteResponse (pvr_Term reply) (pvr_VoterID reply) (pvr_VoteGranted reply)))
    end.

End Service.

(** What travels over a connection, and the dispatch of the generated code
    ([raftiq_grpc.pb.go]) to the methods of the service. *)
Inductive RaftRequest :=
| Req_RequestVote (req : RequestVoteRequest)
| Req_PreVote (req : PreVoteRequest)
| Req_AppendEntries (req : AppendEntriesRequest)
| Req_InstallSnapshot (req : InstallSnapshotRequest).
Inductive RaftResponse :=
| Res_RequestVote (res : RequestVoteResponse)
| Res_PreVote (res : PreVoteResponse)
| Res_AppendEntries (res : AppendEntriesResponse)
| Res_InstallSnapshot (res : InstallSnapshotResponse).

(** The messages that are carried, by their strings and encoded sizes. *)
Definition size_LogEntry (e : option pb_LogEntry) : N :=
  match e with None => 0 | Some e => size_uint (pe_Index e) + size_uint (pe_Term e) + size_bytes (pe_Data e) end%N.
Definition size_vote (term : N) (candidate : string) (lastIndex lastTerm : N) : N :=
  (size_uint term + size_string candidate + size_uint lastIndex + size_uint lastTerm)%N.
Definition carried_request (req : RaftRequest) : bool :=
  match req with
  | Req_RequestVote q =>
      sendable_message [rvq_CandidateId q] (size_vote (rvq_Term q) (rvq_CandidateId q) (rvq_LastLogIndex q) (rvq_LastLogTerm q))
  | Req_PreVote q =>
      sendable_message [pvq_CandidateId q] (size_vote (pvq_Term q) (pvq_CandidateId q) (pvq_LastLogIndex q) (pvq_LastLogTerm q))
  | Req_AppendEntries q =>
      sendable_message [aeq_LeaderId q]
        (size_uint (aeq_Term q) + size_string (aeq_LeaderId q) + size_uint (aeq_PrevLogIndex q) +
         size_uint (aeq_PrevLogTerm q) + size_repeated size_LogEntry (aeq_Entries q) + size_uint (aeq_LeaderCommit q))
  | Req_InstallSnapshot q =>
      sendable_message [isq_LeaderId q]
        (size_uint (isq_Term q) + size_string (isq_LeaderId q) + size_uint (isq_LastIncludedIndex q) +
         size_uint (isq_LastIncludedTerm q) + size_bytes (isq_Data q))
  end%N.
Definition carried_reply (term : N) (node : string) (flag : bool) : bool :=
  sendable_message [node] (size_uint term + size_string node + size_bool flag)%N.
Definition carried_response (res : RaftResponse) : bool :=
  match res with
  | Res_RequestVote r => carried_reply (rvs_Term r) (rvs_VoterId r) (rvs_VoteGranted r)
  | Res_PreVote r => carried_reply (pvs_Term r) (pvs_VoterId r) (pvs_VoteGranted r)
  | Res_AppendEntries r => carried_reply (aes_Term r) (aes_FollowerId r) (aes_Success r)
  | Res_InstallSnapshot r => carried_reply (iss_Term r) (iss_FollowerId r) (iss_Success r)
  end.

Definition lift_response {S A} (f : A -> RaftResponse) (r : RaftService S * result A)
    : RaftService S * result RaftResponse :=
  (fst r, match snd r with Ok a => Ok (f a) | Err e => Err e end).

Definition serve {S} `{Storage S} (req : RaftRequest) (s : RaftService S) : RaftService S * result RaftResponse :=
  match req with
  | Req_RequestVote q => lift_response Res_RequestVote (rs_RequestVote (Some q) s)
  | Req_PreVote q => lift_response Res_PreVote (rs_PreVote (Some q) s)
  | Req_AppendEntries q => lift_response Res_AppendEntries (rs_AppendEntries (Some q) s)
  | Req_InstallSnapshot q => lift_response Res_InstallSnapshot (rs_InstallSnapshot (Some q) s)
  end.

(** ** The calling side *)

Definition ErrGRPCTransportClosed : error := Sentinel "gRPC raft transport is closed".
Definition ErrGRPCPeerNotFound : error := Sentinel "gRPC raft peer not found".

(** The connection of a peer and the client on it are one value; [conns] and [peers]
    are the two maps of the source. *)
Record GRPCTransport {Conn KeyPair Pool : Type} := mkGRPCTransport {
  gt_peers : gmap NodeID Conn;
  gt_conns : gmap NodeID Conn;
  gt_closed : bool;
  gt_tls : option (tls_Config KeyPair Pool);
}.
Global Arguments GRPCTransport : clear implicits.
Global Arguments mkGRPCTransport {Conn KeyPair Pool}.

(** A context: nil, still open, or done with an error. *)
Inductive Ctx := ctx_nil | ctx_open | ctx_done (e : error).

Definition contextError (ctx : Ctx) : option error :=
  match ctx with
  | ctx_nil => Some (Msg "transport context is nil")
  | ctx_open => None
  | ctx_done e => Some e
  end.

Section GRPCTransport.
Context {Conn KeyPair Pool : Type}.
Context (NewClient : string -> tls_Config KeyPair Pool -> result Conn).
Context (CloseConn : Conn -> option error).
Notation GT := (GRPCTransport Conn KeyPair Pool).
Implicit Types t : GT.

Definition NewGRPCTransport : GT := mkGRPCTransport ∅ ∅ false None.

Definition SetTLSConfig (config : option (tls_Config KeyPair Pool)) t : GT * option error :=
  match config with
  | None => (t, Some (Msg "TLS config is required"))
  | Some config =>
      if gt_closed t then (t, Some ErrGRPCTransportClosed)
      else (mkGRPCTransport (gt_peers t) (gt_conns t) (gt_closed t) (Some config), None)
  end.

(** The second component holds the connection that [grpc.NewClient] returned, if it was
    called and returned one. *)
Definition gt_AddPeer (i : NodeID) (address : string) t : GT * list Conn * option error :=
  if bool_decide (i = "") then (t, [], Some (Msg "raft peer ID is required"))
  else if bool_decide (address = "") then (t, [], Some (Msg "raft peer address is required"))
  else if gt_closed t then (t, [], Some ErrGRPCTransportClosed)
  else
    match gt_peers t !! i with
    | Some _ => (t, [], Some (Msg "raft peer already registered"))
    | None =>
        match gt_tls t with
        | None => (t, [], Some (Msg "TLS config is not configured"))
        | Some tls =>
            match NewClient address (with_ServerName (peerServerName i) tls) with
            | Err e => (t, [], Some (Wrap "create gRPC connection to peer" e))
            | Ok conn =>
                (mkGRPCTransport (<[i := conn]> (gt_peers t)) (<[i := conn]> (gt_conns t)) (gt_closed t) (gt_tls t), [conn], None)
            end
        end
    end.

(** The second component is the connection that is closed; an error of closing it
    is only logged. *)
Definition RemovePeer (i : NodeID) t : GT * option Conn :=
  (mkGRPCTransport (delete i (gt_peers t)) (delete i (gt_conns t)) (gt_closed t) (gt_tls t), gt_conns t !! i).

(** The connections that are closed, and the errors that are joined. *)
Definition gt_Close t : GT * list Conn * list error :=
  if gt_closed t then (t, [], [])
  else
    let conns := map snd (map_to_list (gt_conns t)) in
    (mkGRPCTransport ∅ ∅ true (gt_tls t), conns, omap CloseConn conns).

Definition gt_peer (target : NodeID) t : result Conn :=
  if gt_closed t then Err ErrGRPCTransportClosed
  else
    match gt_peers t !! target with
    | None => Err (Wrap "gRPC raft peer not found" ErrGRPCPeerNotFound)
    | Some peer => Ok peer
    end.

(** *** The calls *)

Context {W : Type} (Invoke : W -> Conn -> RaftRequest -> W * result RaftResponse).

(** A method of the generated client: the response of its own type. *)
Definition client_call {A} (pick : RaftResponse -> option A) (w : W) (conn : Conn) (req : RaftRequest) : W * result A :=
  match Invoke w conn req with
  | (w, Err e) => (w, Err e)
  | (w, Ok res) => (w, match pick res with Some a => Ok a | None => Err (Msg "unexpected response type") end)
  end.

(** The shape shared by the four methods: the context, the peer, the call, and the
    conversion of the response. *)
Definition gt_call {A B} (ctx : Ctx) (text : string) (pick : RaftResponse -> option A) (convert : A -> B)
    (target : NodeID) (req : RaftRequest) (tw : GT * W) : (GT * W) * result B :=
  let '(t, w) := tw in
  match contextError ctx with
  | Some e => ((t, w), Err e)
  | None =>
      match gt_peer target t with
      | Err e => ((t, w), Err e)
      | Ok peer =>
          match client_call pick w peer req with
          | (w, Err e) => ((t, w), Err (Wrap text e))
          | (w, Ok reply) => ((t, w), Ok (convert reply))
          end
      end
  end.

(** The messages of the four calls. *)
Definition pb_RequestVote (args : RequestVoteArgs) : RaftRequest :=
  Req_RequestVote (mkRequestVoteRequest (rv_Term args) (rv_CandidateID args) (rv_LastLogIndex args) (rv_LastLogTerm args)).
Definition pb_PreVote (args : PreVoteArgs) : RaftRequest :=
  Req_PreVote (mkPreVoteRequest (pv_Term args) (pv_CandidateID args) (pv_LastLogIndex args) (pv_LastLogTerm args)).
Definition pb_AppendEntries (args : AppendEntriesArgs) : RaftRequest :=
  Req_AppendEntries (mkAppendEntriesRequest (ae_Term args) (ae_LeaderID args) (ae_PrevLogIndex args) (ae_PrevLogTerm args)
    (map (fun entry => Some (mkPbLogEntry (le_Index entry) (le_Term entry) (le_Data entry))) (ae_Entries args))
    (ae_LeaderCommit args)).
Definition pb_InstallSnapshot (args : InstallSnapshotArgs) : RaftRequest :=
  Req_InstallSnapshot (mkInstallSnapshotRequest (is_Term args) (is_LeaderID args) (is_LastIncludedIndex args)
    (is_LastIncludedTerm args) (is_Data args)).

Definition gt_RequestVote (ctx : Ctx) (tw : GT * W) (target : NodeID) (args : RequestVoteArgs) :=
  gt_call ctx "request vote from peer" (fun r => match r with Res_RequestVote a => Some a | _ => None end)
    (fun reply => mkRequestVoteReply (rvs_Term reply) (rvs_VoterId reply) (rvs_VoteGranted reply)) target
    (pb_RequestVote args) tw.

Definition gt_PreVote (ctx : Ctx) (tw : GT * W) (target : NodeID) (args : PreVoteArgs) :=
  gt_call ctx "pre-vote from peer" (fun r => match r with Res_PreVote a => Some a | _ => None end)
    (fun reply => mkPreVoteReply (pvs_Term reply) (pvs_VoterId reply) (pvs_VoteGranted reply)) target
    (pb_PreVote args) tw.

Definition gt_AppendEntries (ctx : Ctx) (tw : GT * W) (target : NodeID) (args : AppendEntriesArgs) :=
  gt_call ctx "append entries to peer" (fun r => match r with Res_AppendEntries a => Some a | _ => None end)
    (fun reply => mkAppendEntriesReply (aes_Term reply) (aes_FollowerId reply) (aes_Success reply)) target
    (pb_AppendEntries args) tw.

Definition gt_InstallSnapshot (ctx : Ctx) (tw : GT * W) (target : NodeID) (args : InstallSnapshotArgs) :=
  gt_call ctx "install snapshot on peer" (fun r => match r with Res_InstallSnapshot a => Some a | _ => None end)
    (fun reply => mkInstallSnapshotReply (iss_Term reply) (iss_FollowerId reply) (iss_Success reply)) target
    (pb_InstallSnapshot args) tw.

(** The transport a node is given; its contexts are open when a call starts. *)
Definition grpc_transport : Transport (GT * W) :=
  mkTransport _ (gt_RequestVote ctx_open) (gt_PreVote ctx_open) (gt_AppendEntries ctx_open) (gt_InstallSnapshot ctx_open).

End GRPCTransport.

(** ** The connections *)

Section Connections.
Context {Conn KeyPair Pool : Type}.
Context (NewClient : string -> tls_Config KeyPair Pool -> result Conn).
Context (CloseConn : Conn -> option error).
Notation GT := (GRPCTransport Conn KeyPair Pool).
Implicit Types t : GT.

Inductive gt_op :=
| op_SetTLS (config : option (tls_Config KeyPair Pool))
| op_AddPeer (i : NodeID) (address : string)
| op_RemovePeer (i : NodeID)
| op_Close.

(** One operation, with the connections it creates and closes. *)
Definition gt_step (op : gt_op) t : GT * list Conn * list Conn :=
  match op with
  | op_SetTLS config => (fst (SetTLSConfig config t), [], [])
  | op_AddPeer i address =>
      let '(t', created, _) := gt_AddPeer NewClient i address t in (t', created, [])
  | op_RemovePeer i => let '(t', c) := RemovePeer i t in (t', [], option_list c)
  | op_Close => let '(t', cs, _) := gt_Close CloseConn t in (t', [], cs)
  end.

Fixpoint gt_run (ops : list gt_op) t : GT * list Conn * list Conn :=
  match ops with
  | [] => (t, [], [])
  | op :: ops =>
      let '(t1, created, closed) := gt_step op t in
      let '(t2, created', closed') := gt_run ops t1 in
      (t2, created ++ created', closed ++ closed')
  end.

(** The two maps agree, and a closed transport has no peers. *)
Definition gt_ok t : Prop := gt_peers t = gt_conns t /\ (gt_closed t = true -> gt_conns t = ∅).

Definition open_conns t : list Conn := map snd (map_to_list (gt_conns t)).

Lemma gt_step_ok op t t' created closed :
  gt_ok t -> gt_step op t = (t', created, closed) ->
  gt_ok t' /\ open_conns t ++ created ≡ₚ open_conns t' ++ closed /\ 
  (gt_closed t = true -> gt_closed t' = true /\ created = [] /\ closed = []).
Proof.
  intros [Hp Hc] E. unfold open_conns. destruct op as [config|i address|i|]; cbn in E.
  - unfold SetTLSConfig in E. destruct config as [c|]; [destruct (gt_closed t) eqn:Ec|]; simplify_eq/=; unfold gt_ok; naive_solver.
  - assert (t' = t /\ created = [] /\ closed = [] -> gt_ok t' /\ map snd (map_to_list (gt_conns t)) ++ created ≡ₚ
      map snd (map_to_list (gt_conns t')) ++ closed /\
      (gt_closed t = true -> gt_closed t' = true /\ created = [] /\ closed = [])) as Hsame
      by (intros (-> & -> & ->); unfold gt_ok; naive_solver).
    unfold gt_AddPeer in E. do 2 (case_bool_decide; [apply Hsame; by simplify_eq/=|]).
    destruct (gt_closed t) eqn:Ec; [apply Hsame; by simplify_eq/=|].
    destruct (gt_peers t !! i) eqn:Ei; [apply Hsame; by simplify_eq/=|].
    destruct (gt_tls t); [|apply Hsame; by simplify_eq/=].
    destruct (NewClient _ _) as [c|]; [|apply Hsame; by simplify_eq/=]. clear Hsame.
    simplify_eq/=. rewrite Hp in Ei. split; [unfold gt_ok; cbn; by rewrite Hp|].
    split; [|done]. rewrite map_to_list_insert by done. rewrite app_nil_r. cbn. by rewrite <- Permutation_cons_append.
  - unfold RemovePeer in E. simplify_eq/=. split.
    { unfold gt_ok. cbn. rewrite Hp. split; [done|]. intros Hcl. rewrite Hc by done. apply delete_empty. }
    split; [|intros Hcl; by rewrite Hc by done]. rewrite app_nil_r. destruct (gt_conns t !! i) as [c|] eqn:Ei; cbn.
    + rewrite <- (map_to_list_delete (gt_conns t) i c) by done. cbn. by rewrite <- Permutation_cons_append.
    + by rewrite delete_id, app_nil_r by done.
  - unfold gt_Close in E. destruct (gt_closed t) eqn:Ec; simplify_eq/=; [by unfold gt_ok; naive_solver|].
    split; [done|]. split; [by rewrite map_to_list_empty, app_nil_r|done].
Qed.

Lemma gt_run_ok ops t t' created closed :
  gt_ok t -> gt_run ops t = (t', created, closed) ->
  gt_ok t' /\ open_conns t ++ created ≡ₚ open_conns t' ++ closed /\ 
  (gt_closed t = true -> gt_closed t' = true /\ created = [] /\ closed = []).
Proof.
  revert t created closed. induction ops as [|op ops IH]; intros t created closed Hok E; cbn in E.
  { by simplify_eq. }
  destruct (gt_step op t) as [[t1 cr1] cl1] eqn:E1. destruct (gt_run ops t1) as [[t2 cr2] cl2] eqn:E2.
  simplify_eq. apply gt_step_ok in E1 as (Hok1 & HP1 & Hc1); [|done].
  apply IH in E2 as (Hok2 & HP2 & Hc2); [|done]. split; [done|]. split.
  2: { intros (Hcl & -> & ->)%Hc1. by destruct (Hc2 Hcl) as (? & -> & ->). }
  rewrite app_assoc, HP1. rewrite (Permutation_app_comm cl1 cl2), app_assoc, <- HP2.
  rewrite <- !app_assoc. f_equiv. apply Permutation_app_comm.
Qed.

(** C36: the connections of a gRPC transport are accounted for.  Whatever operations
    run, in any order: the client map and the connection map stay the same map, every
    connection ever created is either still open under some peer or has been closed,
    once; and after [Close] none is open and no operation opens one again. *)
Theorem grpc_connections_accounted ops t created closed :
  gt_run ops NewGRPCTransport = (t, created, closed) ->
  gt_peers t = gt_conns t /\ created ≡ₚ open_conns t ++ closed /\
  (gt_closed t = true -> created ≡ₚ closed /\
     forall ops', let '(t', created', closed') := gt_run ops' t in created' = [] /\ closed' = [] /\ gt_conns t' = ∅).
Proof.
  intros E. pose proof E as E'. apply gt_run_ok in E' as ([Hp Hc] & HP & _); [|done].
  change (open_conns NewGRPCTransport) with (@nil Conn) in HP. cbn in HP. split; [done|]. split; [done|].
  intros Hcl. assert (open_conns t = []) as Ho by (unfold open_conns; by rewrite Hc, map_to_list_empty).
  rewrite Ho in HP. split; [done|]. intros ops'. clear E HP.
  destruct (gt_run ops' t) as [[t' cr'] cl'] eqn:E'. apply gt_run_ok in E' as ([_ Hc'] & HP & Hmono); [|done].
  destruct (Hmono Hcl) as (Hcl' & -> & ->). auto.
Qed.

End Connections.

(** ** gRPC behaves as the in-process transport *)

Section Network.
Context {S : Type} `{Storage S} {Conn KeyPair Pool W : Type} `{EqDecision Conn}.
Context (Invoke : W -> Conn -> RaftRequest -> W * result RaftResponse).
Notation GT := (GRPCTransport Conn KeyPair Pool).
Implicit Types t : GT.
Implicit Types l : LocalTransport S.

(** What is relied on of gRPC: a unary call with a message that is carried, over a connection
    that is [up], runs the service at the other end once, on the message that was sent; its
    response comes back when it is carried, unless the deadline passes first ([slow]).  Any
    other call is an error and reaches no service. *)
Class NetworkLaws (service : W -> Conn -> option (RaftService S)) (up slow : Conn -> bool) : Prop := {
  invoke_unreachable w c req :
    (if up c && carried_request req then service w c else None) = None ->
    exists w' e, Invoke w c req = (w', Err e) /\ forall c', service w' c' = service w c';
  invoke_reaches w c req sv :
    (if up c && carried_request req then service w c else None) = Some sv ->
    exists w' r, Invoke w c req = (w', r) /\
      (forall c', service w' c' = if decide (c' = c) then Some (fst (serve req sv)) else service w c') /\
      match snd (serve req sv) with
      | Err _ => exists e, r = Err e
      | Ok res => if slow c || negb (carried_response res) then exists e, r = Err e else r = Ok res
      end;
}.

Context (service : W -> Conn -> option (RaftService S)) (up slow : Conn -> bool).
Context `{!NetworkLaws service up slow}.

(** The node a call to [p] reaches. *)
Definition reach (tw : GT * W) (p : NodeID) : option (RaftNode S) :=
  match gt_peers (fst tw) !! p with
  | None => None
  | Some c => if up c then rs_node <$> service (snd tw) c else None
  end.
Definition lt_reach (self : NodeID) l (p : NodeID) : option (RaftNode S) :=
  if bool_decide ((self, p) ∈ lt_blocked l) then None else lt_peers l !! p.

(** The network of node [self] and an in-process network with the same nodes in
    reach, links that are down being blocked. *)
Record connected (self : NodeID) (late : NodeID -> NodeID -> bool) (tw : GT * W) l : Prop := {
  cn_closed : gt_closed (fst tw) = lt_closed l;
  cn_inj p q c : gt_peers (fst tw) !! p = Some c -> gt_peers (fst tw) !! q = Some c -> p = q;
  cn_late p c : gt_peers (fst tw) !! p = Some c -> late self p = slow c;
  cn_reach p : reach tw p = lt_reach self l p;
}.

(** A transport that refuses the messages gRPC does not carry: a request before the handler
    of the target runs, a reply after it. *)
Definition limited_call {V A} (req : RaftRequest) (response : A -> RaftResponse) (call : V * result A) (v : V) : V * result A :=
  if carried_request req then
    match call with
    | (v, Ok reply) => (v, if carried_response (response reply) then Ok reply else Err (Msg "message too large or not UTF-8"))
    | (v, Err e) => (v, Err e)
    end
  else (v, Err (Msg "message too large or not UTF-8")).
Definition vote_response (r : RequestVoteReply) : RaftResponse :=
  Res_RequestVote (mkRequestVoteResponse (rvr_Term r) (rvr_VoterID r) (rvr_VoteGranted r)).
Definition prevote_response (r : PreVoteReply) : RaftResponse :=
  Res_PreVote (mkPreVoteResponse (pvr_Term r) (pvr_VoterID r) (pvr_VoteGranted r)).
Definition append_response (r : AppendEntriesReply) : RaftResponse :=
  Res_AppendEntries (mkAppendEntriesResponse (aer_Term r) (aer_FollowerID r) (aer_Success r)).
Definition install_response (r : InstallSnapshotReply) : RaftResponse :=
  Res_InstallSnapshot (mkInstallSnapshotResponse (isr_Term r) (isr_FollowerID r) (isr_Success r)).
Definition limited {V} (T : Transport V) : Transport V :=
  mkTransport V
    (fun v p args => limited_call (pb_RequestVote args) vote_response (tr_RequestVote T v p args) v)
    (fun v p args => limited_call (pb_PreVote args) prevote_response (tr_PreVote T v p args) v)
    (fun v p args => limited_call (pb_AppendEntries args) append_response (tr_AppendEntries T v p args) v)
    (fun v p args => limited_call (pb_InstallSnapshot args) install_response (tr_InstallSnapshot T v p args) v).

(** Nothing changes for messages within the limits. *)
Lemma limited_carries {V A} req (response : A -> RaftResponse) (call : V * result A) v :
  carried_request req = true -> (forall reply, snd call = Ok reply -> carried_response (response reply) = true) ->
  limited_call req response call v = call.
Proof.
  unfold limited_call. intros -> Hr. destruct call as [v' [reply|e]]; [|done]. by rewrite (Hr reply eq_refl).
Qed.

(** The service answers [req] with what [handle] does on its node. *)
Definition answers {A B} (req : RaftRequest) (pick : RaftResponse -> option A) (convert : A -> B) (response : B -> RaftResponse)
    (handle : RaftNode S -> RaftNode S * B) : Prop :=
  forall sv, exists res a, snd (serve req sv) = Ok res /\ pick res = Some a /\
    convert a = snd (handle (rs_node sv)) /\ response (convert a) = res /\
    rs_node (fst (serve req sv)) = fst (handle (rs_node sv)).

Lemma gt_call_same {A B} self late text (pick : RaftResponse -> option A) (convert : A -> B) response p req handle tw l :
  answers req pick convert response handle -> connected self late tw l ->
  same_call (connected self late) (gt_call Invoke ctx_open text pick convert p req tw)
    (limited_call req response (lt_call late self p handle l) l).
Proof.
  intros Hans Hcon. destruct tw as [t w]. pose proof Hcon as [Hcl Hinj Hlate Hreach]. cbn in Hcl, Hinj, Hlate, Hreach.
  unfold limited_call, gt_call, lt_call, gt_peer, lt_peer, checkBlocked. cbn [contextError]. rewrite Hcl.
  destruct (lt_closed l) eqn:Ecl; [by destruct (carried_request req)|].
  pose proof (Hreach p) as Hp. unfold reach, lt_reach in Hp. cbn in Hp.
  destruct (gt_peers t !! p) as [c|] eqn:Ec.
  2: { destruct (carried_request req); [|by split]. destruct (bool_decide _); [by split|]. rewrite <- Hp. by split. }
  destruct (if up c && carried_request req then service w c else None) as [sv|] eqn:Esv.
  - pose proof Esv as Esv'. destruct (up c) eqn:Eup, (carried_request req) eqn:Ecar; try done. cbn in Esv'. rewrite Esv' in Hp. cbn in Hp.
    destruct (bool_decide _) eqn:Eb; [done|]. rewrite <- Hp.
    destruct (invoke_reaches w c req sv) as (w' & r & Ei & Hs & Hr); [by rewrite Eup, Ecar|]. unfold client_call. rewrite Ei.
    destruct (Hans sv) as (res & a & Hres & Hpick & Hconv & Hresp & Hnode).
    destruct (handle (rs_node sv)) as [n' b] eqn:Eh. cbn in Hconv, Hnode.
    assert (connected self late (t, w') (mkLocalTransport (<[p := n']> (lt_peers l)) (lt_blocked l) false)) as HR.
    { split; cbn; [congruence|exact Hinj|exact Hlate|]. intros q. unfold reach, lt_reach. cbn.
      destruct (decide (q = p)) as [->|Hqp].
      - rewrite Ec, Eb, Hs, decide_True by done. rewrite lookup_insert_eq, Eup. cbn. by rewrite Hnode.
      - rewrite lookup_insert_ne by done. specialize (Hreach q). unfold reach, lt_reach in Hreach. cbn in Hreach.
        rewrite <- Hreach. destruct (gt_peers t !! q) as [c'|] eqn:Ec'; [|done]. rewrite Hs.
        destruct (decide (c' = c)) as [->|]; [|done]. by destruct Hqp; eapply Hinj. }
    rewrite (Hlate p c Ec). rewrite Hres in Hr. subst b. rewrite <- Hresp in Hr.
    destruct (slow c); cbn [orb] in Hr; [destruct Hr as [e ->]; by split|].
    destruct (carried_response _); cbn [negb] in Hr; [subst r; rewrite Hresp, Hpick; by split|destruct Hr as [e ->]; by split].
  - destruct (invoke_unreachable w c req Esv) as (w' & e & Ei & Hs). unfold client_call. rewrite Ei.
    assert (connected self late (t, w') l) as HR.
    { split; cbn; [congruence|exact Hinj|exact Hlate|]. intros q. rewrite <- Hreach. unfold reach. cbn.
      destruct (gt_peers t !! q) as [c'|]; [|done]. by rewrite Hs. }
    destruct (carried_request req); [|by split]. rewrite andb_true_r in Esv.
    assert (lt_reach self l p = None) as Hp' by (unfold lt_reach; rewrite <- Hp; destruct (up c); [by rewrite Esv|done]).
    unfold lt_reach in Hp'. destruct (bool_decide _); [by split|]. rewrite Hp'. by split.
Qed.

Lemma copyEntries_map es :
  copyEntries (map (fun entry => Some (mkPbLogEntry (le_Index entry) (le_Term entry) (le_Data entry))) es) = Ok es.
Proof. induction es as [|[i t d] es IH]; cbn; [done|]. by rewrite IH. Qed.

Lemma grpc_calls_agree self late :
  calls_agree (grpc_transport Invoke) (limited (local_transport late)) (connected self late) self.
Proof.
  split; intros tw l p args <- HR; cbn [tr_RequestVote tr_PreVote tr_AppendEntries tr_InstallSnapshot grpc_transport limited local_transport].
  - apply gt_call_same; [|done]. intros sv. unfold serve, rs_RequestVote, observeRPC, lift_response. cbn.
    destruct args. cbn. destruct (RequestVote _ _) as [n' [t v g]]. eauto 12.
  - apply gt_call_same; [|done]. intros sv. unfold serve, rs_PreVote, observeRPC, lift_response. cbn.
    destruct args. cbn. destruct (PreVote _ _) as [t v g]. eauto 12.
  - apply gt_call_same; [|done]. intros sv. unfold serve, rs_AppendEntries, observeRPC, lift_response. cbn.
    rewrite copyEntries_map. destruct args. cbn. destruct (AppendEntries _ _) as [n' [t v g]]. eauto 12.
  - apply gt_call_same; [|done]. intros sv. unfold serve, rs_InstallSnapshot, observeRPC, lift_response. cbn.
    destruct args. cbn. destruct (InstallSnapshot _ _) as [n' [t v g]]. eauto 12.
Qed.

(** C15: over gRPC a node behaves as over the in-process transport, restricted to the messages
    gRPC carries: a request or a reply over 4 MB, or with a node ID that is not UTF-8, is an
    error.  The messages and their conversions lose nothing else: from related networks, an
    election, a proposal, a round of heartbeats, a read and a membership change leave the node
    in the same state with the same result, and the networks related, peers included, with
    partitions, closed transports and lost replies.  A call whose messages are within the
    limits is the same on the restricted transport and on the plain one. *)
Theorem grpc_refines_in_process late n tw l :
  connected (id n) late tw l ->
  let G := grpc_transport Invoke in
  let L := limited (local_transport late) in
  let R := connected (id n) late in
  (R (fst (runElection G tw n)) (fst (runElection L l n)) /\ snd (runElection G tw n) = snd (runElection L l n)) /\
  (forall fuel data, same_op R (id n) (Propose G fuel data tw n) (Propose L fuel data l n)) /\
  (forall fuel, same_run R (heartbeat G fuel tw n) (heartbeat L fuel l n)) /\
  (R (fst (fst (ReadIndex G tw n))) (fst (fst (ReadIndex L l n))) /\
   snd (fst (ReadIndex G tw n)) = snd (fst (ReadIndex L l n)) /\ snd (ReadIndex G tw n) = snd (ReadIndex L l n)) /\
  (forall fuel rounds c, same_op R (id n) (runChange G fuel rounds c tw n) (runChange L fuel rounds c l n)).
Proof.
  intros HR G L R. pose proof (grpc_calls_agree (id n) late) as Ha.
  split; [by apply runElection_same|]. split; [intros fuel data; by apply Propose_same|].
  split; [intros fuel; by apply heartbeat_same|]. split; [by apply ReadIndex_same|].
  intros fuel rounds c. by apply runChange_same.
Qed.

(** A snapshot of more than 4 MB does not reach a peer over gRPC. *)
Lemma large_snapshot_refused late l p args :
  (maxReceiveMessageSize < N.of_nat (length (is_Data args)))%N ->
  exists e, tr_InstallSnapshot (limited (local_transport late)) l p args = (l, Err e).
Proof.
  intros Hd. cbn -[carried_request]. unfold limited_call. destruct (carried_request _) eqn:E; [|by eexists].
  apply sendable_message_size in E. cbn [isq_Data] in E. pose proof (size_bytes_ge (is_Data args)). lia.
Qed.

(** A Raft RPC is counted once, and as an error exactly when it fails, which is
    when the request is missing or an entry of it is; the node is then untouched. *)
Lemma raft_rpc_accounting req (s s' : RaftService S) r :
  rs_AppendEntries req s = (s', r) ->
  rs_requests s' = inc rpcMethodAppendEntries (rs_requests s) /\
  match r with
  | Ok _ => rs_errors s' = rs_errors s /\ exists q es, req = Some q /\ aeq_Entries q = map Some es
  | Err _ => rs_errors s' = inc rpcMethodAppendEntries (rs_errors s) /\ rs_node s' = rs_node s /\
      match req with None => True | Some q => None ∈ aeq_Entries q end
  end.
Proof.
  assert (forall es, match copyEntries es with Ok _ => exists ps, es = map Some ps | Err _ => None ∈ es end) as Hcopy.
  { induction es as [|[e|] es IH]; cbn; [by exists []| |by left].
    destruct (copyEntries es); cbn; [destruct IH as [ps ->]; by exists (e :: ps)|by right]. }
  unfold rs_AppendEntries, observeRPC. destruct req as [q|]; [|by intros [= <- <-]].
  specialize (Hcopy (aeq_Entries q)). destruct (copyEntries (aeq_Entries q)) as [es|]; [|by intros [= <- <-]].
  destruct (AppendEntries _ _) as [n' reply]. intros [= <- <-]. cbn. destruct Hcopy as [ps ?]. eauto 12.
Qed.

End Network.

(** ** Witnesses *)

(** A network whose connections are numbers: 1 leads to b, 2 to c, 3 is down. *)
Local Notation sample_network := (gmap N (RaftService MemoryStorage)).
Definition sample_up (c : N) : bool := negb (c =? 3)%N.
Definition sample_invoke (w : sample_network) (c : N) (req : RaftRequest) : sample_network * result RaftResponse :=
  match (if sample_up c && carried_request req then w !! c else None) with
  | None => (w, Err (Msg "unavailable"))
  | Some sv =>
      (<[c := fst (serve req sv)]> w,
       match snd (serve req sv) with
       | Ok res => if carried_response res then Ok res else Err (Msg "ResourceExhausted")
       | Err e => Err (Wrap "status" e)
       end)
  end.

#[local] Instance sample_network_laws :
  NetworkLaws sample_invoke (fun w c => w !! c) sample_up (fun _ => false).
Proof.
  split; intros w c req; unfold sample_invoke.
  - intros ->. eauto.
  - intros sv ->. eexists _, _. split; [done|]. split.
    + intros c'. cbv beta. destruct (decide (c' = c)) as [->|]; [by rewrite lookup_insert_eq|by rewrite lookup_insert_ne].
    + destruct (snd (serve req sv)) as [res|e]; [|by eexists]. cbn. destruct (carried_response res); cbn; eauto.
Qed.

Definition sample_grpc : GRPCTransport N string string :=
  mkGRPCTransport {["b" := 1%N; "c" := 2%N; "d" := 3%N]} {["b" := 1%N; "c" := 2%N; "d" := 3%N]} false None.
Definition sample_servers : sample_network :=
  {[1%N := mkRaftService (follower_of "b" ["a"; "c"]) ∅ ∅; 2%N := mkRaftService (follower_of "c" ["a"; "b"]) ∅ ∅]}.

Lemma grpc_refines_in_process_witness :
  connected (fun w c => w !! c) sample_up (fun _ => false) "a" prompt (sample_grpc, sample_servers) three_nodes /\
  snd (runElection (grpc_transport sample_invoke) (sample_grpc, sample_servers) (follower_of "a" ["b"; "c"])) =
  snd (runElection (limited (local_transport prompt)) three_nodes (follower_of "a" ["b"; "c"])).
Proof.
  assert (connected (fun w c => w !! c) sample_up (fun _ => false) "a" prompt (sample_grpc, sample_servers) three_nodes) as HR.
  { split; [done| |done|].
    - intros p q c Hp%elem_of_map_to_list Hq%elem_of_map_to_list. vm_compute in Hp, Hq. set_solver.
    - intros p. destruct (decide (p = "b")) as [->|]; [reflexivity|]. destruct (decide (p = "c")) as [->|]; [reflexivity|].
      destruct (decide (p = "d")) as [->|]; [reflexivity|].
      assert (gt_peers sample_grpc !! p = None) as Hp by (apply not_elem_of_dom; set_solver).
      assert (lt_peers three_nodes !! p = None) as Hq by (apply not_elem_of_dom; set_solver).
      unfold reach, lt_reach. cbn [fst]. rewrite Hp, Hq. by destruct (bool_decide _). }
  split; [exact HR|].
  exact (proj2 (proj1 (grpc_refines_in_process sample_invoke _ _ _ prompt (follower_of "a" ["b"; "c"]) _ _ HR))).
Defined.

Lemma grpc_connections_accounted_witness :
  exists t, gt_run (fun address _ => Ok (String.length address)) (fun _ : nat => None)
      [op_SetTLS (Some (mkTlsConfig 772 [tt] None (Some tt) RequireAndVerifyClientCert "" None));
       op_AddPeer "b" "b:1"; op_AddPeer "c" "c:22"; op_RemovePeer "b"; op_Close; op_AddPeer "d" "d:1"]
      NewGRPCTransport = (t, [3%nat; 4%nat], [3%nat; 4%nat]) /\ gt_peers t = gt_conns t.
Proof.
  eexists. split; [vm_compute; reflexivity|].
  refine (proj1 (grpc_connections_accounted (fun address _ => Ok (String.length address)) (fun _ : nat => None)
    [op_SetTLS (Some (mkTlsConfig 772 [tt] None (Some tt) RequireAndVerifyClientCert "" None));
     op_AddPeer "b" "b:1"; op_AddPeer "c" "c:22"; op_RemovePeer "b"; op_Close; op_AddPeer "d" "d:1"] _ _ _ _)).
  vm_compute. reflexivity.
Defined.
