(* ===== verification/Backend.v ===== *)
(** What the server, the scheduler and the worker use of the layers below them:
    [raft.Propose], [raft.ReadIndex], [raft.State], the applier's [WaitApplied] and
    [WaitResult], the shared store, and [time.Now].

    The clients are written against the class [Backend]; [BackendLaws] states
    what a serving leader promises them.  [NodeBackend] implements both with the
    node, the applier and a transport. *)

From S2P Require Import Prelude Model Lock KvStore KvSpec KvFacts KvApplier ConfigEntry Bytes JsonCodec JsonCommand.

(** ** Actions

    An action reads and updates the world [W] and returns a value; [None] stands
    for a call that does not return (a loop without end, a panic). *)

Definition Act (W A : Type) : Type := W -> option (W * A).

Definition act_ret {W A} (a : A) : Act W A := fun w => Some (w, a).
Definition act_bind {W A B} (m : Act W A) (f : A -> Act W B) : Act W B := fun w =>
  match m w with
  | None => None
  | Some (w, a) => f a w
  end.

(** [x, err := m; if err != nil { return err }]. *)
Definition try_bind {W A B} (m : Act W (result A)) (f : A -> Act W (result B)) : Act W (result B) :=
  act_bind m (fun r => match r with Ok a => f a | Err e => act_ret (Err e) end).

(** [fmt.Errorf("text: %w", err)] on the error of [m]. *)
Definition act_wrap {W A} (text : string) (m : Act W (result A)) : Act W (result A) :=
  act_bind m (fun r => act_ret (wrap_err text r)).

Notation "x <- m ;; k" := (act_bind m (fun x => k))
  (at level 100, m at next level, right associativity) : raftiq_scope.
Notation "x <-? m ;; k" := (try_bind m (fun x => k))
  (at level 100, m at next level, right associativity) : raftiq_scope.

Lemma act_bind_Some {W A B} (m : Act W A) (f : A -> Act W B) w w' a :
  m w = Some (w', a) -> act_bind m f w = f a w'.
Proof. unfold act_bind. by intros ->. Qed.

Lemma try_bind_Ok {W A B} (m : Act W (result A)) (f : A -> Act W (result B)) w w' a :
  m w = Some (w', Ok a) -> try_bind m f w = f a w'.
Proof. unfold try_bind, act_bind. by intros ->. Qed.

Lemma try_bind_Err {W A B} (m : Act W (result A)) (f : A -> Act W (result B)) w w' e :
  m w = Some (w', Err e) -> try_bind m f w = Some (w', Err e).
Proof. unfold try_bind, act_bind. by intros ->. Qed.

Lemma act_wrap_Ok {W A} t (m : Act W (result A)) w w' a :
  m w = Some (w', Ok a) -> act_wrap t m w = Some (w', Ok a).
Proof. unfold act_wrap, act_bind, act_ret. by intros ->. Qed.

Lemma act_wrap_Err {W A} t (m : Act W (result A)) w w' e :
  m w = Some (w', Err e) -> act_wrap t m w = Some (w', Err (Wrap t e)).
Proof. unfold act_wrap, act_bind, act_ret. by intros ->. Qed.

(** Running an action whose successful steps are in the context. *)
Ltac act_step :=
  first
    [ erewrite try_bind_Ok by (first [eassumption | apply act_wrap_Ok; eassumption])
    | erewrite act_bind_Some by eassumption ].

(** ** The interface *)

Class CommandCodec := {
  EncodeCommand : Command -> result bytes;
  DecodeCommand : bytes -> result Command;
}.

(** The command reaches the appliers as it was proposed: it is encoded, the
    decoder gives it back, and the bytes are not those of a configuration entry. *)
Definition transmitted `{CommandCodec} (c : Command) (data : bytes) : Prop :=
  EncodeCommand c = Ok data /\ DecodeCommand data = Ok c /\ IsConfigurationEntry data = false.

Class Backend (W : Type) := {
  be_role : W -> Role;
  be_store : W -> Store;
  be_Propose : bytes -> Act W (result LogIndex);
  be_WaitApplied : LogIndex -> Act W (result ());
  be_WaitResult : LogIndex -> Act W (result ApplyResult);
  be_ReadIndex : Act W (result LogIndex);
  be_now : Act W Z;
}.

(** Commands that stop the appliers. *)
Definition malformed (c : Command) : bool :=
  match cmd_Type c with
  | CommandUnknown _ => true
  | CommandLockAcquire => bool_decide (cmd_Key c = "") || bool_decide (cmd_OwnerID c = "")
  | CommandLockExpire => bool_decide (cmd_Key c = "") || (cmd_FencingToken c =? 0)%N
  | CommandFencedPut => bool_decide (cmd_Key c = "")
  | _ => false
  end.

Definition needsResult (c : Command) : bool :=
  match cmd_Type c with
  | CommandFencedPut | CommandCreateJob | CommandClaimJob | CommandJobReclaim
  | CommandJobStart | CommandJobSucceeded | CommandJobFailed => true
  | _ => false
  end.

(** What a leader that stays leader promises: a proposed command gets the next
    index, and waiting for that index returns once exactly this command has been
    applied to the store, with its result when it has one.  The clock is that of
    the years 1970 to 2116, below [2 ^ 62] nanoseconds.  [serving k w] says
    that [w] is in that situation with room for [k] more commands. *)
Class BackendLaws (W : Type) `{CommandCodec} `{Backend W} := {
  serving : nat -> W -> Prop;
  committed_in_term : W -> Prop;
  next_index : W -> LogIndex;

  serving_leader k w : serving k w -> be_role w = Leader;
  serving_weaken k w : serving (S k) w -> serving k w;

  serving_Propose k w c data s r :
    serving (S k) w -> transmitted c data -> malformed c = false ->
    applyCommand c (next_index w) (be_store w) = Some (s, r) ->
    exists w1, be_Propose data w = Some (w1, Ok (next_index w)) /\
      (exists w2, be_WaitApplied (next_index w) w1 = Some (w2, Ok ()) /\
        be_store w2 = s /\ serving k w2 /\ committed_in_term w2 /\
        next_index w2 = (next_index w + 1)%N) /\
      (needsResult c = true ->
       exists w2, be_WaitResult (next_index w) w1 = Some (w2, Ok r) /\
        be_store w2 = s /\ serving k w2 /\ committed_in_term w2 /\
        next_index w2 = (next_index w + 1)%N);

  serving_ReadIndex k w :
    serving k w -> committed_in_term w ->
    exists w1 i, be_ReadIndex w = Some (w1, Ok i) /\
      exists w2, be_WaitApplied i w1 = Some (w2, Ok ()) /\
        be_store w2 = be_store w /\ serving k w2 /\ committed_in_term w2 /\
        next_index w2 = next_index w;

  serving_now k w :
    serving k w -> exists w' t, be_now w = Some (w', t) /\ (0 < t < 2 ^ 62)%Z /\
      be_store w' = be_store w /\ serving k w' /\ next_index w' = next_index w /\
      (committed_in_term w -> committed_in_term w');
}.

(** Reading the clock changes nothing else. *)
Class ClockLaws (W : Type) `{Backend W} :=
  now_frame w w' t : be_now w = Some (w', t) -> be_store w' = be_store w /\ be_role w' = be_role w.

(** The next [n] readings of the clock are before [d]; proposing and waiting do not read it. *)
Class DeadlineLaws (W : Type) `{Backend W} := {
  before : Z -> nat -> W -> Prop;
  before_now d n w w' t : before d (S n) w -> be_now w = Some (w', t) -> (t < d)%Z /\ before d n w';
  before_Propose d n data w w' r : before d n w -> be_Propose data w = Some (w', r) -> before d n w';
  before_WaitResult d n i w w' r : before d n w -> be_WaitResult i w = Some (w', r) -> before d n w';
}.

(** ** Grant indexes

    [AcquireLock] of the server recognises its own grant by the log index kept in
    the lock. *)

Definition grants_below (bound : LogIndex) (s : Store) : Prop :=
  forall key l, lock_at key s = Some l -> (lk_GrantIndex l < bound)%N.

(** Locks of the next state are old ones, or granted at the index of the command. *)
Lemma applyCommand_grants c index s s' r key l :
  applyCommand c index s = Some (s', r) -> lock_at key s' = Some l ->
  lock_at key s = Some l \/ lk_GrantIndex l = index.
Proof.
  assert (forall k o e (x : LockState), Locks (fst (fst (Acquire k o e index x))) !! key = Some l ->
    Locks x !! key = Some l \/ lk_GrantIndex l = index) as Hacq.
  { intros k o e x. unfold Acquire. destruct (Locks x !! k) eqn:E; cbn; [auto|].
    rewrite lookup_insert. case_decide; [intros [= <-]; auto|auto]. }
  assert (forall k (x : LockState), delete k (Locks x) !! key = Some l -> Locks x !! key = Some l) as Hdel.
  { intros k x. rewrite lookup_delete. by case_decide. }
  unfold applyCommand, applyKVCommand, applyLockCommand, applyJobCreationCommand, applyFencedPut,
    applyClaimJob, applyJobTransitionCommand, applyJobReclaimCommand, lock_at.
  destruct (cmd_Type c); cbn [jobTransitionStates]; intros E Hl.
  - simplify_eq. by left.
  - simplify_eq/=. unfold Delete in Hl. destruct (data s !! _); by left.
  - simplify_eq. by left.
  - unfold AcquireLock in E. repeat case_bool_decide; simplify_eq/=; try by left.
    specialize (Hacq (cmd_Key c) (cmd_OwnerID c) (cmd_ExpiresAt c) (locks s)).
    destruct (Acquire _ _ _ _ _) as [[x y] b]; simplify_eq/=. auto.
  - unfold ExpireLock, Expire in E. repeat split_hyp_match E; simplify_eq/=; eauto.
  - unfold FencedPut in E. repeat split_hyp_match E; simplify_eq/=; by left.
  - unfold CreateJob in E. repeat split_hyp_match E; simplify_eq/=; by left.
  - unfold ClaimJob in E. specialize (Hacq (cmd_JobID c) (cmd_OwnerID c) (cmd_ExpiresAt c) (locks s)).
    destruct (validateClaimArguments _ _ _); simplify_eq/=; [by left|].
    destruct (jobs s !! _); simplify_eq/=; [|by left].
    destruct (handleExistingClaim _ _) as [[]|]; simplify_eq/=; try by left.
    destruct (Acquire _ _ _ _ _) as [[x y] []]; simplify_eq/=; [auto|].
    unfold handleFailedClaim in E. case_bool_decide; simplify_eq/=; auto.
  - unfold ReclaimExpiredJob in E. repeat split_hyp_match E; simplify_eq/=; eauto.
  - unfold TransitionJobState in E. repeat split_hyp_match E; simplify_eq/=; eauto.
  - unfold TransitionJobState in E. repeat split_hyp_match E; simplify_eq/=; eauto.
  - unfold TransitionJobState in E. repeat split_hyp_match E; simplify_eq/=; eauto.
  - simplify_eq. by left.
Qed.

Lemma grants_below_apply c index s s' r :
  applyCommand c index s = Some (s', r) -> grants_below index s -> grants_below (index + 1) s'.
Proof.
  intros E Hb key l Hl. destruct (applyCommand_grants _ _ _ _ _ _ _ E Hl) as [Ho| ->]; [|lia].
  specialize (Hb _ _ Ho). lia.
Qed.

(** The commands of [KvApplier] seen from here. *)
Lemma poison_transmitted `{CommandCodec} c data i t :
  transmitted c data -> poison DecodeCommand (mkLogEntry i t data) = malformed c.
Proof. intros (_ & E & _). unfold poison. cbn. by rewrite E. Qed.

Lemma needsResult_transmitted `{CommandCodec} c data i t :
  transmitted c data -> commandNeedsResult DecodeCommand (mkLogEntry i t data) = needsResult c.
Proof. intros (_ & E & _). unfold commandNeedsResult. cbn. by rewrite E. Qed.

Lemma applyEntry_transmitted `{CommandCodec} a c data i t s r :
  transmitted c data -> malformed c = false -> ap_applyErr a = None ->
  applyCommand c i (ap_store a) = Some (s, r) ->
  applyEntry DecodeCommand a (mkLogEntry i t data) =
    Some (mkApplier s (N.max (ap_lastApplied a) i) None
            (if needsResult c then <[i := r]> (ap_results a) else ap_results a), None).
Proof.
  intros Ht Hm He E. unfold applyEntry, Apply. rewrite (needsResult_transmitted _ _ _ _ Ht). cbn [le_Data le_Index].
  destruct Ht as (_ & -> & _). rewrite E.
  replace (if (ap_lastApplied a <? i)%N then i else ap_lastApplied a) with (N.max (ap_lastApplied a) i)
    by (destruct (N.ltb_spec (ap_lastApplied a) i); lia).
  apply applyCommand_unexpected in E. fold (malformed c) in E. rewrite Hm in E.
  destruct (ar_Err r) as [e|]; [|by rewrite He]. rewrite E. by rewrite He.
Qed.

(** ** The codec of the program *)

Definition go_codec : CommandCodec := {|
  EncodeCommand c := Ok (command_data c);
  DecodeCommand := decode_command;
|}.

(** An opening brace does not start a configuration entry. *)
Lemma brace_not_configuration bs : IsConfigurationEntry (x7b :: bs) = false.
Proof.
  unfold IsConfigurationEntry. destruct bs as [|b1 [|b2 [|b3 bs]]]; try done.
  cbn [length]. destruct (_ <? 4)%nat; [done|]. apply N.eqb_neq. cbn [take be_decode fold_left].
  unfold be_decode, configurationEntryMagic. cbn [fold_left].
  change (Byte.to_N x7b) with 123%N. rewrite take_0. cbn [fold_left]. lia.
Qed.

(** Commands of valid text and numbers in range are carried by their JSON. *)
Lemma go_codec_transmits c : command_ok c -> exists data, @transmitted go_codec c data.
Proof.
  intros Hc. exists (command_data c). split_and!; [done|by apply command_read|apply brace_not_configuration].
Qed.
