(* ===== verification/Pipeline.v ===== *)
(** The apply pipeline, one goroutine at a time: the loop of [applyCommitted] of
    [internal/raft/node_apply.go], the bounded apply channel of [node.go], the goroutine
    of [Applier.Run] of [internal/kv/applier.go], and the three sections of
    [InstallSnapshot] of [node_snapshot.go], the second of which runs without [n.mu].

    [Apply] and [KvApplier] run each of these from beginning to end.  Here they are
    interleaved: a step is one section under a mutex, one channel operation, or any step
    that the other goroutines of the node may take meanwhile ([others]).  [applyCh] is the
    buffer of the channel, of capacity 100, and a send waits for room. *)

From S2P Require Import Prelude Model Bytes RaftLog Storage Membership ConfigEntry Node Election.
From S2P Require Import Apply SnapshotOps Replication ReplicationFacts Durability ElectionFacts.
From S2P Require Import ElectionSafety LogChain LogMatching LogTree RaftSteps RaftHistory.
From S2P Require Import StateMachineSafety ReadIndex ReplicationLoop LocalTransport ReadSafety.
From S2P Require Import Json JsonCodec Lock KvStore JsonCommand KvSpec KvSnapshot KvApplier Replicas.

Definition applyChCapacity : nat := 100.

(** The goroutine in [applyCommitted], if there is one: [applyMu] is taken, before the
    first section under [n.mu], at the send, or between the send and the second section. *)
Inductive turn :=
| Free
| Looking
| Sending (entry : LogEntry) (nextIndex : LogIndex)
| Sent (nextIndex : LogIndex).

(** The goroutine of [Run]: in the select, with an entry it has received, or ended. *)
Inductive consumer := Receiving | Holding (entry : LogEntry) | Stopped.

(** A call of [InstallSnapshot] outside [n.mu]: before and after the restore. *)
Inductive install := Restoring (snapshot : Model.Snapshot) | Restored (snapshot : Model.Snapshot).

Record pipeline (S : Type) := mkPipeline {
  pl_node : RaftNode S;
  pl_turn : turn;
  pl_consumer : consumer;
  pl_applier : Applier;
  pl_installs : list install;
  pl_applied : list LogEntry;        (* the entries given to the state machine so far *)
}.
Arguments mkPipeline {S} _ _ _ _ _ _.
Arguments pl_node {S} _.
Arguments pl_turn {S} _.
Arguments pl_consumer {S} _.
Arguments pl_applier {S} _.
Arguments pl_installs {S} _.
Arguments pl_applied {S} _.

Inductive event :=
| Call | Look | Send | Mark                                   (* applyCommitted *)
| Receive | ApplyHeld | Cancel                                (* Applier.Run *)
| Begin (args : InstallSnapshotArgs) | RestoreNow (k : nat) | Finish (k : nat).   (* InstallSnapshot *)

Section Pipeline.
Context {S : Type} `{Storage S}.
Context (DecodeCommand : bytes -> result Command).
Implicit Types (n : RaftNode S) (p : pipeline S).

(** The first section of the loop body, and where the goroutine is after it. *)
Definition lookNext n : RaftNode S * turn :=
  if (commitIndex n <=? lastApplied n)%N then (n, Free)
  else
    let nextIndex := u64_add (lastApplied n) 1 in
    match getLocked (log n) nextIndex with
    | None => (n, Free)
    | Some entry =>
        if IsConfigurationEntry (le_Data entry) then
          match applyConfigurationEntryLocked entry n with
          | (n, Some _) => (n, Free)
          | (n, None) => (set_lastApplied nextIndex n, Looking)
          end
        else (n, Sending entry nextIndex)
    end.

(** The second section. *)
Definition markApplied (nextIndex : LogIndex) n : RaftNode S :=
  if (lastApplied n <? nextIndex)%N then set_lastApplied nextIndex n else n.

(** [InstallSnapshot] up to the call of the restore handler: the snapshot to restore, if
    it gets there. *)
Definition beginInstallInTerm (args : InstallSnapshotArgs) n : RaftNode S * option Model.Snapshot :=
  let n := set_electionElapsed 0 (set_leaderID (is_LeaderID args) (set_role Follower n)) in
  if (is_LastIncludedIndex args <=? lastIncludedIndex (log n))%N then (n, None)
  else if bool_decide (snapshotRestore n = None) then (n, None)
  else
    let snapshot := mkSnapshot (is_LastIncludedIndex args) (is_LastIncludedTerm args) (is_Data args) in
    match persistSnapshotLocked snapshot n with
    | (n, Some _) => (n, None)
    | (n, None) => (n, Some snapshot)
    end.

Definition beginInstall (args : InstallSnapshotArgs) n : RaftNode S * option Model.Snapshot :=
  if (is_Term args <? currentTerm n)%N then (n, None)
  else if (currentTerm n <? is_Term args)%N then
    let persistentState := with_term (is_Term args) (Persistent (state n)) in
    match saveAndSync (storage n) persistentState with
    | (s, Some _) => (set_storage s n, None)
    | (s, None) => beginInstallInTerm args (set_persistent persistentState (set_storage s n))
    end
  else beginInstallInTerm args n.

Definition with_loop n (t : turn) p : pipeline S :=
  mkPipeline n t (pl_consumer p) (pl_applier p) (pl_installs p) (pl_applied p).
Definition with_consumer n (c : consumer) p : pipeline S :=
  mkPipeline n (pl_turn p) c (pl_applier p) (pl_installs p) (pl_applied p).
Definition with_installs n (installs : list install) p : pipeline S :=
  mkPipeline n (pl_turn p) (pl_consumer p) (pl_applier p) installs (pl_applied p).

(** What the event does, or [None] when it cannot happen now. *)
Definition act (ev : event) p : option (pipeline S) :=
  let n := pl_node p in
  match ev, pl_turn p, pl_consumer p with
  | Call, Free, _ => Some (with_loop n Looking p)
  | Look, Looking, _ => let '(n, t) := lookNext n in Some (with_loop n t p)
  | Send, Sending entry nextIndex, _ =>
      if (length (applyCh n) <? applyChCapacity)%nat
      then Some (with_loop (set_applyCh (applyCh n ++ [entry]) n) (Sent nextIndex) p)
      else None
  | Mark, Sent nextIndex, _ => Some (with_loop (markApplied nextIndex n) Looking p)
  | Receive, _, Receiving =>
      match applyCh n with
      | [] => None
      | entry :: rest => Some (with_consumer (set_applyCh rest n) (Holding entry) p)
      end
  | ApplyHeld, t, Holding entry =>
      match applyEntry DecodeCommand (pl_applier p) entry with
      | None => None
      | Some (a, o) =>
          Some (mkPipeline n t (match o with Some _ => Stopped | None => Receiving end) a (pl_installs p) (pl_applied p ++ [entry]))
      end
  | Cancel, _, Receiving => Some (with_consumer n Stopped p)
  | Begin args, _, _ =>
      match beginInstall args n with
      | (n, None) => Some (with_installs n (pl_installs p) p)
      | (n, Some snapshot) => Some (with_installs n (pl_installs p ++ [Restoring snapshot]) p)
      end
  | RestoreNow k, t, c =>
      match pl_installs p !! k with
      | Some (Restoring snapshot) =>
          let '(a, o) := ap_RestoreSnapshot snapshot (pl_applier p) in
          let installs := match o with
                          | Some _ => delete k (pl_installs p)
                          | None => <[k := Restored snapshot]> (pl_installs p)
                          end in
          Some (mkPipeline n t c a installs (pl_applied p))
      | _ => None
      end
  | Finish k, _, _ =>
      match pl_installs p !! k with
      | Some (Restored snapshot) =>
          Some (with_installs (fst (finishInstall snapshot n)) (delete k (pl_installs p)) p)
      | _ => None
      end
  | _, _, _ => None
  end.

Fixpoint acts (evs : list event) p : option (pipeline S) :=
  match evs with
  | [] => Some p
  | ev :: evs => match act ev p with Some p => acts evs p | None => None end
  end.

(** The sections of [InstallSnapshot] one after the other are the whole of it, whatever
    the restore handler of the node answers. *)
Lemma InstallSnapshot_sections args n h :
  snapshotRestore n = Some h ->
  fst (InstallSnapshot args n) =
  match beginInstall args n with
  | (n', None) => n'
  | (n', Some snapshot) => match h snapshot with Some _ => n' | None => fst (finishInstall snapshot n') end
  end.
Proof.
  intros Hh.
  assert (forall n0, snapshotRestore n0 = Some h -> fst (installInTerm args n0) =
    match beginInstallInTerm args n0 with
    | (n', None) => n'
    | (n', Some snapshot) => match h snapshot with Some _ => n' | None => fst (finishInstall snapshot n') end
    end) as Hterm.
  { intros n0 H0. unfold installInTerm, beginInstallInTerm. set (n1 := set_electionElapsed _ _).
    destruct (_ <=? _)%N; [done|]. change (snapshotRestore n1) with (snapshotRestore n0). rewrite H0, bool_decide_false by done.
    destruct (persistSnapshotLocked _ n1) as [n2 [e|]]; [done|]. destruct (h _); [done|]. by destruct (finishInstall _ n2). }
  unfold InstallSnapshot, beginInstall. destruct (_ <? _)%N; [done|]. destruct (_ <? _)%N; [|by apply Hterm].
  destruct (saveAndSync _ _) as [s [e|]]; [done|]. by apply Hterm.
Qed.

(** ** What reaches the state machine, without snapshots from a leader *)

(** [C] is the committed log, as it comes to be; the node applies it from [base] on, to a
    state machine that is in [a0] then. *)
Context (C : list LogEntry) (base : LogIndex) (a0 : Applier).

(** The part of the log that is still to be applied is that of [C]. *)
Definition holds n : Prop :=
  is_u64 (commitIndex n) /\ (commitIndex n <= N.of_nat (length C))%N /\
  forall k, (lastApplied n < k <= commitIndex n)%N -> getLocked (log n) k = C !! N.to_nat (k - 1).

(** What the other goroutines do to the node: they leave the channel and the last applied
    index alone, do not lower the commit index, and commit only what is in [C]. *)
Definition others n n' : Prop :=
  same_channel n n' /\ (commitIndex n <= commitIndex n')%N /\ holds n'.

Definition quiet (ev : event) : bool :=
  match ev with Begin _ | RestoreNow _ | Finish _ => false | _ => true end.

Inductive qstep : pipeline S -> pipeline S -> Prop :=
| qs_act ev p p' : quiet ev = true -> act ev p = Some p' -> qstep p p'
| qs_others p n' : others (pl_node p) n' -> qstep p (with_loop n' (pl_turn p) p).

(** A pipeline at rest. *)
Definition rested p : Prop :=
  holds (pl_node p) /\ lastApplied (pl_node p) = base /\ (base <= commitIndex (pl_node p))%N /\
  applyCh (pl_node p) = [] /\ pl_turn p = Free /\ pl_consumer p = Receiving /\ pl_applier p = a0 /\
  pl_installs p = [] /\ pl_applied p = [].

(** The entries of [C] from [base] up to an index that go to the state machine. *)
Definition commands (index : LogIndex) : list LogEntry :=
  filter config_free (take (N.to_nat (index - base)) (drop (N.to_nat base) C)).

Definition held p : list LogEntry := match pl_consumer p with Holding e => [e] | _ => [] end.

(** The index up to which entries are in the channel or beyond. *)
Definition sent p : LogIndex := match pl_turn p with Sent k => k | _ => lastApplied (pl_node p) end.

Definition turn_ok p : Prop :=
  match pl_turn p with
  | Free | Looking => True
  | Sending e k =>
      k = (lastApplied (pl_node p) + 1)%N /\ (k <= commitIndex (pl_node p))%N /\
      C !! N.to_nat (k - 1) = Some e /\ config_free e
  | Sent k => k = (lastApplied (pl_node p) + 1)%N /\ (k <= commitIndex (pl_node p))%N
  end.

Record flows p : Prop := mkFlows {
  fl_holds : holds (pl_node p);
  fl_base : (base <= lastApplied (pl_node p) <= commitIndex (pl_node p))%N;
  fl_turn : turn_ok p;
  fl_order : pl_applied p ++ held p ++ applyCh (pl_node p) = commands (sent p);
  fl_room : (length (applyCh (pl_node p)) <= applyChCapacity)%nat;
  fl_run : exists o, Run DecodeCommand a0 (pl_applied p) = Some (pl_applier p, o) /\ (pl_consumer p <> Stopped -> o = None);
}.

Lemma commands_next k e :
  (base <= k)%N -> C !! N.to_nat k = Some e ->
  commands (k + 1) = commands k ++ (if bool_decide (config_free e) then [e] else []).
Proof.
  intros Hb He. unfold commands. replace (N.to_nat (k + 1 - base)) with (Datatypes.S (N.to_nat (k - base))) by lia.
  rewrite (take_S_r _ _ e); [|rewrite lookup_drop; rewrite <- He; f_equal; lia].
  rewrite filter_app. f_equal. rewrite filter_cons, filter_nil. by case_decide; case_bool_decide.
Qed.

Lemma rested_flows p : rested p -> flows p.
Proof.
  intros (Hh & Hl & Hb & Hch & Ht & Hc & Ha & _ & Hap). split.
  - done.
  - lia.
  - unfold turn_ok. by rewrite Ht.
  - unfold held, sent, commands. rewrite Hap, Hc, Hch, Ht, Hl, N.sub_diag. done.
  - rewrite Hch. cbn. lia.
  - exists None. by rewrite Hap, Ha.
Qed.

Lemma holds_applied k n : (lastApplied n <= k)%N -> holds n -> holds (set_lastApplied k n).
Proof.
  intros Hk (Hu & Hc & Hl). split_and!; [done|done|]. intros j Hj. apply Hl.
  change (lastApplied (set_lastApplied k n)) with k in Hj. change (commitIndex (set_lastApplied k n)) with (commitIndex n) in Hj. lia.
Qed.

Lemma holds_frame n n' :
  log n' = log n -> commitIndex n' = commitIndex n -> lastApplied n' = lastApplied n -> holds n -> holds n'.
Proof. unfold holds. by intros -> -> ->. Qed.

(** The first section, on a node that holds the committed log. *)
Lemma lookNext_cases n n' t :
  holds n -> lookNext n = (n', t) ->
  log n' = log n /\ applyCh n' = applyCh n /\ commitIndex n' = commitIndex n /\
  match t with
  | Free => lastApplied n' = lastApplied n /\
      ((commitIndex n <= lastApplied n)%N \/ exists e, C !! N.to_nat (lastApplied n) = Some e /\ ~ config_free e)
  | Looking => (lastApplied n < commitIndex n)%N /\ lastApplied n' = (lastApplied n + 1)%N /\
      exists e, C !! N.to_nat (lastApplied n) = Some e /\ ~ config_free e
  | Sending e k => lastApplied n' = lastApplied n /\ k = (lastApplied n + 1)%N /\ (k <= commitIndex n)%N /\
      C !! N.to_nat (lastApplied n) = Some e /\ config_free e
  | Sent _ => False
  end.
Proof.
  intros (Hu & Hlen & Hl). unfold lookNext. destruct (N.leb_spec (commitIndex n) (lastApplied n)) as [?|Hlt].
  { intros [= <- <-]. split_and!; try done. by left. }
  rewrite u64_add_small by lia. rewrite (Hl (lastApplied n + 1)%N) by lia.
  replace (N.to_nat (lastApplied n + 1 - 1)) with (N.to_nat (lastApplied n)) by lia.
  destruct (lookup_lt_is_Some_2 C (N.to_nat (lastApplied n))) as [e He]; [lia|]. rewrite He.
  destruct (IsConfigurationEntry (le_Data e)) eqn:Hc; [|intros [= <- <-]; split_and!; try done; lia].
  assert (~ config_free e) as Hne by (unfold config_free; by rewrite Hc).
  destruct (applyConfigurationEntryLocked e n) as [n1 [er|]] eqn:Ea; apply applyConfig_frame in Ea as (E1 & E2 & E3 & _);
    intros [= <- <-]; unfold commitIndex, lastApplied in *; cbn; rewrite ?E1, ?E2, ?E3; split_and!; try done;
    first [by unfold commitIndex; rewrite E3|by exists e|right; by exists e].
Qed.

Lemma flows_look p n' t :
  flows p -> pl_turn p = Looking -> lookNext (pl_node p) = (n', t) -> flows (with_loop n' t p).
Proof.
  intros [Hh Hb Ht Ho Hr Hrun] Hturn E. pose proof Hh as (_ & Hlen & _).
  apply lookNext_cases in E as (El & Ech & Ec & Hcase); [|done]. unfold sent in Ho. rewrite Hturn in Ho.
  split; cbn [pl_node pl_turn pl_consumer pl_applier pl_applied with_loop]; rewrite ?Ech; try done.
  - destruct t as [| |e k|k]; [| | |done].
    + destruct Hcase as (? & _). by apply (holds_frame (pl_node p)).
    + destruct Hcase as (? & Ea & _). destruct Hh as (Hu & Hl & Hget).
      unfold holds. rewrite El, Ec, Ea. split_and!; try done. intros j Hj. apply Hget. lia.
    + destruct Hcase as (? & _). by apply (holds_frame (pl_node p)).
  - rewrite Ec. destruct t as [| |e k|k]; [destruct Hcase as [-> _]; lia| |destruct Hcase as [-> _]; lia|done].
    destruct Hcase as (? & -> & _). lia.
  - unfold turn_ok. cbn. destruct t as [| |e k|k]; try done. destruct Hcase as (-> & -> & ? & He & ?).
    rewrite Ec. replace (N.to_nat (lastApplied (pl_node p) + 1 - 1)) with (N.to_nat (lastApplied (pl_node p))) by lia. done.
  - unfold held, sent in *. cbn [pl_turn pl_node with_loop pl_consumer]. rewrite Ho. destruct t as [| |e k|k]; try done.
    + by destruct Hcase as [-> _].
    + destruct Hcase as (? & -> & e & He & Hne). rewrite (commands_next _ e) by (lia || done).
      rewrite bool_decide_false by done. by rewrite app_nil_r.
    + by destruct Hcase as [-> _].
Qed.

Lemma flows_send p e k :
  flows p -> pl_turn p = Sending e k -> (length (applyCh (pl_node p)) < applyChCapacity)%nat ->
  flows (with_loop (set_applyCh (applyCh (pl_node p) ++ [e]) (pl_node p)) (Sent k) p).
Proof.
  intros [Hh Hb Ht Ho Hr Hrun] Hturn Hlen. unfold turn_ok, sent in *. rewrite Hturn in Ht, Ho.
  destruct Ht as (-> & Hk & He & Hc). split; try done.
  - unfold held, sent in *. cbn. rewrite (commands_next _ e); [|lia|rewrite <- He; f_equal; lia].
    rewrite bool_decide_true by done. rewrite <- Ho. by rewrite <- !app_assoc.
  - cbn. rewrite length_app. cbn. lia.
Qed.

Lemma flows_mark p k :
  flows p -> pl_turn p = Sent k -> flows (with_loop (markApplied k (pl_node p)) Looking p).
Proof.
  intros [Hh Hb Ht Ho Hr Hrun] Hturn. unfold turn_ok, sent in *. rewrite Hturn in Ht, Ho. destruct Ht as (-> & Hk).
  unfold markApplied. destruct (N.ltb_spec (lastApplied (pl_node p)) (lastApplied (pl_node p) + 1)); [|lia].
  split; try done.
  - apply holds_applied; [lia|done].
  - change (base <= lastApplied (pl_node p) + 1 <= commitIndex (pl_node p))%N. lia.
Qed.

Lemma flows_receive p e rest :
  flows p -> pl_consumer p = Receiving -> applyCh (pl_node p) = e :: rest ->
  flows (with_consumer (set_applyCh rest (pl_node p)) (Holding e) p).
Proof.
  intros [Hh Hb Ht Ho Hr [o [Hrun Hon]]] Hc Hch. unfold held, sent in *. rewrite Hc in *. rewrite Hch in *.
  split; try done; [cbn in *; lia|]. exists o. split; [done|]. intros _. by apply Hon.
Qed.

Lemma flows_apply p e a o :
  flows p -> pl_consumer p = Holding e -> applyEntry DecodeCommand (pl_applier p) e = Some (a, o) ->
  flows (mkPipeline (pl_node p) (pl_turn p) (match o with Some _ => Stopped | None => Receiving end) a
           (pl_installs p) (pl_applied p ++ [e])).
Proof.
  intros [Hh Hb Ht Ho Hr [o' [Hrun Hon]]] Hc E. unfold held, sent in *. rewrite Hc in *. rewrite Hon in Hrun by done.
  split; try done.
  - unfold held, sent in *. cbn [pl_applied pl_consumer pl_node pl_turn]. rewrite <- Ho. rewrite <- app_assoc. cbn. by destruct o.
  - exists o. cbn. rewrite (Run_app _ _ _ _ _ Hrun). cbn. rewrite E. destruct o; done.
Qed.

Lemma flows_others p n' : flows p -> others (pl_node p) n' -> flows (with_loop n' (pl_turn p) p).
Proof.
  intros [Hh Hb Ht Ho Hr Hrun] ([E1 E2] & Hc & Hh'). unfold turn_ok, held, sent in *.
  split; unfold turn_ok, held, sent; cbn [pl_node pl_turn pl_consumer pl_applier pl_applied with_loop]; rewrite ?E1, ?E2; try done; [lia|].
  destruct (pl_turn p); try done; naive_solver lia.
Qed.

(** The events of the loop and of the applier, by what they need. *)
Inductive does p : event -> pipeline S -> Prop :=
| do_call : pl_turn p = Free -> does p Call (with_loop (pl_node p) Looking p)
| do_look n' t : pl_turn p = Looking -> lookNext (pl_node p) = (n', t) -> does p Look (with_loop n' t p)
| do_send e k :
    pl_turn p = Sending e k -> (length (applyCh (pl_node p)) < applyChCapacity)%nat ->
    does p Send (with_loop (set_applyCh (applyCh (pl_node p) ++ [e]) (pl_node p)) (Sent k) p)
| do_mark k : pl_turn p = Sent k -> does p Mark (with_loop (markApplied k (pl_node p)) Looking p)
| do_receive e rest :
    pl_consumer p = Receiving -> applyCh (pl_node p) = e :: rest ->
    does p Receive (with_consumer (set_applyCh rest (pl_node p)) (Holding e) p)
| do_apply e a o :
    pl_consumer p = Holding e -> applyEntry DecodeCommand (pl_applier p) e = Some (a, o) ->
    does p ApplyHeld (mkPipeline (pl_node p) (pl_turn p) (match o with Some _ => Stopped | None => Receiving end) a
                        (pl_installs p) (pl_applied p ++ [e]))
| do_cancel : pl_consumer p = Receiving -> does p Cancel (with_consumer (pl_node p) Stopped p).

Lemma act_does ev p p' : quiet ev = true -> act ev p = Some p' <-> does p ev p'.
Proof.
  intros Hq. split.
  - intros E. destruct ev; try done; cbn [act] in E.
    + destruct (pl_turn p) eqn:Et; simplify_eq. by constructor.
    + destruct (pl_turn p) eqn:Et; simplify_eq. destruct (lookNext (pl_node p)) as [n' t] eqn:El; simplify_eq. by constructor.
    + destruct (pl_turn p) as [| |e k|] eqn:Et; simplify_eq.
      destruct (Nat.ltb_spec (length (applyCh (pl_node p))) applyChCapacity); simplify_eq. by constructor.
    + destruct (pl_turn p) eqn:Et; simplify_eq. by constructor.
    + destruct (pl_turn p), (pl_consumer p) eqn:Ec; simplify_eq; destruct (applyCh (pl_node p)) as [|e rest] eqn:Ech; simplify_eq; by constructor.
    + destruct (pl_turn p) eqn:Et, (pl_consumer p) eqn:Ec; simplify_eq;
        destruct (applyEntry DecodeCommand (pl_applier p) _) as [[a o]|] eqn:Ea; simplify_eq; rewrite <- Et; by econstructor.
    + destruct (pl_turn p), (pl_consumer p) eqn:Ec; simplify_eq; by constructor.
  - intros Hd. destruct Hd as [E|n' t E El|e k E Hl|k E|e rest E Ech|e a o E Ea|E]; cbn [act]; rewrite E.
    + done.
    + by rewrite El.
    + by destruct (Nat.ltb_spec (length (applyCh (pl_node p))) applyChCapacity); [|lia].
    + done.
    + destruct (pl_turn p); by rewrite Ech.
    + destruct (pl_turn p) eqn:Et; by rewrite Ea.
    + by destruct (pl_turn p).
Qed.

Lemma does_flows p ev p' : does p ev p' -> flows p -> flows p'.
Proof.
  intros Hd Hf. destruct Hd as [E|n' t E El|e k E Hl|k E|e rest E Ech|e a o E Ea|E].
  - destruct Hf as [Hh Hb Ht Ho Hr Hrun]. unfold turn_ok, sent in *. rewrite E in *. by split.
  - by apply flows_look.
  - by apply flows_send.
  - by apply flows_mark.
  - by apply flows_receive.
  - by apply flows_apply.
  - destruct Hf as [Hh Hb Ht Ho Hr (o & Hrun & _)]. unfold held, sent in *. rewrite E in *. split; try done. by exists o.
Qed.

Lemma qstep_flows p p' : qstep p p' -> flows p -> flows p'.
Proof.
  intros Hs Hf. destruct Hs as [ev p p' Hq E|p n' Ho]; [|by apply flows_others].
  apply act_does in E; [|done]. by eapply does_flows.
Qed.

Lemma reachable_flows p p' : rested p -> rtc qstep p p' -> flows p'.
Proof. intros Hr Hs. apply rested_flows in Hr. induction Hs as [|? ? ? Hstep _ IH]; [done|]. by apply IH, (qstep_flows _ _ Hstep). Qed.

(** C7: while no snapshot is installed, the state machine gets the committed log in order and
    without gaps, however the goroutines interleave.  From a pipeline at rest, with the
    loops of [applyCommitted] (one at a time), sends on the bounded channel, the applier, and
    the other goroutines of the node committing more of the log [C] in between, the entries
    applied, the one in the applier's hands and those in the channel are together the
    commands of [C] from [base] up to an index that is at most the commit index, none twice
    and none missing; the channel never exceeds its capacity, and the applier is in the state
    that [Run] reaches on the entries applied, without an error as long as it runs.  With an
    [InstallSnapshot] in between this fails ([buffered_entry_overwrites_snapshot],
    [older_snapshot_rolls_back]). *)
Theorem applied_in_order p p' :
  rested p -> rtc qstep p p' ->
  exists k, (base <= k <= commitIndex (pl_node p'))%N /\
    pl_applied p' ++ held p' ++ applyCh (pl_node p') = commands k /\
    (length (applyCh (pl_node p')) <= applyChCapacity)%nat /\
    exists o, Run DecodeCommand a0 (pl_applied p') = Some (pl_applier p', o) /\
      (pl_consumer p' <> Stopped -> o = None).
Proof.
  intros Hr Hs. destruct (reachable_flows p p' Hr Hs) as [_ Hb Ht Ho Hroom Hrun]. exists (sent p'). split_and!; try done.
  all: unfold sent, turn_ok in *; destruct (pl_turn p'); lia.
Qed.

(** ** The pipeline drains *)

(** The steps that need no event from outside: no new call, no cancellation. *)
Definition busy (ev : event) : bool :=
  match ev with Look | Send | Mark | Receive | ApplyHeld => true | _ => false end.

Inductive istep p p' : Prop :=
| is_act ev : busy ev = true -> act ev p = Some p' -> istep p p'.

Definition turn_left (t : turn) : nat := match t with Looking => 4 | Sending _ _ => 3 | _ => 0 end.

Definition left p : nat :=
  5 * N.to_nat (commitIndex (pl_node p) - lastApplied (pl_node p)) + turn_left (pl_turn p) +
  2 * length (applyCh (pl_node p)) + length (held p).

Lemma istep_does p p' : istep p p' <-> exists ev, busy ev = true /\ does p ev p'.
Proof.
  split.
  - intros [ev Hb E]. exists ev. split; [done|]. apply act_does; [by destruct ev|done].
  - intros (ev & Hb & Hd). econstructor; [exact Hb|]. apply act_does; [by destruct ev|done].
Qed.

Lemma istep_qstep p p' : istep p p' -> qstep p p'.
Proof. intros [ev Hb E]. econstructor; [|exact E]. by destruct ev. Qed.

Lemma istep_left p p' : istep p p' -> flows p -> (left p' < left p)%nat /\ commitIndex (pl_node p') = commitIndex (pl_node p).
Proof.
  intros (ev & Hb & Hd)%istep_does [Hh Hbase Ht _ _ _]. unfold left, held, turn_ok in *.
  destruct Hd as [E|n' t E El|e k E Hl|k E|e rest E Ech|e a o E Ea|E]; try done; rewrite E in *; cbn [pl_node pl_turn pl_consumer with_loop with_consumer].
  - apply lookNext_cases in El as (_ & -> & -> & Hcase); [|done]. split; [|done].
    destruct t as [| |e k|k]; [| | |done]; cbn [turn_left].
    + destruct Hcase as [-> _]. lia.
    + destruct Hcase as (? & -> & _). lia.
    + destruct Hcase as (-> & _). lia.
  - split; [|done]. cbn [turn_left applyCh set_applyCh]. rewrite length_app. unfold commitIndex, lastApplied. cbn. lia.
  - destruct Ht as [-> Hk]. unfold markApplied.
    destruct (N.ltb_spec (lastApplied (pl_node p)) (lastApplied (pl_node p) + 1)); [|lia].
    split; [|done]. set (n := pl_node p) in *. change (lastApplied (set_lastApplied ?k n)) with k.
    change (commitIndex (set_lastApplied ?k n)) with (commitIndex n). change (applyCh (set_lastApplied ?k n)) with (applyCh n).
    cbn [turn_left]. lia.
  - split; [|done]. rewrite Ech. unfold commitIndex, lastApplied. cbn. lia.
  - split; [|done]. destruct o; cbn; lia.
Qed.

(** The loop stops only at the commit index when there are no configuration entries. *)
Definition caught_up p : Prop := pl_turn p = Free -> lastApplied (pl_node p) = commitIndex (pl_node p).

#[local] Instance istep_dec p : Decision (red istep p).
Proof.
  destruct (decide (Exists (fun ev => is_Some (act ev p)) [Look; Send; Mark; Receive; ApplyHeld])) as [Hex|Hno].
  - left. apply Exists_exists in Hex as (ev & Hev & p' & E). exists p'. apply (is_act _ _ ev); [|done].
    repeat (apply elem_of_cons in Hev as [->|Hev]; [done|]). by apply elem_of_nil in Hev.
  - right. intros [p' [ev Hb E]]. apply Hno, Exists_exists. exists ev. split; [|by exists p'].
    destruct ev; try done; repeat constructor.
Defined.

Section Drains.
Context (HC : Forall (fun e => config_free e /\ poison DecodeCommand e = false) C).

Lemma C_entry k e : C !! k = Some e -> config_free e /\ poison DecodeCommand e = false.
Proof. intros He. rewrite Forall_lookup in HC. by eapply HC. Qed.

Lemma istep_runs p p' :
  istep p p' -> flows p -> caught_up p -> pl_consumer p <> Stopped -> caught_up p' /\ pl_consumer p' <> Stopped.
Proof.
  intros (ev & Hb & Hd)%istep_does [Hh Hbase Ht Ho _ _] Hcu Hc. unfold caught_up, held in *.
  destruct Hd as [E|n' t E El|e k E Hl|k E|e rest E Ech|e a o E Ea|E]; try done; cbn [pl_node pl_turn pl_consumer with_loop with_consumer].
  - split; [|done]. intros ->. apply lookNext_cases in El as (_ & _ & -> & -> & [?|(e & He & Hne)]); [lia| |done].
    by destruct (C_entry _ _ He).
  - split; [done|]. destruct (applyEntry_spec DecodeCommand (pl_applier p) e) as (a' & o' & E' & Hp & _).
    rewrite E' in Ea. simplify_eq. rewrite E in Ho.
    assert (e ∈ commands (sent p)) as He by (rewrite <- Ho; set_solver).
    unfold commands in He. apply list_elem_of_filter in He as [_ He].
    apply list_elem_of_lookup in He as [i He]. apply lookup_take_Some in He as [He _]. rewrite lookup_drop in He.
    destruct (C_entry _ _ He) as [_ Hpo]. rewrite Hpo in Hp. bool_norm. destruct o; [|done]. by destruct Hp.
Qed.

Lemma isteps_flow p p' :
  rtc istep p p' -> flows p -> caught_up p -> pl_consumer p <> Stopped ->
  flows p' /\ caught_up p' /\ pl_consumer p' <> Stopped /\ commitIndex (pl_node p') = commitIndex (pl_node p).
Proof.
  intros Hs. induction Hs as [|p1 p2 p3 Hstep _ IH]; intros Hf Hcu Hc; [done|].
  destruct (istep_runs _ _ Hstep Hf Hcu Hc) as [Hcu2 Hc2]. destruct (istep_left _ _ Hstep Hf) as [_ <-].
  apply IH; [|done..]. eapply qstep_flows; [by apply istep_qstep|done].
Qed.

Lemma istep_sn p : flows p -> sn istep p.
Proof.
  intros Hf. remember (left p) as m eqn:Em. revert p Hf Em. induction (lt_wf m) as [m _ IH]. intros p Hf ->.
  constructor. intros p' Hs. eapply IH; [|by eapply qstep_flows, Hf; apply istep_qstep|done].
  by apply istep_left.
Qed.

(** With the applier running, the pipeline can be waiting only when it is empty. *)
Lemma stuck_empty p :
  flows p -> pl_consumer p <> Stopped -> (forall p', ~ istep p p') ->
  pl_turn p = Free /\ pl_consumer p = Receiving /\ applyCh (pl_node p) = [].
Proof.
  intros [Hh Hbase Ht Ho _ _] Hc Hstuck. assert (forall ev p', busy ev = true -> ~ does p ev p') as Hn.
  { intros ev p' Hb Hd. apply (Hstuck p'), istep_does. by exists ev. }
  assert (pl_consumer p = Receiving) as Hrec.
  { destruct (pl_consumer p) as [|e|] eqn:E; [done| |done]. exfalso.
    destruct (applyEntry_spec DecodeCommand (pl_applier p) e) as (a' & o' & E' & _).
    by apply (Hn ApplyHeld _ eq_refl (do_apply p e a' o' E E')). }
  assert (applyCh (pl_node p) = []) as Hch.
  { destruct (applyCh (pl_node p)) as [|e rest] eqn:E; [done|]. exfalso.
    by apply (Hn Receive _ eq_refl (do_receive p e rest Hrec E)). }
  split_and!; [|done..]. destruct (pl_turn p) as [| |e k|k] eqn:E; [done|exfalso..].
  - destruct (lookNext (pl_node p)) as [n' t] eqn:El. by apply (Hn Look _ eq_refl (do_look p n' t E El)).
  - refine (Hn Send _ eq_refl (do_send p e k E _)). rewrite Hch. cbn. unfold applyChCapacity. lia.
  - by apply (Hn Mark _ eq_refl (do_mark p k E)).
Qed.

End Drains.

(** C8: the pipeline drains.  Take a state reached without installing a snapshot, with a
    goroutine in [applyCommitted] and the applier running, and suppose that no committed
    entry stops the applier and none is a configuration entry.  Then no order of the
    remaining steps goes on for ever, every order that stops has released [applyMu],
    emptied the channel and applied every command up to the commit index with the result
    of [Run], and there is such an order: the full channel, the mutex and the applier never
    wait for one another.  An entry that stops the applier blocks the node
    ([stopped_applier_blocks_the_node]). *)
Theorem pipeline_drains p p1 :
  rested p -> rtc qstep p p1 -> pl_turn p1 <> Free -> pl_consumer p1 <> Stopped ->
  Forall (fun e => config_free e /\ poison DecodeCommand e = false) C ->
  let c := commitIndex (pl_node p1) in
  sn istep p1 /\ wn istep p1 /\
  forall p2, rtc istep p1 p2 -> nf istep p2 ->
    pl_turn p2 = Free /\ pl_consumer p2 = Receiving /\ applyCh (pl_node p2) = [] /\
    lastApplied (pl_node p2) = c /\ pl_applied p2 = commands c /\
    Run DecodeCommand a0 (commands c) = Some (pl_applier p2, None).
Proof.
  intros Hr Hs Ht Hc HC c. pose proof (reachable_flows _ _ Hr Hs) as Hf.
  assert (sn istep p1) as Hsn by by apply istep_sn. split; [done|]. split; [by apply sn_wn|].
  intros p2 Hs2 Hnf. destruct (isteps_flow HC p1 p2 Hs2 Hf) as (Hf2 & Hcu & Hc2 & Hcm); [by intros ?|done|].
  destruct (stuck_empty p2 Hf2 Hc2) as (Ht2 & Hrec & Hch); [intros p' Hp'; apply Hnf; by exists p'|].
  destruct Hf2 as [_ _ _ Ho _ (o & Hrun & Hon)]. unfold held, sent in Ho. rewrite Ht2, Hrec, Hch, (Hcu Ht2), Hcm in Ho.
  cbn in Ho. rewrite app_nil_r in Ho. rewrite (Hon Hc2), Ho in Hrun. rewrite (Hcu Ht2), Hcm. done.
Qed.

(** ** The loop alone is [applyCommitted] *)


Lemma applyOne_sections n :
  applyOne n = match lookNext n with
               | (n', Sending e k) => (markApplied k (set_applyCh (applyCh n' ++ [e]) n'), true)
               | (n', Looking) => (n', true)
               | (n', _) => (n', false)
               end.
Proof.
  unfold applyOne, lookNext, markApplied. destruct (_ <=? _)%N; [done|]. destruct (getLocked _ _) as [e|]; [|done].
  destruct (IsConfigurationEntry _); [by destruct (applyConfigurationEntryLocked e n) as [n1 []]|]. by destruct (_ <? _)%N.
Qed.

(** The first section does not change a node that goes on to send. *)
Lemma lookNext_sending n n' t :
  lookNext n = (n', t) -> match t with Sending _ _ => n' = n | Sent _ => False | _ => True end.
Proof.
  unfold lookNext. destruct (_ <=? _)%N; [by intros [= <- <-]|]. destruct (getLocked _ _) as [e|]; [|by intros [= <- <-]].
  destruct (IsConfigurationEntry _); [|by intros [= <- <-]].
  by destruct (applyConfigurationEntryLocked e n) as [n1 []]; intros [= <- <-].
Qed.

(** One pass of the loop, with room for its entry. *)
Lemma one_pass n n' b p :
  applyOne n = (n', b) -> (length (applyCh n) < applyChCapacity)%nat ->
  rtc istep (with_loop n Looking p) (with_loop n' (if b then Looking else Free) p).
Proof.
  rewrite applyOne_sections. intros E Hroom. destruct (lookNext n) as [n1 t] eqn:El.
  assert (istep (with_loop n Looking p) (with_loop n1 t p)) as Hlook.
  { apply (is_act _ _ Look); [done|]. cbn. by rewrite El. }
  destruct t as [| |e k|k]; simplify_eq; try (by apply rtc_once).
  - eapply rtc_l; [exact Hlook|]. apply lookNext_sending in El as ->.
    eapply rtc_l; [apply (is_act _ (with_loop (set_applyCh (applyCh n ++ [e]) n) (Sent k) p) Send)|]; [done| |].
    + apply act_does; [done|]. exact (do_send (with_loop n (Sending e k) p) e k eq_refl Hroom).
    + by apply rtc_once, (is_act _ _ Mark).
  - by apply lookNext_sending in El.
Qed.

(** A goroutine that runs [applyCommitted] while the others pause, with room in the
    channel for what it sends, does what [applyCommitted] does as a function. *)
Lemma loop_alone n p :
  is_u64 (commitIndex n) ->
  (length (applyCh n) + N.to_nat (commitIndex n - lastApplied n) < applyChCapacity)%nat ->
  rtc istep (with_loop n Looking p) (with_loop (applyCommitted n) Free p).
Proof.
  remember (N.to_nat (commitIndex n - lastApplied n)) as m eqn:Em. revert n Em.
  induction m as [|m IH]; intros n Em Hu Hroom; rewrite applyCommitted_unfold by done;
    destruct (applyOne n) as [n' b] eqn:E; pose proof E as E'; apply one_pass with (p := p) in E'; try lia;
    destruct b; try done; apply applyOne_cases in E as (_ & Hc & _ & Hlt & Ha & e & _ & Hch); try done; try lia.
  etrans; [exact E'|]. apply IH; rewrite ?Hc, ?Ha; [lia|done|]. rewrite Hch, length_app.
  destruct (IsConfigurationEntry _); cbn; lia.
Qed.

(** ** When the applier has stopped *)

(** All events, and whatever else happens to the node outside the channel. *)
Inductive pstep p : pipeline S -> Prop :=
| ps_act ev p' : act ev p = Some p' -> pstep p p'
| ps_node n' : applyCh n' = applyCh (pl_node p) -> pstep p (with_loop n' (pl_turn p) p).

Lemma beginInstall_channel args n : applyCh (fst (beginInstall args n)) = applyCh n.
Proof.
  assert (forall n, applyCh (fst (beginInstallInTerm args n)) = applyCh n) as Hterm.
  { intros n0. unfold beginInstallInTerm, persistSnapshotLocked. by repeat case_match; simplify_eq. }
  unfold beginInstall. destruct (_ <? _)%N; [done|]. destruct (_ <? _)%N; [|by apply Hterm].
  destruct (saveAndSync _ _) as [s [e|]]; [done|]. by rewrite Hterm.
Qed.

Lemma finishInstall_channel snapshot n : applyCh (fst (finishInstall snapshot n)) = applyCh n.
Proof. unfold finishInstall. by repeat case_match. Qed.

(** The sender waits at a full channel that nobody receives from. *)
Definition blocked (e : LogEntry) (k : LogIndex) p : Prop :=
  pl_turn p = Sending e k /\ pl_consumer p = Stopped /\ (applyChCapacity <= length (applyCh (pl_node p)))%nat.

Lemma blocked_step e k p p' : pstep p p' -> blocked e k p -> blocked e k p' /\ pl_applied p' = pl_applied p.
Proof.
  intros Hs (Ht & Hc & Hl). unfold blocked. destruct Hs as [ev p' E|n' E]; [|cbn; by rewrite E].
  destruct ev as [| | | | | | |args|i|i]; cbn [act] in E; rewrite ?Ht, ?Hc in E; try done.
  - destruct (Nat.ltb_spec (length (applyCh (pl_node p))) applyChCapacity); [lia|done].
  - pose proof (beginInstall_channel args (pl_node p)) as Hb.
    destruct (beginInstall args (pl_node p)) as [n' [sn|]]; simplify_eq; cbn in *; by rewrite Hb.
  - destruct (pl_installs p !! i) as [[sn|sn]|]; try done. destruct (ap_RestoreSnapshot _ _) as [a o]. by simplify_eq.
  - destruct (pl_installs p !! i) as [[sn|sn]|]; try done. simplify_eq. cbn. by rewrite finishInstall_channel.
Qed.

Lemma blocked_forever e k p p' : rtc pstep p p' -> blocked e k p -> blocked e k p' /\ pl_applied p' = pl_applied p.
Proof.
  intros Hs. induction Hs as [|p1 p2 p3 Hstep _ IH]; intros Hb; [done|].
  destruct (blocked_step e k p1 p2 Hstep Hb) as [Hb2 <-]. by apply IH.
Qed.

Lemma acts_qstep evs p p' : forallb quiet evs = true -> acts evs p = Some p' -> rtc qstep p p'.
Proof.
  revert p. induction evs as [|ev evs IH]; intros p; cbn; [by intros _ [= <-]; apply rtc_refl|].
  rewrite andb_true_iff. intros [Hq Hqs] E. destruct (act ev p) as [p1|] eqn:E1; [|done].
  eapply rtc_l; [by eapply qs_act|by apply IH].
Qed.

Lemma acts_pstep evs p p' : acts evs p = Some p' -> rtc pstep p p'.
Proof.
  revert p. induction evs as [|ev evs IH]; intros p; cbn; [intros [= <-]; apply rtc_refl|].
  intros E. destruct (act ev p) as [p1|] eqn:E1; [|done]. eapply rtc_l; [by eapply ps_act|by apply IH].
Qed.

End Pipeline.

(** ** In a cluster *)

Section InCluster.
Context {S : Type} `{StorageLaws S}.

Lemma entriesBetween_full l from count :
  (forall k, (from < k <= from + N.of_nat count)%N -> is_Some (getLocked l k)) ->
  length (entriesBetween l from count) = count /\
  forall k, (from < k <= from + N.of_nat count)%N -> entriesBetween l from count !! N.to_nat (k - from - 1) = getLocked l k.
Proof.
  revert from. induction count as [|count IH]; intros from Hall; cbn [entriesBetween]; [split; [done|lia]|].
  destruct (Hall (from + 1)%N) as [e He]; [lia|]. rewrite He.
  destruct (IH (from + 1)%N) as [Hlen Hget]; [intros k Hk; apply Hall; lia|]. split; [cbn; by rewrite Hlen|].
  intros k Hk. destruct (decide (k = from + 1)%N) as [->|Hne].
  - replace (N.to_nat (from + 1 - from - 1)) with 0 by lia. by rewrite He.
  - replace (N.to_nat (k - from - 1)) with (Datatypes.S (N.to_nat (k - (from + 1) - 1))) by lia. apply Hget. lia.
Qed.

(** The committed log of a node at the end of a run of a cluster is such a [C]: at any
    earlier time every node that has not committed more holds it. *)
Lemma cluster_holds m r0 r r2 i j n nf :
  new_raft m r0 -> rtc raft_step r0 r -> rtc raft_step r r2 ->
  nodes (cl_world (cl r)) !! i = Some n -> nodes (cl_world (cl r2)) !! j = Some nf ->
  (commitIndex n <= commitIndex nf)%N ->
  holds (entriesBetween (log nf) 0 (N.to_nat (commitIndex nf))) n.
Proof.
  intros Hinit Hs Hs2 Hi Hj Hle.
  assert (forall k, (1 <= k <= commitIndex nf)%N -> is_Some (getLocked (log nf) k)) as Hfull.
  { intros k Hk. destruct (committed_agree m r0 r2 r2 j j nf nf k Hinit ltac:(by etrans) (rtc_refl _ _) Hj Hj Hk ltac:(lia))
      as (e & -> & _). by exists e. }
  destruct (entriesBetween_full (log nf) 0 (N.to_nat (commitIndex nf))) as [Hlen Hget]; [intros k Hk; apply Hfull; lia|].
  destruct (reachable_raft m r0 r Hinit Hs) as (_ & _ & Hinv). pose proof (proj2 Hinv i n Hi) as Hn.
  pose proof (node_commit_le m _ i _ (proj1 Hinv) Hn). destruct (no_whole _ _ _ Hn) as [(_ & Hu & _) _].
  split_and!; [lia|rewrite Hlen; lia|]. intros k Hk. rewrite <- (N.sub_0_r (k - 1)%N).
  replace (N.to_nat (k - 1 - 0)) with (N.to_nat (k - 0 - 1)) by lia. rewrite Hget by lia.
  destruct (committed_agree m r0 r r2 i j n nf k Hinit Hs Hs2 Hi Hj ltac:(lia) ltac:(lia)) as (e & -> & ->). done.
Qed.

End InCluster.

(** ** Runs *)

Definition put (key : string) (value : bytes) : Command :=
  mkCommand CommandPut key value "" [] 0 "" 0 0 "" (JobOther "") 0.

(** Writes of one byte to two keys, and snapshots without a version of the value of one. *)
Definition put_k (b : byte) : bytes := command_data (put "k" [b]).
Definition put_j (b : byte) : bytes := command_data (put "j" [b]).
Definition snapshot_k (b : byte) : bytes := render (enc_map enc_bytes {["k" := [b]]}).

Definition log_of (ds : list bytes) : list LogEntry := imap (fun i d => mkLogEntry (N.of_nat i + 1) 1 d) ds.

(** A follower with a committed log of which nothing has been applied. *)
Definition follower_with (es : list LogEntry) : RaftNode MemoryStorage :=
  mkRaftNode "a"
    (mkState (mkPersistent 1 "" abc) (mkVolatile (N.of_nat (length es)) 0) (mkLeaderState ∅ ∅) ∅ Follower "b")
    (mkLog es 0 0) (fst (mem_AppendEntries NewMemoryStorage es)) true ["b"; "c"] [] (Some (fun _ => None)) 0 10
    false false 0 1 true.

Definition at_rest (ds : list bytes) : pipeline MemoryStorage :=
  mkPipeline (follower_with (log_of ds)) Free Receiving (NewApplier NewStore) [] [].

Lemma at_rest_rested ds :
  is_u64 (N.of_nat (length ds)) -> rested (log_of ds) 0 (NewApplier NewStore) (at_rest ds).
Proof.
  intros Hu. assert (length (log_of ds) = length ds) as Hlen by apply length_imap.
  unfold rested. cbn [pl_node pl_turn pl_consumer pl_applier pl_installs pl_applied at_rest].
  split; [|split_and!; try done; unfold commitIndex; cbn; lia].
  unfold holds, commitIndex, lastApplied. cbn [state follower_with Volatile CommitIndex LastApplied log]. rewrite Hlen.
  split_and!; [done|lia|]. intros k Hk. unfold getLocked. cbn [lastIncludedIndex entries].
  destruct (N.eqb_spec k 0) as [->|_]; [lia|]. cbn [andb].
  rewrite (findEntry_spec 0); [|].
  - destruct (N.ltb_spec 0 k); [|lia]. f_equal. lia.
  - intros i e. unfold log_of. rewrite list_lookup_imap. destruct (ds !! i); [|done]. intros [= <-]. cbn. lia.
Qed.

Definition two_puts : list bytes := [put_k x11; put_j x12].

(** The second entry is sent while the first is being applied. *)
Definition overlapping : list event := [Call; Look; Send; Receive; Mark; Look; Send; ApplyHeld; Mark; Receive].

Lemma applied_in_order_witness :
  exists p', acts decode_command overlapping (at_rest two_puts) = Some p' /\
    pl_applied p' = [mkLogEntry 1 1 (put_k x11)] /\ held p' = [mkLogEntry 2 1 (put_j x12)] /\ applyCh (pl_node p') = [] /\
    exists o, Run decode_command (NewApplier NewStore) [mkLogEntry 1 1 (put_k x11)] = Some (pl_applier p', o) /\ o = None.
Proof.
  destruct (acts decode_command overlapping (at_rest two_puts)) as [p'|] eqn:E; [|vm_compute in E; discriminate].
  destruct (applied_in_order decode_command (log_of two_puts) 0 (NewApplier NewStore) (at_rest two_puts) p')
    as (k & _ & _ & _ & o & Hrun & Ho); [apply at_rest_rested; vm_compute; done|by apply (acts_qstep _ _ overlapping)|].
  exists p'. split; [done|]. vm_compute in E. injection E as <-. cbn in Hrun, Ho. split_and!; [reflexivity..|].
  exists o. split; [exact Hrun|apply Ho; discriminate].
Defined.

Lemma pipeline_drains_witness :
  exists p1 p2, acts decode_command [Call; Look; Send] (at_rest two_puts) = Some p1 /\
    rtc (istep decode_command) p1 p2 /\ applyCh (pl_node p2) = [] /\ lastApplied (pl_node p2) = 2%N /\
    pl_applied p2 = log_of two_puts.
Proof.
  destruct (acts decode_command [Call; Look; Send] (at_rest two_puts)) as [p1|] eqn:E; [|vm_compute in E; discriminate].
  destruct (pipeline_drains decode_command (log_of two_puts) 0 (NewApplier NewStore) (at_rest two_puts) p1)
    as (_ & (p2 & Hs & Hnf) & Hend).
  - apply at_rest_rested. vm_compute. done.
  - by apply (acts_qstep _ _ [Call; Look; Send]).
  - vm_compute in E. injection E as <-. discriminate.
  - vm_compute in E. injection E as <-. discriminate.
  - repeat constructor.
  - destruct (Hend p2 Hs Hnf) as (_ & _ & Hch & Hl & Ha & _). exists p1, p2.
    split_and!; [done|done|done|rewrite Hl; vm_compute in E; injection E as <-; reflexivity|].
    rewrite Ha. vm_compute in E. injection E as <-. reflexivity.
Defined.

(** ** Where the pipeline fails *)

(** A first entry that stops the applier, and 101 more. *)
Definition poisoned_log : list bytes := [] :: replicate 101 (put_k x11).
Definition fill_channel : list event :=
  [Call; Look; Send; Mark; Receive; ApplyHeld] ++ mjoin (replicate 100 [Look; Send; Mark]) ++ [Look].

Definition blockedb (e : LogEntry) (k : LogIndex) (p : pipeline MemoryStorage) : bool :=
  match pl_turn p, pl_consumer p with
  | Sending e' k', Stopped => bool_decide (e' = e) && (k' =? k)%N && (applyChCapacity <=? length (applyCh (pl_node p)))%nat
  | _, _ => false
  end.

Lemma acts_blocked evs p0 e k :
  match acts decode_command evs p0 with Some p => blockedb e k p | None => false end = true ->
  exists p, acts decode_command evs p0 = Some p /\ blocked e k p.
Proof.
  destruct (acts _ _ _) as [p|]; [|done]. intros Hb. exists p. split; [done|]. unfold blockedb in Hb. unfold blocked.
  destruct (pl_turn p), (pl_consumer p); try done. apply andb_true_iff in Hb as [[? ?]%andb_true_iff ?%Nat.leb_le].
  bool_norm. naive_solver.
Qed.

(** Once the applier has stopped at an entry, the next hundred fill the channel; the
    goroutine that sends the one after that never gets past the send, whatever happens
    in the process, and holds [applyMu]: no call of [applyCommitted] ever returns again. *)
Theorem stopped_applier_blocks_the_node :
  exists p e k, rtc (qstep decode_command (log_of poisoned_log)) (at_rest poisoned_log) p /\
    pl_turn p = Sending e k /\ pl_consumer p = Stopped /\
    forall p', rtc (pstep decode_command) p p' -> pl_turn p' = Sending e k /\ pl_applied p' = pl_applied p.
Proof.
  assert (exists p, acts decode_command fill_channel (at_rest poisoned_log) = Some p /\
            blocked (mkLogEntry 102 1 (put_k x11)) 102 p) as (p & E & Hb).
  { apply acts_blocked. vm_compute. reflexivity. }
  exists p, (mkLogEntry 102 1 (put_k x11)), 102%N. split; [|split_and!; [apply Hb..|]].
  - apply (acts_qstep _ _ fill_channel); [vm_compute; reflexivity|exact E].
  - intros p' Hs. destruct (blocked_forever _ _ _ _ _ Hs Hb) as [[Ht _] Ha]. split; [exact Ht|exact Ha].
Qed.

(** The value of a key in the state machine. *)
Definition value_of (key : string) (p : pipeline MemoryStorage) : option bytes := data (ap_store (pl_applier p)) !! key.

(** A snapshot of index 3, in which [k] has been written again, for a follower that has
    sent the first write but not applied it. *)
Definition snapshot_3 : InstallSnapshotArgs := mkInstallSnapshotArgs 1 "b" 3 1 (snapshot_k x33).
Definition install_ahead : list event := [Call; Look; Send; Mark; Look; Begin snapshot_3; RestoreNow 0; Finish 0].

(** [InstallSnapshot] does not wait for the entries in the apply channel, and the applier
    does not skip those below its index: the old write is applied over the restored state,
    and stays there. *)
Theorem buffered_entry_overwrites_snapshot :
  exists p p', acts decode_command install_ahead (at_rest [put_k x11]) = Some p /\
    value_of "k" p = Some [x33] /\ ap_lastApplied (pl_applier p) = 3%N /\ lastApplied (pl_node p) = 3%N /\
    acts decode_command [Receive; ApplyHeld] p = Some p' /\
    value_of "k" p' = Some [x11] /\ ap_lastApplied (pl_applier p') = 3%N.
Proof. eexists _, _. split; [vm_compute; reflexivity|]. split_and!; vm_compute; reflexivity. Qed.

(** A snapshot of index 1 that arrives when the follower has applied two entries and has
    taken no snapshot itself. *)
Definition snapshot_1 : InstallSnapshotArgs := mkInstallSnapshotArgs 1 "b" 1 1 (snapshot_k x11).
Definition apply_two : list event :=
  [Call; Look; Send; Mark; Look; Send; Mark; Look; Receive; ApplyHeld; Receive; ApplyHeld].

(** [InstallSnapshot] compares the snapshot with the boundary of the log, not with what has
    been applied: the state machine goes back to the snapshot while [LastApplied] stays, the
    entries in between are in the log and are never applied again. *)
Theorem older_snapshot_rolls_back :
  exists p p', acts decode_command apply_two (at_rest two_puts) = Some p /\ value_of "j" p = Some [x12] /\
    acts decode_command [Begin snapshot_1; RestoreNow 0; Finish 0] p = Some p' /\
    value_of "j" p' = None /\ ap_lastApplied (pl_applier p') = 1%N /\
    lastApplied (pl_node p') = 2%N /\ getLocked (log (pl_node p')) 2 = Some (mkLogEntry 2 1 (put_j x12)) /\
    acts decode_command [Call; Look] p' = Some p'.
Proof. eexists _, _. split; [vm_compute; reflexivity|]. split_and!; vm_compute; reflexivity. Qed.
