(* ===== verification/NodeBackend.v ===== *)
(** The node and its applier as a [Backend].

    The world is the node, its applier, the network, the requests that other
    leaders send while a client waits, and the readings of the clock.  The applier
    goroutine takes every entry off the apply channel before the next poll; a wait
    whose index is not reached handles the next incoming request, and ends with
    the error of its context when there is none left.

    A leader that is a quorum by itself satisfies [BackendLaws]. *)

From S2P Require Import Prelude Model RaftLog Storage Membership ConfigEntry Node Election.
From S2P Require Import Apply SnapshotOps Replication ReplicationFacts Durability ReadIndex.
From S2P Require Import Lock KvStore KvSpec KvFacts KvApplier Backend.
Import LogSpec.

Definition Canceled : error := Sentinel "context canceled".
Definition DeadlineExceeded : error := Sentinel "context deadline exceeded".

Record NodeWorld {S Net : Type} := mkNodeWorld {
  nw_node : RaftNode S;
  nw_applier : Applier;
  nw_net : Net;
  nw_inbox : list AppendEntriesArgs;
  nw_clock : nat -> Z;
  nw_reads : nat;
}.
Global Arguments NodeWorld : clear implicits.
Global Arguments mkNodeWorld {S Net}.

Section NodeBackend.
Context {S : Type} `{Storage S} {Net : Type} (T : Transport Net) (fuel : nat) `{CommandCodec}.
Implicit Types w : NodeWorld S Net.

Definition set_node (n : RaftNode S) w : NodeWorld S Net :=
  mkNodeWorld n (nw_applier w) (nw_net w) (nw_inbox w) (nw_clock w) (nw_reads w).
Definition set_applier (a : Applier) w : NodeWorld S Net :=
  mkNodeWorld (nw_node w) a (nw_net w) (nw_inbox w) (nw_clock w) (nw_reads w).
Definition set_net (x : Net) w : NodeWorld S Net :=
  mkNodeWorld (nw_node w) (nw_applier w) x (nw_inbox w) (nw_clock w) (nw_reads w).
Definition set_inbox (ms : list AppendEntriesArgs) w : NodeWorld S Net :=
  mkNodeWorld (nw_node w) (nw_applier w) (nw_net w) ms (nw_clock w) (nw_reads w).
Definition set_reads (k : nat) w : NodeWorld S Net :=
  mkNodeWorld (nw_node w) (nw_applier w) (nw_net w) (nw_inbox w) (nw_clock w) k.

(** The goroutine of [Run]: it has returned when an error was recorded. *)
Definition drain w : option (NodeWorld S Net) :=
  match ap_applyErr (nw_applier w) with
  | Some _ => Some w
  | None =>
      match Run DecodeCommand (nw_applier w) (applyCh (nw_node w)) with
      | None => None
      | Some (a, _) => Some (set_applier a (set_node (set_applyCh [] (nw_node w)) w))
      end
  end.

Definition deliver (m : AppendEntriesArgs) w : NodeWorld S Net :=
  set_node (fst (AppendEntries m (nw_node w))) w.

(** The loop of [WaitApplied]. *)
Fixpoint waitApplied (index : LogIndex) (inbox : list AppendEntriesArgs) w
    : option (NodeWorld S Net * result ()) :=
  match drain w with
  | None => None
  | Some w =>
      match pollApplied (nw_applier w) index with
      | Some None => Some (w, Ok ())
      | Some (Some e) => Some (w, Err e)
      | None =>
          match inbox with
          | [] => Some (w, Err DeadlineExceeded)
          | m :: rest => waitApplied index rest (deliver m (set_inbox rest w))
          end
      end
  end.

(** The loop of [WaitResult]. *)
Fixpoint waitResult (index : LogIndex) (inbox : list AppendEntriesArgs) w
    : option (NodeWorld S Net * result ApplyResult) :=
  match drain w with
  | None => None
  | Some w =>
      let '(a, r) := pollResult (nw_applier w) index in
      let w := set_applier a w in
      match r with
      | Some r => Some (w, r)
      | None =>
          match inbox with
          | [] => Some (w, Err DeadlineExceeded)
          | m :: rest => waitResult index rest (deliver m (set_inbox rest w))
          end
      end
  end.

#[global] Instance NodeWorld_Backend : Backend (NodeWorld S Net) := {|
  be_role w := role (nw_node w);
  be_store w := ap_store (nw_applier w);
  be_Propose data := fun w =>
    match Propose T fuel data (nw_net w) (nw_node w) with
    | None => None
    | Some (x, n, r) => Some (set_net x (set_node n w), r)
    end;
  be_WaitApplied index := fun w => waitApplied index (nw_inbox w) w;
  be_WaitResult index := fun w => waitResult index (nw_inbox w) w;
  be_ReadIndex := fun w =>
    let '(x, n, r) := ReadIndex T (nw_net w) (nw_node w) in
    Some (set_net x (set_node n w), r);
  be_now := fun w => Some (set_reads (Datatypes.S (nw_reads w)) w, nw_clock w (nw_reads w));
|}.

#[global] Instance NodeWorld_clock : @ClockLaws (NodeWorld S Net) NodeWorld_Backend.
Proof. by intros w w' t [= <- <-]. Qed.

(** The readings to come are those of the clock from [nw_reads] on. *)
Definition readings_before (d : Z) (k : nat) w : Prop := forall i, i < k -> (nw_clock w (nw_reads w + i) < d)%Z.

Lemma waitResult_clock index inbox w w' r :
  waitResult index inbox w = Some (w', r) -> nw_clock w' = nw_clock w /\ nw_reads w' = nw_reads w.
Proof.
  assert (forall w w', drain w = Some w' -> nw_clock w' = nw_clock w /\ nw_reads w' = nw_reads w) as Hdrain.
  { intros v v' E. unfold drain in E. destruct (ap_applyErr _); [by simplify_eq|].
    destruct (Run _ _ _) as [[a ?]|]; by simplify_eq. }
  revert w. induction inbox as [|m inbox IH]; intros w E; cbn in E; destruct (drain w) as [w1|] eqn:Ed; try done;
    apply Hdrain in Ed as [<- <-]; destruct (pollResult _ _) as [a [x|]]; simplify_eq; try done.
  by apply IH in E.
Qed.

#[global] Instance NodeWorld_deadline : @DeadlineLaws (NodeWorld S Net) NodeWorld_Backend.
Proof.
  refine {| before := readings_before |}; unfold readings_before.
  - intros d k w w' t Hb [= <- <-]. split; [specialize (Hb 0); rewrite Nat.add_0_r in Hb; apply Hb; lia|].
    intros i Hi. cbn. specialize (Hb (Datatypes.S i)). rewrite Nat.add_succ_r in Hb. apply Hb. lia.
  - intros d k data w w' r Hb E. cbn in E. destruct (Propose _ _ _ _ _) as [[[x n] r']|]; by simplify_eq.
  - intros d k i w w' r Hb E. cbn in E. apply waitResult_clock in E as [-> ->]. done.
Defined.

End NodeBackend.

(** ** A leader that is a quorum by itself *)

Section SingleVoter.
Context {Net : Type} (T : Transport Net) (fuel : nat) `{CommandCodec}.
Implicit Types n : RaftNode MemoryStorage.
Implicit Types w : NodeWorld MemoryStorage Net.

(** Everything in the log is committed and applied, and stored. *)
Record single_leader (k : nat) n : Prop := {
  sl_role : role n = Leader;
  sl_quorum : membershipHasQuorum (membership n) {[id n]} = true;
  sl_transport : transportSet n = true;
  sl_peers : peerIDs n = [];
  sl_wf : log_wf (log n);
  sl_synced : synced n;
  sl_commit : commitIndex n = lastIndexLocked (log n);
  sl_applied : lastApplied n = lastIndexLocked (log n);
  sl_channel : applyCh n = [];
  sl_room : is_u64 (lastIndexLocked (log n) + N.of_nat k + 2)%N;
}.

Record single_serving (k : nat) w : Prop := {
  ss_leader : single_leader k (nw_node w);
  ss_running : ap_applyErr (nw_applier w) = None;
  ss_progress : ap_lastApplied (nw_applier w) = lastIndexLocked (log (nw_node w));
  ss_clock : forall i, (0 < nw_clock w i < 2 ^ 62)%Z;
}.

Definition single_next w : LogIndex := (lastIndexLocked (log (nw_node w)) + 1)%N.

Definition single_committed w : Prop :=
  let n := nw_node w in
  (0 < commitIndex n)%N /\ logTerm n (commitIndex n) = currentTerm n /\
  is_Some (getLocked (log n) (commitIndex n)).

Lemma mem_append_next n entry :
  log_wf (log n) -> synced n -> is_u64 (lastIndexLocked (log n) + 1)%N ->
  le_Index entry = (lastIndexLocked (log n) + 1)%N ->
  mem_AppendEntries (storage n) [entry] =
    (mkMemoryStorage (ms_state (storage n)) (ms_entries (storage n) ++ [entry]) (ms_snapshot (storage n)), None).
Proof.
  intros Hwf [Hs _] Hu Hi. change (ms_entries (storage n) = entries (log n)) in Hs.
  unfold mem_AppendEntries, validateEntries. cbn [validateEntriesFrom].
  destruct (N.eqb_spec (le_Index entry) 0); [lia|]. unfold validateAppend. rewrite Hs.
  destruct (last (entries (log n))) as [e|] eqn:El; [|done].
  assert (lastIndexLocked (log n) = le_Index e) as Hl by (unfold lastIndexLocked; by rewrite El).
  rewrite u64_add_small by lia. rewrite Hi, Hl, N.eqb_refl. done.
Qed.

(** The proposal is committed at once and sent on the apply channel. *)
Lemma single_Propose k n data x :
  single_leader (S k) n -> IsConfigurationEntry data = false ->
  let entry := mkLogEntry (lastIndexLocked (log n) + 1) (currentTerm n) data in
  exists n', Propose T fuel data x n = Some (x, n', Ok (lastIndexLocked (log n) + 1)%N) /\
    single_leader k (set_applyCh [] n') /\ applyCh n' = [entry] /\
    lastIndexLocked (log n') = (lastIndexLocked (log n) + 1)%N /\
    commitIndex n' = (lastIndexLocked (log n) + 1)%N /\ currentTerm n' = currentTerm n /\
    getLocked (log n') (lastIndexLocked (log n) + 1) = Some entry.
Proof.
  intros [Hr Hq Ht Hp Hwf Hsy Hc Ha Hch Hroom] Hcfg entry.
  set (i := (lastIndexLocked (log n) + 1)%N) in *. cbn [N.of_nat] in Hroom.
  assert (is_u64 (i + 1)%N) as Hu by lia.
  unfold Propose, proposeLocked. rewrite bool_decide_false by naive_solver.
  rewrite u64_add_small by lia. fold i. fold entry.
  change (st_AppendEntries (storage n) [entry]) with (mem_AppendEntries (storage n) [entry]).
  rewrite mem_append_next by (done || lia). cbn [st_Sync MemoryStorage_Storage mem_Sync log set_storage].
  assert (Append (log n) entry = Ok (mkLog (entries (log n) ++ [entry])
    (lastIncludedIndex (log n)) (lastIncludedTerm (log n)))) as HA by (apply Append_accepts; [lia|done]).
  pose proof (getLocked_append _ _ _ i Hwf ltac:(lia) HA) as Hg1. cbn [le_Index entry] in Hg1. rewrite N.eqb_refl in Hg1.
  rewrite HA. apply Append_ok in HA as (_ & _ & Hwf'); [|done|lia].
  set (st' := mkMemoryStorage _ _ _). set (n1 := set_log _ (set_storage st' n)).
  change (getLocked (log n1) i = Some entry) in Hg1.
  assert (lastIndexLocked (log n1) = i) as Hl1
    by (unfold n1, lastIndexLocked; cbn; by rewrite last_snoc).
  assert (committable n1 i) as Hcm.
  { split; [unfold logTerm; by rewrite Hg1|]. unfold replicated.
    change (peerIDs n1) with (peerIDs n). rewrite Hp. cbn [filter list_filter list_to_set].
    rewrite (right_id_L ∅ (∪)). exact Hq. }
  destruct (advanceCommitIndexLocked_spec n1) as (c & -> & Hcases & Hmax); [rewrite Hl1; lia| |done|].
  { rewrite Hl1. change (commitIndex n1) with (commitIndex n). lia. }
  rewrite Hl1 in Hcases, Hmax. change (commitIndex n1) with (commitIndex n) in *.
  assert (c = i) as ->.
  { destruct (decide (c < i)%N); [|destruct Hcases as [->|[? _]]; lia]. by destruct (Hmax i). }
  destruct (N.ltb_spec (commitIndex n) i); [|lia].
  assert (applyCommitted (set_commitIndex i n1) =
    set_lastApplied i (set_applyCh [entry] (set_commitIndex i n1))) as ->.
  { unfold applyCommitted. change (commitIndex (set_commitIndex i n1)) with i.
    change (lastApplied (set_commitIndex i n1)) with (lastApplied n). rewrite Ha.
    replace (N.to_nat (i - lastIndexLocked (log n))) with 1 by lia. cbn [applyLoop].
    unfold applyOne. change (commitIndex (set_commitIndex i n1)) with i.
    change (lastApplied (set_commitIndex i n1)) with (lastApplied n). rewrite Ha.
    destruct (N.leb_spec i (lastIndexLocked (log n))); [lia|]. rewrite u64_add_small by lia. fold i.
    change (log (set_commitIndex i n1)) with (log n1). rewrite Hg1. cbn [le_Data entry]. rewrite Hcfg.
    change (applyCh (set_commitIndex i n1)) with (applyCh n). rewrite Hch. cbn [app].
    change (lastApplied (set_applyCh [entry] (set_commitIndex i n1))) with (lastApplied n). rewrite Ha.
    by destruct (N.ltb_spec (lastIndexLocked (log n)) i); [|lia]. }
  cbn [peerIDs set_lastApplied set_volatile set_state set_applyCh set_commitIndex n1 set_log set_storage
    transportSet]. rewrite Hp, Ht. cbn [negb replicateAll].
  eexists. split; [done|]. split; [|split_and!; done].
  split; try done; change (log _) with (log n1); rewrite ?Hl1; try done; [|lia].
  destruct Hsy as [Hs1 Hs2]. split; cbn; [|done].
  change (ms_entries (storage n) ++ [entry] = entries (log n) ++ [entry]). by rewrite <- Hs1.
Qed.

(** The applier takes the entry off the channel. *)
Lemma single_drain k w n' c data s r :
  single_serving (S k) w -> transmitted c data -> malformed c = false ->
  applyCommand c (single_next w) (ap_store (nw_applier w)) = Some (s, r) ->
  applyCh n' = [mkLogEntry (single_next w) (currentTerm (nw_node w)) data] ->
  drain (set_node n' w) =
    Some (set_applier (mkApplier s (single_next w) None
      (if needsResult c then <[single_next w := r]> (ap_results (nw_applier w))
       else ap_results (nw_applier w))) (set_node (set_applyCh [] n') w)).
Proof.
  intros [Hn He Hp Hck] Ht Hm E Hch. unfold drain. cbn. rewrite He, Hch. cbn [Run].
  rewrite (applyEntry_transmitted _ _ _ _ _ _ _ Ht Hm He E). cbn. rewrite Hp.
  rewrite N.max_r by (unfold single_next; lia). done.
Qed.

#[global] Instance NodeWorld_laws :
  @BackendLaws (NodeWorld MemoryStorage Net) _ (NodeWorld_Backend T fuel).
Proof.
  refine {| serving := single_serving; committed_in_term := single_committed; next_index := single_next |}.
  - intros k w Hs. apply (sl_role k), Hs.
  - intros k w [[] ? ? ?]. split; [|done..]. split; try done. lia.
  - intros k w c data s r Hs Ht Hm E. cbn in E.
    destruct (single_Propose k (nw_node w) data (nw_net w)) as
      (n' & HP & Hl & Hch & Hlast & Hc & Hterm & Hg); [apply Hs|apply Ht|].
    pose proof (single_drain k w n' c data s r Hs Ht Hm E Hch) as Hd.
    fold (single_next w) in HP, Hlast, Hc, Hg. cbn [be_Propose NodeWorld_Backend]. rewrite HP.
    destruct Hs as [Hn He Hp Hck]. exists (set_net (nw_net w) (set_node n' w)). split; [done|].
    assert (forall res, let w2 := set_applier (mkApplier s (single_next w) None res)
              (set_node (set_applyCh [] n') w) in
            single_serving k w2 /\ single_committed w2 /\ single_next w2 = (single_next w + 1)%N) as Hw2.
    { intros res w2. split_and!.
      - by split.
      - unfold single_committed, logTerm. cbn. unfold commitIndex in *. cbn. rewrite Hc, Hg. cbn.
        split_and!; [unfold single_next; lia|by rewrite <- Hterm|by eexists].
      - unfold single_next at 1. cbn. by rewrite Hlast. }
    split.
    + cbn [be_WaitApplied NodeWorld_Backend]. destruct (nw_inbox _); cbn [waitApplied];
        change (drain (set_net (nw_net w) (set_node n' w))) with (drain (set_node n' w)); rewrite Hd;
        unfold pollApplied; cbn [nw_applier set_applier ap_applyErr ap_lastApplied]; rewrite N.leb_refl;
        (eexists; split; [done|split; [done|apply Hw2]]).
    + intros Hnr. cbn [be_WaitResult NodeWorld_Backend]. rewrite Hnr in Hd.
      destruct (nw_inbox _); cbn [waitResult];
        change (drain (set_net (nw_net w) (set_node n' w))) with (drain (set_node n' w)); rewrite Hd;
        unfold pollResult; cbn [nw_applier set_applier ap_results]; rewrite lookup_insert_eq;
        (eexists; split; [done|split; [done|apply Hw2]]).
  - intros k w [[] He Hp Hck] Hsc. pose proof Hsc as (Hc0 & Hterm & e & Hg). cbn [be_ReadIndex NodeWorld_Backend].
    unfold logTerm in Hterm. rewrite Hg in Hterm.
    assert (ReadIndex T (nw_net w) (nw_node w) =
      (nw_net w, nw_node w, Ok (commitIndex (nw_node w)))) as HR.
    { unfold ReadIndex, readIndexRefused. rewrite bool_decide_false by naive_solver. rewrite Hg, Hterm, N.eqb_refl.
      destruct (N.ltb_spec 0 (commitIndex (nw_node w))); [|lia]. cbn. by rewrite sl_transport0, sl_quorum0. }
    rewrite HR. eexists _, _. split; [done|]. cbn [be_WaitApplied NodeWorld_Backend].
    assert (drain (set_net (nw_net w) (set_node (nw_node w) w)) =
      Some (set_node (set_applyCh [] (nw_node w)) w)) as Hd.
    { unfold drain. cbn. rewrite He, sl_channel0. cbn. by destruct w. }
    destruct (nw_inbox _); cbn [waitApplied]; rewrite Hd;
      unfold pollApplied; cbn [nw_applier set_node]; rewrite He, Hp, sl_commit0, N.leb_refl;
      (eexists; split; [done|split_and!; [done|by split|exact Hsc|done]]).
  - intros k w [Hn He Hp Hck]. eexists _, _. split; [done|]. cbn. split_and!; try apply Hck; try done.
Defined.

End SingleVoter.

(** ** Concrete worlds *)

(** A network without peers. *)
Definition no_network : Transport () := {|
  tr_RequestVote _ _ _ := ((), Err (Msg "peer is unavailable"));
  tr_PreVote _ _ _ := ((), Err (Msg "peer is unavailable"));
  tr_AppendEntries _ _ _ := ((), Err (Msg "peer is unavailable"));
  tr_InstallSnapshot _ _ _ := ((), Err (Msg "peer is unavailable"));
|}.

(** The leader of a cluster of one, with an empty log, and a clock that ticks. *)
Definition solo_leader : RaftNode MemoryStorage :=
  mkRaftNode "a"
    (mkState (mkPersistent 1 "a" (mkMembership (mkConfiguration ["a"]) None))
       (mkVolatile 0 0) (mkLeaderState ∅ ∅) {["a"]} Leader "a")
    NewLog NewMemoryStorage true [] [] None 0 10 false false 0 1 true.

Definition solo_world (s : Store) : NodeWorld MemoryStorage () :=
  mkNodeWorld solo_leader (NewApplier s) () [] (fun i => 100 + Z.of_nat i `mod` 1000)%Z 0.

Lemma solo_serving s : single_serving 1000 (solo_world s).
Proof.
  assert (log_wf NewLog) by apply NewLog_wf.
  split; [|done|done|].
  - by split.
  - intros i. cbn. pose proof (Z.mod_pos_bound (Z.of_nat i) 1000 eq_refl). lia.
Qed.
