(* ===== verification/Server.v ===== *)
(** The server: [internal/server].

    [srv_Get], [srv_Put], ... are the client operations, written against the
    [Backend] interface; [expireLocks] and [proposeLockExpiration] are the lock
    expiration worker, with the goroutines it starts; [maybeCreateSnapshot] and
    [srv_Start] are the snapshot worker and the recovery of its snapshots. *)

From S2P Require Import Prelude Model RaftLog Storage Membership ConfigEntry Node Election.
From S2P Require Import Apply SnapshotOps Replication ReplicationFacts Durability.
From S2P Require Import Lock KvStore KvSpec KvFacts KvSnapshot KvApplier Backend NodeBackend.
#[local] Open Scope raftiq_scope.

(** The commands of the operations; fields not named are zero. *)
Definition put_command (key : string) (value : bytes) : Command :=
  mkCommand CommandPut key value "" [] 0 "" 0 0 "" (JobOther "") 0.
Definition delete_command (key : string) : Command :=
  mkCommand CommandDelete key [] "" [] 0 "" 0 0 "" (JobOther "") 0.
Definition fenced_command (key : string) (value : bytes) (token : N) : Command :=
  mkCommand CommandFencedPut key value "" [] 0 "" 0 token "" (JobOther "") 0.
Definition acquire_command (key ownerID : string) (expiresAt : Z) : Command :=
  mkCommand CommandLockAcquire key [] "" [] 0 ownerID expiresAt 0 "" (JobOther "") 0.
Definition expire_command (key : string) (token : N) : Command :=
  mkCommand CommandLockExpire key [] "" [] 0 "" 0 token "" (JobOther "") 0.
Definition create_command (jobID : string) (payload : bytes) (scheduledAt : Z) : Command :=
  mkCommand CommandCreateJob "" [] jobID payload scheduledAt "" 0 0 "" (JobOther "") 0.

Record LockGrant := mkLockGrant {
  lg_Key : string;
  lg_OwnerID : string;
  lg_FencingToken : N;
  lg_ExpiresAt : Z;
}.

Definition Millisecond : Z := 1000000.

(** [time.Now().Add(time.Duration(leaseMillis) * time.Millisecond).UnixNano()]:
    both operations wrap. *)
Definition leaseExpiry (now leaseMillis : Z) : Z :=
  i64_wrap (now + i64_wrap (leaseMillis * Millisecond)).

Section Server.
Context {W : Type} `{CommandCodec} `{Backend W}.

(** ** Client operations *)

Definition act_lift {A} (r : result A) : Act W (result A) := act_ret r.

Definition srv_Get (key : string) : Act W (result (option bytes)) :=
  index <-? act_wrap "read index" be_ReadIndex ;;
  _ <-? act_wrap "wait for read index" (be_WaitApplied index) ;;
  fun w => Some (w, Ok (kv_Get key (be_store w))).

Definition srv_Put (key : string) (value : bytes) : Act W (result ()) :=
  commandData <-? act_wrap "encode put command" (act_lift (EncodeCommand (put_command key value))) ;;
  index <-? act_wrap "propose put command" (be_Propose commandData) ;;
  act_wrap "wait for put application" (be_WaitApplied index).

Definition srv_Delete (key : string) : Act W (result ()) :=
  commandData <-? act_wrap "encode delete command" (act_lift (EncodeCommand (delete_command key))) ;;
  index <-? act_wrap "propose delete command" (be_Propose commandData) ;;
  act_wrap "wait for delete application" (be_WaitApplied index).

Definition srv_FencedPut (key : string) (value : bytes) (fencingToken : N) : Act W (result ()) :=
  if bool_decide (key = "") then act_ret (Err ErrInvalidKey)
  else if (fencingToken =? 0)%N then act_ret (Err ErrStaleFencingToken)
  else
    commandData <-? act_wrap "encode fenced put command"
      (act_lift (EncodeCommand (fenced_command key value fencingToken))) ;;
    index <-? act_wrap "propose fenced put command" (be_Propose commandData) ;;
    res <-? act_wrap "wait for fenced put" (be_WaitResult index) ;;
    act_ret (match ar_Err res with Some e => Err e | None => Ok () end).

Definition srv_AcquireLock (key ownerID : string) (leaseMillis : Z) : Act W (result LockGrant) :=
  if bool_decide (key = "") then act_ret (Err ErrInvalidKey)
  else if bool_decide (ownerID = "") then act_ret (Err ErrInvalidOwner)
  else if (leaseMillis <=? 0)%Z then act_ret (Err (Msg "lease duration must be positive"))
  else
    now <- be_now ;;
    let expiresAt := leaseExpiry now leaseMillis in
    commandData <-? act_wrap "encode lock acquire command"
      (act_lift (EncodeCommand (acquire_command key ownerID expiresAt))) ;;
    index <-? act_wrap "propose lock acquire command" (be_Propose commandData) ;;
    _ <-? act_wrap "wait for lock acquisition" (be_WaitApplied index) ;;
    fun w => Some (w,
      match GetLock key (be_store w) with
      | None => Err ErrLockBusy
      | Some current =>
          if negb (lk_GrantIndex current =? index)%N then Err ErrLockBusy
          else if bool_decide (lk_OwnerID current ≠ ownerID) then Err ErrLockBusy
          else Ok (mkLockGrant (lk_Key current) (lk_OwnerID current) (lk_FencingToken current)
                     (lk_ExpiresAt current))
      end).

(** The job and the index; the index is also returned with errors of the state
    machine. *)
Definition srv_CreateJob (jobID : string) (payload : bytes) (scheduledAt : Z)
    : Act W (result Job * LogIndex) :=
  if bool_decide (jobID = "") then act_ret (Err (Wrap "job id is required" ErrInvalidJob), 0%N)
  else
    r <- (commandData <-? act_wrap "encode create job command"
            (act_lift (EncodeCommand (create_command jobID payload scheduledAt))) ;;
          index <-? act_wrap "propose create job command" (be_Propose commandData) ;;
          res <-? act_wrap "wait for job creation" (be_WaitResult index) ;;
          act_ret (Ok (index, res))) ;;
    act_ret
      match r with
      | Err e => (Err e, 0%N)
      | Ok (index, res) =>
          match ar_Err res with
          | Some e => (Err e, index)
          | None =>
              match ar_Job res with
              | None => (Err (Msg "create job: missing job result"), index)
              | Some job => (Ok job, index)
              end
          end
      end.

(** ** The lock expiration worker *)

Definition markExpirationPending (key : string) (token : N) (pending : gmap string N)
    : gmap string N * bool :=
  match pending !! key with
  | Some current => if (current =? token)%N then (pending, false) else (<[key := token]> pending, true)
  | None => (<[key := token]> pending, true)
  end.

Definition clearExpirationPending (key : string) (token : N) (pending : gmap string N)
    : gmap string N :=
  match pending !! key with
  | None => pending
  | Some current => if negb (current =? token)%N then pending else delete key pending
  end.

(** The loop of [expireLocks]: the marks, and the goroutines started, each given
    by its key and token. *)
Fixpoint expireLoop (now : Z) (ls : list Lock) (pending : gmap string N)
    : gmap string N * list (string * N) :=
  match ls with
  | [] => (pending, [])
  | current :: rest =>
      if (lk_ExpiresAt current <=? 0)%Z || (now <? lk_ExpiresAt current)%Z
      then expireLoop now rest pending
      else
        match markExpirationPending (lk_Key current) (lk_FencingToken current) pending with
        | (pending, false) => expireLoop now rest pending
        | (pending, true) =>
            let '(pending, started) := expireLoop now rest pending in
            (pending, (lk_Key current, lk_FencingToken current) :: started)
        end
  end.

Definition expireLocks (pending : gmap string N) : Act W (gmap string N * list (string * N)) :=
  fun w =>
    if bool_decide (be_role w ≠ Leader) then Some (w, (pending, []))
    else
      match be_now w with
      | None => None
      | Some (w, now) => Some (w, expireLoop now (ListLocks (be_store w)) pending)
      end.

(** The goroutine, up to its deferred [clearExpirationPending]; its outcome is
    only logged. *)
Definition proposeLockExpiration (key : string) (token : N) : Act W (result ()) :=
  commandData <-? act_lift (EncodeCommand (expire_command key token)) ;;
  index <-? be_Propose commandData ;;
  be_WaitApplied index.

End Server.

(** ** Snapshots and lifecycle *)

Definition ErrInvalidSnapshotConfig : error := Sentinel "invalid snapshot configuration".

Record SnapshotConfig := mkSnapshotConfig {
  sc_Interval : Z;
  sc_Threshold : LogIndex;
}.

Definition DefaultSnapshotInterval : Z := 1000 * Millisecond.
Definition DefaultSnapshotThreshold : LogIndex := 1000.

Definition validate (c : SnapshotConfig) : option error :=
  if (sc_Interval c <=? 0)%Z then Some (Wrap "interval must be positive" ErrInvalidSnapshotConfig)
  else if (sc_Threshold c <=? 0)%N then Some (Wrap "threshold must be positive" ErrInvalidSnapshotConfig)
  else None.

(** The fields of [Server] besides the node and the applier. *)
Record ServerState := mkServerState {
  pendingExpiration : gmap string N;
  snapshotConfig : SnapshotConfig;
}.

Definition SetSnapshotConfig (config : SnapshotConfig) (s : ServerState) : ServerState * option error :=
  match validate config with
  | Some e => (s, Some e)
  | None => (mkServerState (pendingExpiration s) config, None)
  end.

Section Snapshots.
Context {S : Type} `{Storage S} {Net : Type}.
Implicit Types w : NodeWorld S Net.

(** [raft.Snapshot]. *)
Definition raft_Snapshot (n : RaftNode S) : result Model.Snapshot :=
  wrap_err "load snapshot" (st_LoadSnapshot (storage n)).

Definition NewServer (n : RaftNode S) (store : Store) (net : Net) (clock : nat -> Z)
    : NodeWorld S Net * ServerState :=
  let applier := NewApplier store in
  (mkNodeWorld (SetSnapshotRestore (fun sn => snd (ap_RestoreSnapshot sn applier)) n)
     applier net [] clock 0,
   mkServerState ∅ (mkSnapshotConfig DefaultSnapshotInterval DefaultSnapshotThreshold)).

(** [Start], up to the goroutines it starts. *)
Definition srv_Start w : NodeWorld S Net * option error :=
  match raft_Snapshot (nw_node w) with
  | Err e => (w, Some (Wrap "load raft snapshot" e))
  | Ok snapshot =>
      if (0 <? snap_LastIncludedIndex snapshot)%N then
        match ap_RestoreSnapshot snapshot (nw_applier w) with
        | (a, Some e) => (set_applier a w, Some (Wrap "restore snapshot" e))
        | (a, None) => (set_applier a w, None)
        end
      else (w, None)
  end.

Definition maybeCreateSnapshot (config : SnapshotConfig) w : NodeWorld S Net * option error :=
  match raft_Snapshot (nw_node w) with
  | Err e => (w, Some (Wrap "load current snapshot" e))
  | Ok currentSnapshot =>
      match ap_Snapshot (nw_applier w) with
      | Err e => (w, Some (Wrap "capture applied state" e))
      | Ok (data, appliedIndex) =>
          if (appliedIndex =? 0)%N then (w, None)
          else if (appliedIndex <=? snap_LastIncludedIndex currentSnapshot)%N then (w, None)
          else if (u64_sub appliedIndex (snap_LastIncludedIndex currentSnapshot) <? sc_Threshold config)%N
          then (w, None)
          else
            match CreateSnapshot appliedIndex data (nw_node w) with
            | (n, Some e) => (set_node n w, Some (Wrap "create snapshot" e))
            | (n, None) => (set_node n w, None)
            end
      end
  end.

End Snapshots.
