(* ===== verification/ServerFacts.v ===== *)
(** What the server guarantees to its clients.

    The client operations refine the store: on a leader that keeps serving, a
    sequence of requests leaves the store and returns the replies of the
    sequential specification [spec_request].  The lock expiration worker never has two
    goroutines for one lock and removes only the lock it was started for.
    Snapshots are taken at the threshold and restored exactly. *)

From S2P Require Import Prelude Model RaftLog Storage Membership ConfigEntry Node Election.
From S2P Require Import Apply SnapshotOps Replication ReplicationFacts Durability.
From S2P Require Import Lock KvStore KvSpec KvFacts KvSnapshot KvApplier Backend NodeBackend Server.
From S2P Require Import Bytes Json JsonCodec JsonCommand.
#[local] Open Scope raftiq_scope.

(** ** The specification of the client operations *)

Inductive Request :=
| RGet (key : string)
| RPut (key : string) (value : bytes)
| RDelete (key : string)
| RFencedPut (key : string) (value : bytes) (token : N)
| RAcquireLock (key ownerID : string) (leaseMillis : Z)
| RCreateJob (jobID : string) (payload : bytes) (scheduledAt : Z).

Inductive Reply :=
| Value (v : option bytes)
| Done
| Granted (g : LockGrant)
| Created (j : Job) (index : LogIndex)
| Rejected (e : error).

Definition reply_of {A} (f : A -> Reply) (r : result A) : Reply :=
  match r with Ok a => f a | Err e => Rejected e end.

Definition serve_request {W} `{CommandCodec} `{Backend W} (req : Request) : Act W Reply :=
  match req with
  | RGet key => r <- srv_Get key ;; act_ret (reply_of Value r)
  | RPut key value => r <- srv_Put key value ;; act_ret (reply_of (fun _ => Done) r)
  | RDelete key => r <- srv_Delete key ;; act_ret (reply_of (fun _ => Done) r)
  | RFencedPut key value token => r <- srv_FencedPut key value token ;; act_ret (reply_of (fun _ => Done) r)
  | RAcquireLock key ownerID lease =>
      r <- srv_AcquireLock key ownerID lease ;; act_ret (reply_of Granted r)
  | RCreateJob jobID payload at_ =>
      r <- srv_CreateJob jobID payload at_ ;;
      act_ret (reply_of (fun j => Created j (snd r)) (fst r))
  end.

(** The effect and the reply of a request on the store, at time [now] when the
    next log index is [index]; the flag tells whether the index is used. *)
Definition spec_request (now : Z) (index : LogIndex) (req : Request) (s : Store) : Store * Reply * bool :=
  match req with
  | RGet key => (s, Value (kv_Get key s), false)
  | RPut key value => (Put key value s, Done, true)
  | RDelete key => (fst (Delete key s), Done, true)
  | RFencedPut key value token =>
      if bool_decide (key = "") then (s, Rejected ErrInvalidKey, false)
      else if (token =? 0)%N then (s, Rejected ErrStaleFencingToken, false)
      else
        match lock_at key s with
        | None => (s, Rejected ErrLockNotFound, true)
        | Some l =>
            if (lk_FencingToken l =? token)%N
            then (mkStore (data s) (locks s) (<[key := mkFenced value token]> (fenced s)) (jobs s), Done, true)
            else (s, Rejected ErrStaleFencingToken, true)
        end
  | RAcquireLock key ownerID lease =>
      if bool_decide (key = "") then (s, Rejected ErrInvalidKey, false)
      else if bool_decide (ownerID = "") then (s, Rejected ErrInvalidOwner, false)
      else if (lease <=? 0)%Z then (s, Rejected (Msg "lease duration must be positive"), false)
      else
        match lock_at key s with
        | Some _ => (s, Rejected ErrLockBusy, true)
        | None =>
            (set_locks (grant key ownerID (leaseExpiry now lease) index (locks s)) s,
             Granted (mkLockGrant key ownerID (u64_add (next_token s) 1) (leaseExpiry now lease)), true)
        end
  | RCreateJob jobID payload at_ =>
      if bool_decide (jobID = "") then (s, Rejected (Wrap "job id is required" ErrInvalidJob), false)
      else
        match jobs s !! jobID with
        | Some _ => (s, Rejected (Wrap "create job" (Wrap "job" ErrJobAlreadyExists)), true)
        | None =>
            let job := mkJob jobID payload JobPending at_ "" 0 0 "" index in
            (set_job jobID job s, Created job index, true)
        end
  end.

Fixpoint spec_requests (times : list Z) (index : LogIndex) (reqs : list Request) (s : Store)
    : Store * list Reply :=
  match reqs, times with
  | req :: reqs, now :: times =>
      let '(s, reply, used) := spec_request now index req s in
      let '(s, replies) := spec_requests times (if used then index + 1 else index)%N reqs s in
      (s, reply :: replies)
  | _, _ => (s, [])
  end.

Fixpoint serve_requests {W} `{CommandCodec} `{Backend W} (reqs : list Request) : Act W (list Reply) :=
  match reqs with
  | [] => act_ret []
  | req :: reqs =>
      reply <- serve_request req ;; replies <- serve_requests reqs ;; act_ret (reply :: replies)
  end.

Section Refinement.
Context {W : Type} `{BackendLaws W}.

(** The commands of the request reach the appliers unchanged. *)
Definition sendable (req : Request) : Prop :=
  match req with
  | RGet _ => True
  | RPut key value => exists data, transmitted (put_command key value) data
  | RDelete key => exists data, transmitted (delete_command key) data
  | RFencedPut key value token => exists data, transmitted (fenced_command key value token) data
  | RAcquireLock key ownerID _ => forall e, is_i64 e -> exists data, transmitted (acquire_command key ownerID e) data
  | RCreateJob jobID payload at_ => exists data, transmitted (create_command jobID payload at_) data
  end.

(** [w'] is a serving world after one command, or none, was applied to [w]. *)
Definition served (k : nat) (used : bool) (s : Store) (w w' : W) : Prop :=
  be_store w' = s /\ serving k w' /\ committed_in_term w' /\
  next_index w' = (if used then next_index w + 1 else next_index w)%N.

(** Encoding and proposing a command. *)
Lemma propose_runs {A} (K : LogIndex -> Act W (result A)) k w c data s r t1 t2 :
  serving (S k) w -> transmitted c data -> malformed c = false ->
  applyCommand c (next_index w) (be_store w) = Some (s, r) ->
  exists w1,
    try_bind (act_wrap t1 (act_lift (EncodeCommand c)))
      (fun commandData => try_bind (act_wrap t2 (be_Propose commandData)) K) w = K (next_index w) w1 /\
    (exists w2, be_WaitApplied (next_index w) w1 = Some (w2, Ok ()) /\ served k true s w w2) /\
    (needsResult c = true ->
     exists w2, be_WaitResult (next_index w) w1 = Some (w2, Ok r) /\ served k true s w w2).
Proof.
  intros Hs Ht Hm E. destruct (serving_Propose k w c data s r Hs Ht Hm E) as (w1 & HP & Hwait).
  exists w1. split; [|done]. destruct Ht as (He & _).
  rewrite (try_bind_Ok _ _ w w data) by (apply act_wrap_Ok; unfold act_lift; by rewrite He).
  rewrite (try_bind_Ok _ _ w w1 (next_index w)) by (by apply act_wrap_Ok). done.
Qed.

Lemma served_refl k w :
  serving (S k) w -> committed_in_term w -> served k false (be_store w) w w.
Proof. intros Hs Hc. split_and!; [done|by apply serving_weaken|done|done]. Qed.

Lemma srv_Get_serves key k w :
  serving (S k) w -> committed_in_term w ->
  exists w', srv_Get key w = Some (w', Ok (kv_Get key (be_store w))) /\ served k false (be_store w) w w'.
Proof.
  intros Hs Hc. destruct (serving_ReadIndex _ w Hs Hc) as (w1 & i & HR & w2 & HW & Hst & Hs2 & Hc2 & Hn).
  exists w2. unfold srv_Get. rewrite (try_bind_Ok _ _ w w1 i) by (by apply act_wrap_Ok).
  rewrite (try_bind_Ok _ _ w1 w2 ()) by (by apply act_wrap_Ok). rewrite Hst.
  split; [done|]. split_and!; [done|by apply serving_weaken|done|done].
Qed.

Lemma srv_Put_serves key value k w :
  serving (S k) w -> sendable (RPut key value) ->
  exists w', srv_Put key value w = Some (w', Ok ()) /\ served k true (Put key value (be_store w)) w w'.
Proof.
  intros Hs [data Ht]. unfold srv_Put.
  destruct (propose_runs (fun i => act_wrap "wait for put application" (be_WaitApplied i)) k w _ data
    _ _ "encode put command" "propose put command" Hs Ht eq_refl eq_refl) as (w1 & -> & (w2 & HW & Hsv) & _).
  exists w2. split; [by apply act_wrap_Ok|exact Hsv].
Qed.

Lemma srv_Delete_serves key k w :
  serving (S k) w -> sendable (RDelete key) ->
  exists w', srv_Delete key w = Some (w', Ok ()) /\ served k true (fst (Delete key (be_store w))) w w'.
Proof.
  intros Hs [data Ht]. unfold srv_Delete.
  destruct (propose_runs (fun i => act_wrap "wait for delete application" (be_WaitApplied i)) k w _ data
    _ _ "encode delete command" "propose delete command" Hs Ht eq_refl eq_refl)
    as (w1 & -> & (w2 & HW & Hsv) & _).
  exists w2. split; [by apply act_wrap_Ok|exact Hsv].
Qed.

Lemma srv_FencedPut_serves key value token k w :
  serving (S k) w -> committed_in_term w -> sendable (RFencedPut key value token) ->
  let '(s, reply, used) := spec_request 0 (next_index w) (RFencedPut key value token) (be_store w) in
  exists w' r, srv_FencedPut key value token w = Some (w', r) /\ reply_of (fun _ => Done) r = reply /\
    served k used s w w'.
Proof.
  intros Hs Hc [data Ht]. cbn [spec_request]. unfold srv_FencedPut.
  case_bool_decide as Hk; [eexists w, _; split_and!; [done|done|by apply served_refl]|].
  destruct (N.eqb_spec token 0) as [Hz|Hz]; [eexists w, _; split_and!; [done|done|by apply served_refl]|].
  assert (malformed (fenced_command key value token) = false) as Hm by (by apply bool_decide_eq_false).
  destruct (applyCommand (fenced_command key value token) (next_index w) (be_store w)) as [[s r]|] eqn:E.
  2: { unfold applyCommand in E. done. }
  destruct (propose_runs (fun i => try_bind (act_wrap "wait for fenced put" (be_WaitResult i))
    (fun res => act_ret (match ar_Err res with Some e => Err e | None => Ok () end))) k w _ data _ _
    "encode fenced put command" "propose fenced put command" Hs Ht Hm E) as (w1 & -> & _ & Hres).
  destruct (Hres eq_refl) as (w2 & HW & Hsv).
  rewrite (try_bind_Ok _ _ w1 w2 r) by (by apply act_wrap_Ok).
  unfold applyCommand, applyLockCommand, applyFencedPut, FencedPut in E. cbn in E.
  rewrite bool_decide_false in E by done. destruct (N.eqb_spec token 0); [done|].
  unfold lock_at, Get in *.
  destruct (Locks (locks (be_store w)) !! key) as [l|]; [destruct (lk_FencingToken l =? token)%N|];
    cbn in E; rewrite ?bool_decide_true, ?orb_true_r in E by done; simplify_eq/=; by eexists w2, _.
Qed.

Lemma srv_AcquireLock_serves key ownerID lease k w :
  serving (S k) w -> committed_in_term w -> sendable (RAcquireLock key ownerID lease) ->
  grants_below (next_index w) (be_store w) ->
  exists now w0, be_now w = Some (w0, now) /\ (0 < now < 2 ^ 62)%Z /\
  let '(s, reply, used) := spec_request now (next_index w) (RAcquireLock key ownerID lease) (be_store w) in
  exists w' r, srv_AcquireLock key ownerID lease w = Some (w', r) /\ reply_of Granted r = reply /\
    served k used s w w'.
Proof.
  intros Hs Hc Ht Hg. cbn [spec_request]. unfold srv_AcquireLock.
  destruct (serving_now _ w Hs) as (w0 & now & Hnow & Hr & Hst0 & Hs0 & Hn0 & _).
  exists now, w0. split; [done|]. split; [done|].
  case_bool_decide as Hk; [eexists w, _; split_and!; [done|done|by apply served_refl]|].
  case_bool_decide as Ho; [eexists w, _; split_and!; [done|done|by apply served_refl]|].
  destruct (lease <=? 0)%Z; [eexists w, _; split_and!; [done|done|by apply served_refl]|].
  rewrite (act_bind_Some _ _ _ _ _ Hnow).
  destruct (Ht (leaseExpiry now lease) (i64_wrap_range _)) as [data Hd].
  assert (malformed (acquire_command key ownerID (leaseExpiry now lease)) = false) as Hm.
  { unfold malformed. cbn. by rewrite !bool_decide_false by done. }
  assert (exists r, applyCommand (acquire_command key ownerID (leaseExpiry now lease)) (next_index w0)
      (be_store w0) = Some (set_locks (fst (fst (Acquire key ownerID (leaseExpiry now lease) (next_index w)
        (locks (be_store w))))) (be_store w), r)) as [r E].
  { rewrite Hst0, Hn0. unfold applyCommand, applyLockCommand, AcquireLock. cbn.
    rewrite !bool_decide_false by done. destruct (Acquire _ _ _ _ _) as [[? ?] ?]. by eexists. }
  unshelve epose proof (propose_runs _ k w0 _ data _ _ "encode lock acquire command"
    "propose lock acquire command" Hs0 Hd Hm E) as (w1 & Hrun & (w2 & HW & Hsv) & _);
    [exact LockGrant|..|rewrite Hrun]; clear Hrun. cbn beta.
  rewrite (try_bind_Ok _ _ w1 w2 ()) by (by apply act_wrap_Ok).
  unfold served in Hsv |- *. rewrite Hn0 in Hsv. destruct Hsv as (Hst & Hsv). rewrite Hst, Hn0.
  unfold GetLock, Get, Acquire, lock_at. cbn [locks set_locks].
  destruct (Locks (locks (be_store w)) !! key) as [l|] eqn:El.
  - cbn [fst Locks]. rewrite El. specialize (Hg key l El).
    destruct (N.eqb_spec (lk_GrantIndex l) (next_index w)); [lia|]. cbn [negb].
    eexists w2, _. split_and!; try done; try apply Hsv. rewrite Hst. unfold Acquire. rewrite El. cbn.
    by destruct (be_store w).
  - cbn [fst Locks]. rewrite lookup_insert_eq. cbn [lk_GrantIndex lk_OwnerID]. rewrite N.eqb_refl. cbn [negb].
    rewrite bool_decide_false by naive_solver. eexists w2, _. split_and!; try done; try apply Hsv.
    rewrite Hst. unfold Acquire. by rewrite El.
Qed.

Lemma srv_CreateJob_serves jobID payload at_ k w :
  serving (S k) w -> committed_in_term w -> sendable (RCreateJob jobID payload at_) ->
  let '(s, reply, used) := spec_request 0 (next_index w) (RCreateJob jobID payload at_) (be_store w) in
  exists w' r, srv_CreateJob jobID payload at_ w = Some (w', r) /\
    reply_of (fun j => Created j (snd r)) (fst r) = reply /\ served k used s w w'.
Proof.
  intros Hs Hc [data Ht]. cbn [spec_request]. unfold srv_CreateJob.
  case_bool_decide as Hk; [eexists w, _; split_and!; [done|done|by apply served_refl]|].
  destruct (applyCommand (create_command jobID payload at_) (next_index w) (be_store w)) as [[s r]|] eqn:E.
  2: { unfold applyCommand in E. done. }
  unshelve epose proof (propose_runs _ k w _ data _ _ "encode create job command"
    "propose create job command" Hs Ht eq_refl E) as (w1 & Hrun & _ & Hres);
    [exact (LogIndex * ApplyResult)%type|
     exact (fun i => try_bind (act_wrap "wait for job creation" (be_WaitResult i))
              (fun res => act_ret (Ok (i, res))))|..].
  destruct (Hres eq_refl) as (w2 & HW & Hsv). cbn beta in Hrun.
  rewrite (try_bind_Ok _ _ w1 w2 r) in Hrun by (by apply act_wrap_Ok).
  rewrite (act_bind_Some _ _ _ _ _ Hrun). 
  unfold applyCommand, applyJobCreationCommand, CreateJob in E. cbn in E.
  rewrite bool_decide_false in E by done.
  rewrite bool_decide_false in E by done.
  destruct (jobs (be_store w) !! jobID); cbn in E; simplify_eq; eexists w2, _; split_and!;
    [reflexivity|reflexivity|exact Hsv|reflexivity|reflexivity|exact Hsv].
Qed.

Lemma request_serves req k w :
  serving (S k) w -> committed_in_term w -> sendable req -> grants_below (next_index w) (be_store w) ->
  exists now, (0 < now < 2 ^ 62)%Z /\
  let '(s, reply, used) := spec_request now (next_index w) req (be_store w) in
  exists w', serve_request req w = Some (w', reply) /\ served k used s w w'.
Proof.
  intros Hs Hc Hsend Hg. destruct req as [key|key v|key|key v t|key o lease|i p a]; cbn [serve_request].
  - exists 1%Z. split; [done|]. destruct (srv_Get_serves key k w Hs Hc) as (w' & E & Hsv).
    rewrite (act_bind_Some _ _ _ _ _ E). by exists w'.
  - exists 1%Z. split; [done|]. destruct (srv_Put_serves key v k w Hs Hsend) as (w' & E & Hsv).
    rewrite (act_bind_Some _ _ _ _ _ E). by exists w'.
  - exists 1%Z. split; [done|]. destruct (srv_Delete_serves key k w Hs Hsend) as (w' & E & Hsv).
    rewrite (act_bind_Some _ _ _ _ _ E). by exists w'.
  - exists 1%Z. split; [done|]. pose proof (srv_FencedPut_serves key v t k w Hs Hc Hsend) as HF.
    change (spec_request 1 ?i ?x ?s) with (spec_request 0 i x s).
    destruct (spec_request _ _ _ _) as [[s reply] used]. destruct HF as (w' & r & E & <- & Hsv).
    rewrite (act_bind_Some _ _ _ _ _ E). by exists w'.
  - destruct (srv_AcquireLock_serves key o lease k w Hs Hc Hsend Hg) as (now & w0 & _ & Hnow & HA).
    exists now. split; [done|]. destruct (spec_request _ _ _ _) as [[s reply] used].
    destruct HA as (w' & r & E & <- & Hsv). rewrite (act_bind_Some _ _ _ _ _ E). by exists w'.
  - exists 1%Z. split; [done|]. pose proof (srv_CreateJob_serves i p a k w Hs Hc Hsend) as HF.
    change (spec_request 1 ?i ?x ?s) with (spec_request 0 i x s).
    destruct (spec_request _ _ _ _) as [[s reply] used]. destruct HF as (w' & r & E & <- & Hsv).
    rewrite (act_bind_Some _ _ _ _ _ E). by exists w'.
Qed.

(** The grants of the store stay below the next index. *)
Lemma spec_request_grants now index req s s' reply used :
  spec_request now index req s = (s', reply, used) -> grants_below index s ->
  grants_below (if used then index + 1 else index)%N s'.
Proof.
  intros E Hb. assert (grants_below (index + 1)%N s) as Hb1.
  { intros key l Hl. specialize (Hb key l Hl). lia. }
  unfold spec_request in E. repeat split_hyp_match E; simplify_eq; try done.
  - unfold Delete. by destruct (data s !! key).
  - intros key2 l. rewrite lock_at_grant. destruct (decide (key = key2)); [|apply Hb1].
    intros [= <-]. cbn. lia.
Qed.

(** Any sequence of requests that can be sent. *)
Lemma requests_serve reqs w :
  serving (length reqs) w -> committed_in_term w -> Forall sendable reqs ->
  grants_below (next_index w) (be_store w) ->
  exists times w' replies,
    length times = length reqs /\ Forall (fun t => 0 < t < 2 ^ 62)%Z times /\
    serve_requests reqs w = Some (w', replies) /\
    spec_requests times (next_index w) reqs (be_store w) = (be_store w', replies) /\
    serving 0 w'.
Proof.
  revert w; induction reqs as [|req reqs IH]; intros w Hs Hc Hsend Hg.
  { exists [], w, []. by split_and!. }
  apply Forall_cons in Hsend as [Hreq Hreqs].
  destruct (request_serves req (length reqs) w Hs Hc Hreq Hg) as (now & Hnow & HR).
  destruct (spec_request now (next_index w) req (be_store w)) as [[s reply] used] eqn:E.
  destruct HR as (w1 & E1 & Hst & Hs1 & Hc1 & Hn1). apply spec_request_grants in E as Hg1; [|done].
  destruct (IH w1) as (times & w' & replies & Hlen & Ht & E2 & Hspec & Hend);
    [done..|by rewrite Hst, Hn1|].
  exists (now :: times), w', (reply :: replies). split_and!.
  - cbn. by rewrite Hlen.
  - by constructor.
  - cbn [serve_requests]. rewrite (act_bind_Some _ _ _ _ _ E1), (act_bind_Some _ _ _ _ _ E2). done.
  - cbn [spec_requests]. rewrite E, <- Hn1, <- Hst, Hspec. done.
  - done.
Qed.

End Refinement.

(** ** With the commands as JSON *)

(** Requests as they arrive over gRPC: strings are valid UTF-8 and integers fit. *)
Definition request_ok (req : Request) : Prop :=
  match req with
  | RGet _ => True
  | RPut key _ | RDelete key => text key
  | RFencedPut key _ token => text key /\ is_u64 token
  | RAcquireLock key ownerID _ => text key /\ text ownerID
  | RCreateJob jobID _ at_ => text jobID /\ is_i64 at_
  end.

Lemma request_ok_sendable req : request_ok req -> @sendable go_codec req.
Proof.
  destruct req as [key|key v|key|key v t|key o lease|i p a]; cbn [request_ok sendable]; [done|..].
  - intros Hk. apply go_codec_transmits. command_texts.
  - intros Hk. apply go_codec_transmits. command_texts.
  - intros [Hk Ht]. apply go_codec_transmits. command_texts.
  - intros [Hk Ho] e He. apply go_codec_transmits. command_texts.
  - intros [Hi Ha]. apply go_codec_transmits. command_texts.
Qed.

Section GoServer.
#[local] Existing Instance go_codec.
Context {W : Type} {B : Backend W} {L : BackendLaws W}.

(** C13: the server refines the store.  On a leader that keeps serving, and that
    has committed an entry in its term, any sequence of client requests returns,
    and the replies and the final store are those of the sequential specification
    at the clock readings of the calls: values read are the last written,
    rejected requests change nothing, and granted locks carry fresh tokens.  The
    commands go through the log as JSON; the strings of the requests are valid
    UTF-8 and their integers fit their types. *)
Theorem server_refines_store reqs w :
  serving (length reqs) w -> committed_in_term w -> Forall request_ok reqs ->
  grants_below (next_index w) (be_store w) ->
  exists times w' replies,
    length times = length reqs /\ Forall (fun t => 0 < t < 2 ^ 62)%Z times /\
    serve_requests reqs w = Some (w', replies) /\
    spec_requests times (next_index w) reqs (be_store w) = (be_store w', replies) /\
    serving 0 w'.
Proof.
  intros Hs Hc Hok Hg. apply requests_serve; try done. eapply Forall_impl; [exact Hok|exact request_ok_sendable].
Qed.

End GoServer.

(** ** Lock expiration *)

(** The expired locks [expireLocks] looks for. *)
Definition expired (now : Z) (l : Lock) : Prop := (0 < lk_ExpiresAt l <= now)%Z.

Lemma markExpirationPending_spec key token pending :
  (pending !! key = Some token /\ markExpirationPending key token pending = (pending, false)) \/
  (pending !! key ≠ Some token /\ markExpirationPending key token pending = (<[key := token]> pending, true)).
Proof.
  unfold markExpirationPending. destruct (pending !! key) as [t|]; [|by right].
  destruct (N.eqb_spec t token) as [->|]; [by left|right]. split; [congruence|done].
Qed.

(** Which goroutines one pass starts, and the marks it leaves. *)
Lemma expireLoop_spec now ls pending :
  NoDup (map lk_Key ls) ->
  let '(pending', started) := expireLoop now ls pending in
  (forall k t, (k, t) ∈ started <->
     exists l, l ∈ ls /\ lk_Key l = k /\ lk_FencingToken l = t /\ expired now l /\ pending !! k ≠ Some t) /\
  NoDup (map fst started) /\
  (forall k t, (k, t) ∈ started -> pending' !! k = Some t) /\
  (forall k, k ∉ map fst started -> pending' !! k = pending !! k).
Proof.
  revert pending; induction ls as [|l ls IH]; intros pending Hnd; cbn [expireLoop].
  { split_and!; [|constructor|by intros k t ?%not_elem_of_nil|done].
    intros k t. split; [by intros ?%not_elem_of_nil|]. by intros (l & ?%not_elem_of_nil & _). }
  cbn [map] in Hnd. apply NoDup_cons in Hnd as [Hnotin Hnd].
  assert (forall P : Lock -> Prop, (exists l0, l0 ∈ l :: ls /\ P l0) <-> P l \/ exists l0, l0 ∈ ls /\ P l0)
    as Hex by (intros P; setoid_rewrite elem_of_cons; naive_solver).
  destruct ((lk_ExpiresAt l <=? 0)%Z || (now <? lk_ExpiresAt l)%Z) eqn:Hx.
  - specialize (IH pending Hnd). destruct (expireLoop now ls pending) as [pending' started].
    destruct IH as (H1 & H2 & H3 & H4). split_and!; try done. intros k t. rewrite H1, Hex.
    apply orb_true_iff in Hx. rewrite Z.leb_le, Z.ltb_lt in Hx. unfold expired in *. naive_solver lia.
  - apply orb_false_iff in Hx as [Hx1%Z.leb_gt Hx2%Z.ltb_ge].
    destruct (markExpirationPending_spec (lk_Key l) (lk_FencingToken l) pending) as [[Hp ->]|[Hp ->]].
    + specialize (IH pending Hnd). destruct (expireLoop now ls pending) as [pending' started].
      destruct IH as (H1 & H2 & H3 & H4). split_and!; try done. intros k t. rewrite H1, Hex. naive_solver.
    + specialize (IH (<[lk_Key l := lk_FencingToken l]> pending) Hnd).
      destruct (expireLoop now ls _) as [pending' started]. destruct IH as (H1 & H2 & H3 & H4).
      assert (lk_Key l ∉ map fst started) as Hfresh.
      { intros ([k t] & Hk & Hin)%list_elem_of_fmap. cbn in Hk. subst k.
        apply H1 in Hin as (l0 & Hin & Hk & _). apply Hnotin. rewrite <- Hk. by apply list_elem_of_fmap_2. }
      split_and!.
      * intros k t. rewrite elem_of_cons, H1, Hex. split.
        -- intros [[= -> ->]|(l0 & Hin & Hk & Ht & He & Hpk)]; [left; split_and!; try done; split; lia|].
           right. exists l0. split_and!; try done. rewrite lookup_insert_ne in Hpk; [done|].
           intros Heq. apply Hnotin. rewrite Heq, <- Hk. by apply list_elem_of_fmap_2.
        -- intros [(Hk & Ht & _)|(l0 & Hin & Hk & Ht & He & Hpk)]; [left; congruence|]. right.
           exists l0. split_and!; try done. rewrite lookup_insert_ne; [done|].
           intros Heq. apply Hnotin. rewrite Heq, <- Hk. by apply list_elem_of_fmap_2.
      * cbn. constructor; [done|done].
      * intros k t [[= -> ->]|Hin]%elem_of_cons; [|by apply H3]. rewrite (H4 _ Hfresh). apply lookup_insert_eq.
      * intros k Hk. cbn in Hk. apply not_elem_of_cons in Hk as [Hne Hk].
        rewrite (H4 _ Hk). by apply lookup_insert_ne.
Qed.

Section Expiration.
Context {W : Type} `{CommandCodec} `{ClockLaws W}.

(** The worker and its goroutines. *)
Record ExpState := mkExpState {
  es_world : W;
  es_pending : gmap string N;
  es_tasks : list (string * N);
}.

(** What can happen: a tick of the worker, commands applied to the store (by the
    goroutines or by anyone else), the end of a goroutine. *)
Inductive exp_step : ExpState -> ExpState -> Prop :=
| exp_tick w pending tasks w' pending' started :
    expireLocks pending w = Some (w', (pending', started)) ->
    exp_step (mkExpState w pending tasks) (mkExpState w' pending' (tasks ++ started))
| exp_apply w pending tasks w' cs :
    token_room (length cs) (be_store w) -> run cs (be_store w) = Some (be_store w') ->
    exp_step (mkExpState w pending tasks) (mkExpState w' pending tasks)
| exp_finish w pending tasks1 key token tasks2 :
    exp_step (mkExpState w pending (tasks1 ++ (key, token) :: tasks2))
             (mkExpState w (clearExpirationPending key token pending) (tasks1 ++ tasks2)).

Record exp_inv (x : ExpState) : Prop := {
  ei_locks : locks_ok (be_store (es_world x));
  ei_nodup : NoDup (es_tasks x);
  ei_marked : forall k t, es_pending x !! k = Some t -> (k, t) ∈ es_tasks x;
  ei_issued : forall k t, (k, t) ∈ es_tasks x -> (t <= next_token (be_store (es_world x)))%N;
  ei_tasks : forall k t, (k, t) ∈ es_tasks x ->
    es_pending x !! k = Some t \/ lost k t (be_store (es_world x));
}.

Lemma ListLocks_keys s : locks_ok s -> NoDup (map lk_Key (ListLocks s)).
Proof.
  intros Hok. unfold ListLocks.
  replace (map lk_Key (map_to_list (Locks (locks s))).*2) with (map_to_list (Locks (locks s))).*1.
  - apply NoDup_fst_map_to_list.
  - change (map lk_Key ?x) with (lk_Key <$> x). rewrite <- list_fmap_compose. apply list_fmap_ext.
    intros i [k l] Hi%list_elem_of_lookup_2%elem_of_map_to_list.
    change (k = lk_Key l). by destruct (Hok k l Hi) as (_ & -> & _).
Qed.

Lemma ListLocks_spec s l : locks_ok s -> l ∈ ListLocks s <-> lock_at (lk_Key l) s = Some l.
Proof.
  intros Hok. unfold ListLocks. rewrite list_elem_of_fmap. split.
  - intros ([k l'] & -> & Hi%elem_of_map_to_list). cbn. by destruct (Hok k l' Hi) as (_ & -> & _).
  - intros Hl. exists (lk_Key l, l). split; [done|]. by apply elem_of_map_to_list.
Qed.

Lemma exp_tick_inv w pending tasks w' pending' started :
  expireLocks pending w = Some (w', (pending', started)) ->
  exp_inv (mkExpState w pending tasks) -> exp_inv (mkExpState w' pending' (tasks ++ started)).
Proof.
  unfold expireLocks. intros E [Hl Hn Hm Hi Ht]. cbn in Hl, Hn, Hm, Hi, Ht. case_bool_decide.
  { injection E as <- <- <-. rewrite app_nil_r. by split. }
  destruct (be_now w) as [[w1 now]|] eqn:En; [|done]. apply now_frame in En as [Hst _].
  injection E as <- E. rewrite Hst in E.
  pose proof (expireLoop_spec now _ pending (ListLocks_keys _ Hl)) as Hspec. rewrite E in Hspec.
  destruct Hspec as (Hst1 & Hst2 & Hst3 & Hst4).
  assert (forall k t, (k, t) ∈ started -> holds k t (be_store w) /\ (t <= next_token (be_store w))%N /\
    pending !! k ≠ Some t) as Hheld.
  { intros k t (l & Hin & <- & <- & _ & Hp)%Hst1. apply ListLocks_spec in Hin; [|done].
    split_and!; [by exists l|apply (Hl _ _ Hin)|done]. }
  split; cbn; rewrite ?Hst; try done.
  - apply NoDup_app. split_and!; [done| |by apply (NoDup_fmap_1 fst)].
    intros [k t] Hin Hs. destruct (Hheld k t Hs) as (Hh & _ & Hp).
    destruct (Ht k t Hin) as [|[_ Hlost]]; done.
  - intros k t Hp. apply elem_of_app. destruct (decide (k ∈ map fst started)) as [Hk|Hk].
    + right. apply list_elem_of_fmap in Hk as ([k' t'] & -> & Hin). cbn in *.
      rewrite (Hst3 _ _ Hin) in Hp. by injection Hp as <-.
    + left. apply Hm. by rewrite <- (Hst4 k Hk).
  - intros k t [Hin|Hin]%elem_of_app; [by apply (Hi k)|apply (Hheld k t Hin)].
  - intros k t [Hin|Hin]%elem_of_app; [|left; by apply Hst3].
    destruct (decide (k ∈ map fst started)) as [Hk|Hk]; [|by rewrite (Hst4 k Hk); apply Ht].
    apply list_elem_of_fmap in Hk as ([k' t'] & -> & Hs). cbn [fst] in *.
    destruct (Hheld _ _ Hs) as ((l & Hl' & Htok) & _ & Hp). destruct (Ht _ _ Hin) as [Hpk|]; [|by right].
    right. split; [by apply (Hi k')|]. intros (l' & Hl2 & Htok'). rewrite Hl' in Hl2. injection Hl2 as <-.
    congruence.
Qed.

Lemma exp_step_inv x x' : exp_step x x' -> exp_inv x -> exp_inv x'.
Proof.
  intros Hs. destruct Hs as [w pending tasks w' pending' started E|w pending tasks w' cs Hr E|
    w pending tasks1 key token tasks2]; [by apply (exp_tick_inv w)| |].
  - intros [Hl Hn Hm Hi Ht]. cbn in *.
    assert (locks_ok (be_store w')).
    { eapply (run_invariant locks_ok); [|exact Hr|exact E|done]. intros s1 s2 Hr1 [y Hy].
      by apply (locks_ok_step y). }
    assert (next_token (be_store w) <= next_token (be_store w'))%N as Hnt.
    { eapply (run_invariant (fun s => next_token (be_store w) <= next_token s)%N);
        [|exact Hr|exact E|lia]. intros s1 s2 Hr1 Hy ?. pose proof (kv_step_next _ _ Hr1 Hy). lia. }
    split; try done; cbn.
    + intros k t Hin. specialize (Hi k t Hin). lia.
    + intros k t Hin. destruct (Ht k t Hin) as [?|Hlost]; [by left|right].
      eapply (run_invariant (lost k t)); [|exact Hr|exact E|done]. intros s1 s2. apply lost_step.
  - intros [Hl Hn Hm Hi Ht]. cbn in *.
    assert (forall k t, (k, t) ∈ tasks1 ++ tasks2 <->
      (k, t) ∈ tasks1 ++ (key, token) :: tasks2 /\ (k, t) ≠ (key, token)) as Hin.
    { intros k t. apply NoDup_app in Hn as (_ & Hd & Hn2). apply NoDup_cons in Hn2 as [Hn2 _].
      rewrite !elem_of_app, elem_of_cons. split; [|naive_solver]. intros [Hi1|Hi1]; split; [by left| | |].
      - intros [= -> ->]. apply (Hd _ Hi1). set_solver.
      - by right; right.
      - by intros [= -> ->]. }
    assert (forall k t, (k, t) ≠ (key, token) -> pending !! k = Some t ->
      clearExpirationPending key token pending !! k = Some t) as Hkeep.
    { intros k t Hne Hp. unfold clearExpirationPending. destruct (pending !! key) as [c|] eqn:Ec; [|done].
      destruct (N.eqb_spec c token) as [->|]; [|done]. cbn. rewrite lookup_delete_ne; [done|].
      intros ->. congruence. }
    assert (forall k t, clearExpirationPending key token pending !! k = Some t ->
      pending !! k = Some t /\ (k, t) ≠ (key, token)) as Hback.
    { intros k t. unfold clearExpirationPending. destruct (pending !! key) as [c|] eqn:Ec.
      - destruct (N.eqb_spec c token) as [->|]; cbn; [|intros Hp; split; [done|]; intros [= -> ->]; congruence].
        rewrite lookup_delete. case_decide; [done|]. intros Hp. split; [done|]. by intros [= -> ->].
      - intros Hp. split; [done|]. intros [= -> ->]. congruence. }
    split; cbn; try done.
    + apply NoDup_app in Hn as (Hn1 & Hd & Hn2). apply NoDup_cons in Hn2 as [_ Hn2].
      apply NoDup_app. split_and!; [done| |done]. intros y Hy Hy2. apply (Hd y Hy). set_solver.
    + intros k t [Hp Hne]%Hback. apply Hin. split; [by apply Hm|done].
    + intros k t [Hi1 _]%Hin. by apply (Hi k).
    + intros k t [Hi1 Hne]%Hin. destruct (Ht k t Hi1) as [Hp|]; [left|by right]. by apply Hkeep.
Qed.

(** C28: the lock expiration worker does not repeat itself.  From a state with no
    goroutine running, whatever the ticks, the ends of goroutines and the
    commands applied in between, no two running goroutines are for the same lock
    and token, and every mark in [pendingExpiration] belongs to a running one, so
    that a lock whose expiration failed is tried again. *)
Theorem expirations_not_duplicated w x :
  locks_ok (be_store w) -> rtc exp_step (mkExpState w ∅ []) x ->
  NoDup (es_tasks x) /\ forall k t, es_pending x !! k = Some t -> (k, t) ∈ es_tasks x.
Proof.
  intros Hl Hsteps. assert (exp_inv (mkExpState w ∅ [])) as Hinv.
  { split; cbn; [done|constructor|by intros k t|by intros k t ?%not_elem_of_nil..]. }
  revert Hinv. induction Hsteps as [x|x y z Hxy _ IH]; [|intros Hx; apply IH; by eapply exp_step_inv].
  intros []. done.
Qed.

End Expiration.

(** ** What expiring locks does *)

Section ExpirationEffect.
Context {W : Type} `{BackendLaws W}.

Lemma serving_le i j w : j <= i -> serving i w -> serving j w.
Proof. induction 1 as [|i Hle IH]; [done|]. intros Hs. by apply IH, serving_weaken. Qed.

Lemma expire_apply key token index s :
  key ≠ "" -> token ≠ 0%N ->
  applyCommand (expire_command key token) index s =
    Some (match lock_at key s with
          | Some l => if (lk_FencingToken l =? token)%N then set_locks (release key (locks s)) s else s
          | None => s
          end, mkApplyResult None None).
Proof.
  intros Hk Ht. unfold applyCommand, applyLockCommand, ExpireLock, Expire, lock_at. cbn.
  rewrite bool_decide_false by done. destruct (N.eqb_spec token 0); [done|].
  destruct (Locks (locks s) !! key) as [l|]; [|by destruct s].
  destruct (lk_FencingToken l =? token)%N; cbn; by destruct s.
Qed.

Lemma proposeLockExpiration_serves key token k w :
  serving (S k) w -> key ≠ "" -> token ≠ 0%N ->
  (exists data, transmitted (expire_command key token) data) ->
  exists w', proposeLockExpiration key token w = Some (w', Ok ()) /\ serving k w' /\
    data (be_store w') = data (be_store w) /\ jobs (be_store w') = jobs (be_store w) /\
    fenced (be_store w') = fenced (be_store w) /\ next_token (be_store w') = next_token (be_store w) /\
    forall key', lock_at key' (be_store w') =
      match lock_at key' (be_store w) with
      | Some l => if decide (key' = key /\ lk_FencingToken l = token) then None else Some l
      | None => None
      end.
Proof.
  intros Hs Hk Ht [data Hd].
  assert (malformed (expire_command key token) = false) as Hm.
  { unfold malformed. cbn. rewrite bool_decide_false by done. by apply N.eqb_neq. }
  destruct (serving_Propose k w _ data _ _ Hs Hd Hm (expire_apply key token _ _ Hk Ht))
    as (w1 & HP & (w2 & HW & Hst & Hs2 & _) & _).
  exists w2. unfold proposeLockExpiration. destruct Hd as (He & _).
  rewrite (try_bind_Ok _ _ w w data) by (unfold act_lift; by rewrite He).
  rewrite (try_bind_Ok _ _ w w1 (next_index w)) by done. split; [done|]. rewrite Hst.
  destruct (lock_at key (be_store w)) as [l|] eqn:El; [destruct (N.eqb_spec (lk_FencingToken l) token)|];
    split_and!; try done; intros key'; [rewrite lock_at_release| |].
  - case_decide as Hkk; [subst key'; rewrite El; by rewrite decide_True|].
    destruct (lock_at key' (be_store w)); [|done]. by rewrite decide_False by naive_solver.
  - destruct (lock_at key' (be_store w)) as [l'|] eqn:El'; [|done]. rewrite decide_False; [done|].
    intros [-> ?]. congruence.
  - destruct (lock_at key' (be_store w)) as [l'|] eqn:El'; [|done]. rewrite decide_False; [done|].
    intros [-> ?]. congruence.
Qed.

(** The goroutines of one pass, one after the other. *)
Fixpoint runExpirations (tasks : list (string * N)) : Act W () :=
  match tasks with
  | [] => act_ret ()
  | (key, token) :: rest => _ <- proposeLockExpiration key token ;; runExpirations rest
  end.

Lemma runExpirations_serves tasks k w :
  serving (length tasks + k) w ->
  Forall (fun '(key, token) => key ≠ "" /\ token ≠ 0%N /\
    exists data, transmitted (expire_command key token) data) tasks ->
  exists w', runExpirations tasks w = Some (w', ()) /\ serving k w' /\
    data (be_store w') = data (be_store w) /\ jobs (be_store w') = jobs (be_store w) /\
    fenced (be_store w') = fenced (be_store w) /\ next_token (be_store w') = next_token (be_store w) /\
    forall key, lock_at key (be_store w') =
      match lock_at key (be_store w) with
      | Some l => if decide ((key, lk_FencingToken l) ∈ tasks) then None else Some l
      | None => None
      end.
Proof.
  revert w; induction tasks as [|[key token] tasks IH]; intros w Hs Hall.
  { exists w. split_and!; try done. intros key. by destruct (lock_at key (be_store w)). }
  apply Forall_cons in Hall as [(Hk & Ht & Hd) Hall].
  destruct (proposeLockExpiration_serves key token (length tasks + k) w Hs Hk Ht Hd)
    as (w1 & E1 & Hs1 & Hd1 & Hj1 & Hf1 & Hn1 & Hl1).
  destruct (IH w1 Hs1 Hall) as (w' & E & Hs' & Hd' & Hj' & Hf' & Hn' & Hl').
  exists w'. cbn [runExpirations]. rewrite (act_bind_Some _ _ _ _ _ E1).
  split_and!; try done; try congruence. intros key'. rewrite Hl', Hl1.
  destruct (lock_at key' (be_store w)) as [l|]; [|done].
  destruct (decide (key' = key /\ lk_FencingToken l = token)) as [[-> <-]|Hne].
  - rewrite decide_True; [done|]. set_solver.
  - destruct (decide ((key', lk_FencingToken l) ∈ tasks)).
    + rewrite decide_True; [done|]. set_solver.
    + rewrite decide_False; [done|]. intros [[= ? ?]|?]%elem_of_cons; naive_solver.
Qed.

(** One pass of the worker on a leader, with the goroutines it starts. *)
Definition expirationPass : Act W () :=
  r <- expireLocks ∅ ;; runExpirations (snd r).

Definition expirable (s : Store) : Prop :=
  forall key l, lock_at key s = Some l -> exists data, transmitted (expire_command key (lk_FencingToken l)) data.

Lemma expirationPass_serves w k :
  serving (size (Locks (locks (be_store w))) + k) w -> locks_ok (be_store w) -> expirable (be_store w) ->
  exists now w1 w', be_now w = Some (w1, now) /\ (0 < now < 2 ^ 62)%Z /\ expirationPass w = Some (w', ()) /\ serving k w' /\
    data (be_store w') = data (be_store w) /\ jobs (be_store w') = jobs (be_store w) /\
    fenced (be_store w') = fenced (be_store w) /\ next_token (be_store w') = next_token (be_store w) /\
    forall key, lock_at key (be_store w') =
      match lock_at key (be_store w) with
      | Some l => if decide (0 < lk_ExpiresAt l <= now)%Z then None else Some l
      | None => None
      end.
Proof.
  intros Hs Hok Hx. destruct (serving_now _ w Hs) as (w1 & now & En & Hnow & Hst & Hs1 & Hn1 & _).
  exists now, w1. unfold expirationPass.
  assert (expireLocks ∅ w = Some (w1, expireLoop now (ListLocks (be_store w)) ∅)) as E.
  { unfold expireLocks. pose proof (serving_leader _ w Hs). rewrite bool_decide_false by naive_solver.
    by rewrite En, Hst. }
  rewrite (act_bind_Some _ _ _ _ _ E).
  pose proof (expireLoop_spec now _ ∅ (ListLocks_keys _ Hok)) as Hspec.
  destruct (expireLoop now (ListLocks (be_store w)) ∅) as [pending' started]. cbn [snd].
  destruct Hspec as (Hst1 & Hst2 & _ & _).
  assert (forall k t, (k, t) ∈ started <-> exists l, lock_at k (be_store w) = Some l /\
    lk_FencingToken l = t /\ expired now l) as Hstarted.
  { intros k' t. rewrite Hst1. split.
    - intros (l & Hin & <- & <- & He & _). apply ListLocks_spec in Hin; [|done]. by exists l.
    - intros (l & Hl & <- & He). exists l. destruct (Hok _ _ Hl) as (_ & <- & _).
      split_and!; try done. by apply ListLocks_spec. }
  assert (length started <= size (Locks (locks (be_store w)))) as Hlen.
  { rewrite <- (length_fmap fst), <- size_dom. change (fst <$> started) with (map fst started).
    rewrite <- (size_list_to_set (C := gset string)) by done. apply subseteq_size.
    intros key ([k' t] & -> & Hin)%elem_of_list_to_set%list_elem_of_fmap. cbn.
    apply Hstarted in Hin as (l & Hl & _). apply elem_of_dom. by exists l. }
  destruct (runExpirations_serves started k w1) as (w' & Hrun & Hs' & Hd' & Hj' & Hf' & Hn' & Hl').
  - eapply serving_le; [|exact Hs1]. lia.
  - apply Forall_forall. intros [k' t] (l & Hl & <- & _)%Hstarted.
    destruct (Hok _ _ Hl) as (? & _ & _ & ?). split_and!; [done|lia|by apply Hx].
  - exists w'. rewrite Hst in *. split_and!; try done; try apply Hnow. intros key. rewrite Hl'.
    destruct (lock_at key (be_store w)) as [l|] eqn:El; [|done].
    destruct (decide ((key, lk_FencingToken l) ∈ started)) as [Hin|Hin].
    + apply Hstarted in Hin as (l' & Hl1 & _ & He). rewrite El in Hl1. injection Hl1 as <-.
      by rewrite decide_True.
    + rewrite decide_False; [done|]. intros He. apply Hin, Hstarted. by exists l.
Qed.

(** One pass of the lock expiration worker on a serving leader, with its
    goroutines: exactly the locks whose expiry lies between 1 and the time of the
    pass are removed; other locks, values, jobs and the token counter stay. *)
Theorem expiration_pass w k :
  serving (size (Locks (locks (be_store w))) + k) w -> locks_ok (be_store w) -> expirable (be_store w) ->
  exists now w1 w', be_now w = Some (w1, now) /\ (0 < now < 2 ^ 62)%Z /\ expirationPass w = Some (w', ()) /\ serving k w' /\
    data (be_store w') = data (be_store w) /\ jobs (be_store w') = jobs (be_store w) /\
    fenced (be_store w') = fenced (be_store w) /\ next_token (be_store w') = next_token (be_store w) /\
    forall key, lock_at key (be_store w') =
      match lock_at key (be_store w) with
      | Some l => if decide (0 < lk_ExpiresAt l <= now)%Z then None else Some l
      | None => None
      end.
Proof. apply expirationPass_serves. Qed.

(** The lock expiration worker loses jobs.  A job's lease is a lock with the
    job's name.  When a scheduled or running job's lease has expired, one pass of
    the worker removes that lock; the job then stays as it is under every further
    sequence of commands (it cannot be reclaimed, finished or claimed again), and
    the snapshot of the store is refused when it is restored. *)
Theorem expiration_loses_jobs w k i j l cs :
  serving (size (Locks (locks (be_store w))) + k) w -> store_ok (be_store w) -> expirable (be_store w) ->
  jobs (be_store w) !! i = Some j -> active (jb_State j) = true ->
  lock_at i (be_store w) = Some l ->
  (forall w1 now, be_now w = Some (w1, now) -> 0 < lk_ExpiresAt l <= now)%Z -> token_room (length cs) (be_store w) ->
  exists w', expirationPass w = Some (w', ()) /\
    validateSnapshotState (captureState (be_store w')) ≠ None /\
    exists s, run cs (be_store w') = Some s /\ jobs s !! i = Some j.
Proof.
  intros Hs [Hlk Hjb] Hx Hj Ha Hl He Hr.
  destruct (expirationPass_serves w k Hs Hlk Hx) as (now & w1 & w' & En & Hnow & E & _ & _ & Hj' & _ & Hn' & Hl').
  exists w'. split; [done|]. specialize (Hl' i). rewrite Hl, decide_True in Hl' by (by eapply He).
  rewrite <- Hj' in Hj. split; [by eapply unlocked_job_invalid|].
  destruct (job_without_lock_is_stuck cs (be_store w') i j) as (s & Hrun & Hs'); [| |done| |by exists s].
  - unfold token_room in *. by rewrite Hn'.
  - done.
  - rewrite Hj' in Hj. destruct (Hjb i j Hj) as (_ & _ & Hst).
    destruct (proj1 (active_spec _) Ha) as [Hst0|Hst0]; rewrite Hst0 in Hst;
      destruct Hst as (_ & _ & l1 & Hl1 & _ & Htok); rewrite Hl in Hl1; injection Hl1 as <-;
      (split; [rewrite Hn', <- Htok; by apply (Hlk i)|]); intros (l2 & Hl2 & _); congruence.
Qed.

End ExpirationEffect.

(** ** The length of a lease *)

(** The expiry in 64-bit arithmetic. *)
Lemma leaseExpiry_wraps now lease : leaseExpiry now lease = i64_wrap (now + lease * Millisecond).
Proof.
  unfold leaseExpiry, i64_wrap. f_equal. generalize (lease * Millisecond)%Z. intros x.
  replace (now + ((x + 2 ^ 63) mod 2 ^ 64 - 2 ^ 63) + 2 ^ 63)%Z with (now + (x + 2 ^ 63) mod 2 ^ 64)%Z by lia.
  rewrite Zplus_mod_idemp_r. f_equal. lia.
Qed.

Section Lease.
#[local] Existing Instance go_codec.
Context {W : Type} {B : Backend W} {L : BackendLaws W}.

(** C40: the expiry of a granted lease.  On a leader that serves, a lock that is free is
    granted with the expiry that 64-bit arithmetic gives: exactly the requested number of
    milliseconds after the clock reading when that instant fits in 63 bits, and otherwise that
    instant reduced to 64 bits with a sign.  The expiration worker never expires the lock when
    the result is zero or below, and otherwise expires it from that instant on, which after a
    wrap-around can be long before the requested end. *)
Theorem granted_lease key ownerID lease k w :
  serving (S k) w -> committed_in_term w -> text key -> text ownerID ->
  grants_below (next_index w) (be_store w) -> lock_at key (be_store w) = None ->
  key ≠ "" -> ownerID ≠ "" -> (0 < lease)%Z ->
  exists now w0 w' g l, be_now w = Some (w0, now) /\
    srv_AcquireLock key ownerID lease w = Some (w', Ok g) /\
    lock_at key (be_store w') = Some l /\ lk_FencingToken l = lg_FencingToken g /\
    lk_ExpiresAt l = lg_ExpiresAt g /\
    lg_ExpiresAt g = i64_wrap (now + lease * Millisecond) /\
    (now + lease * Millisecond < 2 ^ 63 -> lg_ExpiresAt g = now + lease * Millisecond)%Z /\
    (forall now', expireLoop now' [l] ∅ =
       if decide (0 < lg_ExpiresAt g <= now')%Z then ({[key := lg_FencingToken g]}, [(key, lg_FencingToken g)]) else (∅, [])).
Proof.
  intros Hs Hc Htk Hto Hg Hfree Hk Ho Hlease.
  pose proof (request_ok_sendable (RAcquireLock key ownerID lease) (conj Htk Hto)) as Hsend.
  destruct (srv_AcquireLock_serves key ownerID lease k w Hs Hc Hsend Hg) as (now & w0 & En & Hnow & HA).
  exists now, w0. cbn [spec_request] in HA. rewrite !bool_decide_false in HA by done.
  destruct (Z.leb_spec lease 0); [lia|]. rewrite Hfree in HA. destruct HA as (w' & r & E & Hr & Hst & _).
  destruct r as [g|e]; [|done]. cbn in Hr. injection Hr as ->.
  eexists w', _, (mkLock key ownerID (u64_add (next_token (be_store w)) 1) (leaseExpiry now lease)
    (next_index w)). split_and!; [done|exact E| |done|done|apply leaseExpiry_wraps| |].
  - rewrite Hst, lock_at_grant. by rewrite decide_True.
  - cbn [lg_ExpiresAt]. intros Hfit. rewrite leaseExpiry_wraps. apply i64_wrap_small. unfold Millisecond in *. lia.
  - intros now'. cbn [expireLoop lk_ExpiresAt lg_ExpiresAt lk_Key lk_FencingToken lg_FencingToken].
    destruct (Z.leb_spec (leaseExpiry now lease) 0), (Z.ltb_spec now' (leaseExpiry now lease)); cbn [orb];
      first [rewrite decide_False by lia; reflexivity|rewrite decide_True by lia; reflexivity].
Qed.

End Lease.

(** ** Snapshots *)

Section ServerSnapshots.
Context {S : Type} `{StorageLaws S} {Net : Type}.


End ServerSnapshots.

(** ** A write that is acknowledged and lost *)

(** A leader of term 1 cut off from its two peers; while a client waits, the
    leader of term 2 sends its own entry for the first index, committed. *)
Definition cut_off_leader : RaftNode MemoryStorage :=
  mkRaftNode "a"
    (mkState (mkPersistent 1 "a" (mkMembership (mkConfiguration ["a"; "b"; "c"]) None))
       (mkVolatile 0 0) (mkLeaderState {["b" := 1%N; "c" := 1%N]} ∅) {["a"; "b"]} Leader "a")
    NewLog NewMemoryStorage true ["b"; "c"] [] None 0 10 false false 0 1 true.

Definition overwrite_world : NodeWorld MemoryStorage () :=
  mkNodeWorld cut_off_leader (NewApplier NewStore) ()
    [mkAppendEntriesArgs 2 "b" 0 0 [mkLogEntry 1 2 (command_data (put_command "k" [x02]))] 1] (fun _ => 100%Z) 0.

(** A lost write is acknowledged.  [Put] waits for the index of its entry and
    not for the entry: when a new leader replaces the entry at that index, [Put]
    returns no error although its value was never committed.  Here [Put] of one
    value succeeds on a leader that has been replaced, its entry is in no log, and
    the key holds the value another client wrote. *)
Theorem overwritten_put_acknowledged :
  exists w', @srv_Put _ go_codec (@NodeWorld_Backend _ _ _ no_network 10 go_codec) "k" [x01]
      overwrite_world = Some (w', Ok ()) /\
    kv_Get "k" (ap_store (nw_applier w')) = Some [x02] /\ role (nw_node w') = Follower /\
    entries (log (nw_node w')) = [mkLogEntry 1 2 (command_data (put_command "k" [x02]))] /\
    ms_entries (storage (nw_node w')) = [mkLogEntry 1 2 (command_data (put_command "k" [x02]))].
Proof. eexists. split; [vm_compute; reflexivity|]. vm_compute. split_and!; reflexivity. Qed.

(** ** Witnesses *)

(** A leader of one that has committed one entry, holding a job whose lease ends
    at time 60. *)
Definition lease_run : list (Command * LogIndex) :=
  [(create_command "j" [x07] 0, 1%N);
   (mkCommand CommandClaimJob "" [] "j" [] 0 "w" 60 0 "" (JobOther "") 0, 2%N)].

Definition settled_leader : RaftNode MemoryStorage :=
  mkRaftNode "a"
    (mkState (mkPersistent 1 "a" (mkMembership (mkConfiguration ["a"]) None))
       (mkVolatile 2 2) (mkLeaderState ∅ ∅) {["a"]} Leader "a")
    (mkLog [mkLogEntry 1 1 [x7b; x00]; mkLogEntry 2 1 [x7b; x01]] 0 0)
    (mkMemoryStorage zero_PersistentState [mkLogEntry 1 1 [x7b; x00]; mkLogEntry 2 1 [x7b; x01]] None)
    true [] [] None 0 10 false false 0 1 true.

Definition settled_world : NodeWorld MemoryStorage () :=
  mkNodeWorld settled_leader (mkApplier (store_after lease_run) 2 None ∅) () []
    (fun i => 100 + Z.of_nat i `mod` 1000)%Z 0.

Lemma settled_serving : single_serving 1000 settled_world /\ single_committed settled_world.
Proof.
  split; [|split_and!; [done|done|by eexists]].
  split; [|done|done|].
  - split; try done. split; [|done]. cbn. apply contiguous_cons; split; [done|].
    apply contiguous_cons; split; [done|]. apply contiguous_nil.
  - intros i. cbn. pose proof (Z.mod_pos_bound (Z.of_nat i) 1000 eq_refl). lia.
Qed.

Lemma settled_store_ok : store_ok (store_after lease_run).
Proof. apply validate_ok. vm_compute. reflexivity. Qed.

Definition sample_requests : list Request :=
  [RPut "k" [x01]; RGet "k"; RAcquireLock "k" "A" 5; RFencedPut "k" [x02] 2; RCreateJob "i" [x03] 7;
   RAcquireLock "k" "B" 5; RDelete "k"].

#[local] Existing Instance go_codec.

Definition solo_backend : Backend (NodeWorld MemoryStorage ()) := NodeWorld_Backend no_network 1.
#[local] Existing Instance solo_backend.

Definition solo_laws : BackendLaws (NodeWorld MemoryStorage ()) := NodeWorld_laws no_network 1.
#[local] Existing Instance solo_laws.

Lemma settled_room k : k <= 1000 -> serving k settled_world.
Proof. intros Hk. apply (serving_le 1000); [done|]. apply settled_serving. Qed.

Lemma settled_committed : committed_in_term settled_world.
Proof. apply settled_serving. Qed.

Lemma sample_requests_ok : Forall request_ok sample_requests.
Proof. repeat constructor; vm_compute; first [reflexivity|discriminate]. Qed.

Lemma settled_grants : grants_below 3 (store_after lease_run).
Proof.
  intros key l. assert (store_after lease_run = mkStore ∅ (mkLockState {["j" := mkLock "j" "w" 1 60 2]} 1) ∅
    (jobs (store_after lease_run))) as -> by (vm_compute; reflexivity).
  unfold lock_at. cbn [locks Locks]. intros [<- <-]%lookup_singleton_Some. done.
Qed.

Lemma server_refines_store_witness :
  exists times w' replies,
    length times = 7 /\ serve_requests sample_requests settled_world = Some (w', replies) /\
    spec_requests times 3 sample_requests (store_after lease_run) = (be_store w', replies).
Proof.
  destruct (server_refines_store sample_requests settled_world) as (times & w' & replies & Hl & _ & E & Hs & _).
  - apply settled_room. cbn. lia.
  - apply settled_committed.
  - exact sample_requests_ok.
  - apply settled_grants.
  - exists times, w', replies. split; [exact Hl|]. split; [exact E|exact Hs].
Defined.

(** The settled world after one tick of the expiration worker. *)
Definition ticked : @ExpState (NodeWorld MemoryStorage ()) :=
  mkExpState (set_reads 1 settled_world) {["j" := 1%N]} [("j", 1%N)].

Lemma expirations_not_duplicated_witness :
  NoDup (es_tasks ticked) /\ forall k t, es_pending ticked !! k = Some t -> (k, t) ∈ es_tasks ticked.
Proof.
  apply (expirations_not_duplicated settled_world ticked).
  - exact (proj1 settled_store_ok).
  - apply rtc_once. apply (exp_tick settled_world ∅ [] (set_reads 1 settled_world) {["j" := 1%N]} [("j", 1%N)]).
    vm_compute. reflexivity.
Defined.

Lemma settled_expirable : expirable (store_after lease_run).
Proof.
  intros key l. assert (store_after lease_run = mkStore ∅ (mkLockState {["j" := mkLock "j" "w" 1 60 2]} 1) ∅
    (jobs (store_after lease_run))) as -> by (vm_compute; reflexivity).
  unfold lock_at. cbn [locks Locks]. intros [<- <-]%lookup_singleton_Some. apply go_codec_transmits. command_texts.
Qed.

Lemma expiration_pass_witness :
  exists now w1 w', be_now settled_world = Some (w1, now) /\ expirationPass settled_world = Some (w', ()) /\
    lock_at "j" (be_store w') = if decide (0 < 60 <= now)%Z then None else Some (mkLock "j" "w" 1 60 2).
Proof.
  destruct (expiration_pass settled_world 10) as (now & w1 & w' & En & _ & E & _ & _ & _ & _ & _ & Hl).
  - apply settled_room. vm_compute. lia.
  - exact (proj1 settled_store_ok).
  - apply settled_expirable.
  - exists now, w1, w'. split; [exact En|]. split; [exact E|exact (Hl "j")].
Defined.

Lemma expiration_loses_jobs_witness :
  exists w', expirationPass settled_world = Some (w', ()) /\
    validateSnapshotState (captureState (be_store w')) ≠ None /\
    exists s, run [(claim_j "v", 4%N)] (be_store w') = Some s /\
      jobs s !! "j" = Some (mkJob "j" [x07] JobScheduled 0 "w" 1 1 "j/1" 1).
Proof.
  apply (expiration_loses_jobs settled_world 10 "j" (mkJob "j" [x07] JobScheduled 0 "w" 1 1 "j/1" 1)
    (mkLock "j" "w" 1 60 2) [(claim_j "v", 4%N)]).
  - apply settled_room. vm_compute. lia.
  - apply settled_store_ok.
  - apply settled_expirable.
  - vm_compute. reflexivity.
  - vm_compute. reflexivity.
  - vm_compute. reflexivity.
  - intros w1 now [= <- <-]. vm_compute. done.
  - vm_compute. reflexivity.
Defined.

(** Two leases beyond 63 bits: one that never ends, and one that has ended by the next pass. *)
Lemma granted_lease_witness :
  (exists w' g, srv_AcquireLock "k" "A" 9223372036855 settled_world = Some (w', Ok g) /\ (lg_ExpiresAt g < 0)%Z) /\
  exists w' g, srv_AcquireLock "k" "A" 18446744073710 settled_world = Some (w', Ok g) /\ lg_ExpiresAt g = 448484%Z.
Proof.
  split.
  - destruct (granted_lease "k" "A" 9223372036855 9 settled_world (settled_room 10 ltac:(lia))
      settled_committed eq_refl eq_refl settled_grants)
      as (now & w0 & w' & g & l & [= _ <-] & E & _ & _ & _ & Hx & _); [vm_compute; reflexivity|done|done|lia|].
    exists w', g. split; [exact E|]. rewrite Hx. vm_compute. reflexivity.
  - destruct (granted_lease "k" "A" 18446744073710 9 settled_world (settled_room 10 ltac:(lia))
      settled_committed eq_refl eq_refl settled_grants)
      as (now & w0 & w' & g & l & [= _ <-] & E & _ & _ & _ & Hx & _); [vm_compute; reflexivity|done|done|lia|].
    exists w', g. split; [exact E|]. rewrite Hx. vm_compute. reflexivity.
Defined.




(** Two keys that are no valid UTF-8, and the text both become. *)
Definition key_ff : string := bytes_string [xff].
Definition key_fe : string := bytes_string [xfe].

(** Names that are not valid UTF-8 are replaced on the way through the log.  [Put] of such a
    key succeeds, but the value is stored under the replacement character: it cannot be read
    back, and another such key overwrites it. *)
Theorem invalid_key_is_replaced :
  exists w1 w2 w3, srv_Put key_ff [x01] settled_world = Some (w1, Ok ()) /\
    srv_Get key_ff w1 = Some (w2, Ok None) /\
    kv_Get (bytes_string [xef; xbf; xbd]) (be_store w1) = Some [x01] /\
    srv_Put key_fe [x02] w1 = Some (w3, Ok ()) /\
    kv_Get (bytes_string [xef; xbf; xbd]) (be_store w3) = Some [x02].
Proof. eexists _, _, _. split; [vm_compute; reflexivity|]. split; [vm_compute; reflexivity|]. split_and!; vm_compute; reflexivity. Qed.
