(* ===== verification/KvRpc.v ===== *)
(** The client API over gRPC: [KVService] of [internal/transport/kv_service.go] and
    the client package ([client/client.go], [grpc_kv.go], [grpc_job.go],
    [local_job.go]).

    The service is written against the interfaces [kvRPC] and [jobRPC] of the source;
    [server_rpc] is the server behind it.  [KvInvoke] carries a request to the service
    over a connection; what is relied on is [KvNetworkLaws], for the messages that gRPC
    carries ([kv_request_carried], [kv_response_carried]): the others are refused, and the
    client is told so. *)

From S2P Require Import Prelude Model Bytes Proto Lock KvStore KvSpec KvFacts KvApplier ConfigEntry.
From S2P Require Import Storage Backend Server ServerFacts JsonCodec JsonCommand NodeBackend.
#[local] Open Scope raftiq_scope.

(** ** Messages *)

Record GetRequest := mkGetRequest { gq_Key : string }.
Record GetResponse := mkGetResponse { gs_Value : bytes; gs_Found : bool }.
Record PutRequest := mkPutRequest { pq_Key : string; pq_Value : bytes }.
Record DeleteRequest := mkDeleteRequest { dq_Key : string }.
Record CreateJobRequest := mkCreateJobRequest { cq_JobId : string; cq_Payload : bytes; cq_ScheduledAt : Z }.
Record CreateJobResponse := mkCreateJobResponse { cs_Index : N }.

Inductive KvRequest :=
| Req_Get (q : GetRequest) | Req_Put (q : PutRequest) | Req_Delete (q : DeleteRequest) | Req_CreateJob (q : CreateJobRequest).
Inductive KvResponse :=
| Res_Get (r : GetResponse) | Res_Put | Res_Delete | Res_CreateJob (r : CreateJobResponse).

(** The messages that are carried, by their strings and encoded sizes. *)
Definition kv_request_carried (req : KvRequest) : bool :=
  match req with
  | Req_Get q => sendable_message [gq_Key q] (size_string (gq_Key q))
  | Req_Put q => sendable_message [pq_Key q] (size_string (pq_Key q) + size_bytes (pq_Value q))
  | Req_Delete q => sendable_message [dq_Key q] (size_string (dq_Key q))
  | Req_CreateJob q =>
      sendable_message [cq_JobId q] (size_string (cq_JobId q) + size_bytes (cq_Payload q) + size_int (cq_ScheduledAt q))
  end%N.
Definition kv_response_carried (res : KvResponse) : bool :=
  match res with
  | Res_Get r => sendable_message [] (size_bytes (gs_Value r) + size_bool (gs_Found r))
  | Res_Put | Res_Delete => true
  | Res_CreateJob r => sendable_message [] (size_uint (cs_Index r))
  end%N.

(** ** The service *)

Record kvRPC (W : Type) := mkKvRPC {
  rpc_Get : string -> Act W (result (option bytes));
  rpc_Put : string -> bytes -> Act W (result ());
  rpc_Delete : string -> Act W (result ());
}.
Global Arguments mkKvRPC {W}. Global Arguments rpc_Get {W}. Global Arguments rpc_Put {W}. Global Arguments rpc_Delete {W}.

(** [CreateJob] returns a pointer to the job, nil as [None], and its index. *)
Definition jobRPC (W : Type) : Type := string -> bytes -> Z -> Act W (result (option Job) * LogIndex).

Record KVService {W : Type} := mkKVService { ks_store : kvRPC W; ks_jobs : option (jobRPC W) }.
Global Arguments KVService : clear implicits.
Global Arguments mkKVService {W}.

Section Service.
Context {W : Type}.
Implicit Types s : KVService W.

(** The type assertion [store.(jobRPC)] is the second argument. *)
Definition NewKVService (store : option (kvRPC W)) (jobs : option (jobRPC W)) : result (KVService W) :=
  match store with
  | None => Err (Msg "kv store is required")
  | Some store => Ok (mkKVService store jobs)
  end.

Definition ks_Get (req : option GetRequest) s : Act W (result GetResponse) :=
  match req with
  | None => act_ret (Err (Msg "get request is required"))
  | Some req =>
      r <-? rpc_Get (ks_store s) (gq_Key req) ;;
      act_ret (Ok (match r with Some value => mkGetResponse value true | None => mkGetResponse [] false end))
  end.

Definition ks_Put (req : option PutRequest) s : Act W (result ()) :=
  match req with
  | None => act_ret (Err (Msg "put request is required"))
  | Some req => _ <-? rpc_Put (ks_store s) (pq_Key req) (pq_Value req) ;; act_ret (Ok ())
  end.

Definition ks_Delete (req : option DeleteRequest) s : Act W (result ()) :=
  match req with
  | None => act_ret (Err (Msg "delete request is required"))
  | Some req => _ <-? rpc_Delete (ks_store s) (dq_Key req) ;; act_ret (Ok ())
  end.

Definition ks_CreateJob (req : option CreateJobRequest) s : Act W (result CreateJobResponse) :=
  match req with
  | None => act_ret (Err (Wrap "InvalidArgument" (Msg "create job request is required")))
  | Some req =>
      match ks_jobs s with
      | None => act_ret (Err (Wrap "Unimplemented" (Msg "job operations are not supported")))
      | Some jobs =>
          r <- jobs (cq_JobId req) (cq_Payload req) (cq_ScheduledAt req) ;;
          act_ret
            match r with
            | (Err e, _) => Err e
            | (Ok None, _) => Err (Wrap "Internal" (Msg "job creation returned no job"))
            | (Ok (Some job), index) => Ok (mkCreateJobResponse index)
            end
      end
  end.

(** The dispatch of the generated code. *)
Definition kv_serve (req : KvRequest) s : Act W (result KvResponse) :=
  match req with
  | Req_Get q => r <-? ks_Get (Some q) s ;; act_ret (Ok (Res_Get r))
  | Req_Put q => _ <-? ks_Put (Some q) s ;; act_ret (Ok Res_Put)
  | Req_Delete q => _ <-? ks_Delete (Some q) s ;; act_ret (Ok Res_Delete)
  | Req_CreateJob q => r <-? ks_CreateJob (Some q) s ;; act_ret (Ok (Res_CreateJob r))
  end.

End Service.

(** The application server as the backend of the service. *)
Definition server_rpc {W} `{CommandCodec} `{Backend W} : kvRPC W := mkKvRPC srv_Get srv_Put srv_Delete.
Definition server_jobs {W} `{CommandCodec} `{Backend W} : jobRPC W := fun jobID payload scheduledAt =>
  r <- srv_CreateJob jobID payload scheduledAt ;;
  act_ret (match fst r with Ok j => Ok (Some j) | Err e => Err e end, snd r).

(** ** The client *)

Definition ErrClientClosed : error := Sentinel "client is closed".

(** The [KV] and [Job] interfaces of the client package. *)
Record KV (W : Type) := mkKV {
  kvi_Get : string -> Act W (result (bytes * bool));
  kvi_Put : string -> bytes -> Act W (result ());
  kvi_Delete : string -> Act W (result ());
}.
Global Arguments mkKV {W}. Global Arguments kvi_Get {W}. Global Arguments kvi_Put {W}. Global Arguments kvi_Delete {W}.
Definition JobClient (W : Type) : Type := string -> bytes -> Z -> Act W (result N).

Record Client {W : Type} := mkClient {
  cl_kv : option (KV W);
  cl_job : option (JobClient W);
  cl_conn : bool;
  cl_closed : bool;
}.
Global Arguments Client : clear implicits.
Global Arguments mkClient {W}.

Section Client.
Context {W : Type} (KvInvoke : KvRequest -> Act W (result KvResponse)).
Implicit Types c : Client W.

(** The methods of the generated client. *)
Definition kv_call {A} (pick : KvResponse -> option A) (req : KvRequest) : Act W (result A) :=
  r <-? KvInvoke req ;;
  act_ret (match pick r with Some a => Ok a | None => Err (Msg "unexpected response type") end).

Definition grpcKV_Get (key : string) : Act W (result (bytes * bool)) :=
  r <-? kv_call (fun r => match r with Res_Get a => Some a | _ => None end) (Req_Get (mkGetRequest key)) ;;
  act_ret (Ok (gs_Value r, gs_Found r)).
Definition grpcKV_Put (key : string) (value : bytes) : Act W (result ()) :=
  kv_call (fun r => match r with Res_Put => Some () | _ => None end) (Req_Put (mkPutRequest key value)).
Definition grpcKV_Delete (key : string) : Act W (result ()) :=
  kv_call (fun r => match r with Res_Delete => Some () | _ => None end) (Req_Delete (mkDeleteRequest key)).
Definition grpcJob_CreateJob (jobID : string) (payload : bytes) (scheduledAt : Z) : Act W (result N) :=
  r <-? kv_call (fun r => match r with Res_CreateJob a => Some a | _ => None end)
          (Req_CreateJob (mkCreateJobRequest jobID payload scheduledAt)) ;;
  act_ret (Ok (cs_Index r)).

Definition newWithConnection : Client W :=
  mkClient (Some (mkKV grpcKV_Get grpcKV_Put grpcKV_Delete)) (Some grpcJob_CreateJob) true false.

(** [Dial], with the error of [grpc.NewClient]; a connection that is not nil makes a client. *)
Definition Dial (newClient : string -> option error) (address : string) : result (Client W) :=
  if bool_decide (address = "") then Err (Msg "client address is required")
  else match newClient address with Some e => Err (Wrap "dial" e) | None => Ok newWithConnection end.

(** [New]: a client in the process of the server. *)
Definition localJob_CreateJob (backend : jobRPC W) (jobID : string) (payload : bytes) (scheduledAt : Z)
    : Act W (result N) :=
  r <- backend jobID payload scheduledAt ;;
  act_ret (match r with (Err e, _) => Err e | (Ok _, index) => Ok index end).
Definition cl_New (kv : option (KV W)) (backend : option (jobRPC W)) : Client W :=
  mkClient kv (localJob_CreateJob <$> backend) false false.

Definition cl_backend c : result (KV W) :=
  if cl_closed c then Err ErrClientClosed
  else match cl_kv c with None => Err ErrClientClosed | Some kv => Ok kv end.

Definition cl_Get (key : string) c : Act W (result (bytes * bool)) :=
  match cl_backend c with Err e => act_ret (Err e) | Ok kv => kvi_Get kv key end.
Definition cl_Put (key : string) (value : bytes) c : Act W (result ()) :=
  match cl_backend c with Err e => act_ret (Err e) | Ok kv => kvi_Put kv key value end.
Definition cl_Delete (key : string) c : Act W (result ()) :=
  match cl_backend c with Err e => act_ret (Err e) | Ok kv => kvi_Delete kv key end.
Definition cl_CreateJob (jobID : string) (payload : bytes) (scheduledAt : Z) c : Act W (result N) :=
  if cl_closed c then act_ret (Err ErrClientClosed)
  else
    match cl_job c with
    | None => act_ret (Err ErrClientClosed)
    | Some job => job jobID payload scheduledAt
    end.

(** The flag tells whether the connection is closed. *)
Definition cl_Close c : Client W * bool :=
  if cl_closed c then (c, false) else (mkClient (cl_kv c) (cl_job c) (cl_conn c) true, cl_conn c).

Lemma closed_client_refuses c key value jobID payload at_ w :
  let c := fst (cl_Close c) in
  cl_Get key c w = Some (w, Err ErrClientClosed) /\ cl_Put key value c w = Some (w, Err ErrClientClosed) /\
  cl_Delete key c w = Some (w, Err ErrClientClosed) /\
  cl_CreateJob jobID payload at_ c w = Some (w, Err ErrClientClosed) /\ cl_Close c = (c, false).
Proof.
  cbn zeta. assert (cl_closed (fst (cl_Close c)) = true) as Hc by (unfold cl_Close; destruct (cl_closed c) eqn:E; [exact E|done]).
  generalize dependent (fst (cl_Close c)). clear c. intros c Hc.
  unfold cl_Get, cl_Put, cl_Delete, cl_CreateJob, cl_backend, cl_Close. by rewrite Hc.
Qed.

End Client.

(** ** A remote client of a serving leader *)

Section Remote.
#[local] Existing Instance go_codec.
Context {W : Type} {B : Backend W} {L : BackendLaws W}.
Context (KvInvoke : KvRequest -> Act W (result KvResponse)).
Notation service := (mkKVService server_rpc (Some server_jobs)).

(** What is relied on of gRPC, over a connection that is up and with a context that does not
    end: a request that can be encoded and is within the limit of the server runs the service
    once, any other request is an error and runs nothing.  The response comes back when it is
    within the limit of the client; otherwise, and when the service failed, the call returns a
    status. *)
Class KvNetworkLaws : Prop := {
  kv_invoke_refused req w : kv_request_carried req = false -> exists e, KvInvoke req w = Some (w, Err e);
  kv_invoke_ok req w w' res : kv_request_carried req = true -> kv_serve req service w = Some (w', Ok res) ->
    exists r, KvInvoke req w = Some (w', r) /\
      if kv_response_carried res then r = Ok res else exists e, r = Err e;
  kv_invoke_err req w w' e : kv_request_carried req = true -> kv_serve req service w = Some (w', Err e) ->
    exists e', KvInvoke req w = Some (w', Err e');
}.
Context `{!KvNetworkLaws}.

(** What a client is told. *)
Inductive ClientReply :=
| CValue (v : bytes) (found : bool)
| CDone
| CCreated (index : N)
| CFailed.

Definition client_reply {A} (f : A -> ClientReply) (r : result A) : ClientReply :=
  match r with Ok a => f a | Err _ => CFailed end.

(** The requests of the client API. *)
Definition client_request (c : Client W) (req : Request) : Act W ClientReply :=
  match req with
  | RGet key => r <- cl_Get key c ;; act_ret (client_reply (fun '(v, found) => CValue v found) r)
  | RPut key value => r <- cl_Put key value c ;; act_ret (client_reply (fun _ => CDone) r)
  | RDelete key => r <- cl_Delete key c ;; act_ret (client_reply (fun _ => CDone) r)
  | RCreateJob jobID payload at_ => r <- cl_CreateJob jobID payload at_ c ;; act_ret (client_reply CCreated r)
  | RFencedPut _ _ _ | RAcquireLock _ _ _ => act_ret CFailed
  end.
Fixpoint client_requests (c : Client W) (reqs : list Request) : Act W (list ClientReply) :=
  match reqs with
  | [] => act_ret []
  | req :: reqs => reply <- client_request c req ;; replies <- client_requests c reqs ;; act_ret (reply :: replies)
  end.

(** The message of a call; the client offers no others. *)
Definition kv_request (req : Request) : option KvRequest :=
  match req with
  | RGet key => Some (Req_Get (mkGetRequest key))
  | RPut key value => Some (Req_Put (mkPutRequest key value))
  | RDelete key => Some (Req_Delete (mkDeleteRequest key))
  | RCreateJob jobID payload at_ => Some (Req_CreateJob (mkCreateJobRequest jobID payload at_))
  | RFencedPut _ _ _ | RAcquireLock _ _ _ => None
  end.
Definition remote (req : Request) : Prop := is_Some (kv_request req).
Definition carried (req : Request) : bool := default false (kv_request_carried <$> kv_request req).

(** The integers of a call have their Go types. *)
Definition typed (req : Request) : Prop :=
  match req with RCreateJob _ _ at_ => is_i64 at_ | _ => True end.

(** The response to a reply of the server, and what the client makes of it. *)
Definition kv_response (r : Reply) : option KvResponse :=
  match r with
  | Value (Some v) => Some (Res_Get (mkGetResponse v true))
  | Value None => Some (Res_Get (mkGetResponse [] false))
  | Created _ index => Some (Res_CreateJob (mkCreateJobResponse index))
  | Done | Granted _ | Rejected _ => None
  end.
Definition client_view (r : Reply) : ClientReply :=
  if default true (kv_response_carried <$> kv_response r) then
    match r with
    | Value (Some v) => CValue v true
    | Value None => CValue [] false
    | Done => CDone
    | Created _ index => CCreated index
    | Granted _ | Rejected _ => CFailed
    end
  else CFailed.

(** The specification of the client API: the requests that are carried are those of the store,
    the others fail and change nothing. *)
Fixpoint spec_client (times : list Z) (index : LogIndex) (reqs : list Request) (s : Store) : Store * list ClientReply :=
  match times, reqs with
  | now :: times, req :: reqs =>
      let '(s, reply, used) := if carried req then let '(s, reply, used) := spec_request now index req s in (s, client_view reply, used)
                               else (s, CFailed, false) in
      let '(s, replies) := spec_client times (if used then index + 1 else index)%N reqs s in
      (s, reply :: replies)
  | _, _ => (s, [])
  end.

Lemma carried_ok req : typed req -> carried req = true -> request_ok req.
Proof.
  unfold carried. destruct req as [key|key v|key|key v t|key o lease|i p a]; cbn; intros Ht Hc; try done.
  - eapply sendable_message_text; [exact Hc|by left].
  - eapply sendable_message_text; [exact Hc|by left].
  - split; [|done]. eapply sendable_message_text; [exact Hc|by left].
Qed.

(** A call whose message is not carried. *)
Lemma refused_request req w :
  remote req -> carried req = false -> client_request (newWithConnection KvInvoke) req w = Some (w, CFailed).
Proof.
  unfold carried. intros [k Ek]. rewrite Ek. cbn. intros Hc. destruct (kv_invoke_refused k w Hc) as [e He].
  destruct req; cbn in Ek; simplify_eq; cbn;
    unfold grpcKV_Get, grpcKV_Put, grpcKV_Delete, grpcJob_CreateJob, kv_call, try_bind, act_bind, act_ret; by rewrite He.
Qed.

Lemma remote_request req w w' reply :
  remote req -> carried req = true -> serve_request req w = Some (w', reply) ->
  client_request (newWithConnection KvInvoke) req w = Some (w', client_view reply).
Proof.
  unfold carried. intros [k Ek] Hcar E. rewrite Ek in Hcar. cbn in Hcar.
  assert (forall r : result KvResponse, kv_serve k service w = Some (w', r) ->
    exists r', KvInvoke k w = Some (w', r') /\
      match r with
      | Ok a => if kv_response_carried a then r' = Ok a else exists e, r' = Err e
      | Err _ => exists e, r' = Err e
      end) as Hinv.
  { intros [res|e] Es; [by apply kv_invoke_ok|]. destruct (kv_invoke_err k w w' e Hcar Es) as [e' Ee]. eauto. }
  clear Hcar. destruct req as [key|key v|key|key v t|key o lease|i p a]; cbn [kv_request] in Ek; simplify_eq; cbn [serve_request] in E.
  all: unfold act_bind at 1, act_ret in E; unfold client_view.
  - destruct (srv_Get key w) as [[w1 r]|] eqn:Eg; [|done]. injection E as <- <-.
    destruct (Hinv (match r with Ok (Some v) => Ok (Res_Get (mkGetResponse v true)) | Ok None => Ok (Res_Get (mkGetResponse [] false))
       | Err e => Err e end)) as (r' & Ei & Hr).
    { cbn [kv_serve ks_Get ks_store rpc_Get server_rpc gq_Key]. unfold try_bind, act_bind, act_ret. rewrite Eg. by destruct r as [[v|]|]. }
    cbn -[kv_response_carried]. unfold grpcKV_Get, kv_call, try_bind, act_bind, act_ret. rewrite Ei.
    destruct r as [[v|]|]; cbn -[kv_response_carried].
    1,2: destruct (kv_response_carried _); [by subst r'|by destruct Hr as [e' ->]].
    by destruct Hr as [e' ->].
  - destruct (srv_Put key v w) as [[w1 r]|] eqn:Eg; [|done]. injection E as <- <-.
    destruct (Hinv (match r with Ok _ => Ok Res_Put | Err e => Err e end)) as (r' & Ei & Hr).
    { cbn [kv_serve ks_Put ks_store rpc_Put server_rpc pq_Key pq_Value]. unfold try_bind, act_bind, act_ret. rewrite Eg. by destruct r. }
    cbn. unfold grpcKV_Put, kv_call, try_bind, act_bind, act_ret. rewrite Ei.
    destruct r; [cbn in Hr; by subst r'|]. by destruct Hr as [e' ->].
  - destruct (srv_Delete key w) as [[w1 r]|] eqn:Eg; [|done]. injection E as <- <-.
    destruct (Hinv (match r with Ok _ => Ok Res_Delete | Err e => Err e end)) as (r' & Ei & Hr).
    { cbn [kv_serve ks_Delete ks_store rpc_Delete server_rpc dq_Key]. unfold try_bind, act_bind, act_ret. rewrite Eg. by destruct r. }
    cbn. unfold grpcKV_Delete, kv_call, try_bind, act_bind, act_ret. rewrite Ei.
    destruct r; [cbn in Hr; by subst r'|]. by destruct Hr as [e' ->].
  - destruct (srv_CreateJob i p a w) as [[w1 [r index]]|] eqn:Eg; [|done]. injection E as <- <-.
    destruct (Hinv (match r with Ok _ => Ok (Res_CreateJob (mkCreateJobResponse index)) | Err e => Err e end)) as (r' & Ei & Hr).
    { cbn. unfold server_jobs, try_bind, act_bind, act_ret. rewrite Eg. by destruct r. }
    cbn -[kv_response_carried]. unfold grpcJob_CreateJob, kv_call, try_bind, act_bind, act_ret. cbn -[kv_response_carried]. rewrite Ei.
    destruct r; cbn -[kv_response_carried]; [|by destruct Hr as [e' ->]].
    destruct (kv_response_carried _); [by subst r'|by destruct Hr as [e' ->]].
Qed.

Lemma client_serves reqs w :
  serving (length reqs) w -> committed_in_term w -> Forall typed reqs -> Forall remote reqs ->
  grants_below (next_index w) (be_store w) ->
  exists times w' replies,
    length times = length reqs /\
    client_requests (newWithConnection KvInvoke) reqs w = Some (w', replies) /\
    spec_client times (next_index w) reqs (be_store w) = (be_store w', replies).
Proof.
  revert w; induction reqs as [|req reqs IH]; intros w Hs Hc Hty Hrem Hg.
  { exists [], w, []. by split_and!. }
  apply Forall_cons in Hty as [Ht Hty]. apply Forall_cons in Hrem as [Hr Hrems].
  destruct (carried req) eqn:Hcar.
  - pose proof (request_ok_sendable _ (carried_ok _ Ht Hcar)) as Hreq.
    destruct (request_serves req (length reqs) w Hs Hc Hreq Hg) as (now & Hnow & HR).
    destruct (spec_request now (next_index w) req (be_store w)) as [[s reply] used] eqn:E.
    destruct HR as (w1 & E1 & Hst & Hs1 & Hc1 & Hn1). apply spec_request_grants in E as Hg1; [|done].
    destruct (IH w1) as (times & w' & replies & Hlen & E2 & Hspec); [done..|by rewrite Hst, Hn1|].
    exists (now :: times), w', (client_view reply :: replies). split_and!.
    + cbn. by rewrite Hlen.
    + cbn [client_requests]. rewrite (act_bind_Some _ _ _ _ _ (remote_request _ _ _ _ Hr Hcar E1)).
      by rewrite (act_bind_Some _ _ _ _ _ E2).
    + cbn [spec_client]. by rewrite Hcar, E, <- Hn1, <- Hst, Hspec.
  - destruct (IH w) as (times & w' & replies & Hlen & E2 & Hspec); [by apply serving_weaken|done..|].
    exists (0%Z :: times), w', (CFailed :: replies). split_and!.
    + cbn. by rewrite Hlen.
    + cbn [client_requests]. rewrite (act_bind_Some _ _ _ _ _ (refused_request _ _ Hr Hcar)).
      by rewrite (act_bind_Some _ _ _ _ _ E2).
    + cbn [spec_client]. by rewrite Hcar, Hspec.
Qed.

(** C14: a client over gRPC sees the store.  The server behind the connection is a leader that
    keeps serving for as many commands as there are calls and has committed an entry in its
    term; the connection stays up and no context ends.  Then any sequence of client calls
    returns, with the replies and the final store of the sequential specification: a read says
    whether the key is there, an empty value included, a job gets the index of its command,
    and a rejected call is an error that changes nothing.  A call whose message gRPC does not
    carry, because a string is not UTF-8 or because it is over 4 MB, is an error and changes
    nothing; a value over that limit is read as an error. *)
Theorem client_refines_store reqs w :
  serving (length reqs) w -> committed_in_term w -> Forall typed reqs -> Forall remote reqs ->
  grants_below (next_index w) (be_store w) ->
  exists times w' replies,
    length times = length reqs /\
    client_requests (newWithConnection KvInvoke) reqs w = Some (w', replies) /\
    spec_client times (next_index w) reqs (be_store w) = (be_store w', replies).
Proof. apply client_serves. Qed.

End Remote.

(** ** Witness: a connection to the service that keeps the limits. *)

#[local] Existing Instance go_codec.
#[local] Existing Instance solo_backend.
#[local] Existing Instance solo_laws.

Definition direct_invoke (req : KvRequest) : Act (NodeWorld MemoryStorage ()) (result KvResponse) :=
  if kv_request_carried req then
    r <- kv_serve req (mkKVService server_rpc (Some server_jobs)) ;;
    act_ret (match r with
             | Ok res => if kv_response_carried res then Ok res else Err (Msg "ResourceExhausted")
             | Err e => Err (Wrap "status" e)
             end)
  else act_ret (Err (Msg "Internal")).

#[local] Instance direct_invoke_laws : KvNetworkLaws direct_invoke.
Proof.
  split; intros req w; unfold direct_invoke.
  - intros ->. by eexists.
  - intros w' res -> E. rewrite (act_bind_Some _ _ _ _ _ E). eexists. split; [done|]. destruct (kv_response_carried res); eauto.
  - intros w' e -> E. rewrite (act_bind_Some _ _ _ _ _ E). by eexists.
Qed.

(** The last call has a key that is not UTF-8. *)
Definition client_calls : list Request :=
  [RPut "k" []; RGet "k"; RCreateJob "i" [x03] 7; RCreateJob "i" [x03] 7; RDelete "k"; RGet "k";
   RGet (bytes_string [xff])].

Lemma client_refines_store_witness :
  exists times w' replies,
    length times = 7 /\
    client_requests (newWithConnection direct_invoke) client_calls settled_world = Some (w', replies) /\
    spec_client times 3 client_calls (store_after lease_run) = (be_store w', replies).
Proof.
  destruct (client_refines_store direct_invoke client_calls settled_world) as (times & w' & replies & Hl & E & Hs).
  - apply settled_room. cbn. lia.
  - apply settled_committed.
  - repeat constructor; lia.
  - repeat constructor; by eexists.
  - apply settled_grants.
  - exists times, w', replies. split; [exact Hl|]. split; [exact E|exact Hs].
Defined.

(** A value is not read back when it has more bytes than a response may have. *)
Lemma large_value_unread v : (maxReceiveMessageSize < N.of_nat (length v))%N -> client_view (Value (Some v)) = CFailed.
Proof.
  intros Hv. unfold client_view. cbn -[kv_response_carried]. destruct (kv_response_carried _) eqn:E; [|done].
  apply sendable_message_size in E. pose proof (size_bytes_ge v). cbn [gs_Value] in E. lia.
Qed.
