(* ===== verification/KvTest.v ===== *)
(** The manual test program: [cmd/kvtest/main.go].

    It writes a key, reads it back and submits a job through the client, and panics at the
    first error.  The lines it prints are kept as their arguments.  Against a leader that
    serves it, it reads what it wrote and leaves a job that is due at once; an answer of
    [grpc.NewClient] and the clock are arguments. *)

From stdpp Require Import pretty.
From S2P Require Import Prelude Model RaftLog Storage Node Lock KvStore KvSpec KvFacts KvSnapshot.
From S2P Require Import Bytes Proto JsonCodec JsonCommand JsonStore KvApplier Backend NodeBackend.
From S2P Require Import Server ServerFacts KvRpc.

#[local] Open Scope raftiq_scope.

Inductive line :=
| KvLine (found : bool) (value : bytes)
| JobCreated (jobID : string) (index : N)
| WaitingLine
| Submitted (jobID : string).

Definition kvtest_key : string := "grafana-test".
Definition kvtest_job (now : Z) : string := "job-" +:+ pretty now.

(** What was printed, and the error of a panic. *)
Definition kvtest_calls {W} (now : Z) (c : Client W) : Act W (list line * option error) :=
  r <- cl_Put kvtest_key (string_bytes "hello") c ;;
  match r with
  | Err e => act_ret ([], Some e)
  | Ok _ =>
      r <- cl_Get kvtest_key c ;;
      match r with
      | Err e => act_ret ([], Some e)
      | Ok (value, found) =>
          r <- cl_CreateJob (kvtest_job now) (string_bytes "hello from raftiq worker") 0 c ;;
          match r with
          | Err e => act_ret ([KvLine found value], Some e)
          | Ok index =>
              act_ret ([KvLine found value; JobCreated (kvtest_job now) index; WaitingLine; Submitted (kvtest_job now)], None)
          end
      end
  end.

Definition kvtest_main {W} (KvInvoke : KvRequest -> Act W (result KvResponse)) (newClient : string -> option error) (now : Z)
    : Act W (list line * option error) :=
  match Dial KvInvoke newClient "127.0.0.1:8002" with
  | Err e => act_ret ([], Some e)
  | Ok c => kvtest_calls now c
  end.

Lemma kvtest_job_text now : text (kvtest_job now).
Proof.
  apply text_app; [reflexivity|]. destruct now as [|p|p]; [reflexivity|apply (pretty_text (N.pos p))|].
  apply text_app; [reflexivity|apply (pretty_text (N.pos p))].
Qed.

Lemma kvtest_job_nonempty now : kvtest_job now <> "".
Proof. discriminate. Qed.

Section Runs.
#[local] Existing Instance go_codec.
Context {W : Type} {B : Backend W} {L : BackendLaws W}.
Context (KvInvoke : KvRequest -> Act W (result KvResponse)) `{!KvNetworkLaws KvInvoke}.

Definition kvtest_requests (now : Z) : list Request :=
  [RPut kvtest_key (string_bytes "hello"); RGet kvtest_key; RCreateJob (kvtest_job now) (string_bytes "hello from raftiq worker") 0].

(** The program prints what the three calls return. *)
Lemma kvtest_prints now w w' v found index :
  client_requests (newWithConnection KvInvoke) (kvtest_requests now) w = Some (w', [CDone; CValue v found; CCreated index]) ->
  kvtest_main KvInvoke (fun _ => None) now w =
    Some (w', ([KvLine found v; JobCreated (kvtest_job now) index; WaitingLine; Submitted (kvtest_job now)], None)).
Proof.
  unfold kvtest_main, Dial, kvtest_calls. cbn [bool_decide]. rewrite bool_decide_false by done.
  cbn [client_requests kvtest_requests client_request]. unfold act_bind, act_ret.
  destruct (cl_Put _ _ _ w) as [[w1 [[]|e]]|]; cbn [client_reply]; [|repeat case_match; intros; simplify_eq|done].
  destruct (cl_Get _ _ w1) as [[w2 [[v2 f2]|e]]|]; cbn [client_reply]; [|repeat case_match; intros; simplify_eq|done].
  destruct (cl_CreateJob _ _ _ _ w2) as [[w3 [i|e]]|]; cbn [client_reply]; [|done|done]. by intros [= <- <- <- <-].
Qed.

(** The message of the job: its ID is a short text. *)
Lemma kvtest_job_carried now :
  (String.length (kvtest_job now) < 128)%nat ->
  carried (RCreateJob (kvtest_job now) (string_bytes "hello from raftiq worker") 0) = true.
Proof.
  intros Hlen. unfold carried. cbn [kv_request fmap option_fmap option_map default kv_request_carried cq_JobId cq_Payload cq_ScheduledAt].
  unfold sendable_message. apply andb_true_intro. split.
  - cbn [forallb]. by rewrite bool_decide_true by apply kvtest_job_text.
  - apply N.leb_le. change (size_bytes (string_bytes "hello from raftiq worker")) with 26%N. change (size_int 0) with 0%N.
    unfold size_string, size_bytes. rewrite string_bytes_length. destruct (string_bytes _); [vm_compute; discriminate|].
    unfold size_len, varint_size, maxReceiveMessageSize.
    assert (N.log2 (N.of_nat (String.length (kvtest_job now))) <= N.log2 128)%N by (apply N.log2_le_mono; lia).
    change (N.log2 128) with 7%N in *.
    assert (N.log2 (N.of_nat (String.length (kvtest_job now))) / 7 <= 1)%N by (apply N.lt_succ_r, N.Div0.div_lt_upper_bound; lia). lia.
Qed.

(** Against a leader that serves three requests the program reads what it wrote, and leaves a
    pending job that is due at once. *)
Theorem kvtest_succeeds now w :
  serving 3 w -> committed_in_term w -> grants_below (next_index w) (be_store w) ->
  (next_index w + 1 < 2 ^ 64)%N -> (String.length (kvtest_job now) < 128)%nat ->
  jobs (be_store w) !! kvtest_job now = None ->
  exists w' index,
    kvtest_main KvInvoke (fun _ => None) now w =
      Some (w', ([KvLine true (string_bytes "hello"); JobCreated (kvtest_job now) index; WaitingLine;
                  Submitted (kvtest_job now)], None)) /\
    kv_Get kvtest_key (be_store w') = Some (string_bytes "hello") /\
    GetJob (kvtest_job now) (be_store w') =
      Some (mkJob (kvtest_job now) (string_bytes "hello from raftiq worker") JobPending 0 "" 0 0 "" index).
Proof.
  intros Hs Hc Hg Hn Hlen Hj. pose proof (kvtest_job_carried now Hlen) as Hcar.
  destruct (client_serves KvInvoke (kvtest_requests now) w Hs Hc) as (times & w' & replies & Hl & E & Hspec); [| |done|].
  - repeat constructor; lia.
  - repeat constructor; by eexists.
  - destruct times as [|t1 [|t2 [|t3 []]]]; try discriminate Hl. unfold kvtest_requests in Hspec.
    cbn [spec_client] in Hspec. rewrite Hcar in Hspec.
    change (carried (RPut _ _)) with true in Hspec. change (carried (RGet kvtest_key)) with true in Hspec.
    cbn [spec_request] in Hspec. rewrite bool_decide_false in Hspec by apply kvtest_job_nonempty.
    cbn [Put jobs] in Hspec. rewrite Hj in Hspec.
    unfold kv_Get in Hspec. cbn [Put data] in Hspec. rewrite lookup_insert_eq in Hspec.
    change (client_view (Value _)) with (CValue (string_bytes "hello") true) in Hspec. change (client_view Done) with CDone in Hspec.
    unfold client_view in Hspec. cbn [kv_response fmap option_fmap option_map default kv_response_carried cs_Index] in Hspec.
    rewrite size_uint_carried in Hspec by done. injection Hspec as Hst <-.
    exists w'. eexists. split; [by apply kvtest_prints|]. rewrite <- Hst.
    split; [apply lookup_insert_eq|]. unfold GetJob, set_job. cbn [jobs]. apply lookup_insert_eq.
Qed.

End Runs.
