(* ===== verification/Scheduler.v ===== *)
(** The job scheduler: [internal/scheduler/scheduler.go].

    A job is assigned to a worker by the FNV-1a hash of its ID over the sorted
    list of workers.  A pass of the scheduler on the leader reclaims the jobs whose
    lease has expired and claims the pending jobs that are due.  The counters of
    [SchedulerMetrics] are kept; logging is left out. *)

From stdpp Require Import sorting.
From S2P Require Import Prelude Model Lock KvStore Backend NodeBackend.
#[local] Open Scope raftiq_scope.

Definition DefaultInterval : Z := 100 * 1000000.
Definition DefaultLease : Z := 30 * 1000000000.

Definition ErrNoWorkers : error := Sentinel "no workers configured".
Definition ErrInvalidInterval : error := Sentinel "scheduler interval must be positive".
Definition ErrInvalidLease : error := Sentinel "scheduler lease must be positive".

(** ** Choosing a worker *)

(** [hash/fnv]: the 32-bit FNV-1a hash. *)
Definition fnv_offset32 : N := 2166136261.
Definition fnv_prime32 : N := 16777619.

Definition fnv_step (hash : N) (b : Ascii.ascii) : N :=
  (N.lxor hash (Ascii.N_of_ascii b) * fnv_prime32 mod u32_modulus)%N.

Definition fnv32a (s : string) : N := fold_left fnv_step (String.list_ascii_of_string s) fnv_offset32.

Record HashWorkerSelector := mkSelector { workers : list string }.

(** [sort.Strings]. *)
Definition sort_strings (l : list string) : list string := merge_sort String.le l.

(** The loop that looks for equal neighbours. *)
Fixpoint hasDuplicate (l : list string) : bool :=
  match l with
  | a :: (b :: _) as rest => bool_decide (b = a) || hasDuplicate rest
  | _ => false
  end.

Definition NewHashWorkerSelector (ws : list string) : result HashWorkerSelector :=
  if (length ws =? 0)%nat then Err ErrNoWorkers
  else if bool_decide ("" ∈ ws) then Err (Msg "worker ID must not be empty")
  else
    let copied := sort_strings ws in
    if hasDuplicate copied then Err (Msg "duplicate worker ID") else Ok (mkSelector copied).

(** Indexing panics out of range; [None] stands for that. *)
Definition SelectWorker (s : HashWorkerSelector) (job : Job) : option (result string) :=
  if (length (workers s) =? 0)%nat then Some (Err ErrNoWorkers)
  else
    let index := (fnv32a (jb_ID job) mod N.of_nat (length (workers s)))%N in
    match workers s !! N.to_nat index with
    | Some worker => Some (Ok worker)
    | None => None
    end.

(** ** The scheduler *)

Record SchedulerMetrics := mkSchedulerMetrics {
  sm_ScheduledJobs : nat;
  sm_LeaseAcquisitions : nat;
  sm_LeaseLosses : nat;
}.

Definition IncScheduledJobs (m : SchedulerMetrics) : SchedulerMetrics :=
  mkSchedulerMetrics (S (sm_ScheduledJobs m)) (sm_LeaseAcquisitions m) (sm_LeaseLosses m).
Definition IncLeaseAcquisitions (m : SchedulerMetrics) : SchedulerMetrics :=
  mkSchedulerMetrics (sm_ScheduledJobs m) (S (sm_LeaseAcquisitions m)) (sm_LeaseLosses m).
Definition IncLeaseLosses (m : SchedulerMetrics) : SchedulerMetrics :=
  mkSchedulerMetrics (sm_ScheduledJobs m) (sm_LeaseAcquisitions m) (S (sm_LeaseLosses m)).

Record SchedulerConfig := mkSchedulerConfig { cfg_Interval : Z; cfg_Lease : Z }.

Record Scheduler := mkScheduler {
  sch_selector : HashWorkerSelector;
  sch_interval : Z;
  sch_lease : Z;
}.

(** [New]; the checks for nil arguments do not arise. *)
Definition sch_New (selector : HashWorkerSelector) (config : SchedulerConfig) : result Scheduler :=
  if (cfg_Interval config <=? 0)%Z then Err ErrInvalidInterval
  else if (cfg_Lease config <=? 0)%Z then Err ErrInvalidLease
  else Ok (mkScheduler selector (cfg_Interval config) (cfg_Lease config)).

Definition isExpectedReclaimError (e : error) : bool :=
  errors_Is e "job not found" || errors_Is e "invalid job state transition" ||
  errors_Is e "job ownership lost".

Definition isContextError (e : error) : bool :=
  errors_Is e "context canceled" || errors_Is e "context deadline exceeded".

Definition reclaim_command (jobID : string) (token : N) (at_ : Z) : Command :=
  mkCommand CommandJobReclaim "" [] jobID [] 0 "" 0 token "" (JobOther "") at_.
Definition claim_command (jobID workerID : string) (expiresAt : Z) : Command :=
  mkCommand CommandClaimJob "" [] jobID [] 0 workerID expiresAt 0 "" (JobOther "") 0.

Section Scheduler.
Context {W : Type} `{CommandCodec} `{Backend W}.

(** An action of the scheduler: the counters and the error it returns. *)
Definition Sched (A : Type) : Type := SchedulerMetrics -> Act W (SchedulerMetrics * A).

(** An action that does not touch the counters. *)
Definition unmetered {A} (a : Act W A) : Sched A := fun m => r <- a ;; act_ret (m, r).

Definition reclaimExpiredJob (job : Job) (now : Z) : Sched (result ()) := fun m =>
  if (jb_FencingToken job =? 0)%N then act_ret (m, Ok ())
  else
    r <- (commandData <-? act_wrap "encode job reclaim command"
            (act_ret (EncodeCommand (reclaim_command (jb_ID job) (jb_FencingToken job) now))) ;;
          index <-? be_Propose commandData ;;
          act_wrap "wait for job reclaim result" (be_WaitResult index)) ;;
    act_ret
      match r with
      | Err e => (m, Err e)
      | Ok res =>
          match ar_Err res with
          | Some e => (m, Err e)
          | None => (IncLeaseLosses m, Ok ())
          end
      end.

(** The loop of [reclaimExpiredJobs]. *)
Fixpoint reclaimLoop (now : Z) (js : list Job) : Sched (result ()) := fun m =>
  match js with
  | [] => act_ret (m, Ok ())
  | job :: rest =>
      r <- reclaimExpiredJob job now m ;;
      match r with
      | (m, Ok _) => reclaimLoop now rest m
      | (m, Err e) =>
          if isContextError e then act_ret (m, Err e)
          else if isExpectedReclaimError e then reclaimLoop now rest m
          else act_ret (m, Err e)
      end
  end.

Definition reclaimExpiredJobs (now : Z) : Sched (result ()) := fun m w =>
  reclaimLoop now (ListExpiredJobs now (be_store w)) m w.

Definition scheduleJob (s : Scheduler) (job : Job) : Sched (result ()) := fun m =>
  match SelectWorker (sch_selector s) job with
  | None => fun _ => None
  | Some (Err e) => act_ret (m, Err e)
  | Some (Ok workerID) =>
      now <- be_now ;;
      r <- (commandData <-? act_wrap "encode claim job command"
              (act_ret (EncodeCommand
                 (claim_command (jb_ID job) workerID (i64_wrap (now + sch_lease s))))) ;;
            index <-? be_Propose commandData ;;
            act_wrap "wait for job claim result" (be_WaitResult index)) ;;
      act_ret
        match r with
        | Err e => (m, Err e)
        | Ok res =>
            match ar_Err res with
            | Some e =>
                if errors_Is e "job is already claimed" || errors_Is e "job is not claimable" ||
                   errors_Is e "job not found"
                then (m, Ok ()) else (m, Err e)
            | None => (IncLeaseAcquisitions (IncScheduledJobs m), Ok ())
            end
        end
  end.

(** The loop of [scheduleDueJobs]; errors that are not the context's are only
    logged. *)
Fixpoint scheduleLoop (s : Scheduler) (now : Z) (js : list Job) : Sched (result ()) := fun m =>
  match js with
  | [] => act_ret (m, Ok ())
  | job :: rest =>
      if (now <? jb_ScheduledAt job)%Z then act_ret (m, Ok ())
      else
        r <- scheduleJob s job m ;;
        match r with
        | (m, Ok _) => scheduleLoop s now rest m
        | (m, Err e) => if isContextError e then act_ret (m, Err e) else scheduleLoop s now rest m
        end
  end.

Definition scheduleDueJobs (s : Scheduler) : Sched (result ()) := fun m w =>
  if bool_decide (be_role w ≠ Leader) then Some (w, (m, Ok ()))
  else
    (now <- be_now ;;
     r <- reclaimExpiredJobs now m ;;
     match r with
     | (m, Err e) =>
         if isContextError e then act_ret (m, Err e)
         else fun w => scheduleLoop s now (ListPendingJobs (be_store w)) m w
     | (m, Ok _) => fun w => scheduleLoop s now (ListPendingJobs (be_store w)) m w
     end) w.

(** The ticks of [Run]: it returns with the error of the context, and logs the
    others. *)
Fixpoint sch_Run (s : Scheduler) (ticks : nat) : Sched (option error) := fun m =>
  match ticks with
  | O => act_ret (m, None)
  | S ticks =>
      r <- scheduleDueJobs s m ;;
      match r with
      | (m, Ok _) => sch_Run s ticks m
      | (m, Err e) => if isContextError e then act_ret (m, Some e) else sch_Run s ticks m
      end
  end.

End Scheduler.

(** ** Choosing a worker *)

Lemma hasDuplicate_spec l : Sorted String.le l -> hasDuplicate l = false <-> NoDup l.
Proof.
  induction l as [|a [|b l] IH]; intros Hs.
  - split; [constructor|done].
  - split; [intros _; apply NoDup_singleton|done].
  - cbn [hasDuplicate]. rewrite NoDup_cons. apply Sorted_inv in Hs as [Hs Hab]. apply HdRel_inv in Hab.
    specialize (IH Hs). rewrite orb_false_iff, IH, bool_decide_eq_false. split; [|set_solver].
    intros [Hne Hnd]. split; [|done]. intros [->|Hin]%elem_of_cons; [done|].
    apply Sorted_StronglySorted in Hs; [|exact _]. apply StronglySorted_inv in Hs as [_ Hall].
    apply Hne. apply (anti_symm String.le); [|done]. by eapply Forall_forall in Hall.
Qed.

Lemma NewHashWorkerSelector_ok ws sel :
  NewHashWorkerSelector ws = Ok sel <->
  ws ≠ [] /\ ("" ∉ ws) /\ NoDup ws /\ sel = mkSelector (sort_strings ws).
Proof.
  unfold NewHashWorkerSelector. destruct (Nat.eqb_spec (length ws) 0) as [Hl|Hl].
  { apply nil_length_inv in Hl. naive_solver. }
  assert (ws ≠ []) by (intros ->; done). case_bool_decide; [naive_solver|].
  assert (hasDuplicate (sort_strings ws) = false <-> NoDup ws) as Hd.
  { rewrite hasDuplicate_spec by (apply Sorted_merge_sort; exact _).
    unfold sort_strings. by rewrite merge_sort_Permutation. }
  destruct (hasDuplicate (sort_strings ws)); naive_solver.
Qed.

Lemma sort_strings_perm ws ws' : ws ≡ₚ ws' -> sort_strings ws = sort_strings ws'.
Proof.
  intros Hp. apply (Sorted_unique String.le); try (apply Sorted_merge_sort; exact _); try exact _.
  unfold sort_strings. by rewrite !merge_sort_Permutation.
Qed.

Lemma SelectWorker_total ws sel job :
  NewHashWorkerSelector ws = Ok sel -> exists w, SelectWorker sel job = Some (Ok w) /\ w ∈ ws /\ w ≠ "".
Proof.
  intros (Hne & Hempty & _ & ->)%NewHashWorkerSelector_ok. unfold SelectWorker. cbn [workers].
  assert (length (sort_strings ws) = length ws) as Hlen.
  { unfold sort_strings. by rewrite merge_sort_Permutation. }
  assert (0 < length ws) by (destruct ws; [done|cbn; lia]).
  rewrite Hlen. destruct (Nat.eqb_spec (length ws) 0); [lia|].
  destruct (sort_strings ws !! N.to_nat (fnv32a (jb_ID job) mod N.of_nat (length ws))) as [w|] eqn:E.
  - exists w. split; [done|]. apply list_elem_of_lookup_2 in E. unfold sort_strings in E.
    rewrite merge_sort_Permutation in E. split; [done|]. by intros ->.
  - apply lookup_ge_None in E. rewrite Hlen in E.
    pose proof (N.mod_lt (fnv32a (jb_ID job)) (N.of_nat (length ws))). lia.
Qed.

(** Every node assigns a job to the same worker.  For two lists of the same
    workers in any order, [NewHashWorkerSelector] succeeds on both or on neither
    (it fails exactly on an empty list, an empty name or a duplicate), the two
    selectors choose the same worker for every job, and the choice is always in
    range and one of the configured workers. *)
Theorem assignment_is_deterministic ws ws' :
  ws ≡ₚ ws' ->
  (isOk (NewHashWorkerSelector ws) = true <-> ws ≠ [] /\ ("" ∉ ws) /\ NoDup ws) /\
  NewHashWorkerSelector ws = NewHashWorkerSelector ws' /\
  forall sel job, NewHashWorkerSelector ws = Ok sel ->
    exists w, SelectWorker sel job = Some (Ok w) /\ w ∈ ws' /\ w ≠ "".
Proof.
  intros Hp. split_and!.
  - split.
    + destruct (NewHashWorkerSelector ws) as [sel|] eqn:E; [|done]. by apply NewHashWorkerSelector_ok in E as (? & ? & ? & _).
    + intros (? & ? & ?). by rewrite (proj2 (NewHashWorkerSelector_ok ws (mkSelector (sort_strings ws)))).
  - unfold NewHashWorkerSelector. rewrite (sort_strings_perm ws ws' Hp), Hp.
    by rewrite (bool_decide_ext ("" ∈ ws) ("" ∈ ws')) by (by rewrite Hp).
  - intros sel job Hs. destruct (SelectWorker_total ws sel job Hs) as (w & E & Hin & Hw).
    exists w. by rewrite <- Hp.
Qed.

Lemma assignment_is_deterministic_witness :
  NewHashWorkerSelector ["w2"; "w1"; "w3"] = NewHashWorkerSelector ["w3"; "w2"; "w1"].
Proof.
  apply (assignment_is_deterministic ["w2"; "w1"; "w3"] ["w3"; "w2"; "w1"]).
  apply (bool_decide_unpack _). vm_compute. exact I.
Defined.
