(* ===== verification/SchedulerFacts.v ===== *)
(** What one pass of the scheduler does on a serving leader: every job whose
    lease has expired is reclaimed, and every due job that can be claimed is
    scheduled on the worker its hash selects. *)

From stdpp Require Import sorting.
From S2P Require Import Prelude Model Lock KvStore KvSpec KvFacts KvSnapshot KvApplier Backend.
From S2P Require Import JsonCodec JsonCommand NodeBackend Server ServerFacts Scheduler.
#[local] Open Scope raftiq_scope.

(** ** The order of the queries *)

Lemma job_le_spec a b :
  job_le a b <-> (jb_ScheduledAt a < jb_ScheduledAt b)%Z \/
    (jb_ScheduledAt a = jb_ScheduledAt b /\ String.le (jb_ID a) (jb_ID b)).
Proof.
  unfold job_le, job_less, String.le.
  assert (String.ltb (jb_ID b) (jb_ID a) = false <-> String.leb (jb_ID a) (jb_ID b)) as Hs.
  { unfold String.ltb, String.leb. rewrite (String.compare_antisym (jb_ID b) (jb_ID a)).
    by destruct (String.compare (jb_ID a) (jb_ID b)). }
  destruct (Z.eqb_spec (jb_ScheduledAt b) (jb_ScheduledAt a)) as [->|Hne]; cbn [negb].
  - rewrite Hs. naive_solver lia.
  - rewrite Z.ltb_ge. naive_solver lia.
Qed.

#[local] Instance job_le_trans : Transitive job_le.
Proof.
  intros a b c. rewrite !job_le_spec. intros [?|[? H1]] [?|[? H2]]; try (left; lia).
  right. split; [lia|]. by etrans.
Qed.

#[local] Instance job_le_total : Total job_le.
Proof.
  intros a b. rewrite !job_le_spec.
  destruct (Z.lt_trichotomy (jb_ScheduledAt a) (jb_ScheduledAt b)) as [?|[?|?]]; [by left; left| |by right; left].
  destruct (total String.le (jb_ID a) (jb_ID b)); [left|right]; right; by split.
Qed.

(** A job is known by its ID in a well-formed store. *)
Definition jobs_keyed (s : Store) : Prop := forall i j, jobs s !! i = Some j -> jb_ID j = i.

Lemma elem_of_sort_jobs j js : j ∈ sort_jobs js <-> j ∈ js.
Proof. unfold sort_jobs. by rewrite merge_sort_Permutation. Qed.

Lemma elem_of_all_jobs j s : jobs_keyed s -> j ∈ all_jobs s <-> jobs s !! jb_ID j = Some j.
Proof.
  intros Hk. unfold all_jobs. rewrite list_elem_of_fmap. split.
  - intros ([i j'] & -> & Hi%elem_of_map_to_list). cbn. by rewrite (Hk i j' Hi).
  - intros Hj. exists (jb_ID j, j). split; [done|]. by apply elem_of_map_to_list.
Qed.

Lemma sort_jobs_ids s (P : Job -> Prop) `{forall j, Decision (P j)} :
  jobs_keyed s -> NoDup (map jb_ID (sort_jobs (filter P (all_jobs s)))).
Proof.
  intros Hk. change (map jb_ID ?x) with (jb_ID <$> x). unfold sort_jobs. rewrite merge_sort_Permutation.
  assert (NoDup (jb_ID <$> all_jobs s)) as Hnd.
  { unfold all_jobs. rewrite <- list_fmap_compose.
    replace ((jb_ID ∘ snd) <$> map_to_list (jobs s)) with (map_to_list (jobs s)).*1;
      [apply NoDup_fst_map_to_list|].
    apply list_fmap_ext. intros i [k j] Hi%list_elem_of_lookup_2%elem_of_map_to_list.
    change (k = jb_ID j). by rewrite (Hk k j Hi). }
  eapply sublist_NoDup; [exact Hnd|]. apply fmap_sublist. apply sublist_filter.
Qed.

Lemma ListPendingJobs_spec s j :
  jobs_keyed s -> j ∈ ListPendingJobs s <-> jobs s !! jb_ID j = Some j /\ jb_State j = JobPending.
Proof.
  intros Hk. unfold ListPendingJobs. rewrite elem_of_sort_jobs, list_elem_of_filter, elem_of_all_jobs by done.
  tauto.
Qed.

Lemma ListExpiredJobs_spec now s j :
  jobs_keyed s -> (0 < now)%Z ->
  j ∈ ListExpiredJobs now s <-> jobs s !! jb_ID j = Some j /\ lease_expired now s j = true.
Proof.
  intros Hk Hn. unfold ListExpiredJobs. destruct (Z.leb_spec now 0); [lia|].
  rewrite elem_of_sort_jobs, list_elem_of_filter, elem_of_all_jobs by done. tauto.
Qed.

(** Due jobs come first. *)
Lemma due_prefix now j js :
  Sorted job_le (j :: js) -> (now < jb_ScheduledAt j)%Z -> forall j', j' ∈ j :: js -> (now < jb_ScheduledAt j')%Z.
Proof.
  intros Hs Hj j' [->|Hin]%elem_of_cons; [done|].
  apply Sorted_StronglySorted in Hs; [|exact _]. apply StronglySorted_inv in Hs as [_ Hall].
  eapply Forall_forall in Hall; [|done]. apply job_le_spec in Hall. lia.
Qed.

(** ** The commands of the scheduler on the store *)

Lemma reclaim_apply i j l now index s :
  i ≠ "" -> jobs s !! i = Some j -> active (jb_State j) = true -> jb_FencingToken j ≠ 0%N ->
  lock_at i s = Some l -> lk_FencingToken l = jb_FencingToken j -> (lk_ExpiresAt l <= now)%Z -> (0 < now)%Z ->
  applyCommand (reclaim_command i (jb_FencingToken j) now) index s =
    Some (set_job i (reclaimed j) (set_locks (release i (locks s)) s),
          mkApplyResult (Some (reclaimed j)) None).
Proof.
  intros Hi Hj Ha Ht Hl Hlt He Hn. unfold applyCommand, applyJobReclaimCommand, ReclaimExpiredJob. cbn.
  unfold lock_at in Hl. rewrite bool_decide_false by done. destruct (N.eqb_spec (jb_FencingToken j) 0); [done|].
  destruct (Z.leb_spec now 0); [lia|]. cbn. unfold Get. rewrite Hj, Ha, N.eqb_refl, Hl, Hlt, N.eqb_refl. cbn.
  destruct (Z.ltb_spec now (lk_ExpiresAt l)); [lia|]. done.
Qed.

(** The job after its claim. *)
Definition scheduled_as (worker : string) (token : N) (j : Job) : Job :=
  let attempt := ((jb_Attempt j + 1) mod u32_modulus)%N in
  claimed worker token attempt (executionID (jb_ID j) attempt) j.

Lemma claim_apply_free i j worker e index s :
  i ≠ "" -> worker ≠ "" -> (0 < e)%Z -> jobs s !! i = Some j -> jb_State j = JobPending ->
  lock_at i s = None ->
  applyCommand (claim_command i worker e) index s =
    Some (set_job i (scheduled_as worker (u64_add (next_token s) 1) j)
            (set_locks (grant i worker e index (locks s)) s),
          mkApplyResult (Some (scheduled_as worker (u64_add (next_token s) 1) j)) None).
Proof.
  intros Hi Hw He Hj Hp Hl. unfold applyCommand, applyJobCreationCommand, applyClaimJob, ClaimJob.
  unfold validateClaimArguments. cbn. rewrite !bool_decide_false by done.
  destruct (Z.leb_spec e 0); [lia|]. unfold lock_at in Hl.
  rewrite Hj. unfold handleExistingClaim. rewrite Hp. unfold Acquire. rewrite Hl. done.
Qed.

Lemma claim_apply_held i j worker e index s l :
  i ≠ "" -> worker ≠ "" -> (0 < e)%Z -> jobs s !! i = Some j -> jb_State j = JobPending ->
  lock_at i s = Some l ->
  exists s' r, applyCommand (claim_command i worker e) index s = Some (s', r) /\
    locks s' = locks s /\ (forall i', i' ≠ i -> jobs s' !! i' = jobs s !! i') /\
    match ar_Err r with Some e => errors_Is e "job is already claimed" = true | None => True end.
Proof.
  intros Hi Hw He Hj Hp Hl. unfold applyCommand, applyJobCreationCommand, applyClaimJob, ClaimJob.
  unfold validateClaimArguments. cbn. rewrite !bool_decide_false by done.
  destruct (Z.leb_spec e 0); [lia|]. unfold lock_at in Hl.
  rewrite Hj. unfold handleExistingClaim. rewrite Hp. unfold Acquire. rewrite Hl. cbn.
  unfold handleFailedClaim. case_bool_decide.
  - eexists _, _. split_and!; [done|done| |done]. intros i' Hne. cbn. by rewrite lookup_insert_ne.
  - eexists _, _. split_and!; [done|done|done|done].
Qed.

(** ** The loops *)

Section Pass.
Context {W : Type} `{BackendLaws W}.

(** A command whose result is awaited. *)
Lemma propose_result k w c data s r t1 t3 :
  serving (S k) w -> transmitted c data -> malformed c = false -> needsResult c = true ->
  applyCommand c (next_index w) (be_store w) = Some (s, r) ->
  exists w2,
    try_bind (act_wrap t1 (act_ret (EncodeCommand c)))
      (fun commandData => try_bind (be_Propose commandData)
        (fun index => act_wrap t3 (be_WaitResult index))) w = Some (w2, Ok r) /\
    be_store w2 = s /\ serving k w2.
Proof.
  intros Hs Ht Hm Hr E. destruct (serving_Propose k w c data s r Hs Ht Hm E) as (w1 & HP & _ & Hw).
  destruct (Hw Hr) as (w2 & HW & Hst & Hs2 & _). exists w2. split_and!; try done.
  destruct Ht as (He & _). rewrite (try_bind_Ok _ _ w w data) by (apply act_wrap_Ok; by rewrite He).
  rewrite (try_bind_Ok _ _ w w1 (next_index w)) by done. by apply act_wrap_Ok.
Qed.

(** Reclaiming the jobs of [js]. *)
Definition after_reclaim (js : list Job) (s s' : Store) : Prop :=
  (forall i, jobs s' !! i = if decide (i ∈ map jb_ID js) then reclaimed <$> jobs s !! i else jobs s !! i) /\
  (forall key, lock_at key s' = if decide (key ∈ map jb_ID js) then None else lock_at key s) /\
  next_token s' = next_token s.

(** A job the reclaim command accepts. *)
Definition reclaimable (now : Z) (s : Store) (j : Job) : Prop :=
  jb_ID j ≠ "" /\ jobs s !! jb_ID j = Some j /\ active (jb_State j) = true /\ jb_FencingToken j ≠ 0%N /\
  exists l, lock_at (jb_ID j) s = Some l /\ lk_FencingToken l = jb_FencingToken j /\ (lk_ExpiresAt l <= now)%Z.

Lemma reclaimLoop_serves now js k w m :
  serving (length js + k) w -> (0 < now)%Z -> NoDup (map jb_ID js) ->
  Forall (reclaimable now (be_store w)) js ->
  Forall (fun j => exists data, transmitted (reclaim_command (jb_ID j) (jb_FencingToken j) now) data) js ->
  exists w', reclaimLoop now js m w =
      Some (w', (mkSchedulerMetrics (sm_ScheduledJobs m) (sm_LeaseAcquisitions m)
                   (sm_LeaseLosses m + length js), Ok ())) /\
    serving k w' /\ after_reclaim js (be_store w) (be_store w').
Proof.
  intros Hs Hn. revert w m Hs. induction js as [|j js IH]; intros w m Hs Hnd Hall Hsend.
  { exists w. split_and!; [|done|by split_and!]. cbn. rewrite Nat.add_0_r. by destruct m. }
  cbn [map] in Hnd. apply NoDup_cons in Hnd as [Hfresh Hnd].
  apply Forall_cons in Hall as [(Hi & Hj & Ha & Ht & l & Hl & Hlt & He) Hall].
  apply Forall_cons in Hsend as [[data Hd] Hsend].
  destruct (propose_result (length js + k) w _ data _ _ "encode job reclaim command"
    "wait for job reclaim result" Hs Hd eq_refl eq_refl (reclaim_apply _ _ _ _ _ _ Hi Hj Ha Ht Hl Hlt He Hn))
    as (w1 & E1 & Hst1 & Hs1).
  assert (forall j', j' ∈ js -> jb_ID j' ≠ jb_ID j) as Hother.
  { intros j' Hin Heq. apply Hfresh. rewrite <- Heq. by apply list_elem_of_fmap_2. }
  destruct (IH w1 (IncLeaseLosses m)) as (w' & E & Hs' & Hj' & Hl' & Hn'); [done|done| |done|].
  { rewrite Hst1. apply Forall_forall. intros j' Hin. specialize (Hother j' Hin).
    eapply Forall_forall in Hall as (? & Hj1 & ? & ? & l1 & Hl1 & ?); [|exact Hin].
    split_and!; try done; [cbn; by rewrite lookup_insert_ne|]. exists l1. split; [|done].
    change (lock_at (jb_ID j') (set_locks (release (jb_ID j) (locks (be_store w))) (be_store w)) = Some l1).
    rewrite lock_at_release. by rewrite decide_False. }
  exists w'. cbn [reclaimLoop]. unfold reclaimExpiredJob at 1.
  destruct (N.eqb_spec (jb_FencingToken j) 0); [done|].
  erewrite act_bind_Some; [|erewrite act_bind_Some by exact E1; reflexivity]. cbn [ar_Err].
  rewrite E. split_and!; [|done|].
  { do 3 f_equal. cbn. f_equal. lia. }
  split_and!.
  - intros i. rewrite Hj', Hst1. cbn [map jobs set_job set_locks].
    destruct (decide (i = jb_ID j)) as [->|Hne].
    + rewrite decide_False by done. rewrite decide_True by set_solver. by rewrite lookup_insert_eq, Hj.
    + rewrite lookup_insert_ne by done.
      destruct (decide (i ∈ map jb_ID js)); [rewrite decide_True by set_solver|rewrite decide_False by set_solver];
        done.
  - intros key. rewrite Hl', Hst1. cbn [map].
    change (lock_at key (set_job (jb_ID j) ?x ?y)) with (lock_at key y). rewrite lock_at_release.
    destruct (decide (key = jb_ID j)) as [->|Hne].
    + rewrite (decide_True (P := _ ∈ _ :: _)) by set_solver. rewrite (decide_True (P := jb_ID j = jb_ID j)) by done.
      by destruct (decide _).
    + rewrite (decide_False (P := jb_ID j = key)) by done.
      destruct (decide (key ∈ map jb_ID js)); [rewrite decide_True by set_solver|rewrite decide_False by set_solver];
        done.
  - by rewrite Hn', Hst1.
Qed.

Context (sched : Scheduler) (ws : list string).
Context (Hselector : NewHashWorkerSelector ws = Ok (sch_selector sched)).
Context (Hlease : (0 < sch_lease sched < 2 ^ 62)%Z).

(** Scheduling job [j]: what changes, and the job and its lock afterwards. *)
Definition job_scheduled (j : Job) (s s' : Store) : Prop :=
  exists worker token, SelectWorker (sch_selector sched) j = Some (Ok worker) /\ worker ∈ ws /\
    jobs s' !! jb_ID j = Some (scheduled_as worker token j) /\ holds (jb_ID j) token s' /\
    (next_token s < token)%N.

Lemma scheduleJob_serves j k w m :
  serving (S k) w -> jb_ID j ≠ "" -> jobs (be_store w) !! jb_ID j = Some j -> jb_State j = JobPending ->
  token_room 1 (be_store w) ->
  (forall worker e, worker ∈ ws -> is_i64 e -> exists data, transmitted (claim_command (jb_ID j) worker e) data) ->
  exists w' m', scheduleJob sched j m w = Some (w', (m', Ok ())) /\ serving k w' /\
    (next_token (be_store w) <= next_token (be_store w') <= next_token (be_store w) + 1)%N /\
    (forall i, i ≠ jb_ID j -> jobs (be_store w') !! i = jobs (be_store w) !! i /\
       lock_at i (be_store w') = lock_at i (be_store w)) /\
    (lock_at (jb_ID j) (be_store w) = None -> job_scheduled j (be_store w) (be_store w')).
Proof.
  intros Hs Hi Hj Hp Hroom Hsend. unfold scheduleJob.
  destruct (SelectWorker_total ws (sch_selector sched) j Hselector) as (worker & Hsel & Hin & Hw).
  rewrite Hsel. destruct (serving_now _ w Hs) as (w0 & now & En & Hnow & Hst0 & Hs0 & Hn0 & _).
  rewrite (act_bind_Some _ _ _ _ _ En).
  rewrite i64_wrap_small by lia. set (e := (now + sch_lease sched)%Z).
  assert (0 < e)%Z as He by (unfold e; lia). destruct (Hsend worker e Hin ltac:(unfold e; lia)) as [data Hd].
  rewrite <- Hst0 in *.
  assert (u64_add (next_token (be_store w0)) 1 = next_token (be_store w0) + 1)%N as Hnt
    by (apply u64_add_small; unfold token_room in Hroom; cbn in Hroom; lia).
  destruct (lock_at (jb_ID j) (be_store w0)) as [l|] eqn:El.
  - destruct (claim_apply_held _ _ worker e (next_index w0) _ l Hi Hw He Hj Hp El)
      as (s' & r & Ea & Hlk & Hjb & Herr).
    destruct (propose_result k w0 _ data _ _ "encode claim job command" "wait for job claim result"
      Hs0 Hd eq_refl eq_refl Ea) as (w' & E & Hst & Hs').
    exists w'. erewrite act_bind_Some by exact E.
    assert (exists m', match ar_Err r with
      | Some e => if errors_Is e "job is already claimed" || errors_Is e "job is not claimable" ||
                     errors_Is e "job not found" then (m, Ok ()) else (m, Err e)
      | None => (IncLeaseAcquisitions (IncScheduledJobs m), Ok ()) end = (m', Ok ())) as [m' Hm].
    { destruct (ar_Err r) as [err|]; [rewrite Herr; by eexists|by eexists]. }
    rewrite Hm. exists m'. split_and!; try done; rewrite Hst.
    + unfold next_token. by rewrite Hlk.
    + unfold next_token. rewrite Hlk. lia.
    + intros i Hne. split; [by apply Hjb|]. unfold lock_at. by rewrite Hlk.
  - destruct (propose_result k w0 _ data _ _ "encode claim job command" "wait for job claim result"
      Hs0 Hd eq_refl eq_refl (claim_apply_free _ _ worker e (next_index w0) _ Hi Hw He Hj Hp El))
      as (w' & E & Hst & Hs').
    exists w', (IncLeaseAcquisitions (IncScheduledJobs m)). erewrite act_bind_Some by exact E.
    assert (next_token (be_store w') = next_token (be_store w0) + 1)%N as Hnt' by (rewrite Hst; exact Hnt).
    split_and!; try done; try lia.
    + intros i Hne. rewrite Hst. split; [cbn; by rewrite lookup_insert_ne|].
      unfold lock_at. cbn. by rewrite lookup_insert_ne.
    + intros _. exists worker, (next_token (be_store w0) + 1)%N. rewrite <- Hnt, Hst.
      split_and!; try done; [cbn; by rewrite lookup_insert_eq| |lia].
      eexists. split; [unfold lock_at; cbn; by rewrite lookup_insert_eq|done].
Qed.

Definition after_schedule (now : Z) (js : list Job) (s s' : Store) : Prop :=
  (forall i, i ∉ map jb_ID js -> jobs s' !! i = jobs s !! i /\ lock_at i s' = lock_at i s) /\
  (forall j, j ∈ js -> (now < jb_ScheduledAt j)%Z -> jobs s' !! jb_ID j = Some j) /\
  (forall j, j ∈ js -> (jb_ScheduledAt j <= now)%Z -> lock_at (jb_ID j) s = None -> job_scheduled j s s').

Lemma scheduleLoop_serves now js k w m :
  serving (length js + k) w -> Sorted job_le js -> NoDup (map jb_ID js) -> token_room (length js) (be_store w) ->
  Forall (fun j => jb_ID j ≠ "" /\ jobs (be_store w) !! jb_ID j = Some j /\ jb_State j = JobPending) js ->
  Forall (fun j => forall worker e, worker ∈ ws -> is_i64 e ->
    exists data, transmitted (claim_command (jb_ID j) worker e) data) js ->
  exists w' m', scheduleLoop sched now js m w = Some (w', (m', Ok ())) /\ serving k w' /\
    after_schedule now js (be_store w) (be_store w').
Proof.
  revert w m. induction js as [|j js IH]; intros w m Hs Hsort Hnd Hroom Hall Hsend.
  { exists w, m. split_and!; [done|done|]. split_and!; [done|by intros j ?%not_elem_of_nil..]. }
  cbn [scheduleLoop]. destruct (Z.ltb_spec now (jb_ScheduledAt j)) as [Hlate|Hdue].
  { exists w, m. pose proof (due_prefix _ _ _ Hsort Hlate) as Hafter.
    split_and!; [done|eapply serving_le; [|exact Hs]; lia|]. split_and!; [done| |].
    - intros j' Hin _. by eapply Forall_forall in Hall as (_ & ? & _).
    - intros j' Hin Hd. specialize (Hafter j' Hin). lia. }
  cbn [map] in Hnd. apply NoDup_cons in Hnd as [Hfresh Hnd]. apply Sorted_inv in Hsort as [Hsort _].
  apply Forall_cons in Hall as [(Hi & Hj & Hp) Hall]. apply Forall_cons in Hsend as [Hsj Hsend].
  destruct (scheduleJob_serves j (length js + k) w m Hs Hi Hj Hp) as (w1 & m1 & E1 & Hs1 & Hn1 & Hother & Hfree);
    [unfold token_room in *; cbn in Hroom; cbn; lia|done|].
  assert (forall j', j' ∈ js -> jb_ID j' ≠ jb_ID j) as Hne.
  { intros j' Hin Heq. apply Hfresh. rewrite <- Heq. by apply list_elem_of_fmap_2. }
  destruct (IH w1 m1) as (w' & m' & E & Hs' & Hkeep & Hlater & Hsched); [done|done|done| | |done|].
  { unfold token_room in *. cbn in Hroom. lia. }
  { apply Forall_forall. intros j' Hin. eapply Forall_forall in Hall as (? & ? & ?); [|exact Hin].
    destruct (Hother _ (Hne j' Hin)) as [-> _]. done. }
  exists w', m'. rewrite (act_bind_Some _ _ _ _ _ E1), E. split_and!; [done|done|]. split_and!.
  - intros i [Hni Hni']%not_elem_of_cons. destruct (Hkeep i Hni') as [-> ->]. by apply Hother.
  - intros j' [->|Hin]%elem_of_cons Hl; [lia|by apply Hlater].
  - intros j' [->|Hin]%elem_of_cons Hd Hl.
    + destruct (Hfree Hl) as (worker & token & ? & ? & Hj' & (l & Hlk & Htok) & ?).
      destruct (Hkeep _ Hfresh) as [Hk1 Hk2]. exists worker, token. split_and!; try done.
      * by rewrite Hk1.
      * exists l. by rewrite Hk2.
    + destruct (Hother _ (Hne j' Hin)) as [_ Hlk]. rewrite <- Hlk in Hl.
      destruct (Hsched j' Hin Hd Hl) as (worker & token & ? & ? & ? & ? & ?).
      exists worker, token. split_and!; try done. lia.
Qed.

Lemma sort_jobs_length s (P : Job -> Prop) `{forall j, Decision (P j)} :
  length (sort_jobs (filter P (all_jobs s))) <= size (jobs s).
Proof.
  unfold sort_jobs. rewrite merge_sort_Permutation. etrans; [apply length_filter|].
  unfold all_jobs. by rewrite length_fmap, length_map_to_list.
Qed.

Lemma ListExpiredJobs_facts now s :
  store_ok s -> (0 < now)%Z ->
  NoDup (map jb_ID (ListExpiredJobs now s)) /\ length (ListExpiredJobs now s) <= size (jobs s) /\
  Forall (reclaimable now s) (ListExpiredJobs now s) /\
  forall i j, jobs s !! i = Some j -> i ∈ map jb_ID (ListExpiredJobs now s) <-> lease_expired now s j = true.
Proof.
  intros [Hlk Hjb] Hn. assert (jobs_keyed s) as Hk by (intros i j Hij; by apply Hjb).
  assert (forall j, j ∈ ListExpiredJobs now s <-> jobs s !! jb_ID j = Some j /\ lease_expired now s j = true)
    as Hspec by (intros j; by apply ListExpiredJobs_spec).
  split_and!.
  - unfold ListExpiredJobs. destruct (now <=? 0)%Z; [constructor|]. by apply sort_jobs_ids.
  - unfold ListExpiredJobs. destruct (now <=? 0)%Z; [cbn; lia|]. apply sort_jobs_length.
  - apply Forall_forall. intros j [Hj He]%Hspec. unfold lease_expired in He. bool_norm.
    destruct (Hjb _ _ Hj) as (Hi & _ & Hst). unfold Get in *. fold (lock_at (jb_ID j) s) in *.
    destruct (lock_at (jb_ID j) s) as [l|] eqn:El; [|done]. bool_norm.
    split_and!; try done.
    + destruct (proj1 (active_spec _) ltac:(eassumption)) as [Hs|Hs]; rewrite Hs in Hst; by destruct Hst as (_ & ? & _).
    + by exists l.
  - intros i j Hij. rewrite list_elem_of_fmap. split.
    + intros (j' & -> & [Hj' He]%Hspec). rewrite Hij in Hj'. by injection Hj' as <-.
    + intros He. exists j. pose proof (Hk i j Hij) as <-. split; [done|]. by apply Hspec.
Qed.

(** The job as the second half of the pass finds it. *)
Definition after_lease (now : Z) (s : Store) (j : Job) : Job :=
  if lease_expired now s j then reclaimed j else j.

(** The store between the two halves of the pass. *)
Definition reclaimed_store (now : Z) (s s1 : Store) : Prop :=
  (forall i, jobs s1 !! i = after_lease now s <$> jobs s !! i) /\
  (forall i j, jobs s !! i = Some j ->
     lock_at i s1 = if lease_expired now s j then None else lock_at i s) /\
  next_token s1 = next_token s.

Lemma reclaim_phase now k w m :
  let s := be_store w in
  serving (size (jobs s) + k) w -> store_ok s -> (0 < now)%Z ->
  (forall i j, jobs s !! i = Some j ->
     exists data, transmitted (reclaim_command i (jb_FencingToken j) now) data) ->
  exists w1 m1, reclaimExpiredJobs now m w = Some (w1, (m1, Ok ())) /\ serving k w1 /\
    reclaimed_store now s (be_store w1).
Proof.
  intros s Hs Hok Hnow Hsend.
  destruct (ListExpiredJobs_facts now s Hok Hnow) as (Hnd & Hlen & Hall & Hin).
  destruct (reclaimLoop_serves now (ListExpiredJobs now s) k w m) as (w1 & E1 & Hs1 & Hj1 & Hl1 & Hn1).
  { eapply serving_le; [|exact Hs]. fold s. lia. }
  { done. }
  { done. }
  { done. }
  { apply Forall_forall. intros j Hj. eapply Forall_forall in Hall as (_ & Hj' & _); [|exact Hj]. by apply Hsend. }
  exists w1. eexists. split_and!; [exact E1|done|]. fold s in Hj1, Hl1, Hn1.
  assert (forall i j (A : Type) (x y : A), jobs s !! i = Some j ->
    (if decide (i ∈ map jb_ID (ListExpiredJobs now s)) then x else y) =
    if lease_expired now s j then x else y) as Hdec.
  { intros i j A x y Hij. specialize (Hin i j Hij). destruct (lease_expired now s j).
    - by rewrite decide_True by (by apply Hin).
    - rewrite decide_False; [done|]. intros Hc. by apply Hin in Hc. }
  split_and!; [| |done].
  - intros i. rewrite Hj1. destruct (jobs s !! i) as [j|] eqn:Hij; [|by destruct (decide _)].
    rewrite (Hdec i j) by done. unfold after_lease. cbn. by destruct (lease_expired now s j).
  - intros i j Hij. by rewrite Hl1, (Hdec i j).
Qed.

Lemma reclaimed_store_keyed now s s1 :
  jobs_keyed s -> reclaimed_store now s s1 -> jobs_keyed s1 /\ size (jobs s1) = size (jobs s).
Proof.
  intros Hk (Hj & _). split.
  - intros i j1. rewrite Hj. destruct (jobs s !! i) as [j|] eqn:Hij; [|done]. intros [= <-].
    rewrite <- (Hk i j Hij). unfold after_lease. by destruct (lease_expired now s j).
  - rewrite <- !size_dom. f_equal. apply set_eq. intros i. by rewrite !elem_of_dom, Hj, fmap_is_Some.
Qed.

Lemma schedule_phase now k w m s :
  serving (size (jobs s) + k) w -> store_ok s -> token_room (size (jobs s)) s ->
  reclaimed_store now s (be_store w) ->
  (forall i j worker e, jobs s !! i = Some j -> worker ∈ ws -> is_i64 e ->
     exists data, transmitted (claim_command i worker e) data) ->
  exists w' m', scheduleLoop sched now (ListPendingJobs (be_store w)) m w = Some (w', (m', Ok ())) /\
    serving k w' /\ after_schedule now (ListPendingJobs (be_store w)) (be_store w) (be_store w').
Proof.
  intros Hs Hok Hroom Hr Hsend. assert (jobs_keyed s) as Hk by (intros i j Hij; by apply (proj2 Hok)).
  destruct (reclaimed_store_keyed now s _ Hk Hr) as [Hk1 Hsize]. destruct Hr as (Hj1 & _ & Hn1).
  pose proof (sort_jobs_length (be_store w) (fun j => jb_State j = JobPending)) as Hle. rewrite Hsize in Hle.
  assert (Forall (fun j => exists j0, jobs s !! jb_ID j = Some j0 /\ jobs (be_store w) !! jb_ID j = Some j /\
    jb_State j = JobPending) (ListPendingJobs (be_store w))) as Hpend.
  { apply Forall_forall. intros j [Hj Hp]%ListPendingJobs_spec; [|done]. pose proof Hj as Hj'.
    rewrite Hj1 in Hj'. apply fmap_Some in Hj' as (j0 & Hj0 & _). by exists j0. }
  apply scheduleLoop_serves.
  - eapply serving_le; [|exact Hs]. unfold ListPendingJobs. lia.
  - apply Sorted_merge_sort. exact _.
  - by apply sort_jobs_ids.
  - unfold token_room, ListPendingJobs in *. rewrite Hn1. lia.
  - eapply Forall_impl; [exact Hpend|]. intros j (j0 & Hij & Hj & Hp). split_and!; try done.
    by destruct (proj2 Hok _ _ Hij).
  - eapply Forall_impl; [exact Hpend|]. intros j (j0 & Hij & _) worker e Hw He. by eapply Hsend.
Qed.

Lemma pass_serves k w m :
  let s := be_store w in
  serving (size (jobs s) + (size (jobs s) + k)) w -> store_ok s -> token_room (size (jobs s)) s ->
  (forall i j now, jobs s !! i = Some j -> is_i64 now ->
     exists data, transmitted (reclaim_command i (jb_FencingToken j) now) data) ->
  (forall i j worker e, jobs s !! i = Some j -> worker ∈ ws -> is_i64 e ->
     exists data, transmitted (claim_command i worker e) data) ->
  exists now w0 w' m', be_now w = Some (w0, now) /\
    scheduleDueJobs sched m w = Some (w', (m', Ok ())) /\ serving k w' /\
    forall i j, jobs s !! i = Some j ->
      let expired := lease_expired now s j in
      let j0 := after_lease now s j in
      (jb_State j0 = JobPending -> (jb_ScheduledAt j <= now)%Z -> expired = true \/ lock_at i s = None ->
       job_scheduled j0 s (be_store w')) /\
      (jb_State j0 = JobPending -> (now < jb_ScheduledAt j)%Z -> jobs (be_store w') !! i = Some j0) /\
      (jb_State j0 ≠ JobPending -> jobs (be_store w') !! i = Some j).
Proof.
  intros s Hs Hok Hroom Hsend1 Hsend2.
  destruct (serving_now _ w Hs) as (w0 & now & En & Hnow & Hst0 & Hs0 & _).
  destruct (reclaim_phase now (size (jobs s) + k) w0 m) as (w1 & m1 & E1 & Hs1 & Hr);
    rewrite ?Hst0; [done|done|lia|intros i j Hij; apply (Hsend1 i j now Hij); lia|]. rewrite Hst0 in Hr. fold s in Hr.
  destruct (schedule_phase now k w1 m1 s Hs1 Hok Hroom Hr Hsend2) as (w' & m' & E2 & Hs' & Hkeep & Hlater & Hsched).
  exists now, w0, w', m'. split_and!; [done| |done|].
  { unfold scheduleDueJobs. rewrite bool_decide_false by (rewrite (serving_leader _ _ Hs); naive_solver).
    by rewrite (act_bind_Some _ _ _ _ _ En), (act_bind_Some _ _ _ _ _ E1). }
  intros i j Hij expired j0.
  assert (jobs_keyed s) as Hk by (intros i' j' Hij'; by apply (proj2 Hok)).
  destruct (reclaimed_store_keyed now s _ Hk Hr) as [Hk1 _]. destruct Hr as (Hj1 & Hl1 & Hn1).
  assert (jobs (be_store w1) !! i = Some j0) as Hj0 by (by rewrite Hj1, Hij).
  specialize (Hl1 i j Hij). pose proof (Hk1 _ _ Hj0) as Hid.
  assert (jb_ScheduledAt j0 = jb_ScheduledAt j) as Hat
    by (unfold j0, after_lease; by destruct (lease_expired now s j)).
  assert (jb_State j0 = JobPending -> j0 ∈ ListPendingJobs (be_store w1)) as Hmem.
  { intros Hp. apply ListPendingJobs_spec; [done|]. by rewrite Hid. }
  split_and!.
  - intros Hp Hdue Hfree. destruct (Hsched j0) as (worker & token & ? & ? & ? & ? & ?);
      [by apply Hmem|lia| |exists worker, token; split_and!; try done; lia].
    rewrite Hid, Hl1. fold expired. by destruct Hfree as [-> |Hnone]; [|destruct expired].
  - intros Hp Hlate. rewrite <- Hid. apply Hlater; [by apply Hmem|lia].
  - intros Hnp. destruct (Hkeep i) as [-> _].
    + rewrite list_elem_of_fmap. intros (j' & -> & [Hj' Hp']%ListPendingJobs_spec); [|done].
      rewrite Hj0 in Hj'. injection Hj' as <-. done.
    + rewrite Hj0. unfold j0, after_lease in *. by destruct (lease_expired now s j).
Qed.

End Pass.

Section GoPass.
#[local] Existing Instance go_codec.
Context {W : Type} {B : Backend W} {L : BackendLaws W}.
Context (sched : Scheduler) (ws : list string).

(** C25: one pass of the scheduler on a serving leader.  Every job whose lease has
    expired is reclaimed; then every pending job that is due and whose name is not
    locked is scheduled: on the worker chosen by its hash, with a lock of its own
    whose token is newer than all tokens before, and with the next attempt number.
    Jobs that are not due, and jobs held under a running lease, are not touched.  The
    names of jobs and workers are valid UTF-8. *)
Theorem scheduler_pass k w m :
  NewHashWorkerSelector ws = Ok (sch_selector sched) -> (0 < sch_lease sched < 2 ^ 62)%Z -> Forall text ws ->
  let s := be_store w in
  serving (size (jobs s) + (size (jobs s) + k)) w -> store_ok s -> token_room (size (jobs s)) s ->
  (forall i j, jobs s !! i = Some j -> text i /\ is_u64 (jb_FencingToken j)) ->
  exists now w0 w' m', be_now w = Some (w0, now) /\
    scheduleDueJobs sched m w = Some (w', (m', Ok ())) /\ serving k w' /\
    forall i j, jobs s !! i = Some j ->
      let expired := lease_expired now s j in
      let j0 := after_lease now s j in
      (jb_State j0 = JobPending -> (jb_ScheduledAt j <= now)%Z -> expired = true \/ lock_at i s = None ->
       job_scheduled sched ws j0 s (be_store w')) /\
      (jb_State j0 = JobPending -> (now < jb_ScheduledAt j)%Z -> jobs (be_store w') !! i = Some j0) /\
      (jb_State j0 ≠ JobPending -> jobs (be_store w') !! i = Some j).
Proof.
  intros Hsel Hlease Hws s Hs Hok Hroom Htext. apply (pass_serves sched ws Hsel Hlease); try done.
  - intros i j now Hij Hnow. destruct (Htext i j Hij) as [Hi Ht]. apply go_codec_transmits. command_texts.
  - intros i j worker e Hij Hw He. destruct (Htext i j Hij) as [Hi Ht]. rewrite Forall_forall in Hws.
    pose proof (Hws _ Hw) as Hwt. apply go_codec_transmits. command_texts.
Qed.

End GoPass.

(** ** Witness *)

#[local] Existing Instance go_codec.
#[local] Existing Instance solo_backend.
#[local] Existing Instance solo_laws.

Definition sample_scheduler : Scheduler :=
  mkScheduler (mkSelector (sort_strings ["w2"; "w1"])) DefaultInterval DefaultLease.

(** The expired job of the settled world is scheduled again. *)
Lemma scheduler_pass_witness :
  exists w' m', scheduleDueJobs sample_scheduler (mkSchedulerMetrics 0 0 0) settled_world =
      Some (w', (m', Ok ())) /\
    exists worker token, worker ∈ ["w2"; "w1"] /\
      jobs (be_store w') !! "j" =
        Some (scheduled_as worker token (reclaimed (mkJob "j" [x07] JobScheduled 0 "w" 1 1 "j/1" 1))).
Proof.
  destruct (scheduler_pass sample_scheduler ["w2"; "w1"] 10 settled_world (mkSchedulerMetrics 0 0 0))
    as (now & w0 & w' & m' & En & E & _ & Hjobs).
  - vm_compute. reflexivity.
  - vm_compute. done.
  - repeat constructor.
  - apply settled_room. vm_compute. lia.
  - exact settled_store_ok.
  - vm_compute. reflexivity.
  - apply (bool_decide_unpack (map_Forall (fun i j => text i /\ is_u64 (jb_FencingToken j)) (jobs (store_after lease_run)))).
    vm_compute. exact I.
  - exists w', m'. split; [exact E|]. injection En as _ <-.
    destruct (Hjobs "j" (mkJob "j" [x07] JobScheduled 0 "w" 1 1 "j/1" 1)) as (Hsched & _);
      [vm_compute; reflexivity|].
    destruct Hsched as (worker & token & _ & Hin & Hj & _);
      [vm_compute; reflexivity|vm_compute; done|left; vm_compute; reflexivity|].
    exists worker, token. split; [exact Hin|exact Hj].
Defined.
