(* ===== verification/Worker.v ===== *)
(** The job worker: [internal/worker].

    A worker starts each job assigned to it through the log, runs its handler on
    the job the start returned, and records the outcome through the log.  The
    handler and the state of the context are parameters; the calls of the handler
    and the counters of [WorkerMetrics] are kept, logging is left out. *)

From S2P Require Import Prelude Model Lock KvStore Backend NodeBackend Scheduler.
#[local] Open Scope raftiq_scope.

(** [worker.ErrInvalidJob] and [worker.ErrOwnershipLost] are not the errors of the
    same name of [kv]. *)
Definition ErrInvalidWorker : error := Sentinel "invalid worker".
Definition ErrInvalidWorkerJob : error := Sentinel "worker: invalid job".
Definition ErrOwnershipLost : error := Sentinel "worker: job ownership lost".
Definition ErrInvalidFencing : error := Sentinel "invalid fencing token".

Record Worker := mkWorker {
  wk_id : string;
  wk_sourceSet : bool;
  wk_interval : Z;
}.

(** [New] and [ConfigureLoop]; the arguments that would be nil are flags. *)
Definition wk_New (id : string) (handlerSet : bool) : result Worker :=
  if bool_decide (id = "") then Err (Wrap "missing worker ID" ErrInvalidWorker)
  else if negb handlerSet then Err (Wrap "missing job handler" ErrInvalidWorker)
  else Ok (mkWorker id false 0).

Definition ConfigureLoop (sourceSet : bool) (interval : Z) (raftSet applierSet : bool) (w : Worker)
    : result Worker :=
  if negb sourceSet then Err (Wrap "missing job source" ErrInvalidWorker)
  else if (interval <=? 0)%Z then Err (Wrap "worker interval must be positive" ErrInvalidWorker)
  else if negb raftSet then Err (Wrap "missing Raft node" ErrInvalidWorker)
  else if negb applierSet then Err (Wrap "missing applier" ErrInvalidWorker)
  else Ok (mkWorker (wk_id w) true interval).

(** The counters, and the jobs the handler was called with. *)
Record WorkerMetrics := mkWorkerMetrics {
  wm_ExecutedJobs : nat;
  wm_JobExecutionFailures : nat;
  wm_LeaseLosses : nat;
  wm_calls : list Job;
}.

Definition IncExecutedJobs (m : WorkerMetrics) : WorkerMetrics :=
  mkWorkerMetrics (S (wm_ExecutedJobs m)) (wm_JobExecutionFailures m) (wm_LeaseLosses m) (wm_calls m).
Definition IncJobExecutionFailures (m : WorkerMetrics) : WorkerMetrics :=
  mkWorkerMetrics (wm_ExecutedJobs m) (S (wm_JobExecutionFailures m)) (wm_LeaseLosses m) (wm_calls m).
Definition wk_IncLeaseLosses (m : WorkerMetrics) : WorkerMetrics :=
  mkWorkerMetrics (wm_ExecutedJobs m) (wm_JobExecutionFailures m) (S (wm_LeaseLosses m)) (wm_calls m).
Definition record_call (job : Job) (m : WorkerMetrics) : WorkerMetrics :=
  mkWorkerMetrics (wm_ExecutedJobs m) (wm_JobExecutionFailures m) (wm_LeaseLosses m)
    (wm_calls m ++ [job]).

Definition transition_command (t : CommandType) (wk : Worker) (job : Job) (expected : JobState) (at_ : Z)
    : Command :=
  mkCommand t "" [] (jb_ID job) [] 0 (wk_id wk) 0 (jb_FencingToken job) (jb_ExecutionID job) expected at_.

Definition lostOwnership (e : error) : bool :=
  errors_Is e "job ownership lost" || errors_Is e "worker: job ownership lost".

Section Worker.
Context {W : Type} `{CommandCodec} `{Backend W}.
Context (handler : Job -> option error) (ctx_Err : W -> option error).

Definition transitionJob (wk : Worker) (job : Job) (t : CommandType) (expectedState nextState : JobState)
    : Act W (result Job) :=
  at_ <- be_now ;;
  commandData <-? act_wrap "encode job transition"
    (act_ret (EncodeCommand (transition_command t wk job expectedState at_))) ;;
  index <-? act_wrap "propose job transition" (be_Propose commandData) ;;
  res <-? act_wrap "wait for job transition" (be_WaitResult index) ;;
  act_ret
    match ar_Err res with
    | Some e => Err e
    | None =>
        match ar_Job res with
        | None => Err (Msg "job transition returned no job")
        | Some job =>
            if bool_decide (jb_State job ≠ nextState) then Err (Msg "job transition produced unexpected state")
            else Ok job
        end
    end.

Definition Execute (job : Job) (m : WorkerMetrics) : Act W (WorkerMetrics * option error) := fun w =>
  if bool_decide (jb_ID job = "") then Some (w, (m, Some (Wrap "missing job ID" ErrInvalidWorkerJob)))
  else
    match ctx_Err w with
    | Some e => Some (w, (m, Some e))
    | None =>
        Some (w, (record_call job m,
          match handler job with
          | Some e => Some (Wrap "execute job" e)
          | None => None
          end))
    end.

(** Recording success; [Some] is the error with which the pass returns. *)
Definition finishSucceeded (wk : Worker) (runningJob : Job) (m : WorkerMetrics)
    : Act W (WorkerMetrics * option error) :=
  r <- transitionJob wk runningJob CommandJobSucceeded JobRunning JobSucceeded ;;
  act_ret
    match r with
    | Err e =>
        if lostOwnership e then (wk_IncLeaseLosses m, None)
        else if isContextError e then (m, Some e)
        else (IncJobExecutionFailures m, None)
    | Ok _ => (IncExecutedJobs m, None)
    end.

Definition finishFailed (wk : Worker) (runningJob : Job) (m : WorkerMetrics)
    : Act W (WorkerMetrics * option error) :=
  r <- transitionJob wk runningJob CommandJobFailed JobRunning JobFailed ;;
  act_ret
    match r with
    | Err e =>
        if lostOwnership e then (wk_IncLeaseLosses m, None)
        else if isContextError e then (m, Some e)
        else (IncJobExecutionFailures m, None)
    | Ok _ => (IncJobExecutionFailures m, None)
    end.

(** The body of the loop of [executeAssignedJobs]. *)
Definition executeOne (wk : Worker) (job : Job) (m : WorkerMetrics)
    : Act W (WorkerMetrics * option error) :=
  now <- be_now ;;
  fun w =>
    if negb (ValidateJobOwnership (jb_ID job) (wk_id wk) (jb_FencingToken job) now (be_store w))
    then Some (w, (wk_IncLeaseLosses m, None))
    else
      (r <- transitionJob wk job CommandJobStart JobScheduled JobRunning ;;
       match r with
       | Err e =>
           act_ret
             (if lostOwnership e then (wk_IncLeaseLosses m, None)
              else if errors_Is e "invalid job state transition" then (m, None)
              else if isContextError e then (m, Some e)
              else (IncJobExecutionFailures m, None))
       | Ok runningJob =>
           x <- Execute runningJob m ;;
           match x with
           | (m, None) => finishSucceeded wk runningJob m
           | (m, Some _) => finishFailed wk runningJob m
           end
       end) w.

Fixpoint executeLoop (wk : Worker) (js : list Job) (m : WorkerMetrics)
    : Act W (WorkerMetrics * option error) :=
  match js with
  | [] => act_ret (m, None)
  | job :: rest =>
      r <- executeOne wk job m ;;
      match r with
      | (m, Some e) => act_ret (m, Some e)
      | (m, None) => executeLoop wk rest m
      end
  end.

Definition executeAssignedJobs (wk : Worker) (m : WorkerMetrics)
    : Act W (WorkerMetrics * option error) := fun w =>
  executeLoop wk (ListAssignedJobs (wk_id wk) (be_store w)) m w.

(** The passes of [Run]. *)
Fixpoint wk_loop (wk : Worker) (ticks : nat) (m : WorkerMetrics) : Act W (WorkerMetrics * option error) :=
  match ticks with
  | O => act_ret (m, None)
  | S ticks =>
      r <- executeAssignedJobs wk m ;;
      match r with
      | (m, Some e) => if isContextError e then act_ret (m, Some e) else wk_loop wk ticks m
      | (m, None) => wk_loop wk ticks m
      end
  end.

Definition wk_Run (wk : Worker) (ticks : nat) (m : WorkerMetrics) : Act W (WorkerMetrics * option error) :=
  if negb (wk_sourceSet wk) then act_ret (m, Some (Wrap "job source is not configured" ErrInvalidWorker))
  else if (wk_interval wk <=? 0)%Z then act_ret (m, Some (Wrap "invalid worker interval" ErrInvalidWorker))
  else wk_loop wk ticks m.

End Worker.
