(* ===== verification/WorkerFacts.v ===== *)
(** What a worker does with the jobs assigned to it: on a serving leader, with leases that
    outlast the readings of the clock in the pass, every one is executed once and ends in the
    state its handler decides.  Two executions
    that should not happen are shown as well. *)

From stdpp Require Import sorting.
From S2P Require Import Prelude Model RaftLog Storage Membership ConfigEntry Node Election.
From S2P Require Import Lock KvStore KvSpec KvFacts KvSnapshot KvApplier Backend.
From S2P Require Import JsonCodec JsonCommand NodeBackend Server ServerFacts Scheduler SchedulerFacts Worker.
#[local] Open Scope raftiq_scope.

Section WorkerFacts.
Context {W : Type} `{BackendLaws W} `{!DeadlineLaws W}.
Context (deadline : Z).
Context (handler : Job -> option error) (ctx_Err : W -> option error) (wk : Worker).

(** The worker owns job [j] of the store under a lease that outlasts the pass. *)
Definition owned (s : Store) (j : Job) : Prop :=
  jb_ID j ≠ "" /\ wk_id wk ≠ "" /\ jobs s !! jb_ID j = Some j /\ jb_AssignedWorkerID j = wk_id wk /\
  jb_ExecutionID j ≠ "" /\ jb_FencingToken j ≠ 0%N /\
  exists l, lock_at (jb_ID j) s = Some l /\ lk_OwnerID l = wk_id wk /\
    lk_FencingToken l = jb_FencingToken j /\ (deadline <= lk_ExpiresAt l)%Z.

Lemma owned_step st s j : owned s j -> owned (set_job (jb_ID j) (with_state st j) s) (with_state st j).
Proof.
  intros (Hi & Hw & Hj & Ha & He & Ht & l & Hl & Ho & Hlt & Hx). split_and!; try done.
  - cbn. apply lookup_insert_eq.
  - by exists l.
Qed.

Lemma transition_apply t from to j at_ index s :
  jobTransitionStates t = Some (from, to) -> owned s j -> jb_State j = from -> (0 < at_ < deadline)%Z ->
  applyCommand (transition_command t wk j from at_) index s =
    Some (set_job (jb_ID j) (with_state to j) s, mkApplyResult (Some (with_state to j)) None).
Proof.
  intros Ht (Hi & Hw & Hj & Ha & He & Htok & l & Hl & Ho & Hlt & Hx) Hst Hat.
  assert (TransitionJobState (jb_ID j) (wk_id wk) (jb_ExecutionID j) (jb_FencingToken j) from to at_ s =
    (set_job (jb_ID j) (with_state to j) s, Ok (with_state to j))) as E.
  { unfold TransitionJobState, validateTransitionArguments. rewrite !bool_decide_false by done.
    destruct (N.eqb_spec (jb_FencingToken j) 0); [done|]. cbn [orb].
    destruct (Z.leb_spec at_ 0); [lia|].
    assert (validateTransitionStates from to = None) as ->
      by (destruct t; try done; cbn in Ht; by injection Ht as <- <-).
    rewrite Hj. unfold validateTransitionOwnership. rewrite !bool_decide_false by naive_solver.
    rewrite N.eqb_refl. cbn [negb]. unfold Get. unfold lock_at in Hl. rewrite Hl.
    rewrite bool_decide_false by naive_solver. rewrite Hlt, N.eqb_refl. cbn [negb].
    by destruct (Z.leb_spec (lk_ExpiresAt l) at_); [lia|]. }
  unfold applyCommand, applyJobTransitionCommand. cbn [cmd_Type transition_command].
  destruct t; try done; cbn in Ht; injection Ht as <- <-; cbn [jobTransitionStates
    cmd_JobID cmd_OwnerID cmd_ExecutionID cmd_FencingToken cmd_At transition_command]; by rewrite E.
Qed.

(** The transitions of the job reach the appliers unchanged. *)
Definition carried (j : Job) : Prop :=
  forall t from to at_, jobTransitionStates t = Some (from, to) -> is_i64 at_ ->
    exists data, transmitted (transition_command t wk j from at_) data.

Lemma transitionJob_serves t from to j k b w :
  jobTransitionStates t = Some (from, to) -> carried j -> serving (S k) w -> before deadline (S b) w ->
  owned (be_store w) j -> jb_State j = from ->
  exists w', transitionJob wk j t from to w = Some (w', Ok (with_state to j)) /\ serving k w' /\ before deadline b w' /\
    be_store w' = set_job (jb_ID j) (with_state to j) (be_store w).
Proof.
  intros Ht Hsend Hs Hb Ho Hst. unfold transitionJob.
  destruct (serving_now _ w Hs) as (w0 & now & En & Hnow & Hst0 & Hs0 & _).
  destruct (before_now _ _ _ _ _ Hb En) as [Hlt Hb0].
  rewrite (act_bind_Some _ _ _ _ _ En). destruct (Hsend t from to now Ht ltac:(lia)) as [data Hd].
  rewrite <- Hst0 in *.
  assert (malformed (transition_command t wk j from now) = false /\
    needsResult (transition_command t wk j from now) = true) as [Hm Hr] by (by destruct t; simplify_eq/=).
  destruct (serving_Propose k w0 _ data _ _ Hs0 Hd Hm (transition_apply t from to j now _ _ Ht Ho Hst ltac:(lia)))
    as (w1 & HP & _ & Hw). destruct (Hw Hr) as (w2 & HW & Hst2 & Hs2 & _).
  exists w2. split_and!; [|done|by eapply before_WaitResult, HW; eapply before_Propose|done]. destruct Hd as (He & _).
  rewrite (try_bind_Ok _ _ w0 w0 data) by (apply act_wrap_Ok; by rewrite He).
  rewrite (try_bind_Ok _ _ w0 w1 (next_index w0)) by (by apply act_wrap_Ok).
  rewrite (try_bind_Ok _ _ w1 w2 (mkApplyResult (Some (with_state to j)) None)) by (by apply act_wrap_Ok).
  cbn. by rewrite bool_decide_false by naive_solver.
Qed.

(** The state a job ends in, and the calls of the handler, when the context is in
    state [c] once the job runs. *)
Definition outcome (c : option error) (j : Job) : JobState :=
  match c with
  | Some _ => JobFailed
  | None => match handler (with_state JobRunning j) with Some _ => JobFailed | None => JobSucceeded end
  end.
Definition calls_of (c : option error) (j : Job) : list Job :=
  match c with Some _ => [] | None => [with_state JobRunning j] end.

Lemma executeOne_serves c j k b w m :
  serving (S (S k)) w -> before deadline (3 + b) w -> carried j -> owned (be_store w) j -> jb_State j = JobScheduled ->
  (forall w', jobs (be_store w') !! jb_ID j = Some (with_state JobRunning j) -> ctx_Err w' = c) ->
  exists w' m', executeOne handler ctx_Err wk j m w = Some (w', (m', None)) /\ serving k w' /\ before deadline b w' /\
    be_store w' = set_job (jb_ID j) (with_state (outcome c j) (with_state JobRunning j))
                    (set_job (jb_ID j) (with_state JobRunning j) (be_store w)) /\
    wm_calls m' = wm_calls m ++ calls_of c j.
Proof.
  intros Hs Hb Hcar Ho Hst Hctx. unfold executeOne.
  destruct (serving_now _ w Hs) as (w0 & now & En & Hnow & Hst0 & Hs0 & _).
  destruct (before_now _ _ _ _ _ Hb En) as [Hearly Hb0].
  rewrite (act_bind_Some _ _ _ _ _ En).
  assert (ValidateJobOwnership (jb_ID j) (wk_id wk) (jb_FencingToken j) now (be_store w0) = true) as ->.
  { rewrite Hst0. destruct Ho as (Hi & Hw & Hj & Ha & He & Htok & l & Hl & Hlo & Hlt & Hx).
    unfold ValidateJobOwnership. rewrite !bool_decide_false by done.
    destruct (N.eqb_spec (jb_FencingToken j) 0); [done|]. cbn [orb]. rewrite Hj.
    rewrite bool_decide_false by naive_solver. rewrite N.eqb_refl. cbn [negb].
    rewrite (proj2 (active_spec _)) by auto. cbn [negb]. unfold Get. unfold lock_at in Hl. rewrite Hl.
    rewrite bool_decide_false by naive_solver. rewrite Hlt, N.eqb_refl. cbn [negb].
    by destruct (Z.leb_spec (lk_ExpiresAt l) now); [lia|]. }
  cbn [negb]. rewrite <- Hst0 in *.
  destruct (transitionJob_serves CommandJobStart JobScheduled JobRunning j (S k) (1 + b) w0 eq_refl Hcar Hs0 Hb0 Ho Hst)
    as (w1 & E1 & Hs1 & Hb1 & Hst1).
  rewrite (act_bind_Some _ _ _ _ _ E1). pose proof (owned_step JobRunning _ _ Ho) as Ho1.
  rewrite <- Hst1 in Ho1. set (rj := with_state JobRunning j) in *.
  assert (ctx_Err w1 = c) as Hc by (apply Hctx; rewrite Hst1; cbn; apply lookup_insert_eq).
  assert (Execute handler ctx_Err rj m w1 = Some (w1,
    match c with
    | Some e => (m, Some e)
    | None => (record_call rj m, match handler rj with Some e => Some (Wrap "execute job" e) | None => None end)
    end)) as Ex.
  { unfold Execute. rewrite bool_decide_false by (by destruct Ho). rewrite Hc. by destruct c. }
  rewrite (act_bind_Some _ _ _ _ _ Ex). unfold outcome, calls_of. fold rj.
  destruct (transitionJob_serves CommandJobSucceeded JobRunning JobSucceeded rj k b w1 eq_refl Hcar Hs1 Hb1 Ho1 eq_refl)
    as (w2 & E2 & Hs2 & Hb2 & Hst2).
  destruct (transitionJob_serves CommandJobFailed JobRunning JobFailed rj k b w1 eq_refl Hcar Hs1 Hb1 Ho1 eq_refl)
    as (w3 & E3 & Hs3 & Hb3 & Hst3).
  unfold finishSucceeded, finishFailed. rewrite Hst1 in Hst2, Hst3.
  destruct c as [e|]; [|destruct (handler rj) as [e|]]; cbn.
  - rewrite (act_bind_Some _ _ _ _ _ E3). eexists w3, _. split_and!; try done. cbn. by rewrite app_nil_r.
  - rewrite (act_bind_Some _ _ _ _ _ E3). by eexists w3, _.
  - rewrite (act_bind_Some _ _ _ _ _ E2). by eexists w2, _.
Qed.

Lemma executeLoop_serves c js k w m :
  serving (2 * length js + k) w -> before deadline (3 * length js) w -> NoDup (map jb_ID js) ->
  Forall carried js -> Forall (fun j => owned (be_store w) j /\ jb_State j = JobScheduled) js ->
  Forall (fun j => forall w', jobs (be_store w') !! jb_ID j = Some (with_state JobRunning j) -> ctx_Err w' = c) js ->
  exists w' m', executeLoop handler ctx_Err wk js m w = Some (w', (m', None)) /\ serving k w' /\
    locks (be_store w') = locks (be_store w) /\
    (forall j, j ∈ js -> jobs (be_store w') !! jb_ID j =
       Some (with_state (outcome c j) (with_state JobRunning j))) /\
    (forall i, i ∉ map jb_ID js -> jobs (be_store w') !! i = jobs (be_store w) !! i) /\
    wm_calls m' = wm_calls m ++ flat_map (calls_of c) js.
Proof.
  revert w m. induction js as [|j js IH]; intros w m Hs Hb Hnd Hcar Hall Hctx.
  { exists w, m. split_and!; try done; [by intros j ?%not_elem_of_nil|]. by rewrite app_nil_r. }
  cbn [map] in Hnd. apply NoDup_cons in Hnd as [Hfresh Hnd].
  apply Forall_cons in Hcar as [Hcj Hcar]. apply Forall_cons in Hall as [[Ho Hst] Hall]. apply Forall_cons in Hctx as [Hc Hctx].
  destruct (executeOne_serves c j (2 * length js + k) (3 * length js) w m) as (w1 & m1 & E1 & Hs1 & Hb1 & Hst1 & Hm1); try done.
  { eapply serving_le; [|exact Hs]. cbn. lia. }
  { replace (3 + 3 * length js) with (3 * length (j :: js)) by (cbn; lia). exact Hb. }
  assert (forall i, i ≠ jb_ID j -> jobs (be_store w1) !! i = jobs (be_store w) !! i) as Hother.
  { intros i Hne. rewrite Hst1. cbn. by rewrite !lookup_insert_ne. }
  destruct (IH w1 m1) as (w' & m' & E & Hs' & Hlk & Hin & Hout & Hm'); [done|done|done|done| |done|].
  { apply Forall_forall. intros j' Hj'. assert (jb_ID j' ≠ jb_ID j) as Hne.
    { intros Heq. apply Hfresh. rewrite <- Heq. by apply list_elem_of_fmap_2. }
    eapply Forall_forall in Hall as [(? & ? & ? & ? & ? & ? & l & Hl & ?) ?]; [|exact Hj'].
    split; [|done]. split_and!; try done; [by rewrite Hother|]. exists l. split; [|done]. by rewrite Hst1. }
  exists w', m'. cbn [executeLoop]. rewrite (act_bind_Some _ _ _ _ _ E1), E. split_and!; try done.
  - by rewrite Hlk, Hst1.
  - intros j' [->|Hj']%elem_of_cons; [|by apply Hin]. rewrite (Hout _ Hfresh), Hst1. cbn.
    apply lookup_insert_eq.
  - intros i [Hne Hi]%not_elem_of_cons. by rewrite Hout, Hother.
  - rewrite Hm', Hm1. cbn [flat_map]. by rewrite <- app_assoc.
Qed.

Lemma ListAssignedJobs_spec s j :
  jobs_keyed s -> wk_id wk ≠ "" ->
  j ∈ ListAssignedJobs (wk_id wk) s <->
  jobs s !! jb_ID j = Some j /\ jb_State j = JobScheduled /\ jb_AssignedWorkerID j = wk_id wk.
Proof.
  intros Hk Hw. unfold ListAssignedJobs. rewrite bool_decide_false by done.
  rewrite elem_of_sort_jobs, list_elem_of_filter, elem_of_all_jobs by done. tauto.
Qed.

(** The jobs assigned to the worker have an execution ID and leases that last until the
    deadline. *)
Definition leases_last (s : Store) : Prop :=
  forall i j l, jobs s !! i = Some j -> jb_State j = JobScheduled -> jb_AssignedWorkerID j = wk_id wk ->
    lock_at i s = Some l -> jb_ExecutionID j ≠ "" /\ (deadline <= lk_ExpiresAt l)%Z.

Definition all_carried (s : Store) : Prop :=
  forall i j, jobs s !! i = Some j -> jb_State j = JobScheduled -> jb_AssignedWorkerID j = wk_id wk -> carried j.

Lemma executeAssignedJobs_serves c k w m :
  let s := be_store w in
  serving (2 * size (jobs s) + k) w -> before deadline (3 * length (ListAssignedJobs (wk_id wk) s)) w ->
  store_ok s -> wk_id wk ≠ "" -> leases_last s -> all_carried s ->
  (forall i j w', jobs s !! i = Some j -> jb_State j = JobScheduled -> jb_AssignedWorkerID j = wk_id wk ->
     jobs (be_store w') !! i = Some (with_state JobRunning j) -> ctx_Err w' = c) ->
  exists w' m', executeAssignedJobs handler ctx_Err wk m w = Some (w', (m', None)) /\
    locks (be_store w') = locks s /\
    (forall i j, jobs s !! i = Some j -> jobs (be_store w') !! i =
       Some (if decide (jb_State j = JobScheduled /\ jb_AssignedWorkerID j = wk_id wk)
             then with_state (outcome c j) (with_state JobRunning j) else j)) /\
    wm_calls m' = wm_calls m ++ flat_map (calls_of c) (ListAssignedJobs (wk_id wk) s).
Proof.
  intros s Hs Hb [Hlk Hjb] Hw Hlast Hcar Hctx. assert (jobs_keyed s) as Hk by (intros i j Hij; by apply Hjb).
  assert (forall j, j ∈ ListAssignedJobs (wk_id wk) s <-> jobs s !! jb_ID j = Some j /\
    jb_State j = JobScheduled /\ jb_AssignedWorkerID j = wk_id wk) as Hspec
    by (intros j; by apply ListAssignedJobs_spec).
  destruct (executeLoop_serves c (ListAssignedJobs (wk_id wk) s) k w m)
    as (w' & m' & E & _ & Hl' & Hin & Hout & Hm').
  { eapply serving_le; [|exact Hs]. unfold ListAssignedJobs. rewrite bool_decide_false by done.
    pose proof (sort_jobs_length s (fun j => jb_State j = JobScheduled /\ jb_AssignedWorkerID j = wk_id wk)).
    fold s. lia. }
  { exact Hb. }
  { unfold ListAssignedJobs. rewrite bool_decide_false by done. by apply sort_jobs_ids. }
  { apply Forall_forall. intros j (Hj & Hst & Ha)%Hspec. by apply (Hcar (jb_ID j)). }
  { apply Forall_forall. intros j (Hj & Hst & Ha)%Hspec. split; [|done].
    destruct (Hjb _ _ Hj) as (Hi & _ & Hok). rewrite Hst in Hok. destruct Hok as (_ & Ht & l & Hl & Ho & Hlt).
    destruct (Hlast _ _ _ Hj Hst Ha Hl) as [He Hx]. split_and!; try done. exists l.
    split_and!; try done. congruence. }
  { apply Forall_forall. intros j (Hj & Hst & Ha)%Hspec w1. by eapply Hctx. }
  exists w', m'. split_and!; try done. intros i j Hij. pose proof (Hk i j Hij) as <-.
  case_decide as Hd; [by apply Hin, Hspec|]. rewrite Hout; [done|]. rewrite list_elem_of_fmap.
  intros (j' & Heq & (Hj' & Hst' & Ha')%Hspec). rewrite <- Heq, Hij in Hj'. injection Hj' as <-. tauto.
Qed.

End WorkerFacts.

Section GoWorker.
#[local] Existing Instance go_codec.
Context {W : Type} {B : Backend W} {L : BackendLaws W} {D : DeadlineLaws W}.
Context (deadline : Z) (handler : Job -> option error) (ctx_Err : W -> option error) (wk : Worker).

(** The worker's name, and the names in the jobs assigned to it, are valid UTF-8. *)
Definition worker_texts (s : Store) : Prop :=
  text (wk_id wk) /\
  forall i j, jobs s !! i = Some j -> jb_State j = JobScheduled -> jb_AssignedWorkerID j = wk_id wk ->
    text (jb_ID j) /\ text (jb_ExecutionID j) /\ is_u64 (jb_FencingToken j).

Lemma worker_texts_carried s : worker_texts s -> all_carried wk s.
Proof.
  intros [Hw Hj] i j Hij Hst Ha t from to at_ Ht Hat. destruct (Hj i j Hij Hst Ha) as (Hi & Hx & Htok).
  apply go_codec_transmits. destruct t; try done; cbn in Ht; injection Ht as <- <-; command_texts.
Qed.

(** C26: a worker executes its jobs.  On a leader that keeps serving, when the leases of the
    jobs scheduled on this worker last beyond the instants at which the pass reads the clock
    (three times for a job), and the context is not cancelled while one of them runs, the
    handler is called exactly once for each of these jobs, in the order of [ListAssignedJobs]
    and with the job in state RUNNING; each of them ends SUCCEEDED or FAILED as its handler
    returned; no other job and no lock changes.  The names are valid UTF-8.  A cancelled
    context and a leader that is replaced are the two theorems that follow. *)
Theorem worker_executes_assigned k w m :
  let s := be_store w in
  serving (2 * size (jobs s) + k) w -> before deadline (3 * length (ListAssignedJobs (wk_id wk) s)) w ->
  store_ok s -> wk_id wk ≠ "" -> leases_last deadline wk s -> worker_texts s ->
  (forall i j w', jobs s !! i = Some j -> jb_State j = JobScheduled -> jb_AssignedWorkerID j = wk_id wk ->
     jobs (be_store w') !! i = Some (with_state JobRunning j) -> ctx_Err w' = None) ->
  exists w' m', executeAssignedJobs handler ctx_Err wk m w = Some (w', (m', None)) /\
    locks (be_store w') = locks s /\
    wm_calls m' = wm_calls m ++ map (with_state JobRunning) (ListAssignedJobs (wk_id wk) s) /\
    forall i j, jobs s !! i = Some j -> jobs (be_store w') !! i =
      Some (if decide (jb_State j = JobScheduled /\ jb_AssignedWorkerID j = wk_id wk)
            then with_state (match handler (with_state JobRunning j) with
                             | Some _ => JobFailed
                             | None => JobSucceeded
                             end) j
            else j).
Proof.
  intros s Hs Hb Hok Hw Hlast Htexts Hctx.
  destruct (executeAssignedJobs_serves deadline handler ctx_Err wk None k w m) as (w' & m' & E & Hl & Hj & Hm); try done; [by apply worker_texts_carried|].
  exists w', m'. split_and!; [done|done| |done].
  by rewrite Hm.
Qed.

(** A shutdown fails jobs.  When the context is cancelled after the jobs were
    started, every job of the worker is recorded as FAILED, which is final,
    although its handler was never called: [Execute] returns the error of the
    context before the handler runs, and the error is recorded like one of the
    handler's. *)
Theorem cancelled_worker_fails_jobs e k w m :
  let s := be_store w in
  serving (2 * size (jobs s) + k) w -> before deadline (3 * length (ListAssignedJobs (wk_id wk) s)) w ->
  store_ok s -> wk_id wk ≠ "" -> leases_last deadline wk s -> worker_texts s ->
  (forall i j w', jobs s !! i = Some j -> jb_State j = JobScheduled -> jb_AssignedWorkerID j = wk_id wk ->
     jobs (be_store w') !! i = Some (with_state JobRunning j) -> ctx_Err w' = Some e) ->
  exists w' m', executeAssignedJobs handler ctx_Err wk m w = Some (w', (m', None)) /\
    wm_calls m' = wm_calls m /\
    forall i j, jobs s !! i = Some j -> jb_State j = JobScheduled -> jb_AssignedWorkerID j = wk_id wk ->
      jobs (be_store w') !! i = Some (with_state JobFailed j).
Proof.
  intros s Hs Hb Hok Hw Hlast Htexts Hctx.
  destruct (executeAssignedJobs_serves deadline handler ctx_Err wk (Some e) k w m) as (w' & m' & E & _ & Hj & Hm); try done; [by apply worker_texts_carried|].
  exists w', m'. split_and!; try done.
  - rewrite Hm. replace (flat_map _ _) with ([] : list Job); [by rewrite app_nil_r|].
    fold s. clear. by induction (ListAssignedJobs (wk_id wk) s).
  - intros i j Hij Hst Ha. by rewrite (Hj i j Hij), decide_True.
Qed.

End GoWorker.

(** ** Executing another worker's job *)

(** Job i is scheduled on worker w2, job j on worker w1. *)
Definition two_jobs : list (Command * LogIndex) :=
  [(create_command "i" [x01] 0, 1%N); (claim_command "i" "w2" (100 + DefaultLease), 2%N);
   (create_command "j" [x02] 0, 3%N); (claim_command "j" "w1" (100 + DefaultLease), 4%N)].

Definition start_other : Command :=
  mkCommand CommandJobStart "" [] "i" [] 0 "w2" 0 1 "i/1" JobScheduled 100.

(** While worker w1 waits for the start of j on a leader that has been replaced,
    the new leader's entry at the same index starts i for w2. *)
Definition two_jobs_world : NodeWorld MemoryStorage () :=
  mkNodeWorld cut_off_leader (NewApplier (store_after two_jobs)) ()
    [mkAppendEntriesArgs 2 "b" 0 0 [mkLogEntry 1 2 (command_data start_other)] 1] (fun _ => 100%Z) 0.

(** A worker can run a job that is not its own.  [transitionJob] takes the
    result stored for the log index and checks only its state: when the entry at
    that index was replaced by another worker's start of another job, the worker
    calls its handler with that job.  Here worker w1, to which only job j is
    assigned, runs job i, which worker w2 has just started. *)
Theorem foreign_job_executed :
  exists w' m',
    @executeAssignedJobs _ go_codec (@NodeWorld_Backend _ _ _ no_network 10 go_codec)
      (fun _ => None) (fun _ => None) (mkWorker "w1" true 1) (mkWorkerMetrics 0 0 0 []) two_jobs_world =
      Some (w', (m', None)) /\
    map (fun j => (jb_ID j, jb_AssignedWorkerID j, jb_State j)) (wm_calls m') = [("i", "w2", JobRunning)] /\
    map jb_ID (ListAssignedJobs "w1" (store_after two_jobs)) = ["j"] /\
    option_map jb_State (jobs (ap_store (nw_applier w')) !! "j") = Some JobScheduled.
Proof.
  eexists _, _. split; [vm_compute; reflexivity|]. split_and!; vm_compute; reflexivity.
Qed.

(** ** Witnesses *)

#[local] Existing Instance go_codec.
#[local] Existing Instance solo_backend.
#[local] Existing Instance solo_laws.

Definition two_jobs_serving : NodeWorld MemoryStorage () := solo_world (store_after two_jobs).

Lemma two_jobs_room k : k <= 1000 -> serving k two_jobs_serving.
Proof. intros Hk. apply (serving_le 1000); [done|]. apply solo_serving. Qed.

Lemma two_jobs_ok : store_ok (store_after two_jobs).
Proof. apply validate_ok. vm_compute. reflexivity. Qed.

(** The clock of the witness stays before the end of the leases the scheduler gives. *)
Lemma two_jobs_before k : before (100 + DefaultLease) k two_jobs_serving.
Proof.
  intros i _. change (100 + Z.of_nat i `mod` 1000 < 100 + DefaultLease)%Z.
  pose proof (Z.mod_pos_bound (Z.of_nat i) 1000 eq_refl). unfold DefaultLease. lia.
Qed.

Lemma two_jobs_leases : leases_last (100 + DefaultLease) (mkWorker "w1" true 1) (store_after two_jobs).
Proof.
  assert (map_Forall (fun i j => jb_ExecutionID j ≠ "") (jobs (store_after two_jobs))) as Hj
    by (apply (bool_decide_unpack _); vm_compute; exact I).
  assert (map_Forall (fun i l => (100 + DefaultLease <= lk_ExpiresAt l)%Z) (Locks (locks (store_after two_jobs)))) as Hl
    by (apply (bool_decide_unpack _); vm_compute; exact I).
  intros i j l Hij _ _ Hil. split; [by apply (Hj i)|by apply (Hl i)].
Qed.

Lemma two_jobs_texts : worker_texts (mkWorker "w1" true 1) (store_after two_jobs).
Proof.
  split; [reflexivity|].
  assert (map_Forall (fun i j => text (jb_ID j) /\ text (jb_ExecutionID j) /\ is_u64 (jb_FencingToken j))
    (jobs (store_after two_jobs))) as Hj by (apply (bool_decide_unpack _); vm_compute; exact I).
  intros i j Hij _ _. by apply (Hj i).
Qed.

Lemma worker_executes_assigned_witness :
  exists w' m', executeAssignedJobs (fun _ => None) (fun _ => None) (mkWorker "w1" true 1)
      (mkWorkerMetrics 0 0 0 []) two_jobs_serving = Some (w', (m', None)) /\
    wm_calls m' = map (with_state JobRunning) (ListAssignedJobs "w1" (store_after two_jobs)).
Proof.
  destruct (worker_executes_assigned (100 + DefaultLease) (fun _ => None) (fun _ => None) (mkWorker "w1" true 1)
    10 two_jobs_serving (mkWorkerMetrics 0 0 0 []))
    as (w' & m' & E & _ & Hc & _).
  - apply two_jobs_room. vm_compute. lia.
  - apply two_jobs_before.
  - exact two_jobs_ok.
  - done.
  - exact two_jobs_leases.
  - exact two_jobs_texts.
  - done.
  - exists w', m'. split; [exact E|exact Hc].
Defined.

Lemma cancelled_worker_fails_jobs_witness :
  exists w' m', executeAssignedJobs (fun _ => None) (fun _ => Some Canceled) (mkWorker "w1" true 1)
      (mkWorkerMetrics 0 0 0 []) two_jobs_serving = Some (w', (m', None)) /\ wm_calls m' = [].
Proof.
  destruct (cancelled_worker_fails_jobs (100 + DefaultLease) (fun _ => None) (fun _ => Some Canceled) (mkWorker "w1" true 1)
    Canceled 10 two_jobs_serving (mkWorkerMetrics 0 0 0 []))
    as (w' & m' & E & Hc & _).
  - apply two_jobs_room. vm_compute. lia.
  - apply two_jobs_before.
  - exact two_jobs_ok.
  - done.
  - exact two_jobs_leases.
  - exact two_jobs_texts.
  - done.
  - exists w', m'. split; [exact E|exact Hc].
Defined.
