(* ===== verification/Config.v ===== *)
(** The configuration of a node: the list flags and the validation of
    [cmd/raftiq/config.go] and [normalizeLogLevel] of [main.go].

    Of the package strings the code uses [TrimSpace], [Split], [SplitN], [Join] and
    [ToLower]; they are written out on bytes.  [trimSpace] removes the encodings of
    the Unicode space characters.  [toLower] lowers what can become one of the words it
    is compared with: the ASCII letters and the two other characters whose lower case
    is an ASCII letter (U+0130 and U+212A); other characters stay outside ASCII. *)

From S2P Require Import Prelude Model Bytes.

(** ** Strings *)

Definition space_runes : list bytes :=
  [[x09]; [x0a]; [x0b]; [x0c]; [x0d]; [x20]; [xc2; x85]; [xc2; xa0]; [xe1; x9a; x80];
   [xe2; x80; x80]; [xe2; x80; x81]; [xe2; x80; x82]; [xe2; x80; x83]; [xe2; x80; x84]; [xe2; x80; x85];
   [xe2; x80; x86]; [xe2; x80; x87]; [xe2; x80; x88]; [xe2; x80; x89]; [xe2; x80; x8a]; [xe2; x80; xa8];
   [xe2; x80; xa9]; [xe2; x80; xaf]; [xe2; x81; x9f]; [xe3; x80; x80]].

(** [s] without [r] in front of it. *)
Fixpoint strip (r s : bytes) : option bytes :=
  match r, s with
  | [], _ => Some s
  | a :: r, b :: s => if Byte.eqb a b then strip r s else None
  | _ :: _, [] => None
  end.

Fixpoint stripAny (rs : list bytes) (s : bytes) : option bytes :=
  match rs with
  | [] => None
  | r :: rs => match strip r s with Some s' => Some s' | None => stripAny rs s end
  end.

Fixpoint trimFront (rs : list bytes) (fuel : nat) (s : bytes) : bytes :=
  match fuel with
  | O => s
  | S fuel => match stripAny rs s with Some s' => trimFront rs fuel s' | None => s end
  end.

Definition trimLeft (rs : list bytes) (s : bytes) : bytes := trimFront rs (length s) s.

Definition trimSpace (s : bytes) : bytes :=
  let s := trimLeft space_runes s in
  rev (trimLeft (map (@rev byte) space_runes) (rev s)).

Fixpoint split (sep : byte) (s : bytes) : list bytes :=
  match s with
  | [] => [[]]
  | c :: s =>
      if Byte.eqb c sep then [] :: split sep s
      else match split sep s with part :: parts => (c :: part) :: parts | [] => [[c]] end
  end.

(** [SplitN(s, sep, 2)] when the separator occurs. *)
Fixpoint cut (sep : byte) (s : bytes) : option (bytes * bytes) :=
  match s with
  | [] => None
  | c :: s =>
      if Byte.eqb c sep then Some ([], s)
      else match cut sep s with Some (a, b) => Some (c :: a, b) | None => None end
  end.

Fixpoint join (sep : byte) (parts : list bytes) : bytes :=
  match parts with
  | [] => []
  | [part] => part
  | part :: parts => part ++ sep :: join sep parts
  end.

Fixpoint toLower (s : bytes) : bytes :=
  match s with
  | xc4 :: xb0 :: s => x69 :: toLower s
  | xe2 :: x84 :: xaa :: s => x6b :: toLower s
  | c :: s =>
      (if (65 <=? Byte.to_N c)%N && (Byte.to_N c <=? 90)%N
       then default c (Byte.of_N (Byte.to_N c + 32)) else c) :: toLower s
  | [] => []
  end.

Definition comma : byte := x2c.
Definition equals : byte := x3d.

(** ** The flags *)

Abbreviation peerFlag := (gmap NodeID string).

(** [String] ranges over the map, in an order the runtime chooses. *)
Definition peerFlag_String (order : list (NodeID * string)) : bytes :=
  join comma (map (fun '(i, address) => string_bytes i ++ equals :: string_bytes address) order).

(** The loop of [Set]; the entries before a bad one stay in the map. *)
Fixpoint addPeers (entries : list bytes) (p : peerFlag) : peerFlag * option error :=
  match entries with
  | [] => (p, None)
  | entry :: entries =>
      let entry := trimSpace entry in
      if bool_decide (entry = []) then addPeers entries p
      else
        match cut equals entry with
        | None => (p, Some (Msg "invalid peer: expected id=host:port"))
        | Some (i, address) =>
            let i := trimSpace i in
            let address := trimSpace address in
            if bool_decide (i = []) then (p, Some (Msg "invalid peer: empty node ID"))
            else if bool_decide (address = []) then (p, Some (Msg "invalid peer: empty address"))
            else
              match p !! bytes_string i with
              | Some _ => (p, Some (Msg "duplicate peer node ID"))
              | None => addPeers entries (<[bytes_string i := bytes_string address]> p)
              end
        end
  end.

Definition peerFlag_Set (value : bytes) (p : peerFlag) : peerFlag * option error :=
  let value := trimSpace value in
  if bool_decide (value = []) then (p, None) else addPeers (split comma value) p.

Definition workerFlag : Type := list string.

Definition workerFlag_String (w : workerFlag) : bytes := join comma (map string_bytes w).

Fixpoint addWorkers (entries : list bytes) (w : workerFlag) : workerFlag * option error :=
  match entries with
  | [] => (w, None)
  | entry :: entries =>
      let workerID := trimSpace entry in
      if bool_decide (workerID = []) then (w, Some (Msg "worker ID cannot be empty"))
      else addWorkers entries (w ++ [bytes_string workerID])
  end.

Definition workerFlag_Set (value : bytes) (w : workerFlag) : workerFlag * option error :=
  let value := trimSpace value in
  if bool_decide (value = []) then (w, Some (Msg "worker list cannot be empty"))
  else addWorkers (split comma value) w.

(** ** The configuration *)

Record config := mkConfig {
  cfg_nodeID : string;
  cfg_raftAddr : string;
  cfg_kvAddr : string;
  cfg_metricsAddr : string;
  cfg_healthAddr : string;
  cfg_dataDir : string;
  cfg_peers : peerFlag;
  cfg_workers : workerFlag;
  cfg_heartbeat : Z;
  cfg_election : Z;
  cfg_logLevel : string;
  cfg_tlsCA : string;
  cfg_tlsCert : string;
  cfg_tlsKey : string;
}.

Definition defaultConfig : config :=
  mkConfig "" ":7000" ":8000" ":9090" ":8080" "./data" ∅ [] 100000000 1000000000 "info" "" "" "".

Definition blank (s : string) : bool := bool_decide (trimSpace (string_bytes s) = []).

Definition validateIdentity (cfg : config) : option error :=
  if blank (cfg_nodeID cfg) then Some (Msg "--id is required") else None.

Definition validateTiming (cfg : config) : option error :=
  if (cfg_heartbeat cfg <=? 0)%Z then Some (Msg "--heartbeat must be greater than zero")
  else if (cfg_election cfg <=? 0)%Z then Some (Msg "--election must be greater than zero")
  else if (cfg_election cfg <=? cfg_heartbeat cfg)%Z then Some (Msg "--election must be greater than --heartbeat")
  else None.

Definition validateAddresses (cfg : config) : option error :=
  if blank (cfg_raftAddr cfg) then Some (Msg "--raft-addr cannot be empty")
  else if blank (cfg_kvAddr cfg) then Some (Msg "--kv-addr cannot be empty")
  else if blank (cfg_metricsAddr cfg) then Some (Msg "--metrics-addr cannot be empty")
  else if blank (cfg_healthAddr cfg) then Some (Msg "--health-addr cannot be empty")
  else None.

Definition validateDataDir (cfg : config) : option error :=
  if blank (cfg_dataDir cfg) then Some (Msg "--data-dir cannot be empty") else None.

Definition log_levels : list bytes := map string_bytes ["debug"; "info"; "warn"; "error"].

Definition validateLogLevel (cfg : config) : option error :=
  if bool_decide (toLower (trimSpace (string_bytes (cfg_logLevel cfg))) ∈ log_levels) then None
  else Some (Msg "invalid --log-level: expected debug, info, warn, or error").

Definition validateTLS (cfg : config) : option error :=
  if blank (cfg_tlsCA cfg) then Some (Msg "--tls-ca is required")
  else if blank (cfg_tlsCert cfg) then Some (Msg "--tls-cert is required")
  else if blank (cfg_tlsKey cfg) then Some (Msg "--tls-key is required")
  else None.

Definition validateCluster (cfg : config) : option error :=
  if bool_decide (cfg_peers cfg = ∅) then Some (Msg "--peers requires at least one peer")
  else if bool_decide (cfg_workers cfg = []) then Some (Msg "--workers requires at least one worker")
  else None.

(** The first error of a list of checks. *)
Fixpoint first_error (checks : list (option error)) : option error :=
  match checks with
  | [] => None
  | Some e :: _ => Some e
  | None :: checks => first_error checks
  end.

Definition validateConfig (cfg : config) : option error :=
  first_error [validateIdentity cfg; validateTiming cfg; validateAddresses cfg; validateDataDir cfg;
    validateLogLevel cfg; validateTLS cfg; validateCluster cfg].

Definition normalizeLogLevel (level : bytes) : bytes :=
  let level := toLower (trimSpace level) in
  if bool_decide (level ∈ log_levels) then level else string_bytes "info".

(** ** Trimming *)

Lemma strip_spec r s s' : strip r s = Some s' <-> s = r ++ s'.
Proof.
  revert s; induction r as [|a r IH]; intros s; cbn; [naive_solver|].
  destruct s as [|b s]; [done|]. destruct (Byte.eqb a b) eqn:E.
  - apply Byte.byte_dec_bl in E as ->. rewrite IH. naive_solver.
  - split; [done|]. intros [= -> ->]. by rewrite eqb_eq in E.
Qed.

Lemma stripAny_None rs s : stripAny rs s = None <-> forall r s', r ∈ rs -> s ≠ r ++ s'.
Proof.
  induction rs as [|r rs IH]; cbn; [set_solver|]. destruct (strip r s) as [s'|] eqn:E.
  - apply strip_spec in E. split; [done|]. intros Hn. by destruct (Hn r s'); [left|].
  - rewrite IH. split; intros Hn r' s'; [|set_solver].
    intros [->|Hr]%elem_of_cons; [|by apply Hn]. rewrite <- strip_spec. by rewrite E.
Qed.

Lemma stripAny_Some rs s s' : stripAny rs s = Some s' -> exists r, r ∈ rs /\ s = r ++ s'.
Proof.
  induction rs as [|r rs IH]; cbn; [done|]. destruct (strip r s) eqn:E.
  - intros [= ->]. apply strip_spec in E. exists r. split; [left|done].
  - intros (r' & ? & ?)%IH. exists r'. split; [by right|done].
Qed.

Section Runes.
Context (rs : list bytes) (Hrs : forall r, r ∈ rs -> r ≠ []).

Lemma stripAny_shorter s s' : stripAny rs s = Some s' -> length s' < length s.
Proof.
  intros (r & Hr%Hrs & ->)%stripAny_Some. rewrite length_app. destruct r; [done|cbn; lia].
Qed.

Lemma trimFront_done fuel s : length s <= fuel -> stripAny rs (trimFront rs fuel s) = None.
Proof.
  revert s; induction fuel as [|fuel IH]; intros s Hl; cbn.
  - destruct s; [|cbn in Hl; lia]. apply stripAny_None. intros r s' Hr%Hrs. by destruct r.
  - destruct (stripAny rs s) as [s'|] eqn:E; [|done]. apply IH. apply stripAny_shorter in E. lia.
Qed.

Lemma trimFront_id fuel s : stripAny rs s = None -> trimFront rs fuel s = s.
Proof. intros E. destruct fuel; cbn; [done|]. by rewrite E. Qed.

Lemma trimFront_suffix fuel s : exists t, s = t ++ trimFront rs fuel s.
Proof.
  revert s; induction fuel as [|fuel IH]; intros s; cbn; [by exists []|].
  destruct (stripAny rs s) as [s'|] eqn:E; [|by exists []].
  apply stripAny_Some in E as (r & _ & ->). destruct (IH s') as [t Ht]. exists (r ++ t).
  by rewrite <- app_assoc, <- Ht.
Qed.

End Runes.

(** A character that is in no rune ends the search. *)
Lemma stripAny_app rs c a b :
  (forall r, r ∈ rs -> c ∉ r) -> stripAny rs a = None -> stripAny rs (a ++ c :: b) = None.
Proof.
  intros Hc Ha. apply stripAny_None. intros r s' Hr E. apply app_eq_app in E as [k [[-> E]|[-> E]]].
  - by apply (proj1 (stripAny_None rs (r ++ k)) Ha r k).
  - destruct k as [|x k]; cbn in E; simplify_eq.
    + apply (proj1 (stripAny_None rs a) Ha a []); rewrite ?app_nil_r in *; done.
    + apply (Hc _ Hr). set_solver.
Qed.


Definition back_runes : list bytes := map (@rev byte) space_runes.
Definition front_ok (s : bytes) : Prop := stripAny space_runes s = None.
Definition back_ok (s : bytes) : Prop := stripAny back_runes (rev s) = None.
Definition trimmed (s : bytes) : Prop := front_ok s /\ back_ok s.

Lemma runes_nonempty r : r ∈ space_runes -> r ≠ [].
Proof. revert r. apply Forall_forall. apply (bool_decide_unpack _). vm_compute. exact I. Qed.
Lemma back_runes_nonempty r : r ∈ back_runes -> r ≠ [].
Proof. revert r. apply Forall_forall. apply (bool_decide_unpack _). vm_compute. exact I. Qed.

(** Separators are in no rune. *)
Lemma separator_runes c : c = comma \/ c = equals ->
  (forall r, r ∈ space_runes -> c ∉ r) /\ (forall r, r ∈ back_runes -> c ∉ r).
Proof. intros [->| ->]; split; apply Forall_forall; apply (bool_decide_unpack _); vm_compute; exact I. Qed.

Lemma front_ok_app c a b : c = comma \/ c = equals -> front_ok a -> front_ok (a ++ c :: b).
Proof. intros Hc. apply stripAny_app. by apply separator_runes. Qed.

Lemma back_ok_app c a b : c = comma \/ c = equals -> back_ok b -> back_ok (a ++ c :: b).
Proof.
  intros Hc Hb. unfold back_ok. rewrite rev_app_distr. cbn [rev]. rewrite <- app_assoc. cbn [app].
  apply stripAny_app; [by apply separator_runes|done].
Qed.

Lemma trimSpace_id s : trimmed s -> trimSpace s = s.
Proof.
  intros [Hf Hb]. unfold trimSpace, trimLeft. rewrite (trimFront_id _ _ s) by done.
  rewrite trimFront_id by done. apply rev_involutive.
Qed.

Lemma trimSpace_infix s : exists a b, s = a ++ trimSpace s ++ b.
Proof.
  unfold trimSpace, trimLeft. destruct (trimFront_suffix space_runes (length s) s) as [a Ha].
  set (t := trimFront space_runes (length s) s) in *.
  destruct (trimFront_suffix (map (@rev byte) space_runes) (length (rev t)) (rev t)) as [b Hb].
  apply (f_equal (@rev byte)) in Hb. rewrite rev_involutive, rev_app_distr in Hb. exists a, (rev b). by rewrite <- Hb.
Qed.

Lemma trimSpace_trimmed s : trimmed (trimSpace s).
Proof.
  unfold trimSpace, trimLeft. pose proof (trimFront_done _ runes_nonempty (length s) s ltac:(lia)) as Hf.
  set (t := trimFront space_runes (length s) s) in *.
  pose proof (trimFront_done _ back_runes_nonempty (length (rev t)) (rev t) ltac:(lia)) as Hb.
  destruct (trimFront_suffix back_runes (length (rev t)) (rev t)) as [b Hr]. fold back_runes.
  set (u := trimFront back_runes (length (rev t)) (rev t)) in *. split; unfold front_ok, back_ok.
  - apply stripAny_None. intros r s' Hin E. apply (proj1 (stripAny_None _ _) Hf r (s' ++ rev b) Hin).
    apply (f_equal (@rev byte)) in Hr. rewrite rev_involutive, rev_app_distr in Hr. by rewrite Hr, E, app_assoc.
  - by rewrite rev_involutive.
Qed.

Lemma trimSpace_not_in c s : c ∉ s -> c ∉ trimSpace s.
Proof. destruct (trimSpace_infix s) as (a & b & E). intros Hc Hin. apply Hc. rewrite E. set_solver. Qed.

(** ** Splitting and joining *)

Lemma split_nosep sep s : sep ∉ s -> split sep s = [s].
Proof.
  induction s as [|c s IH]; cbn; [done|]. intros [Hc Hs]%not_elem_of_cons.
  by rewrite eqb_ne, IH by congruence.
Qed.

Lemma split_app sep a s : sep ∉ a -> split sep (a ++ sep :: s) = a :: split sep s.
Proof.
  induction a as [|c a IH]; cbn; [by rewrite eqb_eq|]. intros [Hc Hs]%not_elem_of_cons.
  by rewrite eqb_ne, IH by congruence.
Qed.

Lemma split_join sep parts :
  parts ≠ [] -> Forall (fun part => sep ∉ part) parts -> split sep (join sep parts) = parts.
Proof.
  induction parts as [|part parts IH]; [done|]. intros _ [Hp Hps]%Forall_cons.
  destruct parts as [|part' parts]; [by apply split_nosep|].
  change (join sep (part :: part' :: parts)) with (part ++ sep :: join sep (part' :: parts)).
  rewrite split_app by done. by rewrite IH.
Qed.

Lemma split_parts sep s : Forall (fun part => sep ∉ part) (split sep s).
Proof.
  induction s as [|c s IH]; cbn; [repeat constructor; set_solver|].
  destruct (Byte.eqb c sep) eqn:E; [constructor; [set_solver|done]|].
  assert (c ≠ sep) by (intros ->; by rewrite eqb_eq in E).
  destruct (split sep s) as [|part parts]; [repeat constructor; set_solver|].
  apply Forall_cons in IH as [??]. constructor; [set_solver|done].
Qed.

Lemma cut_app sep a b : sep ∉ a -> cut sep (a ++ sep :: b) = Some (a, b).
Proof.
  induction a as [|c a IH]; cbn; [by rewrite eqb_eq|]. intros [Hc Hs]%not_elem_of_cons.
  by rewrite eqb_ne, IH by congruence.
Qed.

Lemma cut_Some sep s a b : cut sep s = Some (a, b) -> s = a ++ sep :: b /\ sep ∉ a.
Proof.
  revert a; induction s as [|c s IH]; intros a; cbn; [done|]. destruct (Byte.eqb c sep) eqn:E.
  - apply Byte.byte_dec_bl in E as ->. intros [= <- <-]. split; [done|set_solver].
  - assert (c ≠ sep) by (intros ->; by rewrite eqb_eq in E). destruct (cut sep s) as [[a' b']|]; [|done].
    intros [= <- <-]. destruct (IH a' eq_refl) as [-> ?]. split; [done|set_solver].
Qed.

(** ** Round trips *)

(** A peer as [Set] leaves it in the map. *)
Definition peer_ok (i address : string) : Prop :=
  (trimmed (string_bytes i) /\ string_bytes i ≠ [] /\ (comma ∉ string_bytes i) /\ (equals ∉ string_bytes i)) /\
  (trimmed (string_bytes address) /\ string_bytes address ≠ [] /\ (comma ∉ string_bytes address)).

Definition print_peer (peer : NodeID * string) : bytes := string_bytes (fst peer) ++ equals :: string_bytes (snd peer).

Lemma print_peer_ok i address :
  peer_ok i address -> trimmed (print_peer (i, address)) /\ (comma ∉ print_peer (i, address)) /\ print_peer (i, address) ≠ [].
Proof.
  intros (([Hf _] & Hne & Hc & _) & ([_ Hb] & _ & Hca)). unfold print_peer. cbn [fst snd]. split_and!.
  - split; [apply front_ok_app; auto|apply back_ok_app; auto].
  - rewrite elem_of_app, elem_of_cons. intros [?|[?|?]]; try done.
  - by destruct (string_bytes i).
Qed.

Lemma addPeers_ok entries p p' :
  Forall (fun entry => comma ∉ entry) entries -> map_Forall peer_ok p ->
  addPeers entries p = (p', None) -> map_Forall peer_ok p'.
Proof.
  revert p. induction entries as [|entry entries IH]; intros p Hes Hp E; cbn in E; [by simplify_eq|].
  apply Forall_cons in Hes as [He Hes]. case_bool_decide; [by eapply IH|].
  destruct (cut equals (trimSpace entry)) as [[i address]|] eqn:Ec; [|done].
  apply cut_Some in Ec as [Ee Hi]. case_bool_decide; [done|]. case_bool_decide; [done|].
  destruct (p !! _) eqn:Ep; [done|]. eapply (IH _ Hes); [|exact E]. apply map_Forall_insert_2; [|done].
  apply (trimSpace_not_in comma) in He. rewrite Ee, elem_of_app, elem_of_cons in He.
  unfold peer_ok. rewrite !String.list_byte_of_string_of_list_byte.
  split_and!; try done; try apply trimSpace_trimmed; apply trimSpace_not_in; tauto.
Qed.

Lemma addPeers_print order p :
  Forall (fun '(i, address) => peer_ok i address) order -> NoDup (map fst order) ->
  (forall i, i ∈ map fst order -> p !! i = None) ->
  addPeers (map print_peer order) p = (list_to_map order ∪ p, None).
Proof.
  revert p. induction order as [|[i address] order IH]; intros p Hok Hnd Hp; cbn [addPeers map].
  { f_equal. symmetry. apply (left_id_L ∅ (∪)). }
  apply Forall_cons in Hok as [Hpeer Hok]. cbn in Hnd. apply NoDup_cons in Hnd as [Hi Hnd].
  destruct (print_peer_ok i address Hpeer) as (Ht & _ & Hne). cbn zeta. rewrite trimSpace_id by done.
  rewrite bool_decide_false by done. destruct Hpeer as ((Hti & Hni & _ & Heq) & (Hta & Hna & _)).
  unfold print_peer at 1. cbn [fst snd]. rewrite cut_app by done. rewrite !trimSpace_id by done.
  rewrite !bool_decide_false by done. rewrite !String.string_of_list_byte_of_string.
  rewrite (Hp i) by (cbn; set_solver). rewrite IH; [|done..|].
  - f_equal. rewrite list_to_map_cons, <- insert_union_l. symmetry. apply insert_union_r.
    by apply not_elem_of_list_to_map_1.
  - intros j Hj. rewrite lookup_insert_ne; [apply Hp; cbn; set_solver|]. intros ->. done.
Qed.

Lemma join_ok parts :
  parts ≠ [] -> Forall (fun part => trimmed part /\ part ≠ []) parts ->
  trimmed (join comma parts) /\ join comma parts ≠ [].
Proof.
  induction parts as [|part parts IH]; [done|]. intros _ [[[Hf Hb] Hne] Hps]%Forall_cons.
  destruct parts as [|part' parts]; [done|].
  change (join comma (part :: part' :: parts)) with (part ++ comma :: join comma (part' :: parts)).
  destruct IH as [[_ Hb'] _]; [done..|]. split; [|by destruct part].
  split; [apply front_ok_app; auto|apply back_ok_app; auto].
Qed.

Lemma peerFlag_Set_ok value p p' :
  map_Forall peer_ok p -> peerFlag_Set value p = (p', None) -> map_Forall peer_ok p'.
Proof.
  intros Hp E. unfold peerFlag_Set in E. case_bool_decide; [by simplify_eq|].
  eapply addPeers_ok; [apply split_parts|exact Hp|exact E].
Qed.

(** Printing a map of peers, in any order of its entries, gives a value that [Set]
    accepts with the same map. *)
Lemma peerFlag_Set_print p order :
  map_Forall peer_ok p -> order ≡ₚ map_to_list p -> peerFlag_Set (peerFlag_String order) ∅ = (p, None).
Proof.
  intros Hp Hperm. unfold peerFlag_Set, peerFlag_String.
  assert (Forall (fun '(i, address) => peer_ok i address) order) as Hok.
  { apply Forall_forall. intros [i address] Hin. rewrite Hperm in Hin. apply elem_of_map_to_list in Hin. by apply Hp in Hin. }
  assert (map (fun '(i, address) => string_bytes i ++ equals :: string_bytes address) order = map print_peer order) as ->
    by (apply map_ext; by intros [? ?]).
  destruct (decide (p = ∅)) as [->|Hne].
  { rewrite map_to_list_empty in Hperm. apply Permutation_nil_r in Hperm as ->. reflexivity. }
  assert (order ≠ []) as Hno.
  { intros ->. apply Hne, map_to_list_empty_iff. by apply Permutation_nil_l in Hperm. }
  assert (map print_peer order ≠ []) as Hmap by by destruct order.
  assert (Forall (fun part => (trimmed part /\ part ≠ []) /\ (comma ∉ part)) (map print_peer order)) as Hprint.
  { apply Forall_map. eapply Forall_impl; [exact Hok|]. intros [i address] (? & ? & ?)%print_peer_ok. done. }
  rewrite Forall_and in Hprint. destruct Hprint as [Hprint Hcomma].
  destruct (join_ok _ Hmap Hprint) as [Ht Hne'].
  rewrite trimSpace_id, bool_decide_false, split_join by done. rewrite addPeers_print; [|done| |by intros].
  - rewrite (right_id_L ∅ (∪)). f_equal. rewrite <- (list_to_map_to_list p).
    by apply list_to_map_proper; [change (NoDup order.*1); rewrite Hperm; apply NoDup_fst_map_to_list|].
  - change (NoDup order.*1). rewrite Hperm. apply NoDup_fst_map_to_list.
Qed.

(** A worker as [Set] leaves it in the list. *)
Definition worker_ok (w : string) : Prop :=
  trimmed (string_bytes w) /\ string_bytes w ≠ [] /\ (comma ∉ string_bytes w).

Lemma addWorkers_ok entries w w' :
  Forall (fun entry => comma ∉ entry) entries -> Forall worker_ok w -> addWorkers entries w = (w', None) ->
  Forall worker_ok w'.
Proof.
  revert w. induction entries as [|entry entries IH]; intros w Hes Hw E; cbn in E; [by simplify_eq|].
  apply Forall_cons in Hes as [He Hes]. case_bool_decide; [done|]. eapply (IH _ Hes); [|exact E].
  apply Forall_app. split; [done|]. repeat constructor; rewrite String.list_byte_of_string_of_list_byte.
  - apply trimSpace_trimmed.
  - apply trimSpace_trimmed.
  - done.
  - by apply trimSpace_not_in.
Qed.

Lemma addWorkers_print ws w : Forall worker_ok ws -> addWorkers (map string_bytes ws) w = (w ++ ws, None).
Proof.
  revert w. induction ws as [|x ws IH]; intros w Hok; cbn; [by rewrite app_nil_r|].
  apply Forall_cons in Hok as [(Ht & Hne & _) Hok]. rewrite trimSpace_id, bool_decide_false by done.
  rewrite String.string_of_list_byte_of_string, IH by done. by rewrite <- app_assoc.
Qed.

Lemma workerFlag_Set_ok value w w' :
  Forall worker_ok w -> workerFlag_Set value w = (w', None) -> Forall worker_ok w'.
Proof.
  intros Hw E. unfold workerFlag_Set in E. case_bool_decide; [done|].
  eapply addWorkers_ok; [apply split_parts|exact Hw|exact E].
Qed.

Lemma workerFlag_Set_print w :
  Forall worker_ok w -> w ≠ [] -> workerFlag_Set (workerFlag_String w) [] = (w, None).
Proof.
  intros Hw Hnw. assert (map string_bytes w ≠ []) as Hne by (by destruct w).
  unfold workerFlag_Set, workerFlag_String.
  assert (Forall (fun part => (trimmed part /\ part ≠ []) /\ (comma ∉ part)) (map string_bytes w)) as Hprint.
  { apply Forall_map. eapply Forall_impl; [exact Hw|]. by intros x (? & ? & ?). }
  rewrite Forall_and in Hprint. destruct Hprint as [Hprint Hcomma]. destruct (join_ok _ Hne Hprint) as [Ht Hne'].
  rewrite trimSpace_id, bool_decide_false, split_join by done. by rewrite addWorkers_print.
Qed.
