(* ===== verification/CommandLine.v ===== *)
(** The command line of a node: [parseConfig] of [cmd/raftiq/config.go], with what it
    uses of the packages flag and time, and [newLogger] of [main.go].

    An argument is a list of bytes.  [flag.Parse] handles the arguments in order and
    ends the process with status 2 at the first bad one, with status 0 at a request for
    help; a value that is returned is that of [validateConfig].  The text of usage and
    errors is left out. *)

From S2P Require Import Prelude Float64 Model Bytes Decimal Config.

(** ** [time.ParseDuration] *)

Definition dot : byte := x2e.

(** [None] is an overflow. *)
Fixpoint leadingInt (x : N) (s : bytes) : option (N * bytes) :=
  match s with
  | [] => Some (x, [])
  | c :: s' =>
      if negb (is_digit c) then Some (x, s)
      else if (2 ^ 63 / 10 <? x)%N then None
      else let x := (x * 10 + digit c)%N in if (2 ^ 63 <? x)%N then None else leadingInt x s'
  end.

(** The digits after a point, and the power of ten they are divided by. *)
Fixpoint leadingFraction (x scale : N) (overflow : bool) (s : bytes) : N * N * bytes :=
  match s with
  | [] => (x, scale, [])
  | c :: s' =>
      if negb (is_digit c) then (x, scale, s)
      else if overflow || ((2 ^ 63 - 1) / 10 <? x)%N then leadingFraction x scale true s'
      else
        let y := (x * 10 + digit c)%N in
        if (2 ^ 63 <? y)%N then leadingFraction x scale true s' else leadingFraction y (scale * 10) false s'
  end.

(** Up to the next digit or point. *)
Fixpoint span_unit (s : bytes) : bytes * bytes :=
  match s with
  | [] => ([], [])
  | c :: s' => if Byte.eqb c dot || is_digit c then ([], s) else let '(u, rest) := span_unit s' in (c :: u, rest)
  end.

Definition unitMap (u : bytes) : option N :=
  if bool_decide (u = string_bytes "ns") then Some 1%N
  else if bool_decide (u = string_bytes "us") then Some 1000%N
  else if bool_decide (u = [xc2; xb5; x73]) then Some 1000%N
  else if bool_decide (u = [xce; xbc; x73]) then Some 1000%N
  else if bool_decide (u = string_bytes "ms") then Some 1000000%N
  else if bool_decide (u = string_bytes "s") then Some 1000000000%N
  else if bool_decide (u = string_bytes "m") then Some 60000000000%N
  else if bool_decide (u = string_bytes "h") then Some 3600000000000%N
  else None.

(** The loop: one number with its unit per round.  The sum is a uint64. *)
Fixpoint parseUnits (fuel : nat) (d : N) (s : bytes) : option N :=
  match fuel, s with
  | _, [] => Some d
  | O, _ => None
  | S fuel, c :: _ =>
      if negb (Byte.eqb c dot || is_digit c) then None
      else
        '(v, s1) ← leadingInt 0 s;
        let pre := negb (length s =? length s1)%nat in
        let '(f, scale, s2, post) :=
          match s1 with
          | c :: s' =>
              if Byte.eqb c dot
              then let '(f, scale, s2) := leadingFraction 0 1 false s' in
                   (f, scale, s2, negb (length s' =? length s2)%nat)
              else (0%N, 1%N, s1, false)
          | [] => (0%N, 1%N, s1, false)
          end in
        if negb pre && negb post then None
        else
          let '(u, s3) := span_unit s2 in
          if bool_decide (u = []) then None
          else
            unit ← unitMap u;
            if (2 ^ 63 / unit <? v)%N then None
            else
              let v := (v * unit)%N in
              let v := if (0 <? f)%N then (v + truncate (mul_whole (float64_of f) (round_ratio unit scale)))%N else v in
              if (0 <? f)%N && (2 ^ 63 <? v)%N then None
              else
                let d := ((d + v) mod 2 ^ 64)%N in
                if (2 ^ 63 <? d)%N then None else parseUnits fuel d s3
  end.

(** Nanoseconds; [None] is an error. *)
Definition ParseDuration (s : bytes) : option Z :=
  let '(neg, s) :=
    match s with
    | c :: s' => if Byte.eqb c x2d then (true, s') else if Byte.eqb c x2b then (false, s') else (false, s)
    | [] => (false, s)
    end in
  if bool_decide (s = string_bytes "0") then Some 0%Z
  else if bool_decide (s = []) then None
  else
    d ← parseUnits (length s) 0 s;
    if neg : bool then Some (if (d =? 2 ^ 63)%N then - 2 ^ 63 else - Z.of_N d)%Z
    else if (2 ^ 63 - 1 <? d)%N then None else Some (Z.of_N d).

Example durations :
  ParseDuration (string_bytes "100ms") = Some 100000000%Z /\
  ParseDuration (string_bytes "1h15m30.918s") = Some 4530918000000%Z /\
  ParseDuration (string_bytes "-.5s") = Some (-500000000)%Z /\
  ParseDuration (string_bytes "0.1h") = Some 360000000000%Z /\
  ParseDuration (string_bytes "9223372036854775807ns") = Some 9223372036854775807%Z /\
  ParseDuration (string_bytes "9223372036854775808ns") = None /\
  ParseDuration (string_bytes "100") = None /\ ParseDuration (string_bytes "1s ") = None.
Proof. vm_compute. done. Qed.

(** ** [flag.Parse] *)

Inductive flag_arg :=
| NotAFlag
| EndOfFlags
| BadFlag
| FlagArg (name : bytes) (value : option bytes).

Definition flag_syntax (s : bytes) : flag_arg :=
  let named (name : bytes) :=
    match name with
    | [] => BadFlag
    | c :: _ =>
        if Byte.eqb c x2d || Byte.eqb c equals then BadFlag
        else match cut equals name with
             | Some (name, value) => FlagArg name (Some value)
             | None => FlagArg name None
             end
    end in
  match s with
  | [] => NotAFlag
  | c :: s =>
      if negb (Byte.eqb c x2d) then NotAFlag
      else match s with
           | [] => NotAFlag
           | c' :: s' =>
               if Byte.eqb c' x2d then match s' with [] => EndOfFlags | _ => named s' end else named s
           end
  end.

(** A command line is handled, with the arguments left over, or the process ends. *)
Inductive parsed (C : Type) := Parsed (cfg : C) (rest : list bytes) | ProcessExit (status : N).
Arguments Parsed {C}. Arguments ProcessExit {C}.

Section Flag.
Context {C : Type}.

(** The flags by name; [Set] of a flag, [None] for a flag that is not defined. *)
Context (formal : bytes -> option (bytes -> C -> C * option error)).

Definition set_flag (set : bytes -> C -> C * option error) (value : bytes) (k : C -> parsed C) (cfg : C) : parsed C :=
  match set value cfg with
  | (cfg, None) => k cfg
  | (_, Some _) => ProcessExit 2
  end.

Fixpoint flag_Parse (args : list bytes) (cfg : C) : parsed C :=
  match args with
  | [] => Parsed cfg []
  | s :: args' =>
      match flag_syntax s with
      | NotAFlag => Parsed cfg args
      | EndOfFlags => Parsed cfg args'
      | BadFlag => ProcessExit 2
      | FlagArg name value =>
          match formal name with
          | None => ProcessExit (if bool_decide (name = string_bytes "help" \/ name = string_bytes "h") then 0 else 2)
          | Some set =>
              match value, args' with
              | Some value, _ => set_flag set value (flag_Parse args') cfg
              | None, value :: args' => set_flag set value (flag_Parse args') cfg
              | None, [] => ProcessExit 2
              end
          end
      end
  end.

End Flag.

(** ** The flags of a node *)

Inductive flag_id :=
| f_id | f_raft_addr | f_kv_addr | f_metrics_addr | f_health_addr | f_data_dir | f_peers | f_workers
| f_heartbeat | f_election | f_log_level | f_tls_ca | f_tls_cert | f_tls_key.

Definition all_flags : list flag_id :=
  [f_id; f_raft_addr; f_kv_addr; f_metrics_addr; f_health_addr; f_data_dir; f_peers; f_workers;
   f_heartbeat; f_election; f_log_level; f_tls_ca; f_tls_cert; f_tls_key].

#[global] Instance flag_id_eq_dec : EqDecision flag_id.
Proof. solve_decision. Defined.

Definition flag_name (f : flag_id) : string :=
  match f with
  | f_id => "id" | f_raft_addr => "raft-addr" | f_kv_addr => "kv-addr" | f_metrics_addr => "metrics-addr"
  | f_health_addr => "health-addr" | f_data_dir => "data-dir" | f_peers => "peers" | f_workers => "workers"
  | f_heartbeat => "heartbeat" | f_election => "election" | f_log_level => "log-level"
  | f_tls_ca => "tls-ca" | f_tls_cert => "tls-cert" | f_tls_key => "tls-key"
  end.

(** [Set] of [StringVar], [DurationVar] and the two list flags. *)
Definition flag_Set (f : flag_id) (value : bytes) (cfg : config) : config * option error :=
  let '(mkConfig i ra ka ma ha dir peers workers heartbeat election level ca cert key) := cfg in
  let v := bytes_string value in
  let duration (k : Z -> config) :=
    match ParseDuration value with
    | Some d => (k d, None)
    | None => (k 0%Z, Some (Msg "parse error"))
    end in
  match f with
  | f_id => (mkConfig v ra ka ma ha dir peers workers heartbeat election level ca cert key, None)
  | f_raft_addr => (mkConfig i v ka ma ha dir peers workers heartbeat election level ca cert key, None)
  | f_kv_addr => (mkConfig i ra v ma ha dir peers workers heartbeat election level ca cert key, None)
  | f_metrics_addr => (mkConfig i ra ka v ha dir peers workers heartbeat election level ca cert key, None)
  | f_health_addr => (mkConfig i ra ka ma v dir peers workers heartbeat election level ca cert key, None)
  | f_data_dir => (mkConfig i ra ka ma ha v peers workers heartbeat election level ca cert key, None)
  | f_peers =>
      let '(peers, e) := peerFlag_Set value peers in
      (mkConfig i ra ka ma ha dir peers workers heartbeat election level ca cert key, e)
  | f_workers =>
      let '(workers, e) := workerFlag_Set value workers in
      (mkConfig i ra ka ma ha dir peers workers heartbeat election level ca cert key, e)
  | f_heartbeat => duration (fun d => mkConfig i ra ka ma ha dir peers workers d election level ca cert key)
  | f_election => duration (fun d => mkConfig i ra ka ma ha dir peers workers heartbeat d level ca cert key)
  | f_log_level => (mkConfig i ra ka ma ha dir peers workers heartbeat election v ca cert key, None)
  | f_tls_ca => (mkConfig i ra ka ma ha dir peers workers heartbeat election level v cert key, None)
  | f_tls_cert => (mkConfig i ra ka ma ha dir peers workers heartbeat election level ca v key, None)
  | f_tls_key => (mkConfig i ra ka ma ha dir peers workers heartbeat election level ca cert v, None)
  end.

(** The flags [parseConfig] defines. *)
Fixpoint find_flag (fs : list flag_id) (name : bytes) : option flag_id :=
  match fs with
  | [] => None
  | f :: fs => if bool_decide (name = string_bytes (flag_name f)) then Some f else find_flag fs name
  end.

Definition formal_flags (name : bytes) : option (bytes -> config -> config * option error) :=
  f ← find_flag all_flags name; Some (flag_Set f).

(** What [parseConfig] returns, or the status the process ends with. *)
Inductive parse_outcome := ConfigParsed (cfg : config) (e : option error) | ConfigExit (status : N).

Definition parseConfig (args : list bytes) (cfg : config) : parse_outcome :=
  match flag_Parse formal_flags args cfg with
  | Parsed cfg _ => ConfigParsed cfg (validateConfig cfg)
  | ProcessExit status => ConfigExit status
  end.

(** ** The logger *)

Inductive slog_Level := LevelDebug | LevelInfo | LevelWarn | LevelError.

(** The level of the handler of [newLogger]. *)
Definition newLogger (level : string) : slog_Level :=
  let level := normalizeLogLevel (string_bytes level) in
  if bool_decide (level = string_bytes "debug") then LevelDebug
  else if bool_decide (level = string_bytes "warn") then LevelWarn
  else if bool_decide (level = string_bytes "error") then LevelError
  else LevelInfo.

(** ** Printing durations *)

(** A duration in nanoseconds; 19 digits are enough for an int64. *)
Definition print_duration (d : Z) : bytes := decimal 19 (Z.to_N d) ++ string_bytes "ns".

Lemma leadingInt_app ds x c rest :
  Forall (fun c => is_digit c = true) ds -> is_digit c = false ->
  (fold_left (fun x c => x * 10 + digit c)%N ds x <= 2 ^ 63)%N ->
  leadingInt x (ds ++ c :: rest) = Some (fold_left (fun x c => x * 10 + digit c)%N ds x, c :: rest).
Proof.
  intros Hds Hc. revert x. induction Hds as [|d ds Hd _ IH]; intros x Hle; cbn [app leadingInt].
  { by rewrite Hc. }
  rewrite Hd. cbn [negb]. cbn [fold_left] in *. pose proof (fold_numeral_le ds (x * 10 + digit d)) as Hm.
  destruct (N.ltb_spec (2 ^ 63 / 10) x) as [Hx|_].
  { replace (2 ^ 63 / 10)%N with 922337203685477580%N in Hx by reflexivity. lia. }
  cbn zeta. destruct (N.ltb_spec (2 ^ 63) (x * 10 + digit d)); [lia|]. by apply IH.
Qed.

Lemma ParseDuration_print d : (0 <= d < 2 ^ 63)%Z -> ParseDuration (print_duration d) = Some d.
Proof.
  intros Hd. unfold print_duration. set (n := Z.to_N d).
  assert (n < 2 ^ 63)%N as Hn by (unfold n; lia).
  destruct (decimal_spec 19 n) as [Hv Hf]; [cbn; lia|]. unfold numeral in Hv.
  assert (exists c ds, decimal 19 n = c :: ds) as (c & ds & E).
  { change (decimal 19 n) with (if (n <? 10)%N then [digit_byte n] else decimal 18 (n / 10) ++ [digit_byte (n mod 10)]).
    destruct (n <? 10)%N; [by eauto|]. destruct (decimal 18 _) as [|c ds]; cbn; eauto. }
  rewrite E in Hv, Hf |- *. assert (is_digit c = true) as Hc by (by apply Forall_cons in Hf as [? _]).
  assert (forall b, is_digit b = false -> Byte.eqb c b = false) as Hne.
  { intros b Hb. apply eqb_ne. intros ->. congruence. }
  unfold ParseDuration. cbn [app]. rewrite !Hne by reflexivity. rewrite bool_decide_false.
  2: { intros E'. apply (f_equal length) in E'. cbn in E'. rewrite length_app in E'. cbn in E'. lia. }
  rewrite bool_decide_false by done. cbn [length parseUnits]. rewrite Hc, orb_true_r. cbn [negb].
  change (c :: ds ++ string_bytes "ns") with ((c :: ds) ++ x6e :: [x73]).
  rewrite leadingInt_app, Hv; [|done|done|rewrite Hv; lia]. cbn [mbind option_bind].
  cbn zeta. rewrite (proj2 (Nat.eqb_neq _ _)) by (rewrite length_app; cbn; lia). cbn [negb andb].
  replace (Byte.eqb x6e dot) with false by reflexivity. cbn zeta.
  change (span_unit [x6e; x73]) with ([x6e; x73], @nil byte).
  cbv beta iota. rewrite bool_decide_false by done.
  change (unitMap [x6e; x73]) with (Some 1%N). cbn [mbind option_bind].
  replace (2 ^ 63 / 1)%N with (2 ^ 63)%N by reflexivity. rewrite (proj2 (N.ltb_ge (2 ^ 63) n)) by lia.
  cbn [andb N.ltb N.compare]. rewrite N.mul_1_r, N.add_0_l.
  rewrite N.mod_small by lia. rewrite (proj2 (N.ltb_ge _ _)) by lia.
  destruct (length (ds ++ string_bytes "ns")); cbn [parseUnits mbind option_bind];
    rewrite (proj2 (N.ltb_ge _ _)) by lia; f_equal; lia.
Qed.

Lemma ParseDuration_bound s d : ParseDuration s = Some d -> (d < 2 ^ 63)%Z.
Proof.
  unfold ParseDuration. destruct (match s with [] => _ | _ => _ end) as [neg s'].
  case_bool_decide; [intros [= <-]; done|]. case_bool_decide; [done|].
  destruct (parseUnits _ _ _) as [n|]; [|done]. cbn [mbind option_bind]. destruct neg.
  - intros [= <-]. destruct (n =? 2 ^ 63)%N; lia.
  - destruct (N.ltb_spec (2 ^ 63 - 1) n); [done|]. intros [= <-]. lia.
Qed.

(** *** The rounds of [ParseDuration] end *)

Lemma leadingInt_shorter x s n s' : leadingInt x s = Some (n, s') -> length s' <= length s.
Proof.
  revert x. induction s as [|c s IH]; intros x; cbn; [by intros [= <- <-]|].
  destruct (is_digit c); cbn [negb]; [|intros [= <- <-]; done]. repeat case_match; try done.
  intros E%IH. lia.
Qed.

Lemma leadingFraction_shorter x k o s y k' s' : leadingFraction x k o s = (y, k', s') -> length s' <= length s.
Proof.
  revert x k o. induction s as [|c s IH]; intros x k o; cbn; [by intros [= <- <- <-]|].
  destruct (is_digit c); cbn [negb]; [|intros [= <- <- <-]; done]. repeat case_match; intros E%IH; lia.
Qed.

Lemma span_unit_app s u s' : span_unit s = (u, s') -> s = u ++ s'.
Proof.
  revert u. induction s as [|c s IH]; intros u; cbn; [by intros [= <- <-]|].
  destruct (_ || _); [by intros [= <- <-]|]. destruct (span_unit s) as [v t] eqn:E. intros [= <- <-].
  cbn. f_equal. by apply IH.
Qed.

Lemma parseUnits_fuel fuel1 fuel2 d s :
  length s <= fuel1 -> length s <= fuel2 -> parseUnits fuel1 d s = parseUnits fuel2 d s.
Proof.
  revert fuel2 d s. induction fuel1 as [|fuel1 IH]; intros fuel2 d s H1 H2.
  { destruct s; [by destruct fuel2|cbn in H1; lia]. }
  destruct fuel2 as [|fuel2]; [destruct s; [done|cbn in H2; lia]|]. destruct s as [|c s]; [done|].
  cbn [parseUnits]. destruct (negb _); [done|]. destruct (leadingInt 0 _) as [[v s1]|] eqn:E1; [|done].
  apply leadingInt_shorter in E1. cbn [mbind option_bind].
  set (after := match s1 with [] => _ | _ => _ end).
  assert (length (snd (fst after)) <= length s1) as E2.
  { subst after. destruct s1 as [|c1 s1]; [done|]. destruct (Byte.eqb c1 dot); [|done].
    destruct (leadingFraction _ _ _ _) as [[f k] s2] eqn:E2. apply leadingFraction_shorter in E2. cbn. lia. }
  destruct after as [[[f k] s2] post]. cbn [fst snd] in E2. destruct (negb _ && _); [done|].
  destruct (span_unit s2) as [u s3] eqn:E3. apply span_unit_app in E3 as ->. case_bool_decide as Hu; [done|].
  assert (length s3 < length (u ++ s3)) by (rewrite length_app; destruct u; [done|cbn; lia]).
  destruct (unitMap u) as [unit|]; [|done]. cbn [mbind option_bind]. repeat case_match; try done. all: apply IH; cbn in *; lia.
Qed.

(** ** Printing a configuration *)

(** The value of a flag; the peers in some order. *)
Definition print_value (order : list (NodeID * string)) (cfg : config) (f : flag_id) : bytes :=
  match f with
  | f_id => string_bytes (cfg_nodeID cfg)
  | f_raft_addr => string_bytes (cfg_raftAddr cfg)
  | f_kv_addr => string_bytes (cfg_kvAddr cfg)
  | f_metrics_addr => string_bytes (cfg_metricsAddr cfg)
  | f_health_addr => string_bytes (cfg_healthAddr cfg)
  | f_data_dir => string_bytes (cfg_dataDir cfg)
  | f_peers => peerFlag_String order
  | f_workers => workerFlag_String (cfg_workers cfg)
  | f_heartbeat => print_duration (cfg_heartbeat cfg)
  | f_election => print_duration (cfg_election cfg)
  | f_log_level => string_bytes (cfg_logLevel cfg)
  | f_tls_ca => string_bytes (cfg_tlsCA cfg)
  | f_tls_cert => string_bytes (cfg_tlsCert cfg)
  | f_tls_key => string_bytes (cfg_tlsKey cfg)
  end.

(** A flag with its value, in one argument ([--id=a]) or in two ([-id a]). *)
Definition print_flag (order : list (NodeID * string)) (cfg : config) (f : flag_id * bool) : list bytes :=
  let name := string_bytes (flag_name (fst f)) in
  let value := print_value order cfg (fst f) in
  if snd f then [x2d :: x2d :: name ++ equals :: value] else [x2d :: name; value].

Definition print_config (order : list (NodeID * string)) (cfg : config) (fs : list (flag_id * bool)) : list bytes :=
  concat (map (print_flag order cfg) fs).

(** Two configurations agree on a flag. *)
Definition same (f : flag_id) (c1 c2 : config) : Prop :=
  match f with
  | f_id => cfg_nodeID c1 = cfg_nodeID c2
  | f_raft_addr => cfg_raftAddr c1 = cfg_raftAddr c2
  | f_kv_addr => cfg_kvAddr c1 = cfg_kvAddr c2
  | f_metrics_addr => cfg_metricsAddr c1 = cfg_metricsAddr c2
  | f_health_addr => cfg_healthAddr c1 = cfg_healthAddr c2
  | f_data_dir => cfg_dataDir c1 = cfg_dataDir c2
  | f_peers => cfg_peers c1 = cfg_peers c2
  | f_workers => cfg_workers c1 = cfg_workers c2
  | f_heartbeat => cfg_heartbeat c1 = cfg_heartbeat c2
  | f_election => cfg_election c1 = cfg_election c2
  | f_log_level => cfg_logLevel c1 = cfg_logLevel c2
  | f_tls_ca => cfg_tlsCA c1 = cfg_tlsCA c2
  | f_tls_cert => cfg_tlsCert c1 = cfg_tlsCert c2
  | f_tls_key => cfg_tlsKey c1 = cfg_tlsKey c2
  end.

#[local] Instance same_equivalence f : Equivalence (same f).
Proof. destruct f; split; unfold same, Reflexive, Symmetric, Transitive; congruence. Qed.

Lemma same_all c1 c2 : (forall f, same f c1 c2) -> c1 = c2.
Proof.
  intros Hs. pose proof (fun f => Hs f) as Hf. destruct c1, c2.
  pose proof (Hf f_id); pose proof (Hf f_raft_addr); pose proof (Hf f_kv_addr); pose proof (Hf f_metrics_addr);
  pose proof (Hf f_health_addr); pose proof (Hf f_data_dir); pose proof (Hf f_peers); pose proof (Hf f_workers);
  pose proof (Hf f_heartbeat); pose proof (Hf f_election); pose proof (Hf f_log_level); pose proof (Hf f_tls_ca);
  pose proof (Hf f_tls_cert); pose proof (Hf f_tls_key). clear Hs Hf. cbn in *. by subst.
Qed.

(** [Set] changes its flag alone. *)
Lemma flag_Set_frame f value c g : g ≠ f -> same g (fst (flag_Set f value c)) c.
Proof.
  intros Hne. destruct c. destruct f; cbn [flag_Set]; try (destruct (peerFlag_Set _ _)); try (destruct (workerFlag_Set _ _));
    try (destruct (ParseDuration _)); cbn [fst]; destruct g; done.
Qed.

(** What every configuration from a command line has, and what its validation adds. *)
Definition typed (c : config) : Prop :=
  map_Forall peer_ok (cfg_peers c) /\ Forall worker_ok (cfg_workers c) /\
  (cfg_heartbeat c < 2 ^ 63)%Z /\ (cfg_election c < 2 ^ 63)%Z.

Lemma flag_Set_typed f value c c' : typed c -> flag_Set f value c = (c', None) -> typed c'.
Proof.
  intros (Hp & Hw & Hh & He) E. unfold typed. destruct c. cbn in *. destruct f; try (simplify_eq; cbn; done).
  - destruct (peerFlag_Set value _) as [p e] eqn:Ep. simplify_eq. cbn. apply peerFlag_Set_ok in Ep; [|done]. done.
  - destruct (workerFlag_Set value _) as [w e] eqn:Ew. simplify_eq. cbn. apply workerFlag_Set_ok in Ew; [|done]. done.
  - destruct (ParseDuration value) eqn:Ed; simplify_eq. cbn. by apply ParseDuration_bound in Ed.
  - destruct (ParseDuration value) eqn:Ed; simplify_eq. cbn. by apply ParseDuration_bound in Ed.
Qed.

Lemma formal_flags_Some name set : formal_flags name = Some set -> exists f, set = flag_Set f.
Proof. unfold formal_flags. destruct (find_flag _ _) as [f|]; [|done]. intros [= <-]. by exists f. Qed.

Lemma flag_Parse_typed n args c c' rest :
  length args <= n -> typed c -> flag_Parse formal_flags args c = Parsed c' rest -> typed c'.
Proof.
  revert args c. induction n as [|n IH]; intros args c Hn Hc E; (destruct args as [|s args]; [by simplify_eq/=|]); cbn in Hn; [lia|].
  cbn [flag_Parse] in E. destruct (flag_syntax s) as [| | |name value]; try by simplify_eq.
  destruct (formal_flags name) as [set|] eqn:Ef; [|done]. apply formal_flags_Some in Ef as [f ->].
  unfold set_flag in E. destruct value as [value|]; [|destruct args as [|value args]; [done|cbn in Hn]].
  all: destruct (flag_Set f value c) as [c1 [e|]] eqn:Es; [done|]; apply flag_Set_typed in Es; [|done];
    eapply (IH args c1); [lia|done|exact E].
Qed.

Lemma find_flag_name f : find_flag all_flags (string_bytes (flag_name f)) = Some f.
Proof. by destruct f. Qed.

(** The arguments of a flag are read back as the flag and its value. *)
Lemma flag_Parse_flag order cfg f args c :
  flag_Parse formal_flags (print_flag order cfg f ++ args) c =
  set_flag (flag_Set (fst f)) (print_value order cfg (fst f)) (flag_Parse formal_flags args) c.
Proof.
  destruct f as [f one]. unfold print_flag. cbn [fst snd].
  assert (equals ∉ string_bytes (flag_name f)) as Heq by (destruct f; apply (bool_decide_unpack _); vm_compute; exact I).
  assert (exists c0 s, string_bytes (flag_name f) = c0 :: s /\ Byte.eqb c0 x2d = false /\ Byte.eqb c0 equals = false)
    as (c0 & s & Hs & H1 & H2) by (destruct f; eexists _, _; split_and!; reflexivity).
  assert (formal_flags (string_bytes (flag_name f)) = Some (flag_Set f)) as Hf.
  { unfold formal_flags. by rewrite find_flag_name. }
  assert (cut equals (string_bytes (flag_name f)) = None) as Hcut by (destruct f; reflexivity).
  destruct one; cbn [app flag_Parse flag_syntax]; rewrite ?eqb_eq; cbn [negb].
  - rewrite Hs in Hf, Heq |- *. cbn [app]. rewrite H1, H2. cbn [orb].
    change (c0 :: s ++ equals :: ?v) with ((c0 :: s) ++ equals :: v). rewrite cut_app by done.
    cbv beta iota. by rewrite Hf.
  - rewrite Hs in Hf, Hcut |- *. rewrite H1, H2. cbn [orb]. rewrite Hcut.
    cbv beta iota. by rewrite Hf.
Qed.

Lemma flag_Set_print order cfg f c :
  typed cfg -> order ≡ₚ map_to_list (cfg_peers cfg) -> cfg_workers cfg ≠ [] ->
  (0 < cfg_heartbeat cfg)%Z -> (0 < cfg_election cfg)%Z -> same f c defaultConfig ->
  exists c', flag_Set f (print_value order cfg f) c = (c', None) /\ same f c' cfg.
Proof.
  intros (Hp & Hw & Hh & He) Ho Hnw Hh0 He0 Hd. destruct c.
  destruct f; cbn [flag_Set print_value]; rewrite ?String.string_of_list_byte_of_string; cbn in Hd;
    try (eexists; split; [reflexivity|reflexivity]).
  - subst. rewrite (peerFlag_Set_print _ _ Hp Ho). by eexists.
  - subst. rewrite (workerFlag_Set_print _ Hw Hnw). by eexists.
  - rewrite ParseDuration_print by lia. by eexists.
  - rewrite ParseDuration_print by lia. by eexists.
Qed.

Lemma flag_Parse_print order cfg fs c :
  typed cfg -> order ≡ₚ map_to_list (cfg_peers cfg) -> cfg_workers cfg ≠ [] ->
  (0 < cfg_heartbeat cfg)%Z -> (0 < cfg_election cfg)%Z ->
  NoDup (map fst fs) ->
  (forall f, f ∈ map fst fs -> same f c defaultConfig) -> (forall f, f ∉ map fst fs -> same f c cfg) ->
  flag_Parse formal_flags (print_config order cfg fs) c = Parsed cfg [].
Proof.
  intros Ht Ho Hw Hh He. unfold print_config. revert c. induction fs as [|f fs IH]; intros c Hnd Hin Hout.
  { cbn. f_equal. apply same_all. intros f. apply Hout. apply not_elem_of_nil. }
  cbn [map concat] in *. apply NoDup_cons in Hnd as [Hf Hnd]. rewrite flag_Parse_flag. unfold set_flag.
  destruct (flag_Set_print order cfg (fst f) c) as (c' & E & Hs); [done..|apply Hin; by left|]. rewrite E.
  assert (forall g, g ≠ fst f -> same g c' c) as Hframe.
  { intros g Hg. change c' with (fst (c', @None error)). rewrite <- E. by apply flag_Set_frame. }
  apply IH; [done| |].
  - intros g Hg. rewrite (Hframe g) by (intros ->; done). apply Hin. by right.
  - intros g Hg. destruct (decide (g = fst f)) as [->|Hne]; [done|]. rewrite (Hframe g Hne). apply Hout.
    rewrite not_elem_of_cons. done.
Qed.

Lemma validated cfg :
  validateConfig cfg = None -> (0 < cfg_heartbeat cfg)%Z /\ (0 < cfg_election cfg)%Z /\ cfg_workers cfg ≠ [].
Proof.
  unfold validateConfig. cbn [first_error]. destruct (validateIdentity cfg); [done|].
  destruct (validateTiming cfg) eqn:Et; [done|]. destruct (validateAddresses cfg); [done|].
  destruct (validateDataDir cfg); [done|]. destruct (validateLogLevel cfg); [done|]. destruct (validateTLS cfg); [done|].
  unfold validateCluster. case_bool_decide; [done|]. case_bool_decide as Hw; [done|]. intros _.
  unfold validateTiming in Et. repeat case_match; try done. rewrite Z.leb_gt in *. done.
Qed.

Lemma all_flags_spec f : f ∈ all_flags.
Proof. destruct f; apply (bool_decide_unpack _); vm_compute; exact I. Qed.

(** C38: the configuration of a node can be written as a command line again.  When
    [parseConfig] accepts a command line, the flags with the values of the resulting
    configuration, in any order, each as one argument or as two, the durations in
    nanoseconds and the peers in any order, are a command line that [parseConfig] accepts
    with the same configuration; the peers and workers in it are non-empty, trimmed and
    free of separators. *)
Theorem command_line_roundtrip args cfg order fs :
  parseConfig args defaultConfig = ConfigParsed cfg None ->
  order ≡ₚ map_to_list (cfg_peers cfg) -> map fst fs ≡ₚ all_flags ->
  parseConfig (print_config order cfg fs) defaultConfig = ConfigParsed cfg None /\ typed cfg.
Proof.
  intros E Ho Hfs. unfold parseConfig in E. destruct (flag_Parse _ args _) as [c rest|] eqn:Ep; [|done].
  injection E as -> Hv. assert (typed cfg) as Ht.
  { eapply flag_Parse_typed; [reflexivity| |exact Ep]. split_and!; [apply map_Forall_empty|constructor|done|done]. }
  split; [|done]. destruct (validated cfg Hv) as (Hh & He & Hw). unfold parseConfig.
  rewrite flag_Parse_print; [by rewrite Hv|done..| | |].
  - rewrite Hfs. apply (bool_decide_unpack _). vm_compute. exact I.
  - done.
  - intros f Hf. destruct Hf. rewrite Hfs. apply all_flags_spec.
Qed.

(** ** Witness *)

Definition sample_args : list bytes :=
  map string_bytes ["-id"; "n1"; "--peers= n1=a:1 ,, n2 = b:2=3"; "-workers"; "w1, w2"; "-election=1.5s";
    "--tls-ca=ca"; "-tls-cert"; "cert"; "-tls-key=key"; "--peers"; "n3=c:1"; "--"; "-id=n2"].

Lemma command_line_roundtrip_witness :
  exists cfg, parseConfig sample_args defaultConfig = ConfigParsed cfg None /\ cfg_election cfg = 1500000000%Z /\
    parseConfig (print_config (rev (map_to_list (cfg_peers cfg))) cfg (map (fun f => (f, false)) (rev all_flags)))
      defaultConfig = ConfigParsed cfg None.
Proof.
  destruct (parseConfig sample_args defaultConfig) as [cfg e|] eqn:E.
  2: { exfalso. revert E. vm_compute. discriminate. }
  assert (e = None) as ->.
  { assert (match parseConfig sample_args defaultConfig with ConfigParsed _ e => e | _ => None end = None) as Hn
      by (vm_compute; reflexivity). by rewrite E in Hn. }
  exists cfg. split; [reflexivity|]. split.
  { assert (match parseConfig sample_args defaultConfig with ConfigParsed c _ => cfg_election c | _ => 0%Z end
      = 1500000000%Z) as Hn by (vm_compute; reflexivity). by rewrite E in Hn. }
  refine (proj1 (command_line_roundtrip sample_args cfg _ _ E (symmetry (Permutation_rev _)) _)).
  rewrite map_map. cbn [fst]. rewrite map_id. symmetry. apply Permutation_rev.
Defined.
