(* ===== verification/Logging.v ===== *)
(** Loggers: [internal/observability/logging.go] and [component.go].

    A [slog.Logger] is its handler with the attributes added to it; what the package
    [log/slog] does with them is [emits]: a record reaches the output when its level is not
    below the level of the handler, with the attributes of the logger in front of its own. *)

From S2P Require Import Prelude Model Bytes Config CommandLine.

Inductive LogFormat := LogFormatJSON | LogFormatText | LogFormatOther (name : string).

(** A writer, or nil. *)
Inductive writer := Stderr | Discard | Writer (name : string).

Record LoggingConfig := mkLoggingConfig {
  lc_Level : slog_Level;
  lc_Format : LogFormat;
  lc_Output : option writer;
}.

Record handler := mkHandler { h_json : bool; h_output : writer; h_level : slog_Level }.
Record Logger := mkLogger { lg_handler : handler; lg_attrs : list (string * string) }.

Definition With (attr : string * string) (logger : Logger) : Logger := mkLogger (lg_handler logger) (lg_attrs logger ++ [attr]).

Definition NewLogger (config : LoggingConfig) : Logger :=
  let output := default Stderr (lc_Output config) in
  match lc_Format config with
  | LogFormatText => mkLogger (mkHandler false output (lc_Level config)) []
  | _ => mkLogger (mkHandler true output (lc_Level config)) []
  end.

Definition NewProductionLogger (output : option writer) : Logger := NewLogger (mkLoggingConfig LevelInfo LogFormatJSON output).
Definition NewDevelopmentLogger (output : option writer) : Logger := NewLogger (mkLoggingConfig LevelDebug LogFormatText output).

(** The handler for which options are nil has the level Info. *)
Definition discardLogger : Logger := mkLogger (mkHandler false Discard LevelInfo) [].

Definition ComponentLogger (logger : option Logger) (component : string) : Logger :=
  let logger := default discardLogger logger in
  if bool_decide (component = "") then logger else With ("component", component) logger.

Definition NodeLogger (logger : option Logger) (component nodeID : string) : Logger :=
  let logger := ComponentLogger logger component in
  if bool_decide (nodeID = "") then logger else With ("node_id", nodeID) logger.

(** ** What is written *)

Definition level_number (l : slog_Level) : Z :=
  match l with LevelDebug => -4 | LevelInfo => 0 | LevelWarn => 4 | LevelError => 8 end.

(** The writer that gets the record, its form and its attributes. *)
Definition emits (logger : Logger) (level : slog_Level) (attrs : list (string * string))
    : option (writer * bool * list (string * string)) :=
  if (level_number (h_level (lg_handler logger)) <=? level_number level)%Z
  then Some (h_output (lg_handler logger), h_json (lg_handler logger), lg_attrs logger ++ attrs)
  else None.

(** A logger made for a component of a node writes to the same output, the same levels and in the
    same form as the one it is made from, and names the component and the node once; a missing
    logger writes nothing anyone sees. *)
Lemma NodeLogger_emits logger component nodeID level attrs :
  emits (NodeLogger logger component nodeID) level attrs =
  emits (default discardLogger logger) level
    ((if bool_decide (component = "") then [] else [("component", component)]) ++
     (if bool_decide (nodeID = "") then [] else [("node_id", nodeID)]) ++ attrs).
Proof.
  unfold NodeLogger, ComponentLogger, emits. destruct (default discardLogger logger) as [h l].
  repeat case_bool_decide; cbn; destruct (_ <=? _)%Z; try done; by rewrite <- ?app_assoc.
Qed.
