(* ===== verification/Metrics.v ===== *)
(** Metrics: [internal/observability] (metrics*.go and the adapters), the metrics
    interfaces of the packages that use them, and [updateStateMetricsLocked].

    The Prometheus client is a parameter: the class [Prometheus] has the operations the
    code calls and [PrometheusLaws] what its documentation says of them.  A method that
    would panic (a nil vector, a wrong number of label values, a label value that is not
    UTF-8, a name registered twice) yields [None].  The struct [Metrics] has 32 fields of pointers to vectors: it is a
    function from [field], the names of its fields, to a vector or nil.  The adapters
    share one [Metrics]; it is passed along.

    Integers become float64 ([float64_of]); durations are observed as they are, their
    conversion to seconds is left out. *)

From S2P Require Import Prelude Float64 Model RaftLog Storage Node Bytes Utf8 JsonCodec.

(** ** The Prometheus client *)

Inductive update :=
| Touch                (** [WithLabelValues] alone *)
| SetTo (x : N)
| Inc
| Observe (d : Z).

Class Prometheus (V R : Type) := {
  newVec : string -> list string -> V;
  vec_name : V -> string;
  vec_labels : V -> list string;
  vec_update : list string -> update -> V -> option V;
  vec_value : V -> list string -> option N;
  vec_samples : V -> list string -> list Z;
  mustRegister : V -> R -> option R;
  registered : R -> gset string;
}.

Definition next_value (u : update) (old : option N) : option N :=
  match u with
  | Touch | Observe _ => Some (default 0%N old)
  | SetTo x => Some x
  | Inc => Some (default 0 old + 1)%N
  end.

Definition next_samples (u : update) (old : list Z) : list Z :=
  match u with Observe d => old ++ [d] | _ => old end.

(** Documented: a vector has the name and labels it was made with and no children;
    [WithLabelValues] panics when the number of values is not that of the labels or one of
    them is not UTF-8; a child is changed by the update alone; [MustRegister] panics when the name is taken. *)
Class PrometheusLaws (V R : Type) `{Prometheus V R} := {
  newVec_name n ls : vec_name (newVec n ls) = n;
  newVec_labels n ls : vec_labels (newVec n ls) = ls;
  newVec_value n ls vs : vec_value (newVec n ls) vs = None /\ vec_samples (newVec n ls) vs = [];
  update_panics vs u v : length vs ≠ length (vec_labels v) \/ ~ Forall text vs -> vec_update vs u v = None;
  update_ok vs u v : length vs = length (vec_labels v) -> Forall text vs ->
    exists v', vec_update vs u v = Some v' /\ vec_name v' = vec_name v /\ vec_labels v' = vec_labels v /\
      forall vs',
        vec_value v' vs' = (if decide (vs' = vs) then next_value u (vec_value v vs) else vec_value v vs') /\
        vec_samples v' vs' = (if decide (vs' = vs) then next_samples u (vec_samples v vs) else vec_samples v vs');
  register_taken v r : vec_name v ∈ registered r -> mustRegister v r = None;
  register_new v r : vec_name v ∉ registered r ->
    exists r', mustRegister v r = Some r' /\ registered r' = {[vec_name v]} ∪ registered r;
}.

(** ** The metrics *)

Inductive field :=
| CurrentTerm | RoleVec | CommitIndexVec | LastAppliedVec | LastLogIndex | LogSize
| ElectionsTotal | ElectionDuration | LeaderChangesTotal | VoteRequestsTotal | VotesGrantedTotal
| AppendEntriesTotal | AppendEntriesFailures | AppendEntriesDuration
| SnapshotsCreatedTotal | SnapshotsInstalledTotal
| RPCRequestsTotal | RPCErrorsTotal | RPCDuration
| StorageOperationsTotal | StorageOperationErrors | StorageOperationDuration
| StorageSyncTotal | StorageSyncErrors | StorageSyncDuration
| KVOperationsTotal | KVOperationErrors
| ScheduledJobsTotal | ExecutedJobsTotal | JobExecutionFailures | LeaseAcquisitionsTotal | LeaseLossesTotal.

(** The order of the call of [MustRegister]. *)
Definition fields : list field :=
  [CurrentTerm; RoleVec; CommitIndexVec; LastAppliedVec; LastLogIndex; LogSize;
   ElectionsTotal; ElectionDuration; LeaderChangesTotal; VoteRequestsTotal; VotesGrantedTotal;
   AppendEntriesTotal; AppendEntriesFailures; AppendEntriesDuration;
   SnapshotsCreatedTotal; SnapshotsInstalledTotal;
   RPCRequestsTotal; RPCErrorsTotal; RPCDuration;
   StorageOperationsTotal; StorageOperationErrors; StorageOperationDuration;
   StorageSyncTotal; StorageSyncErrors; StorageSyncDuration;
   KVOperationsTotal; KVOperationErrors;
   ScheduledJobsTotal; ExecutedJobsTotal; JobExecutionFailures; LeaseAcquisitionsTotal; LeaseLossesTotal].

Definition field_index (f : field) : nat :=
  match f with
  | CurrentTerm => 0 | RoleVec => 1 | CommitIndexVec => 2 | LastAppliedVec => 3
  | LastLogIndex => 4 | LogSize => 5 | ElectionsTotal => 6 | ElectionDuration => 7
  | LeaderChangesTotal => 8 | VoteRequestsTotal => 9 | VotesGrantedTotal => 10 | AppendEntriesTotal => 11
  | AppendEntriesFailures => 12 | AppendEntriesDuration => 13 | SnapshotsCreatedTotal => 14 | SnapshotsInstalledTotal => 15
  | RPCRequestsTotal => 16 | RPCErrorsTotal => 17 | RPCDuration => 18 | StorageOperationsTotal => 19
  | StorageOperationErrors => 20 | StorageOperationDuration => 21 | StorageSyncTotal => 22 | StorageSyncErrors => 23
  | StorageSyncDuration => 24 | KVOperationsTotal => 25 | KVOperationErrors => 26 | ScheduledJobsTotal => 27
  | ExecutedJobsTotal => 28 | JobExecutionFailures => 29 | LeaseAcquisitionsTotal => 30 | LeaseLossesTotal => 31
  end.

#[global] Instance field_index_inj : Inj (=) (=) field_index.
Proof.
  assert (forall f, fields !! field_index f = Some f) as Hf by (by intros []).
  intros f g E. apply (inj Some). by rewrite <- (Hf f), <- (Hf g), E.
Qed.

#[global] Instance field_eq_dec : EqDecision field.
Proof.
  refine (fun f g => match decide (field_index f = field_index g) with left E => left _ | right E => right _ end).
  - by apply (inj field_index).
  - by intros ->.
Defined.

Section Metrics.
Context {V R : Type} `{Prometheus V R}.

Record Metrics := mkMetrics {
  m_nodeID : string;
  m_vec : field -> option V;
}.

Definition set_vec (f : field) (v : V) (m : Metrics) : Metrics :=
  let (nodeID, vecs) := m in mkMetrics nodeID (fun g => if decide (g = f) then Some v else vecs g).

(** The namespace is raftiq throughout. *)
Definition vec (subsystem name : string) (labels : list string) : V :=
  newVec ("raftiq_" +:+ subsystem +:+ "_" +:+ name) labels.

(** [m.F.WithLabelValues(vs...)] and the update of the child. *)
Definition with_labels (f : field) (vs : list string) (u : update) (m : Metrics) : option Metrics :=
  v ← m_vec m f; v' ← vec_update vs u v; Some (set_vec f v' m).

Definition initRaftState (m : Metrics) : Metrics :=
  set_vec LogSize (vec "raft" "log_size" ["node_id"])
  (set_vec LastLogIndex (vec "raft" "last_log_index" ["node_id"])
  (set_vec LastAppliedVec (vec "raft" "last_applied" ["node_id"])
  (set_vec CommitIndexVec (vec "raft" "commit_index" ["node_id"])
  (set_vec RoleVec (vec "raft" "role" ["node_id"; "role"])
  (set_vec CurrentTerm (vec "raft" "current_term" ["node_id"]) m))))).

Definition initRaftElection (m : Metrics) : Metrics :=
  set_vec VotesGrantedTotal (vec "raft" "votes_granted_total" ["node_id"])
  (set_vec VoteRequestsTotal (vec "raft" "vote_requests_total" ["node_id"])
  (set_vec LeaderChangesTotal (vec "raft" "leader_changes_total" ["node_id"])
  (set_vec ElectionDuration (vec "raft" "election_duration_seconds" ["node_id"; "result"])
  (set_vec ElectionsTotal (vec "raft" "elections_total" ["node_id"]) m)))).

Definition initRaftReplication (m : Metrics) : Metrics :=
  set_vec AppendEntriesDuration (vec "raft" "append_entries_duration_seconds" ["node_id"; "peer_id"])
  (set_vec AppendEntriesFailures (vec "raft" "append_entries_failures_total" ["node_id"; "peer_id"])
  (set_vec AppendEntriesTotal (vec "raft" "append_entries_total" ["node_id"; "peer_id"; "result"]) m)).

Definition initRaftSnapshot (m : Metrics) : option Metrics :=
  let m :=
    set_vec SnapshotsInstalledTotal (vec "raft" "snapshots_installed_total" ["node_id"])
    (set_vec SnapshotsCreatedTotal (vec "raft" "snapshots_created_total" ["node_id"]) m) in
  m ← with_labels SnapshotsCreatedTotal [m_nodeID m] Touch m;
  with_labels SnapshotsInstalledTotal [m_nodeID m] Touch m.

Definition initRPC (m : Metrics) : Metrics :=
  set_vec RPCDuration (vec "rpc" "duration_seconds" ["method"])
  (set_vec RPCErrorsTotal (vec "rpc" "errors_total" ["method"])
  (set_vec RPCRequestsTotal (vec "rpc" "requests_total" ["method"]) m)).

Definition initStorage (m : Metrics) : Metrics :=
  set_vec StorageSyncDuration (vec "storage" "sync_duration_seconds" ["node_id"])
  (set_vec StorageSyncErrors (vec "storage" "sync_errors_total" ["node_id"])
  (set_vec StorageSyncTotal (vec "storage" "sync_total" ["node_id"])
  (set_vec StorageOperationDuration (vec "storage" "operation_duration_seconds" ["operation"])
  (set_vec StorageOperationErrors (vec "storage" "operation_errors_total" ["operation"])
  (set_vec StorageOperationsTotal (vec "storage" "operations_total" ["operation"]) m))))).

Definition initKV (m : Metrics) : Metrics :=
  set_vec KVOperationErrors (vec "kv" "operation_errors_total" ["operation"])
  (set_vec KVOperationsTotal (vec "kv" "operations_total" ["operation"]) m).

Definition initScheduler (m : Metrics) : Metrics :=
  set_vec LeaseLossesTotal (vec "scheduler" "lease_losses_total" ["node_id"])
  (set_vec LeaseAcquisitionsTotal (vec "scheduler" "lease_acquisitions_total" ["node_id"])
  (set_vec JobExecutionFailures (vec "scheduler" "job_execution_failures_total" ["node_id"])
  (set_vec ExecutedJobsTotal (vec "scheduler" "executed_jobs_total" ["node_id"])
  (set_vec ScheduledJobsTotal (vec "scheduler" "scheduled_jobs_total" ["node_id"]) m)))).

Fixpoint registerAll (fs : list field) (m : Metrics) (r : R) : option R :=
  match fs with
  | [] => Some r
  | f :: fs => v ← m_vec m f; r ← mustRegister v r; registerAll fs m r
  end.

Definition NewMetrics (registerer : R) (nodeID : string) : option (R * Metrics) :=
  let metrics := mkMetrics nodeID (fun _ => None) in
  let metrics := initRaftReplication (initRaftElection (initRaftState metrics)) in
  metrics ← initRaftSnapshot metrics;
  let metrics := initScheduler (initKV (initStorage (initRPC metrics))) in
  r ← registerAll fields metrics registerer;
  Some (r, metrics).

Definition roleLabel (role : Role) : string :=
  match role with
  | Follower => "follower"
  | Candidate => "candidate"
  | Leader => "leader"
  end.

(** The loop of [SetRole], under the label [nodeID]. *)
Fixpoint setRoles (roles : list Role) (nodeID : string) (role : Role) (m : Metrics) : option Metrics :=
  match roles with
  | [] => Some m
  | candidate :: roles =>
      let value := if decide (candidate = role) then 1%N else 0%N in
      m ← with_labels RoleVec [nodeID; roleLabel candidate] (SetTo value) m;
      setRoles roles nodeID role m
  end.

(** *** The methods of [Metrics] *)

Definition m_SetCurrentTerm (term : Term) (m : Metrics) : option Metrics :=
  with_labels CurrentTerm [m_nodeID m] (SetTo (float64_of term)) m.
Definition m_SetRole (role : Role) (m : Metrics) : option Metrics :=
  setRoles [Follower; Candidate; Leader] (m_nodeID m) role m.
Definition m_SetCommitIndex (index : LogIndex) (m : Metrics) : option Metrics :=
  with_labels CommitIndexVec [m_nodeID m] (SetTo (float64_of index)) m.
Definition m_SetLastApplied (index : LogIndex) (m : Metrics) : option Metrics :=
  with_labels LastAppliedVec [m_nodeID m] (SetTo (float64_of index)) m.
Definition m_SetLastLogIndex (index : LogIndex) (m : Metrics) : option Metrics :=
  with_labels LastLogIndex [m_nodeID m] (SetTo (float64_of index)) m.
Definition m_SetLogSize (size : nat) (m : Metrics) : option Metrics :=
  with_labels LogSize [m_nodeID m] (SetTo (float64_of (N.of_nat size))) m.
Definition m_IncElections (m : Metrics) : option Metrics :=
  with_labels ElectionsTotal [m_nodeID m] Inc m.
Definition m_ObserveElectionDuration (duration : Z) (result : string) (m : Metrics) : option Metrics :=
  with_labels ElectionDuration [m_nodeID m; result] (Observe duration) m.
Definition m_IncLeaderChanges (m : Metrics) : option Metrics :=
  with_labels LeaderChangesTotal [m_nodeID m] Inc m.
Definition m_IncVoteRequests (m : Metrics) : option Metrics :=
  with_labels VoteRequestsTotal [m_nodeID m] Inc m.
Definition m_IncVotesGranted (m : Metrics) : option Metrics :=
  with_labels VotesGrantedTotal [m_nodeID m] Inc m.
Definition m_IncAppendEntries (peerID : NodeID) (result : string) (m : Metrics) : option Metrics :=
  with_labels AppendEntriesTotal [m_nodeID m; peerID; result] Inc m.
Definition m_IncAppendEntriesFailures (peerID : NodeID) (m : Metrics) : option Metrics :=
  with_labels AppendEntriesFailures [m_nodeID m; peerID] Inc m.
Definition m_ObserveAppendEntriesDuration (peerID : NodeID) (duration : Z) (m : Metrics) : option Metrics :=
  with_labels AppendEntriesDuration [m_nodeID m; peerID] (Observe duration) m.
Definition m_IncSnapshotsCreated (m : Metrics) : option Metrics :=
  with_labels SnapshotsCreatedTotal [m_nodeID m] Inc m.
Definition m_IncSnapshotsInstalled (m : Metrics) : option Metrics :=
  with_labels SnapshotsInstalledTotal [m_nodeID m] Inc m.
Definition m_IncRPCRequest (method : string) (m : Metrics) : option Metrics :=
  with_labels RPCRequestsTotal [method] Inc m.
Definition m_IncRPCError (method : string) (m : Metrics) : option Metrics :=
  with_labels RPCErrorsTotal [method] Inc m.
Definition m_ObserveRPCDuration (method : string) (duration : Z) (m : Metrics) : option Metrics :=
  with_labels RPCDuration [method] (Observe duration) m.
Definition m_IncOperation (operation : string) (m : Metrics) : option Metrics :=
  with_labels StorageOperationsTotal [operation] Inc m.
Definition m_IncOperationError (operation : string) (m : Metrics) : option Metrics :=
  with_labels StorageOperationErrors [operation] Inc m.
Definition m_ObserveOperationDuration (operation : string) (duration : Z) (m : Metrics) : option Metrics :=
  with_labels StorageOperationDuration [operation] (Observe duration) m.
Definition m_IncSync (m : Metrics) : option Metrics :=
  with_labels StorageSyncTotal [m_nodeID m] Inc m.
Definition m_IncSyncError (m : Metrics) : option Metrics :=
  with_labels StorageSyncErrors [m_nodeID m] Inc m.
Definition m_ObserveSyncDuration (duration : Z) (m : Metrics) : option Metrics :=
  with_labels StorageSyncDuration [m_nodeID m] (Observe duration) m.

(** *** The adapters *)

(** An adapter is its node ID; [None] from its constructor is a panic. *)
Definition RaftMetrics : Type := string.
Definition NewRaftMetrics (nodeID : string) (metrics : option Metrics) : option RaftMetrics :=
  if bool_decide (nodeID = "") then None else _ ← metrics; Some nodeID.

Definition rm_SetCurrentTerm (a : RaftMetrics) (term : Term) (m : Metrics) : option Metrics :=
  with_labels CurrentTerm [a] (SetTo (float64_of term)) m.
Definition rm_SetRole (a : RaftMetrics) (role : Role) (m : Metrics) : option Metrics :=
  setRoles [Follower; Candidate; Leader] a role m.
Definition rm_SetCommitIndex (a : RaftMetrics) (index : LogIndex) (m : Metrics) : option Metrics :=
  with_labels CommitIndexVec [a] (SetTo (float64_of index)) m.
Definition rm_SetLastApplied (a : RaftMetrics) (index : LogIndex) (m : Metrics) : option Metrics :=
  with_labels LastAppliedVec [a] (SetTo (float64_of index)) m.
Definition rm_SetLastLogIndex (a : RaftMetrics) (index : LogIndex) (m : Metrics) : option Metrics :=
  with_labels LastLogIndex [a] (SetTo (float64_of index)) m.
Definition rm_SetLogSize (a : RaftMetrics) (size : nat) (m : Metrics) : option Metrics :=
  with_labels LogSize [a] (SetTo (float64_of (N.of_nat size))) m.
Definition rm_IncElections (a : RaftMetrics) (m : Metrics) : option Metrics :=
  with_labels ElectionsTotal [a] Inc m.
Definition rm_ObserveElectionDuration (a : RaftMetrics) (duration : Z) (result : string) (m : Metrics)
    : option Metrics :=
  with_labels ElectionDuration [a; result] (Observe duration) m.
Definition rm_IncLeaderChanges (a : RaftMetrics) (m : Metrics) : option Metrics :=
  with_labels LeaderChangesTotal [a] Inc m.
Definition rm_IncVoteRequests (a : RaftMetrics) (m : Metrics) : option Metrics :=
  with_labels VoteRequestsTotal [a] Inc m.
Definition rm_IncVotesGranted (a : RaftMetrics) (m : Metrics) : option Metrics :=
  with_labels VotesGrantedTotal [a] Inc m.
Definition rm_IncAppendEntries (a : RaftMetrics) (peerID : NodeID) (result : string) (m : Metrics)
    : option Metrics :=
  with_labels AppendEntriesTotal [a; peerID; result] Inc m.
Definition rm_IncAppendEntriesFailures (a : RaftMetrics) (peerID : NodeID) (m : Metrics) : option Metrics :=
  with_labels AppendEntriesFailures [a; peerID] Inc m.
Definition rm_ObserveAppendEntriesDuration (a : RaftMetrics) (peerID : NodeID) (duration : Z) (m : Metrics)
    : option Metrics :=
  with_labels AppendEntriesDuration [a; peerID] (Observe duration) m.
Definition rm_IncSnapshotsCreated (a : RaftMetrics) (m : Metrics) : option Metrics :=
  with_labels SnapshotsCreatedTotal [a] Inc m.
Definition rm_IncSnapshotsInstalled (a : RaftMetrics) (m : Metrics) : option Metrics :=
  with_labels SnapshotsInstalledTotal [a] Inc m.

Definition StorageMetrics : Type := string.
Definition NewStorageMetrics (nodeID : string) (metrics : option Metrics) : option StorageMetrics :=
  _ ← metrics; if bool_decide (nodeID = "") then None else Some nodeID.
Definition sm_IncOperation (a : StorageMetrics) (operation : string) (m : Metrics) : option Metrics :=
  with_labels StorageOperationsTotal [operation] Inc m.
Definition sm_IncOperationError (a : StorageMetrics) (operation : string) (m : Metrics) : option Metrics :=
  with_labels StorageOperationErrors [operation] Inc m.
Definition sm_ObserveOperationDuration (a : StorageMetrics) (operation : string) (duration : Z) (m : Metrics)
    : option Metrics :=
  with_labels StorageOperationDuration [operation] (Observe duration) m.
Definition sm_IncSync (a : StorageMetrics) (m : Metrics) : option Metrics :=
  with_labels StorageSyncTotal [a] Inc m.
Definition sm_IncSyncError (a : StorageMetrics) (m : Metrics) : option Metrics :=
  with_labels StorageSyncErrors [a] Inc m.
Definition sm_ObserveSyncDuration (a : StorageMetrics) (duration : Z) (m : Metrics) : option Metrics :=
  with_labels StorageSyncDuration [a] (Observe duration) m.

Definition NewKVMetrics (metrics : option Metrics) : option unit := _ ← metrics; Some ().
Definition km_IncOperation (operation : string) (m : Metrics) : option Metrics :=
  with_labels KVOperationsTotal [operation] Inc m.
Definition km_IncOperationError (operation : string) (m : Metrics) : option Metrics :=
  with_labels KVOperationErrors [operation] Inc m.

Definition SchedulerMetrics : Type := string.
Definition NewSchedulerMetrics (nodeID : string) (metrics : option Metrics) : option SchedulerMetrics :=
  if bool_decide (nodeID = "") then None else _ ← metrics; Some nodeID.
Definition scm_IncScheduledJobs (a : SchedulerMetrics) (m : Metrics) : option Metrics :=
  with_labels ScheduledJobsTotal [a] Inc m.
Definition scm_IncLeaseAcquisitions (a : SchedulerMetrics) (m : Metrics) : option Metrics :=
  with_labels LeaseAcquisitionsTotal [a] Inc m.
Definition scm_IncLeaseLosses (a : SchedulerMetrics) (m : Metrics) : option Metrics :=
  with_labels LeaseLossesTotal [a] Inc m.

Definition obs_WorkerMetrics : Type := string.
Definition NewWorkerMetrics (nodeID : string) (metrics : option Metrics) : option obs_WorkerMetrics :=
  if bool_decide (nodeID = "") then None else _ ← metrics; Some nodeID.
Definition wm_IncExecutedJobs (a : obs_WorkerMetrics) (m : Metrics) : option Metrics :=
  with_labels ExecutedJobsTotal [a] Inc m.
Definition wm_IncJobExecutionFailures (a : obs_WorkerMetrics) (m : Metrics) : option Metrics :=
  with_labels JobExecutionFailures [a] Inc m.
Definition wm_IncLeaseLosses (a : obs_WorkerMetrics) (m : Metrics) : option Metrics :=
  with_labels LeaseLossesTotal [a] Inc m.

End Metrics.
Arguments Metrics V : clear implicits.

(** ** The interfaces of the users *)

(** The calls of [raft.Metrics]. *)
Inductive raft_call :=
| SetCurrentTerm (term : Term)
| SetRole (role : Role)
| SetCommitIndex (index : LogIndex)
| SetLastApplied (index : LogIndex)
| SetLastLogIndex (index : LogIndex)
| SetLogSize (size : nat)
| IncElections
| ObserveElectionDuration (duration : Z) (result : string)
| IncLeaderChanges
| IncVoteRequests
| IncVotesGranted
| IncAppendEntries (peerID : NodeID) (result : string)
| IncAppendEntriesFailures (peerID : NodeID)
| ObserveAppendEntriesDuration (peerID : NodeID) (duration : Z)
| IncSnapshotsCreated
| IncSnapshotsInstalled.

(** An implementation of [raft.Metrics] that acts on a state [M]. *)
Class RaftMetricsI (A M : Type) := metrics_call : A -> raft_call -> M -> option M.

(** The implementations: [NoopMetrics], [*Metrics] itself, and the adapter [RaftMetrics]. *)
Inductive NoopImpl := Noop.
Inductive SelfImpl := Self.

#[global] Instance NoopMetrics {M} : RaftMetricsI NoopImpl M := fun _ _ m => Some m.

#[global] Instance Metrics_raft {V R} `{Prometheus V R} : RaftMetricsI SelfImpl (Metrics V) := fun _ c =>
  match c with
  | SetCurrentTerm t => m_SetCurrentTerm t
  | SetRole role => m_SetRole role
  | SetCommitIndex i => m_SetCommitIndex i
  | SetLastApplied i => m_SetLastApplied i
  | SetLastLogIndex i => m_SetLastLogIndex i
  | SetLogSize k => m_SetLogSize k
  | IncElections => m_IncElections
  | ObserveElectionDuration d result => m_ObserveElectionDuration d result
  | IncLeaderChanges => m_IncLeaderChanges
  | IncVoteRequests => m_IncVoteRequests
  | IncVotesGranted => m_IncVotesGranted
  | IncAppendEntries p result => m_IncAppendEntries p result
  | IncAppendEntriesFailures p => m_IncAppendEntriesFailures p
  | ObserveAppendEntriesDuration p d => m_ObserveAppendEntriesDuration p d
  | IncSnapshotsCreated => m_IncSnapshotsCreated
  | IncSnapshotsInstalled => m_IncSnapshotsInstalled
  end.

#[global] Instance RaftMetrics_raft {V R} `{Prometheus V R} : RaftMetricsI RaftMetrics (Metrics V) := fun a c =>
  match c with
  | SetCurrentTerm t => rm_SetCurrentTerm a t
  | SetRole role => rm_SetRole a role
  | SetCommitIndex i => rm_SetCommitIndex a i
  | SetLastApplied i => rm_SetLastApplied a i
  | SetLastLogIndex i => rm_SetLastLogIndex a i
  | SetLogSize k => rm_SetLogSize a k
  | IncElections => rm_IncElections a
  | ObserveElectionDuration d result => rm_ObserveElectionDuration a d result
  | IncLeaderChanges => rm_IncLeaderChanges a
  | IncVoteRequests => rm_IncVoteRequests a
  | IncVotesGranted => rm_IncVotesGranted a
  | IncAppendEntries p result => rm_IncAppendEntries a p result
  | IncAppendEntriesFailures p => rm_IncAppendEntriesFailures a p
  | ObserveAppendEntriesDuration p d => rm_ObserveAppendEntriesDuration a p d
  | IncSnapshotsCreated => rm_IncSnapshotsCreated a
  | IncSnapshotsInstalled => rm_IncSnapshotsInstalled a
  end.

Section NodeMetrics.
Context {S A M : Type} `{RaftMetricsI A M}.

Definition updateStateMetricsLocked (a : A) (n : RaftNode S) (m : M) : option M :=
  m ← metrics_call a (SetCurrentTerm (currentTerm n)) m;
  m ← metrics_call a (SetRole (role n)) m;
  m ← metrics_call a (SetCommitIndex (commitIndex n)) m;
  m ← metrics_call a (SetLastApplied (lastApplied n)) m;
  m ← metrics_call a (SetLastLogIndex (lastIndexLocked (log n))) m;
  metrics_call a (SetLogSize (Size (log n))) m.

(** [electionStartedAt] is [None] for the zero time. *)
Definition finishElectionLocked (a : A) (result : string) (now : Z) (startedAt : option Z) (m : M)
    : option (option Z * M) :=
  match startedAt with
  | None => Some (None, m)
  | Some t => m ← metrics_call a (ObserveElectionDuration (now - t) result) m; Some (None, m)
  end.
End NodeMetrics.

(** [SetMetrics]: nil stands for metrics that do nothing. *)
Definition SetMetrics {S A M} `{RaftMetricsI A M} (metrics : option A) (n : RaftNode S) (m : M) : option (option A * M) :=
  match metrics with
  | None => m ← updateStateMetricsLocked Noop n m; Some (None, m)
  | Some a => m ← updateStateMetricsLocked a n m; Some (Some a, m)
  end.

(** All calls on one [Metrics], its own methods and those of its adapters. *)
Inductive obs_call :=
| ByMetrics (c : raft_call)
| ByRaftMetrics (a : RaftMetrics) (c : raft_call)
| IncRPCRequest (method : string)
| IncRPCError (method : string)
| ObserveRPCDuration (method : string) (duration : Z)
| StorageOperation (by_adapter : option StorageMetrics) (operation : string)
| StorageOperationError (by_adapter : option StorageMetrics) (operation : string)
| StorageObserve (by_adapter : option StorageMetrics) (operation : string) (duration : Z)
| StorageSync (by_adapter : option StorageMetrics)
| StorageSyncError (by_adapter : option StorageMetrics)
| StorageObserveSync (by_adapter : option StorageMetrics) (duration : Z)
| KVOperation (operation : string)
| KVOperationError (operation : string)
| SchedScheduled (a : SchedulerMetrics)
| SchedAcquired (a : SchedulerMetrics)
| SchedLost (a : SchedulerMetrics)
| WorkerExecuted (a : obs_WorkerMetrics)
| WorkerFailed (a : obs_WorkerMetrics)
| WorkerLost (a : obs_WorkerMetrics).

Definition run_obs {V R} `{Prometheus V R} (c : obs_call) : Metrics V -> option (Metrics V) :=
  match c with
  | ByMetrics c => metrics_call Self c
  | ByRaftMetrics a c => metrics_call a c
  | IncRPCRequest method => m_IncRPCRequest method
  | IncRPCError method => m_IncRPCError method
  | ObserveRPCDuration method d => m_ObserveRPCDuration method d
  | StorageOperation a o => match a with None => m_IncOperation o | Some a => sm_IncOperation a o end
  | StorageOperationError a o => match a with None => m_IncOperationError o | Some a => sm_IncOperationError a o end
  | StorageObserve a o d =>
      match a with None => m_ObserveOperationDuration o d | Some a => sm_ObserveOperationDuration a o d end
  | StorageSync a => match a with None => m_IncSync | Some a => sm_IncSync a end
  | StorageSyncError a => match a with None => m_IncSyncError | Some a => sm_IncSyncError a end
  | StorageObserveSync a d => match a with None => m_ObserveSyncDuration d | Some a => sm_ObserveSyncDuration a d end
  | KVOperation o => km_IncOperation o
  | KVOperationError o => km_IncOperationError o
  | SchedScheduled a => scm_IncScheduledJobs a
  | SchedAcquired a => scm_IncLeaseAcquisitions a
  | SchedLost a => scm_IncLeaseLosses a
  | WorkerExecuted a => wm_IncExecutedJobs a
  | WorkerFailed a => wm_IncJobExecutionFailures a
  | WorkerLost a => wm_IncLeaseLosses a
  end.

Fixpoint run_all {V R} `{Prometheus V R} (cs : list obs_call) (m : Metrics V) : option (Metrics V) :=
  match cs with
  | [] => Some m
  | c :: cs => m ← run_obs c m; run_all cs m
  end.

(** ** What the metrics show *)

(** The abstract view: a metric is a function of the updates of its children. *)
Abbreviation event := (field * list string * update)%type.

Definition raft_events (a : string) (c : raft_call) : list event :=
  match c with
  | SetCurrentTerm t => [(CurrentTerm, [a], SetTo (float64_of t))]
  | SetRole role =>
      (fun r => (RoleVec, [a; roleLabel r], SetTo (if decide (r = role) then 1 else 0)%N)) <$>
        [Follower; Candidate; Leader]
  | SetCommitIndex i => [(CommitIndexVec, [a], SetTo (float64_of i))]
  | SetLastApplied i => [(LastAppliedVec, [a], SetTo (float64_of i))]
  | SetLastLogIndex i => [(LastLogIndex, [a], SetTo (float64_of i))]
  | SetLogSize k => [(LogSize, [a], SetTo (float64_of (N.of_nat k)))]
  | IncElections => [(ElectionsTotal, [a], Inc)]
  | ObserveElectionDuration d result => [(ElectionDuration, [a; result], Observe d)]
  | IncLeaderChanges => [(LeaderChangesTotal, [a], Inc)]
  | IncVoteRequests => [(VoteRequestsTotal, [a], Inc)]
  | IncVotesGranted => [(VotesGrantedTotal, [a], Inc)]
  | IncAppendEntries p result => [(AppendEntriesTotal, [a; p; result], Inc)]
  | IncAppendEntriesFailures p => [(AppendEntriesFailures, [a; p], Inc)]
  | ObserveAppendEntriesDuration p d => [(AppendEntriesDuration, [a; p], Observe d)]
  | IncSnapshotsCreated => [(SnapshotsCreatedTotal, [a], Inc)]
  | IncSnapshotsInstalled => [(SnapshotsInstalledTotal, [a], Inc)]
  end.

Definition events (nodeID : string) (c : obs_call) : list event :=
  match c with
  | ByMetrics c => raft_events nodeID c
  | ByRaftMetrics a c => raft_events a c
  | IncRPCRequest method => [(RPCRequestsTotal, [method], Inc)]
  | IncRPCError method => [(RPCErrorsTotal, [method], Inc)]
  | ObserveRPCDuration method d => [(RPCDuration, [method], Observe d)]
  | StorageOperation _ o => [(StorageOperationsTotal, [o], Inc)]
  | StorageOperationError _ o => [(StorageOperationErrors, [o], Inc)]
  | StorageObserve _ o d => [(StorageOperationDuration, [o], Observe d)]
  | StorageSync a => [(StorageSyncTotal, [default nodeID a], Inc)]
  | StorageSyncError a => [(StorageSyncErrors, [default nodeID a], Inc)]
  | StorageObserveSync a d => [(StorageSyncDuration, [default nodeID a], Observe d)]
  | KVOperation o => [(KVOperationsTotal, [o], Inc)]
  | KVOperationError o => [(KVOperationErrors, [o], Inc)]
  | SchedScheduled a => [(ScheduledJobsTotal, [a], Inc)]
  | SchedAcquired a => [(LeaseAcquisitionsTotal, [a], Inc)]
  | SchedLost a => [(LeaseLossesTotal, [a], Inc)]
  | WorkerExecuted a => [(ExecutedJobsTotal, [a], Inc)]
  | WorkerFailed a => [(JobExecutionFailures, [a], Inc)]
  | WorkerLost a => [(LeaseLossesTotal, [a], Inc)]
  end.

(** The value of a child after some updates of the children of all vectors. *)
Definition value_after (f : field) (vs : list string) : list event -> option N -> option N :=
  fix go es old :=
    match es with
    | [] => old
    | (g, ws, u) :: es => go es (if decide ((g, ws) = (f, vs)) then next_value u old else old)
    end.

Lemma value_after_app f vs es es' old :
  value_after f vs (es ++ es') old = value_after f vs es' (value_after f vs es old).
Proof. revert old; induction es as [|[[g ws] u] es IH]; intros old; cbn; [done|apply IH]. Qed.

Lemma value_after_skip f vs es old :
  Forall (fun e : event => e.1 ≠ (f, vs)) es -> value_after f vs es old = old.
Proof. induction 1 as [|[[g ws] u] es He _ IH]; cbn in *; [done|]. by rewrite decide_False. Qed.

(** The labels each vector is made with. *)
Definition field_labels (f : field) : list string :=
  match f with
  | RoleVec => ["node_id"; "role"]
  | ElectionDuration => ["node_id"; "result"]
  | AppendEntriesTotal => ["node_id"; "peer_id"; "result"]
  | AppendEntriesFailures | AppendEntriesDuration => ["node_id"; "peer_id"]
  | RPCRequestsTotal | RPCErrorsTotal | RPCDuration => ["method"]
  | StorageOperationsTotal | StorageOperationErrors | StorageOperationDuration
  | KVOperationsTotal | KVOperationErrors => ["operation"]
  | _ => ["node_id"]
  end.

Definition field_name (f : field) : string :=
  "raftiq_" +:+
  match f with
  | CurrentTerm => "raft_current_term" | RoleVec => "raft_role" | CommitIndexVec => "raft_commit_index"
  | LastAppliedVec => "raft_last_applied" | LastLogIndex => "raft_last_log_index" | LogSize => "raft_log_size"
  | ElectionsTotal => "raft_elections_total" | ElectionDuration => "raft_election_duration_seconds"
  | LeaderChangesTotal => "raft_leader_changes_total" | VoteRequestsTotal => "raft_vote_requests_total"
  | VotesGrantedTotal => "raft_votes_granted_total" | AppendEntriesTotal => "raft_append_entries_total"
  | AppendEntriesFailures => "raft_append_entries_failures_total"
  | AppendEntriesDuration => "raft_append_entries_duration_seconds"
  | SnapshotsCreatedTotal => "raft_snapshots_created_total"
  | SnapshotsInstalledTotal => "raft_snapshots_installed_total"
  | RPCRequestsTotal => "rpc_requests_total" | RPCErrorsTotal => "rpc_errors_total"
  | RPCDuration => "rpc_duration_seconds" | StorageOperationsTotal => "storage_operations_total"
  | StorageOperationErrors => "storage_operation_errors_total"
  | StorageOperationDuration => "storage_operation_duration_seconds"
  | StorageSyncTotal => "storage_sync_total" | StorageSyncErrors => "storage_sync_errors_total"
  | StorageSyncDuration => "storage_sync_duration_seconds" | KVOperationsTotal => "kv_operations_total"
  | KVOperationErrors => "kv_operation_errors_total" | ScheduledJobsTotal => "scheduler_scheduled_jobs_total"
  | ExecutedJobsTotal => "scheduler_executed_jobs_total"
  | JobExecutionFailures => "scheduler_job_execution_failures_total"
  | LeaseAcquisitionsTotal => "scheduler_lease_acquisitions_total"
  | LeaseLossesTotal => "scheduler_lease_losses_total"
  end.

Lemma field_names_distinct : NoDup (field_name <$> fields).
Proof. refine (bool_decide_unpack _ _). vm_compute. exact I. Qed.

Section Facts.
Context {V R : Type} `{PrometheusLaws V R}.
Implicit Types m : Metrics V.

Definition value (f : field) (vs : list string) m : option N := v ← m_vec m f; vec_value v vs.

(** Every vector is there, with the labels the methods use. *)
Definition metrics_ok m : Prop := forall f, exists v, m_vec m f = Some v /\ vec_labels v = field_labels f.

Definition runs (es : list event) m m' : Prop :=
  metrics_ok m' /\ m_nodeID m' = m_nodeID m /\ forall f vs, value f vs m' = value_after f vs es (value f vs m).

Lemma runs_app es1 es2 m1 m2 m3 : runs es1 m1 m2 -> runs es2 m2 m3 -> runs (es1 ++ es2) m1 m3.
Proof.
  intros (_ & Hn1 & Hv1) (Hok & Hn2 & Hv2). split_and!; [done|congruence|].
  intros f vs. by rewrite Hv2, Hv1, value_after_app.
Qed.

Lemma m_vec_set f v m g : m_vec (set_vec f v m) g = if decide (g = f) then Some v else m_vec m g.
Proof. by destruct m. Qed.

Lemma m_nodeID_set f v m : m_nodeID (set_vec f v m) = m_nodeID m.
Proof. by destruct m. Qed.

Lemma with_labels_at f vs u m v v' :
  m_vec m f = Some v -> vec_update vs u v = Some v' -> with_labels f vs u m = Some (set_vec f v' m).
Proof. intros Hv Hu. unfold with_labels. rewrite Hv. cbn. by rewrite Hu. Qed.

Lemma with_labels_runs f vs u m :
  metrics_ok m -> length vs = length (field_labels f) -> Forall text vs ->
  exists m', with_labels f vs u m = Some m' /\ runs [(f, vs, u)] m m'.
Proof.
  intros Hok Hlen Htext. destruct (Hok f) as (v & Hv & Hl). unfold with_labels. rewrite Hv. cbn [mbind option_bind].
  destruct (update_ok vs u v) as (v' & -> & _ & Hl' & Hval); [by rewrite Hl|done|]. cbn [mbind option_bind].
  exists (set_vec f v' m). split; [done|]. split_and!; [|apply m_nodeID_set|].
  - intros g. rewrite m_vec_set. destruct (decide (g = f)) as [->|]; [|apply Hok]. exists v'. by rewrite Hl', Hl.
  - intros g ws. unfold value at 1. rewrite m_vec_set. destruct (decide (g = f)) as [->|Hne].
    + cbn. destruct (Hval ws) as [-> _]. unfold value. rewrite Hv. cbn.
      destruct (decide (ws = vs)) as [->|]; [by rewrite decide_True|]. rewrite decide_False by congruence. done.
    + cbn [value_after]. rewrite decide_False by congruence. done.
Qed.

(** The label values of a call are UTF-8. *)
Definition texts (es : list event) : Prop := Forall (fun e : event => Forall text e.1.2) es.
Definition call_text (nodeID : string) (c : obs_call) : Prop := texts (events nodeID c).

(** A chain of calls that do not panic. *)
Ltac run_one :=
  match goal with
  | Hok : metrics_ok ?m, Ht : Forall text ?vs |- context [with_labels ?f ?vs ?u ?m] =>
      let m' := fresh "m" in
      destruct (with_labels_runs f vs u m Hok eq_refl Ht) as (m' & -> & ?); cbn [mbind option_bind];
      assert (metrics_ok m') by (by match goal with Hr : runs _ _ m' |- _ => apply Hr end)
  end.

Lemma setRoles_runs a role m :
  metrics_ok m -> text a -> exists m', setRoles [Follower; Candidate; Leader] a role m = Some m' /\
    runs (raft_events a (SetRole role)) m m'.
Proof.
  intros Hok Ha. cbn [setRoles].
  assert (forall role, Forall text [a; roleLabel role]) as Ht by (intros []; repeat constructor; done).
  pose proof (Ht Follower). pose proof (Ht Candidate). pose proof (Ht Leader). clear Ht.
  do 3 run_one. eexists. split; [done|]. eapply (runs_app [_]); [done|]. by eapply (runs_app [_]).
Qed.

Lemma run_obs_runs c m :
  metrics_ok m -> call_text (m_nodeID m) c -> exists m', run_obs c m = Some m' /\ runs (events (m_nodeID m) c) m m'.
Proof.
  intros Hok. unfold call_text, texts. destruct c as [[]|a []| | | |[a|]|[a|]|[a|]|[a|]|[a|]|[a|]| | | | | | | |];
    cbn [run_obs events raft_events metrics_call Metrics_raft RaftMetrics_raft default];
    intros Ht; first [apply with_labels_runs; [done|reflexivity|by apply Forall_inv in Ht]
      |by apply setRoles_runs; [|apply Forall_inv in Ht; by apply Forall_inv in Ht]].
Qed.

Lemma run_all_runs cs m :
  metrics_ok m -> Forall (call_text (m_nodeID m)) cs ->
  exists m', run_all cs m = Some m' /\ runs (concat (events (m_nodeID m) <$> cs)) m m'.
Proof.
  revert m; induction cs as [|c cs IH]; intros m Hok Ht; cbn [run_all]; [by exists m|].
  apply Forall_cons in Ht as [Ht Hts]. destruct (run_obs_runs c m Hok Ht) as (m1 & -> & Hr). cbn [mbind option_bind].
  destruct (IH m1) as (m2 & -> & Hr2); [apply Hr|by rewrite (proj1 (proj2 Hr))|]. exists m2. split; [done|].
  cbn. eapply runs_app; [done|]. by rewrite <- (proj1 (proj2 Hr)).
Qed.

(** *** Construction *)

Lemma registerAll_fresh (g : field -> string) fs m (r : R) :
  (forall f, f ∈ fs -> exists v, m_vec m f = Some v /\ vec_name v = g f) ->
  NoDup (g <$> fs) -> (forall f, f ∈ fs -> g f ∉ registered r) ->
  exists r', registerAll fs m r = Some r' /\ registered r' = list_to_set (g <$> fs) ∪ registered r.
Proof.
  revert r; induction fs as [|f fs IH]; intros r Hv Hnd Hnew; cbn [registerAll].
  { exists r. split; [done|]. cbn. set_solver. }
  destruct (Hv f) as (v & -> & Hname); [set_solver|]. cbn [mbind option_bind].
  rewrite fmap_cons in Hnd. apply NoDup_cons in Hnd as [Hnot Hnd].
  destruct (register_new v r) as (r1 & -> & Hr1); [rewrite Hname; apply Hnew; set_solver|]. cbn [mbind option_bind].
  destruct (IH r1) as (r2 & -> & Hr2); [set_solver|done| |].
  - intros g' Hg'. rewrite Hr1, Hname. intros [Heq|Hin]%elem_of_union; [|by apply (Hnew g'); [set_solver|]].
    apply elem_of_singleton in Heq. apply Hnot. rewrite <- Heq. by apply list_elem_of_fmap_2.
  - exists r2. split; [done|]. rewrite Hr2, Hr1, Hname. cbn. set_solver.
Qed.

Lemma fields_all f : f ∈ fields.
Proof. destruct f; unfold fields; set_solver. Qed.

Definition initial_events (nodeID : string) : list event :=
  [(SnapshotsCreatedTotal, [nodeID], Touch); (SnapshotsInstalledTotal, [nodeID], Touch)].

(** The two vectors whose child of the node exists from the start. *)
Definition touched (name nodeID : string) (v : V) : Prop :=
  vec_name v = name /\ vec_labels v = ["node_id"] /\
  forall vs, vec_value v vs = if decide (vs = [nodeID]) then Some 0%N else None.

Lemma touch_new name nodeID :
  text nodeID -> exists v, vec_update [nodeID] Touch (newVec name ["node_id"]) = Some v /\ touched name nodeID v.
Proof.
  intros Ht. destruct (update_ok [nodeID] Touch (newVec name ["node_id"])) as (v & E & Hn & Hl & Hv).
  { by rewrite newVec_labels. }
  { by apply Forall_singleton. }
  rewrite newVec_name in Hn. rewrite newVec_labels in Hl. exists v. unfold touched.
  split_and!; [done..|]. intros vs. destruct (Hv vs) as [-> _]. by rewrite !(proj1 (newVec_value _ _ _)).
Qed.

Definition with_snapshots (v1 v2 : V) m : Metrics V :=
  set_vec SnapshotsInstalledTotal v2 (set_vec SnapshotsCreatedTotal v1
    (set_vec SnapshotsInstalledTotal (vec (R := R) "raft" "snapshots_installed_total" ["node_id"])
      (set_vec SnapshotsCreatedTotal (vec (R := R) "raft" "snapshots_created_total" ["node_id"]) m))).

Lemma initRaftSnapshot_fresh m :
  text (m_nodeID m) -> exists v1 v2, initRaftSnapshot m = Some (with_snapshots v1 v2 m) /\
    touched "raftiq_raft_snapshots_created_total" (m_nodeID m) v1 /\
    touched "raftiq_raft_snapshots_installed_total" (m_nodeID m) v2.
Proof.
  intros Ht. destruct (touch_new "raftiq_raft_snapshots_created_total" (m_nodeID m) Ht) as (v1 & E1 & H1).
  destruct (touch_new "raftiq_raft_snapshots_installed_total" (m_nodeID m) Ht) as (v2 & E2 & H2).
  exists v1, v2. split_and!; try done. unfold initRaftSnapshot. cbv zeta. rewrite !m_nodeID_set.
  erewrite with_labels_at; [|rewrite m_vec_set, decide_False, m_vec_set, decide_True by done; reflexivity|exact E1].
  cbn [mbind option_bind]. rewrite !m_nodeID_set.
  erewrite with_labels_at; [|rewrite m_vec_set, decide_False, m_vec_set, decide_True by done; reflexivity|exact E2].
  done.
Qed.

(** The vectors after [NewMetrics]. *)
Definition raft_vecs (nodeID : string) : Metrics V :=
  initRaftReplication (R := R) (initRaftElection (R := R) (initRaftState (R := R) (mkMetrics nodeID (fun _ => None)))).

Definition later_vecs m : Metrics V :=
  initScheduler (R := R) (initKV (R := R) (initStorage (R := R) (initRPC (R := R) m))).

Definition all_vecs (v1 v2 : V) (nodeID : string) : Metrics V :=
  later_vecs (with_snapshots v1 v2 (raft_vecs nodeID)).

Lemma all_vecs_ok v1 v2 nodeID :
  touched "raftiq_raft_snapshots_created_total" nodeID v1 ->
  touched "raftiq_raft_snapshots_installed_total" nodeID v2 ->
  forall f, exists v, m_vec (all_vecs v1 v2 nodeID) f = Some v /\ vec_name v = field_name f /\
    vec_labels v = field_labels f /\
    forall vs, vec_value v vs = value_after f vs (initial_events nodeID) None.
Proof.
  intros (Hn1 & Hl1 & Hv1) (Hn2 & Hl2 & Hv2) f.
  destruct (decide (f = SnapshotsCreatedTotal)) as [->|Hf1].
  { exists v1. split_and!; try done. intros vs. rewrite Hv1. cbn [initial_events value_after].
    rewrite (decide_False (P := _ = (SnapshotsCreatedTotal, vs) :> field * list string)) at 1 by congruence.
    destruct (decide (vs = [nodeID])) as [->|]; [by rewrite decide_True|by rewrite decide_False by congruence]. }
  destruct (decide (f = SnapshotsInstalledTotal)) as [->|Hf2].
  { exists v2. split_and!; try done. intros vs. rewrite Hv2. cbn [initial_events value_after].
    destruct (decide (vs = [nodeID])) as [->|]; [by rewrite decide_True|by rewrite decide_False by congruence]. }
  destruct f; try done; eexists; (split; [reflexivity|]);
    unfold vec; (split_and!; [by rewrite newVec_name|by rewrite newVec_labels|]);
    intros vs; rewrite (proj1 (newVec_value _ _ _)); symmetry; apply value_after_skip;
    unfold initial_events; rewrite !Forall_cons; split_and!; try done; by apply Forall_nil.
Qed.

Lemma NewMetrics_steps r nodeID :
  NewMetrics r nodeID =
    (m ← initRaftSnapshot (raft_vecs nodeID); r' ← registerAll fields (later_vecs m) r; Some (r', later_vecs m)).
Proof. reflexivity. Qed.

(** A node ID that is not UTF-8 cannot be a label value. *)
Lemma NewMetrics_panics r nodeID : ~ text nodeID -> NewMetrics r nodeID = None.
Proof.
  intros Ht. rewrite NewMetrics_steps. enough (initRaftSnapshot (raft_vecs nodeID) = None) as -> by done.
  unfold initRaftSnapshot, with_labels. cbv zeta. rewrite !m_nodeID_set.
  rewrite m_vec_set, decide_False, m_vec_set, decide_True by done. cbn [mbind option_bind].
  change (m_nodeID (raft_vecs nodeID)) with nodeID.
  rewrite update_panics; [done|]. right. by rewrite Forall_singleton.
Qed.

Lemma NewMetrics_eq r nodeID :
  text nodeID -> exists v1 v2, NewMetrics r nodeID =
      (r' ← registerAll fields (all_vecs v1 v2 nodeID) r; Some (r', all_vecs v1 v2 nodeID)) /\
    touched "raftiq_raft_snapshots_created_total" nodeID v1 /\
    touched "raftiq_raft_snapshots_installed_total" nodeID v2.
Proof.
  intros Ht. rewrite NewMetrics_steps. destruct (initRaftSnapshot_fresh (raft_vecs nodeID) Ht) as (v1 & v2 & -> & H1 & H2).
  by exists v1, v2.
Qed.

Lemma NewMetrics_fresh r nodeID :
  (forall f, field_name f ∉ registered r) -> text nodeID ->
  exists r' m, NewMetrics r nodeID = Some (r', m) /\ metrics_ok m /\ m_nodeID m = nodeID /\
    registered r' = list_to_set (field_name <$> fields) ∪ registered r /\
    forall f vs, value f vs m = value_after f vs (initial_events nodeID) None.
Proof.
  intros Hnew Ht. destruct (NewMetrics_eq r nodeID Ht) as (v1 & v2 & -> & H1 & H2).
  pose proof (all_vecs_ok v1 v2 nodeID H1 H2) as Hall.
  assert (m_nodeID (all_vecs v1 v2 nodeID) = nodeID) as Hid by done.
  generalize dependent (all_vecs v1 v2 nodeID). intros m Hall Hid.
  destruct (registerAll_fresh field_name fields m r) as (r' & Hr' & Hreg).
  { intros f _. destruct (Hall f) as (v & ? & ? & _). eauto. }
  { apply field_names_distinct. }
  { intros f _. apply Hnew. }
  rewrite Hr'. exists r', m. split_and!; try done.
  - intros f. destruct (Hall f) as (v & ? & _ & ? & _). eauto.
  - intros f vs. destruct (Hall f) as (v & Hv & _ & _ & Hval). unfold value. rewrite Hv. apply Hval.
Qed.

Lemma registerAll_taken f fs m (r : R) v :
  m_vec m f = Some v -> vec_name v ∈ registered r -> registerAll (f :: fs) m r = None.
Proof. intros Hv Hr. cbn. rewrite Hv. cbn. by rewrite register_taken. Qed.

(** A second [NewMetrics] on the same registry panics. *)
Lemma NewMetrics_twice r nodeID nodeID' r' m :
  (forall f, field_name f ∉ registered r) -> text nodeID -> NewMetrics r nodeID = Some (r', m) ->
  NewMetrics r' nodeID' = None.
Proof.
  intros Hnew Ht E. destruct (NewMetrics_fresh r nodeID Hnew Ht) as (r1 & m1 & E1 & _ & _ & Hreg & _).
  assert (r1 = r') as -> by congruence. destruct (decide (text nodeID')) as [Ht'|Ht']; [|by apply NewMetrics_panics].
  destruct (NewMetrics_eq r' nodeID' Ht') as (v1 & v2 & -> & H1 & H2).
  destruct (all_vecs_ok v1 v2 nodeID' H1 H2 CurrentTerm) as (v & Hv & Hname & _).
  change fields with (CurrentTerm :: tail fields). rewrite (registerAll_taken CurrentTerm _ _ _ v Hv); [done|].
  rewrite Hname, Hreg. apply elem_of_union_l, elem_of_list_to_set, list_elem_of_fmap.
  exists CurrentTerm. split; [done|apply fields_all].
Qed.

(** *** The gauges of a node *)

(** The calls that do not set the state gauges labelled [a]. *)
Definition state_fields : list field := [CurrentTerm; RoleVec; CommitIndexVec; LastAppliedVec; LastLogIndex; LogSize].

Definition leaves_state (a nodeID : string) (c : obs_call) : Prop :=
  Forall (fun e : event => ~ (e.1.1 ∈ state_fields /\ head e.1.2 = Some a)) (events nodeID c).

Definition state_calls {S} (n : RaftNode S) : list raft_call :=
  [SetCurrentTerm (currentTerm n); SetRole (role n); SetCommitIndex (commitIndex n); SetLastApplied (lastApplied n);
   SetLastLogIndex (lastIndexLocked (log n)); SetLogSize (Size (log n))].

Lemma update_calls {S} a (n : RaftNode S) m :
  updateStateMetricsLocked (A := RaftMetrics) a n m = run_all (ByRaftMetrics a <$> state_calls n) m.
Proof.
  unfold updateStateMetricsLocked, state_calls. cbn [fmap list_fmap run_all run_obs].
  do 5 (destruct (metrics_call a _ _) as [?|]; cbn [mbind option_bind]; [|reflexivity]).
  by destruct (metrics_call a _ _).
Qed.

Lemma leaves_value a nodeID cs f vs old :
  Forall (leaves_state a nodeID) cs -> f ∈ state_fields -> head vs = Some a ->
  value_after f vs (concat (events nodeID <$> cs)) old = old.
Proof.
  intros Hcs Hf Hvs. apply value_after_skip. induction Hcs as [|c cs Hc _ IH]; [by apply Forall_nil|].
  cbn. apply Forall_app. split; [|done]. eapply Forall_impl; [exact Hc|].
  intros [[g ws] u] Hno Heq. apply Hno. cbn in *. by simplify_eq.
Qed.

(** Reads a gauge after the calls of [updateStateMetricsLocked] and calls that leave it. *)
Ltac read_gauge :=
  match goal with
  | Hv3 : (forall f vs, value f vs ?m3 = _), Hv2 : (forall f vs, value f vs ?m2 = value_after f vs _ _),
    Hl : Forall (leaves_state ?a _) _ |- value _ _ ?m3 = _ =>
      rewrite Hv3, (leaves_value a), Hv2 by (done || unfold state_fields; set_solver);
      cbn [state_calls fmap list_fmap concat events raft_events roleLabel app value_after];
      try match goal with |- context [role ?n] => destruct (role n) end;
      repeat first [rewrite decide_False by congruence | rewrite decide_True by done]; reflexivity
  end.

Lemma state_calls_text {S} a nodeID (n : RaftNode S) :
  text a -> Forall (call_text nodeID) (ByRaftMetrics a <$> state_calls n).
Proof.
  intros Ha. unfold state_calls. cbn [fmap list_fmap]. repeat (apply Forall_cons; split; [|]); [..|by apply Forall_nil];
    unfold call_text, texts; cbn [events raft_events fmap list_fmap]; repeat constructor; done.
Qed.

(** C27: the metrics report what the node is.  On a registry without the names, [NewMetrics]
    succeeds exactly when the node ID is UTF-8, and panics otherwise; a second call with the
    registry it leaves panics.  As long as the label values of the calls are UTF-8 (operations,
    results, methods, node and peer IDs), no call of a method of [Metrics] or of an adapter
    panics.  After [updateStateMetricsLocked], and until the state gauges of the node are set
    again, they show its term, commit index, last applied and last log index and log size (as
    float64), and exactly the gauge of its role is 1. *)
Theorem metrics_report_state {S} r nodeID a (n : RaftNode S) cs1 cs2 :
  (forall f, field_name f ∉ registered r) -> text a -> Forall (call_text nodeID) (cs1 ++ cs2) ->
  Forall (leaves_state a nodeID) cs2 ->
  match NewMetrics r nodeID with
  | None => ~ text nodeID
  | Some (r', m0) =>
      text nodeID /\ (forall nodeID', NewMetrics r' nodeID' = None) /\
      exists m1 m2 m3,
        run_all cs1 m0 = Some m1 /\ updateStateMetricsLocked (A := RaftMetrics) a n m1 = Some m2 /\
        run_all cs2 m2 = Some m3 /\
        value CurrentTerm [a] m3 = Some (float64_of (currentTerm n)) /\
        value CommitIndexVec [a] m3 = Some (float64_of (commitIndex n)) /\
        value LastAppliedVec [a] m3 = Some (float64_of (lastApplied n)) /\
        value LastLogIndex [a] m3 = Some (float64_of (lastIndexLocked (log n))) /\
        value LogSize [a] m3 = Some (float64_of (N.of_nat (Size (log n)))) /\
        (forall role', value RoleVec [a; roleLabel role'] m3 = Some (if decide (role' = role n) then 1 else 0)%N)
  end.
Proof.
  intros Hnew Ha [Ht1 Ht2]%Forall_app Hcs2. destruct (decide (text nodeID)) as [Ht|Ht]; [|by rewrite NewMetrics_panics].
  destruct (NewMetrics_fresh r nodeID Hnew Ht) as (r' & m0 & E0 & Hok0 & Hid0 & _ & Hv0). rewrite E0.
  pose proof (state_calls_text a nodeID n Ha) as Hts.
  destruct (run_all_runs cs1 m0 Hok0) as (m1 & E1 & Hok1 & Hid1 & Hv1); [by rewrite Hid0|].
  destruct (run_all_runs (ByRaftMetrics a <$> state_calls n) m1 Hok1) as (m2 & E2 & Hok2 & Hid2 & Hv2); [by rewrite Hid1, Hid0|].
  destruct (run_all_runs cs2 m2 Hok2) as (m3 & E3 & Hok3 & Hid3 & Hv3); [by rewrite Hid2, Hid1, Hid0|].
  rewrite Hid2, Hid1, Hid0 in *.
  split; [done|]. split; [intros nodeID'; by eapply NewMetrics_twice|].
  exists m1, m2, m3. rewrite update_calls. split_and!; try done.
  - read_gauge.
  - read_gauge.
  - read_gauge.
  - read_gauge.
  - read_gauge.
  - intros role'. destruct role'; cbn [roleLabel]; read_gauge.
Qed.
End Facts.

(** ** A client with the documented behaviour *)

Record simpleVec := mkSimpleVec {
  sv_name : string;
  sv_labels : list string;
  sv_children : gmap (list string) (N * list Z);
}.

#[global] Instance simple_prometheus : Prometheus simpleVec (gset string) := {
  newVec n ls := mkSimpleVec n ls ∅;
  vec_name := sv_name;
  vec_labels := sv_labels;
  vec_update vs u v :=
    if decide (length vs = length (sv_labels v) /\ Forall text vs)
    then let c := sv_children v !! vs in
         Some (mkSimpleVec (sv_name v) (sv_labels v)
           (<[vs := (default 0%N (next_value u (fst <$> c)), next_samples u (default [] (snd <$> c)))]> (sv_children v)))
    else None;
  vec_value v vs := fst <$> sv_children v !! vs;
  vec_samples v vs := default [] (snd <$> sv_children v !! vs);
  mustRegister v r := if decide (sv_name v ∈ r) then None else Some ({[sv_name v]} ∪ r);
  registered r := r;
}.

#[global] Instance simple_prometheus_laws : PrometheusLaws simpleVec (gset string).
Proof.
  split; cbn; try done.
  - intros vs u v Hne. rewrite decide_False by tauto. done.
  - intros vs u v Heq Ht. rewrite decide_True by done. eexists. split_and!; [done..|].
    intros vs'. cbn. destruct (decide (vs' = vs)) as [->|Hne].
    + rewrite lookup_insert_eq. cbn. split; [|done]. by destruct u, (sv_children v !! vs).
    + by rewrite lookup_insert_ne.
  - intros v r Hin. by rewrite decide_True.
  - intros v r Hnot. rewrite decide_False by done. eauto.
Qed.

Definition gauged_node : RaftNode MemoryStorage :=
  mkRaftNode "a" (mkState (mkPersistent 3 "" (mkMembership (mkConfiguration ["a"]) None)) (mkVolatile 0 0)
    (mkLeaderState ∅ ∅) ∅ Follower "") NewLog NewMemoryStorage true [] [] None 0 10 false false 0 1 true.

Lemma metrics_report_state_witness :
  exists r' m0 m1 m2 m3, NewMetrics (V := simpleVec) (∅ : gset string) "a" = Some (r', m0) /\
    run_all [StorageSync (Some "a")] m0 = Some m1 /\
    updateStateMetricsLocked (A := RaftMetrics) "a" gauged_node m1 = Some m2 /\
    run_all [IncRPCRequest "RequestVote"] m2 = Some m3 /\ value CurrentTerm ["a"] m3 = Some (float64_of 3).
Proof.
  assert (forall f, field_name f ∉ registered (V := simpleVec) (∅ : gset string)) as Hnew
    by (intros f Hf; by apply elem_of_empty in Hf).
  assert (Forall (call_text "a") ([StorageSync (Some "a")] ++ [IncRPCRequest "RequestVote"])) as Ht by (by repeat constructor).
  assert (Forall (leaves_state "a" "a") [IncRPCRequest "RequestVote"]) as Hl.
  { apply Forall_singleton, Forall_singleton. intros [Hf _]. cbn in Hf. unfold state_fields in Hf. set_solver. }
  pose proof (metrics_report_state (V := simpleVec) (∅ : gset string) "a" "a" gauged_node
    [StorageSync (Some "a")] [IncRPCRequest "RequestVote"] Hnew eq_refl Ht Hl) as Hm.
  destruct (NewMetrics (∅ : gset string) "a") as [[r' m0]|]; [|by destruct Hm].
  destruct Hm as (_ & _ & m1 & m2 & m3 & E1 & E2 & E3 & Hv & _).
  exists r', m0, m1, m2, m3. split_and!; [reflexivity|exact E1|exact E2|exact E3|exact Hv].
Defined.
