(* ===== verification/Runtime.v ===== *)
(** A node as a process: [cmd/raftiq/runtime.go], and [Start]/[Stop] of
    [internal/raft/node_lifecycle.go] as it uses them.

    [newRuntime] builds the parts of a node in order; what the operating system and
    gRPC answer is the record [Env].  The events record which resources are taken and
    given back and when the parts are stopped; the goroutines of the servers, the
    scheduler and the workers run in [Process].  [range] is the order in which the
    map of peers is iterated.  A panic while the metrics are made ends the process: it is
    the event [Panicked], after which nothing is shut down. *)

From S2P Require Import Metrics.
From S2P Require Import Prelude Model Bytes RaftLog Storage Membership ConfigEntry Node Election.
From S2P Require Import Apply SnapshotOps Replication Lock KvStore KvSpec KvSnapshot KvApplier.
From S2P Require Import Backend NodeBackend Server Scheduler Worker Tls RaftRpc Config.

Inductive resource := r_WAL | r_transport | r_raftServer | r_kvServer | r_metrics | r_health.

#[global] Instance resource_eq_dec : EqDecision resource.
Proof. solve_decision. Defined.

Inductive event :=
| Opened (r : resource)
| Closed (r : resource)
| Serve (r : resource)
| StartApplication
| StartNode
| StartScheduler
| StartWorker (workerID : string)
| CancelExecution
| WaitBackground
| StopApplication
| StopNode
| Panicked.

Section Runtime.
Context {S : Type} `{Storage S} {Conn KeyPair Pool V R : Type} `{Prometheus V R}.

(** What the environment answers. *)
Record Env := mkEnv {
  env_ReadFile : string -> result bytes;
  env_ParsePool : bytes -> option Pool;
  env_LoadX509KeyPair : string -> string -> result KeyPair;
  env_MkdirAll : string -> option error;
  env_OpenWAL : string -> result S;
  env_NewRegistry : R;
  env_NewClient : string -> tls_Config KeyPair Pool -> result Conn;
  env_Listen : string -> option error;
  env_range : peerFlag -> list (NodeID * string);
}.

Notation TLS := (tls_Config KeyPair Pool).
Notation GT := (GRPCTransport Conn KeyPair Pool).

(** [None] and [false] are nil. *)
Record runtime := mkRuntime {
  rt_tls : option (TLS * TLS * TLS);
  rt_store : option S;
  rt_node : option (RaftNode S);
  rt_app : option (Applier * ServerState);
  rt_scheduler : option Scheduler;
  rt_workers : list Worker;
  rt_transport : option GT;
  rt_raftServer : bool;
  rt_kvServer : bool;
  rt_metricsServer : bool;
  rt_healthServer : bool;
  rt_execution : bool;
  rt_shutdown : bool;
  rt_events : list event;
}.
Implicit Types r : runtime.

Definition rt_new : runtime := mkRuntime None None None None None [] None false false false false false false [].

Definition set_rt_tls x r := mkRuntime x (rt_store r) (rt_node r) (rt_app r) (rt_scheduler r) (rt_workers r) (rt_transport r)
  (rt_raftServer r) (rt_kvServer r) (rt_metricsServer r) (rt_healthServer r) (rt_execution r) (rt_shutdown r) (rt_events r).
Definition set_rt_store x r := mkRuntime (rt_tls r) x (rt_node r) (rt_app r) (rt_scheduler r) (rt_workers r) (rt_transport r)
  (rt_raftServer r) (rt_kvServer r) (rt_metricsServer r) (rt_healthServer r) (rt_execution r) (rt_shutdown r) (rt_events r).
Definition set_rt_node x r := mkRuntime (rt_tls r) (rt_store r) x (rt_app r) (rt_scheduler r) (rt_workers r) (rt_transport r)
  (rt_raftServer r) (rt_kvServer r) (rt_metricsServer r) (rt_healthServer r) (rt_execution r) (rt_shutdown r) (rt_events r).
Definition set_rt_app x r := mkRuntime (rt_tls r) (rt_store r) (rt_node r) x (rt_scheduler r) (rt_workers r) (rt_transport r)
  (rt_raftServer r) (rt_kvServer r) (rt_metricsServer r) (rt_healthServer r) (rt_execution r) (rt_shutdown r) (rt_events r).
Definition set_rt_scheduler x r := mkRuntime (rt_tls r) (rt_store r) (rt_node r) (rt_app r) x (rt_workers r) (rt_transport r)
  (rt_raftServer r) (rt_kvServer r) (rt_metricsServer r) (rt_healthServer r) (rt_execution r) (rt_shutdown r) (rt_events r).
Definition set_rt_workers x r := mkRuntime (rt_tls r) (rt_store r) (rt_node r) (rt_app r) (rt_scheduler r) x (rt_transport r)
  (rt_raftServer r) (rt_kvServer r) (rt_metricsServer r) (rt_healthServer r) (rt_execution r) (rt_shutdown r) (rt_events r).
Definition set_rt_transport x r := mkRuntime (rt_tls r) (rt_store r) (rt_node r) (rt_app r) (rt_scheduler r) (rt_workers r) x
  (rt_raftServer r) (rt_kvServer r) (rt_metricsServer r) (rt_healthServer r) (rt_execution r) (rt_shutdown r) (rt_events r).
Definition set_rt_raftServer r := mkRuntime (rt_tls r) (rt_store r) (rt_node r) (rt_app r) (rt_scheduler r) (rt_workers r)
  (rt_transport r) true (rt_kvServer r) (rt_metricsServer r) (rt_healthServer r) (rt_execution r) (rt_shutdown r) (rt_events r).
Definition set_rt_kvServer r := mkRuntime (rt_tls r) (rt_store r) (rt_node r) (rt_app r) (rt_scheduler r) (rt_workers r)
  (rt_transport r) (rt_raftServer r) true (rt_metricsServer r) (rt_healthServer r) (rt_execution r) (rt_shutdown r) (rt_events r).
Definition set_rt_metricsServer r := mkRuntime (rt_tls r) (rt_store r) (rt_node r) (rt_app r) (rt_scheduler r) (rt_workers r)
  (rt_transport r) (rt_raftServer r) (rt_kvServer r) true (rt_healthServer r) (rt_execution r) (rt_shutdown r) (rt_events r).
Definition set_rt_healthServer r := mkRuntime (rt_tls r) (rt_store r) (rt_node r) (rt_app r) (rt_scheduler r) (rt_workers r)
  (rt_transport r) (rt_raftServer r) (rt_kvServer r) (rt_metricsServer r) true (rt_execution r) (rt_shutdown r) (rt_events r).
Definition set_rt_execution r := mkRuntime (rt_tls r) (rt_store r) (rt_node r) (rt_app r) (rt_scheduler r) (rt_workers r)
  (rt_transport r) (rt_raftServer r) (rt_kvServer r) (rt_metricsServer r) (rt_healthServer r) true (rt_shutdown r) (rt_events r).
Definition set_rt_shutdown r := mkRuntime (rt_tls r) (rt_store r) (rt_node r) (rt_app r) (rt_scheduler r) (rt_workers r)
  (rt_transport r) (rt_raftServer r) (rt_kvServer r) (rt_metricsServer r) (rt_healthServer r) (rt_execution r) true (rt_events r).
Definition emit (es : list event) r := mkRuntime (rt_tls r) (rt_store r) (rt_node r) (rt_app r) (rt_scheduler r) (rt_workers r)
  (rt_transport r) (rt_raftServer r) (rt_kvServer r) (rt_metricsServer r) (rt_healthServer r) (rt_execution r) (rt_shutdown r)
  (rt_events r ++ es).

(** ** Initialization *)

Context (env : Env) (cfg : config).

Definition initTLS r : runtime * option error :=
  match initializeTLS (env_ReadFile env) (env_ParsePool env) (env_LoadX509KeyPair env)
          (cfg_tlsCA cfg) (cfg_tlsCert cfg) (cfg_tlsKey cfg) (cfg_nodeID cfg) (cfg_peers cfg) with
  | Err e => (r, Some e)
  | Ok tls => (set_rt_tls (Some tls) r, None)
  end.

Definition walPath : string := cfg_dataDir cfg ++ "/node-" ++ cfg_nodeID cfg ++ ".wal".

(** The metrics made by [initializeStorage]; what is recorded in them is in [Metrics]. *)
Definition newObservability (registry : R) (nodeID : string) : option (R * Metrics V) :=
  '(registry, metrics) ← NewMetrics registry nodeID;
  storageMetrics ← NewStorageMetrics nodeID (Some metrics);
  kvMetrics ← NewKVMetrics (Some metrics);
  Some (registry, metrics).

Definition initializeStorage r : runtime * option error :=
  match env_MkdirAll env (cfg_dataDir cfg) with
  | Some e => (r, Some (Wrap "create data directory" e))
  | None =>
      match env_OpenWAL env walPath with
      | Err e => (r, Some (Wrap "open WAL" e))
      | Ok store =>
          let r := emit [Opened r_WAL] (set_rt_store (Some store) r) in
          match newObservability (env_NewRegistry env) (cfg_nodeID cfg) with
          | None => (emit [Panicked] r, Some (Msg "panic"))
          | Some _ => (r, None)
          end
      end
  end.

Definition initializeRaft r : runtime * option error :=
  match rt_store r with
  | None => (r, Some (Msg "raft storage is required"))
  | Some store =>
      match NewRaftNodeWithStorage (cfg_nodeID cfg) store with
      | Err e => (r, Some (Wrap "create Raft node" e))
      | Ok node => (set_rt_node (Some node) r, None)
      end
  end.

Definition initializeApplication r : runtime * option error :=
  match rt_node r with
  | None => (r, None)
  | Some node =>
      let '(w, s) := Server.NewServer node NewStore () (fun _ => 0%Z) in
      (set_rt_app (Some (nw_applier w, s)) (set_rt_node (Some (nw_node w)) r), None)
  end.

Definition initializeScheduler r : runtime * option error :=
  match NewHashWorkerSelector (cfg_workers cfg) with
  | Err e => (r, Some (Wrap "create scheduler worker selector" e))
  | Ok selector =>
      match sch_New selector (mkSchedulerConfig DefaultInterval DefaultLease) with
      | Err e => (r, Some (Wrap "create scheduler" e))
      | Ok s => (set_rt_scheduler (Some s) r, None)
      end
  end.

(** The loop of [initializeWorkers]; the workers made before a failure stay. *)
Fixpoint makeWorkers (ids : list string) r : runtime * option error :=
  match ids with
  | [] => (r, None)
  | workerID :: ids =>
      match wk_New workerID true with
      | Err e => (r, Some (Wrap "create worker" e))
      | Ok w =>
          match ConfigureLoop true DefaultInterval true true w with
          | Err e => (r, Some (Wrap "configure worker" e))
          | Ok w => makeWorkers ids (set_rt_workers (rt_workers r ++ [w]) r)
          end
      end
  end.
Definition initializeWorkers r : runtime * option error := makeWorkers (cfg_workers cfg) (set_rt_workers [] r).

(** The loop of [initializeTransport]: the peers other than the node itself. *)
Fixpoint connectPeers (peers : list (NodeID * string)) (t : GT) : GT * result (list NodeID) :=
  match peers with
  | [] => (t, Ok [])
  | (peerID, address) :: peers =>
      if bool_decide (peerID = cfg_nodeID cfg) then connectPeers peers t
      else
        match gt_AddPeer (env_NewClient env) peerID address t with
        | (t, _, Some e) => (t, Err (Wrap "add Raft peer" e))
        | (t, _, None) =>
            let '(t, ids) := connectPeers peers t in
            (t, match ids with Ok ids => Ok (peerID :: ids) | Err e => Err e end)
        end
  end.

Definition initializeTransport r : runtime * option error :=
  let r := emit [Opened r_transport] r in
  let fail r e := (emit [Closed r_transport] r, Some e) in
  match SetTLSConfig (match rt_tls r with Some (clientTLS, _, _) => Some clientTLS | None => None end) NewGRPCTransport with
  | (_, Some e) => fail r (Wrap "configure Raft transport TLS" e)
  | (t, None) =>
      match connectPeers (env_range env (cfg_peers cfg)) t with
      | (_, Err e) => fail r e
      | (t, Ok peerIDs) =>
          match rt_node r with
          | None => (r, None)
          | Some node =>
              match BootstrapMembership (SetTransport peerIDs node) with
              | (node, Some e) => fail (set_rt_node (Some node) r) (Wrap "bootstrap Raft membership" e)
              | (node, None) => (set_rt_transport (Some t) (set_rt_node (Some node) r), None)
              end
          end
      end
  end.

(** [transport.NewServer], [NewMetricsServer], [NewHealthServer]. *)
Definition listen (address : string) : option error :=
  if bool_decide (address = "") then Some (Msg "server address is required") else env_Listen env address.

Definition initializeRaftGRPCServer r : runtime * option error :=
  match listen (cfg_raftAddr cfg) with
  | Some e => (r, Some (Wrap "create Raft gRPC server" e))
  | None =>
      let r := emit [Opened r_raftServer] r in
      match NewRaftService (rt_node r) with
      | Err e => (emit [Closed r_raftServer] r, Some (Wrap "create Raft gRPC service" e))
      | Ok _ => (set_rt_raftServer r, None)
      end
  end.

Definition initializeKVGRPCServer r : runtime * option error :=
  match listen (cfg_kvAddr cfg) with
  | Some e => (r, Some (Wrap "create KV gRPC server" e))
  | None =>
      let r := emit [Opened r_kvServer] r in
      match rt_app r with
      | None => (emit [Closed r_kvServer] r, Some (Wrap "create KV gRPC service" (Msg "kv store is required")))
      | Some _ => (set_rt_kvServer r, None)
      end
  end.

Definition initializeMetricsServer r : runtime * option error :=
  match listen (cfg_metricsAddr cfg) with
  | Some e => (r, Some (Wrap "create metrics server" e))
  | None => (set_rt_metricsServer (emit [Opened r_metrics] r), None)
  end.

Definition initializeHealthServer r : runtime * option error :=
  match listen (cfg_healthAddr cfg) with
  | Some e => (r, Some (Wrap "create health server" e))
  | None => (set_rt_healthServer (emit [Opened r_health] r), None)
  end.

(** Steps in a row, up to the first that fails. *)
Fixpoint run_steps (steps : list (runtime -> runtime * option error)) r : runtime * option error :=
  match steps with
  | [] => (r, None)
  | step :: steps =>
      match step r with
      | (r, Some e) => (r, Some e)
      | (r, None) => run_steps steps r
      end
  end.

Definition initializeServers : runtime -> runtime * option error :=
  run_steps [initializeRaftGRPCServer; initializeKVGRPCServer; initializeMetricsServer; initializeHealthServer].

Definition initialize : runtime -> runtime * option error :=
  run_steps [initTLS; initializeStorage; initializeRaft; initializeApplication; initializeScheduler;
    initializeWorkers; initializeTransport; initializeServers].

(** ** Shutdown *)

Definition when (b : bool) (es : list event) : list event := if b then es else [].
Definition isSome {A} (x : option A) : bool := match x with Some _ => true | None => false end.

Definition shutdownServers r : list event :=
  when (rt_raftServer r) [Closed r_raftServer] ++ when (rt_kvServer r) [Closed r_kvServer].
Definition shutdownApplication r : list event := when (isSome (rt_app r)) [StopApplication].
Definition shutdownNode r : list event := when (isSome (rt_node r)) [StopNode].
Definition shutdownRuntimeServices r : list event :=
  when (rt_healthServer r) [Closed r_health] ++ when (rt_metricsServer r) [Closed r_metrics].
Definition shutdownPersistence r : list event :=
  when (isSome (rt_transport r)) [Closed r_transport] ++ when (isSome (rt_store r)) [Closed r_WAL].

(** The calls of [Shutdown], in order. *)
Definition shutdownCalls r : list event :=
  when (rt_execution r) [CancelExecution] ++ [WaitBackground] ++ shutdownServers r ++
  shutdownApplication r ++ shutdownNode r ++ shutdownRuntimeServices r ++ shutdownPersistence r.

Definition Shutdown r : runtime := if rt_shutdown r then r else emit (shutdownCalls r) (set_rt_shutdown r).

Definition panicked r : bool := match last (rt_events r) with Some Panicked => true | _ => false end.

Definition newRuntime : runtime * option error :=
  match initialize rt_new with
  | (r, Some e) => (if panicked r then r else Shutdown r, Some e)
  | (r, None) => (r, None)
  end.

(** ** Start *)

(** [Start] of the node: the loop runs. *)
Definition raft_Start (n : RaftNode S) : RaftNode S * option error :=
  if running n then (n, Some (Msg "raft node is already running"))
  else (mkRaftNode (id n) (state n) (log n) (storage n) (transportSet n) (peerIDs n) (applyCh n)
          (snapshotRestore n) (electionElapsed n) (electionTimeout n) (electionInFlight n)
          (storageWriteBlocked n) (heartbeatElapsed n) (heartbeatTimeout n) true, None).

Definition stopServers r : list event :=
  when (rt_raftServer r) [Closed r_raftServer] ++ when (rt_kvServer r) [Closed r_kvServer] ++
  when (rt_healthServer r) [Closed r_health] ++ when (rt_metricsServer r) [Closed r_metrics].

Definition startServers r : runtime := emit (map Serve [r_raftServer; r_kvServer; r_metrics; r_health]) r.

(** The context is not nil. *)
Definition rt_Start r : runtime * option error :=
  let r := startServers (set_rt_execution r) in
  match rt_node r, rt_app r with
  | Some node, Some (applier, s) =>
      match srv_Start (mkNodeWorld node applier () [] (fun _ => 0%Z) 0) with
      | (_, Some e) => (emit (CancelExecution :: stopServers r) r, Some (Wrap "start application server" e))
      | (w, None) =>
          let r := emit [StartApplication] (set_rt_app (Some (nw_applier w, s)) (set_rt_node (Some (nw_node w)) r)) in
          match raft_Start (nw_node w) with
          | (_, Some e) => (emit (CancelExecution :: StopApplication :: stopServers r) r, Some (Wrap "start Raft node" e))
          | (node, None) =>
              (emit (StartNode :: StartScheduler :: map (fun w => StartWorker (wk_id w)) (rt_workers r))
                 (set_rt_node (Some node) r), None)
          end
      end
  | _, _ => (r, Some (Msg "runtime is not initialized"))
  end.

End Runtime.
