(* ===== verification/RuntimeFacts.v ===== *)
(** What starting and stopping a node guarantees: the resources of [Runtime] are
    given back, nodes with the same peers start with the same membership, and the
    configurations that pass [validateConfig] but cannot start. *)

From S2P Require Import Metrics.
From S2P Require Import Prelude Model Bytes Utf8 JsonCodec RaftLog Storage Membership ConfigEntry Node Election.
From S2P Require Import Apply SnapshotOps Replication Lock KvStore KvSpec KvSnapshot KvApplier.
From S2P Require Import Backend NodeBackend Server Scheduler Worker Tls RaftRpc Config Runtime.

(** ** Resources *)

Definition acquired (es : list event) : list resource := omap (fun e => match e with Opened r => Some r | _ => None end) es.
Definition released (es : list event) : list resource := omap (fun e => match e with Closed r => Some r | _ => None end) es.

Section RuntimeFacts.
Context {S : Type} `{Storage S} {Conn KeyPair Pool V R : Type} `{Prometheus V R}.
Context (env : @Env S Conn KeyPair Pool R) (cfg : config).
Notation runtime := (@runtime S Conn KeyPair Pool).
Implicit Types r : runtime.

Lemma makeWorkers_shape ids r r' e :
  makeWorkers ids r = (r', e) -> exists ws, r' = set_rt_workers ws r.
Proof.
  revert r. induction ids as [|i ids IH]; intros r E; cbn in E.
  { simplify_eq. exists (rt_workers r'). by destruct r'. }
  unfold wk_New in E. case_bool_decide; [simplify_eq; exists (rt_workers r'); by destruct r'|]. cbn in E.
  apply IH in E as [ws ->]. by exists ws.
Qed.

(** What is held: the resources of the fields that are not nil. *)
Definition held r : list resource :=
  (if rt_raftServer r then [r_raftServer] else []) ++ (if rt_kvServer r then [r_kvServer] else []) ++
  (if rt_healthServer r then [r_health] else []) ++ (if rt_metricsServer r then [r_metrics] else []) ++
  (if isSome (rt_transport r) then [r_transport] else []) ++ (if isSome (rt_store r) then [r_WAL] else []).

Lemma Shutdown_releases r :
  rt_shutdown r = false -> released (rt_events (Shutdown r)) = released (rt_events r) ++ held r /\
  acquired (rt_events (Shutdown r)) = acquired (rt_events r).
Proof.
  intros Hs. unfold Shutdown. rewrite Hs. cbn [rt_events emit set_rt_shutdown]. unfold shutdownCalls, released, acquired.
  rewrite !omap_app. unfold shutdownServers, shutdownApplication, shutdownNode, shutdownRuntimeServices, shutdownPersistence, held.
  destruct (rt_execution r), (rt_raftServer r), (rt_kvServer r), (rt_app r), (rt_node r), (rt_healthServer r),
    (rt_metricsServer r), (rt_transport r), (rt_store r); cbn; by rewrite ?app_nil_r.
Qed.

(** Nothing was given back, and what was taken is held. *)
Definition balanced r : Prop :=
  rt_shutdown r = false /\ acquired (rt_events r) ≡ₚ released (rt_events r) ++ held r.

(** What each step does to the fields and the events, its values left open. *)
Lemma initTLS_shape r r' e :
  initTLS env cfg r = (r', e) -> e ≠ None /\ r' = r \/ e = None /\ exists x, r' = set_rt_tls (Some x) r.
Proof. unfold initTLS. destruct (initializeTLS _ _ _ _ _ _ _ _); intros; simplify_eq; eauto. Qed.

Lemma initializeStorage_shape r r' e :
  initializeStorage env cfg r = (r', e) ->
  e ≠ None /\ (r' = r \/ exists x, r' = emit [Panicked] (emit [Opened r_WAL] (set_rt_store (Some x) r))) \/
  e = None /\ exists x, r' = emit [Opened r_WAL] (set_rt_store (Some x) r).
Proof.
  unfold initializeStorage. destruct (env_MkdirAll _ _); [intros; simplify_eq; eauto|].
  destruct (env_OpenWAL env _) as [store|]; [|intros; simplify_eq; eauto]. cbn zeta.
  destruct (newObservability _ _); intros; simplify_eq; eauto.
Qed.

Lemma initializeRaft_shape r r' e :
  initializeRaft cfg r = (r', e) -> e ≠ None /\ r' = r \/ e = None /\ exists x, r' = set_rt_node (Some x) r.
Proof. unfold initializeRaft. repeat case_match; intros; simplify_eq; eauto. Qed.

Lemma initializeApplication_shape r n r' e :
  rt_node r = Some n -> initializeApplication r = (r', e) ->
  e = None /\ exists x m, r' = set_rt_app (Some x) (set_rt_node (Some m) r).
Proof.
  unfold initializeApplication. intros ->. destruct (Server.NewServer _ _ _ _) as [w s]. intros. simplify_eq. eauto.
Qed.

Lemma initializeScheduler_shape r r' e :
  initializeScheduler cfg r = (r', e) -> e ≠ None /\ r' = r \/ e = None /\ exists x, r' = set_rt_scheduler (Some x) r.
Proof. unfold initializeScheduler. repeat case_match; intros; simplify_eq; eauto. Qed.

Lemma initializeWorkers_shape r r' e : initializeWorkers cfg r = (r', e) -> exists ws, r' = set_rt_workers ws r.
Proof. unfold initializeWorkers. intros [ws ->]%makeWorkers_shape. by exists ws. Qed.

Lemma initializeTransport_shape r n r' e :
  rt_node r = Some n -> initializeTransport env cfg r = (r', e) ->
  e ≠ None /\ (exists m, r' = emit [Closed r_transport] (set_rt_node (Some m) (emit [Opened r_transport] r))) \/
  e = None /\ exists t m, r' = set_rt_transport (Some t) (set_rt_node (Some m) (emit [Opened r_transport] r)).
Proof.
  intros Hn. unfold initializeTransport. cbn zeta. change (rt_node (emit _ r)) with (rt_node r). rewrite Hn.
  assert (forall es, set_rt_node (Some n) (emit es r) = emit es r) as Hsame by (intros es; destruct r; cbn in *; by subst).
  destruct (SetTLSConfig _ _) as [t [err|]].
  { intros; simplify_eq. left. split; [done|]. exists n. by rewrite Hsame. }
  destruct (connectPeers _ _ _ _) as [t' [ids|]].
  2: { intros; simplify_eq. left. split; [done|]. exists n. by rewrite Hsame. }
  destruct (BootstrapMembership _) as [m [err|]]; intros; simplify_eq; eauto 10.
Qed.

Lemma initializeServers_shape r n a r' e :
  rt_node r = Some n -> rt_app r = Some a -> initializeServers env cfg r = (r', e) ->
  e ≠ None /\ (r' = r \/ r' = set_rt_raftServer (emit [Opened r_raftServer] r) \/
    (let r := set_rt_raftServer (emit [Opened r_raftServer] r) in
     r' = set_rt_kvServer (emit [Opened r_kvServer] r) \/
     r' = set_rt_metricsServer (emit [Opened r_metrics] (set_rt_kvServer (emit [Opened r_kvServer] r))))) \/
  e = None /\ r' = set_rt_healthServer (emit [Opened r_health] (set_rt_metricsServer (emit [Opened r_metrics]
    (set_rt_kvServer (emit [Opened r_kvServer] (set_rt_raftServer (emit [Opened r_raftServer] r))))))).
Proof.
  intros Hn Ha. unfold initializeServers, initializeRaftGRPCServer, initializeKVGRPCServer, initializeMetricsServer,
    initializeHealthServer. cbn [run_steps].
  destruct (listen env (cfg_raftAddr cfg)); [intros; simplify_eq; eauto 10|].
  change (rt_node (emit _ r)) with (rt_node r). rewrite Hn. cbn [NewRaftService].
  destruct (listen env (cfg_kvAddr cfg)); [intros; simplify_eq; eauto 10|].
  change (rt_app (emit _ (set_rt_raftServer (emit _ r)))) with (rt_app r). rewrite Ha.
  destruct (listen env (cfg_metricsAddr cfg)); [intros; simplify_eq; eauto 10|].
  destruct (listen env (cfg_healthAddr cfg)); intros; simplify_eq; eauto 10.
Qed.

(** A run that has ended: what it took and gave back is a closed list. *)
Ltac settle :=
  split; [split; [done|apply (bool_decide_unpack _); vm_compute; exact I]|split; [done|split; [by try intros ->|by try (vm_compute; discriminate)]]].

Lemma initialize_balanced r e :
  initialize env cfg rt_new = (r, e) ->
  balanced r /\ rt_execution r = false /\
  (e = None -> released (rt_events r) = [] /\ isSome (rt_node r) = true /\ isSome (rt_app r) = true /\
     isSome (rt_transport r) = true /\ isSome (rt_store r) = true) /\
  (panicked r = true -> e ≠ None /\ rt_events r = [Opened r_WAL; Panicked]).
Proof.
  unfold initialize. cbn [run_steps].
  destruct (initTLS env cfg rt_new) as [r1 e1] eqn:E1. apply initTLS_shape in E1 as [[Hn ->]|[-> [tls ->]]].
  { destruct e1; [|done]. intros [= <- <-]. settle. }
  destruct (initializeStorage _ _ _) as [r2 e2] eqn:E2. apply initializeStorage_shape in E2 as [[Hn Hr]|[-> [store ->]]].
  { destruct e2; [|done]. intros [= <- <-]. destruct Hr as [->|[store ->]]; settle. }
  destruct (initializeRaft _ _) as [r3 e3] eqn:E3. apply initializeRaft_shape in E3 as [[Hn ->]|[-> [n ->]]].
  { destruct e3; [|done]. intros [= <- <-]. settle. }
  destruct (initializeApplication _) as [r4 e4] eqn:E4.
  eapply initializeApplication_shape in E4 as [-> (app & n' & ->)]; [|reflexivity].
  destruct (initializeScheduler _ _) as [r5 e5] eqn:E5. apply initializeScheduler_shape in E5 as [[Hn ->]|[-> [sch ->]]].
  { destruct e5; [|done]. intros [= <- <-]. settle. }
  destruct (initializeWorkers _ _) as [r6 e6] eqn:E6. apply initializeWorkers_shape in E6 as [ws ->].
  destruct e6; [intros [= <- <-]; settle|].
  destruct (initializeTransport _ _ _) as [r7 e7] eqn:E7.
  eapply initializeTransport_shape in E7 as [[Hn [m ->]]|[-> (t & m & ->)]]; [| |reflexivity].
  { destruct e7; [|done]. intros [= <- <-]. settle. }
  destruct (initializeServers _ _ _) as [r8 e8] eqn:E8.
  eapply initializeServers_shape in E8 as [[Hn Hr]|[-> ->]]; [| |reflexivity..].
  - destruct e8; [|done]. intros [= <- <-]. destruct Hr as [->|[->|[->| ->]]]; settle.
  - intros [= <- <-]. settle.
Qed.

Lemma Shutdown_once r : Shutdown (Shutdown r) = Shutdown r.
Proof. unfold Shutdown at 2 3. destruct (rt_shutdown r) eqn:E; [|done]. unfold Shutdown. by rewrite E. Qed.

(** A runtime that is up: every part is there. *)
Definition complete r : Prop :=
  isSome (rt_node r) = true /\ isSome (rt_app r) = true /\ isSome (rt_transport r) = true /\ isSome (rt_store r) = true.

Lemma rt_Start_ok r r' :
  rt_Start r = (r', None) -> complete r ->
  rt_shutdown r' = rt_shutdown r /\ held r' = held r /\ complete r' /\
  released (rt_events r') = released (rt_events r) /\ acquired (rt_events r') = acquired (rt_events r).
Proof.
  unfold rt_Start, startServers, complete. cbn zeta. intros E (Hn & Ha & Ht & Hst). cbn [rt_node rt_app emit set_rt_execution] in E.
  destruct (rt_node r) as [n|]; [|done]. destruct (rt_app r) as [[a sv]|]; [|done].
  destruct (srv_Start _) as [w [err|]]; [done|]. destruct (raft_Start _) as [n' [err|]]; [done|]. simplify_eq.
  assert (forall A (f : event -> option A) (ws : list Worker), (forall i, f (StartWorker i) = None) ->
    omap f (map (fun w => StartWorker (wk_id w)) ws) = []) as Hw.
  { intros A f ws Hf. induction ws as [|x ws IH]; cbn; [done|]. by rewrite Hf. }
  split_and!; try done.
  all: unfold released, acquired; cbn [rt_events emit set_rt_node set_rt_app set_rt_execution];
    rewrite !omap_app; cbn [omap list_omap map]; rewrite Hw by done; by rewrite ?app_nil_r.
Qed.

Lemma Shutdown_order r :
  rt_shutdown r = false -> complete r ->
  exists before, rt_events (Shutdown r) = rt_events r ++ before ++ [Closed r_transport; Closed r_WAL] /\
    [WaitBackground; StopApplication; StopNode] `sublist_of` before.
Proof.
  intros Hs (Hn & Ha & Ht & Hw). unfold Shutdown. rewrite Hs. cbn [rt_events emit set_rt_shutdown].
  unfold shutdownCalls, shutdownApplication, shutdownNode, shutdownPersistence. rewrite Hn, Ha, Ht, Hw.
  exists (when (rt_execution r) [CancelExecution] ++ [WaitBackground] ++ shutdownServers r ++ [StopApplication] ++
    [StopNode] ++ shutdownRuntimeServices r). split; [by rewrite <- !app_assoc|].
  unfold shutdownServers, shutdownRuntimeServices.
  destruct (rt_execution r), (rt_raftServer r), (rt_kvServer r), (rt_healthServer r), (rt_metricsServer r); cbn;
    repeat first [apply sublist_skip | apply sublist_cons | apply sublist_nil_l].
Qed.

(** A node that starts or fails to start gives back what it took.  If any step
    of the initialization fails, other than by the panic of the metrics, which ends the
    process with the log open, [newRuntime] returns the error after releasing exactly the resources it had acquired, each once; if it succeeds, it holds them all,
    and [Shutdown], after [Start] or without it, releases each once, after the application
    and the node have been stopped and the background work has ended, the log last; a
    second [Shutdown] does nothing. *)
Theorem runtime_releases_resources r e :
  newRuntime env cfg = (r, e) ->
  match e with
  | Some _ => rt_events r = [Opened r_WAL; Panicked] \/ released (rt_events r) ≡ₚ acquired (rt_events r) /\ Shutdown r = r
  | None => released (rt_events r) = [] /\
      forall r', r' = r \/ rt_Start r = (r', None) ->
        released (rt_events (Shutdown r')) ≡ₚ acquired (rt_events r) /\
        (exists before, rt_events (Shutdown r') = rt_events r' ++ before ++ [Closed r_transport; Closed r_WAL] /\
           [WaitBackground; StopApplication; StopNode] `sublist_of` before) /\
        Shutdown (Shutdown r') = Shutdown r'
  end.
Proof.
  unfold newRuntime. destruct (initialize env cfg rt_new) as [r0 e0] eqn:E.
  apply initialize_balanced in E as ([Hs Hb] & _ & Hok & Hpan). destruct e0 as [e0|]; intros [= <- <-].
  - destruct (panicked r0) eqn:Ep; [left; by apply Hpan|right].
    destruct (Shutdown_releases r0 Hs) as [-> ->]. by rewrite Hb, Shutdown_once.
  - destruct (Hok eq_refl) as [Hrel Hc]. split; [done|]. rewrite Hrel in Hb. cbn in Hb. intros r' Hr'.
    assert (rt_shutdown r' = false /\ held r' = held r0 /\ complete r' /\ released (rt_events r') = []) as (Hs' & Hh & Hc' & Hr).
    { destruct Hr' as [->|Hst]; [done|]. apply rt_Start_ok in Hst as (Ha & Hb' & Hc' & Hd & _); [|done].
      by rewrite Ha, Hd. }
    split_and!; [|by apply Shutdown_order|by apply Shutdown_once].
    destruct (Shutdown_releases r' Hs') as [-> _]. by rewrite Hr, Hh, Hb.
Qed.

(** ** The membership a node starts with *)

Lemma connectPeers_ids peers t t' ids :
  connectPeers env cfg peers t = (t', Ok ids) ->
  ids = filter (fun i => i ≠ cfg_nodeID cfg) (map fst peers) /\ ("" ∉ ids).
Proof.
  revert t t' ids. induction peers as [|[i address] peers IH]; intros t t' ids E; cbn in E.
  { simplify_eq. split; [done|set_solver]. }
  cbn [map fst]. case_bool_decide as Hi.
  - rewrite filter_cons_False by (by intros []). by eapply IH.
  - rewrite filter_cons_True by done. destruct (gt_AddPeer _ _ _ _) as [[t1 cs] [err|]] eqn:Ea; [done|].
    destruct (connectPeers env cfg peers t1) as [t2 [ids'|]] eqn:Ec; [|done]. simplify_eq.
    destruct (IH _ _ _ Ec) as [-> Hn]. split; [done|]. rewrite elem_of_cons. intros [<-|?]; [|done].
    unfold gt_AddPeer in Ea. by rewrite bool_decide_true in Ea.
Qed.

Lemma initialize_node r :
  initialize env cfg rt_new = (r, None) ->
  exists store n0 f ids t t' n,
    env_OpenWAL env (walPath cfg) = Ok store /\ NewRaftNodeWithStorage (cfg_nodeID cfg) store = Ok n0 /\
    connectPeers env cfg (env_range env (cfg_peers cfg)) t = (t', Ok ids) /\
    BootstrapMembership (SetTransport ids (SetSnapshotRestore f n0)) = (n, None) /\ rt_node r = Some n.
Proof.
  unfold initialize. cbn [run_steps].
  destruct (initTLS env cfg rt_new) as [r1 e1] eqn:E1. apply initTLS_shape in E1 as [[Hn ->]|[-> [tls ->]]]; [by destruct e1|].
  unfold initializeStorage. destruct (env_MkdirAll _ _); [done|]. destruct (env_OpenWAL env _) as [store|]; [|done].
  cbn zeta. destruct (newObservability _ _); [|done].
  unfold initializeRaft. cbn [rt_store emit set_rt_store].
  destruct (NewRaftNodeWithStorage _ _) as [n0|] eqn:E0; [|done].
  unfold initializeApplication. cbn [rt_node emit set_rt_node set_rt_store Server.NewServer nw_node nw_applier].
  destruct (initializeScheduler _ _) as [r5 e5] eqn:E5.
  apply initializeScheduler_shape in E5 as [[Hn ->]|[-> [sch ->]]]; [by destruct e5|].
  destruct (initializeWorkers _ _) as [r6 e6] eqn:E6. apply initializeWorkers_shape in E6 as [ws ->].
  destruct e6; [done|]. unfold initializeTransport. cbn zeta.
  destruct (SetTLSConfig _ _) as [t [err|]]; [done|].
  destruct (connectPeers _ _ _ _) as [t' [ids|]] eqn:Ec; [|done].
  cbn [rt_node emit set_rt_node set_rt_store set_rt_app set_rt_scheduler set_rt_workers].
  destruct (BootstrapMembership _) as [n [err|]] eqn:Eb; [done|].
  destruct (initializeServers _ _ _) as [r8 e8] eqn:E8.
  eapply initializeServers_shape in E8 as [[Hn Hr]|[-> ->]]; [| |reflexivity..]; [by destruct e8|].
  intros [= <-]. eexists _, _, _, _, _, _, _. split_and!; [done|exact E0|exact Ec|exact Eb|done].
Qed.

Lemma collectVoters_spec voters ids :
  NoDup voters -> NoDup (collectVoters voters ids) /\
  forall i, i ∈ collectVoters voters ids <-> i ∈ voters \/ (i ≠ "" /\ i ∈ ids).
Proof.
  revert voters. induction ids as [|j ids IH]; intros voters Hnd; cbn; [split; [done|set_solver]|].
  case_bool_decide as Hj; [subst j|case_bool_decide as Hin].
  - destruct (IH voters Hnd) as [? Hi]. split; [done|]. intros i. rewrite Hi. set_solver.
  - destruct (IH voters Hnd) as [? Hi]. split; [done|]. intros i. rewrite Hi. set_solver.
  - destruct (IH (voters ++ [j])) as [? Hi].
    { apply NoDup_app. split_and!; [done|set_solver|apply NoDup_singleton]. }
    split; [done|]. intros i. rewrite Hi. set_solver.
Qed.

Lemma persistStateLocked_membership (n n' : RaftNode S) e : persistStateLocked n = (n', e) -> membership n' = membership n.
Proof. unfold persistStateLocked. intros E. repeat split_hyp_match E; by simplify_eq. Qed.

(** A storage without a membership. *)
Definition fresh (n : RaftNode S) : Prop := Voters (mem_Current (membership n)) = [] /\ mem_Joint (membership n) = None.

Lemma BootstrapMembership_voters (n n' : RaftNode S) :
  fresh n -> BootstrapMembership n = (n', None) ->
  membership n' = mkMembership (mkConfiguration (collectVoters [] (id n :: peerIDs n))) None.
Proof.
  intros [Hv Hj] E. unfold BootstrapMembership in E. rewrite Hv, Hj in E. cbn [length Nat.ltb Nat.leb orb] in E.
  rewrite bool_decide_false in E by (by intros []). cbn [orb] in E.
  destruct (_ =? _)%nat; [done|]. destruct (persistStateLocked _) as [n1 [err|]] eqn:Ep; [done|]. simplify_eq.
  by apply persistStateLocked_membership in Ep.
Qed.

Lemma initialize_voters r store n0 :
  initialize env cfg rt_new = (r, None) ->
  env_OpenWAL env (walPath cfg) = Ok store -> NewRaftNodeWithStorage (cfg_nodeID cfg) store = Ok n0 -> fresh n0 ->
  env_range env (cfg_peers cfg) ≡ₚ map_to_list (cfg_peers cfg) -> cfg_nodeID cfg ∈ dom (cfg_peers cfg) -> cfg_nodeID cfg ≠ "" ->
  exists n, rt_node r = Some n /\ mem_Joint (membership n) = None /\ NoDup (Voters (mem_Current (membership n))) /\
    forall i, i ∈ Voters (mem_Current (membership n)) <-> i ∈ dom (cfg_peers cfg).
Proof.
  intros E Ew En Hf Hr Hd Hne.
  apply initialize_node in E as (store' & n0' & f & ids & t & t' & n & Ew' & En' & Ec & Eb & Hn).
  rewrite Ew in Ew'. injection Ew' as <-. rewrite En in En'. injection En' as <-.
  apply connectPeers_ids in Ec as [-> Hno]. apply BootstrapMembership_voters in Eb; [|exact Hf].
  exists n. split; [done|]. rewrite Eb. cbn [mem_Joint mem_Current Voters]. split; [done|].
  assert (id (SetTransport (filter (fun i => i ≠ cfg_nodeID cfg) (map fst (env_range env (cfg_peers cfg))))
    (SetSnapshotRestore f n0)) = cfg_nodeID cfg) as ->.
  { change (id n0 = cfg_nodeID cfg). unfold NewRaftNodeWithStorage in En.
    repeat (apply bind_Ok in En as (? & _ & En)). by simplify_eq. }
  destruct (collectVoters_spec [] (cfg_nodeID cfg :: filter (fun i => i ≠ cfg_nodeID cfg) (map fst (env_range env (cfg_peers cfg)))))
    as [Hnd Hin]; [constructor|]. split; [exact Hnd|]. intros i. cbn [peerIDs SetTransport set_peers] in *. rewrite Hin.
  assert (forall j, j ∈ map fst (env_range env (cfg_peers cfg)) <-> j ∈ dom (cfg_peers cfg)) as Hdom.
  { intros j. change (map fst ?l) with l.*1. rewrite Hr. rewrite elem_of_dom. rewrite list_elem_of_fmap. split.
    - intros ([k v] & -> & Hk%elem_of_map_to_list). by exists v.
    - intros [v Hv]. exists (j, v). by rewrite elem_of_map_to_list. }
  rewrite elem_of_cons, list_elem_of_filter, Hdom. split; [set_solver|].
  intros Hi. right. destruct (decide (i = cfg_nodeID cfg)) as [->|Hni]; [by auto|].
  split; [|by auto]. intros ->. apply Hno. rewrite list_elem_of_filter, Hdom. done.
Qed.

End RuntimeFacts.

Section Cluster.
Context {S : Type} `{Storage S} {Conn KeyPair Pool V R : Type} `{Prometheus V R}.
Notation Env := (@Env S Conn KeyPair Pool R).

(** The log of a node that has never run, and an iteration over the map of peers. *)
Definition first_start (env : Env) (cfg : config) : Prop :=
  env_range env (cfg_peers cfg) ≡ₚ map_to_list (cfg_peers cfg) /\
  exists store n, env_OpenWAL env (walPath cfg) = Ok store /\
    NewRaftNodeWithStorage (cfg_nodeID cfg) store = Ok n /\ fresh n.

(** C33: nodes given the same [--peers] start with the same membership.  When two
    nodes that are listed in the same map of peers start for the first time, whatever
    order each iterates the map in, their voters are the same set, the listed peers,
    without repetition, and the two agree on which votes are a quorum. *)
Theorem cluster_bootstraps_one_membership env1 env2 cfg1 cfg2 r1 r2 :
  newRuntime env1 cfg1 = (r1, None) -> newRuntime env2 cfg2 = (r2, None) ->
  first_start env1 cfg1 -> first_start env2 cfg2 ->
  cfg_peers cfg1 = cfg_peers cfg2 ->
  cfg_nodeID cfg1 ∈ dom (cfg_peers cfg1) -> cfg_nodeID cfg2 ∈ dom (cfg_peers cfg1) ->
  cfg_nodeID cfg1 ≠ "" -> cfg_nodeID cfg2 ≠ "" ->
  exists n1 n2, rt_node r1 = Some n1 /\ rt_node r2 = Some n2 /\
    (forall i, i ∈ Voters (mem_Current (membership n1)) <-> i ∈ dom (cfg_peers cfg1)) /\
    Voters (mem_Current (membership n1)) ≡ₚ Voters (mem_Current (membership n2)) /\
    forall votes, membershipHasQuorum (membership n1) votes = membershipHasQuorum (membership n2) votes.
Proof.
  unfold newRuntime. intros E1 E2 (Hr1 & s1 & m1 & ? & ? & ?) (Hr2 & s2 & m2 & ? & ? & ?) Hp Hd1 Hd2 Hn1 Hn2.
  destruct (initialize env1 cfg1 rt_new) as [r1' [?|]] eqn:I1; [done|]. injection E1 as <-.
  destruct (initialize env2 cfg2 rt_new) as [r2' [?|]] eqn:I2; [done|]. injection E2 as <-.
  destruct (initialize_voters env1 cfg1 r1' s1 m1) as (n1 & ? & Hj1 & Hnd1 & Hv1); [done..|].
  destruct (initialize_voters env2 cfg2 r2' s2 m2) as (n2 & ? & Hj2 & Hnd2 & Hv2); [done..|by rewrite <- Hp|done|].
  assert (Voters (mem_Current (membership n1)) ≡ₚ Voters (mem_Current (membership n2))) as HP.
  { apply NoDup_Permutation; [done..|]. intros i. by rewrite Hv1, Hv2, Hp. }
  exists n1, n2. split_and!; try done. intros votes.
  unfold membershipHasQuorum, configurationHasQuorum, configurationMajority. rewrite Hj1, Hj2.
  rewrite (Permutation_length HP). by rewrite (countGranted_Permutation _ _ HP votes votes eq_refl).
Qed.

(** The flags [--heartbeat] and [--election] are validated and not used: nodes that
    differ only in them are built alike. *)
Definition with_timing (heartbeat election : Z) (cfg : config) : config :=
  mkConfig (cfg_nodeID cfg) (cfg_raftAddr cfg) (cfg_kvAddr cfg) (cfg_metricsAddr cfg) (cfg_healthAddr cfg)
    (cfg_dataDir cfg) (cfg_peers cfg) (cfg_workers cfg) heartbeat election (cfg_logLevel cfg)
    (cfg_tlsCA cfg) (cfg_tlsCert cfg) (cfg_tlsKey cfg).

Lemma timing_flags_ignored (env : Env) cfg heartbeat election :
  newRuntime env (with_timing heartbeat election cfg) = newRuntime env cfg.
Proof. reflexivity. Qed.

End Cluster.

(** ** Witnesses *)

(** Every file is readable and every address free; a fresh log. *)
Definition good_env : @Env MemoryStorage string (string * string) bytes (gset string) :=
  mkEnv (fun _ => Ok []) Some (fun cert key => Ok (cert, key)) (fun _ => None) (fun _ => Ok NewMemoryStorage) ∅
    (fun address _ => Ok address) (fun _ => None) map_to_list.
(** The same, but the address of the metrics server is taken, and the map of peers is
    iterated backwards. *)
Definition busy_env : @Env MemoryStorage string (string * string) bytes (gset string) :=
  mkEnv (fun _ => Ok []) Some (fun cert key => Ok (cert, key)) (fun _ => None) (fun _ => Ok NewMemoryStorage) ∅
    (fun address _ => Ok address) (fun a => if bool_decide (a = ":9090") then Some (Msg "address in use") else None)
    (fun p => rev (map_to_list p)).

Definition node_config (i : NodeID) (peers : gmap NodeID string) (ws : list string) : config :=
  mkConfig i ":7000" ":8000" ":9091" ":8080" "./data" peers ws 100000000 1000000000 "info" "ca" "cert" "key".

Lemma runtime_releases_resources_witness :
  let r := fst (newRuntime busy_env (node_config "a" sample_peers ["w1"; "w2"])) in
  snd (newRuntime busy_env (node_config "a" sample_peers ["w1"; "w2"])) = None /\
  released (rt_events (Shutdown r)) ≡ₚ acquired (rt_events r).
Proof.
  cbn zeta. destruct (newRuntime busy_env (node_config "a" sample_peers ["w1"; "w2"])) as [r e] eqn:E.
  assert (e = None) as -> by (change e with (snd (r, e)); rewrite <- E; vm_compute; reflexivity).
  split; [reflexivity|]. pose proof (runtime_releases_resources busy_env _ r None E) as [_ Hr].
  exact (proj1 (Hr r (or_introl eq_refl))).
Defined.

Lemma first_starts env i peers ws :
  (env = good_env \/ env = busy_env) -> first_start env (node_config i peers ws).
Proof.
  intros Henv. split.
  - destruct Henv as [->| ->]; cbn; [reflexivity|symmetry; apply Permutation_rev].
  - exists NewMemoryStorage. destruct Henv as [->| ->]; eexists; (split; [reflexivity|]);
      (split; [vm_compute; reflexivity|split; reflexivity]).
Qed.

Lemma cluster_bootstraps_one_membership_witness :
  exists n1 n2,
    rt_node (fst (newRuntime good_env (node_config "a" sample_peers ["w"]))) = Some n1 /\
    rt_node (fst (newRuntime busy_env (node_config "b" sample_peers ["w"]))) = Some n2 /\
    Voters (mem_Current (membership n1)) ≡ₚ Voters (mem_Current (membership n2)).
Proof.
  destruct (newRuntime good_env (node_config "a" sample_peers ["w"])) as [r1 e1] eqn:E1.
  destruct (newRuntime busy_env (node_config "b" sample_peers ["w"])) as [r2 e2] eqn:E2.
  assert (e1 = None) as -> by (change e1 with (snd (r1, e1)); rewrite <- E1; vm_compute; reflexivity).
  assert (e2 = None) as -> by (change e2 with (snd (r2, e2)); rewrite <- E2; vm_compute; reflexivity).
  destruct (cluster_bootstraps_one_membership good_env busy_env _ _ r1 r2 E1 E2) as (n1 & n2 & H1 & H2 & _ & HP & _).
  - apply first_starts. by left.
  - apply first_starts. by right.
  - reflexivity.
  - apply (bool_decide_unpack _). vm_compute. exact I.
  - apply (bool_decide_unpack _). vm_compute. exact I.
  - discriminate.
  - discriminate.
  - exists n1, n2. split; [exact H1|]. split; [exact H2|exact HP].
Defined.

(** The making of the metrics panics exactly when the node ID is empty or not UTF-8. *)
Lemma newObservability_panics {V R} `{PrometheusLaws V R} (registry : R) nodeID :
  (forall f, field_name f ∉ registered registry) ->
  newObservability registry nodeID = None <-> nodeID = "" \/ ~ text nodeID.
Proof.
  intros Hnew. unfold newObservability, NewStorageMetrics, NewKVMetrics.
  destruct (decide (text nodeID)) as [Ht|Ht]; [|rewrite NewMetrics_panics by done; cbn; tauto].
  destruct (NewMetrics_fresh registry nodeID Hnew Ht) as (r' & m & -> & _). cbn.
  case_bool_decide; cbn; naive_solver.
Qed.

(** A node ID that is not UTF-8 passes the validation; the process ends by a panic with the
    log open. *)
Lemma node_id_panics :
  let cfg := node_config (bytes_string [xff]) {[bytes_string [xff] := "h:1"; "b" := "h:2"]} ["w"] in
  validateConfig cfg = None /\ rt_events (fst (newRuntime good_env cfg)) = [Opened r_WAL; Panicked].
Proof. cbn zeta. split; vm_compute; reflexivity. Qed.

(** Configurations that pass the validation and cannot start.  A node whose only
    peer is itself, as in the single-node instructions, is refused by the set-up of
    TLS, which needs the name of another peer; a worker named twice is refused by the
    scheduler; and a node ID with a space around it is taken as it is, while peer IDs
    are trimmed, so the node becomes a peer of itself. *)
Theorem accepted_configs_that_fail :
  let alone := node_config "a" {["a" := "localhost:7001"]} ["w"] in
  let twice := node_config "a" sample_peers ["w"; "w"] in
  let spaced := node_config "a " sample_peers ["w"] in
  validateConfig alone = None /\ validateConfig twice = None /\ validateConfig spaced = None /\
  snd (newRuntime good_env alone) =
    Some (Wrap "load Raft server TLS configuration" ErrTLSInvalidPeerName) /\
  snd (newRuntime good_env twice) =
    Some (Wrap "create scheduler worker selector" (Msg "duplicate worker ID")) /\
  (exists n, rt_node (fst (newRuntime good_env spaced)) = Some n /\ peerIDs n = ["a"; "b"] /\
     Voters (mem_Current (membership n)) = ["a "; "a"; "b"]) /\
  validateConfig (mkConfig "node1" ":7000" ":8000" ":9090" ":8080" "./data/node1" ∅ [] 100000000 1000000000 "info" "" "" "") =
    Some (Msg "--tls-ca is required").
Proof.
  cbn zeta. split_and!; [vm_compute; reflexivity..| |vm_compute; reflexivity].
  pose (view := fun n : RaftNode MemoryStorage => (peerIDs n, Voters (mem_Current (membership n)))).
  assert (view <$> rt_node (fst (newRuntime good_env (node_config "a " sample_peers ["w"]))) =
    Some (["a"; "b"], ["a "; "a"; "b"])) as E by (vm_compute; reflexivity).
  apply fmap_Some in E as (n & En & Ev). injection Ev as E1 E2. exists n. split_and!; [exact En|by rewrite <- E1|by rewrite <- E2].
Qed.
