(* ===== verification/Health.v ===== *)
(** Liveness and readiness: [internal/observability/health.go] and
    [raft_readiness.go].

    A probe reads the world [W].  The answers are the status code and the body, as a
    record and as the JSON that is sent; [Error] is the method of that name of the errors of
    the probes.  The HTTP server is in [Servers]. *)

From S2P Require Import Prelude Model Bytes Utf8 Json JsonCodec RaftLog Storage Node.

Definition ErrHealthServerClosed : error := Sentinel "health server is closed".
Definition StatusOK : N := 200.
Definition StatusServiceUnavailable : N := 503.

Abbreviation HealthProbe W := (W -> option error).

(** What [Checks] says of a probe: "ok", or the text of the error. *)
Inductive check := check_ok | check_failed (e : error).
Record healthResponse := mkHealthResponse { hr_Status : string; hr_Checks : gmap string check }.

(** A pointer to a server, nil as [None]: its probes. *)
Definition HealthServer (W : Type) : Type := option (gmap string (HealthProbe W)).

Section Health.
Context {W : Type}.
Implicit Types s : HealthServer W.

Definition NewHealthServer : HealthServer W := Some ∅.

Definition RegisterReadinessProbe (name : string) (probe : option (HealthProbe W)) s : HealthServer W * option error :=
  match s with
  | None => (s, Some ErrHealthServerClosed)
  | Some probes =>
      if bool_decide (name = "") then (s, Some (Msg "readiness probe name is required"))
      else match probe with
           | None => (s, Some (Msg "readiness probe is required"))
           | Some probe => (Some (<[name := probe]> probes), None)
           end
  end.

Definition UnregisterReadinessProbe (name : string) s : HealthServer W :=
  match s with
  | None => None
  | Some probes => if bool_decide (name = "") then s else Some (delete name probes)
  end.

Definition handleHealth : N * healthResponse := (StatusOK, mkHealthResponse "ok" ∅).

(** One probe of the loop of [handleReadiness]. *)
Definition run_probe (w : W) (probe : HealthProbe W) : check :=
  match probe w with Some e => check_failed e | None => check_ok end.

Fixpoint all_ok (checks : list check) : bool :=
  match checks with
  | [] => true
  | check_ok :: checks => all_ok checks
  | check_failed _ :: _ => false
  end.

Definition handleReadiness (w : W) s : N * healthResponse :=
  match s with
  | None => (StatusServiceUnavailable, mkHealthResponse "not_ready" ∅)
  | Some probes =>
      let checks := run_probe w <$> probes in
      if all_ok (map snd (map_to_list checks)) then (StatusOK, mkHealthResponse "ready" checks)
      else (StatusServiceUnavailable, mkHealthResponse "not_ready" checks)
  end.

End Health.

(** The body: a map of checks that is empty is left out, and the encoder ends the text with
    a newline. *)
Definition check_text (Error : error -> string) (c : check) : string :=
  match c with check_ok => "ok" | check_failed e => Error e end.

Definition response_json (Error : error -> string) (response : healthResponse) : json :=
  JObject (
    member "status" (enc_string (hr_Status response)) ++
    member_unless (bool_decide (hr_Checks response = ∅)) "checks"
      (enc_map enc_string (check_text Error <$> hr_Checks response))).

Definition writeHealthResponse (Error : error -> string) (status : N) (response : healthResponse) : N * bytes :=
  (status, render (response_json Error response) ++ [x0a]).

Definition RaftReadinessProbe {S} (node : option (RaftNode S)) : option error :=
  match node with
  | None => Some (Msg "raft node is nil")
  | Some n => if negb (running n) then Some (Msg "raft node is not running") else None
  end.

Lemma all_ok_spec checks : all_ok checks = true <-> Forall (fun c => c = check_ok) checks.
Proof.
  induction checks as [|[|e] checks IH]; cbn; [done| |].
  - rewrite IH, Forall_cons. naive_solver.
  - rewrite Forall_cons. naive_solver.
Qed.

(** Readiness: the answer is 200 exactly when every registered probe passes, and it
    lists each probe with its outcome. *)
Lemma readiness_spec {W} (w : W) probes :
  (fst (handleReadiness w (Some probes)) = StatusOK <-> map_Forall (fun _ probe => probe w = None) probes) /\
  forall name, hr_Checks (snd (handleReadiness w (Some probes))) !! name = run_probe w <$> probes !! name.
Proof.
  unfold handleReadiness. cbn zeta.
  assert (all_ok (map snd (map_to_list (run_probe w <$> probes))) = true <->
    map_Forall (fun _ probe => probe w = None) probes) as Hall.
  { rewrite all_ok_spec, Forall_map, Forall_forall. unfold compose. split.
    - intros Hf name probe Hl. assert (run_probe w probe = check_ok) as Hc.
      { apply (Hf (name, run_probe w probe)). apply elem_of_map_to_list. by rewrite lookup_fmap, Hl. }
      unfold run_probe in Hc. by destruct (probe w).
    - intros Hf [name c] Hin%elem_of_map_to_list. rewrite lookup_fmap in Hin. cbn.
      destruct (probes !! name) as [probe|] eqn:Hl; [|done]. injection Hin as <-.
      specialize (Hf name probe Hl). cbn in Hf. unfold run_probe. by rewrite Hf. }
  destruct (all_ok _); cbn; (split; [|intros name; apply lookup_fmap]); naive_solver.
Qed.

(** What a client reads from the body of a readiness answer: the status, and each probe by its
    name with "ok" or the text of its error. *)
Definition response_fields : list (string * decoder (string * gmap string string)) :=
  [("status", field dec_string fst (fun x r => (x, snd r)));
   ("checks", field (dec_map "" dec_string) snd (fun x r => (fst r, x)))].

Lemma readiness_body (Error : error -> string) {W} (w : W) probes :
  (forall e, text (Error e)) -> (forall name, is_Some (probes !! name) -> text name) ->
  let '(status, response) := handleReadiness w (Some probes) in
  json_Unmarshal_into (dec_struct response_fields) (snd (writeHealthResponse Error status response)) ("", ∅) =
    Ok (hr_Status response, (fun probe => check_text Error (run_probe w probe)) <$> probes).
Proof.
  intros He Hn. destruct (handleReadiness w (Some probes)) as [status response] eqn:E.
  assert (hr_Checks response = run_probe w <$> probes /\ text (hr_Status response)) as [Hc Hs].
  { unfold handleReadiness in E. cbn zeta in E. destruct (all_ok _); injection E as _ <-; split; reflexivity. }
  unfold json_Unmarshal_into, writeHealthResponse. cbn [snd]. rewrite json_parse_line.
  - unfold response_json, dec_struct. rewrite (dec_fields_member _ _ dec_string fst (fun x r => (x, snd r)) _ _ _ (hr_Status response));
      [|reflexivity|apply dec_enc_string].
    rewrite <- (app_nil_r (member_unless _ _ _)).
    rewrite (dec_fields_step _ _ (dec_map "" dec_string) snd (fun x r => (fst r, x)) _ _ _ _ (check_text Error <$> hr_Checks response)).
    + cbn [dec_fields fst]. by rewrite Hc, <- map_fmap_compose.
    + reflexivity.
    + apply dec_enc_map. intros k t _. apply dec_enc_string.
    + intros Hb%bool_decide_eq_true. rewrite Hb. reflexivity.
  - apply object_writable; [reflexivity|]. apply Forall_app. split; [apply member_ok; [reflexivity|exact Hs]|].
    apply member_unless_ok; [reflexivity|]. intros _. apply enc_map_writable; [reflexivity|]. intros k t Hk.
    rewrite Hc, !lookup_fmap in Hk. destruct (probes !! k) as [probe|] eqn:Hp; [|done]. cbn in Hk. injection Hk as <-.
    split; [by apply Hn; rewrite Hp|]. destruct (run_probe w probe); [reflexivity|apply He].
Qed.
