(* ===== verification/Servers.v ===== *)
(** The network servers: [internal/transport/server.go], [internal/observability/http.go]
    and the server of [health.go].

    What the gRPC and HTTP libraries answer is an argument: the error of [Serve], and
    for a shutdown whether the server or the context ends first.  Loggers are left out;
    a method on a nil pointer takes [None]. *)

From S2P Require Import Prelude Model RaftLog Storage Node Health.

Definition ErrServerClosed : error := Sentinel "transport server is closed".
Definition ErrMetricsServerClosed : error := Sentinel "metrics server is closed".
Definition http_ErrServerClosed : error := Sentinel "http: Server closed".

(** What a shutdown asks of the server. *)
Inductive server_call := GracefulStop | ForcedStop.

(** ** The gRPC server *)

(** [listener] holds the address it is bound to; the fields of pointers can be nil. *)
Record transport_Server := mkTransportServer {
  ts_address : string;
  ts_listener : option string;
  ts_grpc : option (list string);      (* the services registered *)
}.

Definition ts_NewServer (Listen : string -> result string) (address : string) : result transport_Server :=
  if bool_decide (address = "") then Err (Msg "transport server address is required")
  else match Listen address with
       | Err e => Err (Wrap "listen" e)
       | Ok bound => Ok (mkTransportServer address (Some bound) (Some []))
       end.

Definition ts_Serve (answer : option error) (s : option transport_Server) : option error :=
  match s with
  | Some (mkTransportServer _ (Some _) (Some _)) =>
      match answer with Some e => Some (Wrap "serve gRPC" e) | None => None end
  | _ => Some ErrServerClosed
  end.

(** [ctx] is [None] for nil; it carries the error of the context when that ends first. *)
Definition ts_Shutdown (ctx : option (option error)) (s : option transport_Server) : list server_call * option error :=
  match s with
  | Some (mkTransportServer _ _ (Some _)) =>
      match ctx with
      | None => ([], Some (Msg "shutdown context is nil"))
      | Some None => ([GracefulStop], None)
      | Some (Some e) => ([GracefulStop; ForcedStop], Some (Wrap "graceful shutdown" e))
      end
  | _ => ([], None)
  end.

Definition ts_Address (s : option transport_Server) : string :=
  match s with Some s => default "" (ts_listener s) | None => "" end.

Definition register (service : string) (s : transport_Server) : transport_Server :=
  mkTransportServer (ts_address s) (ts_listener s) ((fun ss => ss ++ [service]) <$> ts_grpc s).

(** A service is [false] when its pointer is nil. *)
Definition RegisterRaftService (service : bool) (s : option transport_Server) : option transport_Server * option error :=
  match s with
  | Some (mkTransportServer _ _ (Some _) as srv) =>
      if service then (Some (register "raftiq.v1.RaftService" srv), None) else (s, Some (Msg "raft service is required"))
  | _ => (s, Some ErrServerClosed)
  end.

Definition RegisterKVService (service : bool) (s : option transport_Server) : option transport_Server * option error :=
  match s with
  | Some (mkTransportServer _ _ (Some _) as srv) =>
      if service then (Some (register "raftiq.v1.KVService" srv), None) else (s, Some (Msg "kv service is required"))
  | _ => (s, Some ErrServerClosed)
  end.

(** ** The HTTP servers *)

(** The address bound by the listener and whether the server is there. *)
Record http_server := mkHttpServer { hs_listener : option string; hs_server : bool }.

Definition NewMetricsServer (Listen : string -> result string) (address : string) (gatherer : bool) : result http_server :=
  if bool_decide (address = "") then Err (Msg "metrics server address is required")
  else if negb gatherer then Err (Msg "metrics gatherer is required")
  else match Listen address with
       | Err e => Err (Wrap "listen for metrics server" e)
       | Ok bound => Ok (mkHttpServer (Some bound) true)
       end.

Definition ms_Serve (answer : option error) (s : option http_server) : option error :=
  match s with
  | Some (mkHttpServer (Some _) true) =>
      match answer with
      | Some e => if errors_Is e "http: Server closed" then None else Some (Wrap "serve metrics" e)
      | None => None
      end
  | _ => Some ErrMetricsServerClosed
  end.

Definition ms_Shutdown (ctx : option (option error)) (s : option http_server) : list server_call * option error :=
  match s with
  | Some (mkHttpServer _ true) =>
      match ctx with
      | None => ([], Some (Msg "shutdown context is required"))
      | Some None => ([GracefulStop], None)
      | Some (Some e) => ([GracefulStop], Some (Wrap "shutdown metrics server" e))
      end
  | _ => ([], None)
  end.

Definition ms_Address (s : option http_server) : string :=
  match s with Some s => default "" (hs_listener s) | None => "" end.

Definition hs_NewHealthServer (Listen : string -> result string) (address : string) : result http_server :=
  if bool_decide (address = "") then Err (Msg "health server address is required")
  else match Listen address with
       | Err e => Err (Wrap "listen for health server" e)
       | Ok bound => Ok (mkHttpServer (Some bound) true)
       end.

Definition hs_Serve (answer : option error) (s : option http_server) : option error :=
  match s with
  | Some (mkHttpServer (Some _) true) =>
      match answer with
      | Some e => if errors_Is e "http: Server closed" then None else Some (Wrap "serve health" e)
      | None => None
      end
  | _ => Some ErrHealthServerClosed
  end.

(** The context is handed on; a nil one is the library's affair. *)
Definition hs_Shutdown (ended : option error) (s : option http_server) : list server_call * option error :=
  match s with
  | Some (mkHttpServer _ true) => ([GracefulStop], ended)
  | _ => ([], None)
  end.

Definition hs_Address (s : option http_server) : string :=
  match s with Some s => default "" (hs_listener s) | None => "" end.

(** A server that was made serves until the library answers, and a shutdown that is
    waited for reports no error: [Serve] of gRPC returns nil and that of HTTP
    [ErrServerClosed] when the server is shut down. *)
Lemma new_servers_serve Listen a1 a2 a3 t m h :
  ts_NewServer Listen a1 = Ok t -> NewMetricsServer Listen a2 true = Ok m -> hs_NewHealthServer Listen a3 = Ok h ->
  ts_Serve None (Some t) = None /\ ms_Serve (Some http_ErrServerClosed) (Some m) = None /\
  hs_Serve (Some http_ErrServerClosed) (Some h) = None /\
  (forall e, errors_Is e "http: Server closed" = false ->
     ts_Serve (Some e) (Some t) = Some (Wrap "serve gRPC" e) /\ ms_Serve (Some e) (Some m) = Some (Wrap "serve metrics" e) /\
     hs_Serve (Some e) (Some h) = Some (Wrap "serve health" e)).
Proof.
  unfold ts_NewServer, NewMetricsServer, hs_NewHealthServer. intros Et Em Eh. cbn [negb] in Em.
  repeat case_bool_decide; try done. destruct (Listen a1), (Listen a2), (Listen a3); simplify_eq.
  split_and!; try done. intros e He. cbn. by rewrite He.
Qed.
