(* ===== verification/Process.v ===== *)
(** A node from its command line to its exit: [main] of [cmd/raftiq/main.go], and the
    goroutines of [runtime.go] ([serveTransportServer], [serveMetricsServer],
    [serveHealthServer], [startScheduler], [startWorkers], [reportError]).

    [main] parses the command line and builds and starts the runtime of [Runtime]; from
    then on it is a process of steps: a goroutine ends, a signal arrives, [main] leaves
    its select, or does the next call of [Shutdown].  What a server, the scheduler or a
    worker returns is free; whether a goroutine ever ends and whether a call of [Shutdown]
    ever returns are parameters ([ends], [returns]), since a goroutine can hang (a node whose
    apply channel is full: [Lifecycle.v], [Pipeline.v], [ReplicationLoop.v]). *)

From S2P Require Import Metrics.
From S2P Require Import Prelude Model Bytes RaftLog Storage Membership ConfigEntry Node Election.
From S2P Require Import Apply SnapshotOps Replication Lock KvStore KvSpec KvSnapshot KvApplier.
From S2P Require Import Backend NodeBackend Server Scheduler Worker Tls RaftRpc Config.
From S2P Require Import Runtime RuntimeFacts Health Servers CommandLine.

Definition isShutdownError (e : error) : bool :=
  errors_Is e "context canceled" || errors_Is e "context deadline exceeded".

(** ** Goroutines *)

Inductive task :=
| ServeTask (r : resource)
| SchedulerTask
| WorkerTask (workerID : string).

(** The goroutines of [backgroundWG]. *)
Definition background (t : task) : bool := match t with ServeTask _ => false | _ => true end.

(** A server that is set up, and a pointer to one. *)
Definition up_transport : option transport_Server := Some (mkTransportServer "" (Some "") (Some [])).
Definition up_http : option http_server := Some (mkHttpServer (Some "") true).

Definition serveTransportServer (name : string) (answer : option error) : option error :=
  match ts_Serve answer up_transport with Some e => Some (Wrap name e) | None => None end.

Definition serveMetricsServer (answer : option error) : option error :=
  match ms_Serve answer up_http with Some e => Some (Wrap "metrics server" e) | None => None end.

Definition serveHealthServer (answer : option error) : option error :=
  match hs_Serve answer up_http with
  | Some e => if errors_Is e "health server is closed" then None else Some (Wrap "health server" e)
  | None => None
  end.

(** The body of the goroutine of [startScheduler] and of one of [startWorkers]. *)
Definition runBackground (name : string) (answer : option error) : option error :=
  match answer with
  | Some e => if isShutdownError e then None else Some (Wrap name e)
  | None => None
  end.

(** What a goroutine hands to [reportError]. *)
Definition task_error (t : task) (answer : option error) : option error :=
  match t with
  | ServeTask r_raftServer => serveTransportServer "Raft gRPC server" answer
  | ServeTask r_kvServer => serveTransportServer "KV gRPC server" answer
  | ServeTask r_metrics => serveMetricsServer answer
  | ServeTask _ => serveHealthServer answer
  | SchedulerTask => runBackground "scheduler" answer
  | WorkerTask workerID => runBackground ("worker " +:+ workerID) answer
  end.

(** ** The process *)

Inductive main_phase := Select | ShuttingDown (todo : list event) | Returned.

Record process := mkProcess {
  p_tasks : list task;          (* the goroutines that have not ended *)
  p_cap : nat;                  (* the capacity of the channel of errors *)
  p_errCh : list error;
  p_lost : list error;          (* the errors logged because the channel was full *)
  p_signal : bool;              (* a signal has arrived *)
  p_taken : option error;       (* the error main received *)
  p_main : main_phase;
  p_shutdown : list event;      (* the calls of Shutdown *)
  p_done : list event;          (* those made *)
}.

Definition reportError (e : option error) (p : process) : process :=
  match e with
  | None => p
  | Some e =>
      if (length (p_errCh p) <? p_cap p)%nat
      then mkProcess (p_tasks p) (p_cap p) (p_errCh p ++ [e]) (p_lost p) (p_signal p) (p_taken p) (p_main p) (p_shutdown p) (p_done p)
      else mkProcess (p_tasks p) (p_cap p) (p_errCh p) (p_lost p ++ [e]) (p_signal p) (p_taken p) (p_main p) (p_shutdown p) (p_done p)
  end.

Definition set_tasks (ts : list task) (p : process) : process :=
  mkProcess ts (p_cap p) (p_errCh p) (p_lost p) (p_signal p) (p_taken p) (p_main p) (p_shutdown p) (p_done p).
Definition set_signal (p : process) : process :=
  mkProcess (p_tasks p) (p_cap p) (p_errCh p) (p_lost p) true (p_taken p) (p_main p) (p_shutdown p) (p_done p).
Definition leave_select (taken : option error) (errCh : list error) (p : process) : process :=
  mkProcess (p_tasks p) (p_cap p) errCh (p_lost p) (p_signal p) taken (ShuttingDown (p_shutdown p)) (p_shutdown p) (p_done p).
Definition do_call (e : event) (todo : list event) (p : process) : process :=
  mkProcess (p_tasks p) (p_cap p) (p_errCh p) (p_lost p) (p_signal p) (p_taken p) (ShuttingDown todo) (p_shutdown p) (p_done p ++ [e]).
Definition main_return (p : process) : process :=
  mkProcess (p_tasks p) (p_cap p) (p_errCh p) (p_lost p) (p_signal p) (p_taken p) Returned (p_shutdown p) (p_done p).

(** The context of the background goroutines has ended: it is made from the context of the
    signals, and cancelled by [Shutdown]. *)
Definition cancelled (p : process) : Prop := p_signal p = true \/ CancelExecution ∈ p_done p.

Section Steps.
Context (ends : task -> bool) (returns : event -> bool).

(** The wait for the background goroutines returns when none is left. *)
Definition call_returns (e : event) (p : process) : Prop :=
  match e with
  | WaitBackground => Forall (fun t => background t = false) (p_tasks p)
  | _ => returns e = true
  end.

Inductive pstep : process -> process -> Prop :=
| task_ends i t answer p :
    p_tasks p !! i = Some t -> ends t = true -> pstep p (reportError (task_error t answer) (set_tasks (delete i (p_tasks p)) p))
| signal_arrives p : p_signal p = false -> pstep p (set_signal p)
| main_signalled p : p_main p = Select -> p_signal p = true -> pstep p (leave_select None (p_errCh p) p)
| main_failed e es p : p_main p = Select -> p_errCh p = e :: es -> pstep p (leave_select (Some e) es p)
| main_call e todo p : p_main p = ShuttingDown (e :: todo) -> call_returns e p -> pstep p (do_call e todo p)
| main_returns p : p_main p = ShuttingDown [] -> pstep p (main_return p).

End Steps.

(** ** [main] *)

Section Main.
Context {S : Type} `{Storage S} {Conn KeyPair Pool V R : Type} `{Prometheus V R}.
Context (env : @Env S Conn KeyPair Pool R).
Notation runtime := (@runtime S Conn KeyPair Pool).

(** [main] ends with a status and the effects it has had, or runs. *)
Inductive main_outcome :=
| Ended (status : N) (effects : list event)
| Running (r : runtime) (p : process).

(** The goroutines of [startServers], [startScheduler] and [startWorkers]. *)
Definition started_tasks (r : runtime) : list task :=
  map ServeTask [r_raftServer; r_kvServer; r_metrics; r_health] ++
  SchedulerTask :: map (fun w => WorkerTask (wk_id w)) (rt_workers r).

Definition start_process (cfg : config) (r : runtime) : process :=
  mkProcess (started_tasks r) (length (cfg_workers cfg) + 6) [] [] false None Select (shutdownCalls r) [].

Definition main (args : list bytes) : main_outcome :=
  match parseConfig args defaultConfig with
  | ConfigExit status => Ended status []
  | ConfigParsed _ (Some _) => Ended 2 []
  | ConfigParsed cfg None =>
      match newRuntime env cfg with
      | (r, Some _) => Ended (if panicked r then 2 else 1) (rt_events r)
      | (r, None) =>
          match rt_Start r with
          | (r, Some _) => Ended 1 (rt_events (Shutdown r))
          | (r, None) => Running r (start_process cfg r)
          end
      end
  end.

End Main.

(** ** Facts about the start *)

Lemma flag_Parse_status {C} (formal : bytes -> option (bytes -> C -> C * option error)) n args c status :
  length args <= n -> flag_Parse formal args c = ProcessExit status -> status = 0%N \/ status = 2%N.
Proof.
  revert args c. induction n as [|n IH]; intros args c Hn E; (destruct args as [|s args]; [done|]); cbn in Hn; [lia|].
  cbn [flag_Parse] in E. destruct (flag_syntax s) as [| | |name value]; simplify_eq; [by right|].
  destruct (formal name) as [set|]; [|injection E as <-; case_bool_decide; auto].
  unfold set_flag in E. destruct value as [value|]; [|destruct args as [|value args]; [simplify_eq; by right|cbn in Hn]].
  all: destruct (set value c) as [c1 [e|]]; [simplify_eq; by right|]; eapply IH; [|exact E]; lia.
Qed.

Section MainFacts.
Context {S : Type} `{Storage S} {Conn KeyPair Pool V R : Type} `{Prometheus V R}.
Context (env : @Env S Conn KeyPair Pool R).
Notation runtime := (@runtime S Conn KeyPair Pool).
Implicit Types r : runtime.

Lemma makeWorkers_length ids r r' :
  makeWorkers ids r = (r', None) -> length (rt_workers r') = length (rt_workers r) + length ids.
Proof.
  revert r. induction ids as [|i ids IH]; intros r E; cbn in E; [simplify_eq; cbn; lia|].
  unfold wk_New in E. case_bool_decide; [done|]. cbn in E. apply IH in E. rewrite E. cbn. rewrite length_app. cbn. lia.
Qed.

Lemma initialize_workers cfg r :
  initialize env cfg rt_new = (r, None) -> length (rt_workers r) = length (cfg_workers cfg).
Proof.
  unfold initialize. cbn [run_steps]. destruct (initTLS env cfg rt_new) as [r1 [?|]] eqn:E1; [done|].
  destruct (initializeStorage env cfg r1) as [r2 [?|]] eqn:E2; [done|].
  destruct (initializeRaft cfg r2) as [r3 [?|]] eqn:E3; [done|].
  apply initializeRaft_shape in E3 as [[Hn _]|[_ [n3 ->]]]; [done|].
  destruct (initializeApplication _) as [r4 [?|]] eqn:E4; [done|].
  eapply initializeApplication_shape in E4 as (_ & a & n4 & ->); [|reflexivity].
  destruct (initializeScheduler cfg _) as [r5 [?|]] eqn:E5; [done|].
  apply initializeScheduler_shape in E5 as [[Hn _]|[_ [sch ->]]]; [done|].
  destruct (initializeWorkers cfg _) as [r6 [?|]] eqn:E6; [done|].
  pose proof E6 as [ws ->]%initializeWorkers_shape. unfold initializeWorkers in E6.
  apply makeWorkers_length in E6. cbn in E6.
  destruct (initializeTransport _ _ _) as [r7 [?|]] eqn:E7; [done|].
  eapply initializeTransport_shape in E7 as [[Hn _]|[_ (t & m & ->)]]; [done| |reflexivity].
  destruct (initializeServers _ _ _) as [r8 [?|]] eqn:E8; [done|].
  eapply initializeServers_shape in E8 as [[Hn _]|[_ ->]]; [done| |reflexivity..].
  intros [= <-]. done.
Qed.

Lemma acquired_emit es r : acquired (rt_events (emit es r)) = acquired (rt_events r) ++ acquired es.
Proof. unfold acquired. cbn. by rewrite omap_app. Qed.

Lemma acquired_stop r : acquired (stopServers r) = [].
Proof.
  unfold stopServers, acquired.
  by destruct (rt_raftServer r), (rt_kvServer r), (rt_healthServer r), (rt_metricsServer r).
Qed.

Lemma acquired_workers (ws : list Worker) : acquired (map (fun w => StartWorker (wk_id w)) ws) = [].
Proof. unfold acquired. by induction ws. Qed.

(** [Start] opens nothing and keeps what is held. *)
Lemma rt_Start_keeps r r' e :
  rt_Start r = (r', e) ->
  rt_shutdown r' = rt_shutdown r /\ held r' = held r /\ acquired (rt_events r') = acquired (rt_events r) /\
  rt_workers r' = rt_workers r /\ rt_execution r' = true.
Proof.
  unfold rt_Start, startServers. cbn zeta. cbn [rt_node rt_app emit set_rt_execution]. intros E.
  destruct (rt_node r) as [n|], (rt_app r) as [[a sv]|];
    [destruct (srv_Start _) as [w [err|]]; [|destruct (raft_Start _) as [n' [err|]]]|..].
  all: simplify_eq; split_and!; try done; rewrite !acquired_emit.
  all: cbn [rt_events set_rt_node set_rt_app set_rt_execution]; rewrite ?acquired_emit.
  all: change (acquired (CancelExecution :: ?l)) with (acquired l); change (acquired (StopApplication :: ?l)) with (acquired l).
  all: change (acquired (StartNode :: StartScheduler :: ?l)) with (acquired l); rewrite ?acquired_stop, ?acquired_workers.
  all: unfold acquired; cbn; rewrite ?omap_app; cbn; by rewrite ?app_nil_r.
Qed.
End MainFacts.

(** ** Facts about the process *)

(** The steps a process can still make. *)
Definition steps_left (p : process) : nat :=
  length (p_tasks p) + (if p_signal p then 0 else 1) +
  match p_main p with Select => 2 + length (p_shutdown p) | ShuttingDown todo => 1 + length todo | Returned => 0 end.

Definition phase_ok (p : process) : Prop :=
  match p_main p with
  | Select => p_done p = [] /\ p_taken p = None
  | ShuttingDown todo => p_done p ++ todo = p_shutdown p /\ (p_signal p = true \/ is_Some (p_taken p))
  | Returned => p_done p = p_shutdown p /\ (p_signal p = true \/ is_Some (p_taken p))
  end.

Definition no_background (p : process) : Prop := Forall (fun t => background t = false) (p_tasks p).

(** [n] goroutines were started; each reports once at most, and the channel has room. *)
Definition process_ok (calls : list event) (n : nat) (p : process) : Prop :=
  p_shutdown p = calls /\ p_lost p = [] /\ n < p_cap p /\
  length (p_errCh p) + length (p_tasks p) <= n /\ phase_ok p /\ (WaitBackground ∈ p_done p -> no_background p).

Lemma reportError_ok calls n e p :
  process_ok calls n p -> length (p_errCh p) + length (p_tasks p) < n -> process_ok calls n (reportError e p).
Proof.
  intros (Hs & Hl & Hc & Hn & Hp & Hw) Hlt. destruct e as [e|]; [|done]. unfold reportError.
  destruct (Nat.ltb_spec (length (p_errCh p)) (p_cap p)); [|lia].
  unfold process_ok, phase_ok, no_background in *. cbn. rewrite length_app. cbn. split_and!; done || lia.
Qed.

Section StepFacts.
Context (ends : task -> bool) (returns : event -> bool).
Notation pstep := (pstep ends returns).

(** What ends and returns: the goroutines that are gone and the calls that were made. *)
Definition ended_ok (started : list task) (p : process) : Prop :=
  p_tasks p ⊆ started /\ (forall t, t ∈ started -> ends t = true \/ t ∈ p_tasks p) /\
  Forall (fun e => e = WaitBackground \/ returns e = true) (p_done p).

Lemma ended_ok_report started e p : ended_ok started p -> ended_ok started (reportError e p).
Proof. destruct e; [|done]. unfold reportError. by case_match. Qed.

Lemma pstep_ended started p p' : ended_ok started p -> pstep p p' -> ended_ok started p'.
Proof.
  intros (Hsub & Hgone & Hdone) E. destruct E as [i t answer p Hi He|p Hsig|p Hm Hsig|e es p Hm He|e todo p Hm Hr|p Hm]; try done.
  - apply ended_ok_report. split_and!; [|intros t' Ht'; destruct (Hgone t' Ht') as [?|Hin]; [by left|]|done]; cbn.
    + intros t' Ht'. apply Hsub. eapply elem_of_submseteq; [exact Ht'|]. apply sublist_submseteq, sublist_delete.
    + apply list_elem_of_lookup in Hin as [j Hj]. destruct (decide (i = j)) as [->|Hij]; [left; congruence|right].
      rewrite delete_take_drop, elem_of_app. destruct (decide (j < i)).
      * left. apply (list_elem_of_lookup_2 _ j). by rewrite lookup_take_lt.
      * right. apply (list_elem_of_lookup_2 _ (j - Datatypes.S i)). rewrite lookup_drop. rewrite <- Hj. f_equal. lia.
  - split_and!; try done. cbn. apply Forall_app. split; [done|]. apply Forall_singleton. destruct e; auto.
Qed.

Lemma pstep_ok calls n p p' : process_ok calls n p -> pstep p p' -> process_ok calls n p'.
Proof.
  intros (Hs & Hl & Hc & Hn & Hp & Hw) E. unfold phase_ok in Hp. destruct E as [i t answer p Hi He|p Hsig|p Hm Hsig|e es p Hm He|e todo p Hm Hr|p Hm].
  - pose proof (lookup_lt_Some _ _ _ Hi) as Hlt.
    pose proof (length_delete _ _ (mk_is_Some _ _ Hi)) as Hd.
    apply reportError_ok; [|cbn; lia]. split_and!; try done; [cbn; lia|].
    intros Hin. specialize (Hw Hin). unfold no_background in *. cbn. by apply Forall_delete.
  - split_and!; try done. unfold phase_ok in *. cbn. destruct (p_main p); naive_solver.
  - rewrite Hm in Hp. destruct Hp as [Hd _]. split_and!; try done. unfold phase_ok. cbn. rewrite Hd. by auto.
  - rewrite Hm in Hp. destruct Hp as [Hd _]. rewrite He in Hn. cbn in Hn.
    split_and!; try done; unfold phase_ok; cbn; [lia|rewrite Hd; by eauto].
  - rewrite Hm in Hp. destruct Hp as [Hd Hor]. split_and!; try done; unfold phase_ok; cbn.
    + by rewrite <- app_assoc.
    + intros [Hin|<-%list_elem_of_singleton]%elem_of_app; [by apply Hw|]. exact Hr.
  - rewrite Hm in Hp. destruct Hp as [Hd Hor]. rewrite app_nil_r in Hd. split_and!; try done.
Qed.

Lemma pstep_decreases p p' : pstep p p' -> steps_left p' < steps_left p.
Proof.
  intros E. destruct E as [i t answer p Hi He|p Hsig|p Hm Hsig|e es p Hm He|e todo p Hm Hr|p Hm]; unfold steps_left.
  - pose proof (lookup_lt_Some _ _ _ Hi) as Hlt.
    pose proof (length_delete _ _ (mk_is_Some _ _ Hi)) as Hd.
    destruct (task_error t answer) as [e|]; unfold reportError; [case_match|]; cbn; lia.
  - rewrite Hsig. cbn. lia.
  - rewrite Hm. cbn. lia.
  - rewrite Hm. cbn. lia.
  - rewrite Hm. cbn. lia.
  - rewrite Hm. cbn. lia.
Qed.

Lemma background_cases (ts : list task) :
  Forall (fun t => background t = false) ts \/ exists i t, ts !! i = Some t /\ background t = true.
Proof.
  induction ts as [|t ts [IH|(i & t' & Hi & Hb)]]; [by left| |right; by exists (Datatypes.S i), t'].
  destruct (background t) eqn:E; [right; by exists 0, t|left; by constructor].
Qed.

(** [main] leaves its select when there is something to receive. *)
Lemma select_wakes p :
  p_main p = Select -> p_signal p = true \/ p_errCh p ≠ [] ->
  exists p', pstep p p' /\ p_main p' = ShuttingDown (p_shutdown p).
Proof.
  intros Hm [Hs|He]; [eexists; split; [by apply main_signalled|done]|].
  destruct (p_errCh p) as [|e es] eqn:E; [done|]. eexists; split; [by eapply main_failed|done].
Qed.

(** A shutdown that waits for no goroutine that hangs, and calls nothing that hangs, goes on
    without another signal. *)
Lemma shutdown_progress todo p :
  p_main p = ShuttingDown todo -> (forall t, t ∈ p_tasks p -> background t = true -> ends t = true) ->
  (forall e, e ∈ todo -> e ≠ WaitBackground -> returns e = true) ->
  exists p', pstep p p' /\ p_signal p' = p_signal p.
Proof.
  intros Hm Ht Hr. destruct todo as [|e todo]; [eexists; split; [by apply main_returns|done]|].
  assert (call_returns returns e p \/ e = WaitBackground) as [Hc| ->]
    by (destruct e; try (left; apply Hr; [left|done]); by right); [eexists; split; [by apply main_call|done]|].
  destruct (background_cases (p_tasks p)) as [Hb|(i & t & Hi & Hb)]; [eexists; split; [by apply main_call|done]|].
  exists (reportError (task_error t None) (set_tasks (delete i (p_tasks p)) p)). split.
  - apply (task_ends _ _ i t None); [done|]. apply Ht; [by eapply list_elem_of_lookup_2|done].
  - destruct (task_error t None); [|done]. unfold reportError. by case_match.
Qed.

End StepFacts.

(** Where the calls of [Shutdown] stand. *)
Lemma wait_is_cancelled calls n todo p :
  process_ok (CancelExecution :: WaitBackground :: calls) n p -> WaitBackground ∉ calls ->
  p_main p = ShuttingDown (WaitBackground :: todo) -> cancelled p.
Proof.
  intros (Hs & _ & _ & _ & Hp & _) Hno Hm. unfold phase_ok in Hp. rewrite Hm, Hs in Hp. destruct Hp as [Hd _].
  right. destruct (p_done p) as [|e l]; cbn in Hd; simplify_eq. by left.
Qed.

Lemma done_after_wait calls n e p :
  process_ok (CancelExecution :: WaitBackground :: calls) n p -> e ∈ p_done p -> e ≠ CancelExecution -> no_background p.
Proof.
  intros (Hs & _ & _ & _ & Hp & Hw) Hin Hne. apply Hw. unfold phase_ok in Hp. rewrite Hs in Hp.
  assert (exists rest, p_done p ++ rest = CancelExecution :: WaitBackground :: calls) as [rest Hd].
  { destruct (p_main p); [|by destruct Hp as [? _]; eauto|].
    - destruct Hp as [Hp _]. rewrite Hp in Hin. by apply elem_of_nil in Hin.
    - exists []. rewrite app_nil_r. by destruct Hp. }
  destruct (p_done p) as [|a [|b l]]; cbn in Hd; simplify_eq; [by apply elem_of_nil in Hin| |by right; left].
  apply list_elem_of_singleton in Hin. done.
Qed.

Section Whole.
Context {S : Type} `{Storage S} {Conn KeyPair Pool V R : Type} `{Prometheus V R}.
Context (env : @Env S Conn KeyPair Pool R).
Notation runtime := (@runtime S Conn KeyPair Pool).
Implicit Types r : runtime.

Lemma shutdownCalls_eq r :
  rt_shutdown r = false -> rt_events (Shutdown r) = rt_events r ++ shutdownCalls r.
Proof. intros Hs. unfold Shutdown. by rewrite Hs. Qed.

Lemma when_elem (b : bool) (x y : event) : x ≠ y -> x ∉ when b [y].
Proof. destruct b; cbn; [by rewrite list_elem_of_singleton|]. intros _. apply not_elem_of_nil. Qed.

Lemma shutdownCalls_wait r : rt_execution r = true ->
  exists calls, shutdownCalls r = CancelExecution :: WaitBackground :: calls /\ WaitBackground ∉ calls.
Proof.
  intros Hx. unfold shutdownCalls. rewrite Hx. cbn [when app]. eexists. split; [reflexivity|].
  unfold shutdownServers, shutdownApplication, shutdownNode, shutdownRuntimeServices, shutdownPersistence.
  rewrite !not_elem_of_app. split_and!; by apply when_elem.
Qed.

Lemma shutdownCalls_calm r : Panicked ∉ shutdownCalls r.
Proof.
  unfold shutdownCalls, shutdownServers, shutdownApplication, shutdownNode, shutdownRuntimeServices, shutdownPersistence.
  rewrite !not_elem_of_app. split_and!; try by apply when_elem. by rewrite list_elem_of_singleton.
Qed.

Lemma newRuntime_ok cfg r :
  newRuntime env cfg = (r, None) ->
  balanced r /\ released (rt_events r) = [] /\ complete r /\ length (rt_workers r) = length (cfg_workers cfg).
Proof.
  unfold newRuntime. destruct (initialize env cfg rt_new) as [r0 [?|]] eqn:E; [done|]. intros [= <-].
  pose proof (initialize_workers env cfg r0 E). apply initialize_balanced in E as (Hb & _ & Hok).
  destruct Hok as [Hok _]. destruct (Hok eq_refl) as [? ?]. done.
Qed.

Lemma start_ok cfg r r' :
  newRuntime env cfg = (r, None) -> rt_Start r = (r', None) ->
  process_ok (shutdownCalls r') (length (cfg_workers cfg) + 5) (start_process cfg r').
Proof.
  intros (_ & _ & _ & Hw)%newRuntime_ok (_ & _ & _ & Hwk & _)%rt_Start_keeps.
  split_and!; try done.
  - cbn. lia.
  - cbn. rewrite length_map, Hwk, Hw. lia.
  - intros Hin. by apply elem_of_nil in Hin.
Qed.

(** Everything [Shutdown] waits for comes to an end. *)
Definition shutdown_ends (ends : task -> bool) (returns : event -> bool) r : Prop :=
  (forall t, t ∈ started_tasks r -> background t = true -> ends t = true) /\
  (forall e, e ∈ shutdownCalls r -> e ≠ WaitBackground -> returns e = true).

Lemma start_ended ends returns cfg r : ended_ok ends returns (started_tasks r) (start_process cfg r).
Proof. split_and!; [done|auto|constructor]. Qed.

(** [main] before the process runs. *)
Lemma main_ended args status effects :
  main env args = Ended status effects ->
  (status = 0%N \/ status = 2%N) /\ effects = [] \/
  status = 2%N /\ effects = [Opened r_WAL; Panicked] \/
  status = 1%N /\ forall x, x ∈ acquired effects -> x ∈ released effects.
Proof.
  unfold main. destruct (parseConfig args defaultConfig) as [cfg [e|]|st] eqn:Ep; [intros [= <- <-]; by auto| |].
  2: { intros [= <- <-]. left. split; [|done]. unfold parseConfig in Ep. destruct (flag_Parse _ _ _) eqn:Ef; [done|].
       injection Ep as ->. by eapply flag_Parse_status. }
  destruct (newRuntime env cfg) as [r0 [e|]] eqn:En.
  { intros [= <- <-]. right. unfold newRuntime in En. destruct (initialize _ _ _) as [ri [e'|]] eqn:Ei; [|done].
    injection En as <- _. apply initialize_balanced in Ei as ([Hs Hb] & _ & _ & Hpan).
    destruct (panicked ri) eqn:Epan; [rewrite Epan; left; split; [done|by apply Hpan]|].
    right. destruct (Shutdown_releases ri Hs) as [Hrel Hacq]. split.
    - unfold panicked. rewrite shutdownCalls_eq by done.
      assert (forall e, last (shutdownCalls ri) = Some e -> e ≠ Panicked) as Hlast.
      { intros x Hx ->. apply last_Some_elem_of, shutdownCalls_calm in Hx. done. }
      rewrite last_app. destruct (last (shutdownCalls ri)) as [x|] eqn:El.
      + specialize (Hlast x eq_refl). by destruct x.
      + apply last_None in El. unfold shutdownCalls in El. by apply (f_equal length) in El; rewrite !length_app in El; cbn in El; lia.
    - intros x. by rewrite Hrel, Hacq, Hb. }
  pose proof (newRuntime_ok cfg r0 En) as ([Hs Hb] & Hr & Hc & _).
  destruct (rt_Start r0) as [r [e|]] eqn:Es; [|done]. intros [= <- <-].
  right. right. split; [done|]. apply rt_Start_keeps in Es as (Hs' & Hh & Ha & _). rewrite Hs in Hs'.
  destruct (Shutdown_releases r Hs') as [-> ->]. intros x. rewrite Ha, Hb, Hr, Hh. cbn. intros Hin. apply elem_of_app. by right.
Qed.

(** The process [main] starts. *)
Lemma main_running args r p0 :
  main env args = Running r p0 ->
  exists cfg, p0 = start_process cfg r /\ process_ok (shutdownCalls r) (length (cfg_workers cfg) + 5) p0 /\
    rt_execution r = true /\ rt_shutdown r = false /\ released (rt_events r) = [] /\ acquired (rt_events r) ≡ₚ held r.
Proof.
  unfold main. destruct (parseConfig args defaultConfig) as [cfg [e|]|st] eqn:Ep; [done| |done].
  destruct (newRuntime env cfg) as [r0 [e|]] eqn:En; [done|]. destruct (rt_Start r0) as [r1 [e|]] eqn:Es; [done|].
  intros [= <- <-]. exists cfg. pose proof (newRuntime_ok cfg r0 En) as ([Hs Hb] & Hr & Hc & _).
  pose proof (rt_Start_ok r0 r1 Es Hc) as (Hs' & Hh & _ & Hr' & Ha').
  pose proof (rt_Start_keeps r0 r1 None Es) as (_ & _ & _ & _ & Hx). rewrite Hs in Hs'. rewrite Hr in Hb. cbn in Hb.
  split_and!; [done|by eapply start_ok|done|done|by rewrite Hr'|by rewrite Ha', Hh].
Qed.

(** C34: how a node ends and what it gives back.  [main] ends at once with status 0 or 2 and
    without an effect when the command line asks for help or is refused, by a panic with only
    the log open when the node ID cannot be a label of the metrics, or with status 1, after
    releasing every resource it acquired, when the node cannot be built or started.
    Otherwise, whatever the servers, the scheduler and the workers return and when, and
    whichever of them hang: no reported error is lost; [main] leaves its select only for a
    signal or an error, and can leave it when there is one; when it waits for the background
    goroutines their context has ended, and the application, the node and the log are stopped
    and closed only when none is left; the process makes finitely many steps.  A shutdown
    whose background goroutines all end and whose calls all return is never stuck before
    [main] returns.  If [main] returns, every resource has been released once, and no
    background goroutine and no call hung: otherwise the node never exits by itself. *)
Theorem node_process_ends args :
  match main env args with
  | Ended status effects =>
      (status = 0%N \/ status = 2%N) /\ effects = [] \/
      status = 2%N /\ effects = [Opened r_WAL; Panicked] \/
      status = 1%N /\ forall x, x ∈ acquired effects -> x ∈ released effects
  | Running r p0 =>
      forall ends returns p, rtc (pstep ends returns) p0 p ->
        p_lost p = [] /\
        (p_main p = Select \/ p_signal p = true \/ is_Some (p_taken p)) /\
        (p_main p = Select -> p_signal p = true \/ p_errCh p ≠ [] ->
         exists p', pstep ends returns p p' /\ p_main p' = ShuttingDown (p_shutdown p)) /\
        (forall todo, p_main p = ShuttingDown (WaitBackground :: todo) -> cancelled p) /\
        (StopApplication ∈ p_done p \/ StopNode ∈ p_done p \/ Closed r_WAL ∈ p_done p -> no_background p) /\
        (forall p', pstep ends returns p p' -> steps_left p' < steps_left p) /\
        (shutdown_ends ends returns r -> forall todo, p_main p = ShuttingDown todo ->
         exists p', pstep ends returns p p' /\ p_signal p' = p_signal p) /\
        (p_main p = Returned -> shutdown_ends ends returns r /\
         released (rt_events r ++ p_done p) ≡ₚ acquired (rt_events r ++ p_done p))
  end.
Proof.
  destruct (main env args) as [status effects|r p0] eqn:Em; [by eapply main_ended|].
  apply main_running in Em as (cfg & -> & Hok0 & Hx & Hs & Hr & Ha). intros ends returns p Hrun.
  destruct (shutdownCalls_wait r Hx) as (calls & Hcalls & Hno).
  assert (process_ok (shutdownCalls r) (length (cfg_workers cfg) + 5) p /\ ended_ok ends returns (started_tasks r) p) as [Hok Hend].
  { pose proof (start_ended ends returns cfg r) as Hend. clear -Hok0 Hend Hrun.
    induction Hrun as [|p1 p2 p3 Hstep _ IH]; [done|]. apply IH; [by eapply pstep_ok|by eapply pstep_ended]. }
  pose proof Hok as Hok'. rewrite Hcalls in Hok'. destruct Hok as (Hsd & Hl & _ & _ & Hp & Hw).
  destruct Hend as (Hsub & Hgone & Hdone). split_and!.
  - done.
  - unfold phase_ok in Hp. destruct (p_main p); [by left|right; by apply Hp..].
  - apply select_wakes.
  - intros todo Hm. by eapply wait_is_cancelled.
  - intros [Hi|[Hi|Hi]]; by eapply done_after_wait.
  - intros p' Hstep. by eapply pstep_decreases.
  - intros [Ht Hc] todo Hm. eapply shutdown_progress; [done|auto|]. intros e He. apply Hc.
    unfold phase_ok in Hp. rewrite Hm, Hsd in Hp. destruct Hp as [<- _]. apply elem_of_app. by right.
  - intros Hm. unfold phase_ok in Hp. rewrite Hm, Hsd in Hp. destruct Hp as [Hd _]. split.
    + split.
      * intros t Ht Hb. destruct (Hgone t Ht) as [?|Hin]; [done|]. exfalso.
        assert (no_background p) as Hnb by (apply Hw; rewrite Hd, Hcalls; right; left).
        unfold no_background in Hnb. rewrite Forall_forall in Hnb. specialize (Hnb t Hin). congruence.
      * intros e He Hne. rewrite Hd, Forall_forall in Hdone. by destruct (Hdone e He).
    + rewrite Hd. rewrite <- shutdownCalls_eq by done. destruct (Shutdown_releases r Hs) as [-> ->].
      rewrite Hr. cbn. by rewrite Ha.
Qed.

End Whole.

(** A run: a node that starts, whose Raft server fails; [main] receives the error and
    shuts the node down, while the scheduler and the worker end with their context. *)
Definition run_args : list bytes :=
  map string_bytes ["-id=a"; "-peers=a=h:1,b=h:2"; "-workers=w1"; "-tls-ca=ca"; "-tls-cert=c"; "-tls-key=k"].

Lemma node_process_runs :
  exists r p0 p, main good_env run_args = Running r p0 /\ rtc (pstep (fun _ => true) (fun _ => true)) p0 p /\ p_main p = Returned /\
    p_taken p = Some (Wrap "Raft gRPC server" (Wrap "serve gRPC" (Msg "accept failed"))) /\ p_signal p = false.
Proof.
  destruct (main good_env run_args) as [status es|r p0] eqn:E.
  { assert (match main good_env run_args with Running _ _ => true | _ => false end = true) as Hr by (vm_compute; reflexivity).
    rewrite E in Hr. discriminate. }
  assert (match main good_env run_args with Running _ p => Some p | _ => None end = Some p0) as Hp by by rewrite E.
  vm_compute in Hp. injection Hp as <-. eexists r, _, _. split; [done|]. split.
  { eapply rtc_l; [apply (task_ends _ _ 0 (ServeTask r_raftServer) (Some (Msg "accept failed"))); reflexivity|]. cbn.
    eapply rtc_l; [eapply main_failed; reflexivity|]. cbn.
    eapply rtc_l; [eapply main_call; [reflexivity|done]|]. cbn.
    eapply rtc_l; [apply (task_ends _ _ 4 (WorkerTask "w1") (Some Canceled)); reflexivity|]. cbn.
    eapply rtc_l; [apply (task_ends _ _ 3 SchedulerTask (Some Canceled)); reflexivity|]. cbn.
    eapply rtc_l; [eapply main_call; [reflexivity|repeat constructor]|]. cbn.
    do 8 (eapply rtc_l; [eapply main_call; [reflexivity|done]|]; cbn).
    eapply rtc_l; [apply main_returns; reflexivity|]. apply rtc_refl. }
  split_and!; reflexivity.
Qed.
